(* ===== verification/_CoqProject ===== *)
-Q . S2P
Prelude.v
LruGen.v
EthDma.v
YatseMac.v
YatseNet.v
YatseTx.v
YatseRx.v
YatseDma.v
YatseDrv.v
Z48soc.v
Resource.v
Board.v
Kfifo.v
Sync.v
Mutex.v
Rbtree.v
Deadline.v
Timer.v
Ieee754.v
FpArith.v
FpConv.v
FpSqrt.v
FpTotal.v
Cp1emu.v
Cp1Insn.v
Cp1Run.v
