(* ===== verification/Prelude.v ===== *)
(** * Z4800 platform software: a verification library

    The repository holds the Z4800, a multi-core MIPS soft processor for FPGA
    boards (src/core: VHDL, the cache tables' generator, boot code), and the Linux
    3.1 kernel ported to it (src/z4800-kernel). This library models the parts that
    were written for the Z4800 and the kernel components they rest on, and proves
    what makes them correct. Paths below are relative to src/z4800-kernel unless
    they start with core/.

    ** The parts and the files that model them

    - [Prelude] (this file): machine integers and their wrap-around, bit lemmas,
      lists, the [outcome] monad for code that can fail, BUG or run out of fuel,
      and the library's tactics and hints.
    - [LruGen]: core/hdl/z4800/lrugen/lrugen.c, the program that writes the ROM of
      the caches' replacement state machine. [fact] to [lookup_perm] are its
      functions, [main] is the text it prints.
    - [EthDma]: core/hdl/eth_dma/eth_dma.vhd, the Ethernet DMA engine, at the level
      of bus transactions: channels with a descriptor RAM, a completion counter and
      a control register.
    - [YatseMac], [YatseNet], [YatseTx], [YatseRx], [YatseDma], [YatseDrv]:
      drivers/net/yatse, the Ethernet driver of that engine. [YatseMac] is the MAC
      and MDIO side over an interface (the classes [MacDev] and [MacRegs]) for the
      vendor's MAC core; [YatseNet] has the driver's data and the kernel services
      it calls (socket buffers, DMA mappings, NAPI); [YatseTx] and [YatseRx] are
      the data path, [YatseDma] the rings, [YatseDrv] open, stop and the checks of
      probe, composed from the others.
    - [Z48soc]: arch/mips/z48soc (z48soc_int.c, z48soc_smp.c, z48soc_mem.c,
      z48soc_time.c) over the interrupt router (core/hdl/z4800/zirqrouter.vhd, clock
      by clock) and the mailbox (core/hdl/z4800/mbox.vhd, access by access).
    - [Resource]: kernel/resource.c, the tree of address ranges. [Board] registers
      the devices of both boards (arch/mips/z48soc/z48soc_mach_*.c) in it, through
      platform_device_add (drivers/base/platform.c), after resource_init
      (arch/mips/kernel/setup.c) has entered the memory map of [Z48soc].
    - [Kfifo]: kernel/kfifo.c, the ring buffer, with records and user transfers.
    - [Sync]: kernel/semaphore.c ([Semaphore]) and lib/rwsem-spinlock.c ([RwSem]).
    - [Mutex]: kernel/mutex.c with include/asm-generic/mutex-dec.h, kernel/mutex.h
      and mutex_spin_on_owner of kernel/sched.c.
    - [Rbtree]: lib/rbtree.c and include/linux/rbtree.h, on a memory of nodes that
      hold the parent pointer and the colour in one word.
    - [Deadline]: block/deadline-iosched.c ([Deadline]) over the sorted tree and the
      dispatch queue of block/elevator.c ([Elevator]), which call [Rbtree].
    - [Timer]: kernel/timer.c, the timer wheel of every processor: what starts,
      moves and stops timers, and __run_timers with handlers that do so meanwhile.
    - [Ieee754], [FpArith], [FpConv], [FpSqrt], [FpTotal]: the floating-point
      library of arch/mips/math-emu, which stands in for the FPU the Z4800 does not
      have. [Ieee754] has numbers, exceptions and rounding (ieee754*.h, ieee754.c,
      ieee754sp.c, ieee754dp.c), [FpArith] the four operations ([fadd] is
      sp_add.c and dp_add.c, and so on), [FpConv] signs, comparison, conversions
      and the other functions, [FpSqrt] the two square roots; the files of the two
      precisions are one definition over a [format]. [FpTotal] has what holds for
      every operand and every control register.
    - [Cp1emu]: the emulator of floating-point instructions (cp1emu.c, dsemul.c,
      kernel_linkage.c) over that library and over user memory (the class
      [UserMem]), with the branch emulation of arch/mips/kernel/branch.c;
      [fpu_emulator_cop1Handler] is its entry from the exception handler. [Cp1Insn]
      has the theorems about one instruction, [Cp1Run] those about programs.

    ** How code becomes definitions

    A function of the source is a definition of the same name; a loop body or a
    labelled piece of a long function has a name of its own. Integers are [Z] with
    the conversion to their width written where the code can leave it. State is
    passed explicitly. Code that can fail returns [option] or [outcome]: following
    a bad pointer, an access out of range and a BUG_ON are failures, so a theorem
    that gives a result also says that none of them happens. Hardware, other
    processors and interrupts are inputs: lists of events, one for each point at
    which they can act, or steps of a schedule. Code outside the repository (the
    MAC core, the PHY library's phy_connect, the allocators' answers) is a
    parameter.

    ** What is proved

    - LruGen: the table lists each recency order once, the ROM implements
      least-recently-used replacement for every access sequence, and the printed
      text is exactly the ROM, for 1 to 11 ways.
    - Ethernet: the transmit path is a FIFO under every interleaving, the tasklet
      and the poll routine terminate and lose nothing, setup establishes the ring
      invariants or releases everything, the interrupt is always re-armed; what the
      MAC registers hold after setup and link changes; which words the engine
      reads; that yatse_stop cannot return, because it disables NAPI twice.
    - Z48soc: a cascaded interrupt is handled by one processor at a time and within
      a bounded time; no inter-processor interrupt is lost; the memory map.
    - Resource and Board: operations keep the tree well formed and fail exactly on
      conflicts, allocation finds the lowest slot, regions can be given back, and
      all devices of both boards register.
    - Kfifo: a bounded queue of elements or records, under every sequence of
      transfers and faults, with positions that wrap around.
    - Sync and Mutex: mutual exclusion, conservation, order of service and absence
      of lost wake-ups in every reachable state, for any number of tasks.
    - Rbtree: insertion, removal, replacement and iteration keep a red-black tree,
      terminate and touch nothing else.
    - Deadline: the dispatcher follows its policy and keeps trees and fifos
      consistent, writes are served within a bounded number of dispatches, and
      merged requests inherit the earlier deadline.
    - Timer: the operations change the set of pending timers as they promise and
      keep the wheels well formed; __run_timers ends, calls nothing early and every
      due timer once, in its tick, cascades and the wrap of jiffies included; the
      slack moves a timer only within its bounds.
    - Floating point: addition, subtraction, multiplication, division, the single
      precision square root and the conversions give the correctly rounded result
      in all four modes, with the right exceptions, subnormal and overflowing
      results included; what they give for zeros, infinities and NaNs. An exact
      result is a fraction of the least number ([rounded], [flags] in [Ieee754]), so
      no real numbers are needed. As instructions they store that result or end
      with SIGFPE and the register unchanged. The handler ends for every program and
      keeps the registers well formed; it agrees with branch.c on coprocessor
      branches; the stack frame of a delay slot and the signal frame lead back.

    A theorem with hypotheses is followed by a witness that applies it to a
    concrete state.

    ** Bounds and fuel

    Loops that are not structural take fuel and the theorems show that what the
    definitions pass is enough: the number of ring entries for the driver's loops,
    the number of polls of a hardware wait as in the code, the size of the tree
    for [Resource], and two more than the number of nodes for the walks of [Rbtree]
    and [Deadline] (a walk visits a node once). Running out is a failure, never a
    result. The generator's text is proved for up to 11 ways, where its ints still
    hold the factorials. The shifting loops of the floating-point library take
    as many rounds as the word has bits; the emulator executes at most two
    instructions per round, because one in a delay slot is no branch, and the
    handler at most 2^32 - EPC rounds, because each that goes on raises the program
    counter. __run_timers takes a round for each tick it has to catch up with,
    those that pass in its handlers included, and one for each timer of a tick; the
    distance to jiffies stays below 2^31. Task numbers are below the kernel's limit
    of 32768, which keeps the mutex count within its 32 bits.

    ** Not modelled

    - The processor's pipeline, caches and coherence (the rest of core/hdl/z4800,
      core/hdl/fast_cc, ccdma), the other devices (vga, pprdma, isp1362, dm9000,
      misc, the dummy masters and slaves), and the assembler boot code (core/boot):
      VHDL timing and machine code that have no counterpart in functions.
    - In the modelled parts: eth_align.vhd; registration calls of probe, remove and
      arch_init_irq; the proc files of resource.c, walk_system_ram_range,
      reserve_region_with_split and insert_resource_expand_to_fit; the scatter lists
      of kfifo.c; the augment callbacks of rbtree.c; __mutex_trylock_slowpath and
      the debug variants of the locks; the sysfs files, registration and merge hash
      of the block layer; the dynamic tick, hotplug and system calls of timer.c; of
      math-emu the printing of numbers, the statistics and the variants for 64-bit
      kernels. Each entry says so where it is defined.
    - That the double precision square root is correctly rounded: it is modelled
      and returns a number for every operand, but the error of its approximation is
      not bounded.
    - Memory ordering: barriers have no counterpart; steps of different processors
      interleave in a sequentially consistent way.
    - The rest of the kernel: other architectures, file systems, networking, memory
      management and drivers, which the platform uses as any Linux system does. *)

From stdpp Require Export prelude list gmap sorting strings pretty.
From Stdlib Require Export ZArith Lia Btauto.

#[global] Open Scope Z_scope.

(** ** Machine integers

    The Z4800 is a 32-bit little-endian MIPS: [int] and [long] are 32 bits
    wide and [char] is signed.  Values are [Z]; the functions below are the
    conversions to each width, and arithmetic of the C code is written with
    the conversion at every operation that can leave the range.  The kernel
    is built with -fno-strict-overflow, so signed overflow wraps as well. *)

Definition u8 (x : Z) : Z := x `mod` 2 ^ 8.
Definition u16 (x : Z) : Z := x `mod` 2 ^ 16.
Definition u32 (x : Z) : Z := x `mod` 2 ^ 32.
Definition u64 (x : Z) : Z := x `mod` 2 ^ 64.
Definition s8 (x : Z) : Z := (x + 2 ^ 7) `mod` 2 ^ 8 - 2 ^ 7.
Definition s32 (x : Z) : Z := (x + 2 ^ 31) `mod` 2 ^ 32 - 2 ^ 31.
Definition s64 (x : Z) : Z := (x + 2 ^ 63) `mod` 2 ^ 64 - 2 ^ 63.

Definition is_u8 (x : Z) : Prop := 0 ≤ x < 2 ^ 8.
Definition is_u16 (x : Z) : Prop := 0 ≤ x < 2 ^ 16.
Definition is_u32 (x : Z) : Prop := 0 ≤ x < 2 ^ 32.
Definition is_u64 (x : Z) : Prop := 0 ≤ x < 2 ^ 64.
Definition is_s32 (x : Z) : Prop := - 2 ^ 31 ≤ x < 2 ^ 31.
Definition is_s64 (x : Z) : Prop := - 2 ^ 63 ≤ x < 2 ^ 63.

#[global] Hint Unfold is_u8 is_u16 is_u32 is_u64 is_s32 is_s64 : core.

(** C's bit operators on these values, in a scope of their own. *)
Declare Scope c_scope.
Delimit Scope c_scope with C.
Infix ".&" := Z.land (at level 41, left associativity) : c_scope.
Infix ".|" := Z.lor (at level 45, left associativity) : c_scope.
Infix ".^" := Z.lxor (at level 43, left associativity) : c_scope.
Infix ".<<" := Z.shiftl (at level 38, left associativity) : c_scope.
Infix ".>>" := Z.shiftr (at level 38, left associativity) : c_scope.
Notation "~32 x" := (u32 (Z.lnot x)) (at level 30, right associativity) : c_scope.
#[global] Open Scope c_scope.

(** A C condition: an integer is true when it is not zero. *)
Definition truthy (x : Z) : bool := negb (x =? 0).

(** Width lemmas. *)
Section widths.
Local Ltac width := intros; unfold u8, u16, u32, u64, s8, s32, s64 in *;
  Z.div_mod_to_equations; lia.

Lemma u8_range x : 0 ≤ u8 x < 2 ^ 8. Proof. width. Qed.
Lemma u16_range x : 0 ≤ u16 x < 2 ^ 16. Proof. width. Qed.
Lemma u32_range x : 0 ≤ u32 x < 2 ^ 32. Proof. width. Qed.
Lemma u64_range x : 0 ≤ u64 x < 2 ^ 64. Proof. width. Qed.
Lemma s32_range x : - 2 ^ 31 ≤ s32 x < 2 ^ 31. Proof. width. Qed.
Lemma s64_range x : - 2 ^ 63 ≤ s64 x < 2 ^ 63. Proof. width. Qed.

Lemma u8_small x : 0 ≤ x < 2 ^ 8 → u8 x = x. Proof. width. Qed.
Lemma u16_small x : 0 ≤ x < 2 ^ 16 → u16 x = x. Proof. width. Qed.
Lemma u32_small x : 0 ≤ x < 2 ^ 32 → u32 x = x. Proof. width. Qed.
Lemma u64_small x : 0 ≤ x < 2 ^ 64 → u64 x = x. Proof. width. Qed.
Lemma s8_small x : - 2 ^ 7 ≤ x < 2 ^ 7 → s8 x = x. Proof. width. Qed.
Lemma s32_small x : - 2 ^ 31 ≤ x < 2 ^ 31 → s32 x = x. Proof. width. Qed.
Lemma s64_small x : - 2 ^ 63 ≤ x < 2 ^ 63 → s64 x = x. Proof. width. Qed.

Lemma u32_s32 x : u32 (s32 x) = u32 x.
Proof.
  unfold u32, s32. rewrite Zminus_mod_idemp_l. f_equal. lia.
Qed.
Lemma u32_add_l x y : u32 (u32 x + y) = u32 (x + y).
Proof. unfold u32. by rewrite Zplus_mod_idemp_l. Qed.
Lemma u32_add_r x y : u32 (x + u32 y) = u32 (x + y).
Proof. unfold u32. by rewrite Zplus_mod_idemp_r. Qed.
Lemma u32_sub_l x y : u32 (u32 x - y) = u32 (x - y).
Proof. unfold u32. by rewrite Zminus_mod_idemp_l. Qed.
Lemma u32_sub_r x y : u32 (x - u32 y) = u32 (x - y).
Proof. unfold u32. by rewrite Zminus_mod_idemp_r. Qed.
Lemma u32_u32 x : u32 (u32 x) = u32 x.
Proof. apply u32_small, u32_range. Qed.
End widths.

(** ** Arrays indexed by a C integer

    [aget l i] reads cell [i]; [aset l i x] writes it.  An access outside the
    array is [None], never a default value. *)
Section arrays.
Context {A : Type}.
Implicit Types (l : list A) (i : Z) (x : A).

Definition alen l : Z := Z.of_nat (length l).
Definition aget l i : option A :=
  if bool_decide (0 ≤ i) then l !! Z.to_nat i else None.
Definition aset l i x : option (list A) :=
  if bool_decide (0 ≤ i < alen l) then Some (<[Z.to_nat i := x]> l) else None.

Lemma aget_Some_range l i x : aget l i = Some x → 0 ≤ i < alen l.
Proof.
  unfold aget, alen. case_bool_decide; [|done].
  intros ?%lookup_lt_Some. lia.
Qed.
Lemma aget_is_Some l i : 0 ≤ i < alen l → is_Some (aget l i).
Proof.
  intros. unfold aget, alen in *. rewrite bool_decide_true by lia.
  apply lookup_lt_is_Some. lia.
Qed.
Lemma aget_nat l (n : nat) : aget l (Z.of_nat n) = l !! n.
Proof. unfold aget. rewrite bool_decide_true by lia. by rewrite Nat2Z.id. Qed.
Lemma aget_to_nat l i : 0 ≤ i → aget l i = l !! Z.to_nat i.
Proof. intros. unfold aget. by rewrite bool_decide_true. Qed.
Lemma aget_None l i : i < 0 ∨ alen l ≤ i → aget l i = None.
Proof.
  unfold aget, alen. intros. case_bool_decide; [|done].
  apply lookup_ge_None. lia.
Qed.
Lemma aset_Some l i x : 0 ≤ i < alen l → aset l i x = Some (<[Z.to_nat i := x]> l).
Proof. intros. unfold aset. by rewrite bool_decide_true. Qed.
Lemma aset_range l i x l' : aset l i x = Some l' → 0 ≤ i < alen l.
Proof. unfold aset. by case_bool_decide. Qed.
Lemma aset_alen l i x l' : aset l i x = Some l' → alen l' = alen l.
Proof. unfold aset. case_bool_decide; [|done]. intros [= <-]. unfold alen. by rewrite length_insert. Qed.
Lemma aget_aset_eq l i x l' : aset l i x = Some l' → aget l' i = Some x.
Proof.
  unfold aset, aget, alen. case_bool_decide; [|done]. intros [= <-].
  rewrite bool_decide_true by lia. apply list_lookup_insert_eq. lia.
Qed.
Lemma aget_aset_ne l i j x l' : aset l i x = Some l' → i ≠ j → aget l' j = aget l j.
Proof.
  unfold aset, aget, alen. case_bool_decide; [|done]. intros [= <-] ?.
  case_bool_decide; [|done]. apply list_lookup_insert_ne. lia.
Qed.
Lemma alen_nonneg l : 0 ≤ alen l.
Proof. unfold alen. lia. Qed.
Lemma alen_cons x l : alen (x :: l) = alen l + 1.
Proof. unfold alen. simpl. lia. Qed.
Lemma alen_app l1 l2 : alen (l1 ++ l2) = alen l1 + alen l2.
Proof. unfold alen. rewrite length_app. lia. Qed.
Lemma alen_replicate n x : alen (replicate n x) = Z.of_nat n.
Proof. unfold alen. by rewrite length_replicate. Qed.
End arrays.

(** ** Loops

    A C loop is a step function: [inl s] goes round again in state [s],
    [inr r] leaves with result [r].  [loop fuel] runs at most [fuel] rounds
    and is [None] when they are used up.  [loop_total] is the rule every
    termination theorem of the library rests on: an invariant and a measure
    that each round decreases. *)
Section loops.
Context {S R : Type}.
Implicit Types (body : S → S + R) (s : S).

Fixpoint loop (fuel : nat) body s : option R :=
  match fuel with
  | O => None
  | Datatypes.S fuel =>
      match body s with inl s' => loop fuel body s' | inr r => Some r end
  end.

Lemma loop_total (I : S → Prop) (Q : R → Prop) (μ : S → nat) body :
  (∀ s, I s → match body s with
              | inl s' => I s' ∧ (μ s' < μ s)%nat
              | inr r => Q r
              end) →
  ∀ fuel s, I s → (μ s < fuel)%nat → ∃ r, loop fuel body s = Some r ∧ Q r.
Proof.
  intros Hbody. induction fuel as [|fuel IH]; intros s HI Hμ; [lia|]. simpl.
  specialize (Hbody s HI). destruct (body s) as [s'|r]; [|by eauto].
  destruct Hbody. apply IH; [done|lia].
Qed.

(** A loop whose step keeps an invariant and never leaves has no result,
    whatever the fuel. *)
Lemma loop_diverges (I : S → Prop) body :
  (∀ s, I s → ∃ s', body s = inl s' ∧ I s') →
  ∀ fuel s, I s → loop fuel body s = None.
Proof.
  intros Hbody. induction fuel as [|fuel IH]; intros s HI; simpl; [done|].
  destruct (Hbody s HI) as (s' & -> & HI'). auto.
Qed.

(** More fuel never changes a result. *)
Lemma loop_fuel_mono body f1 f2 s r :
  loop f1 body s = Some r → (f1 ≤ f2)%nat → loop f2 body s = Some r.
Proof.
  revert f2 s. induction f1 as [|f1 IH]; intros f2 s H Hle; [done|].
  destruct f2 as [|f2]; [lia|]. simpl in *.
  destruct (body s); [|done]. apply IH; [done|lia].
Qed.

Lemma loop_inv (I : S → Prop) (Q : R → Prop) body :
  (∀ s, I s → match body s with inl s' => I s' | inr r => Q r end) →
  ∀ fuel s r, I s → loop fuel body s = Some r → Q r.
Proof.
  intros Hbody. induction fuel as [|fuel IH]; intros s r HI H; simpl in H; [done|].
  specialize (Hbody s HI). destruct (body s); [by apply (IH _ _ Hbody)|by simplify_eq].
Qed.
End loops.

(** ** Outcomes of kernel code

    Code that can trip a [BUG_ON] or follow a bad pointer returns an
    [outcome]: its result, [Bug], or [Oops]. *)
Inductive outcome (A : Type) : Type :=
  | Ret (a : A)
  | Bug
  | Oops.
Arguments Ret {A} a.
Arguments Bug {A}.
Arguments Oops {A}.
#[export] Instance outcome_ret : MRet outcome := λ A a, Ret a.
#[export] Instance outcome_bind : MBind outcome := λ A B f m,
  match m with Ret a => f a | Bug => Bug | Oops => Oops end.
#[export] Instance outcome_eq_dec {A} `{EqDecision A} : EqDecision (outcome A).
Proof. solve_decision. Defined.

Definition BUG_ON (b : bool) : outcome unit := if b then Bug else Ret tt.
(** A pointer or index that must be valid. *)
Definition deref {A} (o : option A) : outcome A :=
  match o with Some a => Ret a | None => Oops end.
Lemma outcome_bind_Ret {A B} (m : outcome A) (f : A → outcome B) b :
  m ≫= f = Ret b ↔ ∃ a, m = Ret a ∧ f a = Ret b.
Proof. destruct m; simpl; naive_solver. Qed.

(** ** Bits

    [bits] holds the rewriting rules that push [Z.testbit] through the C
    operators; [bitwise] proves an equation between words bit by bit. *)
Create Rewrite HintDb bits.
#[export] Hint Rewrite Z.land_spec Z.lor_spec Z.lxor_spec Z.ldiff_spec : bits.
#[export] Hint Rewrite Z.lnot_spec using lia : bits.
#[export] Hint Rewrite Z.shiftr_spec using lia : bits.
#[export] Hint Rewrite Z.shiftl_spec using lia : bits.
#[export] Hint Rewrite Z.testbit_0_l : bits.
#[export] Hint Rewrite Z.bits_m1 using lia : bits.
#[export] Hint Rewrite Z.ones_spec using lia : bits.
#[export] Hint Rewrite Z.pow2_bits_eqb using lia : bits.
#[export] Hint Rewrite andb_false_r andb_true_r andb_false_l andb_true_l
  orb_false_r orb_true_r orb_false_l orb_true_l : bits.

Lemma testbit_mod_pow2 x w i :
  0 ≤ w → Z.testbit (x `mod` 2 ^ w) i = bool_decide (i < w) && Z.testbit x i.
Proof.
  intros Hw. case_bool_decide as Hi; simpl.
  - destruct (decide (0 ≤ i)).
    + apply Z.mod_pow2_bits_low. lia.
    + by rewrite !Z.testbit_neg_r by lia.
  - apply Z.mod_pow2_bits_high. lia.
Qed.
Lemma testbit_u32 x i : Z.testbit (u32 x) i = bool_decide (i < 32) && Z.testbit x i.
Proof. apply testbit_mod_pow2. lia. Qed.
Lemma testbit_u64 x i : Z.testbit (u64 x) i = bool_decide (i < 64) && Z.testbit x i.
Proof. apply testbit_mod_pow2. lia. Qed.
Lemma testbit_u8 x i : Z.testbit (u8 x) i = bool_decide (i < 8) && Z.testbit x i.
Proof. apply testbit_mod_pow2. lia. Qed.
Lemma testbit_u16 x i : Z.testbit (u16 x) i = bool_decide (i < 16) && Z.testbit x i.
Proof. apply testbit_mod_pow2. lia. Qed.
#[export] Hint Rewrite testbit_u32 testbit_u64 testbit_u8 testbit_u16 : bits.

Lemma testbit_above x w i : 0 ≤ x < 2 ^ w → w ≤ i → Z.testbit x i = false.
Proof.
  intros Hx Hi. destruct (decide (0 ≤ w)).
  - rewrite <-(Z.mod_small x (2 ^ w)) by done. by apply Z.mod_pow2_bits_high; lia.
  - rewrite Z.pow_neg_r in Hx by lia. lia.
Qed.

Ltac bitwise :=
  apply Z.bits_inj'; let i := fresh "i" in let Hi := fresh "Hi" in
  intros i Hi; autorewrite with bits;
  repeat (case_bool_decide || case_match); try btauto.

(** A word below [2 ^ w] is the sum of the bits below [w]: two such words with
    the same low bits are equal. *)
Lemma bits_inj_below w x y :
  0 ≤ x < 2 ^ w → 0 ≤ y < 2 ^ w →
  (∀ i, 0 ≤ i < w → Z.testbit x i = Z.testbit y i) → x = y.
Proof.
  intros Hx Hy H. apply Z.bits_inj'. intros i Hi.
  destruct (decide (i < w)); [by apply H|].
  by rewrite !(testbit_above _ w) by (done || lia).
Qed.

Lemma land_range_l x y w : 0 ≤ w → 0 ≤ x < 2 ^ w → 0 ≤ y → 0 ≤ x .& y < 2 ^ w.
Proof.
  intros Hw Hx Hy. split; [apply Z.land_nonneg; lia|].
  rewrite <-(Z.mod_small x (2 ^ w)) by done. rewrite <-Z.land_ones by done.
  rewrite <-Z.land_assoc, (Z.land_comm (Z.ones w)), Z.land_assoc, Z.land_ones by done.
  apply Z.mod_pos_bound. lia.
Qed.
Lemma lor_range x y w : 0 ≤ w → 0 ≤ x < 2 ^ w → 0 ≤ y < 2 ^ w → 0 ≤ x .| y < 2 ^ w.
Proof.
  intros Hw Hx Hy. split; [apply Z.lor_nonneg; lia|].
  replace (x .| y) with ((x .| y) `mod` 2 ^ w); [apply Z.mod_pos_bound; lia|].
  rewrite <-Z.land_ones by done. rewrite Z.land_lor_distr_l, !Z.land_ones by done.
  by rewrite !Z.mod_small.
Qed.

(** [(x & m) == 0] against a single bit. *)
Lemma land_bit x k : 0 ≤ k → truthy (x .& (1 .<< k)) = Z.testbit x k.
Proof.
  intros Hk. rewrite Z.shiftl_1_l. unfold truthy.
  destruct (Z.testbit x k) eqn:E.
  - apply negb_true_iff, Z.eqb_neq. intros H0.
    apply (f_equal (λ z, Z.testbit z k)) in H0.
    rewrite Z.land_spec, Z.testbit_0_l, E, Z.pow2_bits_true in H0; done.
  - apply negb_false_iff, Z.eqb_eq. apply Z.bits_inj'. intros i Hi.
    rewrite Z.land_spec, Z.testbit_0_l, Z.pow2_bits_eqb by lia.
    destruct (k =? i) eqn:Ek; [|by rewrite andb_false_r].
    apply Z.eqb_eq in Ek as <-. by rewrite E.
Qed.

Lemma testbit_s32 x i : 0 ≤ i < 32 → Z.testbit (s32 x) i = Z.testbit x i.
Proof.
  intros Hi. pose proof (testbit_u32 (s32 x) i) as H. rewrite u32_s32, testbit_u32 in H.
  by rewrite bool_decide_eq_true_2 in H by lia.
Qed.

Lemma s32_sign x : Z.testbit (s32 x) 31 = (s32 x <? 0).
Proof.
  pose proof (s32_range x). destruct (Z.ltb_spec (s32 x) 0).
  - apply negb_false_iff. rewrite <-Z.lnot_spec by lia.
    apply (testbit_above _ 31); [|lia]. unfold Z.lnot. lia.
  - apply (testbit_above _ 31); lia.
Qed.

(** [x & (1 << k)] on an int, the sign bit included. *)
Lemma land_s32_bit x k : 0 ≤ k < 32 → truthy (s32 x .& s32 (1 .<< k)) = Z.testbit x k.
Proof.
  intros Hk. rewrite <-testbit_s32 by done. destruct (decide (k = 31)) as [->|].
  - change (s32 (1 .<< 31)) with (-1 .<< 31). unfold truthy. rewrite s32_sign.
    pose proof (s32_range x). destruct (Z.ltb_spec (s32 x) 0) as [Hs|Hs].
    + apply negb_true_iff, Z.eqb_neq. intros H0.
      assert (Z.testbit (s32 x .& (-1 .<< 31)) 31 = false) as H1 by by rewrite H0.
      rewrite Z.land_spec, s32_sign in H1. apply Z.ltb_lt in Hs. by rewrite Hs in H1.
    + apply negb_false_iff, Z.eqb_eq. apply Z.bits_inj'. intros i Hi.
      rewrite Z.land_spec, Z.bits_0. destruct (decide (i < 31)).
      * by rewrite Z.shiftl_spec_low, andb_false_r by lia.
      * by rewrite (testbit_above (s32 x) 31) by lia.
  - rewrite (s32_small (1 .<< k)); [apply land_bit; lia|].
    rewrite Z.shiftl_mul_pow2 by lia. pose proof (Z.pow_lt_mono_r 2 k 31). lia.
Qed.

Lemma u32_lor x y : u32 (x .| y) = u32 x .| u32 y.
Proof. bitwise. Qed.

(** Bit fields that do not overlap add up. *)
Lemma lor_add_field a b k : 0 ≤ k → 0 ≤ a < 2 ^ k → a .| (b * 2 ^ k) = a + b * 2 ^ k.
Proof.
  intros Hk Ha. rewrite <-Z.shiftl_mul_pow2 by done. symmetry. apply Z.add_nocarry_lor.
  apply Z.bits_inj'. intros i Hi. autorewrite with bits. destruct (decide (i < k)).
  - rewrite (Z.testbit_neg_r b) by lia. by rewrite andb_false_r.
  - by rewrite (testbit_above a k) by lia.
Qed.

(** A mask of [k] low ones is a remainder: the ring buffers of the drivers. *)
Lemma land_mask_mod x k : 0 ≤ k → x .& (2 ^ k - 1) = x `mod` 2 ^ k.
Proof. intros. replace (2 ^ k - 1) with (Z.ones k) by (rewrite Z.ones_equiv; lia). by apply Z.land_ones. Qed.

(** [x & ~(2^k - 1)]: rounding down to an alignment. *)
Lemma align_down x k : is_u32 x → 0 ≤ k ≤ 32 → x .& ~32 (2 ^ k - 1) = 2 ^ k * (x / 2 ^ k).
Proof.
  intros Hx Hk. assert (0 < 2 ^ k) by (apply Z.pow_pos_nonneg; lia).
  transitivity (Z.ldiff x (Z.ones k)).
  - apply (bits_inj_below 32).
    + apply land_range_l; [lia|done|apply u32_range].
    + rewrite Z.ldiff_ones_r, Z.shiftr_div_pow2, Z.shiftl_mul_pow2 by lia. unfold is_u32 in Hx.
      pose proof (Z.mul_div_le x (2 ^ k)). pose proof (Z.div_pos x (2 ^ k)). nia.
    + intros i Hi. replace (2 ^ k - 1) with (Z.ones k) by (rewrite Z.ones_equiv; lia).
      rewrite Z.land_spec, testbit_u32, Z.lnot_spec, Z.ldiff_spec, bool_decide_true by lia. done.
  - rewrite Z.ldiff_ones_r, Z.shiftr_div_pow2, Z.shiftl_mul_pow2 by lia. lia.
Qed.

(** [n & (n - 1) == 0] for a positive [n]: the power-of-two test. *)
Lemma land_pred_pow2 n : 0 < n → n .& (n - 1) = 0 → n = 2 ^ Z.log2 n.
Proof.
  intros Hn H. pose proof (Z.log2_spec n Hn) as [Hlo Hhi].
  destruct (decide (n = 2 ^ Z.log2 n)) as [|Hne]; [done|]. exfalso.
  assert (Z.log2 (n - 1) = Z.log2 n) as Hl.
  { apply Z.log2_unique; [apply Z.log2_nonneg|]. lia. }
  assert (Z.testbit (n .& (n - 1)) (Z.log2 n) = true) as Hb.
  { rewrite Z.land_spec, Z.bit_log2 by done. simpl.
    rewrite <-Hl. apply Z.bit_log2.
    assert (0 < 2 ^ Z.log2 n) by (apply Z.pow_pos_nonneg; [lia|apply Z.log2_nonneg]). lia. }
  rewrite H, Z.testbit_0_l in Hb. done.
Qed.

(** Positions of a ring of [n] cells, counted from any of them. *)
Lemma ring_inj n a j k :
  0 ≤ j < n → 0 ≤ k < n → (a + j) `mod` n = (a + k) `mod` n → j = k.
Proof.
  intros Hj Hk E. pose proof (Z.div_mod (a + j) n ltac:(lia)) as H1.
  pose proof (Z.div_mod (a + k) n ltac:(lia)) as H2.
  rewrite E in H1. remember ((a + j) / n - (a + k) / n) as d eqn:Ed.
  assert (j - k = n * d) as H by (rewrite Ed, Z.mul_sub_distr_l; lia).
  destruct (Z.lt_trichotomy d 0) as [?|[->|?]]; [|lia|]; nia.
Qed.
Lemma ring_add n a j k : (((a + j) `mod` n) + k) `mod` n = (a + (j + k)) `mod` n.
Proof. rewrite Zplus_mod_idemp_l. f_equal. lia. Qed.
Lemma ring_range n a : 0 < n → 0 ≤ a `mod` n < n.
Proof. apply Z.mod_pos_bound. Qed.
Lemma ring_wrap n a : (a + n) `mod` n = a `mod` n.
Proof. destruct (decide (n = 0)) as [->|]; [f_equal; lia|]. rewrite <-(Z.mul_1_l n) at 1. by apply Z_mod_plus_full. Qed.

(** ** Lists *)

Lemma StronglySorted_lookup {A} (R : relation A) l i j x y :
  StronglySorted R l → l !! i = Some x → l !! j = Some y → (i < j)%nat → R x y.
Proof.
  intros Hs. revert i j. induction Hs as [|a l Hs IH Hf]; intros i j Hi Hj Hlt; [done|].
  destruct j as [|j]; [lia|]. destruct i as [|i]; simpl in *.
  - simplify_eq. rewrite Forall_lookup in Hf. by eapply Hf.
  - apply (IH i j); auto. lia.
Qed.

Lemma StronglySorted_bind {A B} (R : relation A) (R' : relation B) (f : A → list B) l :
  StronglySorted R l →
  (∀ x, x ∈ l → StronglySorted R' (f x)) →
  (∀ x y a b, x ∈ l → y ∈ l → R x y → a ∈ f x → b ∈ f y → R' a b) →
  StronglySorted R' (l ≫= f).
Proof.
  induction 1 as [|x l Hs IH Hf]; intros H1 H2; [constructor|].
  rewrite bind_cons. apply StronglySorted_app_2.
  - intros a b Ha (y & Hb & Hy)%list_elem_of_bind.
    rewrite Forall_forall in Hf. eapply (H2 x y); eauto; set_solver.
  - apply H1. set_solver.
  - apply IH; intros; [apply H1|eapply H2]; eauto; set_solver.
Qed.

Lemma length_bind_const {A B} (f : A → list B) l k :
  (∀ x, x ∈ l → length (f x) = k) → length (l ≫= f) = (length l * k)%nat.
Proof.
  induction l as [|x l IH]; intros H; [done|].
  rewrite bind_cons, length_app, IH, H by set_solver. simpl. lia.
Qed.

Lemma last_before {A} (l : list A) v w :
  last l = Some v → w ∈ l → w ≠ v → [w; v] `sublist_of` l.
Proof.
  intros (l' & ->)%last_Some Hw Hne.
  assert (w ∈ l') as (l1 & l2 & ->)%list_elem_of_split by set_solver.
  rewrite <-app_assoc. apply sublist_inserts_l. simpl. apply sublist_skip.
  apply sublist_inserts_l. done.
Qed.

Lemma filter_all {A} (P : A → Prop) `{∀ x, Decision (P x)} (l : list A) :
  (∀ x, x ∈ l → P x) → filter P l = l.
Proof.
  induction l as [|x l IH]; intros Hl; [done|].
  rewrite filter_cons_True by (apply Hl; set_solver). f_equal. apply IH. set_solver.
Qed.

Lemma StronglySorted_filter {A} (R : relation A) (P : A → Prop) `{∀ x, Decision (P x)} l :
  StronglySorted R l → StronglySorted R (filter P l).
Proof.
  induction 1 as [|x l Hs IH Hf]; [constructor|].
  rewrite filter_cons. case_decide; [|done]. constructor; [done|].
  rewrite Forall_forall in Hf. apply Forall_forall. intros y [_ Hy]%list_elem_of_filter. auto.
Qed.

Lemma StronglySorted_fmap_elem {A B} (f : A → B) (R : relation A) (R' : relation B) l :
  StronglySorted R l → (∀ x y, x ∈ l → y ∈ l → R x y → R' (f x) (f y)) →
  StronglySorted R' (f <$> l).
Proof.
  induction 1 as [|x l Hs IH Hf]; intros HR; [constructor|]. rewrite fmap_cons.
  constructor; [apply IH; intros; apply HR; [set_solver..|done]|].
  rewrite Forall_forall in Hf. apply Forall_forall. intros b (y & -> & Hy)%list_elem_of_fmap.
  apply HR; [set_solver..|by apply Hf].
Qed.

Lemma take_S_insert {A} (l : list A) i x :
  (i < length l)%nat → take (S i) (<[i := x]> l) = take i l ++ [x].
Proof.
  intros. rewrite (take_S_r _ _ x) by by apply list_lookup_insert_eq.
  by rewrite take_insert_ge.
Qed.

Lemma NoDup_insert_fresh {A} (l : list A) i x : NoDup l → (x ∉ l) → NoDup (<[i := x]> l).
Proof.
  intros Hl Hx. apply NoDup_alt. intros j k y Hj Hk.
  rewrite list_lookup_insert in Hj, Hk. rewrite NoDup_alt in Hl.
  repeat case_decide; simplify_eq; try (by exfalso; eapply Hx, list_elem_of_lookup_2); naive_solver.
Qed.
