(* ===== verification/LruGen.v ===== *)
(** * The cache-replacement table generator

    Model of [core/hdl/z4800/lrugen/lrugen.c], the program that writes the
    ROM image (a .mif file) of the Z4800 caches' LRU state machine.  A state
    of the machine is a recency order of the ways (most recent first), coded
    as its number in the table of all orders; a row of the ROM maps
    (state, accessed way) to (next state, least recent way).

    [fact] ... [lookup_perm] are the C functions, [main] is the program's
    output text.  The theorems show that the table lists every order once, in
    lexicographic order, and that the ROM implements LRU replacement. *)

From S2P Require Import Prelude.
From Stdlib Require Import Ascii.

Module LruGen.

(** ** The C functions *)

(** [int fact(int x)]: [for(i = x; i > 1; i--) ret *= i]. *)
Definition fact_step (st : Z * Z) : (Z * Z) + Z :=
  let '(ret, i) := st in
  if 1 <? i then inl (s32 (ret * i), i - 1) else inr ret.
Definition fact (x : Z) : option Z := loop (S (Z.to_nat x)) fact_step (1, x).

(** [int log2c(int x)]: [while(i < x) { i <<= 1; ret++; }].  32 rounds are
    enough for every [x <= 2^30]; beyond that the C loop has no end. *)
Definition log2c_step (x : Z) (st : Z * Z) : (Z * Z) + Z :=
  let '(ret, i) := st in
  if i <? x then inl (s32 (ret + 1), s32 (i .<< 1)) else inr ret.
Definition log2c (x : Z) : option Z := loop 33 (log2c_step x) (0, 1).

(** [binprint]: the low [nbits] bits of [x], least significant first into
    [s], then copied backwards into [o]. *)
Fixpoint binprint_digits (k : nat) (x : Z) : list ascii :=
  match k with
  | O => []
  | S k => (if truthy (x .& 1) then "1" else "0")%char :: binprint_digits k (x .>> 1)
  end.
Definition binprint (x nbits : Z) : option string :=
  if nbits <=? 32
  then Some (String.string_of_list_ascii (reverse (binprint_digits (Z.to_nat nbits) x)))
  else None.

(** [is_unique]: no value occurs twice in [p[0..n-1]]; [s] counts them. *)
Fixpoint is_unique_loop (todo : nat) (p s : list Z) (i : Z) : option bool :=
  match todo with
  | O => Some true
  | S todo =>
      v ← aget p i;
      c ← aget s v;
      if c =? 0 then s' ← aset s v (c + 1); is_unique_loop todo p s' (i + 1)
      else Some false
  end.
Definition is_unique (p : list Z) (n : Z) : option bool :=
  is_unique_loop (Z.to_nat n) p (replicate (Z.to_nat n) 0) 0.

(** [bump]: add one to the [n]-digit number [p] in base [t], most significant
    digit first; the result flag is the carry out. *)
Fixpoint bump (p : list Z) (n t : Z) : option (list Z * bool) :=
  match p with
  | [] => None
  | d :: rest =>
      '(rest, ret) ← (if 1 <? n then bump rest (n - 1) t else Some (rest, true));
      if (ret : bool) then
        let d := s32 (d + 1) in
        if d =? t then Some (0 :: rest, true) else Some (d :: rest, false)
      else Some (d :: rest, false)
  end.

(** [twiddle]: [repl] first, then the rest of [cur] in order, into [p]. *)
Fixpoint twiddle_loop (todo : nat) (cur : list Z) (repl : Z) (p : list Z) (i j : Z) :
    option (list Z) :=
  match todo with
  | O => Some p
  | S todo =>
      c ← aget cur i;
      if c =? repl then twiddle_loop todo cur repl p (i + 1) j
      else p' ← aset p j c; twiddle_loop todo cur repl p' (i + 1) (j + 1)
  end.
Definition twiddle (cur : list Z) (n repl : Z) (p : list Z) : option (list Z) :=
  p ← aset p 0 repl;
  twiddle_loop (Z.to_nat n) cur repl p 0 1.

(** [lookup]: the number of the row equal to [p] ([bcmp] over [n] ints), or
    -1. *)
Definition bcmp_eq (a b : list Z) (n : Z) : bool :=
  bool_decide (take (Z.to_nat n) a = take (Z.to_nat n) b).
Fixpoint lookup_loop (todo : nat) (perms : list (list Z)) (p : list Z) (n i : Z) : option Z :=
  match todo with
  | O => Some (-1)
  | S todo =>
      row ← aget perms i;
      if bcmp_eq row p n then Some i else lookup_loop todo perms p n (i + 1)
  end.
Definition lookup_perm (perms : list (list Z)) (p : list Z) (n nperms : Z) : option Z :=
  lookup_loop (Z.to_nat nperms) perms p n 0.

(** ** [main] *)

(** The row after [row]: copy it, [bump] it, and [bump] again
    [while(!is_unique(...))]. *)
Definition next_row_step (nways : Z) (row : list Z) : list Z + option (list Z) :=
  match is_unique row nways with
  | None => inr None
  | Some true => inr (Some row)
  | Some false =>
      match bump row nways nways with
      | None => inr None
      | Some (row', _) => inl row'
      end
  end.
Definition next_row (fuel : nat) (nways : Z) (prev : list Z) : option (list Z) :=
  '(row, _) ← bump prev nways nways;
  mjoin (loop fuel (next_row_step nways) row).

(** [for(n = 1; n < nperms; n++)]: fill the table row by row. *)
Fixpoint fill_perms (fuel todo : nat) (nways : Z) (perms : list (list Z)) :
    option (list (list Z)) :=
  match todo with
  | O => Some perms
  | S todo =>
      prev ← last perms;
      row ← next_row fuel nways prev;
      fill_perms fuel todo nways (perms ++ [row])
  end.
Definition iota (nways : Z) : list Z := seqZ 0 nways.
Definition gen_perms (fuel : nat) (nways nperms : Z) : option (list (list Z)) :=
  fill_perms fuel (Z.to_nat (nperms - 1)) nways [iota nways].

(** One entry of the ROM: the table's next state and the least recent way of
    state [i] when way [j] is used.  [pn] is the scratch row of the C code. *)
Definition rom_entry (perms : list (list Z)) (nways nperms : Z) (pn : list Z) (i j : Z) :
    option (list Z * Z * Z) :=
  cur ← aget perms i;
  pn ← twiddle cur nways j pn;
  next_state ← lookup_perm perms pn nways nperms;
  least ← aget cur (nways - 1);
  Some (pn, next_state, least).

Definition lookup_output (next_state : Z) : string :=
  if next_state =? -1 then "lookup failed
" else "".

Definition print_entry (nlrubits nwaybits i j next_state least : Z) : option string :=
  a ← binprint i nlrubits;
  b ← binprint j nwaybits;
  c ← binprint next_state nlrubits;
  d ← binprint least nwaybits;
  Some (lookup_output next_state +:+ a +:+ b +:+ " : " +:+ c +:+ d +:+ ";
").

Fixpoint emit (perms : list (list Z)) (nways nperms nlrubits nwaybits : Z) (pn : list Z)
    (cells : list (Z * Z)) : option string :=
  match cells with
  | [] => Some ""
  | (i, j) :: cells =>
      '(pn, next_state, least) ← rom_entry perms nways nperms pn i j;
      line ← print_entry nlrubits nwaybits i j next_state least;
      rest ← emit perms nways nperms nlrubits nwaybits pn cells;
      Some (line +:+ rest)
  end.

(** The two nested loops visit the cells in this order. *)
Definition cells (nways nperms : Z) : list (Z * Z) :=
  i ← seqZ 0 nperms; j ← seqZ 0 nways; [(i, j)].

Definition print_header (width depth : Z) : string :=
  "WIDTH=" +:+ pretty width +:+ ";
DEPTH=" +:+ pretty depth +:+ ";
ADDRESS_RADIX=BINARY;
DATA_RADIX=BINARY;
CONTENT BEGIN
".

(** The text [main] prints for [atoi(argv[1]) = nways]; the arrays are sized
    by [nways], so a negative count is no run at all. *)
Definition main (fuel : nat) (nways : Z) : option string :=
  if nways <? 0 then None else
  nwaybits ← log2c nways;
  nperms ← fact nways;
  nlrubits ← log2c nperms;
  perms ← gen_perms fuel nways nperms;
  depthbits ← log2c (s32 (nperms * nways));
  let pn := replicate (Z.to_nat nways) 0 in
  body ← emit perms nways nperms nlrubits nwaybits pn (cells nways nperms);
  Some (print_header (nlrubits + nwaybits) (s32 (1 .<< depthbits)) +:+ body +:+ "END;
").

(** The images checked in next to the generator (lru.2way.mif, lru.3way.mif). *)
Example main_2way : main 4 2 = Some "WIDTH=2;
DEPTH=4;
ADDRESS_RADIX=BINARY;
DATA_RADIX=BINARY;
CONTENT BEGIN
00 : 01;
01 : 11;
10 : 00;
11 : 10;
END;
".
Proof. vm_compute. reflexivity. Qed.

Example main_3way : main 27 3 = Some "WIDTH=5;
DEPTH=32;
ADDRESS_RADIX=BINARY;
DATA_RADIX=BINARY;
CONTENT BEGIN
00000 : 00010;
00001 : 01010;
00010 : 10010;
00100 : 00101;
00101 : 01001;
00110 : 10001;
01000 : 00010;
01001 : 01010;
01010 : 10110;
01100 : 00000;
01101 : 01100;
01110 : 10100;
10000 : 00101;
10001 : 01101;
10010 : 10001;
10100 : 00100;
10101 : 01100;
10110 : 10100;
END;
".
Proof. vm_compute. reflexivity. Qed.

(** For nine ways the address fields are 19 + 4 = 23 bits wide, but the
    announced DEPTH is only [1 << 22]. *)
Lemma depth_short_9way :
  fact 9 = Some 362880 ∧ log2c 362880 = Some 19 ∧ log2c 9 = Some 4 ∧
  log2c (s32 (362880 * 9)) = Some 22.
Proof. vm_compute. done. Qed.

(** ** The arithmetic helpers *)

(** The factorial the C loop means to compute. *)
Fixpoint zfact (n : nat) : Z :=
  match n with O => 1 | S m => Z.of_nat n * zfact m end.

Lemma fact_spec (n : nat) : (n ≤ 12)%nat → fact (Z.of_nat n) = Some (zfact n).
Proof.
  intros Hn. do 13 (destruct n as [|n]; [vm_compute; reflexivity|]). lia.
Qed.

(** [log2c] is the ceiling of the logarithm. *)
Lemma log2c_spec x : x ≤ 2 ^ 30 → log2c x = Some (Z.log2_up x).
Proof.
  intros Hx. unfold log2c.
  destruct (loop_total
    (λ '(ret, i), 0 ≤ ret ≤ 30 ∧ i = 2 ^ ret ∧ (ret = 0 ∨ 2 ^ (ret - 1) < x))
    (λ r, r = Z.log2_up x) (λ '(ret, i), Z.to_nat (31 - ret)) (log2c_step x))
    with (fuel := 33%nat) (s := (0, 1)) as (r & -> & ->); [|lia|lia|done].
  intros [ret i] (Hr & -> & Hlow). unfold log2c_step.
  destruct (Z.ltb_spec (2 ^ ret) x) as [Hlt|Hge].
  - assert (ret < 30) by (apply (Z.pow_lt_mono_r_iff 2); lia).
    rewrite s32_small by lia.
    assert (2 ^ ret .<< 1 = 2 ^ (ret + 1)) as ->.
    { rewrite Z.shiftl_mul_pow2 by lia. by rewrite Z.pow_add_r by lia. }
    assert (0 ≤ 2 ^ (ret + 1) ≤ 2 ^ 30).
    { split; [lia|]. apply Z.pow_le_mono_r; lia. }
    rewrite s32_small by lia. split; [|lia].
    split_and!; [lia..|]. right. by replace (ret + 1 - 1) with ret by lia.
  - symmetry. destruct Hlow as [->|Hlow]; [apply Z.log2_up_eqn0; lia|].
    destruct (decide (ret = 0)) as [->|]; [apply Z.log2_up_eqn0; lia|].
    apply Z.log2_up_unique; [lia|]. rewrite <-Z.sub_1_r. lia.
Qed.

(** ** Rows as numbers

    A row is an [n]-digit number in base [t]; the table is filled by counting. *)
Definition digits (t : Z) (p : list Z) : Prop := Forall (λ d, 0 ≤ d < t) p.
Fixpoint value (t : Z) (p : list Z) : Z :=
  match p with [] => 0 | d :: r => d * t ^ Z.of_nat (length r) + value t r end.

Lemma value_range t p : 0 < t → digits t p → 0 ≤ value t p < t ^ Z.of_nat (length p).
Proof.
  intros Ht. induction 1 as [|d r Hd Hr IH]; simpl; [lia|].
  rewrite Nat2Z.inj_succ, Z.pow_succ_r by lia. nia.
Qed.

Lemma value_inj t p q :
  0 < t → digits t p → digits t q → length p = length q → value t p = value t q → p = q.
Proof.
  intros Ht Hp. revert q. induction Hp as [|d r Hd Hr IH]; intros q Hq Hlen Hv.
  - by destruct q.
  - destruct q as [|d' r']; [done|]. simpl in *.
    apply Forall_cons in Hq as [Hd' Hr']. injection Hlen as Hlen.
    pose proof (value_range t r Ht Hr). pose proof (value_range t r' Ht Hr').
    rewrite Hlen in *. assert (d = d') as -> by nia. f_equal. apply IH; auto; lia.
Qed.

(** [bump] is addition of one modulo [t ^ n], with its carry. *)
Lemma bump_spec t p n :
  0 < t < 2 ^ 31 → digits t p → n = alen p → 1 ≤ n →
  ∃ p' (c : bool), bump p n t = Some (p', c) ∧ digits t p' ∧ length p' = length p ∧
    value t p' + (if c then t ^ n else 0) = value t p + 1.
Proof.
  intros Ht Hp. revert n. induction Hp as [|d r Hd Hr IH]; intros n -> Hn; [done|].
  rewrite alen_cons in *. simpl bump.
  assert (∃ r' (c : bool), (if 1 <? alen r + 1 then bump r (alen r + 1 - 1) t
     else Some (r, true)) = Some (r', c) ∧ digits t r' ∧ length r' = length r ∧
     value t r' + (if c then t ^ alen r else 0) = value t r + 1) as (r' & c & -> & Hr' & Hl & Hv).
  { destruct (Z.ltb_spec 1 (alen r + 1)).
    - destruct (IH (alen r + 1 - 1)) as (r' & c & -> & ?); [lia..|].
      replace (alen r + 1 - 1) with (alen r) in * by lia. eauto.
    - exists r, true. assert (r = []) as -> by (destruct r; [done|unfold alen in *; simpl in *; lia]).
      done. }
  simpl. unfold alen in *. rewrite s32_small by lia.
  rewrite Z.pow_add_r, Z.pow_1_r by lia.
  destruct c; [destruct (Z.eqb_spec (d + 1) t)|]; eexists _, _; (split; [done|]);
    (split; [by constructor; [lia|]|]); simpl; rewrite Hl; (split; [done|]); nia.
Qed.

(** [is_unique] decides [NoDup]. *)
Lemma is_unique_loop_spec n p s (i : nat) :
  digits (Z.of_nat n) p → length p = n → length s = n → (i ≤ n)%nat →
  NoDup (take i p) →
  (∀ v, (v < n)%nat → s !! v = Some (if decide (Z.of_nat v ∈ take i p) then 1 else 0)) →
  is_unique_loop (n - i) p s (Z.of_nat i) = Some (bool_decide (NoDup p)).
Proof.
  intros Hp Hlp. remember (n - i)%nat as todo eqn:Et. revert s i Et.
  induction todo as [|todo IH]; intros s i Et Hls Hi Hnd Hs; simpl.
  - rewrite bool_decide_true; [done|]. by rewrite take_ge in Hnd by lia.
  - destruct (lookup_lt_is_Some_2 p i) as [v Hv]; [lia|].
    rewrite aget_nat, Hv. simpl.
    pose proof (Forall_lookup_1 _ _ _ _ Hp Hv) as Hvr. simpl in Hvr.
    rewrite aget_to_nat by lia. rewrite (Hs (Z.to_nat v)) by lia. simpl.
    rewrite Z2Nat.id by lia.
    assert (take (S i) p = take i p ++ [v]) as Htake by by apply take_S_r.
    case_decide as Hin; simpl.
    + rewrite bool_decide_false; [done|]. intros Hd.
      assert (NoDup (take (S i) p)) as Hd'.
      { rewrite <-(take_drop (S i) p) in Hd. by apply NoDup_app in Hd as (? & _). }
      rewrite Htake in Hd'. apply NoDup_app in Hd' as (_ & Hx & _).
      apply (Hx v Hin). set_solver.
    + rewrite aset_Some by (unfold alen; lia). simpl.
      replace (Z.of_nat i + 1) with (Z.of_nat (S i)) by lia.
      apply IH; [lia|by rewrite length_insert|lia| |].
      * rewrite Htake. apply NoDup_app. split_and!; [done|set_solver|apply NoDup_singleton].
      * intros w Hw. rewrite Htake. destruct (decide (w = Z.to_nat v)) as [->|Hne].
        -- rewrite list_lookup_insert_eq by lia. rewrite Z2Nat.id by lia.
           rewrite decide_True by set_solver. done.
        -- rewrite list_lookup_insert_ne by done. rewrite Hs by done.
           f_equal. repeat case_decide; try done; set_solver by lia.
Qed.

Lemma is_unique_spec n p :
  digits n p → alen p = n → is_unique p n = Some (bool_decide (NoDup p)).
Proof.
  unfold is_unique, alen. intros Hp <-. rewrite Nat2Z.id.
  pose proof (is_unique_loop_spec (length p) p (replicate (length p) 0) 0) as H.
  rewrite Nat.sub_0_r in H. apply H; [done|done|by rewrite length_replicate|lia| |].
  - rewrite take_0. constructor.
  - intros v Hv. rewrite take_0. rewrite decide_False by set_solver.
    by apply lookup_replicate_2.
Qed.

(** ** The table of orders *)

(** Reference: the permutations of [l] in lexicographic order. *)
Fixpoint lexperms (k : nat) (l : list Z) : list (list Z) :=
  match k with
  | O => [[]]
  | S k => x ← l; (x ::.) <$> lexperms k (filter (.≠ x) l)
  end.
Definition orders (n : nat) : list (list Z) := lexperms n (iota (Z.of_nat n)).

Lemma filter_ne_Permutation (x : Z) l :
  NoDup l → x ∈ l → l ≡ₚ x :: filter (.≠ x) l.
Proof.
  induction 1 as [|y l Hy Hnd IH]; intros Hx; [set_solver|].
  destruct (decide (y = x)) as [->|Hne].
  - rewrite filter_cons_False by naive_solver.
    rewrite filter_all; [done|]. intros z Hz ->. done.
  - rewrite filter_cons_True by done. rewrite Permutation_swap. f_equiv. apply IH. set_solver.
Qed.

Lemma elem_of_lexperms k l p :
  NoDup l → length l = k → p ∈ lexperms k l ↔ p ≡ₚ l.
Proof.
  revert l p. induction k as [|k IH]; intros l p Hnd Hl; simpl.
  - destruct l; [|done]. rewrite Permutation_nil_r. set_solver.
  - rewrite list_elem_of_bind. split.
    + intros (x & (q & -> & Hq)%list_elem_of_fmap & Hx).
      pose proof (filter_ne_Permutation x l Hnd Hx) as Hp.
      apply IH in Hq; [|by apply NoDup_filter|].
      * by rewrite Hq, <-Hp.
      * apply Permutation_length in Hp. simpl in Hp. lia.
    + intros Hp. destruct p as [|x q]; [by apply Permutation_length in Hp; simpl in Hp; lia|].
      assert (x ∈ l) as Hx by (rewrite <-Hp; set_solver).
      pose proof (filter_ne_Permutation x l Hnd Hx) as Hf.
      exists x. split; [|done]. apply list_elem_of_fmap. exists q. split; [done|].
      apply IH; [by apply NoDup_filter| |].
      * apply Permutation_length in Hf. simpl in Hf. lia.
      * rewrite Hf in Hp. by apply Permutation_cons_inv in Hp.
Qed.

Lemma length_lexperms k l :
  NoDup l → length l = k → Z.of_nat (length (lexperms k l)) = zfact k.
Proof.
  revert l. induction k as [|k IH]; intros l Hnd Hl; [done|].
  cbn [lexperms zfact]. erewrite (length_bind_const _ _ (Z.to_nat (zfact k))).
  - assert (0 ≤ zfact k) by (clear; induction k; simpl zfact; lia). rewrite Hl. lia.
  - intros x Hx. rewrite length_fmap. rewrite <-(IH (filter (.≠ x) l)); [lia|by apply NoDup_filter|].
    pose proof (filter_ne_Permutation x l Hnd Hx) as Hp%Permutation_length. simpl in Hp. lia.
Qed.

Lemma lexperms_length_row k l p : p ∈ lexperms k l → length p = k.
Proof.
  revert l p. induction k as [|k IH]; intros l p; simpl; [set_solver|].
  rewrite list_elem_of_bind. intros (x & (q & -> & Hq)%list_elem_of_fmap & _).
  simpl. f_equal. eauto.
Qed.

Lemma lexperms_digits t k l p : digits t l → p ∈ lexperms k l → digits t p.
Proof.
  revert l p. induction k as [|k IH]; intros l p Hd; simpl.
  - intros ->%list_elem_of_singleton. constructor.
  - rewrite list_elem_of_bind. intros (x & (q & -> & Hq)%list_elem_of_fmap & Hx).
    unfold digits in *. rewrite Forall_forall in Hd. constructor; [by apply Hd|].
    eapply IH; [|done]. apply Forall_forall. intros y [_ Hy]%list_elem_of_filter. auto.
Qed.

Lemma lexperms_sorted t k l :
  0 < t → digits t l → StronglySorted Z.lt l →
  StronglySorted (λ a b, value t a < value t b) (lexperms k l).
Proof.
  intros Ht. revert l. induction k as [|k IH]; intros l Hd Hs; simpl.
  { repeat constructor. }
  assert (∀ x, digits t (filter (.≠ x) l)) as Hdf.
  { intros x. unfold digits in *. rewrite Forall_forall in Hd. apply Forall_forall.
    intros y [_ Hy]%list_elem_of_filter. auto. }
  apply (StronglySorted_bind Z.lt); [done| |].
  - intros x Hx. eapply StronglySorted_fmap_elem.
    + apply IH; [done|by apply StronglySorted_filter].
    + intros a b Ha Hb Hab. simpl in *.
      rewrite (lexperms_length_row _ _ _ Ha), (lexperms_length_row _ _ _ Hb). lia.
  - intros x y a b Hx Hy Hxy (a' & -> & Ha)%list_elem_of_fmap (b' & -> & Hb)%list_elem_of_fmap.
    simpl. pose proof (value_range t a' Ht (lexperms_digits _ _ _ _ (Hdf x) Ha)) as Ra.
    pose proof (value_range t b' Ht (lexperms_digits _ _ _ _ (Hdf y) Hb)) as Rb.
    rewrite (lexperms_length_row _ _ _ Ha) in *. rewrite (lexperms_length_row _ _ _ Hb) in *. nia.
Qed.

Lemma iota_digits n : digits n (iota n).
Proof. apply Forall_forall. intros x Hx%elem_of_seqZ. lia. Qed.
Lemma iota_length n : length (iota n) = Z.to_nat n.
Proof. apply length_seqZ. Qed.
Lemma iota_sorted (n : nat) : StronglySorted Z.lt (iota (Z.of_nat n)).
Proof.
  unfold iota, seqZ. rewrite Nat2Z.id.
  eapply (StronglySorted_fmap _ lt); [lia|].
  generalize 0%nat as m. induction n as [|n IH]; intros m; simpl; constructor; [done|].
  apply Forall_forall. intros x Hx%elem_of_seq. lia.
Qed.

(** What the table holds: exactly the rows without repetition. *)
Lemma elem_of_orders n p :
  p ∈ orders n ↔ digits (Z.of_nat n) p ∧ length p = n ∧ NoDup p.
Proof.
  unfold orders. pose proof (iota_length (Z.of_nat n)) as Hl. rewrite Nat2Z.id in Hl.
  rewrite elem_of_lexperms by (apply NoDup_seqZ || done). split.
  - intros Hp. split_and!.
    + unfold digits. rewrite Hp. apply iota_digits.
    + by rewrite Hp.
    + rewrite Hp. apply NoDup_seqZ.
  - intros (Hd & Hlp & Hnd). apply submseteq_length_Permutation; [|lia].
    apply NoDup_submseteq; [done|]. intros x Hx. apply elem_of_seqZ.
    unfold digits in Hd. rewrite Forall_forall in Hd. apply Hd in Hx. lia.
Qed.

Lemma length_orders n : Z.of_nat (length (orders n)) = zfact n.
Proof.
  apply length_lexperms; [apply NoDup_seqZ|]. rewrite iota_length. lia.
Qed.

Lemma orders_sorted n :
  (0 < n)%nat →
  StronglySorted (λ a b, value (Z.of_nat n) a < value (Z.of_nat n) b) (orders n).
Proof. intros. apply lexperms_sorted; [lia|apply iota_digits|apply iota_sorted]. Qed.

Lemma lexperms_head k l : NoDup l → length l = k → lexperms k l !! 0%nat = Some l.
Proof.
  revert l. induction k as [|k IH]; intros [|x l] Hnd Hl; try done.
  injection Hl as Hl. apply NoDup_cons in Hnd as [Hx Hnd]. simpl.
  rewrite filter_cons_False by naive_solver.
  rewrite filter_all by (intros ? ? ->; done).
  rewrite lookup_app_l; [by rewrite list_lookup_fmap, IH|].
  rewrite length_fmap. apply lookup_lt_is_Some. eauto.
Qed.
Lemma orders_head n : orders n !! 0%nat = Some (iota (Z.of_nat n)).
Proof. apply lexperms_head; [apply NoDup_seqZ|]. rewrite iota_length. lia. Qed.

(** Between two neighbours of the table there is no third order, so counting
    up from one row stops at the next. *)
Lemma next_row_spec n k a b fuel :
  Z.of_nat n < 2 ^ 31 → (Z.to_nat (Z.of_nat n ^ Z.of_nat n) < fuel)%nat →
  orders n !! k = Some a → orders n !! S k = Some b →
  next_row fuel (Z.of_nat n) a = Some b.
Proof.
  intros Hn Hfuel Ha Hb.
  pose proof (list_elem_of_lookup_2 _ _ _ Ha) as (Hda & Hla & Hna)%elem_of_orders.
  pose proof (list_elem_of_lookup_2 _ _ _ Hb) as (Hdb & Hlb & Hnb)%elem_of_orders.
  assert (0 < n)%nat as Hpos.
  { destruct n; [|lia]. by destruct k. }
  pose proof (orders_sorted n Hpos) as Hs.
  pose proof (StronglySorted_lookup _ _ _ _ _ _ Hs Ha Hb ltac:(lia)) as Hab. simpl in Hab.
  remember (Z.of_nat n) as t eqn:Et.
  pose proof (value_range t b ltac:(lia) Hdb) as Rb. rewrite Hlb, <-Et in Rb.
  pose proof (value_range t a ltac:(lia) Hda) as Ra.
  assert (∀ row, digits t row → length row = n → value t row < value t b →
    ∃ row' c, bump row t t = Some (row', c) ∧ digits t row' ∧ length row' = n ∧
      value t row' = value t row + 1) as Hbump.
  { intros row Hd Hl Hv. destruct (bump_spec t row t) as (row' & c & He & Hd' & Hl' & Hval);
      [lia|done|unfold alen; lia|lia|].
    exists row', c. split_and!; [done..|lia|].
    pose proof (value_range t row' ltac:(lia) Hd') as R. rewrite Hl', Hl, <-Et in R.
    destruct c; lia. }
  unfold next_row. destruct (Hbump a Hda Hla Hab) as (a' & c & -> & Hda' & Hla' & Hva'). simpl.
  destruct (loop_total
    (λ row, digits t row ∧ length row = n ∧ value t a < value t row ≤ value t b)
    (λ r, r = Some b) (λ row, Z.to_nat (value t b - value t row)) (next_row_step t))
    with (fuel := fuel) (s := a') as (r & -> & ->); [|split_and!; auto; lia|lia|done].
  intros row (Hd & Hl & Hv1 & Hv2). unfold next_row_step.
  rewrite is_unique_spec by (done || unfold alen; lia).
  case_bool_decide as Hnd.
  - assert (row ∈ orders n) as [j Hj]%list_elem_of_lookup by (apply elem_of_orders; by subst t).
    destruct (decide (j ≤ k)%nat).
    { destruct (decide (j = k)) as [->|]; [simplify_eq; lia|].
      pose proof (StronglySorted_lookup _ _ _ _ _ _ Hs Hj Ha ltac:(lia)). simpl in *. lia. }
    destruct (decide (j = S k)) as [->|]; [congruence|].
    pose proof (StronglySorted_lookup _ _ _ _ _ _ Hs Hb Hj ltac:(lia)). simpl in *. lia.
  - assert (value t row ≠ value t b) as Hne.
    { intros Heq. apply Hnd. apply value_inj in Heq; [by subst|lia|done|done|lia]. }
    destruct (Hbump row Hd Hl ltac:(lia)) as (row' & c' & -> & Hd' & Hl' & Hv').
    split_and!; auto; lia.
Qed.

Lemma fill_perms_spec n fuel todo k :
  Z.of_nat n < 2 ^ 31 → (Z.to_nat (Z.of_nat n ^ Z.of_nat n) < fuel)%nat →
  (S k + todo = length (orders n))%nat →
  fill_perms fuel todo (Z.of_nat n) (take (S k) (orders n)) = Some (orders n).
Proof.
  intros Hn Hfuel. revert k. induction todo as [|todo IH]; intros k Hlen; simpl fill_perms.
  - by rewrite take_ge by lia.
  - destruct (lookup_lt_is_Some_2 (orders n) k) as [a Ha]; [lia|].
    destruct (lookup_lt_is_Some_2 (orders n) (S k)) as [b Hb]; [lia|].
    rewrite (take_S_r _ _ _ Ha), last_snoc. simpl.
    rewrite (next_row_spec n k a b fuel) by done. simpl.
    rewrite <-(take_S_r _ _ _ Ha), <-(take_S_r _ _ _ Hb). apply IH. lia.
Qed.

(** The generated table is the lexicographic list of all orders of the ways. *)
Lemma gen_perms_orders (n fuel : nat) :
  (n ≤ 12)%nat → (Z.to_nat (Z.of_nat n ^ Z.of_nat n) < fuel)%nat →
  fact (Z.of_nat n) = Some (zfact n) ∧
  gen_perms fuel (Z.of_nat n) (zfact n) = Some (orders n).
Proof.
  intros Hn Hfuel. split; [by apply fact_spec|]. unfold gen_perms.
  pose proof (length_orders n) as Hl. pose proof (orders_head n) as Hh.
  assert (0 < length (orders n))%nat by (apply lookup_lt_is_Some; eauto).
  rewrite <-(fill_perms_spec n fuel (Z.to_nat (zfact n - 1)) 0) by lia.
  do 2 f_equal. by rewrite (take_S_r _ _ _ Hh), take_0.
Qed.

(** ** The transition of the LRU machine *)

(** Reference: the accessed way moves to the front of the order. *)
Definition mtf (w : Z) (o : list Z) : list Z := w :: filter (.≠ w) o.

Lemma mtf_Permutation w o : NoDup o → w ∈ o → mtf w o ≡ₚ o.
Proof. intros. symmetry. by apply filter_ne_Permutation. Qed.

Lemma twiddle_loop_spec cur repl p n (i : nat) :
  NoDup cur → repl ∈ cur → length cur = n → (i ≤ n)%nat → length p = n →
  take (S (length (filter (.≠ repl) (take i cur)))) p = mtf repl (take i cur) →
  twiddle_loop (n - i) cur repl p (Z.of_nat i)
    (Z.of_nat (S (length (filter (.≠ repl) (take i cur))))) = Some (mtf repl cur).
Proof.
  intros Hnd Hin Hlen. remember (n - i)%nat as todo eqn:Et. revert p i Et.
  pose proof (Permutation_length (filter_ne_Permutation repl cur Hnd Hin)) as Hfl. simpl in Hfl.
  induction todo as [|todo IH]; intros p i Et Hi Hlp Hp; simpl twiddle_loop.
  - rewrite (take_ge cur i) in Hp by lia. rewrite take_ge in Hp by lia. by rewrite Hp.
  - destruct (lookup_lt_is_Some_2 cur i) as [c Hc]; [lia|].
    rewrite aget_nat, Hc. simpl.
    pose proof (take_S_r _ _ _ Hc) as Htk.
    assert (length (filter (.≠ repl) (take (S i) cur)) ≤ length (filter (.≠ repl) cur))%nat as Hle.
    { rewrite <-(take_drop (S i) cur) at 2. rewrite filter_app, length_app. lia. }
    replace (Z.of_nat i + 1) with (Z.of_nat (S i)) by lia.
    rewrite Htk, filter_app, length_app, filter_cons, filter_nil in Hle.
    specialize (λ p', IH p' (S i) ltac:(lia) ltac:(lia)).
    rewrite Htk in IH. unfold mtf at 1 in IH.
    rewrite filter_app, filter_cons, filter_nil in IH.
    destruct (Z.eqb_spec c repl) as [->|Hne].
    + rewrite decide_False in * by naive_solver. rewrite app_nil_r in IH. by apply IH.
    + rewrite decide_True in * by done. simpl in Hle.
      rewrite aset_Some by (unfold alen; lia). simpl.
      rewrite length_app in IH. simpl in IH.
      match goal with |- twiddle_loop _ _ _ _ _ ?j = _ =>
        replace j with (Z.of_nat (S (length (filter (.≠ repl) (take i cur)) + 1))) by lia end.
      rewrite Nat2Z.id in *. apply IH; [by rewrite length_insert|].
      rewrite Nat.add_1_r, take_S_insert by lia. by rewrite Hp.
Qed.

Lemma twiddle_spec cur repl p n :
  NoDup cur → repl ∈ cur → alen cur = n → alen p = n →
  twiddle cur n repl p = Some (mtf repl cur).
Proof.
  unfold alen. intros Hnd Hin Hlc Hlp. unfold twiddle.
  assert (0 < length cur)%nat by (destruct cur; [set_solver|simpl; lia]).
  rewrite aset_Some by (unfold alen; lia). simpl.
  pose proof (twiddle_loop_spec cur repl (<[0%nat := repl]> p) (length cur) 0) as H0.
  rewrite take_0, filter_nil, Nat.sub_0_r in H0. subst n. rewrite Nat2Z.id.
  apply H0; [done..|lia|rewrite length_insert; lia|].
  rewrite take_S_insert by lia. done.
Qed.

(** [lookup] finds the row's own number in a table without repetition. *)
Lemma lookup_loop_spec perms p n (i k : nat) todo :
  (∀ row, row ∈ perms → alen row = n) → NoDup perms → alen p = n →
  perms !! k = Some p → (i ≤ k)%nat → (todo + i = length perms)%nat →
  lookup_loop todo perms p n (Z.of_nat i) = Some (Z.of_nat k).
Proof.
  intros Hrows Hnd Hp Hk. revert i. induction todo as [|todo IH]; intros i Hi Ht.
  { apply lookup_lt_Some in Hk. lia. }
  destruct (lookup_lt_is_Some_2 perms i) as [row Hrow]; [lia|].
  simpl. rewrite aget_nat, Hrow. simpl.
  pose proof (Hrows row (list_elem_of_lookup_2 _ _ _ Hrow)). unfold bcmp_eq, alen in *.
  rewrite !take_ge by lia. case_bool_decide as Heq.
  - subst row. f_equal. f_equal. by eapply NoDup_lookup.
  - replace (Z.of_nat i + 1) with (Z.of_nat (S i)) by lia.
    apply IH; [|lia]. destruct (decide (i = k)); [congruence|lia].
Qed.

Section rom.
Variable n : nat.
Abbreviation ways := (Z.of_nat n).

Lemma orders_row_length row : row ∈ orders n → alen row = ways.
Proof. intros (_ & Hl & _)%elem_of_orders. unfold alen. lia. Qed.
Lemma orders_NoDup : NoDup (orders n).
Proof.
  destruct n as [|m] eqn:E; [apply NoDup_singleton|].
  pose proof (orders_sorted (S m) ltac:(lia)) as Hs.
  apply NoDup_alt. intros i j x Hi Hj.
  destruct (lt_eq_lt_dec i j) as [[?|?]|?]; [|done|].
  - pose proof (StronglySorted_lookup _ _ _ _ _ _ Hs Hi Hj ltac:(done)). simpl in *. lia.
  - pose proof (StronglySorted_lookup _ _ _ _ _ _ Hs Hj Hi ltac:(done)). simpl in *. lia.
Qed.
Lemma orders_elem_way row w : row ∈ orders n → w ∈ row ↔ 0 ≤ w < ways.
Proof.
  unfold orders. intros Hr. apply elem_of_lexperms in Hr;
    [|apply NoDup_seqZ|rewrite iota_length; lia].
  rewrite Hr. unfold iota. rewrite elem_of_seqZ. lia.
Qed.
Lemma orders_mtf row w : row ∈ orders n → 0 ≤ w < ways → mtf w row ∈ orders n.
Proof.
  intros Hr Hw. pose proof Hr as (_ & _ & Hnd)%elem_of_orders.
  assert (w ∈ row) by by apply orders_elem_way.
  unfold orders in *. apply elem_of_lexperms; [apply NoDup_seqZ|rewrite iota_length; lia|].
  rewrite mtf_Permutation by done.
  apply elem_of_lexperms in Hr; [done|apply NoDup_seqZ|rewrite iota_length; lia].
Qed.

(** A ROM entry: the next state is the order with the accessed way moved to
    the front, the output is the last way of the current order. *)
Lemma rom_entry_spec pn (i : nat) j row :
  orders n !! i = Some row → 0 ≤ j < ways → alen pn = ways →
  ∃ (k : nat) v, rom_entry (orders n) ways (zfact n) pn (Z.of_nat i) j
      = Some (mtf j row, Z.of_nat k, v) ∧
    orders n !! k = Some (mtf j row) ∧ last row = Some v.
Proof.
  intros Hi Hj Hpn. pose proof (list_elem_of_lookup_2 _ _ _ Hi) as Hr.
  pose proof Hr as (_ & Hl & Hnd)%elem_of_orders.
  pose proof (orders_mtf row j Hr Hj) as Hm.
  pose proof Hm as [k Hk]%list_elem_of_lookup.
  unfold rom_entry. rewrite aget_nat, Hi. simpl.
  rewrite twiddle_spec; [|done|by apply orders_elem_way|unfold alen; lia|done]. simpl.
  unfold lookup_perm. rewrite <-length_orders, Nat2Z.id.
  rewrite (lookup_loop_spec _ _ _ 0 k);
    [|apply orders_row_length|apply orders_NoDup|by apply orders_row_length|done|lia|lia].
  simpl. destruct (lookup_lt_is_Some_2 row (n - 1)) as [v Hv]; [lia|].
  replace (ways - 1) with (Z.of_nat (n - 1)) by lia.
  rewrite aget_nat, Hv. simpl. exists k, v. split_and!; [done..|].
  rewrite last_lookup. by replace (pred (length row)) with (n - 1)%nat by lia.
Qed.

(** The machine run on a sequence of accesses. *)
Fixpoint rom_run (perms : list (list Z)) (nperms : Z) (i : Z) (ws : list Z) : option Z :=
  match ws with
  | [] => Some i
  | w :: ws =>
      '(_, next_state, _) ← rom_entry perms ways nperms (replicate n 0) i w;
      rom_run perms nperms next_state ws
  end.

Lemma rom_run_spec (i : nat) row ws :
  orders n !! i = Some row → Forall (λ w, 0 ≤ w < ways) ws →
  ∃ k : nat, rom_run (orders n) (zfact n) (Z.of_nat i) ws = Some (Z.of_nat k) ∧
    orders n !! k = Some (foldl (flip mtf) row ws).
Proof.
  intros Hi Hws. revert i row Hi. induction Hws as [|w ws Hw Hws IH]; intros i row Hi.
  { by exists i. }
  destruct (rom_entry_spec (replicate n 0) i w row Hi Hw) as (k & v & He & Hk & _);
    [apply alen_replicate|].
  simpl. rewrite He. simpl. by apply IH.
Qed.
End rom.

(** In an order built by accesses, a way that precedes another was used after
    the other's last use. *)
Lemma mtf_recency ws o x y :
  [x; y] `sublist_of` (foldl (flip mtf) o ws) → y ∈ ws → x ≠ y →
  ∃ pre post, ws = pre ++ (y :: post) ∧ (y ∉ post) ∧ x ∈ post.
Proof.
  revert x y. induction ws as [|a ws IH] using rev_ind; intros x y Hs Hy Hne; [set_solver|].
  rewrite foldl_snoc in Hs. simpl in Hs. unfold mtf in Hs.
  destruct (decide (x = a)) as [->|Hxa].
  - assert (y ∈ ws) as Hyw by set_solver.
    destruct (list_elem_of_split_r _ _ Hyw) as (pre & post & -> & Hpost).
    exists pre, (post ++ [a]). rewrite <-app_assoc. split_and!; [done|set_solver..].
  - apply sublist_cons_r in Hs as [Hs|(? & [= ? ?] & _)]; [|done].
    assert ([x; y] `sublist_of` (foldl (flip mtf) o ws)) as Hs'.
    { etrans; [done|]. apply sublist_filter. }
    assert (y ≠ a) as Hya.
    { assert (y ∈ [x; y]) as Hin by set_solver. apply (elem_of_sublist _ _ _ Hin) in Hs as Hin'.
      by apply list_elem_of_filter in Hin' as [? _]. }
    destruct (IH x y Hs' ltac:(set_solver) Hne) as (pre & post & -> & Hpost & Hx).
    exists pre, (post ++ [a]). rewrite <-app_assoc. split_and!; [done|set_solver..].
Qed.

(** ** The printed image *)

(** Reference: bits [k-1 .. 0] of [x], most significant first. *)
Definition bits_text (k x : Z) : string :=
  String.string_of_list_ascii
    ((λ b, if Z.testbit x b then "1"%char else "0"%char) <$> reverse (seqZ 0 k)).

Lemma binprint_digits_spec k x :
  binprint_digits k x = (λ b, if Z.testbit x b then "1"%char else "0"%char) <$> seqZ 0 (Z.of_nat k).
Proof.
  revert x. induction k as [|k IH]; intros x; [done|]. simpl binprint_digits.
  rewrite Nat2Z.inj_succ, seqZ_cons, fmap_cons by lia. f_equal.
  - replace 1 with (1 .<< 0) at 1 by done. by rewrite land_bit by lia.
  - rewrite IH. replace (Z.pred (Z.succ (Z.of_nat k))) with (Z.of_nat k) by lia.
    replace (Z.succ 0) with (1 + 0) by lia. rewrite <-(fmap_add_seqZ 1 0), <-list_fmap_compose.
    apply list_fmap_ext. intros i b Hb%list_elem_of_lookup_2%elem_of_seqZ. simpl.
    rewrite Z.shiftr_spec by lia. by rewrite Z.add_comm.
Qed.

Lemma binprint_spec x k : 0 ≤ k ≤ 32 → binprint x k = Some (bits_text k x).
Proof.
  intros Hk. unfold binprint, bits_text. rewrite (proj2 (Z.leb_le _ _)) by lia.
  rewrite binprint_digits_spec, Z2Nat.id by lia. by rewrite fmap_reverse.
Qed.

(** Reference: the line of cell [(i, j)]. *)
Definition row_text (n : nat) (cell : Z * Z) (line : string) : Prop :=
  let lrubits := Z.log2_up (zfact n) in
  let waybits := Z.log2_up (Z.of_nat n) in
  ∃ row (k : nat) v,
    aget (orders n) cell.1 = Some row ∧ orders n !! k = Some (mtf cell.2 row) ∧
    last row = Some v ∧
    line = bits_text lrubits cell.1 +:+ bits_text waybits cell.2 +:+ " : " +:+
           bits_text lrubits (Z.of_nat k) +:+ bits_text waybits v +:+ ";
".

Lemma zfact_pos n : 1 ≤ zfact n.
Proof. induction n; simpl zfact; lia. Qed.

Lemma zfact_bound n : (n ≤ 11)%nat → zfact n * Z.of_nat n ≤ 2 ^ 30.
Proof. intros Hn. do 12 (destruct n as [|n]; [done|]). lia. Qed.

Lemma log2_up_bound x : x ≤ 2 ^ 30 → 0 ≤ Z.log2_up x ≤ 30.
Proof.
  intros. split; [apply Z.log2_up_nonneg|].
  rewrite <-(Z.log2_up_pow2 30) by lia. by apply Z.log2_up_le_mono.
Qed.

Lemma emit_spec n cs pn :
  (1 ≤ n ≤ 11)%nat → alen pn = Z.of_nat n →
  Forall (λ c, 0 ≤ c.1 < zfact n ∧ 0 ≤ c.2 < Z.of_nat n) cs →
  ∃ lines, emit (orders n) (Z.of_nat n) (zfact n) (Z.log2_up (zfact n))
      (Z.log2_up (Z.of_nat n)) pn cs = Some (foldr String.append "" lines) ∧
    Forall2 (row_text n) cs lines.
Proof.
  intros Hn Hpn Hcs. revert pn Hpn. pose proof (zfact_bound n ltac:(lia)) as Hb.
  pose proof (zfact_pos n). pose proof (log2_up_bound (zfact n) ltac:(nia)).
  pose proof (log2_up_bound (Z.of_nat n) ltac:(lia)).
  induction Hcs as [|[i j] cs [Hi Hj] Hcs IH]; intros pn Hpn; [by exists []|]. simpl in Hi, Hj.
  rewrite <-length_orders in Hi.
  destruct (lookup_lt_is_Some_2 (orders n) (Z.to_nat i)) as [row Hrow]; [lia|].
  destruct (rom_entry_spec n pn (Z.to_nat i) j row Hrow Hj Hpn) as (k & v & He & Hk & Hv).
  rewrite Z2Nat.id in He by lia. simpl emit. rewrite He. simpl.
  destruct (IH (mtf j row)) as (lines & -> & Hlines).
  { apply orders_row_length, orders_mtf; [by eapply list_elem_of_lookup_2|done]. }
  unfold print_entry, lookup_output. rewrite !binprint_spec by lia. simpl.
  rewrite (proj2 (Z.eqb_neq _ _)) by lia. simpl. eexists (_ :: lines). split; [done|].
  constructor; [|done]. exists row, k, v. simpl. rewrite aget_to_nat by lia. done.
Qed.

(** ** The theorems *)

(** For up to 12 ways, [fact] is the factorial and the table [main] builds
    (counting up in base [nways] and skipping rows with a repeated way) is
    exactly the list of all recency orders, each once, in lexicographic
    order; [nways ^ nways] rounds of the inner loop are enough. *)
Theorem lru_table_complete (n fuel : nat) :
  (1 ≤ n ≤ 12)%nat → (Z.to_nat (Z.of_nat n ^ Z.of_nat n) < fuel)%nat →
  ∃ perms, fact (Z.of_nat n) = Some (alen perms) ∧
    gen_perms fuel (Z.of_nat n) (alen perms) = Some perms ∧
    (∀ p, p ∈ perms ↔ p ≡ₚ iota (Z.of_nat n)) ∧
    StronglySorted (λ a b, value (Z.of_nat n) a < value (Z.of_nat n) b) perms.
Proof.
  intros Hn Hfuel. exists (orders n). unfold alen. rewrite length_orders.
  destruct (gen_perms_orders n fuel ltac:(lia) Hfuel) as [-> ->].
  split_and!; [done..| |by apply orders_sorted; lia].
  intros p. apply elem_of_lexperms; [apply NoDup_seqZ|]. rewrite iota_length. lia.
Qed.
Lemma lru_table_complete_witness :
  ∃ perms, fact 3 = Some (alen perms) ∧ gen_perms 28 3 (alen perms) = Some perms ∧
    (∀ p, p ∈ perms ↔ p ≡ₚ iota 3) ∧
    StronglySorted (λ a b, value 3 a < value 3 b) perms.
Proof. apply (lru_table_complete 3 28); vm_compute; lia. Defined.

(** C23: the ROM is an LRU replacement machine.  Started in state 0 and stepped
    by any sequence [ws] of way accesses, it stays inside the table, and the
    victim [v] it names is least recently used: if [v] was ever accessed,
    every other way was accessed after [v]'s last access. *)
Theorem lru_rom_victim (n fuel : nat) perms nperms (ws : list Z) (j : Z) :
  (1 ≤ n ≤ 12)%nat → (Z.to_nat (Z.of_nat n ^ Z.of_nat n) < fuel)%nat →
  fact (Z.of_nat n) = Some nperms → gen_perms fuel (Z.of_nat n) nperms = Some perms →
  Forall (λ w, 0 ≤ w < Z.of_nat n) ws → 0 ≤ j < Z.of_nat n →
  ∃ s pn next_state v,
    rom_run n perms nperms 0 ws = Some s ∧
    rom_entry perms (Z.of_nat n) nperms (replicate n 0) s j = Some (pn, next_state, v) ∧
    0 ≤ next_state < nperms ∧ 0 ≤ v < Z.of_nat n ∧
    (v ∈ ws → ∀ w, 0 ≤ w < Z.of_nat n → w ≠ v →
       ∃ pre post, ws = pre ++ (v :: post) ∧ (v ∉ post) ∧ w ∈ post).
Proof.
  intros Hn Hfuel Hf Hg Hws Hj.
  destruct (gen_perms_orders n fuel ltac:(lia) Hfuel) as [Hf' Hg']. simplify_eq.
  destruct (rom_run_spec n 0 _ ws (orders_head n) Hws) as (s & Hrun & Hs).
  destruct (rom_entry_spec n (replicate n 0) s j _ Hs Hj) as (k & v & He & Hk & Hv);
    [apply alen_replicate|].
  pose proof (list_elem_of_lookup_2 _ _ _ Hs) as Hrow.
  exists (Z.of_nat s), (mtf j (foldl (flip mtf) (iota (Z.of_nat n)) ws)), (Z.of_nat k), v.
  split_and!; [done|done|lia| | | |].
  - rewrite <-length_orders. apply lookup_lt_Some in Hk. lia.
  - by eapply orders_elem_way, last_Some_elem_of.
  - by eapply orders_elem_way, last_Some_elem_of.
  - intros Hin w Hw Hne. eapply mtf_recency; [|done|done].
    apply last_before; [done|by eapply orders_elem_way|done].
Qed.
Lemma lru_rom_victim_witness :
  ∃ s pn next_state v,
    rom_run 3 (orders 3) 6 0 [2; 0; 1; 0] = Some s ∧
    rom_entry (orders 3) 3 6 [0; 0; 0] s 1 = Some (pn, next_state, v) ∧
    0 ≤ next_state < 6 ∧ 0 ≤ v < 3 ∧
    (v ∈ [2; 0; 1; 0] → ∀ w, 0 ≤ w < 3 → w ≠ v →
       ∃ pre post, [2; 0; 1; 0] = pre ++ (v :: post) ∧ (v ∉ post) ∧ w ∈ post).
Proof.
  apply (lru_rom_victim 3 28 (orders 3) 6 [2; 0; 1; 0] 1);
    [lia|vm_compute; lia|vm_compute; reflexivity|vm_compute; reflexivity| |lia].
  repeat constructor; lia.
Defined.

(** For 1 to 11 ways the program runs to its end and prints the header,
    one line per (state, way) in order, and the trailer; each line holds the
    binary codes of the state, the way, the state with that way moved to the
    front, and the current least recent way. *)
Theorem lru_main_text (n fuel : nat) :
  (1 ≤ n ≤ 11)%nat → (Z.to_nat (Z.of_nat n ^ Z.of_nat n) < fuel)%nat →
  ∃ lines, Forall2 (row_text n) (cells (Z.of_nat n) (zfact n)) lines ∧
    main fuel (Z.of_nat n) = Some
      (print_header (Z.log2_up (zfact n) + Z.log2_up (Z.of_nat n))
         (2 ^ Z.log2_up (zfact n * Z.of_nat n)) +:+
       foldr String.append "" lines +:+ "END;
").
Proof.
  intros Hn Hfuel. destruct (gen_perms_orders n fuel ltac:(lia) Hfuel) as [Hf Hg].
  pose proof (zfact_bound n ltac:(lia)) as Hb. pose proof (zfact_pos n).
  pose proof (log2_up_bound _ Hb) as Hd.
  destruct (emit_spec n (cells (Z.of_nat n) (zfact n)) (replicate n 0) Hn)
    as (lines & He & Hlines); [apply alen_replicate| |].
  { apply Forall_forall. intros [i j] (i' & (j' & Hc & Hj)%list_elem_of_bind & Hi)%list_elem_of_bind.
    apply list_elem_of_singleton in Hc as [= -> ->].
    apply elem_of_seqZ in Hi, Hj. simpl. lia. }
  exists lines. split; [done|]. unfold main. rewrite (proj2 (Z.ltb_ge _ _)) by lia.
  rewrite log2c_spec by lia. simpl. rewrite Hf. simpl.
  rewrite (log2c_spec (zfact n)) by nia. simpl. rewrite Hg. simpl.
  rewrite s32_small by nia. rewrite log2c_spec by done. simpl. rewrite Nat2Z.id, He. simpl.
  rewrite Z.shiftl_1_l, s32_small; [done|].
  assert (2 ^ Z.log2_up (zfact n * Z.of_nat n) ≤ 2 ^ 30) by (apply Z.pow_le_mono_r; lia). lia.
Qed.
Lemma lru_main_text_witness :
  ∃ lines, Forall2 (row_text 2) (cells 2 2) lines ∧
    main 5 2 = Some (print_header 2 4 +:+ foldr String.append "" lines +:+ "END;
").
Proof. apply (lru_main_text 2 5); vm_compute; lia. Defined.
End LruGen.
