(* ===== verification/EthDma.v ===== *)
(** * EthDma: the Ethernet DMA engine

    The device the yatse driver talks to, from core/hdl/eth_dma/eth_dma.vhd,
    at the level of bus transactions: a channel (receive or transmit) is its
    descriptor RAM, the descriptor it works on, the completion counter behind
    its interrupt, and its control register.  The transmit engine is modelled
    word by word, the receive engine beat by beat. *)

From S2P Require Import Prelude.

Module EthDma.

(** One 64-bit descriptor; bit 0 of [d_status] is the ownership bit. *)
Record desc := { d_addr : Z; d_len : Z; d_error : Z; d_status : Z }.
#[export] Instance desc_eq_dec : EqDecision desc.
Proof. solve_decision. Defined.

Definition hw (d : desc) : bool := Z.testbit (d_status d) 0.

(** A channel.  [r_log] records, in order, the descriptors it has finished:
    for receive as the CPU finds them, for transmit as the CPU left them. *)
Record chan := {
  r_desc : list desc;
  r_cur : Z;
  r_irq : Z;
  r_ctl : Z;
  r_rst : nat;   (* control reads that still show the reset bit *)
  r_lat : nat;   (* how many they are after a reset *)
  r_ro : Z;      (* read-only bits of the control register *)
  r_pins : Z;    (* inputs shown in it *)
  r_log : list desc;
}.

Definition BUS_BYTES : Z := 8.
Definition r_len (c : chan) : Z := alen (r_desc c).

Definition set_desc (c : chan) (ds : list desc) : chan :=
  {| r_desc := ds; r_cur := r_cur c; r_irq := r_irq c; r_ctl := r_ctl c; r_rst := r_rst c;
     r_lat := r_lat c; r_ro := r_ro c; r_pins := r_pins c; r_log := r_log c |}.

(** ** Control and status registers (the process csrs)

    The status bit follows the completion counter; a write to the ring-length
    register acknowledges one completion.  The reset bit clears the register,
    the position and the counter, and itself a little later. *)
Definition ctl_word (c : chan) : Z :=
  match r_rst c with
  | O => (r_ctl c .& ~32 (r_ro c)) .| r_pins c .| (if r_irq c =? 0 then 0 else 1 .<< 3)
  | S _ => 1
  end.
Definition ctl_read (c : chan) : chan * Z :=
  ({| r_desc := r_desc c; r_cur := r_cur c; r_irq := r_irq c; r_ctl := r_ctl c;
      r_rst := pred (r_rst c); r_lat := r_lat c; r_ro := r_ro c; r_pins := r_pins c;
      r_log := r_log c |}, ctl_word c).
Definition ctl_write (c : chan) (v : Z) : chan :=
  if Z.testbit v 0 then
    {| r_desc := r_desc c; r_cur := 0; r_irq := 0; r_ctl := 0; r_rst := r_lat c;
       r_lat := r_lat c; r_ro := r_ro c; r_pins := r_pins c; r_log := r_log c |}
  else if (r_rst c =? 0)%nat then
    {| r_desc := r_desc c; r_cur := r_cur c; r_irq := r_irq c; r_ctl := v; r_rst := 0;
       r_lat := r_lat c; r_ro := r_ro c; r_pins := r_pins c; r_log := r_log c |}
  else c.
#[global] Arguments ctl_word : simpl never.
#[global] Arguments ctl_read : simpl never.
#[global] Arguments ctl_write : simpl never.
(** The counter has one bit more than the ring index. *)
Definition ack (c : chan) : chan :=
  {| r_desc := r_desc c; r_cur := r_cur c; r_irq := (r_irq c - 1) `mod` (2 * r_len c);
     r_ctl := r_ctl c; r_rst := r_rst c; r_lat := r_lat c; r_ro := r_ro c;
     r_pins := r_pins c; r_log := r_log c |}.
Definition irq_line (c : chan) : bool := Z.testbit (ctl_word c) 2 && Z.testbit (ctl_word c) 3.

(** The current descriptor [d] becomes [d'] and the channel moves on. *)
Definition finish (c : chan) (logged d' : desc) : chan :=
  {| r_desc := <[Z.to_nat (r_cur c) := d']> (r_desc c);
     r_cur := (r_cur c + 1) `mod` r_len c;
     r_irq := (r_irq c + 1) `mod` (2 * r_len c);
     r_ctl := r_ctl c; r_rst := r_rst c; r_lat := r_lat c; r_ro := r_ro c; r_pins := r_pins c;
     r_log := r_log c ++ [logged] |}.
Definition enabled (c : chan) : bool := Z.testbit (ctl_word c) 1.

(** ** Transmit: one bus word *)
Definition tx_unal_len (d : desc) : Z := u16 (d_len d + (d_addr d .& 7)).
Definition tx_eop (d : desc) : bool := (tx_unal_len d .>> 3 =? 0) || (tx_unal_len d =? BUS_BYTES).
Definition txd_addr (d : desc) : Z := d_addr d .& ~32 7.
Definition tx_update_desc (d : desc) : desc :=
  {| d_addr := u32 (d_addr d + BUS_BYTES); d_len := u16 (d_len d - BUS_BYTES); d_error := d_error d;
     d_status := if tx_eop d then Z.clearbit (d_status d) 0 else d_status d |}.

(** The words read for one descriptor, and the descriptor left behind. *)
Definition tx_word (st : desc * list Z) : (desc * list Z) + (desc * list Z) :=
  let '(d, reads) := st in
  let st' := (tx_update_desc d, reads ++ [txd_addr d]) in
  if tx_eop d then inr st' else inl st'.
Definition tx_fuel : nat := Z.to_nat (2 ^ 13 + 2).
Definition tx_run (d : desc) : option (desc * list Z) := loop tx_fuel tx_word (d, []).

(** One descriptor transmitted, if the channel is enabled and owns it. *)
Definition dev_tx (c : chan) : chan :=
  match aget (r_desc c) (r_cur c) with
  | Some d =>
      if enabled c && hw d then
        match tx_run d with Some (d', _) => finish c d d' | None => c end
      else c
  | None => c
  end.

(** ** Receive: one frame of [f_len] bytes with error flags [f_err] *)
Record frame := { f_len : Z; f_err : Z }.

(** State of the engine in a frame: the offset, the bytes left, the addresses
    written. *)
Definition rx_beat (d : desc) (st : Z * Z * list Z) : (Z * Z * list Z) + (Z * list Z) :=
  let '(off, rest, writes) := st in
  let writes := writes ++ [u32 (d_addr d + off)] in
  let eop := rest <=? BUS_BYTES in
  let empty := if eop then BUS_BYTES - rest else 0 in
  let rx_len_hit := u16 (off + BUS_BYTES) =? d_len d in
  if eop || rx_len_hit then inr (u16 (off + BUS_BYTES - empty), writes)
  else inl (u16 (off + BUS_BYTES), rest - BUS_BYTES, writes).
Definition rx_run (d : desc) (f : frame) : option (Z * list Z) :=
  loop (S (Z.to_nat (f_len f))) (rx_beat d) (0, f_len f, []).
Definition rx_done_desc (d : desc) (f : frame) (len : Z) : desc :=
  {| d_addr := d_addr d; d_len := len; d_error := d_error d .| f_err f;
     d_status := Z.clearbit (d_status d) 0 |}.

(** One frame received; the stream waits while the channel owns no descriptor. *)
Definition dev_rx (c : chan) (f : frame) : chan :=
  match aget (r_desc c) (r_cur c) with
  | Some d =>
      if enabled c && hw d then
        match rx_run d f with
        | Some (len, _) => finish c (rx_done_desc d f len) (rx_done_desc d f len)
        | None => c
        end
      else c
  | None => c
  end.

(** ** A channel in operation: enabled, out of reset, its wiring as in the
    design (bit 3 read-only, inputs only above it). *)
Record chan_ok (c : chan) : Prop := {
  co_rst : r_rst c = 0%nat;
  co_reset : Z.testbit (r_ctl c) 0 = false;
  co_ena : Z.testbit (r_ctl c) 1 = true;
  co_ro i : 0 ≤ i ≤ 3 → Z.testbit (r_ro c) i = (i =? 3);
  co_pins i : 0 ≤ i ≤ 3 → Z.testbit (r_pins c) i = false;
}.
Definition int_enabled (c : chan) : bool := Z.testbit (r_ctl c) 2.

Section channels.
Implicit Types (c : chan).

Lemma ctl_word_low c i : chan_ok c → 0 ≤ i < 3 → Z.testbit (ctl_word c) i = Z.testbit (r_ctl c) i.
Proof.
  intros [Hr _ _ Hro Hp] Hi. unfold ctl_word. rewrite Hr. autorewrite with bits.
  rewrite bool_decide_true, Hro, Hp by lia. rewrite (proj2 (Z.eqb_neq i 3)) by lia.
  replace (Z.testbit (if r_irq c =? 0 then 0 else 1 .<< 3) i) with false; [btauto|].
  destruct (r_irq c =? 0); [by rewrite Z.testbit_0_l|]. rewrite Z.shiftl_1_l, Z.pow2_bits_false by lia. done.
Qed.
Lemma ctl_word_status c : chan_ok c → Z.testbit (ctl_word c) 3 = negb (r_irq c =? 0).
Proof.
  intros [Hr _ _ Hro Hp]. unfold ctl_word. rewrite Hr. autorewrite with bits.
  rewrite Hro, Hp by lia. rewrite andb_false_r. by destruct (r_irq c =? 0).
Qed.
Lemma ctl_read_idle c : chan_ok c → ctl_read c = (c, ctl_word c).
Proof. intros [Hr _ _ _ _]. unfold ctl_read. rewrite Hr. destruct c; simpl in *. by subst. Qed.
Lemma enabled_ok c : chan_ok c → enabled c = true.
Proof. intros H. unfold enabled. rewrite ctl_word_low by (done || lia). apply H. Qed.
Lemma irq_line_ok c : chan_ok c → irq_line c = int_enabled c && negb (r_irq c =? 0).
Proof. intros H. unfold irq_line, int_enabled. rewrite (ctl_word_low c 2) by (done || lia). by rewrite ctl_word_status. Qed.

(** Switching the interrupt on or off changes nothing else. *)
Definition set_ctl (c : chan) (v : Z) : chan :=
  {| r_desc := r_desc c; r_cur := r_cur c; r_irq := r_irq c; r_ctl := v; r_rst := 0;
     r_lat := r_lat c; r_ro := r_ro c; r_pins := r_pins c; r_log := r_log c |}.
Lemma ctl_write_set c v : chan_ok c → Z.testbit v 0 = false → ctl_write c v = set_ctl c v.
Proof. intros H Hv. unfold ctl_write. by rewrite Hv, (co_rst c H). Qed.
Lemma set_ctl_ok c v :
  chan_ok c → Z.testbit v 0 = false → Z.testbit v 1 = true → chan_ok (set_ctl c v).
Proof. intros [] ??. by constructor. Qed.
Lemma int_on c :
  chan_ok c → let c' := ctl_write c (ctl_word c .| 4) in
  chan_ok c' ∧ int_enabled c' = true ∧ ∃ v, c' = set_ctl c v.
Proof.
  intros H. cbv zeta.
  assert (∀ i, 0 ≤ i < 3 → Z.testbit (ctl_word c .| 4) i = Z.testbit (r_ctl c) i || (i =? 2)) as Hb.
  { intros i Hi. rewrite Z.lor_spec, ctl_word_low by done. f_equal. change 4 with (2 ^ 2).
    rewrite Z.pow2_bits_eqb by lia. apply Z.eqb_sym. }
  pose proof (Hb 0 ltac:(lia)) as H0. pose proof (Hb 1 ltac:(lia)) as H1. pose proof (Hb 2 ltac:(lia)) as H2.
  rewrite (co_reset c H) in H0. rewrite (co_ena c H) in H1. simpl in H0, H1, H2.
  rewrite ctl_write_set by done. split_and!; [by apply set_ctl_ok| |by eexists].
  unfold int_enabled. simpl. by rewrite H2, orb_true_r.
Qed.
Lemma int_off c :
  chan_ok c → let c' := ctl_write c (ctl_word c .& ~32 4) in
  chan_ok c' ∧ int_enabled c' = false ∧ ∃ v, c' = set_ctl c v.
Proof.
  intros H. cbv zeta.
  assert (∀ i, 0 ≤ i < 3 → Z.testbit (ctl_word c .& ~32 4) i = Z.testbit (r_ctl c) i && negb (i =? 2)) as Hb.
  { intros i Hi. autorewrite with bits. rewrite ctl_word_low, bool_decide_true by (done || lia). f_equal.
    change 4 with (2 ^ 2). rewrite Z.pow2_bits_eqb, Z.eqb_sym by lia. done. }
  pose proof (Hb 0 ltac:(lia)) as H0. pose proof (Hb 1 ltac:(lia)) as H1. pose proof (Hb 2 ltac:(lia)) as H2.
  rewrite (co_reset c H) in H0. rewrite (co_ena c H) in H1. simpl in H0, H1, H2.
  rewrite ctl_write_set by done. split_and!; [by apply set_ctl_ok| |by eexists].
  unfold int_enabled. simpl. by rewrite H2, andb_false_r.
Qed.
End channels.

(** ** The transmit engine *)
Section tx_engine.

Lemma hw_cleared d : hw {| d_addr := d_addr d; d_len := d_len d; d_error := d_error d;
                           d_status := Z.clearbit (d_status d) 0 |} = false.
Proof. apply Z.clearbit_eq. Qed.

Lemma land7 x : x .& 7 = x `mod` 8.
Proof. apply (land_mask_mod x 3). lia. Qed.
Lemma txd_addr_eq d : is_u32 (d_addr d) → txd_addr d = 8 * (d_addr d / 8).
Proof. intros Ha. apply (align_down _ 3); [done|lia]. Qed.

Lemma tx_eop_spec d : tx_eop d = (tx_unal_len d <=? 8).
Proof.
  pose proof (u16_range (d_len d + (d_addr d .& 7))) as Hr. fold (tx_unal_len d) in Hr.
  unfold tx_eop, BUS_BYTES. rewrite Z.shiftr_div_pow2 by lia. apply eq_bool_prop_intro.
  rewrite orb_True, !Is_true_true, !Z.eqb_eq, Z.leb_le. change (2 ^ 3) with 8. Z.div_mod_to_equations. lia.
Qed.

Lemma tx_unal_next d :
  tx_eop d = false → tx_unal_len (tx_update_desc d) = tx_unal_len d - 8.
Proof.
  rewrite tx_eop_spec, Z.leb_gt. unfold tx_unal_len, tx_update_desc. simpl. rewrite !land7.
  unfold u16, u32, BUS_BYTES. intros H. Z.div_mod_to_equations. lia.
Qed.

(** The engine finishes every descriptor, and gives it back. *)
Lemma tx_run_total d : ∃ d' reads, tx_run d = Some (d', reads) ∧ hw d' = false.
Proof.
  unfold tx_run.
  destruct (loop_total (λ _, True) (λ r, hw r.1 = false)
    (λ st, Z.to_nat (tx_unal_len st.1 / 8)) tx_word) with (fuel := tx_fuel) (s := (d, [] : list Z))
    as ([d' reads] & -> & H); [|done| |by eauto].
  - intros [e rs] _. unfold tx_word. destruct (tx_eop e) eqn:E.
    + unfold tx_update_desc, hw. cbn [fst d_status]. rewrite E. apply Z.clearbit_eq.
    + split; [done|]. cbn [fst]. rewrite (tx_unal_next _ E).
      rewrite tx_eop_spec, Z.leb_gt in E. Z.div_mod_to_equations. lia.
  - simpl. pose proof (u16_range (d_len d + (d_addr d .& 7))) as Hr. fold (tx_unal_len d) in Hr.
    unfold tx_fuel. Z.div_mod_to_equations. lia.
Qed.

(** The bus words of a buffer. *)
Definition words (addr len : Z) : list Z :=
  (λ i : nat, u32 (8 * (addr / 8) + 8 * Z.of_nat i)) <$> seq 0 (Z.to_nat ((len + addr `mod` 8 + 7) / 8)).

Lemma words_cons addr len :
  8 < len + addr `mod` 8 → words addr len = u32 (8 * (addr / 8)) :: words (addr + 8) (len - 8).
Proof.
  intros H. unfold words.
  replace (Z.to_nat ((len + addr `mod` 8 + 7) / 8))
    with (S (Z.to_nat ((len - 8 + (addr + 8) `mod` 8 + 7) / 8))) by (Z.div_mod_to_equations; lia).
  rewrite <-cons_seq, <-fmap_S_seq, fmap_cons, <-list_fmap_compose. f_equal; [f_equal; lia|].
  apply list_fmap_ext. intros i x _. unfold compose. f_equal. Z.div_mod_to_equations. lia.
Qed.
Lemma words_last addr len :
  0 < len + addr `mod` 8 ≤ 8 → words addr len = [u32 (8 * (addr / 8))].
Proof.
  intros H. unfold words.
  replace (Z.to_nat ((len + addr `mod` 8 + 7) / 8)) with 1%nat by (Z.div_mod_to_equations; lia).
  simpl. do 2 f_equal. lia.
Qed.
Lemma words_u32 addr len : words (u32 addr) len = words addr len.
Proof.
  unfold words. replace (u32 addr `mod` 8) with (addr `mod` 8); [|unfold u32; Z.div_mod_to_equations; lia].
  apply list_fmap_ext. intros i x _. unfold u32. Z.div_mod_to_equations. lia.
Qed.
Lemma elem_words addr len r :
  0 < len → r ∈ words addr len ↔ ∃ b, addr ≤ b < addr + len ∧ r = u32 (8 * (b / 8)).
Proof.
  intros Hlen. unfold words. rewrite list_elem_of_fmap. setoid_rewrite elem_of_seq. split.
  - intros (i & -> & Hi). exists (Z.max addr (8 * (addr / 8) + 8 * Z.of_nat i)).
    split; [|f_equal]; Z.div_mod_to_equations; lia.
  - intros (b & Hb & ->). exists (Z.to_nat (b / 8 - addr / 8)).
    split; [f_equal|]; Z.div_mod_to_equations; lia.
Qed.

(** The words still to be read for a partly sent descriptor. *)
Definition tx_rest (st : desc * list Z) (all : list Z) : Prop :=
  ∃ len, d_len st.1 = u16 len ∧ 0 < len + d_addr st.1 `mod` 8 < 2 ^ 16 ∧
    is_u32 (d_addr st.1) ∧ st.2 ++ words (d_addr st.1) len = all.

Lemma tx_word_rest st all :
  tx_rest st all →
  match tx_word st with inl st' => tx_rest st' all | inr r => r.2 = all end.
Proof.
  destruct st as [d rs]. intros (len & Hl & Hr & Ha & Hall). cbn [fst snd] in *.
  assert (tx_unal_len d = len + d_addr d `mod` 8) as Hu.
  { unfold tx_unal_len. rewrite Hl, land7. unfold u16. Z.div_mod_to_equations. lia. }
  assert (u32 (8 * (d_addr d / 8)) = txd_addr d) as Hx.
  { rewrite txd_addr_eq by done. apply u32_small. unfold is_u32 in Ha. Z.div_mod_to_equations. lia. }
  unfold tx_word. rewrite tx_eop_spec, Hu. destruct (Z.leb_spec (len + d_addr d `mod` 8) 8).
  - cbn [snd]. rewrite <-Hall, words_last, Hx by lia. done.
  - exists (len - 8). unfold tx_update_desc. cbn [fst snd d_len d_addr].
    assert (u32 (d_addr d + BUS_BYTES) `mod` 8 = d_addr d `mod` 8) as Hm.
    { unfold u32, BUS_BYTES. Z.div_mod_to_equations. lia. }
    split_and!; [|rewrite Hm; lia..|apply u32_range|].
    + rewrite Hl. unfold u16, BUS_BYTES. by rewrite Zminus_mod_idemp_l.
    + rewrite words_u32, <-Hall, <-app_assoc, (words_cons (d_addr d)), Hx by lia. done.
Qed.
End tx_engine.

(** The transmit engine terminates on every descriptor, gives it back to
    the CPU, and reads exactly the bus words that hold a byte of the buffer. *)
Theorem tx_engine_reads d :
  is_u32 (d_addr d) → 0 < d_len d → d_len d + d_addr d `mod` 8 < 2 ^ 16 →
  ∃ d' reads, tx_run d = Some (d', reads) ∧ hw d' = false ∧
    ∀ r, r ∈ reads ↔ ∃ b, d_addr d ≤ b < d_addr d + d_len d ∧ r = u32 (8 * (b / 8)).
Proof.
  intros Ha Hl Hb. destruct (tx_run_total d) as (d' & reads & E & Hhw).
  exists d', reads. split_and!; [done..|].
  assert (reads = words (d_addr d) (d_len d)) as ->; [|intros; by apply elem_words].
  apply (loop_inv (λ st, tx_rest st (words (d_addr d) (d_len d)))
           (λ r, r.2 = words (d_addr d) (d_len d)) tx_word
           ltac:(intros st; apply tx_word_rest) _ _ _) with (2 := E).
  pose proof (Z.mod_pos_bound (d_addr d) 8). exists (d_len d). cbn [fst snd]. split_and!; [|lia..|done|done].
  symmetry. apply u16_small. split; lia.
Qed.
Lemma tx_engine_reads_witness :
  ∃ d' reads, tx_run {| d_addr := 0x1002; d_len := 60; d_error := 0; d_status := 1 |} = Some (d', reads) ∧
    hw d' = false ∧ length reads = 8%nat ∧
    ∀ r, r ∈ reads ↔ ∃ b, 0x1002 ≤ b < 0x1002 + 60 ∧ r = u32 (8 * (b / 8)).
Proof.
  destruct (tx_engine_reads {| d_addr := 0x1002; d_len := 60; d_error := 0; d_status := 1 |})
    as (d' & reads & E & H1 & H2); [by unfold is_u32; simpl; lia|by simpl; lia|by vm_compute|].
  exists d', reads. split_and!; [exact E|exact H1| |exact H2].
  assert ((λ p, length p.2) <$> tx_run {| d_addr := 0x1002; d_len := 60; d_error := 0; d_status := 1 |}
          = Some 8%nat) as H by (by vm_compute).
  rewrite E in H. by injection H.
Defined.

(** ** The receive engine *)
Section rx_engine.

Lemma rx_run_total d f : 0 < f_len f → ∃ len writes, rx_run d f = Some (len, writes) ∧ is_u16 len.
Proof.
  intros Hf. unfold rx_run.
  destruct (loop_total (λ st, 0 < st.1.2) (λ r, is_u16 r.1) (λ st, Z.to_nat st.1.2) (rx_beat d))
    with (fuel := S (Z.to_nat (f_len f))) (s := (0, f_len f, [] : list Z))
    as ([len ws] & -> & H); [|done|simpl; lia|by eauto].
  intros [[off rest] ws] H. cbn [fst snd] in *. unfold rx_beat, BUS_BYTES.
  destruct (Z.leb_spec rest 8); simpl; [apply u16_range|].
  destruct (_ =? _); [apply u16_range|]. simpl. lia.
Qed.

Lemma hw_rx_done d f len : hw (rx_done_desc d f len) = false.
Proof. apply Z.clearbit_eq. Qed.

(** The length recorded is the frame's, or the limit in the descriptor. *)
Lemma rx_run_len d f :
  0 < f_len f ≤ 2 ^ 16 - 8 →
  ∃ len writes, rx_run d f = Some (len, writes) ∧ (len = f_len f ∨ len = d_len d).
Proof.
  intros Hf. destruct (rx_run_total d f) as (len & ws & E & _); [lia|]. exists len, ws. split; [done|].
  change len with (len, ws).1.
  apply (loop_inv (λ st, 0 ≤ st.1.1 ∧ 0 < st.1.2 ∧ st.1.1 + st.1.2 = f_len f)
           (λ r, r.1 = f_len f ∨ r.1 = d_len d) (rx_beat d)) with (3 := E); [|simpl; lia].
  intros [[off rest] w] (H1 & H2 & H3). cbn [fst snd] in *. unfold rx_beat, BUS_BYTES.
  destruct (Z.leb_spec rest 8); simpl.
  - left. rewrite u16_small; lia.
  - rewrite u16_small by lia. destruct (Z.eqb_spec (off + 8) (d_len d)); simpl; [right|lia].
    rewrite u16_small; lia.
Qed.

(** The addresses written for [n] beats from beat [k] of a frame. *)
Definition beats (d : desc) (k n : nat) : list Z :=
  (λ i : nat, u32 (d_addr d + 8 * Z.of_nat i)) <$> seq k n.

Definition rx_rest (d : desc) (total : Z) (st : Z * Z * list Z) : Prop :=
  ∃ k : nat, st.1.1 = 8 * Z.of_nat k ∧ st.1.2 = total - 8 * Z.of_nat k ∧ 0 < st.1.2 ∧
    st.2 = beats d 0 k.

Lemma rx_beat_rest d total st :
  total + 8 ≤ 2 ^ 16 → d_len d `mod` 8 ≠ 0 → rx_rest d total st →
  match rx_beat d st with
  | inl st' => rx_rest d total st'
  | inr r => r = (total, beats d 0 (Z.to_nat ((total + 7) / 8)))
  end.
Proof.
  intros Ht Hd. destruct st as [[off rest] ws]. intros (k & Hoff & Hrest & Hpos & Hws).
  cbn [fst snd] in *. subst off ws. unfold rx_beat, BUS_BYTES.
  assert (beats d 0 k ++ [u32 (d_addr d + 8 * Z.of_nat k)] = beats d 0 (S k)) as ->.
  { unfold beats. by rewrite seq_S, fmap_app. }
  assert (u16 (8 * Z.of_nat k + 8) = 8 * Z.of_nat k + 8) as Hu by (apply u16_small; lia).
  rewrite Hu. assert ((8 * Z.of_nat k + 8 =? d_len d) = false) as ->.
  { apply Z.eqb_neq. intros E. apply Hd. rewrite <-E. Z.div_mod_to_equations. lia. }
  destruct (Z.leb_spec rest 8); cbn [orb].
  - rewrite u16_small by lia.
    replace (Z.to_nat ((total + 7) / 8)) with (S k) by (Z.div_mod_to_equations; lia).
    f_equal. lia.
  - exists (S k). cbn [fst snd]. split_and!; [lia..|done].
Qed.
End rx_engine.

(** When the length in the descriptor is not a multiple of the bus width,
    the length limit of the receive engine never triggers: the whole frame is
    written from the buffer address on, however short the buffer is.  The
    length the driver programs for the board's MTU of 1500 is such a length. *)
Theorem rx_length_limit_unaligned d f :
  d_len d `mod` 8 ≠ 0 → 0 < f_len f ≤ 2 ^ 16 - 8 →
  rx_run d f = Some (f_len f, beats d 0 (Z.to_nat ((f_len f + 7) / 8))).
Proof.
  intros Hd Hf. destruct (rx_run_total d f) as (len & ws & E & _); [lia|]. rewrite E. f_equal.
  apply (loop_inv (rx_rest d (f_len f))
           (λ r, r = (f_len f, beats d 0 (Z.to_nat ((f_len f + 7) / 8)))) (rx_beat d)
           ltac:(intros st; apply rx_beat_rest; [lia|done]) _ _ _) with (2 := E).
  exists 0%nat. cbn [fst snd]. split_and!; [lia..|done].
Qed.
Lemma rx_length_limit_witness :
  (2 + 14 + 1500) `mod` 8 ≠ 0 ∧
  fst <$> rx_run {| d_addr := 0; d_len := 2 + 14 + 1500; d_error := 0; d_status := 1 |}
                 {| f_len := 9000; f_err := 0 |} = Some 9000.
Proof.
  split; [by vm_compute|].
  rewrite (rx_length_limit_unaligned {| d_addr := 0; d_len := 2 + 14 + 1500; d_error := 0; d_status := 1 |}
             {| f_len := 9000; f_err := 0 |}); [reflexivity|by vm_compute|by vm_compute].
Defined.
End EthDma.
