(* ===== verification/YatseMac.v ===== *)
(** * The yatse Ethernet driver: MAC registers, link and PHY management

    Model of the register side of [drivers/net/yatse/]: the layout of
    [yatse_mac_regs] (yatse.h), and [yatse_init_mac], [yatse_adjust_link],
    [yatse_mdio_read], [yatse_mdio_write] and [yatse_detect_phys] of
    yatse_drv.c, with [get_phy_id] of drivers/net/phy/phy_device.c that the
    last one calls.

    The MAC is hardware: it is the interface [MacDev] (a state with a
    [readl] and a [writel] at byte offsets), and [MacRegs] states the
    documented behaviour the driver relies on.  Every volatile access of the
    C code is one read or write of the model, in the same order. *)

From stdpp Require Import functions.
From S2P Require Import Prelude.

Module YatseMac.

(** ** Constants of yatse.h *)

Definition YATSE_BIT (n : Z) : Z := s32 (1 .<< n).
Definition YATSE_BITS (h l : Z) : Z := (YATSE_BIT h - 1) .& Z.lnot (YATSE_BIT l - 1).

Definition YATSE_MAC_CMDCFG_TX_ENA : Z := YATSE_BIT 0.
Definition YATSE_MAC_CMDCFG_RX_ENA : Z := YATSE_BIT 1.
Definition YATSE_MAC_CMDCFG_ETH_SPEED : Z := YATSE_BIT 3.
Definition YATSE_MAC_CMDCFG_PROMIS_EN : Z := YATSE_BIT 4.
Definition YATSE_MAC_CMDCFG_PAD_EN : Z := YATSE_BIT 5.
Definition YATSE_MAC_CMDCFG_HD_ENA : Z := YATSE_BIT 10.
Definition YATSE_MAC_CMDCFG_SW_RESET : Z := YATSE_BIT 13.
Definition YATSE_MAC_CMDCFG_TX_ADDR_SEL : Z := YATSE_BITS 18 16.
Definition YATSE_MAC_CMDCFG_ENA_10 : Z := YATSE_BIT 25.
Definition YATSE_MAC_CMDCFG_RX_ERR_DISC : Z := YATSE_BIT 26.
Definition YATSE_MAC_RXCMDSTAT_RX_SHIFT16 : Z := YATSE_BIT 25.

Definition NET_IP_ALIGN : Z := 2.
Definition ETH_HLEN : Z := 14.
Definition EIO : Z := 5.
Definition EAGAIN : Z := 11.

(** ** The register block

    [yatse_mac_regs] field by field: name and number of 32-bit words. *)
Definition yatse_mac_regs : list (string * Z) := [
  ("megacore_revision", 1); ("scratch_pad", 1); ("command_config", 1);
  ("mac_addr_0", 1); ("mac_addr_1", 1); ("max_frame_length", 1);
  ("pause_quanta", 1); ("rx_sel_empty_threshold", 1); ("rx_sel_full_threshold", 1);
  ("tx_sel_empty_threshold", 1); ("tx_sel_full_threshold", 1);
  ("rx_almost_empty_threshold", 1); ("rx_almost_full_threshold", 1);
  ("tx_almost_empty_threshold", 1); ("tx_almost_full_threshold", 1);
  ("mdio_phy0_addr", 1); ("mdio_phy1_addr", 1); ("reservedx44", 5);
  ("reg_read_access_status", 1); ("min_tx_ipg_length", 1);
  ("aMACID_1", 1); ("aMACID_2", 1);
  ("aFramesTransmittedOK", 1); ("aFramesReceivedOK", 1);
  ("aFramesCheckSequenceErrors", 1); ("aAlignmentErrors", 1);
  ("aOctetsTransmittedOK", 1); ("aOctetsReceivedOK", 1);
  ("aTxPAUSEMACCtrlFrames", 1); ("aRxPAUSEMACCtrlFrames", 1);
  ("ifInErrors", 1); ("ifOutErrors", 1); ("ifInUcastPkts", 1);
  ("ifInMulticastPkts", 1); ("ifInBroadcastPkts", 1); ("ifOutDiscards", 1);
  ("ifOutUcastPkts", 1); ("ifOutMulticastPkts", 1); ("ifOutBroadcastPkts", 1);
  ("etherStatsDropEvent", 1); ("etherStatsOctets", 1); ("etherStatsPkts", 1);
  ("etherStatsUndersizePkts", 1); ("etherStatsOversizePkts", 1);
  ("etherStatsPkts64Octets", 1); ("etherStatsPkts65to127Octets", 1);
  ("etherStatsPkts128to255Octets", 1); ("etherStatsPkts256to511Octets", 1);
  ("etherStatsPkts512to1023Octets", 1); ("etherStatsPkts1024to1518Octets", 1);
  ("etherStatsPkts1519toXOctets", 1); ("etherStatsJabbers", 1);
  ("etherStatsFragments", 1); ("reservedxE4", 1);
  ("tx_cmd_stat", 1); ("rx_cmd_stat", 1);
  ("ipaccTxConf", 1); ("ipaccRxConf", 1); ("ipaccRxStat", 1); ("ipaccRxStatSum", 1);
  ("hash_table", 64); ("mdio_phy0", 1); ("mdio_phy1", 1);
  ("supp_mac_addr_0_0", 1); ("supp_mac_addr_0_1", 1);
  ("supp_mac_addr_1_0", 1); ("supp_mac_addr_1_1", 1);
  ("supp_mac_addr_2_0", 1); ("supp_mac_addr_2_1", 1);
  ("supp_mac_addr_3_0", 1); ("supp_mac_addr_3_1", 1);
  ("reservedx320", 56)
].

(** [offsetof(yatse_mac_regs, name)] and [sizeof(yatse_mac_regs)]. *)
Fixpoint offset_in (fields : list (string * Z)) (name : string) (off : Z) : option Z :=
  match fields with
  | [] => None
  | (f, words) :: rest =>
      if String.eqb f name then Some off else offset_in rest name (off + 4 * words)
  end.
Definition offsetof (name : string) : Z := default (-1) (offset_in yatse_mac_regs name 0).
Arguments offsetof : simpl never.
Definition sizeof_regs : Z := foldr (λ f acc, 4 * f.2 + acc) 0 yatse_mac_regs.

(** ** The device interface *)

Class MacDev := {
  mac_t : Type;
  mac_read : mac_t → Z → mac_t * Z;
  mac_write : mac_t → Z → Z → mac_t;
}.

(** Documented behaviour.  [mac_peek] is what a read returns.  Below the MDIO
    window the registers other than [command_config] are storage: they read
    back what was written and no other access disturbs them.
    [command_config] reads back what was written; a write that sets the
    software-reset bit is cleared by the device after [mac_reset_reads] more
    reads. *)
Definition cc : Z := offsetof "command_config".
Definition storage (off : Z) : Prop := 0 ≤ off < offsetof "mdio_phy0" ∧ off ≠ cc.
Definition in_reset (v : Z) : bool := truthy (v .& YATSE_MAC_CMDCFG_SW_RESET).

Class MacRegs (D : MacDev) := {
  mac_peek : mac_t → Z → Z;
  mac_reset_reads : mac_t → nat;
  mac_peek_u32 mac off : is_u32 (mac_peek mac off);
  mac_read_value mac off : (mac_read mac off).2 = mac_peek mac off;
  mac_read_storage mac off off' :
    storage off' → mac_peek (mac_read mac off).1 off' = mac_peek mac off';
  mac_read_config mac off :
    in_reset (mac_peek mac cc) = false →
    mac_peek (mac_read mac off).1 cc = mac_peek mac cc;
  mac_write_storage mac off off' v :
    storage off' → is_u32 v →
    mac_peek (mac_write mac off v) off' = if decide (off = off') then v else mac_peek mac off';
  mac_write_config mac off v :
    is_u32 v →
    mac_peek (mac_write mac off v) cc = if decide (off = cc) then v else mac_peek mac cc;
  mac_reset_pending mac :
    in_reset (mac_peek mac cc) = bool_decide (mac_reset_reads mac ≠ 0%nat);
  mac_reset_progress mac :
    mac_reset_reads (mac_read mac cc).1 = pred (mac_reset_reads mac);
}.

(** The PHYs behind the MDIO window: [phy_reg mac a r] is register [r] of the
    PHY at address [a]; the window shows the PHY selected by
    [mdio_phy0_addr]. *)
Class MdioBus (D : MacDev) (R : MacRegs D) := {
  phy_reg : mac_t → Z → Z → Z;
  phy_reg_u16 mac a r : is_u16 (phy_reg mac a r);
  mdio_window mac r :
    0 ≤ r < 32 →
    mac_peek mac (offsetof "mdio_phy0" + 4 * r) =
      phy_reg mac (mac_peek mac (offsetof "mdio_phy0_addr")) r;
  mdio_read_keeps mac off a r : phy_reg (mac_read mac off).1 a r = phy_reg mac a r;
  mdio_select_keeps mac v a r :
    phy_reg (mac_write mac (offsetof "mdio_phy0_addr") v) a r = phy_reg mac a r;
}.

(** ** Driver state (yatse.h) *)

Record yatse_config := {
  mii_id : Z;
  ethaddr : list Z;          (* char ethaddr[6], as the bytes of the initialiser *)
  supported_modes : Z;
  max_mtu : Z;
  fifo_depth : Z;
  cfg_rx_align : Z;
}.

(** The part of [struct yatse_private] the MAC code uses. *)
Record mac_priv := {
  mtu : Z;
  link : Z;
  duplex : Z;
  speed : Z;
  config : yatse_config;
  phy_addr : Z;
}.

(** The part of [struct phy_device] read by [yatse_adjust_link]. *)
Record phy_device := { phy_link : Z; phy_duplex : Z; phy_speed : Z }.

(** [char] is signed on MIPS: a byte of [ethaddr] used in an [int] expression. *)
Definition eth_char (c : yatse_config) (i : nat) : Z := s8 (default 0 (ethaddr c !! i)).

Section driver.
Context `{D : MacDev}.

Definition rd (mac : mac_t) (name : string) : mac_t * Z := mac_read mac (offsetof name).
Definition wr (mac : mac_t) (name : string) (v : Z) : mac_t := mac_write mac (offsetof name) (u32 v).

(** The reset poll: [while(i < 10000) { if(!(command_config & SW_RESET)) break; i++; }]. *)
Definition reset_poll_step (st : mac_t * Z) : (mac_t * Z) + (mac_t * Z) :=
  let '(mac, i) := st in
  if i <? 10000 then
    let '(mac, v) := rd mac "command_config" in
    if negb (truthy (v .& YATSE_MAC_CMDCFG_SW_RESET)) then inr (mac, i)
    else inl (mac, i + 1)
  else inr (mac, i).
Definition reset_poll (mac : mac_t) : option (mac_t * Z) :=
  loop (Z.to_nat 10001) reset_poll_step (mac, 0).

(** The value the source puts into [mac_addr_0] and [mac_addr_1]. *)
Definition mac_addr_0 (c : yatse_config) : Z :=
  u32 (s32 (eth_char c 3 .<< 24) .| s32 (eth_char c 2 .<< 16) .|
       s32 (eth_char c 1 .<< 8) .| s32 (eth_char c 0 .<< 0)).
Definition mac_addr_1 (c : yatse_config) : Z :=
  u32 (s32 (eth_char c 5 .<< 8) .| s32 (eth_char c 4 .<< 0)).

(** Everything after the address words: copies into the supplementary
    addresses, then the enable bits. *)
Definition init_mac_addresses (mac : mac_t) (c : yatse_config) : mac_t * Z :=
  let mac := wr mac "mac_addr_0" (mac_addr_0 c) in
  let mac := wr mac "mac_addr_1" (mac_addr_1 c) in
  let copy mac dst src := let '(mac, v) := rd mac src in wr mac dst v in
  let mac := copy mac "supp_mac_addr_0_0" "mac_addr_0" in
  let mac := copy mac "supp_mac_addr_0_1" "mac_addr_1" in
  let mac := copy mac "supp_mac_addr_1_0" "mac_addr_0" in
  let mac := copy mac "supp_mac_addr_1_1" "mac_addr_1" in
  let mac := copy mac "supp_mac_addr_2_0" "mac_addr_0" in
  let mac := copy mac "supp_mac_addr_2_1" "mac_addr_1" in
  let mac := copy mac "supp_mac_addr_3_0" "mac_addr_0" in
  let mac := copy mac "supp_mac_addr_3_1" "mac_addr_1" in
  let mac := wr mac "command_config"
    (YATSE_MAC_CMDCFG_TX_ENA .| YATSE_MAC_CMDCFG_RX_ENA .| YATSE_MAC_CMDCFG_PROMIS_EN .|
     YATSE_MAC_CMDCFG_PAD_EN .| YATSE_MAC_CMDCFG_RX_ERR_DISC) in
  let '(mac, _) := rd mac "command_config" in          (* printk argument *)
  (mac, 0).

(** [switch(NET_IP_ALIGN)]: the receive shift. *)
Definition init_mac_shift (mac : mac_t) : mac_t * option Z :=
  if NET_IP_ALIGN =? 0 then
    let '(mac, v) := rd mac "rx_cmd_stat" in
    (wr mac "rx_cmd_stat" (v .& YATSE_MAC_RXCMDSTAT_RX_SHIFT16), None)
  else if NET_IP_ALIGN =? 2 then
    let '(mac, v) := rd mac "rx_cmd_stat" in
    let mac := wr mac "rx_cmd_stat" (v .| YATSE_MAC_RXCMDSTAT_RX_SHIFT16) in
    let '(mac, v) := rd mac "rx_cmd_stat" in
    if negb (truthy (v .& YATSE_MAC_RXCMDSTAT_RX_SHIFT16)) then (mac, Some (- EIO))
    else (mac, None)
  else (mac, Some (- EIO)).

(** [yatse_init_mac]; [None] only when the poll loop above has no result. *)
Definition yatse_init_mac (priv : mac_priv) (mac : mac_t) : option (mac_t * Z) :=
  let mac := wr mac "command_config" YATSE_MAC_CMDCFG_SW_RESET in
  '(mac, i) ← reset_poll mac;
  if i =? 10000 then
    let '(mac, _) := rd mac "command_config" in        (* printk argument *)
    Some (mac, - EAGAIN)
  else
    let mac := wr mac "max_frame_length" (mtu priv + ETH_HLEN + 4) in
    let '(mac, _) := rd mac "max_frame_length" in      (* printk argument *)
    let mac := wr mac "rx_almost_empty_threshold" 8 in
    let mac := wr mac "rx_almost_full_threshold" 8 in
    let mac := wr mac "tx_almost_empty_threshold" 8 in
    let mac := wr mac "tx_almost_full_threshold" 3 in
    let mac := wr mac "rx_sel_empty_threshold" (fifo_depth (config priv) - 16) in
    let mac := wr mac "rx_sel_full_threshold" 0 in
    let mac := wr mac "tx_sel_empty_threshold" (fifo_depth (config priv) - 16) in
    let mac := wr mac "tx_sel_full_threshold" 0 in
    let mac := wr mac "min_tx_ipg_length" 12 in
    let '(mac, v) := rd mac "tx_sel_full_threshold" in
    if negb (v =? 0) then Some (mac, - EIO)
    else
      let mac := wr mac "rx_cmd_stat" 0 in
      let mac := wr mac "tx_cmd_stat" 0 in
      let '(mac, err) := init_mac_shift mac in
      match err with
      | Some e => Some (mac, e)
      | None =>
          let '(mac, _) := rd mac "rx_cmd_stat" in     (* printk arguments *)
          let '(mac, _) := rd mac "tx_cmd_stat" in
          let mac := wr mac "pause_quanta" 10 in
          Some (init_mac_addresses mac (config priv))
      end.

(** [yatse_adjust_link]: the result is the new private state, the device, and
    the carrier call made ([Some true] for netif_carrier_on, [Some false] for
    netif_carrier_off). *)
Definition adjust_duplex (mac : mac_t) (full : Z) : mac_t :=
  let '(mac, v) := rd mac "command_config" in
  if truthy full then wr mac "command_config" (v .& Z.lnot YATSE_MAC_CMDCFG_HD_ENA)
  else wr mac "command_config" (v .| YATSE_MAC_CMDCFG_HD_ENA).
Definition adjust_speed (mac : mac_t) (spd : Z) : mac_t :=
  if spd =? 1000 then
    let '(mac, v) := rd mac "command_config" in
    wr mac "command_config" ((v .& Z.lnot YATSE_MAC_CMDCFG_ENA_10) .| YATSE_MAC_CMDCFG_ETH_SPEED)
  else if spd =? 100 then
    let '(mac, v) := rd mac "command_config" in
    wr mac "command_config"
      (v .& Z.lnot (YATSE_MAC_CMDCFG_ENA_10 .| YATSE_MAC_CMDCFG_ETH_SPEED))
  else if spd =? 10 then
    let '(mac, v) := rd mac "command_config" in
    wr mac "command_config" ((v .& Z.lnot YATSE_MAC_CMDCFG_ETH_SPEED) .| YATSE_MAC_CMDCFG_ENA_10)
  else mac.
Definition yatse_adjust_link (priv : mac_priv) (phydev : phy_device) (mac : mac_t) :
    mac_priv * mac_t * option bool :=
  let link_changed := negb (link priv =? phy_link phydev) in
  let with_link l d s :=
    {| mtu := mtu priv; link := l; duplex := d; speed := s;
       config := config priv; phy_addr := phy_addr priv |} in
  if truthy (phy_link phydev) then
    if link_changed || negb (duplex priv =? phy_duplex phydev)
       || negb (speed priv =? phy_speed phydev) then
      let mac := adjust_duplex mac (phy_duplex phydev) in
      let mac := adjust_speed mac (phy_speed phydev) in
      (with_link (phy_link phydev) (phy_duplex phydev) (phy_speed phydev), mac, Some true)
    else (with_link (phy_link phydev) (duplex priv) (speed priv), mac, None)
  else
    (with_link (phy_link phydev) (duplex priv) (speed priv), mac,
     if link_changed then Some false else None).

(** The MDIO bus: PHY register [regnum] is word [regnum] above [mdio_phy0]. *)
Definition mdio_reg (regnum : Z) : Z := offsetof "mdio_phy0" + 4 * regnum.
Definition yatse_mdio_read (mac : mac_t) (mii_id regnum : Z) : mac_t * Z :=
  let mac := wr mac "mdio_phy0_addr" mii_id in
  let '(mac, v) := mac_read mac (mdio_reg regnum) in
  (mac, v .& 65535).
Definition yatse_mdio_write (mac : mac_t) (mii_id regnum value : Z) : mac_t * Z :=
  let mac := wr mac "mdio_phy0_addr" mii_id in
  (mac_write mac (mdio_reg regnum) (u16 value), 0).

(** [get_phy_id] (phy_device.c) over this bus: the error code, and the id it
    stores on success. *)
Definition get_phy_id (mac : mac_t) (addr : Z) : mac_t * Z * option Z :=
  let '(mac, phy_reg) := yatse_mdio_read mac addr 2 in
  if phy_reg <? 0 then (mac, - EIO, None)
  else
    let id := u32 ((phy_reg .& 65535) .<< 16) in
    let '(mac, phy_reg) := yatse_mdio_read mac addr 3 in
    if phy_reg <? 0 then (mac, - EIO, None)
    else (mac, 0, Some (id .| (phy_reg .& 65535))).

(** [yatse_detect_phys]: [for(i = 31; i >= 0; i--)]; [todo] addresses are
    left, the next one is [todo - 1]. *)
Definition phy_present (phy_id : Z) : bool :=
  negb (((phy_id .>> 16) .& 65535) =? (phy_id .& 65535)).
Fixpoint detect_loop (todo : nat) (mac : mac_t) (phy_addr ret : Z) : mac_t * Z * Z :=
  match todo with
  | O => (mac, phy_addr, ret)
  | S i =>
      let '(mac, ret, id) := get_phy_id mac (Z.of_nat i) in
      if truthy ret then (mac, phy_addr, ret)
      else detect_loop i mac
             (match id with
              | Some id => if phy_present id then Z.of_nat i else phy_addr
              | None => phy_addr
              end) ret
  end.
Definition yatse_detect_phys (mac : mac_t) : mac_t * Z * Z := detect_loop 32 mac (-1) 0.

End driver.

(** ** Reasoning about register programs

    [agree mac f]: out of reset, and [f] gives the contents of the registers
    below the MDIO window. *)
Section regs.
Context {D : MacDev} {R : MacRegs D}.

Definition agree (mac : mac_t) (f : Z → Z) : Prop :=
  (∀ off, 0 ≤ off < offsetof "mdio_phy0" → mac_peek mac off = f off) ∧
  in_reset (f cc) = false.

Lemma agree_self mac : in_reset (mac_peek mac cc) = false → agree mac (mac_peek mac).
Proof. done. Qed.

Lemma agree_rd mac f name mac' v :
  agree mac f → 0 ≤ offsetof name < offsetof "mdio_phy0" → rd mac name = (mac', v) →
  v = f (offsetof name) ∧ agree mac' f.
Proof.
  intros [Hf Hr] Hoff Hrd. unfold rd in Hrd.
  pose proof (mac_read_value mac (offsetof name)) as Hv. rewrite Hrd in Hv. simpl in Hv.
  assert (0 ≤ cc < offsetof "mdio_phy0") as Hcc by done.
  split; [rewrite Hv; by apply Hf|]. split; [|done]. intros off Hlt.
  replace mac' with (mac_read mac (offsetof name)).1 by by rewrite Hrd.
  destruct (decide (off = cc)) as [->|Hne].
  - rewrite mac_read_config; [by apply Hf|]. by rewrite Hf.
  - rewrite mac_read_storage by done. by apply Hf.
Qed.

Lemma agree_wr mac f name v :
  agree mac f → (offsetof name = cc → in_reset (u32 v) = false) →
  agree (wr mac name v) (<[offsetof name := u32 v]> f).
Proof.
  intros [Hf Hr] Hv. assert (is_u32 (u32 v)) as Hu by apply u32_range.
  assert (0 ≤ cc < offsetof "mdio_phy0") as Hcc by done. split.
  - intros off Hlt. unfold wr. destruct (decide (off = cc)) as [->|Hne].
    + rewrite mac_write_config by done. case_decide as Hd.
      * rewrite Hd. by rewrite fn_lookup_insert.
      * rewrite fn_lookup_insert_ne by done. by apply Hf.
    + rewrite mac_write_storage by done. case_decide as Hd.
      * subst off. by rewrite fn_lookup_insert.
      * rewrite fn_lookup_insert_ne by done. by apply Hf.
  - destruct (decide (offsetof name = cc)) as [Heq|Hne].
    + rewrite Heq, fn_lookup_insert. auto.
    + by rewrite fn_lookup_insert_ne.
Qed.

(** The reset poll: it leaves the loop after [mac_reset_reads] failed polls, or
    gives up after 10000. *)
Lemma reset_poll_spec mac :
  ∃ mac' i, reset_poll mac = Some (mac', i) ∧
    i = Z.min (Z.of_nat (mac_reset_reads mac)) 10000 ∧
    (∀ off, storage off → mac_peek mac' off = mac_peek mac off) ∧
    (i < 10000 → in_reset (mac_peek mac' cc) = false).
Proof.
  unfold reset_poll.
  destruct (loop_total
    (λ '(m, i), 0 ≤ i ≤ 10000 ∧ i + Z.of_nat (mac_reset_reads m) = Z.max i (Z.of_nat (mac_reset_reads mac)) ∧
       i ≤ Z.of_nat (mac_reset_reads mac) ∧
       ∀ off, storage off → mac_peek m off = mac_peek mac off)
    (λ '(m, i), i = Z.min (Z.of_nat (mac_reset_reads mac)) 10000 ∧
       (∀ off, storage off → mac_peek m off = mac_peek mac off) ∧
       (i < 10000 → in_reset (mac_peek m cc) = false))
    (λ '(m, i), Z.to_nat (10000 - i)) reset_poll_step)
    with (fuel := Z.to_nat 10001) (s := (mac, 0)) as ([m i] & -> & ? & ? & ?);
    [|split_and!; [lia..|done]|lia|by exists m, i].
  intros [m i] (Hi & Hsum & Hle & Hst). unfold reset_poll_step.
  destruct (Z.ltb_spec i 10000); [|split_and!; [lia|done|lia]].
  destruct (rd m "command_config") as [m' v] eqn:Hrd. unfold rd in Hrd.
  change (offsetof "command_config") with cc in Hrd.
  pose proof (mac_read_value m cc) as Hv. rewrite Hrd in Hv. simpl in Hv. subst v.
  assert (m' = (mac_read m cc).1) as Hm' by by rewrite Hrd.
  change (truthy (mac_peek m cc .& YATSE_MAC_CMDCFG_SW_RESET)) with (in_reset (mac_peek m cc)).
  rewrite mac_reset_pending. case_bool_decide as Hp; simpl.
  - split; [|lia]. split_and!; [lia..| | |].
    + rewrite Hm', mac_reset_progress. lia.
    + lia.
    + intros off Hoff. rewrite Hm', mac_read_storage by done. auto.
  - assert (in_reset (mac_peek m cc) = false) as Hnr.
    { rewrite mac_reset_pending. apply bool_decide_false. lia. }
    split_and!; [lia| |].
    + intros off Hoff. rewrite Hm', mac_read_storage by done. auto.
    + intros _. by rewrite Hm', mac_read_config.
Qed.

(** Reference: what a configured MAC holds. *)
Definition mac_programming (priv : mac_priv) : list (string * Z) := [
  ("max_frame_length", u32 (mtu priv + 18));
  ("rx_almost_empty_threshold", 8); ("rx_almost_full_threshold", 8);
  ("tx_almost_empty_threshold", 8); ("tx_almost_full_threshold", 3);
  ("rx_sel_empty_threshold", u32 (fifo_depth (config priv) - 16));
  ("rx_sel_full_threshold", 0);
  ("tx_sel_empty_threshold", u32 (fifo_depth (config priv) - 16));
  ("tx_sel_full_threshold", 0); ("min_tx_ipg_length", 12);
  ("rx_cmd_stat", 2 ^ 25); ("tx_cmd_stat", 0); ("pause_quanta", 10);
  ("mac_addr_0", mac_addr_0 (config priv)); ("mac_addr_1", mac_addr_1 (config priv));
  ("command_config", 2 ^ 0 + 2 ^ 1 + 2 ^ 4 + 2 ^ 5 + 2 ^ 26)
].

Local Ltac reg_side :=
  let HH := fresh in intro HH; first [vm_compute in HH; discriminate HH | vm_compute; reflexivity].
Local Ltac reg_step :=
  match goal with
  | H : agree ?m ?f |- context [wr ?m ?n ?v] =>
      let m2 := fresh "mac" in let H2 := fresh "Hag" in
      pose proof (agree_wr m f n v H ltac:(reg_side)) as H2;
      generalize dependent (wr m n v); intros m2 H2; clear H
  | H : agree ?m ?f |- context [rd ?m ?n] =>
      let m2 := fresh "mac" in let v2 := fresh "v" in let E := fresh in
      destruct (rd m n) as [m2 v2] eqn:E;
      apply (agree_rd m f n m2 v2 H ltac:(by vm_compute)) in E as [-> ?]; clear H
  end.
Local Ltac reg_look :=
  unfold insert, fn_insert; repeat (rewrite decide_True by done || rewrite decide_False by done).

Lemma init_mac_shift_spec mac f mac' r :
  agree mac f → f (offsetof "rx_cmd_stat") = 0 → init_mac_shift mac = (mac', r) →
  r = None ∧ agree mac' (<[offsetof "rx_cmd_stat" := 2 ^ 25]> f).
Proof.
  intros Hag Hz. unfold init_mac_shift.
  change (NET_IP_ALIGN =? 0) with false. change (NET_IP_ALIGN =? 2) with true. cbv iota.
  reg_step. rewrite Hz. change (0 .| YATSE_MAC_RXCMDSTAT_RX_SHIFT16) with (2 ^ 25).
  reg_step. change (u32 (2 ^ 25)) with (2 ^ 25) in *. reg_step.
  rewrite fn_lookup_insert. intros [= <- <-]. done.
Qed.

Lemma init_mac_addresses_spec mac f c mac' r :
  agree mac f → init_mac_addresses mac c = (mac', r) →
  r = 0 ∧ ∃ f', agree mac' f' ∧
    f' (offsetof "mac_addr_0") = mac_addr_0 c ∧ f' (offsetof "mac_addr_1") = mac_addr_1 c ∧
    f' cc = 2 ^ 0 + 2 ^ 1 + 2 ^ 4 + 2 ^ 5 + 2 ^ 26 ∧
    (∀ off, off < offsetof "supp_mac_addr_0_0" → off ≠ cc → off ≠ offsetof "mac_addr_0" →
       off ≠ offsetof "mac_addr_1" → f' off = f off).
Proof.
  intros Hag. unfold init_mac_addresses. cbv zeta. repeat reg_step. intros [= <- <-].
  split; [done|]. eexists. split; [done|].
  assert (u32 (mac_addr_0 c) = mac_addr_0 c) as E0 by apply u32_u32.
  assert (u32 (mac_addr_1 c) = mac_addr_1 c) as E1 by apply u32_u32.
  split_and!; [by reg_look|by reg_look|by reg_look|].
  intros off Hoff Hcc H0 H1. change (offsetof "supp_mac_addr_0_0") with 520 in Hoff.
  unfold insert, fn_insert.
  repeat (rewrite decide_False by first [congruence | vm_compute; lia | naive_solver]).
  done.
Qed.

Lemma init_mac_correct (priv : mac_priv) (mac : mac_t) :
  ∃ mac' ret, yatse_init_mac priv mac = Some (mac', ret) ∧
    if decide (mac_reset_reads (wr mac "command_config" YATSE_MAC_CMDCFG_SW_RESET)
               < Z.to_nat 10000)%nat
    then ret = 0 ∧ ∀ name v, (name, v) ∈ mac_programming priv →
           mac_peek mac' (offsetof name) = v
    else ret = - EAGAIN ∧ ∀ off, storage off → mac_peek mac' off = mac_peek mac off.
Proof.
  unfold yatse_init_mac. cbv zeta.
  destruct (reset_poll_spec (wr mac "command_config" YATSE_MAC_CMDCFG_SW_RESET))
    as (mac1 & i & -> & Hi & Hst & Hrst). cbn [mbind option_bind].
  destruct (Z.eqb_spec i 10000) as [E|E].
  - destruct (rd mac1 "command_config") as [mac2 v] eqn:Hrd.
    exists mac2, (- EAGAIN). split; [done|]. rewrite decide_False by lia. split; [done|].
    intros off Hoff. replace mac2 with (mac_read mac1 cc).1 by (unfold rd in Hrd; fold cc in Hrd; by rewrite Hrd).
    rewrite mac_read_storage, Hst by done. unfold wr.
    rewrite mac_write_storage by (done || apply u32_range).
    rewrite decide_False; [done|]. destruct Hoff as [_ Hne]. intros Heq. by apply Hne.
  - assert (agree mac1 (mac_peek mac1)) as Hag by (apply agree_self, Hrst; lia).
    assert (mac_reset_reads (wr mac "command_config" YATSE_MAC_CMDCFG_SW_RESET) < Z.to_nat 10000)%nat
      as Hlt by lia. clear Hst Hrst Hi E.
    do 12 reg_step. rewrite (proj2 (Z.eqb_eq _ 0)) by by reg_look. simpl negb. cbv iota.
    do 2 reg_step. destruct (init_mac_shift _) as [mac' r] eqn:Hsh.
    eapply init_mac_shift_spec in Hsh as [-> Hag']; [|eassumption|by reg_look].
    do 3 reg_step.
    destruct (init_mac_addresses _ _) as [mac'' r] eqn:Had.
    eapply init_mac_addresses_spec in Had as (-> & f & Hf & Hm0 & Hm1 & Hcfg & Hrest);
      [|eassumption].
    exists mac'', 0. split; [done|]. rewrite decide_True by done. split; [done|].
    intros name v Hin. unfold mac_programming in Hin.
    repeat (apply elem_of_cons in Hin as [[= -> ->]|Hin];
      [rewrite (proj1 Hf) by (by vm_compute);
       first [exact Hm0 | exact Hm1 | exact Hcfg |
              rewrite Hrest by (by vm_compute); reg_look;
              first [done | f_equal; unfold ETH_HLEN; lia]]|]).
    by apply elem_of_nil in Hin.
Qed.

(** [yatse_init_mac] always terminates.  When the MAC leaves software reset
    within 10000 polls it returns 0 with every register of
    [mac_programming] set; otherwise it returns -EAGAIN and no storage
    register has changed. *)
Theorem yatse_init_mac_spec (priv : mac_priv) (mac : mac_t) :
  ∃ mac' ret, yatse_init_mac priv mac = Some (mac', ret) ∧
    if decide (mac_reset_reads (wr mac "command_config" YATSE_MAC_CMDCFG_SW_RESET)
               < Z.to_nat 10000)%nat
    then ret = 0 ∧ ∀ name v, (name, v) ∈ mac_programming priv →
           mac_peek mac' (offsetof name) = v
    else ret = - EAGAIN ∧ ∀ off, storage off → mac_peek mac' off = mac_peek mac off.
Proof. apply init_mac_correct. Qed.
End regs.

(** A device with the documented behaviour: a word store, and a reset that
    takes [sim_delay] polls. *)
Record sim_mac := { sim_regs : Z → Z; sim_pending : nat; sim_delay : nat }.
Definition sim_peek (s : sim_mac) (off : Z) : Z :=
  if decide (off = cc) then
    u32 (if decide (sim_pending s = 0%nat)
         then Z.clearbit (sim_regs s cc) 13 else Z.setbit (sim_regs s cc) 13)
  else u32 (sim_regs s off).
Definition sim_read (s : sim_mac) (off : Z) : sim_mac * Z :=
  ({| sim_regs := sim_regs s;
      sim_pending := if decide (off = cc) then pred (sim_pending s) else sim_pending s;
      sim_delay := sim_delay s |}, sim_peek s off).
Definition sim_write (s : sim_mac) (off v : Z) : sim_mac :=
  {| sim_regs := <[off := v]> (sim_regs s);
     sim_pending := if decide (off = cc)
                    then if in_reset v then S (sim_delay s) else 0%nat
                    else sim_pending s;
     sim_delay := sim_delay s |}.
#[export] Instance sim_dev : MacDev :=
  {| mac_t := sim_mac; mac_read := sim_read; mac_write := sim_write |}.

Lemma in_reset_testbit v : in_reset v = Z.testbit v 13.
Proof. unfold in_reset. change YATSE_MAC_CMDCFG_SW_RESET with (1 .<< 13). by rewrite land_bit. Qed.

#[export] Program Instance sim_mac_regs : MacRegs sim_dev :=
  {| mac_peek := sim_peek; mac_reset_reads := sim_pending |}.
Next Obligation. intros mac off. unfold sim_peek. case_decide; apply u32_range. Qed.
Next Obligation. done. Qed.
Next Obligation.
  intros mac off off' [_ Hne]. unfold sim_peek. simpl. by rewrite !decide_False.
Qed.
Next Obligation.
  intros mac off. assert (sim_pending mac = 0%nat → sim_pending (sim_read mac off).1 = 0%nat) as Hz.
  { simpl. case_decide; lia. }
  unfold sim_peek. rewrite !(decide_True _ _ (eq_refl cc)).
  destruct (decide (sim_pending mac = 0%nat)) as [Hp|Hp].
  - intros _. by rewrite decide_True by auto.
  - rewrite in_reset_testbit, testbit_u32, Z.setbit_eq by lia. done.
Qed.
Next Obligation.
  intros mac off off' v [_ Hne] Hv. unfold sim_peek. simpl.
  rewrite !decide_False by done. case_decide as Hd.
  - subst. rewrite fn_lookup_insert. by apply u32_small.
  - by rewrite fn_lookup_insert_ne, decide_False by done.
Qed.
Next Obligation.
  intros mac off v Hv. unfold sim_peek. rewrite !(decide_True _ _ (eq_refl cc)).
  cbn [mac_write sim_dev sim_write sim_regs sim_pending]. destruct (decide (off = cc)) as [->|Hne].
  - rewrite fn_lookup_insert. rewrite in_reset_testbit.
    destruct (Z.testbit v 13) eqn:E; [rewrite decide_False by lia|rewrite decide_True by done].
    + rewrite <-(u32_small v) at 2 by done. f_equal. apply Z.bits_inj'. intros i Hi.
      rewrite Z.setbit_eqb by lia. destruct (Z.eqb_spec 13 i); [by subst|done].
    + rewrite <-(u32_small v) at 2 by done. f_equal. apply Z.bits_inj'. intros i Hi.
      rewrite Z.clearbit_eqb. destruct (Z.eqb_spec 13 i); [by subst; rewrite E|by rewrite andb_true_r].
  - by rewrite fn_lookup_insert_ne by done.
Qed.
Next Obligation.
  intros mac. rewrite in_reset_testbit. unfold sim_peek. rewrite decide_True by done.
  rewrite testbit_u32, (bool_decide_true (13 < 32)), andb_true_l by lia.
  case_decide as Hp.
  - rewrite Z.clearbit_eq, bool_decide_false by (simpl; lia). done.
  - rewrite Z.setbit_eq by lia. by rewrite bool_decide_true.
Qed.
Next Obligation. done. Qed.

(** ** The driver's boards *)

(** [eth0_config] of arch/mips/z48soc/z48soc_mach_de2_115.c. *)
Definition eth0_config : yatse_config := {|
  mii_id := 0;
  ethaddr := [0x00; 0x70; 0xed; 0x11; 0x12; 0x12];
  supported_modes := 0;
  max_mtu := 1500;
  fifo_depth := 1024;
  cfg_rx_align := 0;
|}.
Definition eth0_priv : mac_priv := {|
  mtu := max_mtu eth0_config; link := 0; duplex := 0; speed := 0;
  config := eth0_config; phy_addr := -1 |}.

Definition sim_mac0 : sim_mac := {| sim_regs := λ _, 0; sim_pending := 0; sim_delay := 3 |}.

Lemma yatse_init_mac_witness :
  ∃ mac' ret, yatse_init_mac (D := sim_dev) eth0_priv sim_mac0 = Some (mac', ret) ∧
    if decide (mac_reset_reads (wr (D := sim_dev) sim_mac0 "command_config" YATSE_MAC_CMDCFG_SW_RESET)
               < Z.to_nat 10000)%nat
    then ret = 0 ∧ ∀ name v, (name, v) ∈ mac_programming eth0_priv →
           mac_peek mac' (offsetof name) = v
    else ret = - EAGAIN ∧ ∀ off, storage off → mac_peek mac' off = sim_peek sim_mac0 off.
Proof. apply (yatse_init_mac_spec (R := sim_mac_regs) eth0_priv sim_mac0). Defined.

(** ** The station address *)

Lemma u32_char_field b k :
  0 ≤ k ≤ 24 → 0 ≤ b < 256 → b < 128 ∨ k = 24 → u32 (s32 (s8 b .<< k)) = b * 2 ^ k.
Proof.
  intros Hk Hb Hc. rewrite u32_s32, Z.shiftl_mul_pow2 by lia.
  destruct (decide (b < 128)).
  - rewrite s8_small by lia. apply u32_small. split; [lia|].
    assert (2 ^ k ≤ 2 ^ 24) by (apply Z.pow_le_mono_r; lia). nia.
  - destruct Hc as [?| ->]; [lia|]. unfold s8, u32. Z.div_mod_to_equations. lia.
Qed.


(** The station-address registers hold the bytes of [ethaddr] in little
    endian order when no byte below another one of its word is 0x80 or more
    (the second word's last byte included, as its high half must stay 0). *)
Theorem mac_addr_little_endian c b0 b1 b2 b3 b4 b5 :
  ethaddr c = [b0; b1; b2; b3; b4; b5] →
  0 ≤ b0 < 128 → 0 ≤ b1 < 128 → 0 ≤ b2 < 128 → 0 ≤ b3 < 256 →
  0 ≤ b4 < 128 → 0 ≤ b5 < 128 →
  mac_addr_0 c = b0 + b1 * 2 ^ 8 + b2 * 2 ^ 16 + b3 * 2 ^ 24 ∧
  mac_addr_1 c = b4 + b5 * 2 ^ 8.
Proof.
  intros He H0 H1 H2 H3 H4 H5. unfold mac_addr_0, mac_addr_1, eth_char. rewrite He. simpl.
  rewrite !u32_lor, !u32_char_field by lia. rewrite !Z.mul_1_r.
  split.
  - rewrite (Z.lor_comm _ b0), (Z.lor_comm _ (b1 * _)), (Z.lor_comm _ (b2 * _)), !Z.lor_assoc.
    rewrite (lor_add_field b0 b1 8), (lor_add_field _ b2 16) by lia. apply lor_add_field; lia.
  - rewrite Z.lor_comm. apply lor_add_field; lia.
Qed.
Definition config_low : yatse_config :=
  {| mii_id := 0; ethaddr := [0x00; 0x07; 0x6d; 0xed; 0x12; 0x12];
     supported_modes := 0; max_mtu := 1500; fifo_depth := 1024; cfg_rx_align := 0 |}.
Lemma mac_addr_little_endian_witness :
  mac_addr_0 config_low = 0x00 + 0x07 * 2 ^ 8 + 0x6d * 2 ^ 16 + 0xed * 2 ^ 24 ∧
  mac_addr_1 config_low = 0x12 + 0x12 * 2 ^ 8.
Proof. apply mac_addr_little_endian; [reflexivity|lia..]. Defined.

(** ** Register layout *)

(** The supplementary address registers, in the order [yatse_init_mac] writes
    them. *)
Definition supp_regs : list string := [
  "supp_mac_addr_0_0"; "supp_mac_addr_0_1"; "supp_mac_addr_1_0"; "supp_mac_addr_1_1";
  "supp_mac_addr_2_0"; "supp_mac_addr_2_1"; "supp_mac_addr_3_0"; "supp_mac_addr_3_1" ].

(** [yatse_mac_regs] declares [mdio_phy0] and [mdio_phy1] as single words
    where the hardware has 32 registers each.  So the structure is 0x308 bytes
    instead of the 0x400 of the platform resource, [reservedx320] sits at
    0x228, and the eight supplementary address registers are the MDIO
    registers 2 to 9 of the selected PHY.  On the DE2-115 board opening eth0
    therefore writes the address word 0xffed7000 (a corrupted one: byte 2 of
    [ethaddr] is 0xed) into the PHY's register 4. *)
Theorem yatse_supp_regs_alias_phy :
  sizeof_regs = 0x308 ∧ offsetof "reservedx320" = 0x228 ∧
  offsetof "reservedx44" = 0x44 ∧ offsetof "reservedxE4" = 0xE4 ∧
  offsetof <$> supp_regs = mdio_reg <$> [2; 3; 4; 5; 6; 7; 8; 9] ∧
  ∃ mac', yatse_init_mac (D := sim_dev) eth0_priv sim_mac0 = Some (mac', 0) ∧
    mac_peek mac' (offsetof "mac_addr_0") = 0xffed7000 ∧
    mac_peek mac' (mdio_reg 4) = 0xffed7000.
Proof.
  split_and!; try reflexivity. eexists.
  split; [vm_compute; reflexivity|]. split; vm_compute; reflexivity.
Qed.

(** The documented field [TX_ADDR_SEL] is bits 18 to 16, but [YATSE_BITS]
    leaves out its upper bound. *)
Lemma tx_addr_sel_short : YATSE_MAC_CMDCFG_TX_ADDR_SEL = 2 ^ 16 + 2 ^ 17.
Proof. reflexivity. Qed.

(** ** Link changes *)

(** The mode bits of [command_config] agree with the link state the driver
    remembers. *)
Definition link_cfg_ok (priv : mac_priv) (v : Z) : Prop :=
  link priv ≠ 0 →
  Z.testbit v 10 = negb (truthy (duplex priv)) ∧
  (speed priv = 1000 → Z.testbit v 3 = true ∧ Z.testbit v 25 = false) ∧
  (speed priv = 100 → Z.testbit v 3 = false ∧ Z.testbit v 25 = false) ∧
  (speed priv = 10 → Z.testbit v 3 = false ∧ Z.testbit v 25 = true).

(** The mode bits after [adjust_duplex] and [adjust_speed], as functions of the
    old word. *)
Definition duplex_word (full v : Z) : Z :=
  u32 (if truthy full then v .& Z.lnot YATSE_MAC_CMDCFG_HD_ENA else v .| YATSE_MAC_CMDCFG_HD_ENA).
Definition speed_word (spd v : Z) : Z :=
  if spd =? 1000 then u32 ((v .& Z.lnot YATSE_MAC_CMDCFG_ENA_10) .| YATSE_MAC_CMDCFG_ETH_SPEED)
  else if spd =? 100 then u32 (v .& Z.lnot (YATSE_MAC_CMDCFG_ENA_10 .| YATSE_MAC_CMDCFG_ETH_SPEED))
  else if spd =? 10 then u32 ((v .& Z.lnot YATSE_MAC_CMDCFG_ETH_SPEED) .| YATSE_MAC_CMDCFG_ENA_10)
  else v.

Lemma bit_10 i : Z.testbit YATSE_MAC_CMDCFG_HD_ENA i = bool_decide (i = 10).
Proof. change YATSE_MAC_CMDCFG_HD_ENA with (2 ^ 10). rewrite Z.pow2_bits_eqb by lia. case_bool_decide; lia. Qed.
Lemma bit_3 i : Z.testbit YATSE_MAC_CMDCFG_ETH_SPEED i = bool_decide (i = 3).
Proof. change YATSE_MAC_CMDCFG_ETH_SPEED with (2 ^ 3). rewrite Z.pow2_bits_eqb by lia. case_bool_decide; lia. Qed.
Lemma bit_25 i : Z.testbit YATSE_MAC_CMDCFG_ENA_10 i = bool_decide (i = 25).
Proof. change YATSE_MAC_CMDCFG_ENA_10 with (2 ^ 25). rewrite Z.pow2_bits_eqb by lia. case_bool_decide; lia. Qed.
Hint Rewrite bit_10 bit_3 bit_25 : bits.

Lemma duplex_word_bits full v i :
  0 ≤ i < 32 →
  Z.testbit (duplex_word full v) i =
    if bool_decide (i = 10) then negb (truthy full) else Z.testbit v i.
Proof.
  intros Hi. unfold duplex_word. rewrite testbit_u32, bool_decide_true, andb_true_l by lia.
  destruct (truthy full); autorewrite with bits; case_bool_decide; simpl; try done; btauto.
Qed.

Lemma speed_word_bits spd v i :
  0 ≤ i < 32 → is_u32 v →
  Z.testbit (speed_word spd v) i =
    if decide (spd = 1000 ∨ spd = 100 ∨ spd = 10) then
      if bool_decide (i = 3) then bool_decide (spd = 1000)
      else if bool_decide (i = 25) then bool_decide (spd = 10) else Z.testbit v i
    else Z.testbit v i.
Proof.
  intros Hi Hv. unfold speed_word.
  destruct (Z.eqb_spec spd 1000) as [->|]; [|destruct (Z.eqb_spec spd 100) as [->|];
    [|destruct (Z.eqb_spec spd 10) as [->|]]].
  all: first [rewrite decide_True by lia | rewrite decide_False by lia; done].
  all: rewrite testbit_u32, (bool_decide_true (i < 32)), andb_true_l by lia;
    autorewrite with bits; repeat case_bool_decide; try lia; try done; btauto.
Qed.

Lemma duplex_word_u32 full v : is_u32 (duplex_word full v).
Proof. apply u32_range. Qed.
Lemma speed_word_u32 spd v : is_u32 v → is_u32 (speed_word spd v).
Proof. intros. unfold speed_word. repeat case_match; (done || apply u32_range). Qed.

Section link_theorems.
Context {D : MacDev} {R : MacRegs D}.

(** One read-modify-write of [command_config] that does not touch the reset
    bit. *)
Lemma config_update mac v' :
  in_reset (mac_peek mac cc) = false → is_u32 v' →
  Z.testbit v' 13 = Z.testbit (mac_peek mac cc) 13 →
  let mac' := wr (mac_read mac cc).1 "command_config" v' in
  mac_peek mac' cc = v' ∧ in_reset (mac_peek mac' cc) = false ∧
  ∀ off, storage off → mac_peek mac' off = mac_peek mac off.
Proof.
  intros Hr Hv Hb mac'. unfold mac', wr. fold cc. rewrite !u32_small by done.
  rewrite mac_write_config, decide_True by done. split_and!; [done| |].
  - by rewrite in_reset_testbit, Hb, <-in_reset_testbit.
  - intros off Hoff. rewrite mac_write_storage, decide_False, mac_read_storage; try done.
    by destruct Hoff.
Qed.

Lemma adjust_duplex_spec mac full :
  in_reset (mac_peek mac cc) = false →
  let mac' := adjust_duplex mac full in
  mac_peek mac' cc = duplex_word full (mac_peek mac cc) ∧
  in_reset (mac_peek mac' cc) = false ∧
  ∀ off, storage off → mac_peek mac' off = mac_peek mac off.
Proof.
  intros Hr. unfold adjust_duplex, rd. fold cc.
  rewrite (surjective_pairing (mac_read mac cc)), mac_read_value.
  replace (if truthy full then _ else _)
    with (wr (mac_read mac cc).1 "command_config" (duplex_word full (mac_peek mac cc))).
  - apply config_update; [done|apply duplex_word_u32|]. by rewrite duplex_word_bits.
  - unfold wr, duplex_word. rewrite u32_u32. by destruct (truthy full).
Qed.

Lemma adjust_speed_spec mac spd :
  in_reset (mac_peek mac cc) = false →
  let mac' := adjust_speed mac spd in
  mac_peek mac' cc = speed_word spd (mac_peek mac cc) ∧
  in_reset (mac_peek mac' cc) = false ∧
  ∀ off, storage off → mac_peek mac' off = mac_peek mac off.
Proof.
  intros Hr. pose proof (mac_peek_u32 mac cc) as Hu.
  pose proof (config_update mac (speed_word spd (mac_peek mac cc)) Hr (speed_word_u32 _ _ Hu)) as Hc.
  rewrite speed_word_bits in Hc by done. specialize (Hc ltac:(by case_decide)).
  unfold adjust_speed, speed_word, rd in *. fold cc.
  rewrite (surjective_pairing (mac_read mac cc)), mac_read_value.
  unfold wr in *. repeat case_match; rewrite ?u32_u32 in Hc; done.
Qed.

(** [yatse_adjust_link] keeps the MAC's mode bits in step with the link:
    [link_cfg_ok] is preserved, a live link is remembered with its speed and
    duplex, only bits 3, 10 and 25 of [command_config] and no other register
    can change, and the carrier is reported exactly on changes. *)
Theorem yatse_adjust_link_spec priv phydev mac priv' mac' carrier :
  in_reset (mac_peek mac cc) = false → link_cfg_ok priv (mac_peek mac cc) →
  yatse_adjust_link priv phydev mac = (priv', mac', carrier) →
  link_cfg_ok priv' (mac_peek mac' cc) ∧ in_reset (mac_peek mac' cc) = false ∧
  link priv' = phy_link phydev ∧
  (phy_link phydev ≠ 0 → duplex priv' = phy_duplex phydev ∧ speed priv' = phy_speed phydev) ∧
  (∀ off, storage off → mac_peek mac' off = mac_peek mac off) ∧
  (∀ i, 0 ≤ i < 32 → i ≠ 3 → i ≠ 10 → i ≠ 25 →
     Z.testbit (mac_peek mac' cc) i = Z.testbit (mac_peek mac cc) i) ∧
  (carrier = Some true → phy_link phydev ≠ 0) ∧
  (carrier = Some false ↔ link priv ≠ 0 ∧ phy_link phydev = 0) ∧
  (link priv = 0 → phy_link phydev ≠ 0 → carrier = Some true).
Proof.
  intros Hr Hok. unfold yatse_adjust_link.
  destruct (truthy (phy_link phydev)) eqn:Hlink; unfold truthy in Hlink.
  - apply negb_true_iff, Z.eqb_neq in Hlink.
    destruct (_ || _) eqn:Hch.
    + destruct (adjust_duplex_spec mac (phy_duplex phydev) Hr) as (Hd & Hr1 & Hs1).
      destruct (adjust_speed_spec _ (phy_speed phydev) Hr1) as (Hsp & Hr2 & Hs2).
      intros [= <- <- <-]. rewrite Hsp, Hd in *. simpl.
      assert (is_u32 (duplex_word (phy_duplex phydev) (mac_peek mac cc))) as Hu by apply duplex_word_u32.
      split_and!; try done.
      * intros _. cbn [duplex speed]. rewrite !speed_word_bits, !duplex_word_bits by done.
        split_and!; [case_decide; done|..]; intros ->; done.
      * intros off Hoff. by rewrite Hs2, Hs1.
      * intros i Hi H3 H10 H25. rewrite speed_word_bits, duplex_word_bits by done.
        repeat case_decide; rewrite ?bool_decide_false by done; done.
      * split; [done|]. by intros [_ ?].
    + intros [= <- <- <-]. simpl. apply orb_false_iff in Hch as [[Hl Hd]%orb_false_iff Hs].
      apply negb_false_iff, Z.eqb_eq in Hl, Hd, Hs.
      split_and!; try done.
      * unfold link_cfg_ok in *. simpl. rewrite <-Hl. done.
      * split; [done|]. by intros [_ ?].
      * intros Hz. by rewrite Hl in Hz.
  - apply negb_false_iff, Z.eqb_eq in Hlink. intros [= <- <- <-]. rewrite Hlink. simpl.
    split_and!; try done.
    + by destruct (negb _).
    + destruct (Z.eqb_spec (link priv) 0); simpl; naive_solver.
Qed.
End link_theorems.

Definition phydev_100full : phy_device := {| phy_link := 1; phy_duplex := 1; phy_speed := 100 |}.
Lemma yatse_adjust_link_witness :
  ∃ priv' mac' carrier,
    yatse_adjust_link (D := sim_dev) eth0_priv phydev_100full sim_mac0 = (priv', mac', carrier) ∧
    link_cfg_ok priv' (mac_peek mac' cc).
Proof.
  destruct (yatse_adjust_link (D := sim_dev) eth0_priv phydev_100full sim_mac0)
    as [[priv' mac'] carrier] eqn:E. exists priv', mac', carrier. split; [done|].
  apply (yatse_adjust_link_spec (R := sim_mac_regs) eth0_priv phydev_100full sim_mac0 priv' mac' carrier);
    [reflexivity|by intros []|exact E].
Defined.

(** ** PHY detection *)

(** Reference: an MDIO address answers when the two halves of its identifier
    differ (an absent PHY reads all ones, or all zeros, in both). *)
Definition answers {D : MacDev} {R : MacRegs D} {B : MdioBus D R} (mac : mac_t) (a : Z) : Prop :=
  phy_reg mac a 2 ≠ phy_reg mac a 3.

Section mdio_theorems.
Context {D : MacDev} {R : MacRegs D} {B : MdioBus D R}.

Lemma yatse_mdio_read_spec mac a r mac' v :
  0 ≤ a < 32 → 0 ≤ r < 32 → yatse_mdio_read mac a r = (mac', v) →
  v = phy_reg mac a r ∧ ∀ a' r', phy_reg mac' a' r' = phy_reg mac a' r'.
Proof.
  intros Ha Hr. unfold yatse_mdio_read. rewrite (surjective_pairing (mac_read _ _)).
  intros [= <- <-]. split.
  - rewrite mac_read_value. unfold mdio_reg. rewrite mdio_window by done.
    unfold wr at 2. rewrite u32_small by lia.
    rewrite mac_write_storage by first [unfold is_u32; lia | by vm_compute].
    rewrite decide_True by done.
    unfold wr. rewrite mdio_select_keeps.
    change 65535 with (2 ^ 16 - 1). rewrite land_mask_mod by lia.
    apply Z.mod_small, phy_reg_u16.
  - intros a' r'. rewrite mdio_read_keeps. unfold wr. by rewrite mdio_select_keeps.
Qed.

Lemma get_phy_id_spec mac a mac' ret id :
  0 ≤ a < 32 → get_phy_id mac a = (mac', ret, id) →
  ret = 0 ∧ id = Some (phy_reg mac a 2 * 2 ^ 16 + phy_reg mac a 3) ∧
  ∀ a' r', phy_reg mac' a' r' = phy_reg mac a' r'.
Proof.
  intros Ha. unfold get_phy_id.
  destruct (yatse_mdio_read mac a 2) as [m1 v1] eqn:E1.
  apply yatse_mdio_read_spec in E1 as [-> Hk1]; [|lia..].
  pose proof (phy_reg_u16 mac a 2) as H2. pose proof (phy_reg_u16 mac a 3) as H3.
  rewrite (proj2 (Z.ltb_ge _ _)) by (unfold is_u16 in *; lia).
  destruct (yatse_mdio_read m1 a 3) as [m2 v2] eqn:E2.
  apply yatse_mdio_read_spec in E2 as [-> Hk2]; [|lia..]. rewrite Hk1.
  rewrite (proj2 (Z.ltb_ge _ _)) by (unfold is_u16 in *; lia).
  intros [= <- <- <-]. split_and!; [done| |by intros; rewrite Hk2, Hk1].
  change 65535 with (2 ^ 16 - 1). rewrite !land_mask_mod, !Z.mod_small by (done || lia).
  rewrite Z.shiftl_mul_pow2, u32_small by (unfold is_u16 in *; lia).
  rewrite Z.lor_comm, lor_add_field by (done || lia). f_equal. lia.
Qed.

Lemma phy_present_spec hi lo :
  is_u16 hi → is_u16 lo → phy_present (hi * 2 ^ 16 + lo) = negb (hi =? lo).
Proof.
  intros Hh Hl. unfold phy_present, is_u16 in *.
  change 65535 with (2 ^ 16 - 1). rewrite !land_mask_mod, Z.shiftr_div_pow2 by lia.
  do 2 f_equal; Z.div_mod_to_equations; lia.
Qed.

Lemma detect_loop_spec todo mac addr mac' addr' ret' :
  (todo ≤ 32)%nat → detect_loop todo mac addr 0 = (mac', addr', ret') →
  ret' = 0 ∧
  ((addr' = addr ∧ ∀ a, 0 ≤ a < Z.of_nat todo → ¬ answers mac a) ∨
   (0 ≤ addr' < Z.of_nat todo ∧ answers mac addr' ∧
    ∀ a, 0 ≤ a < addr' → ¬ answers mac a)).
Proof.
  revert mac addr. induction todo as [|i IH]; intros mac addr Ht; cbn [detect_loop].
  { intros [= <- <- <-]. split; [done|]. left. split; [done|lia]. }
  destruct (get_phy_id mac (Z.of_nat i)) as [[m1 r1] id1] eqn:E.
  apply get_phy_id_spec in E as (-> & -> & Hk); [|lia]. cbn [truthy Z.eqb negb].
  rewrite phy_present_spec by apply phy_reg_u16.
  assert (∀ a, answers m1 a ↔ answers mac a) as Hans by (intros; unfold answers; by rewrite !Hk).
  intros [-> Hl]%IH; [|lia]. split; [done|]. setoid_rewrite Hans in Hl.
  assert (answers mac (Z.of_nat i) ↔
    (phy_reg mac (Z.of_nat i) 2 =? phy_reg mac (Z.of_nat i) 3) = false) as Hi.
  { unfold answers. by rewrite Z.eqb_neq. }
  destruct Hl as [[-> Hno]|(Hr & Ha & Hno)].
  - destruct (_ =? _) eqn:Eq; simpl.
    + left. split; [done|]. intros a Ha. destruct (decide (a = Z.of_nat i)) as [->|].
      * by rewrite Hi.
      * apply Hno. lia.
    + right. split_and!; [lia..|by apply Hi|auto].
  - right. split_and!; [lia..|done|done].
Qed.

(** [yatse_detect_phys] scans addresses 31 to 0 and never fails on this
    bus; it leaves in [phy_addr] the lowest MDIO address that answers, or -1
    when none does. *)
Theorem yatse_detect_phys_lowest mac mac' addr ret :
  yatse_detect_phys mac = (mac', addr, ret) →
  ret = 0 ∧
  ((addr = -1 ∧ ∀ a, 0 ≤ a < 32 → ¬ answers mac a) ∨
   (0 ≤ addr < 32 ∧ answers mac addr ∧ ∀ a, 0 ≤ a < addr → ¬ answers mac a)).
Proof. unfold yatse_detect_phys. intros H. apply (detect_loop_spec 32) in H; [exact H|lia]. Qed.
End mdio_theorems.

(** A MAC with PHYs: the simulated registers, and an MDIO window that shows the
    PHY selected by [mdio_phy0_addr]. *)
Record bus_mac := { bus_regs : sim_mac; bus_phys : Z → Z → Z }.
Definition in_window (off : Z) : bool := (512 <=? off) && (off <? 640) && (off `mod` 4 =? 0).
Definition bus_peek (b : bus_mac) (off : Z) : Z :=
  if in_window off
  then u16 (bus_phys b (sim_peek (bus_regs b) (offsetof "mdio_phy0_addr")) ((off - 512) / 4))
  else sim_peek (bus_regs b) off.
#[export] Instance bus_dev : MacDev :=
  {| mac_t := bus_mac;
     mac_read b off :=
       ({| bus_regs := (sim_read (bus_regs b) off).1; bus_phys := bus_phys b |}, bus_peek b off);
     mac_write b off v := {| bus_regs := sim_write (bus_regs b) off v; bus_phys := bus_phys b |} |}.

Lemma bus_peek_storage b off : storage off → bus_peek b off = sim_peek (bus_regs b) off.
Proof.
  intros [[_ Hlt] _]. change (offsetof "mdio_phy0") with 512 in Hlt.
  unfold bus_peek, in_window. by rewrite (proj2 (Z.leb_gt 512 off)) by lia.
Qed.
Lemma bus_peek_cc b : bus_peek b cc = sim_peek (bus_regs b) cc.
Proof. done. Qed.

#[local] Obligation Tactic := idtac.
#[export] Program Instance bus_mac_regs : MacRegs bus_dev :=
  {| mac_peek := bus_peek; mac_reset_reads b := sim_pending (bus_regs b) |}.
Next Obligation.
  intros b off. unfold bus_peek. case_match.
  - pose proof (u16_range (bus_phys b (sim_peek (bus_regs b) (offsetof "mdio_phy0_addr")) ((off - 512) / 4))).
    unfold is_u32. lia.
  - apply (mac_peek_u32 (MacRegs := sim_mac_regs) (bus_regs b) off).
Qed.
Next Obligation. done. Qed.
Next Obligation.
  intros b off off' Hs. cbn [mac_read bus_dev]. rewrite bus_peek_storage by done. rewrite (bus_peek_storage b off') by done. cbn [bus_regs fst].
  by apply (mac_read_storage (MacRegs := sim_mac_regs) (bus_regs b) off off').
Qed.
Next Obligation.
  intros b off. cbn [mac_read bus_dev]. rewrite ?(bus_peek_cc b), bus_peek_cc.
  apply (mac_read_config (MacRegs := sim_mac_regs) (bus_regs b) off).
Qed.
Next Obligation.
  intros b off off' v Hs Hv. cbn [mac_write bus_dev]. rewrite bus_peek_storage by done. rewrite (bus_peek_storage b off') by done.
  by apply (mac_write_storage (MacRegs := sim_mac_regs) (bus_regs b) off off' v).
Qed.
Next Obligation.
  intros b off v Hv. cbn [mac_write bus_dev]. rewrite ?(bus_peek_cc b), bus_peek_cc.
  by apply (mac_write_config (MacRegs := sim_mac_regs) (bus_regs b) off v).
Qed.
Next Obligation.
  intros b. rewrite bus_peek_cc. apply (mac_reset_pending (MacRegs := sim_mac_regs) (bus_regs b)).
Qed.
Next Obligation. done. Qed.

#[export] Program Instance bus_mdio : MdioBus bus_dev bus_mac_regs :=
  {| phy_reg b a r := u16 (bus_phys b a r) |}.
Next Obligation. intros. apply u16_range. Qed.
Next Obligation.
  intros b r Hr. cbn [mac_peek bus_mac_regs]. change (offsetof "mdio_phy0") with 512.
  rewrite (bus_peek_storage b (offsetof "mdio_phy0_addr")) by (by vm_compute).
  unfold bus_peek, in_window. rewrite (proj2 (Z.leb_le _ _)), (proj2 (Z.ltb_lt _ _)) by lia.
  rewrite (proj2 (Z.eqb_eq _ _)) by (Z.div_mod_to_equations; lia). cbn [andb].
  do 2 f_equal. Z.div_mod_to_equations; lia.
Qed.
Next Obligation. done. Qed.
Next Obligation. done. Qed.

(** A bus with PHYs at addresses 16 and 18. *)
Definition bus0 : bus_mac :=
  {| bus_regs := sim_mac0;
     bus_phys := λ a r, if (a =? 16) || (a =? 18) then if r =? 2 then 0x141 else 0xcc2
                        else 0xffff |}.
Lemma yatse_detect_phys_witness :
  ∃ mac' addr ret, yatse_detect_phys (D := bus_dev) bus0 = (mac', addr, ret) ∧
    ret = 0 ∧
    ((addr = -1 ∧ ∀ a, 0 ≤ a < 32 → ¬ answers (B := bus_mdio) bus0 a) ∨
     (0 ≤ addr < 32 ∧ answers (B := bus_mdio) bus0 addr ∧
      ∀ a, 0 ≤ a < addr → ¬ answers (B := bus_mdio) bus0 a)).
Proof.
  destruct (yatse_detect_phys (D := bus_dev) bus0) as [[mac' addr] ret] eqn:E.
  exists mac', addr, ret. split; [done|].
  apply (yatse_detect_phys_lowest (B := bus_mdio) bus0 mac' addr ret). exact E.
Defined.
End YatseMac.
