(* ===== verification/YatseNet.v ===== *)
(** * YatseNet: what the yatse driver works on

    The driver's DMA state (yatse_dma.h), the kernel services its data path
    calls (socket buffers, streaming DMA mappings, the NAPI and queue state),
    and the buffer allocation of yatse_rx.c.

    Kernel memory is an explicit store of live socket buffers.  Whether an
    allocation succeeds, and at which addresses, is an input of the model: the
    list [pool] (and [kz] for arrays) gives the answers of the allocator in
    order, and an exhausted list means that every further request fails.
    [maps] is the multiset of streaming DMA mappings in force. *)

From stdpp Require Import gmultiset.
From S2P Require Import Prelude EthDma YatseMac.
Import EthDma YatseMac.

Module YatseNet.

(** ** Socket buffers (include/linux/skbuff.h, net/core/skbuff.c) *)
Record sk_buff := { sk_head : Z; sk_data : Z; sk_tail : Z; sk_end : Z; sk_len : Z }.
#[export] Instance sk_buff_eq_dec : EqDecision sk_buff.
Proof. solve_decision. Defined.

Definition SMP_CACHE_BYTES : Z := 64.
Definition NET_SKB_PAD : Z := Z.max 32 64.
Definition SKB_DATA_ALIGN (x : Z) : Z := u32 (x + (SMP_CACHE_BYTES - 1)) .& ~32 (SMP_CACHE_BYTES - 1).

Definition skb_reserve (sk : sk_buff) (len : Z) : sk_buff :=
  {| sk_head := sk_head sk; sk_data := u32 (sk_data sk + len); sk_tail := u32 (sk_tail sk + len);
     sk_end := sk_end sk; sk_len := sk_len sk |}.
(** A new buffer of [size] bytes whose data area the allocator put at [data]. *)
Definition alloc_skb_at (data size : Z) : sk_buff :=
  let size := SKB_DATA_ALIGN size in
  {| sk_head := data; sk_data := data; sk_tail := data; sk_end := u32 (data + size); sk_len := 0 |}.
(** [None] is skb_over_panic. *)
Definition skb_put (sk : sk_buff) (len : Z) : option sk_buff :=
  let tail := u32 (sk_tail sk + len) in
  if sk_end sk <? tail then None else
  Some {| sk_head := sk_head sk; sk_data := sk_data sk; sk_tail := tail; sk_end := sk_end sk;
          sk_len := u32 (sk_len sk + len) |}.
(** The effect of eth_type_trans on the buffer: the Ethernet header is pulled
    when it is there. *)
Definition skb_pull_inline (sk : sk_buff) (len : Z) : sk_buff :=
  if sk_len sk <? len then sk else
  {| sk_head := sk_head sk; sk_data := u32 (sk_data sk + len); sk_tail := sk_tail sk; sk_end := sk_end sk;
     sk_len := sk_len sk - len |}.

(** ** Streaming DMA (arch/mips/mm/dma-default.c, virt_to_phys of asm/io.h) *)
Inductive dma_dir := DMA_TO_DEVICE | DMA_FROM_DEVICE.
#[export] Instance dma_dir_eq_dec : EqDecision dma_dir.
Proof. solve_decision. Defined.
#[export] Instance dma_dir_countable : Countable dma_dir.
Proof.
  apply (inj_countable' (λ d, match d with DMA_TO_DEVICE => true | _ => false end)
           (λ b : bool, if b then DMA_TO_DEVICE else DMA_FROM_DEVICE)).
  by intros [].
Defined.
Definition PAGE_OFFSET : Z := 0x80000000.
Definition virt_to_phys (addr : Z) : Z := u32 (addr - PAGE_OFFSET).
Definition dma_mapping_error (phys : Z) : bool := false.

(** ** Kernel state seen by the driver *)
Record kern := {
  heap : gmap Z sk_buff;
  maps : gmultiset (Z * Z * dma_dir);
  pool : list (option (Z * Z));     (* answers to skb allocations: buffer, data *)
  kz : list bool;                   (* answers to array allocations *)
  queue_stopped : bool;
  napi_sched : bool;
  napi_disable_pending : bool;
  tasklet_scheduled : bool;
  delivered : list (Z * Z);         (* buffers given to the stack, and their lengths *)
  freed : list Z;
}.

Definition set_heap (k : kern) h : kern :=
  {| heap := h; maps := maps k; pool := pool k; kz := kz k; queue_stopped := queue_stopped k;
     napi_sched := napi_sched k; napi_disable_pending := napi_disable_pending k;
     tasklet_scheduled := tasklet_scheduled k; delivered := delivered k; freed := freed k |}.
Definition set_maps (k : kern) m : kern :=
  {| heap := heap k; maps := m; pool := pool k; kz := kz k; queue_stopped := queue_stopped k;
     napi_sched := napi_sched k; napi_disable_pending := napi_disable_pending k;
     tasklet_scheduled := tasklet_scheduled k; delivered := delivered k; freed := freed k |}.
Definition set_stopped (k : kern) b : kern :=
  {| heap := heap k; maps := maps k; pool := pool k; kz := kz k; queue_stopped := b;
     napi_sched := napi_sched k; napi_disable_pending := napi_disable_pending k;
     tasklet_scheduled := tasklet_scheduled k; delivered := delivered k; freed := freed k |}.
Definition set_napi (k : kern) sched dis : kern :=
  {| heap := heap k; maps := maps k; pool := pool k; kz := kz k; queue_stopped := queue_stopped k;
     napi_sched := sched; napi_disable_pending := dis;
     tasklet_scheduled := tasklet_scheduled k; delivered := delivered k; freed := freed k |}.
Definition set_tasklet (k : kern) b : kern :=
  {| heap := heap k; maps := maps k; pool := pool k; kz := kz k; queue_stopped := queue_stopped k;
     napi_sched := napi_sched k; napi_disable_pending := napi_disable_pending k;
     tasklet_scheduled := b; delivered := delivered k; freed := freed k |}.
Definition set_pool (k : kern) h p : kern :=
  {| heap := h; maps := maps k; pool := p; kz := kz k; queue_stopped := queue_stopped k;
     napi_sched := napi_sched k; napi_disable_pending := napi_disable_pending k;
     tasklet_scheduled := tasklet_scheduled k; delivered := delivered k; freed := freed k |}.
Definition set_kz (k : kern) z : kern :=
  {| heap := heap k; maps := maps k; pool := pool k; kz := z; queue_stopped := queue_stopped k;
     napi_sched := napi_sched k; napi_disable_pending := napi_disable_pending k;
     tasklet_scheduled := tasklet_scheduled k; delivered := delivered k; freed := freed k |}.

Definition netif_stop_queue (k : kern) : kern := set_stopped k true.
Definition netif_wake_queue (k : kern) : kern := set_stopped k false.

Definition dma_map_single (k : kern) (addr size : Z) (dir : dma_dir) : kern * Z :=
  (set_maps k ({[+ (virt_to_phys addr, size, dir) +]} ⊎ maps k), virt_to_phys addr).
(** Unmapping what is not mapped with that size leaves the list as it is. *)
Definition dma_unmap_single (k : kern) (phys size : Z) (dir : dma_dir) : kern :=
  set_maps k (maps k ∖ {[+ (phys, size, dir) +]}).
(** The last reference to a buffer is dropped; a pointer that is not a live
    buffer is a double free. *)
Definition dev_kfree_skb (k : kern) (skb : Z) : outcome kern :=
  _ ← deref (heap k !! skb);
  Ret {| heap := delete skb (heap k); maps := maps k; pool := pool k; kz := kz k;
         queue_stopped := queue_stopped k; napi_sched := napi_sched k;
         napi_disable_pending := napi_disable_pending k; tasklet_scheduled := tasklet_scheduled k;
         delivered := delivered k; freed := freed k ++ [skb] |}.
(** The stack takes the buffer over. *)
Definition netif_receive_skb (k : kern) (skb : Z) (sk : sk_buff) : kern :=
  {| heap := delete skb (heap k); maps := maps k; pool := pool k; kz := kz k;
     queue_stopped := queue_stopped k; napi_sched := napi_sched k;
     napi_disable_pending := napi_disable_pending k; tasklet_scheduled := tasklet_scheduled k;
     delivered := delivered k ++ [(sk_data sk, sk_len sk)]; freed := freed k |}.

(** __netdev_alloc_skb.  An answer that no allocator gives (NULL, a buffer
    that is live, memory outside the unmapped kernel segment) is a failure. *)
Definition usable (k : kern) (skb data size : Z) : bool :=
  bool_decide (skb ≠ 0) && bool_decide (heap k !! skb = None) &&
  (PAGE_OFFSET <=? data) && (data + SKB_DATA_ALIGN size <=? 0xa0000000).
Definition netdev_alloc_skb (k : kern) (length : Z) : kern * Z :=
  let size := u32 (length + NET_SKB_PAD) in
  match pool k with
  | Some (skb, data) :: p =>
      if usable k skb data size
      then (set_pool k (<[skb := skb_reserve (alloc_skb_at data size) NET_SKB_PAD]> (heap k)) p, skb)
      else (set_pool k (heap k) p, 0)
  | None :: p => (set_pool k (heap k) p, 0)
  | [] => (k, 0)
  end.
(** A zeroed array of [n] cells, or NULL. *)
Definition kzalloc (k : kern) (n : Z) : kern * option (list Z) :=
  match kz k with
  | true :: z => (set_kz k z, Some (replicate (Z.to_nat n) 0))
  | false :: z => (set_kz k z, None)
  | [] => (k, None)
  end.

(** NAPI state (include/linux/netdevice.h, net/core/dev.c). *)
Definition napi_schedule_prep (k : kern) : kern * bool :=
  if napi_disable_pending k then (k, false)
  else (set_napi k true (napi_disable_pending k), negb (napi_sched k)).
Definition __napi_complete (k : kern) : outcome kern :=
  _ ← BUG_ON (negb (napi_sched k)); Ret (set_napi k false (napi_disable_pending k)).

(** ** The driver (struct yatse_dma, struct yatse_private) *)
Record rx_side := {
  rx_skbs : option (list Z);        (* None is a NULL array; 0 is a NULL buffer *)
  rx_skb_phys : option (list Z);
  rx_buf_len : Z;
  rx_align : Z;
  rx_ring_length : Z;
  rx_ring_mask : Z;
  rx_pos : Z;
}.
Record tx_side := {
  tx_skbs : option (list Z);
  tx_skb_phys : option (list Z);
  tx_ring_length : Z;
  tx_ring_mask : Z;
  tx_insert : Z;
  tx_remove : Z;
  tx_queued : Z;
}.
Record world := {
  w_config : yatse_config;
  w_mtu : Z;
  w_rx : rx_side;
  w_tx : tx_side;
  w_rxc : chan;
  w_txc : chan;
  w_k : kern;
}.
Definition set_k (w : world) k : world :=
  {| w_config := w_config w; w_mtu := w_mtu w; w_rx := w_rx w; w_tx := w_tx w; w_rxc := w_rxc w;
     w_txc := w_txc w; w_k := k |}.
Definition set_txc (w : world) c : world :=
  {| w_config := w_config w; w_mtu := w_mtu w; w_rx := w_rx w; w_tx := w_tx w; w_rxc := w_rxc w;
     w_txc := c; w_k := w_k w |}.
Definition set_rxc (w : world) c : world :=
  {| w_config := w_config w; w_mtu := w_mtu w; w_rx := w_rx w; w_tx := w_tx w; w_rxc := c;
     w_txc := w_txc w; w_k := w_k w |}.
Definition set_tx (w : world) t : world :=
  {| w_config := w_config w; w_mtu := w_mtu w; w_rx := w_rx w; w_tx := t; w_rxc := w_rxc w;
     w_txc := w_txc w; w_k := w_k w |}.
Definition set_rx (w : world) r : world :=
  {| w_config := w_config w; w_mtu := w_mtu w; w_rx := r; w_tx := w_tx w; w_rxc := w_rxc w;
     w_txc := w_txc w; w_k := w_k w |}.

Definition YATSE_DESC_STATUS_HW : Z := YATSE_BIT 0.
Definition YATSE_CSR_RXRST : Z := YATSE_BIT 0.
Definition YATSE_CSR_ENA : Z := YATSE_BIT 1.
Definition YATSE_CSR_IE : Z := YATSE_BIT 2.
Definition YATSE_CSR_IS : Z := YATSE_BIT 3.
Definition YATSE_RING_NEXT (cur mask : Z) : Z := s32 (cur + 1) .& mask.

(** Reading and writing control registers and descriptors. *)
Definition readl_rcontrol (w : world) : world * Z :=
  let '(c, v) := ctl_read (w_rxc w) in (set_rxc w c, v).
Definition readl_tcontrol (w : world) : world * Z :=
  let '(c, v) := ctl_read (w_txc w) in (set_txc w c, v).
Definition desc_at (c : chan) (i : Z) : outcome desc := deref (aget (r_desc c) i).
Definition desc_put (c : chan) (i : Z) (d : desc) : outcome chan :=
  ds ← deref (aset (r_desc c) i d); Ret (set_desc c ds).
Definition busy (d : desc) : bool := truthy (d_status d .& YATSE_DESC_STATUS_HW).

(** yatse_rx_alloc_skb: NULL is 0. *)
Definition rx_align_offset (r : rx_side) (tail : Z) : Z :=
  if rx_align r =? 0 then 0 else
  let offset := u32 (tail + u32 (u32 (rx_align r) - 1)) in
  let offset := offset .& ~32 (u32 (u32 (rx_align r) - 1)) in
  u32 (offset - tail).
Definition yatse_rx_alloc_skb (w : world) : outcome (world * Z) :=
  let '(k, skb) := netdev_alloc_skb (w_k w) (rx_buf_len (w_rx w)) in
  if skb =? 0 then Ret (set_k w k, 0) else
  sk ← deref (heap k !! skb);
  let offset := rx_align_offset (w_rx w) (sk_tail sk) in
  Ret (set_k w (set_heap k (<[skb := skb_reserve sk (u32 (NET_IP_ALIGN + offset))]> (heap k))), skb).

(** ** Receive buffers *)
Lemma SKB_DATA_ALIGN_spec x :
  0 ≤ x < 2 ^ 31 → x ≤ SKB_DATA_ALIGN x < x + 64 ∧ SKB_DATA_ALIGN x `mod` 64 = 0.
Proof.
  intros Hx. unfold SKB_DATA_ALIGN, SMP_CACHE_BYTES. rewrite (align_down _ 6) by (apply u32_range || lia).
  rewrite u32_small by lia. change (2 ^ 6) with 64. Z.div_mod_to_equations. lia.
Qed.

(** A buffer ready to be filled by the device: empty, with room for a frame
    after the two bytes of padding, in the unmapped kernel segment. *)
Record rx_ready (mtu : Z) (sk : sk_buff) : Prop := {
  rr_empty : sk_len sk = 0;
  rr_tail : sk_tail sk = sk_data sk;
  rr_room : sk_data sk + ETH_HLEN + mtu ≤ sk_end sk;
  rr_low : PAGE_OFFSET + NET_IP_ALIGN ≤ sk_data sk;
  rr_high : sk_end sk ≤ 0xa0000000;
}.

Lemma rx_align_offset_zero r tail : rx_align r = 0 → rx_align_offset r tail = 0.
Proof. intros H. unfold rx_align_offset. by rewrite H. Qed.
Lemma rx_align_offset_pow2 r tail a :
  0 ≤ a ≤ 12 → rx_align r = 2 ^ a → 0 ≤ tail < 2 ^ 32 - 2 ^ 12 →
  0 ≤ rx_align_offset r tail < 2 ^ a ∧ (tail + rx_align_offset r tail) `mod` 2 ^ a = 0.
Proof.
  intros Ha Hr Ht. assert (0 < 2 ^ a ≤ 2 ^ 12) by (split; [lia|apply Z.pow_le_mono_r; lia]).
  unfold rx_align_offset. rewrite (proj2 (Z.eqb_neq _ _)) by lia. rewrite Hr.
  rewrite (u32_small (2 ^ a)), (u32_small (2 ^ a - 1)), (u32_small (tail + _)) by lia.
  rewrite align_down by (unfold is_u32; lia). remember (2 ^ a) as n eqn:En.
  pose proof (Z.mul_div_le (tail + (n - 1)) n ltac:(lia)).
  pose proof (Z.mul_succ_div_gt (tail + (n - 1)) n ltac:(lia)).
  rewrite u32_small by lia. split; [lia|].
  replace (tail + (n * ((tail + (n - 1)) / n) - tail)) with ((tail + (n - 1)) / n * n) by lia.
  apply Z_mod_mult.
Qed.

Definition align_ok (r : rx_side) : Prop :=
  rx_align r = 0 ∨ ∃ a, 0 ≤ a ≤ 12 ∧ rx_align r = 2 ^ a.
Record rx_sizes (r : rx_side) (mtu : Z) : Prop := {
  rs_mtu : 0 ≤ mtu ≤ 2 ^ 15;
  rs_align : align_ok r;
  rs_len : rx_buf_len r = rx_align r + NET_IP_ALIGN + ETH_HLEN + mtu;
}.

Lemma rx_alloc_skb_cases w :
  rx_sizes (w_rx w) (w_mtu w) →
  ∃ h skb, yatse_rx_alloc_skb w = Ret (set_k w (set_pool (w_k w) h (tail (pool (w_k w)))), skb) ∧
    ((skb = 0 ∧ h = heap (w_k w)) ∨
     (skb ≠ 0 ∧ heap (w_k w) !! skb = None ∧
      ∃ sk, h = <[skb := sk]> (heap (w_k w)) ∧ rx_ready (w_mtu w) sk ∧
        (rx_align (w_rx w) ≠ 0 → (sk_data sk - NET_IP_ALIGN) `mod` rx_align (w_rx w) = 0))) ∧
    (∀ s data, head (pool (w_k w)) = Some (Some (s, data)) →
       usable (w_k w) s data (u32 (rx_buf_len (w_rx w) + NET_SKB_PAD)) = true → skb = s).
Proof.
  intros [Hmtu Hal Hlen]. unfold yatse_rx_alloc_skb, netdev_alloc_skb.
  destruct (pool (w_k w)) as [|[[skb data]|] p] eqn:Ep.
  { exists (heap (w_k w)), 0. split_and!; [|by left|done]. simpl. by destruct w as [?????? []]; simpl in *; subst. }
  2: { exists (heap (w_k w)), 0. split_and!; [done|by left|done]. }
  destruct (usable _ _ _ _) eqn:Eu.
  2: { exists (heap (w_k w)), 0. split_and!; [done|by left|]. simpl. intros s dt [= <- <-]. congruence. }
  unfold usable in Eu. rewrite !andb_true_iff, !bool_decide_eq_true, !Z.leb_le in Eu.
  destruct Eu as [[[H0 Hnone] Hlo] Hhi]. rewrite (proj2 (Z.eqb_neq _ _)) by done. cbn.
  assert (0 ≤ rx_align (w_rx w) ≤ 2 ^ 12) as Ha.
  { destruct Hal as [->|(a & ? & ->)]; [lia|]. split; [lia|apply Z.pow_le_mono_r; lia]. }
  unfold NET_IP_ALIGN, ETH_HLEN, PAGE_OFFSET in *. change NET_SKB_PAD with 64 in *.
  rewrite u32_small in * by lia. destruct (SKB_DATA_ALIGN_spec (rx_buf_len (w_rx w) + 64)) as [Hs _]; [lia|].
  rewrite lookup_insert_eq. cbn. rewrite insert_insert_eq. eexists _, skb. split; [reflexivity|].
  split; [right|by simpl; intros s dt [= <- <-]]. split_and!; [done..|]. eexists. split; [reflexivity|].
  set (off := rx_align_offset _ _).
  assert (0 ≤ off ∧ off ≤ rx_align (w_rx w) ∧
    (rx_align (w_rx w) ≠ 0 → off < rx_align (w_rx w) ∧ (data + 64 + off) `mod` rx_align (w_rx w) = 0)) as (Ho1 & Ho2 & Ho3).
  { subst off. rewrite u32_small by lia. destruct Hal as [Hz|(a & ? & Hpa)].
    - rewrite rx_align_offset_zero by done. lia.
    - destruct (rx_align_offset_pow2 (w_rx w) (data + 64) a) as [? ?]; [done|done|lia|]. rewrite Hpa. lia. }
  clearbody off. unfold skb_reserve, alloc_skb_at. cbn [sk_head sk_data sk_tail sk_end sk_len].
  rewrite (u32_small (2 + off)), !(u32_small (data + 64)), !(u32_small (data + 64 + (2 + off))) by lia.
  rewrite (u32_small (data + SKB_DATA_ALIGN _)) by lia.
  split; [constructor; cbn; unfold ETH_HLEN, PAGE_OFFSET, NET_IP_ALIGN; lia|].
  cbn. intros Hne. destruct (Ho3 Hne) as [_ <-]. f_equal. lia.
Qed.

Lemma busy_hw d : busy d = hw d.
Proof. apply (land_bit (d_status d) 0). lia. Qed.
Lemma ring_next_mod cur b :
  0 ≤ b < 31 → 0 ≤ cur < 2 ^ b → YATSE_RING_NEXT cur (2 ^ b - 1) = (cur + 1) `mod` 2 ^ b.
Proof.
  intros Hb Hc. assert (2 ^ b ≤ 2 ^ 30) by (apply Z.pow_le_mono_r; lia).
  unfold YATSE_RING_NEXT. rewrite s32_small by lia. apply land_mask_mod. lia.
Qed.
Lemma desc_at_Ret c i d : aget (r_desc c) i = Some d → desc_at c i = Ret d.
Proof. unfold desc_at. by intros ->. Qed.
Lemma desc_put_Ret c i d :
  0 ≤ i < alen (r_desc c) → desc_put c i d = Ret (set_desc c (<[Z.to_nat i := d]> (r_desc c))).
Proof. intros. unfold desc_put. by rewrite aset_Some. Qed.

#[global] Arguments YATSE_RING_NEXT : simpl never.
#[global] Arguments virt_to_phys : simpl never.
#[global] Arguments busy : simpl never.
End YatseNet.
