(* ===== verification/YatseTx.v ===== *)
(** * YatseTx: the transmit path (drivers/net/yatse/yatse_tx.c)

    [yatse_start_xmit], the interrupt handler and the completion tasklet over
    the device of [EthDma].  The tasklet drops the lock around each buffer it
    frees; what the device and other CPUs do in these windows is a schedule of
    events, one list for each window. *)

From stdpp Require Import gmultiset.
From S2P Require Import Prelude EthDma YatseMac YatseNet.
Import EthDma YatseMac YatseNet.

Module YatseTx.

Definition NETDEV_TX_OK : Z := 0x00.
Definition NETDEV_TX_BUSY : Z := 0x10.

Definition yatse_tx_sync_skb (w : world) (skb : Z) : outcome (world * Z) :=
  sk ← deref (heap (w_k w) !! skb);
  let '(k, phys) := dma_map_single (w_k w) (sk_data sk) (sk_len sk) DMA_TO_DEVICE in
  _ ← BUG_ON (dma_mapping_error phys);
  Ret (set_k w k, phys).

Definition tx_enqueue (t : tx_side) (skb phys : Z) : outcome tx_side :=
  skbs ← deref (tx_skbs t); physs ← deref (tx_skb_phys t);
  skbs ← deref (aset skbs (tx_insert t) skb);
  physs ← deref (aset physs (tx_insert t) phys);
  Ret {| tx_skbs := Some skbs; tx_skb_phys := Some physs; tx_ring_length := tx_ring_length t;
         tx_ring_mask := tx_ring_mask t;
         tx_insert := YATSE_RING_NEXT (tx_insert t) (tx_ring_mask t);
         tx_remove := tx_remove t; tx_queued := s32 (tx_queued t + 1) |}.

Definition yatse_start_xmit (w : world) (skb : Z) : outcome (world * Z) :=
  '(w, phys) ← yatse_tx_sync_skb w skb;
  let t := w_tx w in
  _ ← BUG_ON (tx_queued t <? 0);
  _ ← BUG_ON (tx_ring_length t <? tx_queued t);
  d ← desc_at (w_txc w) (tx_insert t);
  if busy d then Ret (set_k w (netif_stop_queue (w_k w)), NETDEV_TX_BUSY) else
  if tx_queued t =? tx_ring_length t
  then Ret (set_k w (netif_stop_queue (w_k w)), NETDEV_TX_BUSY) else
  sk ← deref (heap (w_k w) !! skb);
  t' ← tx_enqueue t skb phys;
  c ← desc_put (w_txc w) (tx_insert t)
        {| d_addr := phys; d_len := u16 (sk_len sk); d_error := d_error d;
           d_status := YATSE_DESC_STATUS_HW |};
  let w := set_txc (set_tx w t') c in
  Ret (if tx_queued t' =? tx_ring_length t' then set_k w (netif_stop_queue (w_k w)) else w,
       NETDEV_TX_OK).

Definition yatse_tx_isr (w : world) : world * bool :=
  let '(w, v) := readl_tcontrol w in
  let got_irq := truthy (v .& YATSE_CSR_IS) in
  if got_irq then
    let '(w, v) := readl_tcontrol w in
    let w := set_txc w (ctl_write (w_txc w) (v .& ~32 YATSE_CSR_IE)) in
    (set_k w (set_tasklet (w_k w) true), true)
  else (w, false).

(** yatse_tx_timeout: two registers are read for a message, then the tasklet runs. *)
Definition yatse_tx_timeout (w : world) : world :=
  let '(w, _) := readl_rcontrol w in
  let '(w, _) := readl_tcontrol w in
  set_k w (set_tasklet (w_k w) true).

(** The buffers in the ring, oldest first: what the network stack has handed
    over and not got back. *)
Definition tx_slot (t : tx_side) (k : nat) : option (Z * Z) :=
  skbs ← tx_skbs t; physs ← tx_skb_phys t;
  let i := (tx_remove t + Z.of_nat k) .& tx_ring_mask t in
  skb ← aget skbs i; phys ← aget physs i; Some (skb, phys).
Definition tx_pending (t : tx_side) : list (Z * Z) :=
  omap (tx_slot t) (seq 0 (Z.to_nat (tx_queued t))).
Definition rx_owned (r : rx_side) : list Z := default [] (rx_skbs r).

(** What can happen while the lock is free: the device finishes a buffer, its
    interrupt is taken, or the stack sends a buffer on another CPU.  The stack
    only sends a live buffer that the driver does not hold, short enough for
    the length field. *)
Inductive tx_event := TxDone | TxIrq | TxXmit (skb : Z).
Definition sendable (w : world) (skb : Z) : Prop :=
  match heap (w_k w) !! skb with
  | Some sk => 0 < sk_len sk < 2 ^ 16 - 8 ∧ (skb ∉ (tx_pending (w_tx w)).*1) ∧ (skb ∉ rx_owned (w_rx w))
  | None => False
  end.
#[export] Instance sendable_dec w skb : Decision (sendable w skb).
Proof. unfold sendable. destruct (heap (w_k w) !! skb); apply _. Defined.

Definition tx_exec (w : world) (e : tx_event) : outcome world :=
  match e with
  | TxDone => Ret (set_txc w (dev_tx (w_txc w)))
  | TxIrq => Ret (yatse_tx_isr w).1
  | TxXmit skb => if decide (sendable w skb) then '(w, _) ← yatse_start_xmit w skb; Ret w else Ret w
  end.
Definition tx_execs (w : world) (es : list tx_event) : outcome world :=
  foldl (λ o e, w ← o; tx_exec w e) (Ret w) es.

(** One round of the loop of yatse_tx_complete. *)
Definition tx_reap (w : world) : outcome world :=
  let t := w_tx w in
  let w := set_txc w (ack (w_txc w)) in
  skb ← deref (tx_skbs t ≫= λ l, aget l (tx_remove t));
  phys ← deref (tx_skb_phys t ≫= λ l, aget l (tx_remove t));
  let w := set_tx w {| tx_skbs := tx_skbs t; tx_skb_phys := tx_skb_phys t;
                       tx_ring_length := tx_ring_length t; tx_ring_mask := tx_ring_mask t;
                       tx_insert := tx_insert t;
                       tx_remove := YATSE_RING_NEXT (tx_remove t) (tx_ring_mask t);
                       tx_queued := s32 (tx_queued t - 1) |} in
  sk ← deref (heap (w_k w) !! skb);
  k ← dev_kfree_skb (dma_unmap_single (w_k w) phys (sk_len sk) DMA_TO_DEVICE) skb;
  Ret (set_k w k).
Definition tx_finish (w : world) : world :=
  let '(w, v) := readl_tcontrol w in
  let w := set_txc w (ctl_write (w_txc w) (v .| YATSE_CSR_IE)) in
  set_k w (netif_wake_queue (w_k w)).
#[global] Arguments tx_finish : simpl never.
Definition tx_complete_step (st : world * list (list tx_event)) :
    (world * list (list tx_event)) + outcome world :=
  let '(w, windows) := st in
  if negb (0 <? tx_queued (w_tx w)) then inr (Ret (tx_finish w)) else
  match desc_at (w_txc w) (tx_remove (w_tx w)) with
  | Ret d =>
      if busy d then inr (Ret (tx_finish w)) else
      match tx_reap w ≫= λ w, tx_execs w (default [] (head windows)) with
      | Ret w => inl (w, tail windows)
      | Bug => inr Bug
      | Oops => inr Oops
      end
  | Bug => inr Bug
  | Oops => inr Oops
  end.
(** The loop body; [fuel] bounds the rounds. *)
Definition yatse_tx_complete (fuel : nat) (w : world) (windows : list (list tx_event)) :
    option (outcome world) :=
  if tx_queued (w_tx w) <? 0 then Some Bug else
  loop fuel tx_complete_step (w, windows).

(** ** The ring invariant

    The ring of [2 ^ b] slots holds the buffers of the queue [q], oldest at
    [tx_remove]; the device has finished the first [done] of them, counts
    exactly these in its completion counter, and owns exactly the others. *)
Record tx_ring (b : Z) (t : tx_side) (c : chan) (q : list (Z * Z)) (done : nat) (l lp : list Z) : Prop := {
  tr_b : 0 ≤ b < 30;
  tr_n : tx_ring_length t = 2 ^ b;
  tr_mask : tx_ring_mask t = 2 ^ b - 1;
  tr_skbs : tx_skbs t = Some l;
  tr_phys : tx_skb_phys t = Some lp;
  tr_l : alen l = 2 ^ b;
  tr_lp : alen lp = 2 ^ b;
  tr_d : alen (r_desc c) = 2 ^ b;
  tr_remove : 0 ≤ tx_remove t < 2 ^ b;
  tr_queued : tx_queued t = alen q;
  tr_le : alen q ≤ 2 ^ b;
  tr_insert : tx_insert t = (tx_remove t + alen q) `mod` 2 ^ b;
  tr_slot (k : nat) s p : q !! k = Some (s, p) →
    aget l ((tx_remove t + Z.of_nat k) `mod` 2 ^ b) = Some s ∧
    aget lp ((tx_remove t + Z.of_nat k) `mod` 2 ^ b) = Some p;
  tr_done : (done ≤ length q)%nat;
  tr_cur : r_cur c = (tx_remove t + Z.of_nat done) `mod` 2 ^ b;
  tr_irq : r_irq c = Z.of_nat done;
  tr_hw (k : nat) : Z.of_nat k < 2 ^ b →
    ∃ d, aget (r_desc c) ((tx_remove t + Z.of_nat k) `mod` 2 ^ b) = Some d ∧
         hw d = bool_decide (done ≤ k < length q)%nat;
  tr_addr (k : nat) s p : q !! k = Some (s, p) → (done ≤ k)%nat →
    ∃ d, aget (r_desc c) ((tx_remove t + Z.of_nat k) `mod` 2 ^ b) = Some d ∧ d_addr d = p;
  tr_chan : chan_ok c;
}.

(** The buffers in the queue are live, distinct, not in the receive ring, and
    mapped for the device; [M] are the other mappings. *)
Definition tx_map (h : gmap Z sk_buff) (sp : Z * Z) : Z * Z * dma_dir :=
  (sp.2, default 0 (sk_len <$> h !! sp.1), DMA_TO_DEVICE).
Definition tx_live (h : gmap Z sk_buff) (sp : Z * Z) : Prop :=
  ∃ sk, h !! sp.1 = Some sk ∧ sp.2 = virt_to_phys (sk_data sk) ∧ 0 < sk_len sk < 2 ^ 16 - 8.
Record tx_inv (b : Z) (w : world) (q : list (Z * Z)) (done : nat) (M : gmultiset (Z * Z * dma_dir)) : Prop := {
  tv_ring : ∃ l lp, tx_ring b (w_tx w) (w_txc w) q done l lp;
  tv_nodup : NoDup q.*1;
  tv_rx s : s ∈ q.*1 → s ∉ rx_owned (w_rx w);
  tv_live sp : sp ∈ q → tx_live (heap (w_k w)) sp;
  tv_maps : maps (w_k w) = list_to_set_disj (tx_map (heap (w_k w)) <$> q) ⊎ M;
}.

Arguments tr_b {b t c q done l lp} _.
Arguments tr_n {b t c q done l lp} _.
Arguments tr_mask {b t c q done l lp} _.
Arguments tr_skbs {b t c q done l lp} _.
Arguments tr_phys {b t c q done l lp} _.
Arguments tr_l {b t c q done l lp} _.
Arguments tr_lp {b t c q done l lp} _.
Arguments tr_d {b t c q done l lp} _.
Arguments tr_remove {b t c q done l lp} _.
Arguments tr_queued {b t c q done l lp} _.
Arguments tr_le {b t c q done l lp} _.
Arguments tr_insert {b t c q done l lp} _.
Arguments tr_slot {b t c q done l lp} _ k s p _.
Arguments tr_done {b t c q done l lp} _.
Arguments tr_cur {b t c q done l lp} _.
Arguments tr_irq {b t c q done l lp} _.
Arguments tr_hw {b t c q done l lp} _ k _.
Arguments tr_addr {b t c q done l lp} _ k s p _ _.
Arguments tr_chan {b t c q done l lp} _.
Arguments tv_ring {b w q done M} _.
Arguments tv_nodup {b w q done M} _.
Arguments tv_rx {b w q done M} _ s _.
Arguments tv_live {b w q done M} _ sp _.
Arguments tv_maps {b w q done M} _.

(** The addresses the device has sent or will send, in order. *)
Definition tx_order (w : world) (q : list (Z * Z)) (done : nat) : list Z :=
  (d_addr <$> r_log (w_txc w)) ++ (drop done q).*2.

Section ring.
Context (b : Z).
Implicit Types (t : tx_side) (c : chan) (q : list (Z * Z)) (done : nat).

Lemma tr_pow t c q done l lp : tx_ring b t c q done l lp → 0 < 2 ^ b ≤ 2 ^ 29.
Proof.
  intros H. pose proof (tr_b H). split; [lia|]. apply Z.pow_le_mono_r; lia.
Qed.

Arguments tr_pow {t c q done l lp} _.
Lemma tx_pending_spec t c q done l lp : tx_ring b t c q done l lp → tx_pending t = q.
Proof.
  intros H. pose proof (tr_pow H) as Hp. unfold tx_pending. rewrite (tr_queued H).
  unfold alen. rewrite Nat2Z.id. apply list_eq. intros k.
  assert (∀ k, (k < length q)%nat → tx_slot t k = q !! k) as Hs.
  { intros j Hj. destruct (lookup_lt_is_Some_2 q j Hj) as [[s p] Hq]. rewrite Hq.
    destruct (tr_slot H j s p Hq) as [H1 H2]. unfold tx_slot.
    rewrite (tr_skbs H), (tr_phys H), (tr_mask H).
    simpl. rewrite land_mask_mod by apply H. by rewrite H1, H2. }
  assert (omap (tx_slot t) (seq 0 (length q)) = q) as ->; [|done].
  clear -Hs. revert Hs. generalize (tx_slot t). intros f Hs.
  assert (∀ m n, (m + n = length q)%nat → omap f (seq m n) = drop m q) as Hg.
  { intros m n. revert m. induction n as [|n IH]; intros m Hm; simpl.
    - by rewrite drop_ge by lia.
    - rewrite Hs by lia. destruct (lookup_lt_is_Some_2 q m ltac:(lia)) as [x Hx]. rewrite Hx, IH by lia.
      symmetry. by apply drop_S. }
  by rewrite (Hg 0%nat) by lia.
Qed.

(** A new buffer goes into the slot at [tx_insert]. *)
Lemma tx_ring_push t c q done l lp skb phys d :
  tx_ring b t c q done l lp → alen q < 2 ^ b → hw d = true → d_addr d = phys →
  ∃ t' l' lp', tx_enqueue t skb phys = Ret t' ∧ tx_ring_length t' = tx_ring_length t ∧
    tx_ring b t' (set_desc c (<[Z.to_nat (tx_insert t) := d]> (r_desc c))) (q ++ [(skb, phys)]) done l' lp'.
Proof.
  intros H Hq Hd Ha. pose proof (tr_pow H) as Hp. pose proof (tr_insert H) as Hi.
  assert (0 ≤ tx_insert t < 2 ^ b) as Hir by (rewrite Hi; apply ring_range; lia).
  pose proof (alen_nonneg q). set (i := tx_insert t) in *.
  assert (∀ k : nat, (k < length q)%nat → i ≠ (tx_remove t + Z.of_nat k) `mod` 2 ^ b) as Hne.
  { intros k Hk E. rewrite Hi in E. apply ring_inj in E; unfold alen in *; lia. }
  destruct (aset l i skb) as [l'|] eqn:El; [|by rewrite aset_Some in El by (rewrite (tr_l H); lia)].
  destruct (aset lp i phys) as [lp'|] eqn:Elp; [|by rewrite aset_Some in Elp by (rewrite (tr_lp H); lia)].
  assert (aset (r_desc c) i d = Some (<[Z.to_nat i := d]> (r_desc c))) as Ed
    by (apply aset_Some; rewrite (tr_d H); lia).
  eexists _, l', lp'. unfold tx_enqueue. fold i. rewrite (tr_skbs H), (tr_phys H). simpl.
  rewrite El, Elp. simpl. split_and!; [done..|].
  constructor; simpl; rewrite ?alen_app, ?(tr_mask H); try reflexivity; try by apply H.
  - rewrite (aset_alen _ _ _ _ El). apply H.
  - rewrite (aset_alen _ _ _ _ Elp). apply H.
  - rewrite (aset_alen _ _ _ _ Ed). apply H.
  - rewrite (tr_queued H). apply s32_small. unfold alen in *. simpl. lia.
  - unfold alen in *. simpl. lia.
  - rewrite ring_next_mod by (try apply H; lia || pose proof (tr_b H); lia). fold i. rewrite Hi, ring_add.
    unfold alen. simpl. f_equal; lia.
  - intros k s p Hk. destruct (decide (k < length q)%nat) as [Hlt|].
    + rewrite lookup_app_l in Hk by done.
      rewrite (aget_aset_ne _ _ _ _ _ El), (aget_aset_ne _ _ _ _ _ Elp) by by apply Hne. by apply (tr_slot H).
    + rewrite lookup_app_r in Hk by lia. apply list_lookup_singleton_Some in Hk as [Hk [= <- <-]].
      assert (k = length q) as -> by lia. fold (alen q). rewrite <-Hi.
      by rewrite (aget_aset_eq _ _ _ _ El), (aget_aset_eq _ _ _ _ Elp).
  - rewrite length_app. pose proof (tr_done H). lia.
  - intros k Hk. rewrite length_app. simpl. destruct (decide (k = length q)) as [->|].
    + fold (alen q). rewrite <-Hi, (aget_aset_eq _ _ _ _ Ed). exists d. split; [done|].
      rewrite Hd. symmetry. apply bool_decide_true. pose proof (tr_done H). lia.
    + rewrite (aget_aset_ne _ _ _ _ _ Ed).
      * destruct (tr_hw H k Hk) as (d' & ? & Hh). exists d'. split; [done|]. rewrite Hh. apply bool_decide_ext. lia.
      * rewrite Hi. intros E. apply ring_inj in E; unfold alen in *; lia.
  - intros k s p Hk Hdone. destruct (decide (k < length q)%nat) as [Hlt|].
    + rewrite lookup_app_l in Hk by done. rewrite (aget_aset_ne _ _ _ _ _ Ed) by by apply Hne.
      by apply (tr_addr H k s p).
    + rewrite lookup_app_r in Hk by lia. apply list_lookup_singleton_Some in Hk as [Hk [= <- <-]].
      assert (k = length q) as -> by lia. fold (alen q). rewrite <-Hi, (aget_aset_eq _ _ _ _ Ed). eauto.
  - destruct (tr_chan H). by constructor.
Qed.

(** The device finishes the next buffer it owns, if there is one. *)
Lemma tx_ring_idle t c q done l lp :
  tx_ring b t c q done l lp → done = length q → dev_tx c = c.
Proof.
  intros H Hd. pose proof (tr_pow H). pose proof (tr_le H). unfold dev_tx. rewrite (tr_cur H).
  assert (∃ k : nat, Z.of_nat k < 2 ^ b ∧ (¬ (done ≤ k < length q))%nat ∧
    (tx_remove t + Z.of_nat done) `mod` 2 ^ b = (tx_remove t + Z.of_nat k) `mod` 2 ^ b) as (k & Hk & Hn & ->).
  { unfold alen in *. destruct (decide (Z.of_nat done < 2 ^ b)); [exists done; split_and!; [done|lia|done]|].
    exists 0%nat. split_and!; [lia..|]. replace (Z.of_nat done) with (2 ^ b) by lia.
    rewrite ring_wrap. f_equal. lia. }
  destruct (tr_hw H k Hk) as (d & -> & ->). rewrite bool_decide_false by done. by rewrite andb_false_r.
Qed.
Lemma tx_ring_step t c q done l lp :
  tx_ring b t c q done l lp → (done < length q)%nat →
  ∃ d s, q !! done = Some (s, d_addr d) ∧ r_log (dev_tx c) = r_log c ++ [d] ∧
    r_ctl (dev_tx c) = r_ctl c ∧ tx_ring b t (dev_tx c) q (S done) l lp.
Proof.
  intros H Hd. pose proof (tr_pow H) as Hp. pose proof (tr_le H) as Hle. unfold alen in Hle.
  destruct (tr_hw H done ltac:(lia)) as (d & Eg & Eh). rewrite bool_decide_true in Eh by lia.
  destruct (lookup_lt_is_Some_2 q done Hd) as [[s p] Hq].
  destruct (tr_addr H done s p Hq ltac:(lia)) as (d1 & Eg1 & Ea). rewrite Eg in Eg1. injection Eg1 as <-. subst p.
  destruct (tx_run_total d) as (d' & rs & Er & Hd').
  assert (dev_tx c = finish c d d') as ->.
  { unfold dev_tx. rewrite (tr_cur H), Eg, Eh, (enabled_ok _ (tr_chan H)). simpl. by rewrite Er. }
  exists d, s. split_and!; [done..|].
  assert (aset (r_desc c) (r_cur c) d' = Some (<[Z.to_nat (r_cur c) := d']> (r_desc c))) as Es.
  { apply aset_Some. rewrite (tr_d H), (tr_cur H). apply ring_range. lia. }
  assert (∀ k : nat, Z.of_nat k < 2 ^ b → k ≠ done →
    r_cur c ≠ (tx_remove t + Z.of_nat k) `mod` 2 ^ b) as Hne.
  { intros k Hk Hkd E. rewrite (tr_cur H) in E. apply ring_inj in E; lia. }
  constructor; simpl; try by apply H.
  - rewrite (aset_alen _ _ _ _ Es). apply H.
  - lia.
  - unfold r_len. rewrite (tr_d H), (tr_cur H), ring_add. f_equal. lia.
  - unfold r_len. rewrite (tr_d H), (tr_irq H), Z.mod_small by lia. lia.
  - intros k Hk. destruct (decide (k = done)) as [->|Hkd].
    + rewrite <-(tr_cur H), (aget_aset_eq _ _ _ _ Es). exists d'. split; [done|].
      rewrite Hd'. symmetry. apply bool_decide_false. lia.
    + rewrite (aget_aset_ne _ _ _ _ _ Es) by by apply Hne.
      destruct (tr_hw H k Hk) as (e & ? & He). exists e. split; [done|]. rewrite He.
      apply bool_decide_ext. lia.
  - intros k s' p' Hk Hkd. assert (k < length q)%nat by by eapply lookup_lt_Some.
    rewrite (aget_aset_ne _ _ _ _ _ Es) by (apply Hne; lia). apply (tr_addr H k s' p'); [done|lia].
  - destruct (tr_chan H). by constructor.
Qed.

(** The oldest finished buffer is taken out. *)
Definition tx_pop (t : tx_side) : tx_side :=
  {| tx_skbs := tx_skbs t; tx_skb_phys := tx_skb_phys t;
     tx_ring_length := tx_ring_length t; tx_ring_mask := tx_ring_mask t;
     tx_insert := tx_insert t;
     tx_remove := YATSE_RING_NEXT (tx_remove t) (tx_ring_mask t);
     tx_queued := s32 (tx_queued t - 1) |}.
Lemma tx_ring_pop t c s p q done l lp :
  tx_ring b t c ((s, p) :: q) (S done) l lp → tx_ring b (tx_pop t) (ack c) q done l lp.
Proof.
  intros H. pose proof (tr_pow H) as Hp. pose proof (tr_le H) as Hle. rewrite alen_cons in Hle.
  pose proof (tr_done H) as Hd. simpl in Hd.
  assert (YATSE_RING_NEXT (tx_remove t) (tx_ring_mask t) = (tx_remove t + 1) `mod` 2 ^ b) as Hnext.
  { rewrite (tr_mask H). apply ring_next_mod; [pose proof (tr_b H); lia|apply H]. }
  assert (∀ k, (YATSE_RING_NEXT (tx_remove t) (tx_ring_mask t) + Z.of_nat k) `mod` 2 ^ b
             = (tx_remove t + Z.of_nat (S k)) `mod` 2 ^ b) as Hidx.
  { intros k. rewrite Hnext, ring_add. f_equal. lia. }
  constructor; simpl; try by apply H.
  - rewrite Hnext. apply ring_range. lia.
  - rewrite (tr_queued H), alen_cons. unfold alen in *. rewrite s32_small; lia.
  - lia.
  - rewrite (tr_insert H), alen_cons. unfold alen. rewrite Hidx. f_equal. lia.
  - intros k s' p' Hk. rewrite Hidx. by apply (tr_slot H (S k)).
  - lia.
  - rewrite (tr_cur H), Hidx. done.
  - unfold r_len. rewrite (tr_d H), (tr_irq H), Z.mod_small by (unfold alen in *; lia). lia.
  - intros k Hk. rewrite Hidx. destruct (decide (Z.of_nat (S k) < 2 ^ b)) as [Hs|Hs].
    + destruct (tr_hw H (S k) Hs) as (e & ? & He). exists e. split; [done|]. rewrite He.
      apply bool_decide_ext. simpl. lia.
    + replace (Z.of_nat (S k)) with (2 ^ b) by lia. rewrite ring_wrap.
      destruct (tr_hw H 0 ltac:(lia)) as (e & Hg & He). rewrite Z.add_0_r in Hg. exists e.
      split; [done|]. rewrite He, !bool_decide_false; [done|unfold alen in *; lia..].
  - intros k s' p' Hk Hkd. rewrite Hidx. apply (tr_addr H (S k) s' p'); [done|lia].
  - destruct (tr_chan H). by constructor.
Qed.
End ring.
Arguments tr_pow {b t c q done l lp} _.

(** ** Operations on the whole state *)
Section operations.
Context (b : Z).
Implicit Types (w : world) (q : list (Z * Z)) (done : nat) (M : gmultiset (Z * Z * dma_dir)).

Lemma tx_inv_pending w q done M : tx_inv b w q done M → tx_pending (w_tx w) = q.
Proof. intros H. destruct (tv_ring H) as (l & lp & Hr). by eapply tx_pending_spec. Qed.

(** Changes outside the queue, the heap and the transmit channel. *)
Lemma tx_inv_frame w w' q done M M' :
  tx_inv b w q done M →
  w_tx w' = w_tx w → w_txc w' = w_txc w → w_rx w' = w_rx w → heap (w_k w') = heap (w_k w) →
  maps (w_k w') ⊎ M = maps (w_k w) ⊎ M' →
  tx_inv b w' q done M'.
Proof.
  intros H E1 E2 E3 E4 E5. destruct H as [Hr Hn Hx Hl Hm].
  constructor; rewrite ?E1, ?E2, ?E3; [done..| |].
  - intros sp Hsp. rewrite E4. by apply Hl.
  - rewrite Hm in E5. rewrite E4. multiset_solver.
Qed.

Lemma start_xmit_full w q done M skb sk :
  tx_inv b w q done M → heap (w_k w) !! skb = Some sk → alen q = 2 ^ b →
  yatse_start_xmit w skb =
    Ret (set_k w (netif_stop_queue (dma_map_single (w_k w) (sk_data sk) (sk_len sk) DMA_TO_DEVICE).1),
         NETDEV_TX_BUSY).
Proof.
  intros H Hsk Hfull. destruct (tv_ring H) as (l & lp & Hr). pose proof (tr_pow Hr).
  unfold yatse_start_xmit, yatse_tx_sync_skb. rewrite Hsk. simpl.
  rewrite (tr_queued Hr), (tr_n Hr), Hfull. rewrite !(proj2 (Z.ltb_ge _ _)) by lia. simpl.
  destruct (tr_hw Hr 0%nat ltac:(lia)) as (d & Hd & _).
  rewrite (desc_at_Ret _ _ d).
  - simpl. case_match; [done|]. by rewrite Z.eqb_refl.
  - rewrite (tr_insert Hr), Hfull, ring_wrap. by rewrite Z.add_0_r in Hd.
Qed.

Lemma start_xmit_room w q done M skb sk :
  tx_inv b w q done M → heap (w_k w) !! skb = Some sk → sendable w skb → alen q < 2 ^ b →
  let phys := virt_to_phys (sk_data sk) in
  ∃ w', yatse_start_xmit w skb = Ret (w', NETDEV_TX_OK) ∧
    tx_inv b w' (q ++ [(skb, phys)]) done M ∧
    tx_order w' (q ++ [(skb, phys)]) done = tx_order w q done ++ [phys] ∧
    freed (w_k w') = freed (w_k w) ∧
    queue_stopped (w_k w') = queue_stopped (w_k w) || (alen q + 1 =? 2 ^ b) ∧
    w_rx w' = w_rx w ∧ w_rxc w' = w_rxc w.
Proof.
  intros H Hsk Hs Hroom phys. unfold sendable in Hs. rewrite Hsk, (tx_inv_pending _ _ _ _ H) in Hs.
  destruct Hs as (Hlen & Hnq & Hnr).
  destruct (tv_ring H) as (l & lp & Hr). pose proof (tr_pow Hr).
  pose proof (alen_nonneg q). destruct (tr_hw Hr (length q) Hroom) as (d & Hd & Hhw).
  fold (alen q) in Hd. rewrite <-(tr_insert Hr) in Hd. rewrite bool_decide_false in Hhw by lia.
  set (d' := {| d_addr := phys; d_len := u16 (sk_len sk); d_error := d_error d;
                d_status := YATSE_DESC_STATUS_HW |}).
  destruct (tx_ring_push b _ _ _ _ _ _ skb phys d' Hr Hroom eq_refl eq_refl) as (t' & l' & lp' & Et & En & Hr').
  set (w1 := set_txc (set_tx (set_k w (dma_map_single (w_k w) (sk_data sk) (sk_len sk) DMA_TO_DEVICE).1) t')
               (set_desc (w_txc w) (<[Z.to_nat (tx_insert (w_tx w)) := d']> (r_desc (w_txc w))))).
  exists (if tx_queued t' =? tx_ring_length t' then set_k w1 (netif_stop_queue (w_k w1)) else w1).
  assert (yatse_start_xmit w skb = Ret (if tx_queued t' =? tx_ring_length t'
    then set_k w1 (netif_stop_queue (w_k w1)) else w1, NETDEV_TX_OK)) as ->.
  { unfold yatse_start_xmit, yatse_tx_sync_skb. rewrite Hsk. simpl.
    rewrite (tr_queued Hr), (tr_n Hr), !(proj2 (Z.ltb_ge _ _)) by lia. simpl.
    rewrite (desc_at_Ret _ _ d Hd). simpl. rewrite busy_hw, Hhw.
    rewrite (proj2 (Z.eqb_neq _ _)), Hsk by lia. simpl. fold phys. rewrite Et. simpl.
    rewrite desc_put_Ret by (rewrite (tr_d Hr), (tr_insert Hr); apply ring_range; lia). done. }
  split; [done|].
  assert (tx_inv b w1 (q ++ [(skb, phys)]) done M) as Hinv.
  { constructor; simpl.
    - eauto.
    - rewrite fmap_app. apply NoDup_app. split_and!; [apply H| |apply NoDup_singleton].
      intros s Hs ->%list_elem_of_singleton. done.
    - intros s. rewrite fmap_app, elem_of_app. intros [Hs| ->%list_elem_of_singleton]; [by apply H|done].
    - intros sp. rewrite elem_of_app. intros [Hsp| ->%list_elem_of_singleton]; [by apply H|].
      exists sk. simpl. done.
    - rewrite (tv_maps H), fmap_app, list_to_set_disj_app. simpl.
      unfold tx_map at 3. simpl. rewrite Hsk. simpl. fold phys. multiset_solver. }
  assert (tx_order w1 (q ++ [(skb, phys)]) done = tx_order w q done ++ [phys]) as Ho.
  { unfold tx_order. simpl. rewrite drop_app_le by apply (tr_done Hr). by rewrite fmap_app, app_assoc. }
  rewrite (tr_queued Hr'), En, (tr_n Hr), alen_app. change (alen [(skb, phys)]) with 1.
  destruct (alen q + 1 =? 2 ^ b); [|rewrite orb_false_r; done].
  rewrite orb_true_r. split_and!; [|done..]. by apply (tx_inv_frame w1 _ _ _ M).
Qed.

(** From queue [q] with [done] finished, to [q ++ acc] with [done'] finished:
    the buffers of [acc] were taken in, nothing was freed. *)
Definition tx_grows w q done M w' acc done' M' : Prop :=
  tx_inv b w' (q ++ acc) done' M' ∧ M ⊆ M' ∧
  tx_order w' (q ++ acc) done' = tx_order w q done ++ acc.*2 ∧
  freed (w_k w') = freed (w_k w).

Lemma tx_grows_set_ctl w q done M v k :
  tx_inv b w q done M → chan_ok (set_ctl (w_txc w) v) →
  heap k = heap (w_k w) → maps k = maps (w_k w) → freed k = freed (w_k w) →
  tx_grows w q done M (set_k (set_txc w (set_ctl (w_txc w) v)) k) [] done M.
Proof.
  intros H Hv E1 E2 E3. unfold tx_grows. rewrite !app_nil_r. split_and!; [|multiset_solver|done|done].
  destruct H as [(l & lp & Hr) ? ? ? ?]. constructor; simpl; rewrite ?E1, ?E2; [|done..].
  exists l, lp. destruct Hr. by constructor.
Qed.

Lemma tx_isr_spec w q done M :
  tx_inv b w q done M →
  tx_grows w q done M (yatse_tx_isr w).1 [] done M ∧
  (yatse_tx_isr w).2 = negb (done =? 0)%nat ∧
  (if (done =? 0)%nat then (yatse_tx_isr w).1 = w
   else tasklet_scheduled (w_k (yatse_tx_isr w).1) = true ∧ irq_line (w_txc (yatse_tx_isr w).1) = false).
Proof.
  intros H. destruct (tv_ring H) as (l & lp & Hr). pose proof (tr_chan Hr) as Hc.
  assert (truthy (ctl_word (w_txc w) .& YATSE_CSR_IS) = negb (done =? 0)%nat) as Eb.
  { change YATSE_CSR_IS with (1 .<< 3). rewrite land_bit, ctl_word_status, (tr_irq Hr) by (done || lia).
    f_equal. apply eq_bool_prop_intro. rewrite !Is_true_true, Z.eqb_eq, Nat.eqb_eq. lia. }
  assert (set_txc w (w_txc w) = w) as Ew by (by destruct w).
  unfold yatse_tx_isr, readl_tcontrol. rewrite (ctl_read_idle _ Hc), Eb, Ew.
  destruct (done =? 0)%nat eqn:E0; cbn [negb fst snd].
  - split_and!; [|done..]. unfold tx_grows. rewrite !app_nil_r. split_and!; [done|multiset_solver|done..].
  - rewrite (ctl_read_idle _ Hc), Ew. change YATSE_CSR_IE with 4.
    destruct (int_off _ Hc) as (Hok & Hoff & v & Ev). rewrite Ev in *. split_and!; [|done..|].
    + apply tx_grows_set_ctl; try done.
    + simpl. rewrite irq_line_ok by done. by rewrite Hoff.
Qed.

Lemma tx_exec_inv w q done M e :
  tx_inv b w q done M →
  ∃ w' acc done' M', tx_exec w e = Ret w' ∧ (length acc ≤ 1)%nat ∧ tx_grows w q done M w' acc done' M'.
Proof.
  intros H. destruct e as [| |skb]; simpl.
  - destruct (tv_ring H) as (l & lp & Hr). destruct (decide (done = length q)) as [Hd|Hd].
    + rewrite (tx_ring_idle b _ _ _ _ _ _ Hr Hd). exists w, [], done, M.
      assert (set_txc w (w_txc w) = w) as -> by (by destruct w).
      unfold tx_grows. rewrite !app_nil_r. split_and!; [done|simpl; lia|done|multiset_solver|done..].
    + pose proof (tr_done Hr). destruct (tx_ring_step b _ _ _ _ _ _ Hr) as (d & s & Hq & Hlog & _ & Hr'); [lia|].
      eexists _, [], (S done), M. unfold tx_grows. rewrite !app_nil_r.
      split_and!; [done|simpl; lia| |multiset_solver| |done].
      * destruct H. constructor; simpl; eauto.
      * unfold tx_order. simpl. rewrite Hlog, fmap_app, <-app_assoc. f_equal. rewrite (drop_S _ _ _ Hq). done.
  - eexists _, [], done, M. split_and!; [done|simpl; lia|]. by apply tx_isr_spec.
  - destruct (decide (sendable w skb)) as [Hs|Hs].
    + assert (∃ sk, heap (w_k w) !! skb = Some sk) as [sk Hsk].
      { unfold sendable in Hs. destruct (heap (w_k w) !! skb); [eauto|done]. }
      destruct (tv_ring H) as (l & lp & Hr). pose proof (tr_le Hr).
      destruct (decide (alen q = 2 ^ b)) as [Hf|Hf].
      * rewrite (start_xmit_full _ _ _ _ _ _ H Hsk Hf). simpl.
        eexists _, [], done, ({[+ (virt_to_phys (sk_data sk), sk_len sk, DMA_TO_DEVICE) +]} ⊎ M).
        unfold tx_grows. rewrite !app_nil_r. split_and!; [done|simpl; lia| |multiset_solver|done|done].
        apply (tx_inv_frame w _ _ _ M); [done..|]. simpl. multiset_solver.
      * destruct (start_xmit_room _ _ _ _ _ _ H Hsk Hs) as (w' & -> & Hi & Ho & Hfr & _); [lia|]. simpl.
        eexists w', [_], done, M. unfold tx_grows. split_and!; [done|simpl; lia|done|multiset_solver|done..].
    + exists w, [], done, M. unfold tx_grows. rewrite !app_nil_r. split_and!; [done|simpl; lia|done|multiset_solver|done..].
Qed.

Lemma tx_execs_inv es w q done M :
  tx_inv b w q done M →
  ∃ w' acc done' M', tx_execs w es = Ret w' ∧ (length acc ≤ length es)%nat ∧ tx_grows w q done M w' acc done' M'.
Proof.
  revert w q done M. induction es as [|e es IH]; intros w q done M H.
  - exists w, [], done, M. unfold tx_grows. rewrite !app_nil_r. split_and!; [done..|multiset_solver|done|done].
  - destruct (tx_exec_inv w q done M e H) as (w1 & a1 & d1 & M1 & E1 & L1 & Hi1 & HM1 & Ho1 & Hf1).
    destruct (IH w1 _ _ _ Hi1) as (w2 & a2 & d2 & M2 & E2 & L2 & Hi2 & HM2 & Ho2 & Hf2).
    exists w2, (a1 ++ a2), d2, M2. unfold tx_grows. rewrite !app_assoc, length_app. split_and!; [|simpl; lia|done| | |].
    + unfold tx_execs in *. simpl. by rewrite E1.
    + multiset_solver.
    + by rewrite Ho2, Ho1, fmap_app, app_assoc.
    + by rewrite Hf2.
Qed.

Lemma tx_map_delete h s q :
  (s ∉ q.*1) → tx_map (delete s h) <$> q = tx_map h <$> q.
Proof.
  intros Hs. apply list_fmap_ext. intros i sp Hsp. unfold tx_map.
  rewrite lookup_delete_ne; [done|]. intros ->. apply Hs, list_elem_of_fmap_2.
  by eapply list_elem_of_lookup_2.
Qed.

Lemma tx_reap_inv w s p q done M :
  tx_inv b w ((s, p) :: q) (S done) M →
  ∃ w', tx_reap w = Ret w' ∧ tx_inv b w' q done M ∧
    freed (w_k w') = freed (w_k w) ++ [s] ∧ tx_order w' q done = tx_order w ((s, p) :: q) (S done).
Proof.
  intros H. destruct (tv_ring H) as (l & lp & Hr). pose proof (tr_pow Hr).
  destruct (tr_slot Hr 0 s p eq_refl) as [Hs Hp]. rewrite Z.add_0_r, Z.mod_small in Hs, Hp by apply Hr.
  destruct (tv_live H (s, p) ltac:(set_solver)) as (sk & Hsk & Hphys & Hlen). simpl in Hsk, Hphys.
  pose proof (tv_nodup H) as Hnd. simpl in Hnd. apply NoDup_cons in Hnd as [Hnin Hnd].
  eexists. split; [|split_and!].
  - unfold tx_reap. rewrite (tr_skbs Hr), (tr_phys Hr). simpl. rewrite Hs, Hp. simpl. rewrite Hsk. simpl.
    unfold dev_kfree_skb. simpl. rewrite Hsk. simpl. reflexivity.
  - constructor; simpl.
    + exists l, lp. pose proof (tx_ring_pop b _ _ _ _ _ _ _ _ Hr) as Hpop.
      unfold tx_pop in Hpop. rewrite (tr_skbs Hr), (tr_phys Hr) in Hpop. exact Hpop.
    + done.
    + intros s' Hs'. apply (tv_rx H). simpl. set_solver.
    + intros sp Hsp. destruct (tv_live H sp ltac:(set_solver)) as (sk' & Hsk' & ?). exists sk'. split; [|done].
      rewrite lookup_delete_ne; [done|]. intros ->. apply Hnin. by apply list_elem_of_fmap_2.
    + rewrite (tv_maps H). simpl. rewrite tx_map_delete by done. unfold tx_map at 1. simpl. rewrite Hsk. simpl.
      multiset_solver.
  - done.
  - unfold tx_order. done.
Qed.

Lemma tx_finish_inv w q done M :
  tx_inv b w q done M → tx_grows w q done M (tx_finish w) [] done M ∧
    int_enabled (w_txc (tx_finish w)) = true ∧ queue_stopped (w_k (tx_finish w)) = false.
Proof.
  intros H. destruct (tv_ring H) as (l & lp & Hr). pose proof (tr_chan Hr) as Hc.
  assert (set_txc w (w_txc w) = w) as Ew by (by destruct w).
  unfold tx_finish, readl_tcontrol. rewrite (ctl_read_idle _ Hc), Ew. change YATSE_CSR_IE with 4.
  destruct (int_on _ Hc) as (Hok & Hon & v & Ev). rewrite Ev in *. split_and!; [|done..].
  by apply tx_grows_set_ctl.
Qed.

(** What the tasklet has done since state [w0] with queue [q0]: taken [acc]
    in, freed [reaped], in order. *)
Definition tx_since w0 q0 done0 M0 w q done : Prop :=
  ∃ M reaped acc, tx_inv b w q done M ∧ M0 ⊆ M ∧ q0 ++ acc = reaped ++ q ∧
    tx_order w q done = tx_order w0 q0 done0 ++ acc.*2 ∧ freed (w_k w) = freed (w_k w0) ++ reaped.*1.

Lemma tx_since_grows w0 q0 done0 M0 w q done M w' acc done' M' :
  tx_since w0 q0 done0 M0 w q done → tx_inv b w q done M → tx_grows w q done M w' acc done' M' →
  tx_since w0 q0 done0 M0 w' (q ++ acc) done'.
Proof.
  intros (M1 & reaped & acc1 & Hi1 & HM1 & Hq1 & Ho1 & Hf1) Hi (Hi' & HM' & Ho' & Hf').
  assert (M1 = M) as ->.
  { pose proof (tv_maps Hi1) as E. rewrite (tv_maps Hi) in E. multiset_solver. }
  exists M', reaped, (acc1 ++ acc). split_and!; [done|multiset_solver| | |].
  - by rewrite !app_assoc, Hq1.
  - by rewrite Ho', Ho1, fmap_app, app_assoc.
  - by rewrite Hf'.
Qed.

Definition tx_complete_fuel w (windows : list (list tx_event)) : nat :=
  S (Z.to_nat (tx_queued (w_tx w)) + length (concat windows)).

Lemma tx_complete_round w0 q0 done0 M0 w windows q done :
  tx_since w0 q0 done0 M0 w q done →
  match tx_complete_step (w, windows) with
  | inl st => (∃ q' done', tx_since w0 q0 done0 M0 st.1 q' done') ∧
              (tx_complete_fuel st.1 st.2 < tx_complete_fuel w windows)%nat
  | inr r => ∃ w' q', r = Ret w' ∧ tx_since w0 q0 done0 M0 w' q' 0 ∧
               int_enabled (w_txc w') = true ∧ queue_stopped (w_k w') = false
  end.
Proof.
  intros Hs. pose proof Hs as (M & reaped & acc & Hi & HM & Hq & Ho & Hf).
  destruct (tv_ring Hi) as (l & lp & Hr). pose proof (tr_pow Hr).
  destruct (tx_finish_inv _ _ _ _ Hi) as (Hg & Hie & Hst).
  unfold tx_complete_step. rewrite (tr_queued Hr). destruct q as [|[s p] q].
  { simpl. exists (tx_finish w), []. split_and!; [done| |done..].
    pose proof (tr_done Hr) as Hd. simpl in Hd. assert (done = 0%nat) as -> by lia.
    by apply (tx_since_grows _ _ _ _ _ _ _ _ _ _ _ _ Hs Hi Hg). }
  rewrite (proj2 (Z.ltb_lt _ _)) by (rewrite alen_cons; pose proof (alen_nonneg q); lia). cbn [negb].
  destruct (tr_hw Hr 0 ltac:(lia)) as (d & Hd & Hhw). rewrite Z.add_0_r, Z.mod_small in Hd by apply Hr.
  rewrite (desc_at_Ret _ _ _ Hd), busy_hw. destruct (hw d).
  { exists (tx_finish w), ((s, p) :: q). split_and!; [done| |done..].
    symmetry in Hhw. apply bool_decide_eq_true in Hhw. assert (done = 0%nat) as -> by lia.
    pose proof (tx_since_grows _ _ _ _ _ _ _ _ _ _ _ _ Hs Hi Hg) as Hg'. by rewrite app_nil_r in Hg'. }
  symmetry in Hhw. apply bool_decide_eq_false in Hhw. simpl in Hhw. destruct done as [|done]; [lia|].
  destruct (tx_reap_inv _ _ _ _ _ _ Hi) as (w1 & -> & Hi1 & Hf1 & Ho1). cbn [mbind outcome_bind].
  destruct (tx_execs_inv (default [] (head windows)) w1 q done M Hi1) as (w2 & a2 & d2 & M2 & -> & L2 & Hg2).
  assert (tx_since w0 q0 done0 M0 w1 q done) as Hs1.
  { exists M, (reaped ++ [(s, p)]), acc. split_and!; [done..| | |].
    - by rewrite <-app_assoc.
    - by rewrite Ho1.
    - by rewrite Hf1, Hf, fmap_app, app_assoc. }
  split; [exists (q ++ a2), d2; by apply (tx_since_grows _ _ _ _ _ _ _ _ _ _ _ _ Hs1 Hi1 Hg2)|].
  destruct Hg2 as (Hi2 & _). destruct (tv_ring Hi2) as (l2 & lp2 & Hr2).
  unfold tx_complete_fuel. cbn [fst snd]. rewrite (tr_queued Hr2), (tr_queued Hr), alen_app, alen_cons.
  unfold alen. destruct windows; simpl in *; rewrite ?length_app; lia.
Qed.

Lemma tx_complete_total w q done M windows :
  tx_inv b w q done M →
  ∃ w' q', yatse_tx_complete (tx_complete_fuel w windows) w windows = Some (Ret w') ∧
    tx_since w q done M w' q' 0 ∧ int_enabled (w_txc w') = true ∧ queue_stopped (w_k w') = false.
Proof.
  intros H. destruct (tv_ring H) as (l & lp & Hr). unfold yatse_tx_complete.
  rewrite (proj2 (Z.ltb_ge _ _)) by (rewrite (tr_queued Hr); apply alen_nonneg).
  destruct (loop_total (λ st, ∃ q' done', tx_since w q done M st.1 q' done')
    (λ r, ∃ w' q', r = Ret w' ∧ tx_since w q done M w' q' 0 ∧
          int_enabled (w_txc w') = true ∧ queue_stopped (w_k w') = false)
    (λ st, pred (tx_complete_fuel st.1 st.2)) tx_complete_step)
    with (fuel := tx_complete_fuel w windows) (s := (w, windows)) as (r & E & w' & q' & -> & ?).
  - intros [w1 ws1] (q1 & d1 & Hs1). cbn [fst snd] in Hs1. pose proof (tx_complete_round _ _ _ _ _ ws1 _ _ Hs1) as Hrd.
    destruct (tx_complete_step (w1, ws1)) as [[w2 ws2]|r]; [|done].
    destruct Hrd as [Hq2 Hlt]. split; [done|]. unfold tx_complete_fuel in *. simpl in *. lia.
  - exists q, done, M, [], []. simpl. rewrite !app_nil_r. split_and!; [done|multiset_solver|done..].
  - unfold tx_complete_fuel. simpl. lia.
  - exists w', q'. done.
Qed.

(** With nothing happening in the windows, the finished buffers are freed and
    the others stay. *)
Lemma tx_complete_quiet w q done M :
  tx_inv b w q done M →
  ∃ w', yatse_tx_complete (tx_complete_fuel w []) w [] = Some (Ret w') ∧
    freed (w_k w') = freed (w_k w) ++ (take done q).*1 ∧ tx_pending (w_tx w') = drop done q.
Proof.
  intros H. destruct (tv_ring H) as (l & lp & Hr). unfold yatse_tx_complete.
  rewrite (proj2 (Z.ltb_ge _ _)) by (rewrite (tr_queued Hr); apply alen_nonneg).
  unfold tx_complete_fuel. rewrite (tr_queued Hr). unfold alen. rewrite Nat2Z.id.
  assert (∀ n, (length q < n)%nat → ∃ w', loop n tx_complete_step (w, []) = Some (Ret w') ∧
    freed (w_k w') = freed (w_k w) ++ (take done q).*1 ∧ tx_pending (w_tx w') = drop done q)
    as Hgo; [|apply Hgo; lia]. clear l lp Hr.
  intros n. revert w q done H. induction n as [|n IH]; intros w q done H Hn; [lia|].
  destruct (tv_ring H) as (l & lp & Hr). pose proof (tr_pow Hr). pose proof (tr_done Hr) as Hdn.
  destruct (tx_finish_inv _ _ _ _ H) as ((Hfi & _ & _ & Hff) & _). rewrite app_nil_r in Hfi.
  cbn [loop]. unfold tx_complete_step at 1. rewrite (tr_queued Hr). destruct q as [|[s p] q].
  { simpl. exists (tx_finish w). rewrite take_nil, drop_nil, app_nil_r. by rewrite (tx_inv_pending _ _ _ _ Hfi). }
  rewrite (proj2 (Z.ltb_lt _ _)) by (rewrite alen_cons; pose proof (alen_nonneg q); lia). cbn [negb].
  destruct (tr_hw Hr 0 ltac:(lia)) as (d & Hd & Hhw). rewrite Z.add_0_r, Z.mod_small in Hd by apply Hr.
  rewrite (desc_at_Ret _ _ _ Hd), busy_hw. destruct done as [|done]; simpl in Hhw; rewrite Hhw.
  - exists (tx_finish w). rewrite (tx_inv_pending _ _ _ _ Hfi), take_0, app_nil_r. done.
  - destruct (tx_reap_inv _ _ _ _ _ _ H) as (w1 & -> & Hi1 & Hf1 & _). cbn.
    destruct (IH w1 q done Hi1) as (w' & E & Hf' & Hp); [simpl in Hn; lia|]. exists w'.
    split_and!; [exact E| |done]. by rewrite Hf', Hf1, <-app_assoc.
Qed.
End operations.

(** ** The transmit path as a system

    Events in any order, and runs of the tasklet with any activity in its
    windows. *)
Inductive tx_op := Event (e : tx_event) | Tasklet (windows : list (list tx_event)).
Definition tx_op_exec (w : world) (o : tx_op) : outcome world :=
  match o with
  | Event e => tx_exec w e
  | Tasklet windows =>
      default Oops (yatse_tx_complete (tx_complete_fuel w windows) w windows)
  end.
Definition tx_ops_exec (w : world) (os : list tx_op) : outcome world :=
  foldl (λ o op, w ← o; tx_op_exec w op) (Ret w) os.

Lemma tx_since_trans b w0 q0 done0 M0 w1 q1 done1 M1 w2 q2 done2 :
  tx_since b w0 q0 done0 M0 w1 q1 done1 → tx_inv b w1 q1 done1 M1 →
  tx_since b w1 q1 done1 M1 w2 q2 done2 → tx_since b w0 q0 done0 M0 w2 q2 done2.
Proof.
  intros (M1' & r1 & a1 & Hi1 & HM1 & Hq1 & Ho1 & Hf1) Hi (M2 & r2 & a2 & Hi2 & HM2 & Hq2 & Ho2 & Hf2).
  assert (M1' = M1) as ->.
  { pose proof (tv_maps Hi1) as E. rewrite (tv_maps Hi) in E. multiset_solver. }
  exists M2, (r1 ++ r2), (a1 ++ a2). split_and!; [done|multiset_solver| | |].
  - by rewrite app_assoc, Hq1, <-!app_assoc, Hq2.
  - by rewrite Ho2, Ho1, fmap_app, app_assoc.
  - by rewrite Hf2, Hf1, fmap_app, app_assoc.
Qed.

Lemma tx_ops_since b os w q done M :
  tx_inv b w q done M →
  ∃ w' q' done', tx_ops_exec w os = Ret w' ∧ tx_since b w q done M w' q' done'.
Proof.
  revert w q done M. induction os as [|o os IH]; intros w q done M H.
  { exists w, q, done. split; [done|]. exists M, [], []. simpl. rewrite !app_nil_r.
    split_and!; [done|multiset_solver|done..]. }
  assert (∃ w1 q1 done1 M1, tx_op_exec w o = Ret w1 ∧ tx_inv b w1 q1 done1 M1 ∧
            tx_since b w q done M w1 q1 done1) as (w1 & q1 & d1 & M1 & E1 & Hi1 & Hs1).
  { destruct o as [e|windows]; simpl.
    - destruct (tx_exec_inv b w q done M e H) as (w1 & a & d1 & M1 & E & _ & Hi & HM & Ho & Hf).
      exists w1, (q ++ a), d1, M1. split_and!; [done..|]. exists M1, [], a. simpl. rewrite app_nil_r. done.
    - destruct (tx_complete_total b w q done M windows H) as (w1 & q1 & -> & Hs & _ & _).
      pose proof Hs as (M1 & ? & ? & Hi & _). exists w1, q1, 0%nat, M1. done. }
  destruct (IH w1 q1 d1 M1 Hi1) as (w2 & q2 & d2 & E2 & Hs2).
  exists w2, q2, d2. split; [|by apply (tx_since_trans _ _ _ _ _ _ _ _ _ _ _ _ Hs1 Hi1 Hs2)].
  unfold tx_ops_exec in *. simpl. by rewrite E1.
Qed.

(** A ring with nothing in it. *)
Lemma tx_inv_idle b w l lp :
  0 ≤ b < 30 →
  tx_ring_length (w_tx w) = 2 ^ b → tx_ring_mask (w_tx w) = 2 ^ b - 1 →
  tx_skbs (w_tx w) = Some l → tx_skb_phys (w_tx w) = Some lp →
  alen l = 2 ^ b → alen lp = 2 ^ b → alen (r_desc (w_txc w)) = 2 ^ b →
  tx_insert (w_tx w) = 0 → tx_remove (w_tx w) = 0 → tx_queued (w_tx w) = 0 →
  r_cur (w_txc w) = 0 → r_irq (w_txc w) = 0 → chan_ok (w_txc w) →
  Forall (λ d, hw d = false) (r_desc (w_txc w)) →
  tx_inv b w [] 0 (maps (w_k w)).
Proof.
  intros Hb Hn Hm Hl Hlp Hal Halp Had Hi Hr Hq Hc Hirq Hok Hhw.
  assert (0 < 2 ^ b) by (apply Z.pow_pos_nonneg; lia).
  constructor; [|constructor|set_solver|set_solver|simpl; multiset_solver].
  exists l, lp. constructor; rewrite ?Hi, ?Hr, ?Hq, ?Hc; try done; try (unfold alen; simpl; lia).
  intros k Hk. rewrite Z.mod_small by lia.
  destruct (aget_is_Some (r_desc (w_txc w)) (0 + Z.of_nat k)) as [d Hd]; [lia|]. exists d. split; [done|].
  rewrite bool_decide_false by (simpl; lia). rewrite Forall_lookup in Hhw.
  rewrite Z.add_0_l, aget_nat in Hd. by apply Hhw in Hd.
Qed.


(** A ring of two slots and three buffers to send. *)
Definition desc0 : desc := {| d_addr := 0; d_len := 0; d_error := 0; d_status := 0 |}.
Definition txc0 : chan :=
  {| r_desc := replicate 2 desc0; r_cur := 0; r_irq := 0; r_ctl := 6; r_rst := 0; r_lat := 1;
     r_ro := 8; r_pins := 0; r_log := [] |}.
Definition skb0 (data : Z) : sk_buff :=
  {| sk_head := data; sk_data := data; sk_tail := data + 60; sk_end := data + 128; sk_len := 60 |}.
Definition kern0 : kern :=
  {| heap := {[ 16 := skb0 0x80001000; 32 := skb0 0x80002000; 48 := skb0 0x80003002 ]}; maps := ∅;
     pool := []; kz := []; queue_stopped := false; napi_sched := false; napi_disable_pending := false;
     tasklet_scheduled := false; delivered := []; freed := [] |}.
Definition world0 : world :=
  {| w_config := eth0_config; w_mtu := 1500;
     w_rx := {| rx_skbs := None; rx_skb_phys := None; rx_buf_len := 1516; rx_align := 0;
                rx_ring_length := 2; rx_ring_mask := 1; rx_pos := 0 |};
     w_tx := {| tx_skbs := Some [0; 0]; tx_skb_phys := Some [0; 0]; tx_ring_length := 2;
                tx_ring_mask := 1; tx_insert := 0; tx_remove := 0; tx_queued := 0 |};
     w_rxc := txc0; w_txc := txc0; w_k := kern0 |}.
Lemma txc0_ok : chan_ok txc0.
Proof.
  constructor; [done..| |]; intros i Hi;
    (assert (i = 0 ∨ i = 1 ∨ i = 2 ∨ i = 3) as [-> |[-> |[-> | ->]]] by lia); done.
Qed.
Lemma world0_inv : tx_inv 1 world0 [] 0 ∅.
Proof.
  apply (tx_inv_idle 1 world0 [0; 0] [0; 0]); try done; [apply txc0_ok|]. repeat constructor.
Qed.

(** The second buffer is sent while the tasklet frees the first. *)
Definition ops0 : list tx_op :=
  [Event (TxXmit 16); Event TxDone; Event TxIrq; Tasklet [[TxXmit 32; TxDone]]; Event (TxXmit 48); Event TxDone].
Example ops0_wire :
  match tx_ops_exec world0 ops0 with
  | Ret w => (d_addr <$> r_log (w_txc w), freed (w_k w)) = ([0x1000; 0x2000; 0x3002], [16; 32])
  | _ => False
  end.
Proof. vm_compute. reflexivity. Qed.

(** Yatse_start_xmit accepts a buffer exactly when the ring has room: the
    buffer joins the end of the queue, mapped for the device, and the stack's
    queue stops when the last slot is taken.  On a full ring it answers
    NETDEV_TX_BUSY, stops the queue, and leaves the mapping it has made for
    the buffer behind. *)
Theorem yatse_start_xmit_spec b w q done M skb sk :
  tx_inv b w q done M → heap (w_k w) !! skb = Some sk → sendable w skb →
  let m := (virt_to_phys (sk_data sk), sk_len sk, DMA_TO_DEVICE) in
  ∃ w' r, yatse_start_xmit w skb = Ret (w', r) ∧
    (alen q < 2 ^ b →
       r = NETDEV_TX_OK ∧ tx_inv b w' (q ++ [(skb, virt_to_phys (sk_data sk))]) done M ∧
       queue_stopped (w_k w') = queue_stopped (w_k w) || (alen q + 1 =? 2 ^ b)) ∧
    (alen q = 2 ^ b →
       r = NETDEV_TX_BUSY ∧ tx_inv b w' q done ({[+ m +]} ⊎ M) ∧ queue_stopped (w_k w') = true).
Proof.
  intros H Hsk Hs m. destruct (tv_ring H) as (l & lp & Hr). pose proof (tr_le Hr).
  destruct (decide (alen q = 2 ^ b)) as [Hf|Hf].
  - rewrite (start_xmit_full b _ _ _ _ _ _ H Hsk Hf). eexists _, _. split; [done|]. split; [lia|].
    intros _. split_and!; [done| |done]. apply (tx_inv_frame b w _ _ _ M); [done..|]. simpl. multiset_solver.
  - destruct (start_xmit_room b _ _ _ _ _ _ H Hsk Hs) as (w' & -> & Hi & _ & _ & Hst & _); [lia|].
    eexists _, _. split; [done|]. split; [done|lia].
Qed.
Lemma yatse_start_xmit_witness :
  ∃ w', yatse_start_xmit world0 16 = Ret (w', NETDEV_TX_OK) ∧
    tx_inv 1 w' [(16, 0x1000)] 0 ∅ ∧ queue_stopped (w_k w') = false.
Proof.
  destruct (yatse_start_xmit_spec 1 world0 [] 0 ∅ 16 (skb0 0x80001000)) as (w' & r & E & H & _).
  - exact world0_inv.
  - reflexivity.
  - vm_compute. split_and!; [done..| |]; apply not_elem_of_nil.
  - destruct H as (-> & H1 & H2); [done|]. exists w'. split_and!; [exact E|exact H1|exact H2].
Defined.

(** C9: the tasklet never loses a completion.  It terminates, whatever happens
    in its windows; it leaves only buffers the device still owns, the oldest
    first; the stack's queue runs again; and the interrupt is armed and quiet,
    so that the next buffer the device finishes raises it. *)
Theorem yatse_tx_complete_spec b w q done M windows :
  tx_inv b w q done M →
  ∃ w' q' M', yatse_tx_complete (tx_complete_fuel w windows) w windows = Some (Ret w') ∧
    tx_inv b w' q' 0 M' ∧ queue_stopped (w_k w') = false ∧ irq_line (w_txc w') = false ∧
    (q' ≠ [] → irq_line (dev_tx (w_txc w')) = true) ∧
    (windows = [] → q' = drop done q ∧ freed (w_k w') = freed (w_k w) ++ (take done q).*1).
Proof.
  intros H. destruct (tx_complete_total b w q done M windows H) as (w' & q' & E & Hs & Hie & Hst).
  destruct Hs as (M' & reaped & acc & Hi & _ & Hq & Ho & Hf). exists w', q', M'.
  destruct (tv_ring Hi) as (l & lp & Hr). pose proof (tr_chan Hr) as Hc.
  split_and!; [done..| | |].
  - by rewrite irq_line_ok, (tr_irq Hr), andb_false_r by done.
  - intros Hne. destruct (tx_ring_step b _ _ _ _ _ _ Hr) as (d & s & _ & _ & Hctl & Hr').
    { destruct q'; simpl; [done|lia]. }
    rewrite irq_line_ok, (tr_irq Hr') by apply Hr'. unfold int_enabled in *. by rewrite Hctl, Hie.
  - intros ->. pose proof (tx_complete_quiet b w q done M H) as (q1 & E1 & Hf1 & Hp1).
    rewrite E in E1. injection E1 as <-. split; [|done].
    by rewrite <-(tx_inv_pending b _ _ _ _ Hi).
Qed.
Lemma yatse_tx_complete_witness :
  ∃ w' q' M', yatse_tx_complete (tx_complete_fuel world0 [[TxXmit 16]]) world0 [[TxXmit 16]] = Some (Ret w') ∧
    tx_inv 1 w' q' 0 M' ∧ irq_line (w_txc w') = false.
Proof.
  destruct (yatse_tx_complete_spec 1 world0 [] 0 ∅ [[TxXmit 16]] world0_inv)
    as (w' & q' & M' & E & Hi & _ & Hl & _).
  exists w', q', M'. split_and!; [exact E|exact Hi|exact Hl].
Defined.
End YatseTx.
