(* ===== verification/YatseRx.v ===== *)
(** * YatseRx: the receive path (drivers/net/yatse/yatse_rx.c)

    Buffer allocation, the interrupt handler and the NAPI poll routine over the
    device of [EthDma].  The frames that arrive before each look at a
    descriptor are an input, one list for each round of the poll loop. *)

From stdpp Require Import gmultiset.
From S2P Require Import Prelude EthDma YatseMac YatseNet.
Import EthDma YatseMac YatseNet.

Module YatseRx.

(** The bytes mapped and programmed for one buffer. *)
Definition rx_bytes (w : world) : Z := NET_IP_ALIGN + ETH_HLEN + w_mtu w.

Definition yatse_rx_insert_skb (w : world) (phys : Z) : outcome world :=
  c ← desc_put (w_rxc w) (rx_pos (w_rx w))
        {| d_addr := phys; d_len := u16 (rx_bytes w); d_error := 0; d_status := YATSE_DESC_STATUS_HW |};
  Ret (set_rxc w c).

Definition rx_advance (r : rx_side) : rx_side :=
  {| rx_skbs := rx_skbs r; rx_skb_phys := rx_skb_phys r; rx_buf_len := rx_buf_len r; rx_align := rx_align r;
     rx_ring_length := rx_ring_length r; rx_ring_mask := rx_ring_mask r;
     rx_pos := YATSE_RING_NEXT (rx_pos r) (rx_ring_mask r) |}.
Definition rx_replace (r : rx_side) (skb phys : Z) : outcome rx_side :=
  skbs ← deref (rx_skbs r ≫= λ l, aset l (rx_pos r) skb);
  physs ← deref (rx_skb_phys r ≫= λ l, aset l (rx_pos r) phys);
  Ret {| rx_skbs := Some skbs; rx_skb_phys := Some physs; rx_buf_len := rx_buf_len r; rx_align := rx_align r;
         rx_ring_length := rx_ring_length r; rx_ring_mask := rx_ring_mask r; rx_pos := rx_pos r |}.

Definition yatse_rx_isr (w : world) : world * bool :=
  let '(w, v) := readl_rcontrol w in
  let got_irq := truthy (v .& YATSE_CSR_IS) in
  if got_irq then
    let '(k, prep) := napi_schedule_prep (w_k w) in
    let w := set_k w k in
    if prep then
      let '(w, v) := readl_rcontrol w in
      (set_rxc w (ctl_write (w_rxc w) (v .& ~32 YATSE_CSR_IE)), true)
    else (w, true)
  else (w, false).

Inductive rx_event := RxFrame (f : frame) | RxIrq.
Definition rx_exec (w : world) (e : rx_event) : world :=
  match e with
  | RxFrame f => set_rxc w (dev_rx (w_rxc w) f)
  | RxIrq => (yatse_rx_isr w).1
  end.
Definition rx_execs (w : world) (es : list rx_event) : world := foldl rx_exec w es.

(** The buffer goes back to the device as it is. *)
Definition rx_recycle (w : world) (old_phys : Z) : outcome world :=
  w ← yatse_rx_insert_skb w old_phys;
  Ret (set_rx w (rx_advance (w_rx w))).

(** The buffer goes to the stack and [new_skb] takes its place. *)
Definition rx_hand_over (w : world) (old_skb old_phys new_skb len : Z) : outcome world :=
  sk ← deref (heap (w_k w) !! new_skb);
  let '(k, new_phys) :=
    dma_map_single (w_k w) (sk_data sk - NET_IP_ALIGN) (rx_bytes w) DMA_FROM_DEVICE in
  let w := set_k w k in
  _ ← BUG_ON (dma_mapping_error new_phys);
  w ← yatse_rx_insert_skb w new_phys;
  r ← rx_replace (w_rx w) new_skb new_phys;
  let w := set_rx w (rx_advance r) in
  let w := set_k w (dma_unmap_single (w_k w) old_phys (rx_buf_len (w_rx w)) DMA_FROM_DEVICE) in
  old ← deref (heap (w_k w) !! old_skb);
  match skb_put old len with
  | None => Bug
  | Some old => Ret (set_k w (netif_receive_skb (w_k w) old_skb (skb_pull_inline old ETH_HLEN)))
  end.

(** One packet: the new state and the number of packets delivered (0 or 1). *)
Definition rx_packet (w : world) (d : desc) : outcome (world * Z) :=
  let w := set_rxc w (ack (w_rxc w)) in
  old_skb ← deref (rx_skbs (w_rx w) ≫= λ l, aget l (rx_pos (w_rx w)));
  old_phys ← deref (rx_skb_phys (w_rx w) ≫= λ l, aget l (rx_pos (w_rx w)));
  if truthy (s8 (d_error d)) then w ← rx_recycle w old_phys; Ret (w, 0) else
  let len := d_len d - NET_IP_ALIGN in
  if ETH_HLEN + w_mtu w <? len then w ← rx_recycle w old_phys; Ret (w, 0) else
  '(w, new_skb) ← yatse_rx_alloc_skb w;
  if new_skb =? 0 then w ← rx_recycle w old_phys; Ret (w, 0) else
  w ← rx_hand_over w old_skb old_phys new_skb len; Ret (w, 1).

Definition rx_complete (w : world) : outcome world :=
  k ← __napi_complete (w_k w);
  let '(w, v) := readl_rcontrol (set_k w k) in
  Ret (set_rxc w (ctl_write (w_rxc w) (v .| YATSE_CSR_IE))).

Definition rx_poll_step (st : world * list (list rx_event) * Z * Z) :
    (world * list (list rx_event) * Z * Z) + outcome (world * Z) :=
  let '(w, arrivals, budget, received) := st in
  if negb (0 <? budget) then inr (Ret (w, received)) else
  let w := rx_execs w (default [] (head arrivals)) in
  match desc_at (w_rxc w) (rx_pos (w_rx w)) with
  | Ret d =>
      if busy d then inr (w ← rx_complete w; Ret (w, received)) else
      match rx_packet w d with
      | Ret (w, n) => inl (w, tail arrivals, s32 (budget - n), s32 (received + n))
      | Bug => inr Bug
      | Oops => inr Oops
      end
  | Bug => inr Bug
  | Oops => inr Oops
  end.
Definition yatse_rx_poll (fuel : nat) (w : world) (arrivals : list (list rx_event)) (budget : Z) :
    option (outcome (world * Z)) :=
  if budget <=? 0 then Some Bug else
  loop fuel rx_poll_step (w, arrivals, budget, 0).

(** ** The ring invariant

    [pend] are the descriptors the device has finished and the driver has not
    looked at, the oldest at [rx_pos]; the device counts exactly these, and owns
    all the others, which are ready for a frame.  Each descriptor points to the
    buffer recorded for its slot. *)
Record rx_ring (b mtu : Z) (r : rx_side) (c : chan) (pend : list desc) (l lp : list Z) : Prop := {
  rg_b : 0 ≤ b < 30;
  rg_n : rx_ring_length r = 2 ^ b;
  rg_mask : rx_ring_mask r = 2 ^ b - 1;
  rg_skbs : rx_skbs r = Some l;
  rg_phys : rx_skb_phys r = Some lp;
  rg_l : alen l = 2 ^ b;
  rg_lp : alen lp = 2 ^ b;
  rg_d : alen (r_desc c) = 2 ^ b;
  rg_pos : 0 ≤ rx_pos r < 2 ^ b;
  rg_le : alen pend ≤ 2 ^ b;
  rg_cur : r_cur c = (rx_pos r + alen pend) `mod` 2 ^ b;
  rg_irq : r_irq c = alen pend;
  rg_slot (k : nat) : Z.of_nat k < 2 ^ b →
    ∃ d, aget (r_desc c) ((rx_pos r + Z.of_nat k) `mod` 2 ^ b) = Some d ∧
         aget lp ((rx_pos r + Z.of_nat k) `mod` 2 ^ b) = Some (d_addr d) ∧
         match pend !! k with
         | Some d' => d = d' ∧ hw d = false
         | None => hw d = true ∧ d_error d = 0 ∧ d_len d = NET_IP_ALIGN + ETH_HLEN + mtu
         end;
  rg_chan : chan_ok c;
}.

(** The receive buffers are live, distinct and ready, and mapped; [M] are the
    other mappings (the size of an unmapping is the mapped one when no extra
    alignment is configured). *)
Definition rx_live (mtu : Z) (h : gmap Z sk_buff) (s p : Z) : Prop :=
  ∃ sk, h !! s = Some sk ∧ rx_ready mtu sk ∧ p = virt_to_phys (sk_data sk - NET_IP_ALIGN).
Definition rx_map (w : world) (p : Z) : Z * Z * dma_dir := (p, rx_bytes w, DMA_FROM_DEVICE).
(** A frame as the MAC delivers it: padding and Ethernet header at least. *)
Definition wire_frame (f : frame) : Prop :=
  NET_IP_ALIGN + ETH_HLEN ≤ f_len f ≤ 2 ^ 16 - 8 ∧ is_u8 (f_err f).
Definition wire_event (e : rx_event) : Prop :=
  match e with RxFrame f => wire_frame f | RxIrq => True end.
Definition wire_desc (d : desc) : Prop :=
  NET_IP_ALIGN + ETH_HLEN ≤ d_len d < 2 ^ 16 ∧ is_u8 (d_error d).

Record rx_inv (b : Z) (w : world) (pend : list desc) (M : gmultiset (Z * Z * dma_dir)) : Prop := {
  rv_ring : ∃ l lp, rx_ring b (w_mtu w) (w_rx w) (w_rxc w) pend l lp ∧ NoDup l ∧
    Forall2 (rx_live (w_mtu w) (heap (w_k w))) l lp ∧
    (rx_align (w_rx w) = 0 → maps (w_k w) = list_to_set_disj (rx_map w <$> lp) ⊎ M);
  rv_sizes : rx_sizes (w_rx w) (w_mtu w);
  rv_pend : Forall wire_desc pend;
}.
Arguments rg_b {b mtu r c pend l lp} _.
Arguments rg_n {b mtu r c pend l lp} _.
Arguments rg_mask {b mtu r c pend l lp} _.
Arguments rg_skbs {b mtu r c pend l lp} _.
Arguments rg_phys {b mtu r c pend l lp} _.
Arguments rg_l {b mtu r c pend l lp} _.
Arguments rg_lp {b mtu r c pend l lp} _.
Arguments rg_d {b mtu r c pend l lp} _.
Arguments rg_pos {b mtu r c pend l lp} _.
Arguments rg_le {b mtu r c pend l lp} _.
Arguments rg_cur {b mtu r c pend l lp} _.
Arguments rg_irq {b mtu r c pend l lp} _.
Arguments rg_slot {b mtu r c pend l lp} _ k _.
Arguments rg_chan {b mtu r c pend l lp} _.
Arguments rv_ring {b w pend M} _.
Arguments rv_sizes {b w pend M} _.
Arguments rv_pend {b w pend M} _.

Section ring.
Context (b mtu : Z).
Implicit Types (r : rx_side) (c : chan) (pend : list desc) (l lp : list Z).

Lemma rg_pow r c pend l lp : rx_ring b mtu r c pend l lp → 0 < 2 ^ b ≤ 2 ^ 29.
Proof. intros H. pose proof (rg_b H). split; [lia|]. apply Z.pow_le_mono_r; lia. Qed.

(** A frame arrives: a full ring makes it wait, otherwise its descriptor joins
    the finished ones. *)
Lemma rx_ring_wait r c pend l lp f :
  rx_ring b mtu r c pend l lp → alen pend = 2 ^ b → dev_rx c f = c.
Proof.
  intros H Hf. pose proof (rg_pow _ _ _ _ _ H). unfold dev_rx. rewrite (rg_cur H), Hf, ring_wrap.
  destruct (rg_slot H 0 ltac:(lia)) as (d & Hd & _ & Hp). rewrite Z.add_0_r in Hd. rewrite Hd.
  destruct pend as [|d' pend]; [by unfold alen in Hf; simpl in Hf; lia|].
  simpl in Hp. destruct Hp as [_ ->]. by rewrite andb_false_r.
Qed.
Lemma rx_ring_frame r c pend l lp f :
  rx_ring b mtu r c pend l lp → alen pend < 2 ^ b → 0 ≤ mtu ≤ 2 ^ 15 → wire_frame f →
  ∃ d, wire_desc d ∧ r_log (dev_rx c f) = r_log c ++ [d] ∧ r_ctl (dev_rx c f) = r_ctl c ∧
    rx_ring b mtu r (dev_rx c f) (pend ++ [d]) l lp.
Proof.
  intros H Hlt Hmtu [Hf He]. pose proof (rg_pow _ _ _ _ _ H) as Hp. unfold NET_IP_ALIGN, ETH_HLEN in Hf.
  destruct (rg_slot H (length pend) Hlt) as (d & Hd & Ha & Hn).
  rewrite (lookup_ge_None_2 pend (length pend)) in Hn by done. destruct Hn as (Hhw & Herr & Hlen).
  destruct (rx_run_len d f ltac:(lia)) as (len & ws & Er & Hl).
  set (d' := rx_done_desc d f len). fold (alen pend) in Hd, Ha.
  assert (dev_rx c f = finish c d' d') as ->.
  { unfold dev_rx. rewrite (rg_cur H), Hd, Hhw, (enabled_ok _ (rg_chan H)). simpl. by rewrite Er. }
  exists d'. split_and!; [|done|done|].
  { split; unfold NET_IP_ALIGN, ETH_HLEN in *; simpl; [lia|]. by rewrite Herr, Z.lor_0_l. }
  assert (aset (r_desc c) (r_cur c) d' = Some (<[Z.to_nat (r_cur c) := d']> (r_desc c))) as Es.
  { apply aset_Some. rewrite (rg_d H), (rg_cur H). apply ring_range. lia. }
  constructor; simpl; try by apply H.
  - rewrite (aset_alen _ _ _ _ Es). apply H.
  - rewrite alen_app. unfold alen in *. simpl. lia.
  - unfold r_len. rewrite (rg_d H), (rg_cur H), ring_add, alen_app. done.
  - unfold r_len. rewrite (rg_d H), (rg_irq H), alen_app, Z.mod_small; [done|].
    pose proof (alen_nonneg pend). lia.
  - intros k Hk. destruct (decide (k = length pend)) as [->|Hne].
    + fold (alen pend). rewrite <-(rg_cur H) in Ha |- *. rewrite (aget_aset_eq _ _ _ _ Es). exists d'.
      split_and!; [done..|]. rewrite list_lookup_middle by done. split; [done|]. apply hw_rx_done.
    + rewrite (aget_aset_ne _ _ _ _ _ Es).
      2: { rewrite (rg_cur H). intros E. apply ring_inj in E; unfold alen in *; lia. }
      destruct (rg_slot H k Hk) as (e & ? & ? & Hs). exists e. split_and!; [done..|].
      destruct (decide (k < length pend)%nat).
      * by rewrite lookup_app_l.
      * rewrite lookup_ge_None_2 by (rewrite length_app; simpl; lia).
        by rewrite lookup_ge_None_2 in Hs by lia.
  - destruct (rg_chan H). by constructor.
Qed.

(** The driver takes the oldest finished descriptor, hands its slot back to the
    device with buffer [s] at address [p], and moves on. *)
Definition fresh_desc (d : desc) : Prop :=
  hw d = true ∧ d_error d = 0 ∧ d_len d = NET_IP_ALIGN + ETH_HLEN + mtu.
Lemma rx_ring_take r r' c d0 pend l lp l' lp' s p d :
  rx_ring b mtu r c (d0 :: pend) l lp →
  fresh_desc d → d_addr d = p →
  aset l (rx_pos r) s = Some l' → aset lp (rx_pos r) p = Some lp' →
  rx_skbs r' = Some l' → rx_skb_phys r' = Some lp' → rx_ring_length r' = rx_ring_length r →
  rx_ring_mask r' = rx_ring_mask r → rx_pos r' = YATSE_RING_NEXT (rx_pos r) (rx_ring_mask r) →
  rx_ring b mtu r' (set_desc (ack c) (<[Z.to_nat (rx_pos r) := d]> (r_desc c))) pend l' lp'.
Proof.
  intros H Hfresh Ha El Elp E1 E2 E3 E4 E5. pose proof (rg_pow _ _ _ _ _ H) as Hp.
  pose proof (rg_le H) as Hle. rewrite alen_cons in Hle. pose proof (alen_nonneg pend).
  assert (rx_pos r' = (rx_pos r + 1) `mod` 2 ^ b) as Hpos.
  { rewrite E5, (rg_mask H). apply ring_next_mod; [pose proof (rg_b H); lia|apply H]. }
  assert (∀ k, (rx_pos r' + k) `mod` 2 ^ b = (rx_pos r + (1 + k)) `mod` 2 ^ b) as Hidx
    by (intros k; by rewrite Hpos, ring_add).
  assert (aset (r_desc c) (rx_pos r) d = Some (<[Z.to_nat (rx_pos r) := d]> (r_desc c))) as Es.
  { apply aset_Some. rewrite (rg_d H). apply H. }
  constructor; simpl; rewrite ?E3, ?E4; try done; try by apply H.
  - rewrite (aset_alen _ _ _ _ El). apply H.
  - rewrite (aset_alen _ _ _ _ Elp). apply H.
  - rewrite (aset_alen _ _ _ _ Es). apply H.
  - rewrite Hpos. apply ring_range. lia.
  - lia.
  - rewrite (rg_cur H), alen_cons, Hidx. f_equal. lia.
  - unfold r_len. rewrite (rg_d H), (rg_irq H), alen_cons, Z.mod_small; lia.
  - intros k Hk. rewrite Hidx. destruct (decide (Z.of_nat (S k) < 2 ^ b)) as [Hs|Hs].
    + assert (rx_pos r ≠ (rx_pos r + (1 + Z.of_nat k)) `mod` 2 ^ b) as Hne.
      { intros E. replace (rx_pos r) with ((rx_pos r + 0) `mod` 2 ^ b) in E at 1
          by (rewrite Z.add_0_r, Z.mod_small; [done|apply H]). apply ring_inj in E; lia. }
      rewrite (aget_aset_ne _ _ _ _ _ Es), (aget_aset_ne _ _ _ _ _ Elp) by done.
      replace (1 + Z.of_nat k) with (Z.of_nat (S k)) by lia. apply (rg_slot H (S k) Hs).
    + replace (1 + Z.of_nat k) with (2 ^ b) by lia. rewrite ring_wrap, Z.mod_small by apply H.
      rewrite (aget_aset_eq _ _ _ _ Es), (aget_aset_eq _ _ _ _ Elp). exists d. split_and!; [done|by subst|].
      rewrite lookup_ge_None_2; [done|]. unfold alen in *. lia.
  - destruct (rg_chan H). by constructor.
Qed.
End ring.
Arguments rg_pow {b mtu r c pend l lp} _.

(** ** Packets *)
Definition good (mtu : Z) (d : desc) : bool := (d_error d =? 0) && (d_len d - NET_IP_ALIGN <=? ETH_HLEN + mtu).
(** What the stack gets for a finished descriptor: the address of the payload
    and its length. *)
Definition rx_frame (d : desc) : Z * Z :=
  (d_addr d + PAGE_OFFSET + NET_IP_ALIGN + ETH_HLEN, d_len d - NET_IP_ALIGN - ETH_HLEN).

(** The allocator's next [n] answers are new buffers. *)
Definition pool_fresh (w : world) (n : nat) : Prop :=
  ∃ bufs rest, pool (w_k w) = (Some <$> bufs) ++ rest ∧ length bufs = n ∧ NoDup bufs.*1 ∧
    Forall (λ sd, usable (w_k w) sd.1 sd.2 (u32 (rx_buf_len (w_rx w) + NET_SKB_PAD)) = true) bufs.

(** What a packet leaves alone. *)
Record rx_same (w w' : world) : Prop := {
  sm_log : r_log (w_rxc w') = r_log (w_rxc w);
  sm_ctl : r_ctl (w_rxc w') = r_ctl (w_rxc w);
  sm_napi : napi_sched (w_k w') = napi_sched (w_k w);
  sm_mtu : w_mtu w' = w_mtu w;
  sm_len : rx_buf_len (w_rx w') = rx_buf_len (w_rx w);
}.

Section packets.
Context (b : Z).
Implicit Types (w : world) (d : desc) (pend : list desc) (M : gmultiset (Z * Z * dma_dir)).

Lemma map_replace (f : Z → Z * Z * dma_dir) l i x y :
  l !! i = Some x →
  list_to_set_disj (f <$> <[i := y]> l) ⊎ {[+ f x +]} = list_to_set_disj (f <$> l) ⊎ ({[+ f y +]} : gmultiset _).
Proof.
  intros Hx. assert (i < length l)%nat by by eapply lookup_lt_Some.
  rewrite <-(take_drop_middle l i x Hx) at 2.
  rewrite insert_take_drop, !fmap_app, !fmap_cons, !list_to_set_disj_app by done. simpl. multiset_solver.
Qed.

Lemma swap_one (S S' M : gmultiset (Z * Z * dma_dir)) x y :
  S' ⊎ {[+ x +]} = S ⊎ {[+ y +]} → ({[+ y +]} ⊎ (S ⊎ M)) ∖ {[+ x +]} = S' ⊎ M.
Proof. intros. multiset_solver. Qed.

Lemma rx_current w d pend M :
  rx_inv b w (d :: pend) M →
  ∃ l lp s, rx_ring b (w_mtu w) (w_rx w) (w_rxc w) (d :: pend) l lp ∧ NoDup l ∧
    Forall2 (rx_live (w_mtu w) (heap (w_k w))) l lp ∧
    (rx_align (w_rx w) = 0 → maps (w_k w) = list_to_set_disj (rx_map w <$> lp) ⊎ M) ∧
    aget l (rx_pos (w_rx w)) = Some s ∧ aget lp (rx_pos (w_rx w)) = Some (d_addr d) ∧
    rx_live (w_mtu w) (heap (w_k w)) s (d_addr d) ∧ desc_at (w_rxc w) (rx_pos (w_rx w)) = Ret d ∧ hw d = false.
Proof.
  intros H. destruct (rv_ring H) as (l & lp & Hr & Hnd & Hl & Hm). exists l, lp.
  pose proof (rg_pow Hr). destruct (rg_slot Hr 0 ltac:(lia)) as (d' & Hd & Ha & [-> Hhw]).
  rewrite Z.add_0_r, Z.mod_small in Hd, Ha by apply Hr.
  destruct (aget_is_Some l (rx_pos (w_rx w))) as [s Hs]; [rewrite (rg_l Hr); apply Hr|].
  exists s. split_and!; [done..| |by apply desc_at_Ret|done].
  rewrite aget_to_nat in Hs, Ha by apply Hr. by apply (Forall2_lookup_lr _ _ _ _ _ _ Hl Hs Ha).
Qed.

(** Returning the buffer to the device, after an answer of the allocator that
    left the heap alone. *)
Lemma rx_recycle_inv w d pend M p :
  rx_inv b w (d :: pend) M →
  let w1 := set_k (set_rxc w (ack (w_rxc w))) (set_pool (w_k w) (heap (w_k w)) p) in
  ∃ w', rx_recycle w1 (d_addr d) = Ret w' ∧ rx_inv b w' pend M ∧ rx_same w w' ∧ w_k w' = w_k w1.
Proof.
  intros H w1. destruct (rx_current _ _ _ _ H) as (l & lp & s & Hr & Hnd & Hl & Hm & Hs & Hp & Hlive & _ & _).
  pose proof (rg_pow Hr). pose proof (rg_pos Hr). destruct (rv_sizes H) as [Hmtu _ _].
  eexists. split; [|split_and!].
  - unfold rx_recycle, yatse_rx_insert_skb. simpl.
    rewrite desc_put_Ret by (simpl; rewrite (rg_d Hr); lia). simpl. reflexivity.
  - constructor; simpl; [|by destruct (rv_sizes H); constructor|by apply (Forall_cons_1 _ _ _ (rv_pend H))].
    exists l, lp. split_and!; [|done..].
    eapply (rx_ring_take b (w_mtu w) (w_rx w) _ (w_rxc w) d pend l lp l lp s (d_addr d)); try done.
    + split_and!; [done..|]. simpl. unfold rx_bytes, NET_IP_ALIGN, ETH_HLEN. apply u16_small. simpl. lia.
    + rewrite aset_Some by (rewrite (rg_l Hr); lia). f_equal. apply list_insert_id.
      by rewrite aget_to_nat in Hs by lia.
    + rewrite aset_Some by (rewrite (rg_lp Hr); lia). f_equal. apply list_insert_id.
      by rewrite aget_to_nat in Hp by lia.
    + simpl. apply Hr.
    + simpl. apply Hr.
  - by constructor.
  - done.
Qed.

(** The frame in a ready buffer, given to the stack. *)
Lemma rx_deliver_skb mtu old p len :
  rx_ready mtu old → p = virt_to_phys (sk_data old - NET_IP_ALIGN) →
  ETH_HLEN ≤ len ≤ ETH_HLEN + mtu →
  ∃ old', skb_put old len = Some old' ∧
    (sk_data (skb_pull_inline old' ETH_HLEN), sk_len (skb_pull_inline old' ETH_HLEN)) =
    (p + PAGE_OFFSET + NET_IP_ALIGN + ETH_HLEN, len - ETH_HLEN).
Proof.
  intros [He Ht Hroom Hlo Hhi] -> Hlen. unfold virt_to_phys, PAGE_OFFSET, NET_IP_ALIGN, ETH_HLEN in *.
  unfold skb_put. rewrite Ht, He, (u32_small (sk_data old + len)), (proj2 (Z.ltb_ge _ _)) by lia.
  eexists. split; [reflexivity|]. unfold skb_pull_inline. cbn [sk_len sk_data].
  rewrite (u32_small (0 + len)), (proj2 (Z.ltb_ge _ _)) by lia. cbn [sk_len sk_data].
  rewrite !u32_small by lia. f_equal; lia.
Qed.

Lemma rx_hand_over_inv w d pend M p s skb sk :
  rx_inv b w (d :: pend) M → good (w_mtu w) d = true →
  aget (default [] (rx_skbs (w_rx w))) (rx_pos (w_rx w)) = Some s →
  heap (w_k w) !! skb = None → rx_ready (w_mtu w) sk →
  let w1 := set_k (set_rxc w (ack (w_rxc w))) (set_pool (w_k w) (<[skb := sk]> (heap (w_k w))) p) in
  ∃ w', rx_hand_over w1 s (d_addr d) skb (d_len d - NET_IP_ALIGN) = Ret w' ∧ rx_inv b w' pend M ∧ rx_same w w' ∧
    delivered (w_k w') = delivered (w_k w) ++ [rx_frame d] ∧ pool (w_k w') = p ∧
    heap (w_k w') = delete s (<[skb := sk]> (heap (w_k w))).
Proof.
  intros H Hg Hs' Hnew Hsk w1.
  destruct (rx_current _ _ _ _ H) as (l & lp & s' & Hr & Hnd & Hl & Hm & Hs & Hp & (old & Hold & Hready & Hphys) & _ & _).
  rewrite (rg_skbs Hr) in Hs'. simpl in Hs'. rewrite Hs in Hs'. injection Hs' as ->.
  pose proof (rg_pow Hr). pose proof (rg_pos Hr) as Hpos. destruct (rv_sizes H) as [Hmtu Hal Hblen].
  unfold good in Hg. apply andb_true_iff in Hg as [_ Hg]. apply Z.leb_le in Hg.
  pose proof (rv_pend H) as Hwire. apply Forall_cons in Hwire as [[Hwl _] Hwire].
  destruct (rx_deliver_skb (w_mtu w) old (d_addr d) (d_len d - NET_IP_ALIGN) Hready Hphys) as (old' & Eput & Epull).
  { unfold NET_IP_ALIGN, ETH_HLEN in *. lia. }
  assert (skb ≠ s) as Hne by (intros ->; congruence).
  set (np := virt_to_phys (sk_data sk - NET_IP_ALIGN)).
  assert (∃ l', aset l (rx_pos (w_rx w)) skb = Some l') as [l' El] by (rewrite aset_Some by (rewrite (rg_l Hr); lia); eauto).
  assert (∃ lp', aset lp (rx_pos (w_rx w)) np = Some lp') as [lp' Elp] by (rewrite aset_Some by (rewrite (rg_lp Hr); lia); eauto).
  eexists. split; [|split_and!].
  - unfold rx_hand_over. simpl. rewrite lookup_insert_eq. simpl. fold np.
    unfold yatse_rx_insert_skb. simpl. rewrite desc_put_Ret by (simpl; rewrite (rg_d Hr); lia). simpl.
    unfold rx_replace. simpl. rewrite (rg_skbs Hr), (rg_phys Hr). simpl. rewrite El. simpl. rewrite Elp. simpl.
    rewrite lookup_insert_ne, Hold by done. simpl. rewrite Eput. reflexivity.
  - constructor; simpl; [|by constructor|done].
    exists l', lp'. split_and!.
    + eapply (rx_ring_take b (w_mtu w) (w_rx w) _ (w_rxc w) d pend l lp l' lp' skb np); try done.
      split_and!; [done..|]. simpl. unfold rx_bytes, NET_IP_ALIGN, ETH_HLEN. apply u16_small. simpl. lia.
    + rewrite aset_Some in El by (rewrite (rg_l Hr); lia). injection El as <-.
      apply NoDup_insert_fresh; [done|]. intros Hin. apply list_elem_of_lookup_1 in Hin as [i Hi].
      destruct (Forall2_lookup_l _ _ _ _ _ Hl Hi) as (y & _ & sk' & Hsk' & _). congruence.
    + rewrite aset_Some in El, Elp by (rewrite ?(rg_l Hr), ?(rg_lp Hr); lia). injection El as <-. injection Elp as <-.
      rewrite aget_to_nat in Hs by lia.
      apply Forall2_same_length_lookup_2; [rewrite !length_insert; by eapply Forall2_length|].
      intros i x y Hx Hy. destruct (decide (i = Z.to_nat (rx_pos (w_rx w)))) as [->|Hi].
      * apply list_lookup_insert_Some in Hx as [(_ & <- & _)|[? _]]; [|done].
        apply list_lookup_insert_Some in Hy as [(_ & <- & _)|[? _]]; [|done].
        exists sk. split_and!; [|done..]. by rewrite lookup_delete_ne, lookup_insert_eq.
      * rewrite list_lookup_insert_ne in Hx, Hy by done.
        destruct (Forall2_lookup_lr _ _ _ _ _ _ Hl Hx Hy) as (skx & Hskx & Hrx & Hpx). exists skx.
        split_and!; [|done..]. assert (x ≠ s) by (intros ->; by apply Hi, (NoDup_lookup l _ _ s)).
        assert (x ≠ skb) by (intros ->; congruence). by rewrite lookup_delete_ne, lookup_insert_ne.
    + intros Hz. rewrite (Hm Hz). rewrite aset_Some in Elp by (rewrite (rg_lp Hr); lia). injection Elp as <-.
      rewrite aget_to_nat in Hp by lia. pose proof (map_replace (rx_map w) lp _ _ np Hp) as Hmr.
      replace (rx_buf_len (w_rx w)) with (rx_bytes w) by (rewrite Hblen, Hz; unfold rx_bytes; lia).
      change (rx_bytes w1) with (rx_bytes w). fold (rx_map w np). fold (rx_map w (d_addr d)).
      match goal with |- _ = list_to_set_disj (rx_map ?w' <$> _) ⊎ M => change (rx_map w') with (rx_map w) end.
      by apply swap_one.
  - by constructor.
  - simpl. by rewrite Epull.
  - done.
  - done.
Qed.

Lemma pool_fresh_mono w n m : (m ≤ n)%nat → pool_fresh w n → pool_fresh w m.
Proof.
  intros Hle (bufs & rest & E & Hn & Hnd & Hf). exists (take m bufs), ((Some <$> drop m bufs) ++ rest).
  split_and!.
  - by rewrite app_assoc, <-fmap_app, take_drop.
  - rewrite length_take. lia.
  - rewrite <-(take_drop m bufs), fmap_app in Hnd. by apply NoDup_app in Hnd as [? _].
  - by apply Forall_take.
Qed.

(** Taking the first of the fresh buffers. *)
Lemma pool_fresh_head w m :
  pool_fresh w (S m) →
  ∃ s data, head (pool (w_k w)) = Some (Some (s, data)) ∧ s ≠ 0 ∧
    usable (w_k w) s data (u32 (rx_buf_len (w_rx w) + NET_SKB_PAD)) = true.
Proof.
  intros (bufs & rest & Ep & Hlen & _ & Hf). destruct bufs as [|[s data] bufs]; [done|].
  apply Forall_cons in Hf as [Hu _]. exists s, data. simpl in Ep. rewrite Ep. split_and!; [done| |done].
  unfold usable in Hu. rewrite !andb_true_iff, !bool_decide_eq_true in Hu. apply Hu.
Qed.
Lemma pool_fresh_tail w w' m s data :
  pool_fresh w (S m) → head (pool (w_k w)) = Some (Some (s, data)) →
  pool (w_k w') = tail (pool (w_k w)) → rx_buf_len (w_rx w') = rx_buf_len (w_rx w) →
  (∀ x, x ≠ s → heap (w_k w) !! x = None → heap (w_k w') !! x = None) → pool_fresh w' m.
Proof.
  intros (bufs & rest & Ep & Hlen & Hndb & Hf) Hh Hp Hl Hheap. destruct bufs as [|[s0 d0] bufs]; [done|].
  simpl in Ep. rewrite Ep in Hp, Hh. simpl in Hp, Hh. injection Hh as -> ->.
  apply Forall_cons in Hf as [_ Hf]. rewrite fmap_cons in Hndb. apply NoDup_cons in Hndb as [Hs0 Hndb].
  exists bufs, rest. split_and!; [done|simpl in Hlen; lia|done|].
  rewrite Hl. rewrite Forall_forall in Hf. apply Forall_forall. intros sd Hsd.
  specialize (Hf sd Hsd). unfold usable in *. rewrite !andb_true_iff, !bool_decide_eq_true in *.
  destruct Hf as [[[? Hn] ?] ?]. split_and!; try done. apply Hheap; [|done].
  intros <-. apply Hs0, list_elem_of_fmap. by exists sd.
Qed.

Lemma s8_zero e : is_u8 e → truthy (s8 e) = negb (e =? 0).
Proof.
  intros He. unfold truthy, s8, is_u8 in *. f_equal. apply eq_bool_prop_intro.
  rewrite !Is_true_true, !Z.eqb_eq. Z.div_mod_to_equations. lia.
Qed.

Lemma rx_packet_spec w d pend M :
  rx_inv b w (d :: pend) M →
  ∃ w' n, rx_packet w d = Ret (w', n) ∧ rx_inv b w' pend M ∧ rx_same w w' ∧
    if good (w_mtu w) d then
      (n = 0 ∧ delivered (w_k w') = delivered (w_k w) ∨
       n = 1 ∧ delivered (w_k w') = delivered (w_k w) ++ [rx_frame d]) ∧
      ∀ m, pool_fresh w (S m) → n = 1 ∧ pool_fresh w' m
    else n = 0 ∧ delivered (w_k w') = delivered (w_k w) ∧ ∀ m, pool_fresh w m → pool_fresh w' m.
Proof.
  intros H. destruct (rx_current _ _ _ _ H) as (l & lp & s & Hr & Hnd & Hl & Hm & Hs & Hp & Hlive & _ & _).
  pose proof (rv_pend H) as Hwire. apply Forall_cons in Hwire as [[Hwl Hwe] _].
  assert (∃ w', rx_recycle (set_rxc w (ack (w_rxc w))) (d_addr d) = Ret w' ∧ rx_inv b w' pend M ∧ rx_same w w' ∧
    w_k w' = w_k w) as Hrec.
  { destruct (rx_recycle_inv w d pend M (pool (w_k w)) H) as (w' & E & Hi & Hsame & Hk). exists w'.
    replace (set_pool (w_k w) (heap (w_k w)) (pool (w_k w))) with (w_k w) in E, Hk by (by destruct (w_k w)).
    split_and!; [|done..]. rewrite <-E. by destruct w. }
  unfold rx_packet. simpl. rewrite (rg_skbs Hr), (rg_phys Hr). simpl. rewrite Hs, Hp. simpl.
  rewrite s8_zero by done. unfold good. destruct (d_error d =? 0) eqn:Eerr; cbn [negb andb].
  2: { destruct Hrec as (w' & -> & Hi & Hsame & Hk). exists w', 0. rewrite Hk. split_and!; [done..|].
       intros m. unfold pool_fresh. by rewrite Hk, (sm_len _ _ Hsame). }
  rewrite Z.ltb_antisym. destruct (_ <=? _) eqn:Elen; cbn [negb].
  2: { destruct Hrec as (w' & -> & Hi & Hsame & Hk). exists w', 0. rewrite Hk. split_and!; [done..|].
       intros m. unfold pool_fresh. by rewrite Hk, (sm_len _ _ Hsame). }
  set (w1 := set_rxc w (ack (w_rxc w))).
  destruct (rx_alloc_skb_cases w1 (rv_sizes H)) as (h & skb & -> & Hcase & Huse). cbn [mbind outcome_bind].
  destruct Hcase as [[-> ->]|(Hskb & Hnone & sk & -> & Hready & _)].
  - destruct (rx_recycle_inv w d pend M (tail (pool (w_k w))) H) as (w' & E & Hi & Hsame & Hk).
    change (w_k w1) with (w_k w) in *. simpl in E. simpl.
    replace (set_k w1 (set_pool (w_k w) (heap (w_k w)) (tail (pool (w_k w)))))
      with (set_k (set_rxc w (ack (w_rxc w))) (set_pool (w_k w) (heap (w_k w)) (tail (pool (w_k w)))))
      by (by destruct w).
    rewrite E. simpl. exists w', 0. split_and!; [done..|rewrite Hk; by left|].
    intros m Hf. destruct (pool_fresh_head _ _ Hf) as (s0 & d0 & Hh & Hs0 & Hu). exfalso.
    apply Hs0. symmetry. by apply (Huse s0 d0).
  - rewrite (proj2 (Z.eqb_neq _ _)) by done.
    assert (good (w_mtu w) d = true) as Hgood by (unfold good; by rewrite Eerr, Elen).
    destruct (rx_hand_over_inv w d pend M (tail (pool (w_k w))) s skb sk H Hgood) as (w' & E & Hi & Hsame & Hdel & Hpool & Hheap);
      [by rewrite (rg_skbs Hr)|done..|].
    change (w_k w1) with (w_k w) in *.
    replace (set_k w1 (set_pool (w_k w) (<[skb:=sk]> (heap (w_k w))) (tail (pool (w_k w)))))
      with (set_k (set_rxc w (ack (w_rxc w))) (set_pool (w_k w) (<[skb:=sk]> (heap (w_k w))) (tail (pool (w_k w)))))
      by (by destruct w).
    rewrite E. simpl. exists w', 1. split_and!; [done..|by right|].
    intros m Hf. split; [done|]. destruct (pool_fresh_head _ _ Hf) as (s0 & d0 & Hh & Hs0 & Hu).
    assert (skb = s0) as -> by by apply (Huse s0 d0).
    apply (pool_fresh_tail w w' m s0 d0 Hf Hh Hpool (sm_len _ _ Hsame)).
    intros x Hx Hnx. rewrite Hheap. apply lookup_delete_None. right. by rewrite lookup_insert_ne.
Qed.

(** Events while the poll routine owns the NAPI instance: the interrupt
    handler leaves everything alone. *)
Lemma rx_isr_owned w :
  chan_ok (w_rxc w) → napi_sched (w_k w) = true → (yatse_rx_isr w).1 = w.
Proof.
  intros Hc Hn. unfold yatse_rx_isr, readl_rcontrol. rewrite (ctl_read_idle _ Hc).
  assert (set_rxc w (w_rxc w) = w) as -> by (by destruct w). destruct (truthy _); [|done].
  unfold napi_schedule_prep. destruct (napi_disable_pending (w_k w)) eqn:Ed; simpl.
  - by destruct w.
  - rewrite Hn. simpl. destruct w as [?????? []]. simpl in *. by subst.
Qed.

Lemma rx_execs_inv es w pend M :
  rx_inv b w pend M → napi_sched (w_k w) = true → Forall wire_event es →
  ∃ c arrived, rx_execs w es = set_rxc w c ∧ (length arrived ≤ length es)%nat ∧
    rx_inv b (set_rxc w c) (pend ++ arrived) M ∧
    r_log c = r_log (w_rxc w) ++ arrived ∧ r_ctl c = r_ctl (w_rxc w).
Proof.
  revert w pend. induction es as [|e es IH]; intros w pend H Hn He.
  { exists (w_rxc w), []. rewrite !app_nil_r. assert (set_rxc w (w_rxc w) = w) as -> by (by destruct w). done. }
  apply Forall_cons in He as [He Hes]. destruct (rv_ring H) as (l & lp & Hr & Hrest).
  assert (∃ c arrived, rx_exec w e = set_rxc w c ∧ (length arrived ≤ 1)%nat ∧
    rx_inv b (set_rxc w c) (pend ++ arrived) M ∧
    r_log c = r_log (w_rxc w) ++ arrived ∧ r_ctl c = r_ctl (w_rxc w)) as (c1 & a1 & E1 & L1 & Hi1 & Hl1 & Hc1).
  { destruct e as [f|]; simpl in He |- *.
    - destruct (decide (alen pend = 2 ^ b)) as [Hf|Hf].
      + exists (w_rxc w), []. rewrite (rx_ring_wait b _ _ _ _ _ _ f Hr Hf), !app_nil_r.
        assert (set_rxc w (w_rxc w) = w) as -> by (by destruct w). split_and!; [done|simpl; lia|done..].
      + pose proof (rg_le Hr). destruct (rx_ring_frame b _ _ _ _ _ _ f Hr) as (d & Hd & Hlog & Hctl & Hr');
          [lia|apply (rv_sizes H)|done|].
        exists (dev_rx (w_rxc w) f), [d]. split_and!; [done|simpl; lia| |done..].
        constructor; simpl; [|by destruct (rv_sizes H); constructor|].
        * exists l, lp. done.
        * apply Forall_app. split; [apply H|by constructor].
    - exists (w_rxc w), []. rewrite !app_nil_r, rx_isr_owned by (done || apply Hr).
      assert (set_rxc w (w_rxc w) = w) as -> by (by destruct w). split_and!; [done|simpl; lia|done..]. }
  destruct (IH (set_rxc w c1) (pend ++ a1) Hi1 Hn Hes) as (c2 & a2 & E2 & L2 & Hi2 & Hl2 & Hc2).
  exists c2, (a1 ++ a2). unfold rx_execs in *. simpl. rewrite E1, E2, app_assoc. split_and!.
  - done.
  - rewrite length_app. simpl. lia.
  - done.
  - rewrite Hl2. simpl. by rewrite Hl1, app_assoc.
  - by rewrite Hc2.
Qed.

(** Closing the poll: NAPI is given back and the interrupt armed. *)
Lemma rx_complete_inv w pend M :
  rx_inv b w pend M → napi_sched (w_k w) = true →
  ∃ w', rx_complete w = Ret w' ∧ rx_inv b w' pend M ∧ napi_sched (w_k w') = false ∧
    int_enabled (w_rxc w') = true ∧ r_log (w_rxc w') = r_log (w_rxc w) ∧
    delivered (w_k w') = delivered (w_k w) ∧ w_mtu w' = w_mtu w.
Proof.
  intros H Hn. destruct (rv_ring H) as (l & lp & Hr & Hrest). pose proof (rg_chan Hr) as Hc.
  unfold rx_complete, __napi_complete. rewrite Hn. cbn [negb BUG_ON mbind outcome_bind].
  unfold readl_rcontrol. cbn [w_rxc set_k]. rewrite (ctl_read_idle _ Hc). change YATSE_CSR_IE with 4. simpl.
  destruct (int_on _ Hc) as (Hok & Hon & v & Ev). rewrite Ev in *.
  eexists. split; [reflexivity|]. split_and!; [|done..].
  constructor; simpl; [|by destruct (rv_sizes H); constructor|apply H].
  exists l, lp. split; [|done]. destruct Hr. by constructor.
Qed.
End packets.

(** ** The poll routine *)

(** What the stack gets for the packets [ds], given for each good one whether a
    new buffer was found for its slot. *)
Fixpoint rx_expected (mtu : Z) (ds : list desc) (oks : list bool) : list (Z * Z) :=
  match ds with
  | [] => []
  | d :: ds =>
      if good mtu d then
        match oks with
        | true :: oks => rx_frame d :: rx_expected mtu ds oks
        | false :: oks => rx_expected mtu ds oks
        | [] => []
        end
      else rx_expected mtu ds oks
  end.
Definition goods (mtu : Z) (ds : list desc) : nat := length (filter (λ d, good mtu d = true) ds).

Lemma rx_expected_snoc_good mtu ds oks d ok :
  length oks = goods mtu ds → good mtu d = true →
  rx_expected mtu (ds ++ [d]) (oks ++ [ok]) =
    rx_expected mtu ds oks ++ (if ok then [rx_frame d] else []).
Proof.
  intros Hl Hd. revert oks Hl. induction ds as [|e ds IH]; intros oks Hl; unfold goods in *; simpl.
  - destruct oks; [|done]. simpl. rewrite Hd. by destruct ok.
  - rewrite filter_cons in Hl. destruct (good mtu e) eqn:Ee.
    + rewrite decide_True in Hl by done. destruct oks as [|o oks]; [done|]. simpl in *.
      destruct o; simpl; rewrite IH by lia; done.
    + rewrite decide_False in Hl by congruence. by apply IH.
Qed.
Lemma rx_expected_snoc_bad mtu ds oks d :
  length oks = goods mtu ds → good mtu d = false → rx_expected mtu (ds ++ [d]) oks = rx_expected mtu ds oks.
Proof.
  intros Hl Hd. revert oks Hl. induction ds as [|e ds IH]; intros oks Hl; unfold goods in *; simpl.
  - by rewrite Hd.
  - rewrite filter_cons in Hl. destruct (good mtu e) eqn:Ee.
    + rewrite decide_True in Hl by done. destruct oks as [|o oks]; [done|]. simpl in *.
      destruct o; rewrite IH by lia; done.
    + rewrite decide_False in Hl by congruence. by apply IH.
Qed.
Lemma rx_expected_all mtu ds oks :
  length oks = goods mtu ds → Forall (eq true) oks →
  rx_expected mtu ds oks = rx_frame <$> filter (λ d, good mtu d = true) ds.
Proof.
  revert oks. induction ds as [|e ds IH]; intros oks Hl Ho; unfold goods in *; simpl; [done|].
  rewrite filter_cons in *. destruct (good mtu e) eqn:Ee.
  - rewrite decide_True in * by done. destruct oks as [|o oks]; [done|].
    apply Forall_cons in Ho as [<- Ho]. simpl in *. f_equal. apply IH; [lia|done].
  - rewrite decide_False in * by congruence. by apply IH.
Qed.

Section poll.
Context (b : Z) (w0 : world) (pend0 : list desc) (budget0 : Z) (M : gmultiset (Z * Z * dma_dir)).
Context (Hn0 : napi_sched (w_k w0) = true) (Hb0 : 0 < budget0 < 2 ^ 31).
Implicit Types (w : world) (pend arrived consumed : list desc) (oks : list bool).

(** The state of the poll since it was entered: [arrived] are the packets the
    device has finished since, [consumed] those the driver has taken. *)
Record rx_since w pend arrived consumed oks (received : Z) : Prop := {
  ps_inv : rx_inv b w pend M;
  ps_split : pend0 ++ arrived = consumed ++ pend;
  ps_log : r_log (w_rxc w) = r_log (w_rxc w0) ++ arrived;
  ps_delivered : delivered (w_k w) = delivered (w_k w0) ++ rx_expected (w_mtu w0) consumed oks;
  ps_oks : length oks = goods (w_mtu w0) consumed;
  ps_received : received = alen (rx_expected (w_mtu w0) consumed oks);
  ps_range : received ≤ budget0;
  ps_pool N : pool_fresh w0 N → (length oks ≤ N)%nat → Forall (eq true) oks ∧ pool_fresh w (N - length oks);
  ps_mtu : w_mtu w = w_mtu w0;
}.
Definition rx_going w : Prop := napi_sched (w_k w) = true ∧ r_ctl (w_rxc w) = r_ctl (w_rxc w0).
Definition rx_closed w pend : Prop :=
  napi_sched (w_k w) = false ∧ pend = [] ∧ int_enabled (w_rxc w) = true.

Lemma rx_since_arrive w pend arrived consumed oks received c a :
  rx_since w pend arrived consumed oks received →
  rx_inv b (set_rxc w c) (pend ++ a) M → r_log c = r_log (w_rxc w) ++ a →
  rx_since (set_rxc w c) (pend ++ a) (arrived ++ a) consumed oks received.
Proof.
  intros [] Hi Hl. constructor; simpl; try done.
  - by rewrite !app_assoc, ps_split0.
  - by rewrite Hl, ps_log0, app_assoc.
Qed.

Lemma rx_since_packet w d pend arrived consumed oks received :
  rx_since w (d :: pend) arrived consumed oks received → received < budget0 → rx_going w →
  ∃ w' n oks', rx_packet w d = Ret (w', n) ∧ 0 ≤ n ≤ 1 ∧ rx_going w' ∧
    rx_since w' pend arrived (consumed ++ [d]) oks' (received + n).
Proof.
  intros Hs Hlt [Hn Hc]. destruct (rx_packet_spec b w d pend M (ps_inv _ _ _ _ _ _ Hs)) as (w' & n & E & Hi & Hsame & Hcase).
  assert (rx_going w') as Hg by (split; [by rewrite (sm_napi _ _ Hsame)|by rewrite (sm_ctl _ _ Hsame)]).
  assert (pend0 ++ arrived = (consumed ++ [d]) ++ pend) as Hsp.
  { rewrite <-app_assoc. by apply Hs. }
  assert (r_log (w_rxc w') = r_log (w_rxc w0) ++ arrived) as Hlog by (by rewrite (sm_log _ _ Hsame), (ps_log _ _ _ _ _ _ Hs)).
  assert (w_mtu w' = w_mtu w0) as Hmtu by (by rewrite (sm_mtu _ _ Hsame), (ps_mtu _ _ _ _ _ _ Hs)).
  rewrite (ps_mtu _ _ _ _ _ _ Hs) in Hcase. destruct Hs. destruct (good (w_mtu w0) d) eqn:Eg.
  - destruct Hcase as [Hcase Hpool].
    assert (∃ ok : bool, n = (if ok then 1 else 0) ∧
      delivered (w_k w') = delivered (w_k w) ++ (if ok then [rx_frame d] else [])) as (ok & -> & Hdel).
    { destruct Hcase as [[-> ->]|[-> ->]]; [exists false|exists true]; by rewrite ?app_nil_r. }
    exists w', (if ok then 1 else 0), (oks ++ [ok]). split_and!; [done|by destruct ok..|done|].
    constructor; try done.
    + by rewrite rx_expected_snoc_good, Hdel, ps_delivered0, app_assoc by done.
    + unfold goods. rewrite filter_app, !length_app, ps_oks0. unfold goods.
      rewrite filter_cons_True by done. done.
    + rewrite rx_expected_snoc_good, alen_app, ps_received0 by done. by destruct ok.
    + destruct ok; lia.
    + intros N HN Hle. rewrite length_app in *. simpl in *.
      destruct (ps_pool0 N HN) as [Hall Hf]; [lia|].
      destruct (Hpool (N - length oks - 1)%nat) as [Hok Hf'].
      { by replace (S (N - length oks - 1)) with (N - length oks)%nat by lia. }
      split; [|by replace (N - (length oks + 1))%nat with (N - length oks - 1)%nat by lia].
      apply Forall_app. split; [done|]. constructor; [|done]. by destruct ok.
  - destruct Hcase as (-> & Hdel & Hpool). exists w', 0, oks. split_and!; [done|lia..|done|].
    constructor; try done.
    + by rewrite rx_expected_snoc_bad, Hdel by done.
    + unfold goods. rewrite filter_app, filter_cons_False, filter_nil, app_nil_r by congruence. done.
    + rewrite rx_expected_snoc_bad by done. lia.
    + lia.
    + intros N HN Hle. destruct (ps_pool0 N HN Hle). auto.
Qed.

Definition rx_poll_fuel w (arrivals : list (list rx_event)) : nat :=
  S (Z.to_nat (r_irq (w_rxc w)) + length (concat arrivals)).
Definition rx_poll_inv (st : world * list (list rx_event) * Z * Z) : Prop :=
  let '(w, arrivals, budget, received) := st in
  Forall (Forall wire_event) arrivals ∧ budget = budget0 - received ∧ rx_going w ∧
  ∃ pend arrived consumed oks, rx_since w pend arrived consumed oks received.
Definition rx_poll_post (r : outcome (world * Z)) : Prop :=
  ∃ w' received pend arrived consumed oks, r = Ret (w', received) ∧
    rx_since w' pend arrived consumed oks received ∧
    (received = budget0 ∧ rx_going w' ∨ received < budget0 ∧ rx_closed w' pend).

Lemma rx_poll_round st :
  rx_poll_inv st →
  match rx_poll_step st with
  | inl st' => rx_poll_inv st' ∧ (rx_poll_fuel st'.1.1.1 st'.1.1.2 < rx_poll_fuel st.1.1.1 st.1.1.2)%nat
  | inr r => rx_poll_post r
  end.
Proof.
  destruct st as [[[w arrivals] budget] received]. intros (Hwire & -> & Hg & pend & arrived & consumed & oks & Hs).
  pose proof (ps_range _ _ _ _ _ _ Hs) as Hrange. unfold rx_poll_step. cbn [fst snd].
  destruct (Z.ltb_spec 0 (budget0 - received)) as [Hlt|Hge]; cbn [negb].
  2: { exists w, received, pend, arrived, consumed, oks. split_and!; [done..|]. left. split; [lia|done]. }
  assert (Forall wire_event (default [] (head arrivals)) ∧ Forall (Forall wire_event) (tail arrivals)) as [Hw1 Hw2].
  { destruct arrivals; simpl; [done|]. by apply Forall_cons in Hwire. }
  destruct (rx_execs_inv b _ _ _ _ (ps_inv _ _ _ _ _ _ Hs) (proj1 Hg) Hw1) as (c & a & -> & La & Hi & Hlog & Hctl).
  pose proof (rx_since_arrive _ _ _ _ _ _ _ _ Hs Hi Hlog) as Hs1.
  assert (rx_going (set_rxc w c)) as Hg1 by (destruct Hg; split; simpl; [done|congruence]).
  destruct (rv_ring (ps_inv _ _ _ _ _ _ Hs)) as (l0 & lp0 & Hr0 & _).
  destruct (pend ++ a) as [|d pend'] eqn:Ep.
  - destruct (rv_ring Hi) as (l & lp & Hr & _). pose proof (rg_pow Hr).
    destruct (rg_slot Hr 0 ltac:(lia)) as (d & Hd & _ & Hhw & _). rewrite Z.add_0_r, Z.mod_small in Hd by apply Hr.
    rewrite (desc_at_Ret _ _ _ Hd), busy_hw, Hhw.
    destruct (rx_complete_inv b _ _ _ Hi (proj1 Hg1)) as (w' & E & Hi' & Hn' & Hie & Hlog' & Hdel & Hmtu).
    rewrite E. cbn [mbind outcome_bind]. exists w', received, [], (arrived ++ a), consumed, oks. split_and!; [done| |].
    + destruct Hs1. constructor; try done; [by rewrite Hlog'|by rewrite Hdel| |by rewrite Hmtu].
      intros N HN Hle. destruct (ps_pool0 N HN Hle) as [? Hf]. split; [done|].
      revert Hf E. unfold pool_fresh, rx_complete, __napi_complete. destruct Hg1 as [-> _].
      cbn [negb BUG_ON mbind outcome_bind]. unfold readl_rcontrol. intros Hf [= <-]. exact Hf.
    + right. split; [lia|done].
  - destruct (rx_current b _ _ _ _ Hi) as (l & lp & s & Hr & _ & _ & _ & _ & _ & _ & Hd & Hhw).
    rewrite Hd, busy_hw, Hhw.
    destruct (rx_since_packet _ _ _ _ _ _ _ Hs1 ltac:(lia) Hg1) as (w' & n & oks' & -> & Hn & Hg' & Hs').
    assert (0 ≤ received) by (rewrite (ps_received _ _ _ _ _ _ Hs); apply alen_nonneg).
    rewrite !s32_small by lia. split.
    + split_and!; [done|lia|done|]. by exists pend', (arrived ++ a), (consumed ++ [d]), oks'.
    + destruct (rv_ring (ps_inv _ _ _ _ _ _ Hs')) as (l' & lp' & Hr' & _).
      unfold rx_poll_fuel. cbn [fst snd]. rewrite (rg_irq Hr'), (rg_irq Hr0).
      apply (f_equal length) in Ep. rewrite length_app in Ep. simpl in Ep. unfold alen.
      destruct arrivals; simpl in *; rewrite ?length_app; lia.
Qed.

Lemma rx_poll_total arrivals :
  rx_inv b w0 pend0 M → Forall (Forall wire_event) arrivals →
  ∃ r, yatse_rx_poll (rx_poll_fuel w0 arrivals) w0 arrivals budget0 = Some r ∧ rx_poll_post r.
Proof.
  intros H Hw. unfold yatse_rx_poll. rewrite (proj2 (Z.leb_gt _ _)) by lia.
  apply (loop_total rx_poll_inv rx_poll_post (λ st, pred (rx_poll_fuel st.1.1.1 st.1.1.2)) rx_poll_step).
  - intros st Hst. pose proof (rx_poll_round st Hst) as Hrd. destruct (rx_poll_step st) as [st'|]; [|done].
    destruct Hrd as [? Hlt]. split; [done|]. unfold rx_poll_fuel in *. simpl in *. lia.
  - split_and!; [done|lia|done|]. exists pend0, [], [], []. constructor; simpl; rewrite ?app_nil_r; try done.
    + lia.
    + intros N HN _. split; [constructor|]. by rewrite Nat.sub_0_r.
  - unfold rx_poll_fuel. simpl. lia.
Qed.
End poll.

(** A two-slot ring with both buffers at the device. *)
Definition rdesc (addr : Z) : desc := {| d_addr := addr; d_len := 1516; d_error := 0; d_status := 1 |}.
Definition rxc1 : chan :=
  {| r_desc := [rdesc 0x1040; rdesc 0x2040]; r_cur := 0; r_irq := 0; r_ctl := 6; r_rst := 0; r_lat := 1;
     r_ro := 0x80000008; r_pins := 0; r_log := [] |}.
Definition rskb (data : Z) : sk_buff :=
  {| sk_head := data; sk_data := data + 66; sk_tail := data + 66; sk_end := data + 1600; sk_len := 0 |}.
Definition kern1 : kern :=
  {| heap := {[ 16 := rskb 0x80001000; 32 := rskb 0x80002000 ]};
     maps := {[+ (0x1040, 1516, DMA_FROM_DEVICE); (0x2040, 1516, DMA_FROM_DEVICE) +]};
     pool := [Some (48, 0x80003000); None]; kz := []; queue_stopped := false; napi_sched := true;
     napi_disable_pending := false; tasklet_scheduled := false; delivered := []; freed := [] |}.
Definition world1 : world :=
  {| w_config := eth0_config; w_mtu := 1500;
     w_rx := {| rx_skbs := Some [16; 32]; rx_skb_phys := Some [0x1040; 0x2040]; rx_buf_len := 1516;
                rx_align := 0; rx_ring_length := 2; rx_ring_mask := 1; rx_pos := 0 |};
     w_tx := {| tx_skbs := None; tx_skb_phys := None; tx_ring_length := 2; tx_ring_mask := 1;
                tx_insert := 0; tx_remove := 0; tx_queued := 0 |};
     w_rxc := rxc1; w_txc := rxc1; w_k := kern1 |}.
Lemma rxc1_ok : chan_ok rxc1.
Proof.
  constructor; [done..| |]; intros i Hi;
    (assert (i = 0 ∨ i = 1 ∨ i = 2 ∨ i = 3) as [-> |[-> |[-> | ->]]] by lia); done.
Qed.
Lemma world1_inv : rx_inv 1 world1 [] ∅.
Proof.
  constructor; [|by constructor; [simpl; lia|left|]|constructor].
  exists [16; 32], [0x1040; 0x2040]. split_and!.
  - constructor; simpl; try done; try apply rxc1_ok. intros k Hk.
    assert (k = 0 ∨ k = 1)%nat as [-> | ->] by lia; eexists; (split_and!; [reflexivity..|]); done.
  - apply NoDup_cons. split; [set_solver|apply NoDup_singleton].
  - repeat constructor; eexists; (split_and!; [reflexivity| |reflexivity]); constructor; by vm_compute.
  - intros _. simpl. multiset_solver.
Qed.

(** C7: the poll routine terminates, whatever arrives while it runs, without
    tripping a BUG_ON or overrunning a buffer.  It takes packets in the order
    the device finished them, gives the stack exactly the good ones for which a
    new buffer was found (all of them, while the allocator has buffers), with
    their addresses and lengths, and counts them.  Below the budget it has
    drained the ring, given NAPI back and armed the interrupt; at the budget it
    keeps NAPI and touches neither. *)
Theorem yatse_rx_poll_spec b w pend M arrivals budget :
  rx_inv b w pend M → napi_sched (w_k w) = true → 0 < budget < 2 ^ 31 →
  Forall (Forall wire_event) arrivals →
  ∃ w' received pend' arrived consumed oks,
    yatse_rx_poll (rx_poll_fuel w arrivals) w arrivals budget = Some (Ret (w', received)) ∧
    rx_inv b w' pend' M ∧
    pend ++ arrived = consumed ++ pend' ∧ r_log (w_rxc w') = r_log (w_rxc w) ++ arrived ∧
    delivered (w_k w') = delivered (w_k w) ++ rx_expected (w_mtu w) consumed oks ∧
    received = alen (rx_expected (w_mtu w) consumed oks) ∧ received ≤ budget ∧
    (pool_fresh w (goods (w_mtu w) consumed) →
       rx_expected (w_mtu w) consumed oks = rx_frame <$> filter (λ d, good (w_mtu w) d = true) consumed) ∧
    (received < budget → pend' = [] ∧ napi_sched (w_k w') = false ∧
       int_enabled (w_rxc w') = true ∧ irq_line (w_rxc w') = false) ∧
    (received = budget → napi_sched (w_k w') = true ∧ r_ctl (w_rxc w') = r_ctl (w_rxc w)).
Proof.
  intros H Hn Hb Hw.
  destruct (rx_poll_total b w pend budget M Hn Hb arrivals H Hw)
    as (r & E & w' & received & pend' & arrived & consumed & oks & -> & Hs & Hend).
  exists w', received, pend', arrived, consumed, oks. destruct Hs. split_and!; try done.
  - intros Hf. apply rx_expected_all; [done|]. destruct (ps_pool0 _ Hf) as [Hall _]; [lia|done].
  - intros Hlt. destruct Hend as [[-> _]|[_ (Hn' & -> & Hie)]]; [lia|].
    destruct (rv_ring ps_inv0) as (l & lp & Hr & _).
    rewrite irq_line_ok, (rg_irq Hr), andb_false_r by apply Hr. done.
  - intros ->. destruct Hend as [[_ Hg]|[? _]]; [done|lia].
Qed.
Definition arrivals1 : list (list rx_event) :=
  [[RxFrame {| f_len := 66; f_err := 0 |}; RxIrq];
   [RxFrame {| f_len := 100; f_err := 4 |}; RxFrame {| f_len := 80; f_err := 0 |}]].
Lemma yatse_rx_poll_witness :
  ∃ w' received pend', yatse_rx_poll (rx_poll_fuel world1 arrivals1) world1 arrivals1 64 = Some (Ret (w', received)) ∧
    rx_inv 1 w' pend' ∅ ∧ received ≤ 64.
Proof.
  destruct (yatse_rx_poll_spec 1 world1 [] ∅ arrivals1 64)
    as (w' & received & pend' & arrived & consumed & oks & E & Hi & _ & _ & _ & _ & Hle & _).
  - exact world1_inv.
  - reflexivity.
  - lia.
  - repeat constructor; by vm_compute.
  - exists w', received, pend'. split_and!; [exact E|exact Hi|exact Hle].
Defined.
(** The first frame is delivered, the second has an error, and no buffer is
    found to replace the third. *)
Example arrivals1_delivered :
  match yatse_rx_poll (rx_poll_fuel world1 arrivals1) world1 arrivals1 64 with
  | Some (Ret (w, n)) => (n, delivered (w_k w)) = (1, [(0x80001050, 50)])
  | _ => False
  end.
Proof. vm_compute. reflexivity. Qed.

(** No frame is forgotten between two polls.  With the ring drained, NAPI
    idle and the interrupt armed, the next frame raises the interrupt, and the
    handler schedules the poll and silences the interrupt. *)
Theorem yatse_rx_isr_schedules b w M f :
  rx_inv b w [] M → napi_sched (w_k w) = false → napi_disable_pending (w_k w) = false →
  int_enabled (w_rxc w) = true → wire_frame f →
  let w1 := rx_exec w (RxFrame f) in
  irq_line (w_rxc w) = false ∧ irq_line (w_rxc w1) = true ∧
  ∃ w2 d, yatse_rx_isr w1 = (w2, true) ∧ rx_inv b w2 [d] M ∧ napi_sched (w_k w2) = true ∧
    irq_line (w_rxc w2) = false.
Proof.
  intros H Hn Hd Hie Hf w1. destruct (rv_ring H) as (l & lp & Hr & Hrest). pose proof (rg_pow Hr).
  destruct (rx_ring_frame b _ _ _ _ _ _ f Hr) as (d & Hwd & Hlog & Hctl & Hr');
    [unfold alen; simpl; lia|apply (rv_sizes H)|done|]. simpl in Hr'.
  pose proof (rg_chan Hr') as Hc'. subst w1. simpl.
  split_and!.
  - by rewrite irq_line_ok, (rg_irq Hr), andb_false_r by apply Hr.
  - rewrite irq_line_ok, (rg_irq Hr') by done. unfold int_enabled in *. by rewrite Hctl, Hie.
  - unfold yatse_rx_isr, readl_rcontrol. cbn [w_rxc set_rxc]. rewrite (ctl_read_idle _ Hc').
    change YATSE_CSR_IS with (1 .<< 3). rewrite land_bit, ctl_word_status, (rg_irq Hr') by (done || lia).
    cbn [negb Z.eqb alen]. unfold napi_schedule_prep. cbn [w_k set_rxc]. rewrite Hd, Hn. cbn [negb].
    change YATSE_CSR_IE with 4. cbn [w_rxc set_rxc set_k]. rewrite (ctl_read_idle _ Hc').
    cbn [w_rxc set_rxc set_k]. destruct (int_off _ Hc') as (Hok & Hoff & v & Ev). rewrite Ev in *.
    eexists _, d. split; [reflexivity|]. split_and!; [|done|].
    + constructor; simpl; [|by destruct (rv_sizes H); constructor|by constructor].
      exists l, lp. split; [|done]. destruct Hr'. by constructor.
    + cbn [w_rxc set_rxc]. by rewrite irq_line_ok, Hoff.
Qed.
Definition world1_idle : world := set_k world1 (set_napi kern1 false false).
Lemma yatse_rx_isr_witness :
  ∃ w2 d, yatse_rx_isr (rx_exec world1_idle (RxFrame {| f_len := 66; f_err := 0 |})) = (w2, true) ∧
    rx_inv 1 w2 [d] ∅ ∧ napi_sched (w_k w2) = true.
Proof.
  destruct (yatse_rx_isr_schedules 1 world1_idle ∅ {| f_len := 66; f_err := 0 |}) as (_ & _ & w2 & d & E & Hi & Hn & _).
  - destruct world1_inv as [Hr Hs Hp]. constructor; [exact Hr| |exact Hp]. destruct Hs. by constructor.
  - reflexivity.
  - reflexivity.
  - reflexivity.
  - by vm_compute.
  - exists w2, d. split_and!; [exact E|exact Hi|exact Hn].
Defined.

(** yatse_rx_alloc_skb fails or returns a new, empty buffer with room for a
    full frame after the padding, whose DMA address (two bytes before the data)
    is aligned as configured; other buffers are untouched. *)
Theorem yatse_rx_alloc_skb_spec w :
  rx_sizes (w_rx w) (w_mtu w) →
  ∃ w' skb, yatse_rx_alloc_skb w = Ret (w', skb) ∧ maps (w_k w') = maps (w_k w) ∧
    (skb = 0 → heap (w_k w') = heap (w_k w)) ∧
    (skb ≠ 0 → ∃ sk, heap (w_k w) !! skb = None ∧ heap (w_k w') = <[skb := sk]> (heap (w_k w)) ∧
       sk_len sk = 0 ∧ sk_data sk = sk_tail sk ∧
       sk_data sk - NET_IP_ALIGN + rx_bytes w ≤ sk_end sk ≤ 0xa0000000 ∧
       (rx_align (w_rx w) ≠ 0 → (sk_data sk - NET_IP_ALIGN) `mod` rx_align (w_rx w) = 0)).
Proof.
  intros Hs. destruct (rx_alloc_skb_cases w Hs) as (h & skb & -> & Hcase & _).
  eexists _, skb. split; [reflexivity|]. split; [done|]. simpl.
  destruct Hcase as [[-> ->]|(Hskb & Hnone & sk & -> & [? ? ? ? ?] & Hal)]; [done|].
  split; [done|]. intros _. exists sk. unfold rx_bytes. split_and!; try done. lia.
Qed.
Lemma yatse_rx_alloc_skb_witness :
  ∃ w' skb, yatse_rx_alloc_skb world1 = Ret (w', skb) ∧ maps (w_k w') = maps (w_k world1).
Proof.
  destruct (yatse_rx_alloc_skb_spec world1) as (w' & skb & E & Hm & _).
  - constructor; [simpl; lia|by left|reflexivity].
  - exists w', skb. split; [exact E|exact Hm].
Defined.
End YatseRx.
