(* ===== verification/YatseDma.v ===== *)
(** * YatseDma: bringing the DMA rings up and down (drivers/net/yatse/yatse_dma.c)

    Reset of the engine, [yatse_dma_init] with every error path, and
    [yatse_dma_free], which it calls when it fails. *)

From stdpp Require Import gmultiset.
From S2P Require Import Prelude EthDma YatseMac YatseNet YatseTx YatseRx.
Import EthDma YatseMac YatseNet YatseTx YatseRx.

Module YatseDma.

Definition ENOMEM : Z := 12.

(** ** yatse_dma_reset *)
Definition in_reset_now (w : world) : world * bool :=
  let '(w, v) := readl_rcontrol w in
  if truthy (v .& YATSE_CSR_RXRST) then (w, true) else
  let '(w, v) := readl_tcontrol w in (w, truthy (v .& YATSE_CSR_RXRST)).
Definition dma_reset_step (st : world * Z) : (world * Z) + (world * Z) :=
  let '(w, tries) := st in
  let '(w, pending) := in_reset_now w in
  if pending then
    let tries := tries - 1 in
    if tries =? 0 then inr (w, - EAGAIN) else inl (w, tries)
  else inr (w, 0).
Definition yatse_dma_reset (w : world) : option (world * Z) :=
  let w := set_rxc w (ctl_write (w_rxc w) YATSE_CSR_RXRST) in
  let w := set_txc w (ctl_write (w_txc w) YATSE_CSR_RXRST) in
  loop 100 dma_reset_step (w, 100).
Definition yatse_dma_stop (w : world) : option world := fst <$> yatse_dma_reset w.

(** ** yatse_dma_free *)
Definition rx_free_one (w : world) (i : Z) : outcome world :=
  skb ← deref (rx_skbs (w_rx w) ≫= λ l, aget l i);
  if skb =? 0 then Ret w else
  phys ← deref (rx_skb_phys (w_rx w) ≫= λ l, aget l i);
  k ← dev_kfree_skb (dma_unmap_single (w_k w) phys (rx_buf_len (w_rx w)) DMA_FROM_DEVICE) skb;
  Ret (set_k w k).
Definition tx_free_one (w : world) (i : Z) : outcome world :=
  skb ← deref (tx_skbs (w_tx w) ≫= λ l, aget l i);
  if skb =? 0 then Ret w else
  phys ← deref (tx_skb_phys (w_tx w) ≫= λ l, aget l i);
  sk ← deref (heap (w_k w) !! skb);
  k ← dev_kfree_skb (dma_unmap_single (w_k w) phys (u32 (sk_len sk + NET_IP_ALIGN)) DMA_TO_DEVICE) skb;
  Ret (set_k w k).
(** [for(i = 0; i < n; i++)] *)
Fixpoint for_each (f : world → Z → outcome world) (todo : nat) (i : Z) (w : world) : outcome world :=
  match todo with
  | O => Ret w
  | S todo => w ← f w i; for_each f todo (i + 1) w
  end.
Definition yatse_dma_free (w : world) : outcome world :=
  w ← (match rx_skbs (w_rx w) with
       | Some _ => for_each rx_free_one (Z.to_nat (rx_ring_length (w_rx w))) 0 w
       | None => Ret w
       end);
  match tx_skbs (w_tx w) with
  | Some _ => for_each tx_free_one (Z.to_nat (tx_ring_length (w_tx w))) 0 w
  | None => Ret w
  end.

(** ** yatse_dma_init *)
Definition set_rx_arrays (r : rx_side) (skbs physs : option (list Z)) : rx_side :=
  {| rx_skbs := skbs; rx_skb_phys := physs; rx_buf_len := rx_buf_len r; rx_align := rx_align r;
     rx_ring_length := rx_ring_length r; rx_ring_mask := rx_ring_mask r; rx_pos := rx_pos r |}.
Definition set_rx_pos (r : rx_side) (pos : Z) : rx_side :=
  {| rx_skbs := rx_skbs r; rx_skb_phys := rx_skb_phys r; rx_buf_len := rx_buf_len r; rx_align := rx_align r;
     rx_ring_length := rx_ring_length r; rx_ring_mask := rx_ring_mask r; rx_pos := pos |}.
Definition set_tx_arrays (t : tx_side) (skbs physs : option (list Z)) : tx_side :=
  {| tx_skbs := skbs; tx_skb_phys := physs; tx_ring_length := tx_ring_length t; tx_ring_mask := tx_ring_mask t;
     tx_insert := tx_insert t; tx_remove := tx_remove t; tx_queued := tx_queued t |}.

(** The sizes and positions set before anything is allocated. *)
Definition init_sizes (w : world) : world :=
  let w := set_rx w {| rx_skbs := rx_skbs (w_rx w); rx_skb_phys := rx_skb_phys (w_rx w);
    rx_buf_len := s32 (cfg_rx_align (w_config w) + NET_IP_ALIGN + ETH_HLEN + max_mtu (w_config w));
    rx_align := cfg_rx_align (w_config w); rx_ring_length := rx_ring_length (w_rx w);
    rx_ring_mask := rx_ring_mask (w_rx w); rx_pos := rx_pos (w_rx w) |} in
  set_tx w {| tx_skbs := tx_skbs (w_tx w); tx_skb_phys := tx_skb_phys (w_tx w);
    tx_ring_length := tx_ring_length (w_tx w); tx_ring_mask := tx_ring_mask (w_tx w);
    tx_insert := 0; tx_remove := 0; tx_queued := tx_queued (w_tx w) |}.

(** One slot of the receive ring: the state and 0, or -ENOMEM. *)
Definition rx_fill_one (w : world) (i : Z) : outcome (world * Z) :=
  let w := set_rx w (set_rx_pos (w_rx w) i) in
  '(w, skb) ← yatse_rx_alloc_skb w;
  skbs ← deref (rx_skbs (w_rx w) ≫= λ l, aset l i skb);
  let w := set_rx w (set_rx_arrays (w_rx w) (Some skbs) (rx_skb_phys (w_rx w))) in
  if skb =? 0 then Ret (w, - ENOMEM) else
  sk ← deref (heap (w_k w) !! skb);
  let '(k, phys) := dma_map_single (w_k w) (sk_data sk - NET_IP_ALIGN) (rx_bytes w) DMA_FROM_DEVICE in
  physs ← deref (rx_skb_phys (w_rx w) ≫= λ l, aset l i phys);
  let w := set_k (set_rx w (set_rx_arrays (w_rx w) (rx_skbs (w_rx w)) (Some physs))) k in
  _ ← BUG_ON (dma_mapping_error phys);
  w ← yatse_rx_insert_skb w phys;
  Ret (w, 0).
Fixpoint rx_fill (todo : nat) (i : Z) (w : world) : outcome (world * Z) :=
  match todo with
  | O => Ret (w, 0)
  | S todo =>
      '(w, ret) ← rx_fill_one w i;
      if ret =? 0 then rx_fill todo (i + 1) w else Ret (w, ret)
  end.
Definition tx_clear_one (w : world) (i : Z) : outcome world :=
  d ← desc_at (w_txc w) i;
  c ← desc_put (w_txc w) i {| d_addr := d_addr d; d_len := d_len d; d_error := d_error d; d_status := 0 |};
  Ret (set_txc w c).

(** The transmit arrays and descriptors. *)
Definition init_alloc_tx (w : world) : outcome (world * Z) :=
  let w := set_rx w (set_rx_pos (w_rx w) 0) in
  let '(k, skbs) := kzalloc (w_k w) (tx_ring_length (w_tx w)) in
  let w := set_k (set_tx w (set_tx_arrays (w_tx w) skbs (tx_skb_phys (w_tx w)))) k in
  if bool_decide (skbs = None) then Ret (w, - ENOMEM) else
  let '(k, physs) := kzalloc (w_k w) (tx_ring_length (w_tx w)) in
  let w := set_k (set_tx w (set_tx_arrays (w_tx w) (tx_skbs (w_tx w)) physs)) k in
  if bool_decide (physs = None) then Ret (w, - ENOMEM) else
  w ← for_each tx_clear_one (Z.to_nat (tx_ring_length (w_tx w))) 0 w;
  Ret (w, 0).

(** Up to the point where the engine is started; a non-zero result goes to
    the label out. *)
Definition init_alloc (w : world) : outcome (world * Z) :=
  let w := init_sizes w in
  _ ← BUG_ON (truthy (rx_ring_length (w_rx w) .& rx_ring_mask (w_rx w)));
  _ ← BUG_ON (truthy (tx_ring_length (w_tx w) .& tx_ring_mask (w_tx w)));
  let '(k, skbs) := kzalloc (w_k w) (rx_ring_length (w_rx w)) in
  let w := set_k (set_rx w (set_rx_arrays (w_rx w) skbs (rx_skb_phys (w_rx w)))) k in
  if bool_decide (skbs = None) then Ret (w, - ENOMEM) else
  let '(k, physs) := kzalloc (w_k w) (rx_ring_length (w_rx w)) in
  let w := set_k (set_rx w (set_rx_arrays (w_rx w) (rx_skbs (w_rx w)) physs)) k in
  if bool_decide (physs = None) then Ret (w, - ENOMEM) else
  '(w, ret) ← rx_fill (Z.to_nat (rx_ring_length (w_rx w))) 0 w;
  if negb (ret =? 0) then Ret (w, ret) else init_alloc_tx w.
Definition init_start (w : world) : world :=
  let w := set_rxc w (ctl_write (w_rxc w) (YATSE_CSR_ENA .| YATSE_CSR_IE)) in
  set_txc w (ctl_write (w_txc w) (YATSE_CSR_ENA .| YATSE_CSR_IE)).
Definition yatse_dma_init (w : world) : outcome (world * Z) :=
  let w := set_rx w (set_rx_arrays (w_rx w) None None) in
  let w := set_tx w (set_tx_arrays (w_tx w) None None) in
  '(w, ret) ← deref (yatse_dma_reset w);
  '(w, ret) ← (if ret =? 0 then init_alloc w else Ret (w, ret));
  if ret =? 0 then Ret (init_start w, 0) else
  w ← yatse_dma_free w;
  Ret (w, ret).

(** ** Reset *)
Definition reset_chan (c : chan) (left_reads : nat) : chan :=
  {| r_desc := r_desc c; r_cur := 0; r_irq := 0; r_ctl := 0; r_rst := left_reads; r_lat := r_lat c;
     r_ro := r_ro c; r_pins := r_pins c; r_log := r_log c |}.
Definition after_reset (w : world) (r t : nat) : world :=
  set_txc (set_rxc w (reset_chan (w_rxc w) r)) (reset_chan (w_txc w) t).
(** The wiring of the design: status bit read-only, other inputs above it. *)
Record wired (c : chan) : Prop := {
  wi_ro i : 0 ≤ i ≤ 3 → Z.testbit (r_ro c) i = (i =? 3);
  wi_pins i : 0 ≤ i ≤ 3 → Z.testbit (r_pins c) i = false;
}.

Section reset.

Lemma reset_bit c n :
  wired c → truthy (ctl_word (reset_chan c n) .& YATSE_CSR_RXRST) = match n with O => false | S _ => true end.
Proof.
  intros [_ Hp]. change YATSE_CSR_RXRST with (1 .<< 0). rewrite land_bit by lia. destruct n; [|done].
  unfold ctl_word, reset_chan. cbn [r_rst r_ctl r_pins r_irq r_ro Z.eqb].
  rewrite Z.land_0_l, Z.lor_0_r, Z.lor_0_l. apply Hp. lia.
Qed.
Lemma in_reset_now_spec w r t :
  wired (w_rxc w) → wired (w_txc w) →
  in_reset_now (after_reset w r t) =
    match r, t with
    | S r', _ => (after_reset w r' t, true)
    | O, S t' => (after_reset w 0 t', true)
    | O, O => (after_reset w 0 0, false)
    end.
Proof.
  intros Hr Ht. unfold in_reset_now, readl_rcontrol, readl_tcontrol, ctl_read. cbn [w_rxc after_reset set_txc set_rxc].
  rewrite reset_bit by done. destruct r as [|r]; [|done]. cbn [w_txc set_rxc set_txc].
  change (w_txc (after_reset w 0 t)) with (reset_chan (w_txc w) t).
  rewrite reset_bit by done. by destruct t.
Qed.

Lemma dma_reset_loop w fuel r t tries :
  wired (w_rxc w) → wired (w_txc w) → 0 < tries ≤ Z.of_nat fuel →
  ∃ r' t' ret, loop fuel dma_reset_step (after_reset w r t, tries) = Some (after_reset w r' t', ret) ∧
    if (Z.of_nat (r + t) <? tries) then ret = 0 ∧ r' = 0%nat ∧ t' = 0%nat else ret = - EAGAIN.
Proof.
  intros Hr Ht. revert r t tries. induction fuel as [|fuel IH]; intros r t tries Hf; [lia|].
  cbn [loop]. unfold dma_reset_step at 1. rewrite in_reset_now_spec by done.
  assert (∀ r' t', (S (r' + t') = r + t)%nat → ∃ r1 t1 ret,
    match (if tries - 1 =? 0 then inr (after_reset w r' t', - EAGAIN) else inl (after_reset w r' t', tries - 1)) with
    | inl s => loop fuel dma_reset_step s
    | inr x => Some x
    end = Some (after_reset w r1 t1, ret) ∧
    if (Z.of_nat (r + t) <? tries) then ret = 0 ∧ r1 = 0%nat ∧ t1 = 0%nat else ret = - EAGAIN) as Hgo.
  { intros r' t' E. destruct (Z.eqb_spec (tries - 1) 0).
    - exists r', t', (- EAGAIN). split; [done|]. by rewrite (proj2 (Z.ltb_ge _ _)) by lia.
    - destruct (IH r' t' (tries - 1)) as (r1 & t1 & ret & E1 & Hret); [lia|]. exists r1, t1, ret.
      split; [exact E1|]. by replace (Z.of_nat (r + t) <? tries) with (Z.of_nat (r' + t') <? tries - 1)
        by (destruct (Z.ltb_spec (Z.of_nat (r' + t')) (tries - 1)), (Z.ltb_spec (Z.of_nat (r + t)) tries); lia || done). }
  destruct r as [|r]; [destruct t as [|t]|]; [|apply Hgo; lia..].
  exists 0%nat, 0%nat, 0. split; [done|]. by rewrite (proj2 (Z.ltb_lt _ _)) by lia.
Qed.

Lemma dma_reset_cases w :
  wired (w_rxc w) → wired (w_txc w) →
  ∃ r t ret, yatse_dma_reset w = Some (after_reset w r t, ret) ∧
    if (Z.of_nat (r_lat (w_rxc w) + r_lat (w_txc w)) <? 100) then ret = 0 ∧ r = 0%nat ∧ t = 0%nat else ret = - EAGAIN.
Proof. intros Hr Ht. apply (dma_reset_loop w 100 (r_lat (w_rxc w)) (r_lat (w_txc w)) 100); [done..|lia]. Qed.
End reset.

(** ** Filling the receive ring *)
Definition undo (h : gmap Z sk_buff) (ss : list Z) : gmap Z sk_buff := foldr delete h ss.
Lemma undo_delete h ss s : undo (delete s h) ss = delete s (undo h ss).
Proof. induction ss as [|x ss IH]; [done|]. simpl. by rewrite IH, delete_delete. Qed.
Lemma undo_snoc h ss s : undo h (ss ++ [s]) = undo (delete s h) ss.
Proof. unfold undo. by rewrite foldr_app. Qed.
Lemma undo_lookup h ss s : (s ∉ ss) → undo h ss !! s = h !! s.
Proof.
  induction ss as [|x ss IH]; intros Hs; [done|]. simpl. rewrite lookup_delete_ne by set_solver. apply IH. set_solver.
Qed.

(** The ring after [i] slots: buffers [ss] mapped at [ps]; the heap and the
    mappings are the initial ones ([h0], [M0]) and these. *)
Record filled (b : Z) (w : world) (h0 : gmap Z sk_buff) (M0 : gmultiset (Z * Z * dma_dir))
    (ss ps : list Z) : Prop := {
  fi_b : 0 ≤ b < 30;
  fi_n : rx_ring_length (w_rx w) = 2 ^ b;
  fi_le : alen ss ≤ 2 ^ b;
  fi_skbs : rx_skbs (w_rx w) = Some (ss ++ replicate (Z.to_nat (2 ^ b) - length ss) 0);
  fi_phys : rx_skb_phys (w_rx w) = Some (ps ++ replicate (Z.to_nat (2 ^ b) - length ps) 0);
  fi_live : Forall2 (rx_live (w_mtu w) (heap (w_k w))) ss ps;
  fi_nodup : NoDup ss;
  fi_nonzero : Forall (λ s, s ≠ 0) ss;
  fi_heap : undo (heap (w_k w)) ss = h0;
  fi_maps : maps (w_k w) = list_to_set_disj (rx_map w <$> ps) ⊎ M0;
  fi_desc : alen (r_desc (w_rxc w)) = 2 ^ b;
  fi_ready (k : nat) p : ps !! k = Some p →
    ∃ d, r_desc (w_rxc w) !! k = Some d ∧ d_addr d = p ∧ fresh_desc (w_mtu w) d;
}.
Arguments fi_b {b w h0 M0 ss ps} _.
Arguments fi_n {b w h0 M0 ss ps} _.
Arguments fi_le {b w h0 M0 ss ps} _.
Arguments fi_skbs {b w h0 M0 ss ps} _.
Arguments fi_phys {b w h0 M0 ss ps} _.
Arguments fi_live {b w h0 M0 ss ps} _.
Arguments fi_nodup {b w h0 M0 ss ps} _.
Arguments fi_nonzero {b w h0 M0 ss ps} _.
Arguments fi_heap {b w h0 M0 ss ps} _.
Arguments fi_maps {b w h0 M0 ss ps} _.
Arguments fi_desc {b w h0 M0 ss ps} _.
Arguments fi_ready {b w h0 M0 ss ps} _ k p _.

(** What filling leaves alone. *)
Record fill_same (w w' : world) : Prop := {
  fs_tx : w_tx w' = w_tx w;
  fs_txc : w_txc w' = w_txc w;
  fs_mtu : w_mtu w' = w_mtu w;
  fs_len : rx_buf_len (w_rx w') = rx_buf_len (w_rx w);
  fs_align : rx_align (w_rx w') = rx_align (w_rx w);
  fs_n : rx_ring_length (w_rx w') = rx_ring_length (w_rx w);
  fs_mask : rx_ring_mask (w_rx w') = rx_ring_mask (w_rx w);
  fs_cur : r_cur (w_rxc w') = r_cur (w_rxc w);
  fs_irq : r_irq (w_rxc w') = r_irq (w_rxc w);
  fs_ctl : r_ctl (w_rxc w') = r_ctl (w_rxc w);
  fs_rst : r_rst (w_rxc w') = r_rst (w_rxc w);
  fs_ro : r_ro (w_rxc w') = r_ro (w_rxc w);
  fs_pins : r_pins (w_rxc w') = r_pins (w_rxc w);
  fs_kz : kz (w_k w') = kz (w_k w);
  fs_napi : napi_sched (w_k w') = napi_sched (w_k w);
}.
Lemma fill_same_refl w : fill_same w w. Proof. by constructor. Qed.
Lemma fill_same_trans w1 w2 w3 : fill_same w1 w2 → fill_same w2 w3 → fill_same w1 w3.
Proof. intros [] []. constructor; congruence. Qed.

Section fill.
Context (b : Z) (h0 : gmap Z sk_buff) (M0 : gmultiset (Z * Z * dma_dir)).
Implicit Types (w : world) (ss ps : list Z).

Lemma aset_next (xs : list Z) n x :
  (length xs < n)%nat →
  aset (xs ++ replicate (n - length xs) 0) (alen xs) x = Some ((xs ++ [x]) ++ replicate (n - length (xs ++ [x])) 0).
Proof.
  intros Hlt. rewrite aset_Some by (unfold alen; rewrite length_app, length_replicate; lia). f_equal.
  unfold alen. rewrite Nat2Z.id, length_app. simpl.
  replace (n - length xs)%nat with (S (n - (length xs + 1))) by lia. simpl.
  rewrite insert_app_r_alt, Nat.sub_diag by lia. simpl. by rewrite <-app_assoc.
Qed.

Lemma rx_fill_one_spec w ss ps :
  filled b w h0 M0 ss ps → rx_sizes (w_rx w) (w_mtu w) → alen ss < 2 ^ b →
  ∃ w' ret, rx_fill_one w (alen ss) = Ret (w', ret) ∧ fill_same w w' ∧
    (ret = - ENOMEM ∧ filled b w' h0 M0 ss ps ∨
     ret = 0 ∧ ∃ s p, filled b w' h0 M0 (ss ++ [s]) (ps ++ [p])) ∧
    ∀ m, pool_fresh w (S m) → ret = 0 ∧ pool_fresh w' m.
Proof.
  intros H Hs Hlt. pose proof (fi_b H). assert (0 < 2 ^ b) by lia.
  pose proof (Forall2_length _ _ _ (fi_live H)) as Hlen.
  assert (alen ss = alen ps) as Hal by (unfold alen; lia). assert (length ss < Z.to_nat (2 ^ b))%nat by (unfold alen in *; lia).
  set (w1 := set_rx w (set_rx_pos (w_rx w) (alen ss))).
  destruct (rx_alloc_skb_cases w1) as (h & skb & Ea & Hcase & Huse).
  { destruct Hs. by constructor. }
  unfold rx_fill_one. fold w1. rewrite Ea. cbn [mbind outcome_bind]. cbn [w_rx set_k set_rx_pos rx_skbs w1 set_rx].
  rewrite (fi_skbs H). cbn [mbind option_bind]. rewrite aset_next by lia. cbn [deref].
  destruct Hcase as [[-> ->]|(Hskb & Hnone & sk & -> & Hready & _)].
  - eexists _, _. split; [reflexivity|]. split; [by constructor|]. split.
    + left. split; [done|]. destruct H. constructor; simpl; try done.
      f_equal. rewrite length_app, <-app_assoc. f_equal. simpl.
      replace (Z.to_nat (2 ^ b) - length ss)%nat with (S (Z.to_nat (2 ^ b) - (length ss + 1))) by lia. done.
    + intros m Hf. destruct (pool_fresh_head _ _ Hf) as (s0 & d0 & Hh & Hs0 & Hu). exfalso.
      apply Hs0. symmetry. by apply (Huse s0 d0).
  - rewrite (proj2 (Z.eqb_neq _ _)) by done. cbn [w_k set_rx set_k set_pool heap]. rewrite lookup_insert_eq.
    cbn [deref dma_map_single]. cbn [w_rx set_rx set_k set_rx_arrays rx_skb_phys set_rx_pos]. rewrite (fi_phys H).
    cbn [mbind option_bind outcome_bind]. rewrite Hal, aset_next by lia. cbn [deref mbind outcome_bind BUG_ON dma_mapping_error].
    set (p := virt_to_phys (sk_data sk - NET_IP_ALIGN)).
    unfold yatse_rx_insert_skb. cbn [w_rx set_rx set_k set_rx_arrays rx_pos set_rx_pos w_rxc].
    pose proof (alen_nonneg ps). change (w_rxc w1) with (w_rxc w). rewrite desc_put_Ret by (rewrite (fi_desc H); lia).
    cbn [mbind outcome_bind]. eexists _, 0. split; [reflexivity|]. split; [by constructor|].
    split; [right; split; [done|]|].
    2: { intros m Hf. split; [done|]. destruct (pool_fresh_head _ _ Hf) as (s0 & d0 & Hh & Hs0 & Hu).
         assert (skb = s0) as -> by by apply (Huse s0 d0). simpl. eapply (pool_fresh_tail w _ m s0 d0 Hf Hh); try done.
         simpl. intros x Hx Hnx. by rewrite lookup_insert_ne. }
    exists skb, p. change (w_k w1) with (w_k w) in *. change (w_mtu w1) with (w_mtu w) in *.
    assert (skb ∉ ss) as Hnin.
    { intros Hin. apply list_elem_of_lookup_1 in Hin as [i Hi].
      destruct (Forall2_lookup_l _ _ _ _ _ (fi_live H) Hi) as (y & _ & sk' & Hsk' & _). congruence. }
    constructor; simpl; try by apply H.
    + rewrite alen_app. unfold alen in *. simpl. lia.
    + done.
    + done.
    + apply Forall2_app.
      * eapply Forall2_impl; [apply (fi_live H)|]. intros x y (skx & Hx & Hrest). exists skx. split; [|done].
        rewrite lookup_insert_ne; [done|]. intros ->. congruence.
      * constructor; [|done]. exists sk. by rewrite lookup_insert_eq.
    + apply NoDup_app. split_and!; [apply H| |apply NoDup_singleton]. intros x Hx ->%list_elem_of_singleton. done.
    + apply Forall_app. split; [apply H|]. by constructor.
    + rewrite undo_snoc, delete_insert_id by done. apply H.
    + rewrite (fi_maps H), fmap_app, list_to_set_disj_app. simpl. unfold rx_map, rx_bytes. simpl. multiset_solver.
    + unfold alen. rewrite length_insert. apply H.
    + intros k q Hk. unfold alen. rewrite Nat2Z.id. destruct (decide (k < length ps)%nat).
      * rewrite lookup_app_l in Hk by done. rewrite list_lookup_insert_ne by lia. by apply (fi_ready H).
      * rewrite lookup_app_r in Hk by lia. apply list_lookup_singleton_Some in Hk as [Hk <-].
        assert (k = length ps) as -> by lia. pose proof (fi_desc H). unfold alen in *.
        rewrite list_lookup_insert_eq by lia. eexists. split_and!; [done..|]. split_and!; [done..|].
        simpl. apply u16_small. destruct Hs. unfold rx_bytes, NET_IP_ALIGN, ETH_HLEN. simpl. lia.
Qed.

Lemma fill_same_sizes w w' : fill_same w w' → rx_sizes (w_rx w) (w_mtu w) → rx_sizes (w_rx w') (w_mtu w').
Proof.
  intros [] [? Hal ?]. constructor; [congruence| |congruence]. unfold align_ok in *. by rewrite fs_align0.
Qed.

Lemma rx_fill_spec todo w ss ps :
  filled b w h0 M0 ss ps → rx_sizes (w_rx w) (w_mtu w) → Z.of_nat todo + alen ss = 2 ^ b →
  ∃ w' ret ss' ps', rx_fill todo (alen ss) w = Ret (w', ret) ∧ fill_same w w' ∧ filled b w' h0 M0 ss' ps' ∧
    (ret = 0 ∧ alen ss' = 2 ^ b ∨ ret = - ENOMEM) ∧ (pool_fresh w todo → ret = 0).
Proof.
  revert w ss ps. induction todo as [|todo IH]; intros w ss ps H Hs Ht.
  { exists w, 0, ss, ps. split_and!; [done|apply fill_same_refl|done|left; split; [done|lia]|done]. }
  destruct (rx_fill_one_spec w ss ps H Hs) as (w1 & ret & E & Hsame & Hcase & Hpool); [lia|].
  cbn [rx_fill]. rewrite E. cbn [mbind outcome_bind]. destruct Hcase as [[-> Hf]|[-> (s & p & Hf)]].
  - exists w1, (- ENOMEM), ss, ps. split_and!; [done|done|done|by right|]. intros Hp. by destruct (Hpool _ Hp).
  - cbn [Z.eqb]. destruct (IH w1 (ss ++ [s]) (ps ++ [p]) Hf) as (w2 & ret & ss' & ps' & E2 & Hsame2 & Hf2 & Hc2 & Hp2).
    + by apply (fill_same_sizes w).
    + rewrite alen_app. unfold alen in *. simpl. lia.
    + exists w2, ret, ss', ps'. rewrite alen_app in E2. split_and!; [exact E2| |done|done|].
      * by apply (fill_same_trans _ w1).
      * intros Hp. apply Hp2. by destruct (Hpool _ Hp).
Qed.

(** Freeing a (partly) filled ring gives everything back. *)
Record freeing w0 w ss ps : Prop := {
  fr_rx : w_rx w = w_rx w0;
  fr_tx : w_tx w = w_tx w0;
  fr_mtu : w_mtu w = w_mtu w0;
  fr_live s : s ∈ ss → is_Some (heap (w_k w) !! s);
  fr_heap : undo (heap (w_k w)) ss = h0;
  fr_maps : rx_buf_len (w_rx w0) = rx_bytes w0 → maps (w_k w) = list_to_set_disj (rx_map w0 <$> ps) ⊎ M0;
}.
Lemma rx_free_null w l i :
  rx_skbs (w_rx w) = Some l → aget l i = Some 0 → rx_free_one w i = Ret w.
Proof. intros Hl Hi. unfold rx_free_one. rewrite Hl. simpl. by rewrite Hi. Qed.
Lemma rx_free_live w l lp i s p sk :
  rx_skbs (w_rx w) = Some l → rx_skb_phys (w_rx w) = Some lp → aget l i = Some s → aget lp i = Some p →
  s ≠ 0 → heap (w_k w) !! s = Some sk →
  ∃ w', rx_free_one w i = Ret w' ∧ w_rx w' = w_rx w ∧ w_tx w' = w_tx w ∧ w_mtu w' = w_mtu w ∧
    heap (w_k w') = delete s (heap (w_k w)) ∧
    maps (w_k w') = maps (w_k w) ∖ {[+ (p, rx_buf_len (w_rx w), DMA_FROM_DEVICE) +]}.
Proof.
  intros Hl Hlp Hi Hpi Hs Hsk. unfold rx_free_one. rewrite Hl. simpl. rewrite Hi. simpl.
  rewrite (proj2 (Z.eqb_neq _ _)), Hlp by done. simpl. rewrite Hpi. simpl. unfold dev_kfree_skb. simpl.
  rewrite Hsk. simpl. eexists. split; [reflexivity|]. done.
Qed.
Lemma aget_middle (pre xs : list Z) x : aget (pre ++ x :: xs) (alen pre) = Some x.
Proof. unfold alen. rewrite aget_nat. by apply list_lookup_middle. Qed.
Lemma drop_one (x : Z * Z * dma_dir) (S M : gmultiset (Z * Z * dma_dir)) : ({[+ x +]} ⊎ S ⊎ M) ∖ {[+ x +]} = S ⊎ M.
Proof. multiset_solver. Qed.
Lemma rx_free_loop w0 pre preps ss ps n w :
  rx_skbs (w_rx w0) = Some (pre ++ ss ++ replicate n 0) → rx_skb_phys (w_rx w0) = Some (preps ++ ps ++ replicate n 0) →
  length pre = length preps → length ss = length ps → NoDup ss → Forall (λ s, s ≠ 0) ss →
  freeing w0 w ss ps →
  ∃ w', for_each rx_free_one (length ss + n) (alen pre) w = Ret w' ∧ freeing w0 w' [] [].
Proof.
  revert pre preps ps w. induction ss as [|s ss IH]; intros pre preps ps w Hl Hlp Hpre Hlen Hnd Hnz H.
  - destruct ps; [|done]. simpl in *. exists w. split; [|done].
    revert pre preps Hl Hlp Hpre. induction n as [|n IHn]; intros pre preps Hl Hlp Hpre; [done|]. simpl.
    rewrite (rx_free_null w (pre ++ replicate (S n) 0)) by (by rewrite ?(fr_rx _ _ _ _ H) || apply aget_middle).
    cbn [mbind outcome_bind].
    replace (alen pre + 1) with (alen (pre ++ [0])) by (rewrite alen_app; done).
    apply (IHn (pre ++ [0]) (preps ++ [0])); by rewrite <-?app_assoc, ?length_app, ?Hpre.
  - destruct ps as [|p ps]; [done|]. apply NoDup_cons in Hnd as [Hs Hnd]. apply Forall_cons in Hnz as [Hs0 Hnz].
    destruct (fr_live _ _ _ _ H s ltac:(set_solver)) as [sk Hsk].
    destruct (rx_free_live w (pre ++ (s :: ss) ++ replicate n 0) (preps ++ (p :: ps) ++ replicate n 0) (alen pre) s p sk)
      as (w2 & E2 & Hw1 & Hw2 & Hw3 & Hw4 & Hw5); [by rewrite (fr_rx _ _ _ _ H)..|apply aget_middle| |done|done|].
    { unfold alen. rewrite Hpre. apply aget_middle. }
    cbn [for_each length Nat.add]. rewrite E2. cbn [mbind outcome_bind].
    destruct (IH (pre ++ [s]) (preps ++ [p]) ps w2) as (w' & E & Hw').
    + by rewrite <-app_assoc.
    + by rewrite <-app_assoc.
    + rewrite !length_app. simpl. lia.
    + simpl in Hlen. lia.
    + done.
    + done.
    + destruct H. constructor; [congruence..| | |].
      * intros x Hx. rewrite Hw4, lookup_delete_ne by (intros ->; done). apply fr_live0. set_solver.
      * by rewrite Hw4, undo_delete.
      * intros Hb. rewrite Hw5, fr_rx0, (fr_maps0 Hb), Hb. simpl. apply drop_one.
    + exists w'. rewrite alen_app in E. split; [|done]. exact E.
Qed.
End fill.

(** ** Freeing *)
Lemma for_each_skip f todo i w :
  (∀ j, i ≤ j < i + Z.of_nat todo → f w j = Ret w) → for_each f todo i w = Ret w.
Proof.
  revert i. induction todo as [|todo IH]; intros i Hf; [done|]. simpl. rewrite Hf by lia. simpl.
  apply IH. intros j Hj. apply Hf. lia.
Qed.
Lemma aget_zeros n j : 0 ≤ j < Z.of_nat n → aget (replicate n 0) j = Some 0.
Proof. intros Hj. rewrite aget_to_nat by lia. apply lookup_replicate_2. lia. Qed.
Lemma rx_free_zeros w n :
  rx_skbs (w_rx w) = Some (replicate n 0) → for_each rx_free_one n 0 w = Ret w.
Proof.
  intros Hl. apply for_each_skip. intros j Hj. apply (rx_free_null _ _ _ Hl). apply aget_zeros. lia.
Qed.
Lemma tx_free_zeros w n :
  tx_skbs (w_tx w) = Some (replicate n 0) → for_each tx_free_one n 0 w = Ret w.
Proof.
  intros Hl. apply for_each_skip. intros j Hj. unfold tx_free_one. rewrite Hl. simpl.
  by rewrite aget_zeros by lia.
Qed.
Definition tx_unused (t : tx_side) : Prop :=
  tx_skbs t = None ∨ tx_skbs t = Some (replicate (Z.to_nat (tx_ring_length t)) 0).
Lemma tx_free_unused w :
  tx_unused (w_tx w) →
  match tx_skbs (w_tx w) with
  | Some _ => for_each tx_free_one (Z.to_nat (tx_ring_length (w_tx w))) 0 w
  | None => Ret w
  end = Ret w.
Proof. intros [H|H]; rewrite H; [done|]. by apply tx_free_zeros. Qed.

Lemma dma_free_filled b h0 M0 w ss ps :
  filled b w h0 M0 ss ps → tx_unused (w_tx w) →
  ∃ w', yatse_dma_free w = Ret w' ∧ heap (w_k w') = h0 ∧
    (rx_buf_len (w_rx w) = rx_bytes w → maps (w_k w') = M0).
Proof.
  intros H Hu. pose proof (Forall2_length _ _ _ (fi_live H)) as Hlen. pose proof (fi_le H). pose proof (fi_b H).
  destruct (rx_free_loop h0 M0 w [] [] ss ps (Z.to_nat (2 ^ b) - length ss) w) as (w' & E & Hw').
  - apply (fi_skbs H).
  - rewrite Hlen. apply (fi_phys H).
  - done.
  - done.
  - apply H.
  - apply H.
  - constructor; try done; [|apply H|intros _; apply H].
    intros s Hs. apply list_elem_of_lookup_1 in Hs as [i Hi].
    destruct (Forall2_lookup_l _ _ _ _ _ (fi_live H) Hi) as (y & _ & sk & Hsk & _). by exists sk.
  - exists w'. destruct Hw'. split_and!; [|done|].
    + unfold yatse_dma_free. rewrite (fi_skbs H), (fi_n H).
      replace (length ss + (Z.to_nat (2 ^ b) - length ss))%nat with (Z.to_nat (2 ^ b)) in E by (unfold alen in *; lia).
      change (alen (@nil Z)) with 0 in E. rewrite E. cbn [mbind outcome_bind]. apply tx_free_unused. by rewrite fr_tx0.
    + intros Hb. rewrite (fr_maps0 Hb). simpl. multiset_solver.
Qed.

(** ** Initialisation *)
Record init_pre (br bt : Z) (w : world) : Prop := {
  ip_br : 0 ≤ br < 30;
  ip_bt : 0 ≤ bt < 30;
  ip_rn : rx_ring_length (w_rx w) = 2 ^ br;
  ip_rm : rx_ring_mask (w_rx w) = 2 ^ br - 1;
  ip_tn : tx_ring_length (w_tx w) = 2 ^ bt;
  ip_tm : tx_ring_mask (w_tx w) = 2 ^ bt - 1;
  ip_rd : alen (r_desc (w_rxc w)) = 2 ^ br;
  ip_td : alen (r_desc (w_txc w)) = 2 ^ bt;
  ip_rw : wired (w_rxc w);
  ip_tw : wired (w_txc w);
  ip_mtu : w_mtu w = max_mtu (w_config w);
  ip_range : 0 ≤ w_mtu w ≤ 2 ^ 15;
  ip_align : cfg_rx_align (w_config w) = 0 ∨ ∃ a, 0 ≤ a ≤ 12 ∧ cfg_rx_align (w_config w) = 2 ^ a;
  ip_queued : tx_queued (w_tx w) = 0;
}.

Lemma tx_clear_loop todo i w :
  0 ≤ i → i + Z.of_nat todo = alen (r_desc (w_txc w)) →
  ∃ ds, for_each tx_clear_one todo i w = Ret (set_txc w (set_desc (w_txc w) ds)) ∧
    alen ds = alen (r_desc (w_txc w)) ∧
    ∀ k d, ds !! k = Some d → if decide (Z.of_nat k < i) then r_desc (w_txc w) !! k = Some d else hw d = false.
Proof.
  revert i w. induction todo as [|todo IH]; intros i w Hi Ht.
  { exists (r_desc (w_txc w)). split_and!; [by destruct w as [????? []]|done|].
    intros k d Hk. apply lookup_lt_Some in Hk as Hlt. case_decide; [done|]. unfold alen in *. lia. }
  destruct (aget_is_Some (r_desc (w_txc w)) i) as [d Hd]; [lia|]. cbn [for_each]. unfold tx_clear_one at 2.
  rewrite (desc_at_Ret _ _ _ Hd). cbn [mbind outcome_bind]. rewrite desc_put_Ret by lia. cbn [mbind outcome_bind].
  match goal with |- ∃ ds, for_each _ _ _ ?w1 = _ ∧ _ => set (w2 := w1) end.
  destruct (IH (i + 1) w2) as (ds & E & Hl & Hds); [lia|simpl; unfold alen in *; rewrite length_insert; lia|].
  exists ds. split_and!; [exact E|rewrite Hl; simpl; unfold alen; by rewrite length_insert|].
  intros k e Hk. specialize (Hds k e Hk). simpl in Hds. case_decide as Hc; case_decide as Hc2; try done; try lia.
  - by rewrite list_lookup_insert_ne in Hds by lia.
  - assert (k = Z.to_nat i) as -> by lia. rewrite list_lookup_insert_eq in Hds by (unfold alen in *; lia).
    by injection Hds as <-.
Qed.

(** The rings allocated and filled, the engine still stopped. *)
Record allocated (br bt : Z) (w w' : world) : Prop := {
  al_rx : ∃ ss ps, filled br w' (heap (w_k w)) (maps (w_k w)) ss ps ∧ alen ss = 2 ^ br;
  al_sizes : rx_sizes (w_rx w') (w_mtu w');
  al_pos : rx_pos (w_rx w') = 0;
  al_rm : rx_ring_mask (w_rx w') = 2 ^ br - 1;
  al_align : rx_align (w_rx w') = cfg_rx_align (w_config w);
  al_rxc : r_cur (w_rxc w') = r_cur (w_rxc w) ∧ r_irq (w_rxc w') = r_irq (w_rxc w) ∧
    r_rst (w_rxc w') = r_rst (w_rxc w) ∧ r_ro (w_rxc w') = r_ro (w_rxc w) ∧ r_pins (w_rxc w') = r_pins (w_rxc w);
  al_tx : w_tx w' = {| tx_skbs := Some (replicate (Z.to_nat (2 ^ bt)) 0);
                       tx_skb_phys := Some (replicate (Z.to_nat (2 ^ bt)) 0);
                       tx_ring_length := 2 ^ bt; tx_ring_mask := 2 ^ bt - 1;
                       tx_insert := 0; tx_remove := 0; tx_queued := tx_queued (w_tx w) |};
  al_napi : napi_sched (w_k w') = napi_sched (w_k w);
  al_txc : ∃ ds, w_txc w' = set_desc (w_txc w) ds ∧ alen ds = 2 ^ bt ∧ Forall (λ d, hw d = false) ds;
}.
Definition freeable (w w' : world) : Prop :=
  ∃ w'', yatse_dma_free w' = Ret w'' ∧ heap (w_k w'') = heap (w_k w) ∧
    (cfg_rx_align (w_config w) = 0 → maps (w_k w'') = maps (w_k w)).

Section init.
Context (br bt : Z).
Implicit Types (w : world).

Lemma init_sizes_ok w : init_pre br bt w → rx_sizes (w_rx (init_sizes w)) (w_mtu w).
Proof.
  intros H. pose proof (ip_range _ _ _ H) as Hr. pose proof (ip_mtu _ _ _ H) as Hm.
  constructor; simpl; [done|apply H|]. rewrite Hm in *.
  assert (0 ≤ cfg_rx_align (w_config w) ≤ 2 ^ 12).
  { destruct (ip_align _ _ _ H) as [->|(a & ? & ->)]; [lia|]. split; [lia|apply Z.pow_le_mono_r; lia]. }
  apply s32_small. unfold NET_IP_ALIGN, ETH_HLEN. lia.
Qed.
Lemma ring_bug b : 0 ≤ b → BUG_ON (truthy (2 ^ b .& (2 ^ b - 1))) = Ret tt.
Proof.
  intros Hb. rewrite land_mask_mod by done. rewrite Z_mod_same_full. done.
Qed.

Lemma kzalloc_cases k n :
  (∃ z, kzalloc k n = (set_kz k z, Some (replicate (Z.to_nat n) 0)) ∧ kz k = true :: z) ∨
  (∃ z, kzalloc k n = (set_kz k z, None) ∧ ¬ ∃ z', kz k = true :: z').
Proof.
  unfold kzalloc. destruct (kz k) as [|[] z] eqn:E.
  - right. exists []. split; [|naive_solver]. destruct k; simpl in *; by subst.
  - left. eauto.
  - right. exists z. naive_solver.
Qed.

Lemma filled_frame b w w' h0 M0 ss ps :
  filled b w h0 M0 ss ps → w_mtu w' = w_mtu w → w_rxc w' = w_rxc w →
  heap (w_k w') = heap (w_k w) → maps (w_k w') = maps (w_k w) →
  rx_ring_length (w_rx w') = rx_ring_length (w_rx w) →
  rx_skbs (w_rx w') = rx_skbs (w_rx w) → rx_skb_phys (w_rx w') = rx_skb_phys (w_rx w) →
  filled b w' h0 M0 ss ps.
Proof.
  intros [] E1 E2 E3 E4 E5 E6 E7. constructor; rewrite ?E1, ?E2, ?E3, ?E4, ?E5, ?E6, ?E7; try done.
  unfold rx_map, rx_bytes. by rewrite E1.
Qed.

Lemma init_alloc_tx_spec w0 w ss ps :
  filled br w (heap (w_k w0)) (maps (w_k w0)) ss ps → alen ss = 2 ^ br →
  rx_sizes (w_rx w) (w_mtu w) → rx_ring_mask (w_rx w) = 2 ^ br - 1 →
  rx_align (w_rx w) = cfg_rx_align (w_config w0) →
  r_cur (w_rxc w) = r_cur (w_rxc w0) ∧ r_irq (w_rxc w) = r_irq (w_rxc w0) ∧
    r_rst (w_rxc w) = r_rst (w_rxc w0) ∧ r_ro (w_rxc w) = r_ro (w_rxc w0) ∧ r_pins (w_rxc w) = r_pins (w_rxc w0) →
  w_tx w = {| tx_skbs := None; tx_skb_phys := None; tx_ring_length := 2 ^ bt; tx_ring_mask := 2 ^ bt - 1;
              tx_insert := 0; tx_remove := 0; tx_queued := tx_queued (w_tx w0) |} →
  napi_sched (w_k w) = napi_sched (w_k w0) →
  w_txc w = w_txc w0 → alen (r_desc (w_txc w0)) = 2 ^ bt → 0 ≤ bt →
  ∃ w' ret, init_alloc_tx w = Ret (w', ret) ∧
    (ret ≠ 0 ∧ freeable w0 w' ∨ ret = 0 ∧ allocated br bt w0 w') ∧
    (∀ z, kz (w_k w) = true :: true :: z → ret = 0).
Proof.
  intros Hf Hss Hsz Hrm Hal Hrxc Htx Hnapi Htxc Htd Hbt.
  assert (∀ w', filled br w' (heap (w_k w0)) (maps (w_k w0)) ss ps → tx_unused (w_tx w') → w_mtu w' = w_mtu w →
    rx_buf_len (w_rx w') = rx_buf_len (w_rx w) → freeable w0 w') as Hfree.
  { intros w' Hf' Hu Hm Hb. destruct (dma_free_filled _ _ _ _ _ _ Hf' Hu) as (w'' & E & Hh & Hmaps).
    exists w''. split_and!; [done..|]. intros Hz. apply Hmaps. rewrite Hb, (rs_len _ _ Hsz), Hal, Hz.
    unfold rx_bytes. rewrite Hm. lia. }
  unfold init_alloc_tx. cbn [w_tx set_rx w_k]. rewrite Htx. cbn [tx_ring_length].
  destruct (kzalloc_cases (w_k w) (2 ^ bt)) as [(z1 & -> & Ez1)|(z1 & -> & Ez1)].
  2: { rewrite bool_decide_true by done. eexists _, _. split; [reflexivity|]. split; [left|naive_solver].
       split; [done|]. apply Hfree; [by apply (filled_frame br w)|by left|done..]. }
  rewrite bool_decide_false by done. cbn [w_k set_k w_tx set_tx set_tx_arrays tx_ring_length].
  destruct (kzalloc_cases (set_kz (w_k w) z1) (2 ^ bt)) as [(z2 & -> & Ez2)|(z2 & -> & Ez2)].
  2: { rewrite bool_decide_true by done. eexists _, _. split; [reflexivity|]. split.
       - left. split; [done|]. apply Hfree; [by apply (filled_frame br w)|by right|done..].
       - intros z Hz. exfalso. apply Ez2. exists z. simpl. congruence. }
  rewrite bool_decide_false by done. cbn [set_kz w_k set_k w_tx set_tx set_tx_arrays tx_ring_length].
  match goal with |- context [for_each tx_clear_one _ _ ?x] => set (w2 := x) end.
  destruct (tx_clear_loop (Z.to_nat (2 ^ bt)) 0 w2) as (ds & -> & Hds & Hcl); [done|simpl; rewrite Htxc; lia|].
  eexists _, 0. split; [reflexivity|]. split; [right|done]. split; [done|]. constructor; simpl; try done.
  - exists ss, ps. split; [|done]. by apply (filled_frame br w).
  - destruct Hsz. by constructor.
  - exists ds. rewrite Htxc in *. split_and!; [done|simpl in Hds; rewrite Htxc in Hds; lia|].
    apply Forall_lookup. intros k d Hk. specialize (Hcl k d Hk). by rewrite decide_False in Hcl by lia.
Qed.

Lemma init_alloc_spec w :
  init_pre br bt w →
  rx_skbs (w_rx w) = None → rx_skb_phys (w_rx w) = None → tx_skbs (w_tx w) = None → tx_skb_phys (w_tx w) = None →
  ∃ w' ret, init_alloc w = Ret (w', ret) ∧
    (ret ≠ 0 ∧ freeable w w' ∨ ret = 0 ∧ allocated br bt w w') ∧
    (∀ z, pool_fresh (init_sizes w) (Z.to_nat (2 ^ br)) → kz (w_k w) = true :: true :: true :: true :: z → ret = 0).
Proof.
  intros H E1 E2 E3 E4. pose proof (ip_br _ _ _ H). pose proof (ip_bt _ _ _ H). assert (0 < 2 ^ br) by lia.
  unfold init_alloc. cbn [w_rx w_tx init_sizes set_tx set_rx rx_ring_length rx_ring_mask tx_ring_length tx_ring_mask].
  rewrite (ip_rn _ _ _ H), (ip_rm _ _ _ H), (ip_tn _ _ _ H), (ip_tm _ _ _ H), !ring_bug by lia. cbn [mbind outcome_bind].
  cbn [w_k init_sizes set_tx set_rx].
  destruct (kzalloc_cases (w_k w) (2 ^ br)) as [(z1 & -> & Ez1)|(z1 & -> & Ez1)].
  2: { rewrite bool_decide_true by done. eexists _, _. split; [reflexivity|]. split; [left|naive_solver].
       split; [done|]. unfold freeable, yatse_dma_free. simpl. rewrite E3. eexists. split; [reflexivity|done]. }
  rewrite bool_decide_false by done. cbn [w_k set_k w_rx set_rx set_rx_arrays rx_ring_length].
  destruct (kzalloc_cases (set_kz (w_k w) z1) (2 ^ br)) as [(z2 & -> & Ez2)|(z2 & -> & Ez2)].
  2: { rewrite bool_decide_true by done. eexists _, _. split; [reflexivity|]. split.
       - left. split; [done|]. unfold freeable, yatse_dma_free. cbn [rx_skbs w_rx set_k set_rx set_rx_arrays rx_ring_length].
         rewrite rx_free_zeros by done. cbn [mbind outcome_bind]. simpl. rewrite E3. eexists. split; [reflexivity|done].
       - intros z _ Hz. exfalso. apply Ez2. exists (true :: true :: z). simpl. congruence. }
  rewrite bool_decide_false by done. cbn [w_rx set_k set_rx set_rx_arrays rx_ring_length rx_skbs].
  match goal with |- context [rx_fill _ _ ?x] => set (w2 := x) end.
  assert (filled br w2 (heap (w_k w)) (maps (w_k w)) [] []) as Hf2.
  { constructor; simpl; try done; try apply H; rewrite ?Nat.sub_0_r; try done; try lia.
    - unfold alen. simpl. lia.
    - constructor.
    - multiset_solver. }
  destruct (rx_fill_spec br (heap (w_k w)) (maps (w_k w)) (Z.to_nat (2 ^ br)) w2 [] [] Hf2)
    as (w3 & ret & ss & ps & E & Hsame & Hf3 & Hret & Hpool).
  { destruct (init_sizes_ok w H). by constructor. }
  { unfold alen. simpl. lia. }
  change (alen (@nil Z)) with 0 in E. rewrite E. cbn [mbind outcome_bind]. destruct Hsame.
  destruct Hret as [[-> Hss]| ->].
  - cbn [Z.eqb negb].
    destruct (init_alloc_tx_spec w w3 ss ps Hf3 Hss) as (w4 & ret & -> & Hres & Hkz).
    + rewrite fs_mtu0. destruct (init_sizes_ok w H) as [? Hal ?].
      constructor; [done|unfold align_ok in *; rewrite fs_align0; exact Hal|by rewrite fs_len0, fs_align0].
    + by rewrite fs_mask0.
    + by rewrite fs_align0.
    + by rewrite fs_cur0, fs_irq0, fs_rst0, fs_ro0, fs_pins0.
    + rewrite fs_tx0. unfold w2. cbn [w_tx set_k set_rx init_sizes set_tx].
      by rewrite E3, E4, (ip_tn _ _ _ H), (ip_tm _ _ _ H).
    + by rewrite fs_napi0.
    + by rewrite fs_txc0.
    + apply H.
    + lia.
    + eexists _, ret. split; [reflexivity|]. split; [done|]. intros z _ Hz. apply (Hkz z).
      rewrite fs_kz0. unfold w2. simpl in *. congruence.
  - eexists _, _. split; [reflexivity|]. split.
    + left. split; [done|]. destruct (dma_free_filled _ _ _ _ _ _ Hf3) as (w4 & E4' & Hh & Hm).
      { left. rewrite fs_tx0. done. }
      exists w4. split_and!; [done..|]. intros Hz. apply Hm. rewrite fs_len0. unfold rx_bytes. rewrite fs_mtu0.
      pose proof (rs_len _ _ (init_sizes_ok w H)) as Hlen. unfold w2. simpl in *. rewrite Hlen, Hz. lia.
    + intros z Hp Hz. exfalso. assert (- ENOMEM = 0) as E0; [|done]. apply Hpool.
      destruct Hp as (bufs & rest & Hp1 & Hp2 & Hp3 & Hp4). exists bufs, rest. done.
Qed.

(** Starting the engine on allocated rings gives the two ring invariants. *)
Lemma started_ok c :
  wired c → r_rst c = 0%nat → ctl_write c (YATSE_CSR_ENA .| YATSE_CSR_IE) = set_ctl c 6 ∧ chan_ok (set_ctl c 6).
Proof.
  intros [Hro Hp] Hr. split; [|by constructor]. change (YATSE_CSR_ENA .| YATSE_CSR_IE) with 6.
  unfold ctl_write. by rewrite Hr.
Qed.

Lemma init_start_spec w w' :
  init_pre br bt w → allocated br bt w w' →
  wired (w_rxc w) → wired (w_txc w) →
  r_rst (w_rxc w) = 0%nat → r_rst (w_txc w) = 0%nat → r_cur (w_rxc w) = 0 → r_irq (w_rxc w) = 0 →
  r_cur (w_txc w) = 0 → r_irq (w_txc w) = 0 →
  rx_inv br (init_start w') [] (maps (w_k w)) ∧ tx_inv bt (init_start w') [] 0 (maps (w_k (init_start w'))) ∧
  int_enabled (w_rxc (init_start w')) = true ∧ int_enabled (w_txc (init_start w')) = true.
Proof.
  intros H [(ss & ps & Hf & Hss) Hsz Hpos Hrm Hal (Hc1 & Hc2 & Hc3 & Hc4 & Hc5) Htx _ (ds & Htxc & Hdl & Hdh)]
    Hwr Hwt Hr1 Hr2 Hr3 Hr4 Hr5 Hr6.
  assert (wired (w_rxc w')) as Hwr' by (destruct Hwr; constructor; by rewrite ?Hc4, ?Hc5).
  assert (wired (w_txc w')) as Hwt' by (rewrite Htxc; by destruct Hwt; constructor).
  destruct (started_ok (w_rxc w') Hwr') as [Er Hokr]; [by rewrite Hc3|].
  destruct (started_ok (w_txc w') Hwt') as [Et Hokt]; [by rewrite Htxc|].
  unfold init_start. cbn [w_rxc w_txc set_rxc set_txc]. rewrite Er, Et.
  pose proof (fi_b Hf). pose proof (ip_bt _ _ _ H). assert (0 < 2 ^ br) by lia.
  pose proof (Forall2_length _ _ _ (fi_live Hf)) as Hlen. unfold alen in Hss.
  split_and!; [| |done..].
  - constructor; simpl; [|by destruct Hsz; constructor|done].
    exists ss, ps. replace (Z.to_nat (2 ^ br) - length ss)%nat with 0%nat in * by lia.
    split_and!; [|apply Hf|apply Hf|intros _; apply Hf].
    constructor; simpl; rewrite ?Hpos, ?Hc1, ?Hc2; try done; try (unfold alen; simpl; lia).
    + apply Hf.
    + rewrite (fi_skbs Hf). f_equal. replace (Z.to_nat (2 ^ br) - length ss)%nat with 0%nat by lia. apply app_nil_r.
    + rewrite (fi_phys Hf). f_equal. replace (Z.to_nat (2 ^ br) - length ps)%nat with 0%nat by lia. apply app_nil_r.
    + apply Hf.
    + intros k Hk. rewrite Z.mod_small by lia. rewrite Z.add_0_l, !aget_nat.
      destruct (lookup_lt_is_Some_2 ps k ltac:(lia)) as [p Hp].
      destruct (fi_ready Hf k p Hp) as (d & Hd & Ha & Hfresh). exists d. rewrite Hd, Hp. subst p.
      destruct Hfresh as (? & ? & ?). by split_and!.
  - eapply (tx_inv_idle bt _ (replicate (Z.to_nat (2 ^ bt)) 0) (replicate (Z.to_nat (2 ^ bt)) 0));
      simpl; rewrite ?Htx, ?Htxc; simpl; try done; try (rewrite alen_replicate; lia).
    + apply H.
    + by rewrite <-Htxc.
Qed.
End init.

Lemma dma_init_correct br bt w :
  init_pre br bt w →
  ∃ w' ret, yatse_dma_init w = Ret (w', ret) ∧
    (ret = 0 → napi_sched (w_k w') = napi_sched (w_k w) ∧ rx_inv br w' [] (maps (w_k w)) ∧ tx_inv bt w' [] 0 (maps (w_k w')) ∧
       int_enabled (w_rxc w') = true ∧ int_enabled (w_txc w') = true) ∧
    (ret ≠ 0 → heap (w_k w') = heap (w_k w) ∧
       (cfg_rx_align (w_config w) = 0 → maps (w_k w') = maps (w_k w))) ∧
    (100 ≤ Z.of_nat (r_lat (w_rxc w) + r_lat (w_txc w)) → ret = - EAGAIN) ∧
    (∀ z, Z.of_nat (r_lat (w_rxc w) + r_lat (w_txc w)) < 100 → pool_fresh (init_sizes w) (Z.to_nat (2 ^ br)) →
       kz (w_k w) = true :: true :: true :: true :: z → ret = 0).
Proof.
  intros H. unfold yatse_dma_init.
  match goal with |- context [yatse_dma_reset ?x] => set (w1 := x) end.
  destruct (dma_reset_cases w1) as (r & t & ret & -> & Hret); [apply H..|]. cbn [deref mbind outcome_bind].
  change (r_lat (w_rxc w1) + r_lat (w_txc w1))%nat with (r_lat (w_rxc w) + r_lat (w_txc w))%nat in Hret.
  destruct (Z.ltb_spec (Z.of_nat (r_lat (w_rxc w) + r_lat (w_txc w))) 100).
  2: { subst ret. eexists _, _. split; [reflexivity|]. split_and!; [done| |done|lia]. intros _. by split. }
  destruct Hret as (-> & -> & ->). cbn [Z.eqb]. set (w2 := after_reset w1 0 0).
  assert (init_pre br bt w2) as H2.
  { destruct H as [? ? ? ? ? ? ? ? Hwr Hwt ? ? ? ?]. destruct Hwr, Hwt. by constructor. }
  destruct (init_alloc_spec br bt w2 H2) as (w3 & ret & -> & Hres & Hok); [done..|]. cbn [mbind outcome_bind].
  destruct Hres as [[Hne (w4 & E & Hh & Hm)]|[-> Hal]].
  - rewrite (proj2 (Z.eqb_neq _ _)) by done. rewrite E. cbn [mbind outcome_bind]. eexists _, _. split; [reflexivity|].
    split_and!; [done| |lia|]; [intros _; by split|]. intros z _ Hp Hz. apply (Hok z); [|done].
    destruct Hp as (bufs & rest & Hp). by exists bufs, rest.
  - cbn [Z.eqb]. eexists _, _. split; [reflexivity|]. split_and!; [|done|lia|done]. intros _.
    split; [apply (al_napi _ _ _ _ Hal)|]. apply (init_start_spec br bt w2 w3); try done; apply H2.
Qed.


(** Two-slot rings and enough memory. *)
Definition world2 : world :=
  set_k (set_tx world0 {| tx_skbs := None; tx_skb_phys := None; tx_ring_length := 2; tx_ring_mask := 1;
                          tx_insert := 0; tx_remove := 0; tx_queued := 0 |})
    {| heap := ∅; maps := ∅; pool := [Some (16, 0x80001000); Some (32, 0x80002000)];
       kz := [true; true; true; true]; queue_stopped := false; napi_sched := true; napi_disable_pending := false;
       tasklet_scheduled := false; delivered := []; freed := [] |}.
Lemma txc0_wired : wired txc0.
Proof. destruct txc0_ok. by constructor. Qed.
Lemma world2_pre : init_pre 1 1 world2.
Proof. constructor; try done; try exact txc0_wired. by left. Qed.

(** tx_queued is not among the fields yatse_dma_init resets: with a stale count
    the first completion follows a NULL buffer. *)
Definition world2_stale : world :=
  set_tx world2 {| tx_skbs := None; tx_skb_phys := None; tx_ring_length := 2; tx_ring_mask := 1;
                   tx_insert := 0; tx_remove := 0; tx_queued := 1 |}.
Example stale_queue_oops :
  match yatse_dma_init world2_stale with
  | Ret (w', 0) => yatse_tx_complete 10 w' [] = Some Oops
  | _ => False
  end.
Proof. vm_compute. reflexivity. Qed.
End YatseDma.
