(* ===== verification/YatseDrv.v ===== *)
(** * YatseDrv: opening and closing the interface (drivers/net/yatse/yatse_drv.c)

    The ring-size check of [yatse_probe], [yatse_open] and [yatse_stop],
    composed from the DMA and MAC parts.  The result of phy_connect, code of the
    PHY library, is a parameter. *)

From stdpp Require Import gmultiset.
From S2P Require Import Prelude EthDma YatseMac YatseNet YatseTx YatseRx YatseDma.
Import EthDma YatseMac YatseNet YatseTx YatseRx YatseDma.

Module YatseDrv.

(** ** The ring sizes in yatse_probe: length and mask, or -EIO *)
Definition probe_ring (v : Z) : Z + (Z * Z) :=
  let length := s32 v in
  let mask := s32 (length - 1) in
  if (length <=? 0) || truthy (length .& mask) then inl (- EIO) else inr (length, mask).

(** Yatse_probe accepts exactly the powers of two that fit an int, and
    derives the mask that makes the ring positions wrap at the length. *)
Theorem probe_ring_spec v :
  is_u32 v →
  (∀ length mask, probe_ring v = inr (length, mask) →
     ∃ b, 0 ≤ b ≤ 30 ∧ v = 2 ^ b ∧ length = 2 ^ b ∧ mask = 2 ^ b - 1) ∧
  (∀ b, 0 ≤ b ≤ 30 → v = 2 ^ b → probe_ring v = inr (2 ^ b, 2 ^ b - 1)).
Proof.
  intros Hv. unfold is_u32 in Hv. split.
  - intros length mask. unfold probe_ring. destruct (Z.leb_spec (s32 v) 0) as [|Hpos]; [done|]. cbn [orb].
    assert (s32 v = v ∧ v < 2 ^ 31) as [Es Hlt].
    { unfold s32 in *. destruct (decide (v < 2 ^ 31)); [rewrite Z.mod_small by lia; lia|].
      replace (v + 2 ^ 31) with (v - 2 ^ 31 + 1 * 2 ^ 32) in Hpos by lia.
      rewrite Z_mod_plus_full, Z.mod_small in Hpos by lia. lia. }
    rewrite Es in *. rewrite (s32_small (v - 1)) by lia. unfold truthy.
    destruct (Z.eqb_spec (v .& (v - 1)) 0) as [E|]; [|done]. cbn [negb]. intros [= <- <-].
    pose proof (land_pred_pow2 v Hpos E) as Hp. exists (Z.log2 v). split_and!; [apply Z.log2_nonneg| |done|done|lia].
    assert (Z.log2 v < 31); [|lia]. apply Z.log2_lt_pow2; lia.
  - intros b Hb ->. assert (0 < 2 ^ b ≤ 2 ^ 30) by (split; [lia|apply Z.pow_le_mono_r; lia]).
    unfold probe_ring. rewrite (s32_small (2 ^ b)), (s32_small (2 ^ b - 1)) by lia.
    rewrite (proj2 (Z.leb_gt _ _)), land_mask_mod, Z_mod_same_full by lia. done.
Qed.
Lemma probe_ring_witness : probe_ring 64 = inr (64, 63) ∧ probe_ring 48 = inl (- EIO).
Proof.
  split; [|reflexivity].
  destruct (probe_ring_spec 64) as [_ H]; [by unfold is_u32|]. apply (H 6); [lia|reflexivity].
Defined.

(** ** NAPI on and off (include/linux/netdevice.h) *)
Definition napi_enable (k : kern) : outcome kern :=
  _ ← BUG_ON (negb (napi_sched k)); Ret (set_napi k false (napi_disable_pending k)).
(** The wait of napi_disable; what the device and its interrupt do during each
    msleep is a list of events. *)
Definition napi_disable_step (st : world * list (list rx_event)) : (world * list (list rx_event)) + world :=
  let '(w, naps) := st in
  let was := napi_sched (w_k w) in
  let w := set_k w (set_napi (w_k w) true (napi_disable_pending (w_k w))) in
  if was then inl (rx_execs w (default [] (head naps)), tail naps) else inr w.
Definition napi_disable (fuel : nat) (w : world) (naps : list (list rx_event)) : option world :=
  let w := set_k w (set_napi (w_k w) (napi_sched (w_k w)) true) in
  w ← loop fuel napi_disable_step (w, naps);
  Some (set_k w (set_napi (w_k w) (napi_sched (w_k w)) false)).

Section drv.
Context {D : MacDev}.

Definition with_link (priv : mac_priv) (l : Z) : mac_priv :=
  {| mtu := mtu priv; link := l; duplex := duplex priv; speed := speed priv; config := config priv;
     phy_addr := phy_addr priv |}.

(** yatse_open; [phy_ret] is 0 or the error of phy_connect. *)
Definition yatse_open (phy_ret : Z) (priv : mac_priv) (mac : mac_t) (w : world) :
    outcome (mac_priv * mac_t * world * Z) :=
  let priv := with_link priv 0 in
  '(w, ret) ← yatse_dma_init w;
  if negb (ret =? 0) then Ret (priv, mac, w, ret) else
  let w := set_k w (set_tasklet (w_k w) false) in
  if negb (phy_ret =? 0) then Ret (priv, mac, w, phy_ret) else
  '(mac, ret) ← deref (yatse_init_mac priv mac);
  if negb (ret =? 0) then Ret (priv, mac, w, ret) else
  k ← napi_enable (w_k w);
  Ret (priv, mac, set_k w (set_stopped k false), 0).

(** yatse_stop, with the receive events of the two waits; the interrupts
    disabled on the way are not re-enabled. *)
Definition yatse_stop (fuel : nat) (naps1 naps2 : list (list rx_event)) (priv : mac_priv) (w : world) :
    option (mac_priv * world) :=
  w ← napi_disable fuel w naps1;
  let priv := with_link priv 0 in
  let w := set_k w (set_stopped (w_k w) true) in
  w ← yatse_dma_stop w;
  let w := set_k w (set_tasklet (w_k w) false) in
  w ← napi_disable fuel w naps2;
  Some (priv, w).
End drv.

(** ** Closing *)

(** While NAPI is being disabled the interrupt handler cannot schedule it. *)
Lemma rx_execs_disabled es w :
  napi_sched (w_k w) = true → napi_disable_pending (w_k w) = true →
  napi_sched (w_k (rx_execs w es)) = true ∧ napi_disable_pending (w_k (rx_execs w es)) = true.
Proof.
  revert w. induction es as [|e es IH]; intros w Hs Hd; [done|]. unfold rx_execs in *. simpl. apply IH.
  - destruct e; [done|]. simpl. unfold yatse_rx_isr, readl_rcontrol. destruct (ctl_read (w_rxc w)) as [c v].
    destruct (truthy _); [|done]. unfold napi_schedule_prep. simpl. by rewrite Hd.
  - destruct e; [done|]. simpl. unfold yatse_rx_isr, readl_rcontrol. destruct (ctl_read (w_rxc w)) as [c v].
    destruct (truthy _); [|done]. unfold napi_schedule_prep. simpl. by rewrite Hd.
Qed.
Lemma napi_disable_idle fuel w naps :
  napi_sched (w_k w) = false → (0 < fuel)%nat →
  napi_disable fuel w naps = Some (set_k w (set_napi (w_k w) true false)).
Proof.
  intros Hs Hf. destruct fuel; [lia|]. unfold napi_disable. cbn [loop]. unfold napi_disable_step at 1.
  cbn [w_k set_k set_napi napi_sched napi_disable_pending]. rewrite Hs. cbn [mbind option_bind].
  by destruct w as [?????? []].
Qed.
Lemma napi_disable_owned fuel w naps : napi_sched (w_k w) = true → napi_disable fuel w naps = None.
Proof.
  intros Hs. unfold napi_disable.
  rewrite (loop_diverges (λ st, napi_sched (w_k st.1) = true ∧ napi_disable_pending (w_k st.1) = true) napi_disable_step);
    [done| |by split].
  intros [v ns] [H1 H2]. cbn [fst] in *. unfold napi_disable_step. rewrite H1. eexists. split; [reflexivity|].
  cbn [fst]. apply rx_execs_disabled; [done|]. by rewrite <-H2.
Qed.

(** C33: closing the interface never ends.  The first napi_disable, the reset
    of the engine and everything between them return, but the second
    napi_disable waits for a state bit that the first one has set and that
    nothing clears, whatever frames and interrupts arrive. *)
Theorem yatse_stop_never_returns (priv : mac_priv) (w : world) (naps1 naps2 : list (list rx_event)) :
  napi_sched (w_k w) = false → wired (w_rxc w) → wired (w_txc w) →
  (∃ w1 w2, napi_disable 1 w naps1 = Some w1 ∧
     yatse_dma_stop (set_k w1 (set_stopped (w_k w1) true)) = Some w2) ∧
  ∀ fuel, yatse_stop fuel naps1 naps2 priv w = None.
Proof.
  intros Hs Hr Ht. set (w1 := set_k w (set_napi (w_k w) true false)).
  destruct (dma_reset_cases (set_k w1 (set_stopped (w_k w1) true))) as (r & t & ret & E & _); [done..|].
  assert (yatse_dma_stop (set_k w1 (set_stopped (w_k w1) true)) =
          Some (after_reset (set_k w1 (set_stopped (w_k w1) true)) r t)) as Estop.
  { unfold yatse_dma_stop. by rewrite E. }
  split.
  - exists w1. eexists. rewrite napi_disable_idle by (done || lia). by split.
  - intros fuel. destruct (decide (fuel = 0%nat)) as [->|Hf].
    { done. }
    unfold yatse_stop. rewrite napi_disable_idle by (done || lia). fold w1. cbn [mbind option_bind].
    rewrite Estop. cbn [mbind option_bind]. by rewrite napi_disable_owned.
Qed.
Lemma yatse_stop_witness :
  yatse_stop 100 [] [[RxFrame {| f_len := 66; f_err := 0 |}; RxIrq]] eth0_priv world0 = None.
Proof.
  destruct (yatse_stop_never_returns eth0_priv world0 [] [[RxFrame {| f_len := 66; f_err := 0 |}; RxIrq]]) as [_ H].
  - reflexivity.
  - exact txc0_wired.
  - exact txc0_wired.
  - exact (H 100%nat).
Defined.

(** ** Opening *)

End YatseDrv.
