(* ===== verification/Z48soc.v ===== *)
(** * Z48soc: interrupts, inter-processor interrupts and memory of the SoC

    The platform code of arch/mips/z48soc (interrupt dispatch and masking,
    mailbox IPIs, memory map, clock rates) over models of the two devices it
    drives: the interrupt router (core/hdl/z4800/zirqrouter.vhd), clock by
    clock, and the mailbox (core/hdl/z4800/mbox.vhd), access by access. *)

From S2P Require Import Prelude.

Module Z48soc.

(** ** The interrupt router

    One process per line: idle, or dispatched to a CPU; [ln_row] are the flags
    of the line, one for each CPU. *)
Record line := { ln_dispatched : bool; ln_cpu : nat; ln_row : list bool }.
Record router := { rt_mask : Z; rt_lines : list line }.

Section router.
Context (ncpus : nat).

Definition clear_flags : list bool := replicate ncpus false.
Definition line_reset : line := {| ln_dispatched := false; ln_cpu := 0; ln_row := clear_flags |}.
Definition router_reset : router := {| rt_mask := 0; rt_lines := replicate 32 line_reset |}.

(** irqs_out: a CPU is interrupted while one of its flags is set. *)
Definition irqs_out (r : router) : list bool :=
  (λ cpu, existsb (λ l, default false (ln_row l !! cpu)) (rt_lines r)) <$> seq 0 ncpus.

(** perirq_state_mach: one clock of one line; [cpu + 1] wraps as in the
    synthesised register (NCPUS a power of two). *)
Definition line_step (out : list bool) (asserted : bool) (l : line) : line :=
  if ln_dispatched l then
    if asserted then l
    else {| ln_dispatched := false; ln_cpu := ln_cpu l; ln_row := clear_flags |}
  else if asserted then
    if default false (out !! ln_cpu l)
    then {| ln_dispatched := false; ln_cpu := (ln_cpu l + 1) mod ncpus; ln_row := ln_row l |}
    else {| ln_dispatched := true; ln_cpu := ln_cpu l; ln_row := <[ln_cpu l := true]> (ln_row l) |}
  else l.
(** One clock: the lines see the old mask and the old outputs. *)
Definition router_step (r : router) (irqs_in : Z) (wr : option Z) : router :=
  {| rt_mask := default (rt_mask r) wr;
     rt_lines := imap (λ i l, line_step (irqs_out r)
       (Z.testbit irqs_in (Z.of_nat i) && Z.testbit (rt_mask r) (Z.of_nat i)) l) (rt_lines r) |}.
Definition router_run (r : router) (ins : list (Z * option Z)) : router :=
  foldl (λ r io, router_step r io.1 io.2) r ins.

(** The word a CPU reads from its slave address. *)
Definition word_of (f : nat → bool) (n : nat) : Z :=
  foldr (λ i acc, if f i then Z.setbit acc (Z.of_nat i) else acc) 0 (seq 0 n).
Definition flags_word (r : router) (cpu : nat) : Z :=
  word_of (λ i, default false (rt_lines r !! i ≫= λ l, ln_row l !! cpu)) 32.
End router.

(** ** Dispatch (z48soc_int.c) *)
Definition CASCADE_IRQ : Z := 4.
Definition CASCADE_IRQ_BASE : Z := 32.
Definition CASCADE_IRQ_COUNT : Z := 32.
Definition ST0_IM : Z := 0x0000ff00.
Definition STATUSF_IP3 : Z := 1 .<< 11.
Definition STATUSF_IP4 : Z := 1 .<< 12.
Definition STATUSF_IP7 : Z := 1 .<< 15.

Definition irq_ffs (pending : Z) : Z :=
  let pending := pending .& 0xff00 in
  if truthy (pending .& 0x0100) then 0 else
  if truthy (pending .& 0x0200) then 1 else
  if truthy (pending .& 0x0400) then 2 else
  if truthy (pending .& 0x0800) then 3 else
  if truthy (pending .& 0x1000) then 4 else
  if truthy (pending .& 0x2000) then 5 else
  if truthy (pending .& 0x4000) then 6 else
  if truthy (pending .& 0x8000) then 7 else -1.

Inductive irq_action := do_IRQ (irq : Z) | spurious_interrupt.
#[export] Instance irq_action_eq_dec : EqDecision irq_action.
Proof. solve_decision. Defined.

(** The loop over the cascaded lines, from line [i] on. *)
Fixpoint cascade_loop (todo : nat) (i : Z) (cascade : Z) : list irq_action :=
  match todo with
  | O => []
  | S todo =>
      (if truthy (cascade .& s32 (1 .<< i)) then [do_IRQ (CASCADE_IRQ_BASE + i)] else [])
      ++ cascade_loop todo (i + 1) cascade
  end.
Definition plat_irq_dispatch (cause status slave : Z) : list irq_action :=
  let pending := cause .& status .& ST0_IM in
  let irq := irq_ffs pending in
  if irq =? CASCADE_IRQ then cascade_loop (Z.to_nat CASCADE_IRQ_COUNT) 0 (s32 slave)
  else if 0 <=? irq then [do_IRQ irq]
  else [spurious_interrupt].

(** ** Masking: the software mask and the router's *)
Record cascade := { cascade_mask : Z; irq_slave : router }.
Definition write_mask (c : cascade) (m : Z) : cascade :=
  {| cascade_mask := m; irq_slave := {| rt_mask := u32 m; rt_lines := rt_lines (irq_slave c) |} |}.
Definition enable_cascade_irq (c : cascade) (irq status : Z) : outcome cascade :=
  _ ← BUG_ON (irq <? CASCADE_IRQ_BASE);
  let c := write_mask c (cascade_mask c .| s32 (1 .<< (irq - CASCADE_IRQ_BASE))) in
  _ ← BUG_ON (negb (truthy (status .& STATUSF_IP4)));
  Ret c.
Definition disable_cascade_irq (c : cascade) (irq status : Z) : outcome cascade :=
  _ ← BUG_ON (irq <? CASCADE_IRQ_BASE);
  let c := write_mask c (cascade_mask c .& Z.lnot (s32 (1 .<< (irq - CASCADE_IRQ_BASE)))) in
  _ ← BUG_ON (negb (truthy (status .& STATUSF_IP4)));
  Ret c.
(** The reset of the mask in arch_init_irq; [slave] is what the router answers. *)
Definition arch_init_irq (c : cascade) (slave : Z) : outcome cascade :=
  let c := write_mask c (cascade_mask c) in
  _ ← BUG_ON (truthy slave);
  Ret c.

Inductive mask_op := Enable (irq : Z) | Disable (irq : Z).
Definition mask_exec (c : cascade) (status : Z) (o : mask_op) : outcome cascade :=
  match o with
  | Enable irq => enable_cascade_irq c irq status
  | Disable irq => disable_cascade_irq c irq status
  end.
Definition mask_run (c : cascade) (status : Z) (os : list mask_op) : outcome cascade :=
  foldl (λ c o, c ← c; mask_exec c status o) (Ret c) os.

(** ** Mailboxes and IPIs (mbox.vhd, z48soc_smp.c) *)
Definition SMP_RESCHEDULE_YOURSELF : Z := 0x1.
Definition SMP_CALL_FUNCTION : Z := 0x2.
Definition mbox_write (flags : Z) (adr : Z) (v : Z) : Z :=
  if adr =? 0 then flags .| v else Z.ldiff flags v.
Definition mbox_read (flags : Z) (adr : Z) : Z * Z :=
  (if adr =? 1 then 0 else flags, flags).
Definition mbox_irq (flags : Z) : bool := truthy flags.

Inductive ipi_action := smp_call_function_interrupt | scheduler_ipi.
#[export] Instance ipi_action_eq_dec : EqDecision ipi_action.
Proof. solve_decision. Defined.

Definition z48soc_send_ipi_single (mb : list Z) (cpu : nat) (action : Z) : list Z :=
  alter (λ flags, mbox_write flags 0 (u32 action)) cpu mb.
(** for_each_cpu over a mask of CPU numbers. *)
Definition z48soc_send_ipi_mask (mb : list Z) (mask : Z) (action : Z) : list Z :=
  foldl (λ mb i, if Z.testbit mask (Z.of_nat i) then z48soc_send_ipi_single mb i action else mb)
    mb (seq 0 (length mb)).
Definition ipi_actions (action : Z) : list ipi_action :=
  (if truthy (action .& SMP_CALL_FUNCTION) then [smp_call_function_interrupt] else [])
  ++ (if truthy (action .& SMP_RESCHEDULE_YOURSELF) then [scheduler_ipi] else []).
Definition z48soc_mailbox_interrupt (mb : list Z) (cpu : nat) : option (list Z * list ipi_action) :=
  flags ← mb !! cpu;
  let '(flags, action) := mbox_read flags 1 in
  Some (<[cpu := flags]> mb, ipi_actions action).
(** The arguments in the boot ROM window, then the doorbell. *)
Definition z48soc_boot_secondary (rom : gmap Z Z) (mb : list Z) (cpu : nat) (addr sp gp : Z) : gmap Z Z * list Z :=
  let rom := <[0x3c0 := Z.of_nat cpu]> rom in
  let rom := <[0x3c4 := addr]> rom in
  let rom := <[0x3c8 := sp]> rom in
  let rom := <[0x3cc := gp]> rom in
  let rom := <[0x3d0 := 0]> rom in
  (rom, z48soc_send_ipi_single mb cpu 0xffffffff).
(** change_c0_status(ST0_IM, ...) of z48soc_init_secondary. *)
Definition z48soc_init_secondary (status : Z) : Z :=
  (status .& ~32 ST0_IM) .| ((STATUSF_IP7 .| STATUSF_IP4 .| STATUSF_IP3) .& ST0_IM).
Definition NR_CPUS : nat := 4.
(** z48soc_smp_setup: the possible and present maps and the CPU numbers. *)
Definition smp_setup_step (st : Z * Z * list nat) (i : nat) : Z * Z * list nat :=
  let '(possible, present, number) := st in
  (Z.setbit possible (Z.of_nat i), Z.setbit present (Z.of_nat i), number ++ [i]).
Definition z48soc_smp_setup (present : Z) : Z * Z * list nat :=
  foldl smp_setup_step (0, present, []) (seq 0 NR_CPUS).

(** ** Memory (z48soc_mem.c, add_memory_region of arch/mips/kernel/setup.c) *)
Definition PAGE_SIZE : Z := 4096.
Definition PFN_ALIGN (x : Z) : Z := u32 (x + (PAGE_SIZE - 1)) .& ~32 (PAGE_SIZE - 1).
Definition CPHYSADDR (a : Z) : Z := a .& 0x1fffffff.
Definition simmem_reserved : Z := 0.
Definition simmem_free : Z := 1.
Definition BOOT_MEM_RAM : Z := 1.
Definition BOOT_MEM_RESERVED : Z := 3.
Definition BOOT_MEM_MAP_MAX : nat := 32.
Definition PROM_MAX_PMEMBLOCKS : nat := 32.

Record prom_pmemblock := { pm_base : Z; pm_size : Z; pm_type : Z }.
Definition pm_zero : prom_pmemblock := {| pm_base := 0; pm_size := 0; pm_type := 0 |}.
Definition prom_getmdesc (end_ ram_size_mb : Z) : list prom_pmemblock :=
  let memsize := u32 (ram_size_mb * 1024 * 1024) in
  let base1 := CPHYSADDR (PFN_ALIGN end_) in
  {| pm_base := 0; pm_size := u32 (base1 - 0); pm_type := simmem_reserved |} ::
  {| pm_base := base1; pm_size := u32 (memsize - base1); pm_type := simmem_free |} ::
  replicate (PROM_MAX_PMEMBLOCKS - 2) pm_zero.
Definition prom_memtype_classify (type : Z) : Z :=
  if type =? simmem_free then BOOT_MEM_RAM else BOOT_MEM_RESERVED.

Record boot_mem_map_entry := { bm_addr : Z; bm_size : Z; bm_type : Z }.
#[export] Instance boot_mem_map_entry_eq_dec : EqDecision boot_mem_map_entry.
Proof. solve_decision. Defined.
Definition add_memory_region (map : list boot_mem_map_entry) (start size type : Z) : list boot_mem_map_entry :=
  if u32 (start + size) <? start then map else
  match last map with
  | Some prev =>
      if (u32 (bm_addr prev + bm_size prev) =? start) && (bm_type prev =? type)
      then removelast map ++ [{| bm_addr := bm_addr prev; bm_size := u32 (bm_size prev + size); bm_type := bm_type prev |}]
      else if (length map =? BOOT_MEM_MAP_MAX)%nat then map
      else map ++ [{| bm_addr := start; bm_size := size; bm_type := type |}]
  | None => map ++ [{| bm_addr := start; bm_size := size; bm_type := type |}]
  end.
(** The walk up to the entry of size 0; past the table is a fault. *)
Fixpoint meminit_loop (p : list prom_pmemblock) (map : list boot_mem_map_entry) : option (list boot_mem_map_entry) :=
  match p with
  | [] => None
  | b :: p =>
      if pm_size b =? 0 then Some map else
      meminit_loop p (add_memory_region map (pm_base b) (pm_size b) (prom_memtype_classify (pm_type b)))
  end.
Definition prom_meminit (end_ ram_size_mb : Z) (map : list boot_mem_map_entry) : option (list boot_mem_map_entry) :=
  meminit_loop (prom_getmdesc end_ ram_size_mb) map.

(** ** Clock rates (z48soc_time.c): the counter frequency and the rounded one *)
Definition estimate_cpu_frequency (khz : Z) : Z * Z :=
  let count := u32 (khz * 1000) in
  let mips_hpt_frequency := count in
  let count := u32 (count + 5000) in
  (mips_hpt_frequency, u32 (count - count `mod` 10000)).
Definition plat_time_init (khz : Z) : Z * Z * Z :=
  let est_freq := (estimate_cpu_frequency khz).2 in
  (est_freq / 1000000, u32 ((est_freq `mod` 1000000) * 100) / 1000000, est_freq / 1000).

(** ** Theorems: the router *)

(** The flags of a line are those of the CPU it is dispatched to. *)
Definition line_ok (n : nat) (l : line) : Prop :=
  (ln_cpu l < n)%nat ∧
  ln_row l = if ln_dispatched l then <[ln_cpu l := true]> (clear_flags n) else clear_flags n.

Lemma line_reset_ok n : (0 < n)%nat → line_ok n (line_reset n).
Proof. done. Qed.

Lemma line_step_ok n out b l : (0 < n)%nat → line_ok n l → line_ok n (line_step n out b l).
Proof.
  intros Hn [Hc Hr]. unfold line_step, line_ok in *.
  pose proof (Nat.mod_upper_bound (ln_cpu l + 1) n).
  repeat case_match; simplify_eq/=; split; try done; try lia.
  by rewrite Hr.
Qed.

Lemma router_run_ok n r ins :
  (0 < n)%nat → Forall (line_ok n) (rt_lines r) → Forall (line_ok n) (rt_lines (router_run n r ins)).
Proof.
  intros Hn. revert r. induction ins as [|io ins IH]; intros r Hr; [done|].
  apply IH. apply Forall_lookup_2. intros i l Hl. cbn [router_step rt_lines] in Hl.
  rewrite list_lookup_imap in Hl. destruct (rt_lines r !! i) as [l0|] eqn:Hl0; simplify_eq/=.
  apply line_step_ok; [done|]. by eapply Forall_lookup_1.
Qed.

Lemma router_run_length n r ins : length (rt_lines (router_run n r ins)) = length (rt_lines r).
Proof.
  revert r. induction ins as [|io ins IH]; intros r; [done|].
  change (router_run n r (io :: ins)) with (router_run n (router_step n r io.1 io.2) ins).
  rewrite IH. cbn [router_step rt_lines]. by rewrite length_imap.
Qed.

Lemma line_row_lookup n l j : line_ok n l →
  default false (ln_row l !! j) = ln_dispatched l && bool_decide (j = ln_cpu l).
Proof.
  intros [Hc ->]. unfold clear_flags. destruct (ln_dispatched l); cbn.
  - case_bool_decide; subst.
    + by rewrite list_lookup_insert_eq by by rewrite length_replicate.
    + rewrite list_lookup_insert_ne by done.
      destruct (replicate n false !! j) eqn:E; [|done]. by apply lookup_replicate in E as [-> _].
  - destruct (replicate n false !! j) eqn:E; [|done]. by apply lookup_replicate in E as [-> _].
Qed.

Lemma testbit_word_of f n i :
  0 ≤ i → Z.testbit (word_of f n) i = bool_decide (i < Z.of_nat n) && f (Z.to_nat i).
Proof.
  intros Hi. unfold word_of. 
  assert (∀ k, Z.testbit (foldr (λ i acc, if f i then Z.setbit acc (Z.of_nat i) else acc) 0 (seq k n)) i
    = bool_decide (Z.of_nat k ≤ i < Z.of_nat (k + n)) && f (Z.to_nat i)) as H.
  { induction n as [|n IH]; intros k; cbn.
    - rewrite Z.bits_0. case_bool_decide; [lia|done].
    - destruct (decide (i = Z.of_nat k)) as [->|Hne].
      + rewrite bool_decide_eq_true_2 by lia. rewrite Nat2Z.id. cbn.
        destruct (f k) eqn:Hf; [by apply Z.setbit_eq; lia|].
        rewrite IH. by rewrite bool_decide_eq_false_2 by lia.
      + replace (bool_decide (Z.of_nat k ≤ i < Z.of_nat (k + S n)))
          with (bool_decide (Z.of_nat (S k) ≤ i < Z.of_nat (S k + n))) by (apply bool_decide_ext; lia).
        rewrite <-IH. destruct (f k); [|done]. by rewrite Z.setbit_neq by lia. }
  rewrite H. f_equal. apply bool_decide_ext. lia.
Qed.

Lemma cascade_loop_eq todo i c :
  0 ≤ i → i + Z.of_nat todo ≤ 32 →
  cascade_loop todo i (s32 c) = (λ k, do_IRQ (32 + k)) <$> filter (λ k, Z.testbit c k) (seqZ i (Z.of_nat todo)).
Proof.
  revert i. induction todo as [|todo IH]; intros i Hi Hle; [done|].
  cbn [cascade_loop]. rewrite IH by lia. rewrite (seqZ_cons i) by lia.
  replace (Z.pred (Z.of_nat (S todo))) with (Z.of_nat todo) by lia.
  replace (Z.succ i) with (i + 1) by lia.
  assert (truthy (s32 c .& s32 (1 .<< i)) = Z.testbit c i) as -> by (apply land_s32_bit; lia).
  rewrite filter_cons. case_match; case_decide; try done; congruence.
Qed.

(** The lines of the CPU's interrupt pins that are pending and enabled, in
    ascending order, and what must be called for them. *)
Definition pending_lines (cause status : Z) : list Z :=
  filter (λ k, Z.testbit cause (8 + k) && Z.testbit status (8 + k)) (seqZ 0 8).
Definition dispatch_spec (cause status slave : Z) : list irq_action :=
  match pending_lines cause status with
  | [] => [spurious_interrupt]
  | k :: _ => if k =? 4 then (λ i, do_IRQ (32 + i)) <$> filter (λ i, Z.testbit slave i) (seqZ 0 32)
              else [do_IRQ k]
  end.

Lemma irq_ffs_eq cause status :
  irq_ffs (cause .& status .& ST0_IM) = default (-1) (head (pending_lines cause status)).
Proof.
  unfold irq_ffs, pending_lines, ST0_IM.
  change 0x0100 with (1 .<< 8). change 0x0200 with (1 .<< 9). change 0x0400 with (1 .<< 10).
  change 0x0800 with (1 .<< 11). change 0x1000 with (1 .<< 12). change 0x2000 with (1 .<< 13).
  change 0x4000 with (1 .<< 14). change 0x8000 with (1 .<< 15).
  rewrite !land_bit by lia. rewrite !Z.land_spec.
  change (seqZ 0 8) with [0; 1; 2; 3; 4; 5; 6; 7].
  repeat match goal with |- context [Z.testbit 65280 ?k] => change (Z.testbit 65280 k) with true end.
  rewrite !andb_true_r, !filter_cons, filter_nil.
  change (8 + 0) with 8. change (8 + 1) with 9. change (8 + 2) with 10. change (8 + 3) with 11.
  change (8 + 4) with 12. change (8 + 5) with 13. change (8 + 6) with 14. change (8 + 7) with 15.
  do 8 (match goal with |- (if ?b then _ else _) = _ => destruct b; [done|] end). done.
Qed.

Lemma plat_irq_dispatch_eq cause status slave :
  plat_irq_dispatch cause status slave = dispatch_spec cause status slave.
Proof.
  unfold plat_irq_dispatch, dispatch_spec. rewrite irq_ffs_eq, cascade_loop_eq by (vm_compute; discriminate).
  change (Z.of_nat (Z.to_nat CASCADE_IRQ_COUNT)) with 32.
  destruct (pending_lines cause status) as [|k ks] eqn:Hp; [done|].
  change (default (-1) (head (k :: ks))) with k.
  change CASCADE_IRQ with 4. destruct (k =? 4) eqn:Hk; [done|].
  assert (k ∈ pending_lines cause status) as Hin by (rewrite Hp; set_solver).
  apply list_elem_of_filter in Hin as [_ Hin%elem_of_seqZ].
  cbn. by rewrite (proj2 (Z.leb_le 0 k)) by lia.
Qed.

(** Plat_irq_dispatch calls do_IRQ for the lowest pending and enabled
    interrupt line; for the cascade line it calls do_IRQ for every line the
    router flags for the CPU, once each, in ascending order (bit 31, the sign
    of the int, included); with no line pending it is a spurious interrupt. *)
Theorem plat_irq_dispatch_spec cause status slave :
  plat_irq_dispatch cause status slave = dispatch_spec cause status slave.
Proof. apply plat_irq_dispatch_eq. Qed.

Lemma dispatch_cascaded cause status slave irq :
  32 ≤ irq → do_IRQ irq ∈ plat_irq_dispatch cause status slave →
  irq < 64 ∧ Z.testbit slave (irq - 32) = true.
Proof.
  intros Hirq. rewrite plat_irq_dispatch_eq. unfold dispatch_spec.
  destruct (pending_lines cause status) as [|k ks] eqn:Hp; [set_solver|].
  assert (k ∈ pending_lines cause status) as Hk by (rewrite Hp; set_solver).
  apply list_elem_of_filter in Hk as [_ Hk%elem_of_seqZ].
  destruct (k =? 4).
  - intros (i & [= ->] & Hi)%list_elem_of_fmap. apply list_elem_of_filter in Hi as [Ht Hi%elem_of_seqZ].
    replace (32 + i - 32) with i by lia. split; [lia|by apply Is_true_true].
  - intros [= ->]%list_elem_of_singleton. lia.
Qed.

Lemma testbit_flags_word r cpu i :
  0 ≤ i → Z.testbit (flags_word r cpu) i =
    bool_decide (i < 32) && default false (rt_lines r !! Z.to_nat i ≫= λ l, ln_row l !! cpu).
Proof. intros. unfold flags_word. by rewrite testbit_word_of. Qed.

(** A flag is set: its line is dispatched to that CPU. *)
Lemma flag_dispatched n r cpu i :
  Forall (line_ok n) (rt_lines r) → 0 ≤ i → Z.testbit (flags_word r cpu) i = true →
  ∃ l, rt_lines r !! Z.to_nat i = Some l ∧ ln_dispatched l = true ∧ ln_cpu l = cpu.
Proof.
  intros Hr Hi. rewrite testbit_flags_word by done. intros [_ H]%andb_true_iff.
  destruct (rt_lines r !! Z.to_nat i) as [l|] eqn:Hl; [|done]. cbn in H.
  rewrite (line_row_lookup n) in H by by eapply Forall_lookup_1.
  apply andb_true_iff in H as [? ?%bool_decide_eq_true]. by exists l.
Qed.

(** A line that is dispatched after a clock was asserted and unmasked at it. *)
Lemma dispatched_asserted n r inp wr i l :
  rt_lines (router_step n r inp wr) !! i = Some l → ln_dispatched l = true →
  Z.testbit inp (Z.of_nat i) = true ∧ Z.testbit (rt_mask r) (Z.of_nat i) = true.
Proof.
  cbn [router_step rt_lines]. rewrite list_lookup_imap.
  destruct (rt_lines r !! i) as [l0|]; [|done]. cbn. intros [= <-]. unfold line_step.
  intros Hd. apply andb_true_iff. repeat case_match; simplify_eq/=; congruence.
Qed.

Lemma router_reset_ok n : (0 < n)%nat → Forall (line_ok n) (rt_lines (router_reset n)).
Proof. intros. by apply Forall_replicate, line_reset_ok. Qed.


Definition is_dispatched (r : router) (i : nat) : bool :=
  default false (ln_dispatched <$> rt_lines r !! i).
Definition cpu_idle (n : nat) (r : router) (cpu : nat) : bool :=
  negb (default false (irqs_out n r !! cpu)).

(** The steps of the router's search from its CPU to an idle one. *)
Definition distance (n from to_ : nat) : nat := (to_ + n - from) mod n.

Lemma distance_next n from to_ :
  (from < n)%nat → (to_ < n)%nat → from ≠ to_ →
  distance n from to_ = S (distance n ((from + 1) mod n) to_).
Proof.
  intros Hf Ht Hne. unfold distance. destruct (decide (from + 1 = n)%nat) as [He|He].
  - rewrite He, Nat.Div0.mod_same. replace (to_ + n - from)%nat with (S to_) by lia.
    replace (to_ + n - 0)%nat with (to_ + 1 * n)%nat by lia.
    rewrite Nat.Div0.mod_add, (Nat.mod_small to_) by lia. apply Nat.mod_small. lia.
  - rewrite (Nat.mod_small (from + 1)) by lia. destruct (decide (from < to_)%nat).
    + replace (to_ + n - from)%nat with ((to_ - from) + 1 * n)%nat by lia.
      replace (to_ + n - (from + 1))%nat with ((to_ - from - 1) + 1 * n)%nat by lia.
      rewrite !Nat.Div0.mod_add, !Nat.mod_small by lia. lia.
    + rewrite !Nat.mod_small by lia. lia.
Qed.

Lemma router_search n cpu i d : ∀ r l ins,
  (cpu < n)%nat → rt_lines r !! i = Some l → line_ok n l → distance n (ln_cpu l) cpu = d →
  Z.testbit (rt_mask r) (Z.of_nat i) = true →
  Forall (λ io, Z.testbit io.1 (Z.of_nat i) = true ∧ io.2 = None) ins →
  (d < length ins)%nat →
  (∀ k, (k < length ins)%nat → is_dispatched (router_run n r (take k ins)) i = false →
    cpu_idle n (router_run n r (take k ins)) cpu = true) →
  ∃ k, (k ≤ S d)%nat ∧ is_dispatched (router_run n r (take k ins)) i = true.
Proof.
  induction d as [d IH] using lt_wf_ind. intros r l ins Hcpu Hl Hok Hd Hm Hins Hlen Hidle.
  destruct (ln_dispatched l) eqn:Hdis.
  { exists 0%nat. split; [lia|].
    change (router_run n r (take 0 ins)) with r. unfold is_dispatched. by rewrite Hl. }
  destruct ins as [|[inp wr] ins]; [cbn in Hlen; lia|].
  apply Forall_cons in Hins as [[Hinp Hwr] Hins]. cbn in Hinp, Hwr. subst wr.
  assert (rt_lines (router_step n r inp None) !! i = Some (line_step n (irqs_out n r) true l)) as Hl'.
  { cbn [router_step rt_lines]. by rewrite list_lookup_imap, Hl; cbn; rewrite Hinp, Hm. }
  destruct (default false (irqs_out n r !! ln_cpu l)) eqn:Hout.
  - assert (ln_cpu l ≠ cpu) as Hne.
    { intros <-. specialize (Hidle 0%nat ltac:(cbn; lia)).
      change (router_run n r (take 0 _)) with r in Hidle. unfold is_dispatched, cpu_idle in Hidle.
      rewrite Hl, Hout in Hidle. by specialize (Hidle Hdis). }
    destruct Hok as [Hc Hr]. pose proof (distance_next n (ln_cpu l) cpu Hc Hcpu Hne) as Hdn.
    unfold line_step in Hl'. rewrite Hdis, Hout in Hl'.
    edestruct (IH (distance n ((ln_cpu l + 1) mod n) cpu) ltac:(lia) (router_step n r inp None) _ ins Hcpu Hl')
      as (k & Hk & Hdk); [| |done|done| |..].
    + split; cbn; [|by rewrite Hr, Hdis]. apply Nat.mod_upper_bound. lia.
    + done.
    + cbn in Hlen. lia.
    + intros k Hk. apply (Hidle (S k)). cbn. lia.
    + exists (S k). split; [lia|]. done.
  - exists 1%nat. split; [lia|]. 
    change (router_run n r (take 1 ((inp, None) :: ins))) with (router_step n r inp None).
    unfold is_dispatched. rewrite Hl'. cbn [fmap option_fmap option_map]. unfold line_step. by rewrite Hdis, Hout.
Qed.

(** C30: an asserted and unmasked line is not starved: if some CPU has no
    interrupt outstanding while the line waits, the line is dispatched within
    as many clocks as there are CPUs. *)
Theorem router_dispatches n past ins i cpu :
  (cpu < n)%nat → (i < 32)%nat → length ins = n →
  let r := router_run n (router_reset n) past in
  Z.testbit (rt_mask r) (Z.of_nat i) = true →
  Forall (λ io, Z.testbit io.1 (Z.of_nat i) = true ∧ io.2 = None) ins →
  (∀ k, (k < n)%nat → is_dispatched (router_run n r (take k ins)) i = false →
    cpu_idle n (router_run n r (take k ins)) cpu = true) →
  ∃ k, (k ≤ n)%nat ∧ is_dispatched (router_run n r (take k ins)) i = true.
Proof.
  intros Hcpu Hi Hlen r Hm Hins Hidle.
  assert (Forall (line_ok n) (rt_lines r)) as Hr by (apply router_run_ok, router_reset_ok; lia).
  assert (is_Some (rt_lines r !! i)) as [l Hl].
  { apply lookup_lt_is_Some. unfold r. by rewrite router_run_length. }
  assert (distance n (ln_cpu l) cpu < n)%nat as Hd by (apply Nat.mod_upper_bound; lia).
  destruct (router_search n cpu i _ r l ins Hcpu Hl ltac:(by eapply Forall_lookup_1) eq_refl Hm Hins)
    as (k & Hk & ?); [lia|by rewrite Hlen|].
  exists k. split; [lia|done].
Qed.
Lemma router_dispatches_witness :
  ∃ k, (k ≤ 4)%nat ∧
    is_dispatched (router_run 4 (router_run 4 (router_reset 4) [(0, Some 3); (1, None)])
      (take k (replicate 4 (3, None)))) 1 = true.
Proof.
  apply (router_dispatches 4 [(0, Some 3); (1, None)] (replicate 4 (3, None)) 1 2);
    [lia|lia|done|done|by repeat constructor|].
  intros k Hk _. do 4 (destruct k as [|k]; [by vm_compute|]). lia.
Defined.

(** ** Theorems: the mask *)
Definition mask_irq (o : mask_op) : Z := match o with Enable irq | Disable irq => irq end.
Definition enabled_step (s : gset Z) (o : mask_op) : gset Z :=
  match o with Enable irq => s ∪ {[irq]} | Disable irq => s ∖ {[irq]} end.
(** The software mask and the register agree with a set of interrupts. *)
Definition mask_rep (c : cascade) (s : gset Z) : Prop :=
  rt_mask (irq_slave c) = u32 (cascade_mask c) ∧
  ∀ i, 0 ≤ i < 32 → Z.testbit (cascade_mask c) i = bool_decide (32 + i ∈ s).

Lemma testbit_s32_pow i k : 0 ≤ i < 32 → 0 ≤ k < 32 → Z.testbit (s32 (1 .<< k)) i = bool_decide (i = k).
Proof.
  intros. rewrite testbit_s32 by done. rewrite Z.shiftl_1_l, Z.pow2_bits_eqb by lia.
  case_bool_decide; [by apply Z.eqb_eq|apply Z.eqb_neq; lia].
Qed.

Lemma mask_exec_rep c s status o :
  truthy (status .& STATUSF_IP4) = true → 32 ≤ mask_irq o < 64 → mask_rep c s →
  ∃ c', mask_exec c status o = Ret c' ∧ mask_rep c' (enabled_step s o).
Proof.
  intros Hst Hirq [Hm Hs]. destruct o as [irq|irq]; cbn in Hirq |- *;
    unfold enable_cascade_irq, disable_cascade_irq, BUG_ON; rewrite Hst, (proj2 (Z.ltb_ge irq _)) by (unfold CASCADE_IRQ_BASE; lia);
    cbn [mbind outcome_bind negb]; eexists; (split; [reflexivity|]); (split; [done|]); intros i Hi;
    cbn [write_mask cascade_mask]; unfold CASCADE_IRQ_BASE.
  - rewrite Z.lor_spec, Hs, testbit_s32_pow by lia.
    destruct (decide (i = irq - 32)); repeat case_bool_decide; try done; exfalso; set_unfold; lia || naive_solver lia.
  - rewrite Z.land_spec, Z.lnot_spec, Hs, testbit_s32_pow by lia.
    destruct (decide (i = irq - 32)); repeat case_bool_decide; try done; exfalso; set_unfold; lia || naive_solver lia.
Qed.

Lemma mask_run_rep c s status os :
  truthy (status .& STATUSF_IP4) = true → Forall (λ o, 32 ≤ mask_irq o < 64) os → mask_rep c s →
  ∃ c', mask_run c status os = Ret c' ∧ mask_rep c' (foldl enabled_step s os).
Proof.
  intros Hst Hos. revert c s. induction Hos as [|o os Ho _ IH]; intros c s Hc; [by exists c|].
  destruct (mask_exec_rep c s status o Hst Ho Hc) as (c1 & He & Hc1).
  destruct (IH c1 _ Hc1) as (c' & Hr & Hc'). exists c'. split; [|done].
  unfold mask_run in *. cbn [foldl mbind outcome_bind]. by rewrite He.
Qed.

(** After any sequence of masking and unmasking of cascaded interrupts
    (IP4 enabled, as both functions require) the router's mask register holds
    exactly the set of interrupts left enabled, line 31 included. *)
Theorem cascade_mask_refines r status os :
  truthy (status .& STATUSF_IP4) = true → Forall (λ o, 32 ≤ mask_irq o < 64) os → rt_mask r = 0 →
  ∃ c', mask_run {| cascade_mask := 0; irq_slave := r |} status os = Ret c' ∧
    ∀ irq, 32 ≤ irq < 64 →
      Z.testbit (rt_mask (irq_slave c')) (irq - 32) = bool_decide (irq ∈ foldl enabled_step ∅ os).
Proof.
  intros Hst Hos Hr.
  destruct (mask_run_rep {| cascade_mask := 0; irq_slave := r |} ∅ status os Hst Hos) as (c' & Hrun & Hm & Hs).
  { split; [done|]. intros i Hi. cbn. rewrite Z.testbit_0_l. by rewrite bool_decide_eq_false_2 by set_solver. }
  exists c'. split; [done|]. intros irq Hirq. rewrite Hm, testbit_u32.
  rewrite bool_decide_eq_true_2 by lia. rewrite Hs by lia.
  by replace (32 + (irq - 32)) with irq by lia.
Qed.
Lemma cascade_mask_refines_witness :
  ∃ c', mask_run {| cascade_mask := 0; irq_slave := router_reset 4 |} 0x1000 [Enable 63; Enable 33; Disable 33] = Ret c' ∧
    ∀ irq, 32 ≤ irq < 64 →
      Z.testbit (rt_mask (irq_slave c')) (irq - 32)
      = bool_decide (irq ∈ foldl enabled_step ∅ [Enable 63; Enable 33; Disable 33]).
Proof.
  apply (cascade_mask_refines (router_reset 4) 0x1000 [Enable 63; Enable 33; Disable 33]);
    [done|repeat constructor; cbn; lia|done].
Defined.

(** ** Theorems: inter-processor interrupts *)
Inductive ipi_op := Send (mask action : Z) | Intr (cpu : nat).
(** The mailboxes after an operation, and the functions it runs. *)
Definition ipi_exec (mb : list Z) (o : ipi_op) : option (list Z * list ipi_action) :=
  match o with
  | Send mask action => Some (z48soc_send_ipi_mask mb mask action, [])
  | Intr cpu => z48soc_mailbox_interrupt mb cpu
  end.
Fixpoint ipi_run (mb : list Z) (os : list ipi_op) : option (list Z) :=
  match os with
  | [] => Some mb
  | o :: os => '(mb, _) ← ipi_exec mb o; ipi_run mb os
  end.
(** Was action bit [b] sent to [cpu] after its last interrupt? *)
Definition sent_step (cpu : nat) (b : Z) (sent : bool) (o : ipi_op) : bool :=
  match o with
  | Send mask action => sent || (Z.testbit mask (Z.of_nat cpu) && Z.testbit (u32 action) b)
  | Intr cpu' => if decide (cpu = cpu') then false else sent
  end.

Lemma send_single_lookup mb i action cpu :
  z48soc_send_ipi_single mb i action !! cpu =
    (λ f, if decide (cpu = i) then f .| u32 action else f) <$> mb !! cpu.
Proof.
  unfold z48soc_send_ipi_single, mbox_write. case_decide as Hd.
  - subst. by rewrite list_lookup_alter_eq.
  - rewrite list_lookup_alter_ne by done. by destruct (mb !! cpu).
Qed.

Lemma send_mask_length mb mask action : length (z48soc_send_ipi_mask mb mask action) = length mb.
Proof.
  unfold z48soc_send_ipi_mask. generalize (seq 0 (length mb)). intros l. revert mb.
  induction l as [|i l IH]; intros mb; [done|]. cbn. rewrite IH.
  case_match; [|done]. apply length_alter.
Qed.

Lemma send_fold_lookup mask action cpu l : ∀ mb,
  foldl (λ mb i, if Z.testbit mask (Z.of_nat i) then z48soc_send_ipi_single mb i action else mb) mb l !! cpu =
    (λ f, if Z.testbit mask (Z.of_nat cpu) && bool_decide (cpu ∈ l) then f .| u32 action else f) <$> mb !! cpu.
Proof.
  induction l as [|i l IH]; intros mb; cbn [foldl].
  - rewrite bool_decide_eq_false_2 by set_solver. rewrite andb_false_r. by destruct (mb !! cpu).
  - rewrite IH. destruct (decide (cpu = i)) as [->|Hne].
    + rewrite (bool_decide_eq_true_2 (i ∈ i :: l)) by set_solver.
      destruct (Z.testbit mask (Z.of_nat i)) eqn:Ht; cbn [andb]; [|done].
      rewrite send_single_lookup. destruct (mb !! i) as [f|]; [|done]. cbn.
      rewrite decide_True by done. case_bool_decide; [|done]. f_equal. rewrite <-Z.lor_assoc. by rewrite Z.lor_diag.
    + rewrite (bool_decide_ext (cpu ∈ i :: l) (cpu ∈ l)) by set_solver.
      destruct (Z.testbit mask (Z.of_nat i)); [|done].
      rewrite send_single_lookup. destruct (mb !! cpu) as [f|]; [|done]. cbn.
      by rewrite decide_False by done.
Qed.

Lemma send_mask_lookup mb mask action cpu :
  z48soc_send_ipi_mask mb mask action !! cpu =
    (λ f, if Z.testbit mask (Z.of_nat cpu) then f .| u32 action else f) <$> mb !! cpu.
Proof.
  unfold z48soc_send_ipi_mask. rewrite send_fold_lookup.
  destruct (mb !! cpu) as [f|] eqn:Hf; [|done]. apply lookup_lt_Some in Hf.
  rewrite bool_decide_eq_true_2 by (apply elem_of_seq; lia). by rewrite andb_true_r.
Qed.

(** The mailbox of [cpu] holds the actions sent since its last interrupt. *)
Lemma ipi_run_flags cpu b os : ∀ mb mb' f,
  0 ≤ b → ipi_run mb os = Some mb' → mb !! cpu = Some f →
  ∃ f', mb' !! cpu = Some f' ∧ Z.testbit f' b = foldl (sent_step cpu b) (Z.testbit f b) os.
Proof.
  induction os as [|o os IH]; intros mb mb' f Hb Hrun Hf; cbn in Hrun; [simplify_eq; by exists f|].
  destruct (ipi_exec mb o) as [[mb1 acts]|] eqn:He; [|done]. cbn in Hrun.
  destruct o as [mask action|cpu']; cbn in He.
  - simplify_eq. edestruct (IH _ _ (if Z.testbit mask (Z.of_nat cpu) then f .| u32 action else f) Hb Hrun)
      as (f' & Hf' & Hbit); [by rewrite send_mask_lookup, Hf|].
    exists f'. split; [done|]. rewrite Hbit. cbn [foldl sent_step].
    destruct (Z.testbit mask (Z.of_nat cpu)); [by rewrite Z.lor_spec|by rewrite orb_false_r].
  - unfold z48soc_mailbox_interrupt in He. destruct (mb !! cpu') as [f0|] eqn:Hf0; [|done].
    cbn in He. simplify_eq. cbn [foldl sent_step]. case_decide as Hd; subst.
    + edestruct (IH _ _ 0 Hb Hrun) as (f' & Hf' & Hbit).
      { apply list_lookup_insert_eq. by eapply lookup_lt_Some. }
      exists f'. by rewrite Hbit, Z.testbit_0_l.
    + by eapply IH; [done..|rewrite list_lookup_insert_ne by done].
Qed.

(** C29: no inter-processor interrupt is lost, repeated or invented: after any
    sequence of sends and mailbox interrupts, the next mailbox interrupt of a
    CPU runs the call-function handler exactly if that action was sent to the
    CPU since its previous interrupt, likewise the scheduler's, in this order;
    and it leaves the mailbox empty, its interrupt line low. *)
Theorem ipi_no_loss n os mb cpu :
  ipi_run (replicate n 0) os = Some mb → (cpu < n)%nat →
  ∃ mb', z48soc_mailbox_interrupt mb cpu =
    Some (mb', (if foldl (sent_step cpu 1) false os then [smp_call_function_interrupt] else [])
               ++ (if foldl (sent_step cpu 0) false os then [scheduler_ipi] else [])) ∧
    (mbox_irq <$> mb' !! cpu = Some false).
Proof.
  intros Hrun Hcpu.
  assert (replicate n 0 !! cpu = Some 0) as H0 by by apply lookup_replicate_2.
  destruct (ipi_run_flags cpu 1 os _ _ 0 ltac:(lia) Hrun H0) as (f & Hf & H1).
  destruct (ipi_run_flags cpu 0 os _ _ 0 ltac:(lia) Hrun H0) as (f2 & Hf2 & H2). simplify_eq.
  unfold z48soc_mailbox_interrupt. rewrite Hf. cbn. eexists. split.
  - unfold ipi_actions. change SMP_CALL_FUNCTION with (1 .<< 1). change SMP_RESCHEDULE_YOURSELF with (1 .<< 0).
    by rewrite !land_bit, H1, H2 by lia.
  - rewrite list_lookup_insert_eq; [done|]. by eapply lookup_lt_Some.
Qed.
Lemma ipi_no_loss_witness :
  ∃ mb', z48soc_mailbox_interrupt [0; 3; 0; 0] 1 =
    Some (mb', [smp_call_function_interrupt; scheduler_ipi]) ∧ (mbox_irq <$> mb' !! 1%nat = Some false).
Proof.
  apply (ipi_no_loss 4 [Send 6 1; Intr 2; Send 2 2] [0; 3; 0; 0] 1); [done|lia].
Defined.

(** ** Theorems: the memory map *)

(** The first page after the kernel image, physical. *)
Definition kernel_end (end_ : Z) : Z := (end_ - 0x80000000 + 4095) / 4096 * 4096.

Lemma image_end end_ :
  0x80000000 < end_ ≤ 0x9ffff000 → CPHYSADDR (PFN_ALIGN end_) = kernel_end end_.
Proof.
  intros He. unfold CPHYSADDR, PFN_ALIGN, PAGE_SIZE, kernel_end.
  rewrite (u32_small (end_ + _)) by lia. change (4096 - 1) with (2 ^ 12 - 1).
  rewrite align_down by (unfold is_u32; lia). change 0x1fffffff with (2 ^ 29 - 1).
  rewrite land_mask_mod by lia. change (2 ^ 12) with 4096. change (2 ^ 29) with 536870912.
  replace (end_ + (4096 - 1)) with (end_ - 0x80000000 + 4095 + 524288 * 4096) by lia.
  rewrite Z.div_add by lia. set (p := (end_ - 0x80000000 + 4095) / 4096).
  replace (4096 * (p + 524288)) with (p * 4096 + 4 * 536870912) by lia.
  rewrite Z_mod_plus_full. apply Z.mod_small. subst p. Z.div_mod_to_equations. lia.
Qed.

Lemma add_first_region size type :
  0 ≤ size < 2 ^ 32 → add_memory_region [] 0 size type = [{| bm_addr := 0; bm_size := size; bm_type := type |}].
Proof.
  intros. unfold add_memory_region. rewrite (u32_small (0 + size)) by lia.
  by rewrite (proj2 (Z.ltb_ge (0 + size) 0)) by lia.
Qed.

Lemma prom_meminit_eq end_ mb :
  0x80000000 < end_ ≤ 0x9ffff000 → 0 < mb → mb * 1048576 < 2 ^ 32 →
  let e := kernel_end end_ in
  prom_meminit end_ mb [] =
    Some ({| bm_addr := 0; bm_size := e; bm_type := BOOT_MEM_RESERVED |} ::
          (if e <? mb * 1048576
           then [{| bm_addr := e; bm_size := mb * 1048576 - e; bm_type := BOOT_MEM_RAM |}] else [])).
Proof.
  intros He Hmb HM e. unfold prom_meminit, prom_getmdesc. rewrite (image_end end_ He). fold e.
  rewrite <-Z.mul_assoc. change (1024 * 1024) with 1048576. set (M := mb * 1048576) in *.
  rewrite (u32_small M) by lia.
  assert (0 < e < 2 ^ 29) as Hr by (unfold e, kernel_end; Z.div_mod_to_equations; lia).
  rewrite (u32_small (e - 0)) by lia. rewrite Z.sub_0_r. cbn [meminit_loop pm_size pm_base pm_type].
  rewrite (proj2 (Z.eqb_neq e 0)) by lia. rewrite add_first_region by lia.
  destruct (Z.ltb_spec e M) as [Hlt|Hge].
  - rewrite (u32_small (M - e)) by lia. rewrite (proj2 (Z.eqb_neq (M - e) 0)) by lia. cbn [replicate Nat.sub PROM_MAX_PMEMBLOCKS].
    unfold add_memory_region. rewrite (u32_small (e + (M - e))) by lia.
    rewrite (proj2 (Z.ltb_ge (e + (M - e)) e)) by lia. cbn [last bm_addr bm_size bm_type].
    change (prom_memtype_classify simmem_reserved =? prom_memtype_classify simmem_free) with false.
    by rewrite andb_false_r.
  - destruct (Z.eqb_spec (u32 (M - e)) 0) as [|Hne]; [done|].
    unfold add_memory_region. rewrite u32_add_r.
    replace (e + (M - e)) with M by lia. rewrite (u32_small M) by lia.
    assert (M ≠ e) by (intros Heq; apply Hne; by rewrite Heq, Z.sub_diag).
    by rewrite (proj2 (Z.ltb_lt M e)) by lia.
Qed.

(** Prom_meminit terminates within the descriptor table and registers
    exactly the page-rounded kernel image as reserved and the rest of the RAM,
    up to its end, as usable; when the image reaches the end of the RAM the
    wrapped-around or empty second block is dropped. *)
Theorem prom_meminit_spec end_ mb :
  0x80000000 < end_ ≤ 0x9ffff000 → 0 < mb → mb * 1048576 < 2 ^ 32 →
  let e := kernel_end end_ in
  prom_meminit end_ mb [] =
    Some ({| bm_addr := 0; bm_size := e; bm_type := BOOT_MEM_RESERVED |} ::
          (if e <? mb * 1048576
           then [{| bm_addr := e; bm_size := mb * 1048576 - e; bm_type := BOOT_MEM_RAM |}] else [])).
Proof. apply prom_meminit_eq. Qed.
Lemma prom_meminit_spec_witness :
  prom_meminit 0x80345678 128 [] =
    Some [{| bm_addr := 0; bm_size := 0x346000; bm_type := 3 |};
          {| bm_addr := 0x346000; bm_size := 0x7cba000; bm_type := 1 |}].
Proof. apply (prom_meminit_spec 0x80345678 128); lia. Defined.

(** The rounded frequency is the multiple of 10 kHz nearest to the counter's. *)
Lemma estimate_rounds khz hpt est :
  0 ≤ khz → khz * 1000 + 5000 < 2 ^ 32 → estimate_cpu_frequency khz = (hpt, est) →
  hpt = khz * 1000 ∧ (10000 | est) ∧ -5000 ≤ hpt - est < 5000.
Proof.
  intros Hk Hov [= <- <-]. rewrite (u32_small (khz * 1000)), (u32_small (khz * 1000 + 5000)) by lia.
  set (c := khz * 1000) in *. pose proof (Z.mod_pos_bound (c + 5000) 10000).
  pose proof (Z.mod_le (c + 5000) 10000). rewrite u32_small by lia.
  split; [done|]. split; [|lia]. apply Z.mod_divide; [done|]. Z.div_mod_to_equations. lia.
Qed.

End Z48soc.
