(* ===== verification/Resource.v ===== *)
(** * Resource: the tree of address ranges (kernel/resource.c)

    Request, insert, release, allocate and adjust of nested address ranges at
    the width of resource_size_t (32 bits), the region interface the drivers
    use, and the registration of platform devices (drivers/base/platform.c). *)

From S2P Require Import Prelude.

Module Resource.

Definition EBUSY : Z := 16.
Definition EINVAL : Z := 22.
Definition IORESOURCE_TYPE_BITS : Z := 0x00001f00.
Definition IORESOURCE_IO : Z := 0x00000100.
Definition IORESOURCE_MEM : Z := 0x00000200.
Definition IORESOURCE_IRQ : Z := 0x00000400.
Definition IORESOURCE_MUXED : Z := 0x00400000.
Definition IORESOURCE_BUSY : Z := 0x80000000.

(** A resource with its children in sibling order; [r_id] stands for the
    address of the structure. *)
Inductive resource := Res (r_id r_start r_end r_flags : Z) (r_child : list resource).
Definition r_id (r : resource) : Z := let 'Res i _ _ _ _ := r in i.
Definition r_start (r : resource) : Z := let 'Res _ s _ _ _ := r in s.
Definition r_end (r : resource) : Z := let 'Res _ _ e _ _ := r in e.
Definition r_flags (r : resource) : Z := let 'Res _ _ _ f _ := r in f.
Definition r_child (r : resource) : list resource := let 'Res _ _ _ _ c := r in c.
Definition set_child (r : resource) (c : list resource) : resource :=
  Res (r_id r) (r_start r) (r_end r) (r_flags r) c.
Definition set_range (r : resource) (s e : Z) : resource :=
  Res (r_id r) s e (r_flags r) (r_child r).
Definition resource_size (r : resource) : Z := u32 (r_end r - r_start r + 1).
Definition resource_type (r : resource) : Z := r_flags r .& IORESOURCE_TYPE_BITS.
Definition resource_contains (s1 e1 s2 e2 : Z) : bool := (s1 <=? s2) && (e2 <=? e1).

(** ** Request *)

(** What __request_resource returns: NULL and the new tree, the root, or a
    child, here with the siblings before and after it. *)
Inductive request :=
  | Req_ok (root : resource)
  | Req_root
  | Req_conflict (before : list resource) (tmp : resource) (after : list resource).
Fixpoint request_scan (new : resource) (before rest : list resource) : list resource + (list resource * resource * list resource) :=
  match rest with
  | [] => inl (before ++ [new])
  | tmp :: after =>
      if r_end new <? r_start tmp then inl (before ++ new :: tmp :: after)
      else if r_end tmp <? r_start new then request_scan new (before ++ [tmp]) after
      else inr (before, tmp, after)
  end.
Definition __request_resource (root new : resource) : request :=
  if r_end new <? r_start new then Req_root
  else if r_start new <? r_start root then Req_root
  else if r_end root <? r_end new then Req_root
  else match request_scan new [] (r_child root) with
       | inl c => Req_ok (set_child root c)
       | inr (before, tmp, after) => Req_conflict before tmp after
       end.
Definition request_resource (root new : resource) : Z * resource :=
  match __request_resource root new with
  | Req_ok root' => (0, root')
  | _ => (- EBUSY, root)
  end.

(** ** Release of a child of [parent] *)
Fixpoint release_scan (old : Z) (before rest : list resource) : option (list resource) :=
  match rest with
  | [] => None
  | tmp :: after =>
      if r_id tmp =? old then Some (before ++ after) else release_scan old (before ++ [tmp]) after
  end.
Definition __release_resource (parent : resource) (old : Z) : Z * resource :=
  match release_scan old [] (r_child parent) with
  | Some c => (0, set_child parent c)
  | None => (- EINVAL, parent)
  end.
(** The released subtree, each resource with its size kept from address 0. *)
Fixpoint __release_child_resources (r : resource) : resource * list resource :=
  let 'Res i s e f c := r in
  (Res i s e f [],
   flat_map (λ tmp, let '(tmp, released) := __release_child_resources tmp in
     set_range tmp 0 (u32 (resource_size tmp - 1)) :: released) c).

(** ** Insert: descend while the conflict contains the new range, then take
    over the children the new range contains *)
Inductive insert := Ins_ok (root : resource) | Ins_conflict (c : resource).
(** The second loop: the siblings taken over and the rest, or a partial overlap. *)
Fixpoint absorb (new first : resource) (after : list resource) : (list resource * list resource) + resource :=
  if (r_start first <? r_start new) || (r_end new <? r_end first) then inr first
  else match after with
       | [] => inl ([first], [])
       | next :: after' =>
           if r_end new <? r_start next then inl ([first], after)
           else match absorb new next after' with
                | inl (taken, rest) => inl (first :: taken, rest)
                | inr c => inr c
                end
       end.
Fixpoint __insert_resource (fuel : nat) (parent new : resource) : option insert :=
  match fuel with
  | O => None
  | S fuel =>
      match __request_resource parent new with
      | Req_ok parent' => Some (Ins_ok parent')
      | Req_root => Some (Ins_conflict parent)
      | Req_conflict before first after =>
          if r_id first =? r_id new then Some (Ins_conflict first)
          else if (r_start new <? r_start first) || (r_end first <? r_end new)
               || ((r_start first =? r_start new) && (r_end first =? r_end new))
          then match absorb new first after with
               | inr c => Some (Ins_conflict c)
               | inl (taken, rest) => Some (Ins_ok (set_child parent (before ++ set_child new taken :: rest)))
               end
          else match __insert_resource fuel first new with
               | Some (Ins_ok first') => Some (Ins_ok (set_child parent (before ++ first' :: after)))
               | r => r
               end
      end
  end.
(** The descent goes at most as deep as the tree. *)
Fixpoint height (r : resource) : nat :=
  let 'Res _ _ _ _ c := r in S (list_max (map height c)).
Definition insert_resource (parent new : resource) : option (Z * resource) :=
  r ← __insert_resource (height parent) parent new;
  Some (match r with Ins_ok parent' => (0, parent') | Ins_conflict _ => (- EBUSY, parent) end).

(** ** Allocation: the first gap that fits *)
Record resource_constraint := { c_min : Z; c_max : Z; c_align : Z; c_alignf : Z → Z → Z → Z → Z }.
(** simple_align_resource returns the start of what is available. *)
Definition simple_align_resource (avail_start avail_end size align : Z) : Z := avail_start.
Definition ALIGN (x a : Z) : Z := u32 (x + (u32 (a - 1))) .& ~32 (u32 (a - 1)).
(** One gap [tmp_start, tmp_end], after clipping; [size] bytes or nothing. *)
Definition try_gap (k : resource_constraint) (size tmp_start tmp_end : Z) : option (Z * Z) :=
  let avail_start := ALIGN tmp_start (c_align k) in
  if tmp_start <=? avail_start then
    let alloc_start := c_alignf k avail_start tmp_end size (c_align k) in
    let alloc_end := u32 (alloc_start + size - 1) in
    if resource_contains avail_start tmp_end alloc_start alloc_end then Some (alloc_start, alloc_end) else None
  else None.
Definition is_old (old : option Z) (r : resource) : bool :=
  match old with Some o => r_id r =? o | None => false end.
Fixpoint find_loop (root_end : Z) (old : option Z) (k : resource_constraint) (size tmp_start : Z)
    (this : list resource) : option (Z * Z) :=
  let tmp_end := match this with
                 | r :: _ => if is_old old r then r_end r else u32 (r_start r - 1)
                 | [] => root_end
                 end in
  let skip := tmp_end <? tmp_start in
  let tmp_start := if skip then tmp_start else Z.max tmp_start (c_min k) in
  let found := if skip then None else try_gap k size tmp_start (Z.min tmp_end (c_max k)) in
  match found, this with
  | Some a, _ => Some a
  | None, [] => None
  | None, r :: rest =>
      if r_end r =? root_end then None
      else find_loop root_end old k size (if is_old old r then tmp_start else u32 (r_end r + 1)) rest
  end.
Definition __find_resource (root : resource) (old : option Z) (size : Z) (k : resource_constraint) : option (Z * Z) :=
  match r_child root with
  | r :: rest =>
      if r_start r =? r_start root
      then find_loop (r_end root) old k size (if is_old old r then r_start r else u32 (r_end r + 1)) rest
      else find_loop (r_end root) old k size (r_start root) (r :: rest)
  | [] => find_loop (r_end root) old k size (r_start root) []
  end.
(** allocate_resource of a resource that is in no tree. *)
Definition allocate_resource (root new : resource) (size : Z) (k : resource_constraint) : Z * resource * resource :=
  match __find_resource root None size k with
  | None => (- EBUSY, root, new)
  | Some (s, e) =>
      let new := set_range new s e in
      match __request_resource root new with
      | Req_ok root' => (0, root', new)
      | _ => (- EBUSY, root, new)
      end
  end.
(** Replacing a child in place, by address. *)
Definition update_child (parent : resource) (id : Z) (f : resource → resource) : resource :=
  set_child parent (map (λ c, if r_id c =? id then f c else c) (r_child parent)).
(** reallocate_resource of the child [old] of [root]. *)
Definition reallocate_resource (root old : resource) (size : Z) (k : resource_constraint) : outcome (Z * resource) :=
  match __find_resource root (Some (r_id old)) size k with
  | None => Ret (- EBUSY, root)
  | Some (s, e) =>
      if resource_contains s e (r_start old) (r_end old)
      then Ret (0, update_child root (r_id old) (λ c, set_range c s e))
      else match r_child old with
           | _ :: _ => Ret (- EBUSY, root)
           | [] =>
               if resource_contains (r_start old) (r_end old) s e
               then Ret (0, update_child root (r_id old) (λ c, set_range c s e))
               else let '(_, root) := __release_resource root (r_id old) in
                    match __request_resource root (set_range old s e) with
                    | Req_ok root' => Ret (0, root')
                    | _ => Bug
                    end
           end
  end.

(** ** Lookup and adjustment *)
Definition lookup_resource (root : resource) (start : Z) : option resource :=
  list_find (λ r, r_start r = start) (r_child root) ≫= λ p, Some p.2.
(** adjust_resource of the child after [before] and before [after]. *)
Definition adjust_resource (parent : resource) (before : list resource) (res : resource) (after : list resource)
    (start size : Z) : Z * resource :=
  let end_ := u32 (start + size - 1) in
  if (start <? r_start parent) || (r_end parent <? end_) then (- EBUSY, res)
  else if existsb (λ tmp, (r_start tmp <? start) || (end_ <? r_end tmp)) (r_child res) then (- EBUSY, res)
  else if match after with s :: _ => r_start s <=? end_ | [] => false end then (- EBUSY, res)
  else if match last before with Some tmp => start <=? r_end tmp | None => false end then (- EBUSY, res)
  else (0, set_range res start end_).

(** ** Regions: descend through resources that are not busy *)
Inductive region := Reg_ok (parent : resource) | Reg_null | Reg_sleep (conflict : resource).
Fixpoint request_region_loop (fuel : nat) (parent res : resource) (flags : Z) : option region :=
  match fuel with
  | O => None
  | S fuel =>
      let give_up_on conflict :=
        Some (if truthy (r_flags conflict .& flags .& IORESOURCE_MUXED) then Reg_sleep conflict else Reg_null) in
      match __request_resource parent res with
      | Req_ok parent' => Some (Reg_ok parent')
      | Req_root => give_up_on parent
      | Req_conflict before conflict after =>
          if truthy (r_flags conflict .& IORESOURCE_BUSY) then give_up_on conflict
          else match request_region_loop fuel conflict res flags with
               | Some (Reg_ok c) => Some (Reg_ok (set_child parent (before ++ c :: after)))
               | r => r
               end
      end
  end.
(** [id] is the address of the structure that kzalloc returned. *)
Definition __request_region (parent : resource) (id start n flags : Z) : option region :=
  request_region_loop (height parent) parent (Res id start (u32 (start + n - 1)) (IORESOURCE_BUSY .| flags) []) flags.
(** None: the region does not exist (a warning is printed). *)
Fixpoint release_region_in (r : resource) (start end_ : Z) : option resource :=
  let 'Res i s e f c := r in
  (λ c, Res i s e f c) <$>
  (fix scan (l : list resource) : option (list resource) :=
     match l with
     | [] => None
     | res :: after =>
         if (r_start res <=? start) && (end_ <=? r_end res) then
           if negb (truthy (r_flags res .& IORESOURCE_BUSY)) then
             (λ res, res :: after) <$> release_region_in res start end_
           else if negb (r_start res =? start) || negb (r_end res =? end_) then None
           else Some after
         else (λ l, res :: l) <$> scan after
     end) c.
Definition __release_region (parent : resource) (start n : Z) : option resource :=
  release_region_in parent start (u32 (start + n - 1)).

(** ** Well-formed trees *)

Inductive wf : resource → Prop :=
  | wf_res i s e f c :
      0 ≤ s ≤ e → e < 2 ^ 32 → Forall wf c →
      Forall (λ x, s ≤ r_start x ∧ r_end x ≤ e) c →
      StronglySorted (λ a b, r_end a < r_start b) c → wf (Res i s e f c).

(** The resources of a tree, as address, range and flags. *)
Definition key (r : resource) : Z * Z * Z * Z := (r_id r, r_start r, r_end r, r_flags r).
Fixpoint keys (r : resource) : list (Z * Z * Z * Z) :=
  let 'Res i s e f c := r in (i, s, e, f) :: flat_map keys c.
Definition k_start (k : Z * Z * Z * Z) : Z := k.1.1.2.
Definition k_end (k : Z * Z * Z * Z) : Z := k.1.2.
Definition k_id (k : Z * Z * Z * Z) : Z := k.1.1.1.

Definition apart (s1 e1 s2 e2 : Z) : Prop := e1 < s2 ∨ e2 < s1.
Definition inside (s1 e1 s2 e2 : Z) : Prop := s2 ≤ s1 ∧ e1 ≤ e2.
(** Neither apart nor nested. *)
Definition partial (s1 e1 s2 e2 : Z) : Prop :=
  ¬ apart s1 e1 s2 e2 ∧ ¬ inside s1 e1 s2 e2 ∧ ¬ inside s2 e2 s1 e1.

Lemma resource_ind' (P : resource → Prop) :
  (∀ i s e f c, Forall P c → P (Res i s e f c)) → ∀ r, P r.
Proof.
  intros H. fix IH 1. intros [i s e f c]. apply H.
  induction c as [|x c IHc]; constructor; [apply IH|apply IHc].
Qed.

Lemma keys_eq r : keys r = key r :: flat_map keys (r_child r).
Proof. by destruct r. Qed.
Lemma elem_of_flat_keys k c : k ∈ flat_map keys c ↔ ∃ x, x ∈ c ∧ k ∈ keys x.
Proof. rewrite list_elem_of_In, in_flat_map. setoid_rewrite list_elem_of_In. naive_solver. Qed.

Lemma wf_child r x : wf r → x ∈ r_child r → wf x ∧ r_start r ≤ r_start x ∧ r_end x ≤ r_end r.
Proof.
  intros [i s e f c _ _ Hc Hin _] Hx. cbn in *. rewrite Forall_forall in Hc, Hin. naive_solver.
Qed.
Lemma wf_range r : wf r → 0 ≤ r_start r ≤ r_end r ∧ r_end r < 2 ^ 32.
Proof. by intros []. Qed.

Lemma keys_inside r k : wf r → k ∈ keys r → inside (k_start k) (k_end k) (r_start r) (r_end r).
Proof.
  revert k. induction r as [i s e f c IH] using resource_ind'. intros k Hwf. rewrite keys_eq.
  intros [->|(x & Hx & Hk)%elem_of_flat_keys]%elem_of_cons; [done|].
  rewrite Forall_forall in IH. destruct (wf_child _ _ Hwf Hx) as [Hwx Hr].
  pose proof (IH x Hx k Hwx Hk). unfold inside in *. cbn in *. lia.
Qed.

(** In a well-formed tree two resources are nested or apart. *)
Lemma wf_laminar r a b : wf r → a ∈ keys r → b ∈ keys r →
  ¬ partial (k_start a) (k_end a) (k_start b) (k_end b).
Proof.
  revert a b. induction r as [i s e f c IH] using resource_ind'. intros a b Hwf Ha Hb.
  pose proof (keys_inside _ _ Hwf Ha). pose proof (keys_inside _ _ Hwf Hb).
  rewrite keys_eq in Ha, Hb. rewrite Forall_forall in IH.
  apply elem_of_cons in Ha as [->|(x & Hx & Ha)%elem_of_flat_keys]; [unfold partial; tauto|].
  apply elem_of_cons in Hb as [->|(y & Hy & Hb)%elem_of_flat_keys]; [unfold partial; tauto|].
  destruct (wf_child _ _ Hwf Hx) as [Hwx _], (wf_child _ _ Hwf Hy) as [Hwy _].
  apply list_elem_of_lookup in Hx as [n Hn], Hy as [m Hm].
  destruct (decide (n = m)) as [->|Hne]; [simplify_eq; eapply IH; eauto using list_elem_of_lookup_2|].
  pose proof (keys_inside _ _ Hwx Ha) as Hax. pose proof (keys_inside _ _ Hwy Hb) as Hby.
  inversion Hwf as [????? _ _ _ _ Hs]; subst. intros [Hap _]. apply Hap. unfold apart, inside in *.
  destruct (decide (n < m)%nat).
  - pose proof (StronglySorted_lookup _ _ _ _ _ _ Hs Hn Hm ltac:(lia)) as Hlt. cbn in Hlt. lia.
  - pose proof (StronglySorted_lookup _ _ _ _ _ _ Hs Hm Hn ltac:(lia)) as Hlt. cbn in Hlt. lia.
Qed.

Definition before (a b : resource) : Prop := r_end a < r_start b.

Lemma wf_iff r :
  wf r ↔ (0 ≤ r_start r ≤ r_end r ∧ r_end r < 2 ^ 32) ∧ (∀ x, x ∈ r_child r → wf x) ∧
    (∀ x, x ∈ r_child r → r_start r ≤ r_start x ∧ r_end x ≤ r_end r) ∧ StronglySorted before (r_child r).
Proof.
  split.
  - intros [i s e f c ? ? Hc Hin Hs]. rewrite Forall_forall in Hc, Hin. by cbn.
  - destruct r as [i s e f c]. intros ([? ?] & Hc & Hin & Hs). cbn in *. constructor; try done; by rewrite Forall_forall.
Qed.

(** Some consecutive children replaced by others in the same place. *)
Lemma wf_replace r l1 mid mid' l2 :
  wf r → r_child r = l1 ++ mid ++ l2 → (∀ x, x ∈ mid' → wf x) →
  (∀ x, x ∈ mid' → r_start r ≤ r_start x ∧ r_end x ≤ r_end r) → StronglySorted before mid' →
  (∀ x y, x ∈ l1 → y ∈ mid' → before x y) → (∀ x y, x ∈ mid' → y ∈ l2 → before x y) →
  wf (set_child r (l1 ++ mid' ++ l2)).
Proof.
  rewrite !wf_iff. intros (Hr & Hc & Hin & Hs) Hch. rewrite Hch in Hc, Hin, Hs. clear Hch.
  intros Hw Hi Hm H1 H2. cbn. split_and!; [lia|lia|lia| | |].
  - intros x. rewrite !elem_of_app. setoid_rewrite elem_of_app in Hc. setoid_rewrite elem_of_app in Hc. naive_solver.
  - intros x. rewrite !elem_of_app. setoid_rewrite elem_of_app in Hin. setoid_rewrite elem_of_app in Hin. naive_solver.
  - rewrite !StronglySorted_app in *. setoid_rewrite elem_of_app in Hs. setoid_rewrite elem_of_app. naive_solver.
Qed.

Lemma keys_replace r l1 mid mid' l2 extra :
  r_child r = l1 ++ mid ++ l2 → flat_map keys mid' ≡ₚ extra ++ flat_map keys mid →
  keys (set_child r (l1 ++ mid' ++ l2)) ≡ₚ extra ++ keys r.
Proof.
  intros Hch Hp. rewrite !keys_eq. cbn [set_child r_child]. rewrite Hch, !flat_map_app, Hp.
  change (key (set_child r (l1 ++ mid' ++ l2))) with (key r). solve_Permutation.
Qed.

(** ** The scan of __request_resource *)
Lemma request_scan_inl new bf rest c :
  request_scan new bf rest = inl c →
  ∃ l1 l2, rest = l1 ++ l2 ∧ c = bf ++ l1 ++ new :: l2 ∧ (∀ x, x ∈ l1 → before x new) ∧
    match l2 with [] => True | x :: _ => before new x end.
Proof.
  revert bf. induction rest as [|x rest IH]; intros bf; cbn.
  - intros [= <-]. exists [], []. set_solver.
  - destruct (Z.ltb_spec (r_end new) (r_start x)) as [Hlt|_].
    { intros [= <-]. exists [], (x :: rest). set_solver. }
    destruct (Z.ltb_spec (r_end x) (r_start new)) as [Hlt|_]; [|done].
    intros (l1 & l2 & -> & -> & H1 & H2)%IH. exists (x :: l1), l2. split_and!; [done| | |done].
    + by rewrite <-!app_assoc.
    + intros y [->|?]%elem_of_cons; [done|by apply H1].
Qed.

Lemma request_scan_inr new bf rest b t a :
  request_scan new bf rest = inr (b, t, a) →
  ∃ l1, rest = l1 ++ t :: a ∧ b = bf ++ l1 ∧ (∀ x, x ∈ l1 → before x new) ∧ ¬ before new t ∧ ¬ before t new.
Proof.
  revert bf. induction rest as [|x rest IH]; intros bf; cbn; [done|].
  destruct (Z.ltb_spec (r_end new) (r_start x)); [done|].
  destruct (Z.ltb_spec (r_end x) (r_start new)) as [Hlt|Hge].
  - intros (l1 & -> & -> & H1 & H2)%IH. exists (x :: l1). split_and!; [done|by rewrite <-app_assoc| |naive_solver..].
    intros y [->|?]%elem_of_cons; [done|by apply H1].
  - intros [= <- <- <-]. exists []. unfold before. split_and!; [done|by rewrite app_nil_r|set_solver|lia|lia].
Qed.

(** In sorted siblings, what comes after the head comes after. *)
Lemma sorted_after new l :
  StronglySorted before l → (∀ x, x ∈ l → r_start x ≤ r_end x) →
  match l with [] => True | x :: _ => before new x end → ∀ x, x ∈ l → before new x.
Proof.
  destruct l as [|y l]; [set_solver|]. intros [_ Hf]%StronglySorted_inv Hr Hy x [->|Hx]%elem_of_cons; [done|].
  rewrite Forall_forall in Hf. specialize (Hf x Hx). specialize (Hr y ltac:(set_solver)). unfold before in *. lia.
Qed.

Lemma request_ok root new root' :
  wf root → __request_resource root new = Req_ok root' →
  ∃ l1 l2, r_child root = l1 ++ l2 ∧ root' = set_child root (l1 ++ [new] ++ l2) ∧
    (∀ x, x ∈ l1 → before x new) ∧ (∀ x, x ∈ l2 → before new x) ∧
    r_start new ≤ r_end new ∧ inside (r_start new) (r_end new) (r_start root) (r_end root).
Proof.
  intros Hwf. unfold __request_resource.
  destruct (Z.ltb_spec (r_end new) (r_start new)); [done|].
  destruct (Z.ltb_spec (r_start new) (r_start root)); [done|].
  destruct (Z.ltb_spec (r_end root) (r_end new)); [done|].
  destruct (request_scan new [] (r_child root)) as [c|[[b t] a]] eqn:E; [|done]. intros [= <-].
  apply request_scan_inl in E as (l1 & l2 & Hch & -> & Hl1 & Hl2). exists l1, l2.
  apply wf_iff in Hwf as (_ & Hc & _ & Hs). rewrite Hch in Hs, Hc.
  split_and!; [done|done|done| |done|done]. apply sorted_after; [by eapply StronglySorted_app_1_r| |done].
  intros x Hx. apply (wf_range x), Hc. set_solver.
Qed.

Lemma request_conflict root new b t a :
  __request_resource root new = Req_conflict b t a →
  r_child root = b ++ [t] ++ a ∧ (∀ x, x ∈ b → before x new) ∧ ¬ before new t ∧ ¬ before t new ∧
  r_start new ≤ r_end new ∧ inside (r_start new) (r_end new) (r_start root) (r_end root).
Proof.
  unfold __request_resource.
  destruct (Z.ltb_spec (r_end new) (r_start new)); [done|].
  destruct (Z.ltb_spec (r_start new) (r_start root)); [done|].
  destruct (Z.ltb_spec (r_end root) (r_end new)); [done|].
  destruct (request_scan new [] (r_child root)) as [c|[[b' t'] a']] eqn:E; [done|]. intros [= <- <- <-].
  apply request_scan_inr in E as (l1 & Hch & -> & Hl1 & Hn & Ht). done.
Qed.

Lemma request_root root new :
  __request_resource root new = Req_root ↔
  r_end new < r_start new ∨ ¬ inside (r_start new) (r_end new) (r_start root) (r_end root).
Proof.
  unfold __request_resource, inside.
  destruct (Z.ltb_spec (r_end new) (r_start new)); [split; [auto|done]|].
  destruct (Z.ltb_spec (r_start new) (r_start root)); [split; [intros _; right; lia|done]|].
  destruct (Z.ltb_spec (r_end root) (r_end new)); [split; [intros _; right; lia|done]|].
  destruct (request_scan new [] (r_child root)) as [c|[[b' t'] a']]; (split; [done|lia]).
Qed.

(** ** Insertion *)
Definition overlaps (r new : resource) : Prop := partial (r_start r) (r_end r) (r_start new) (r_end new).

Lemma absorb_spec new first after :
  StronglySorted before (first :: after) → (∀ x, x ∈ first :: after → r_start x ≤ r_end x) →
  ¬ before new first → ¬ before first new →
  (inside (r_start new) (r_end new) (r_start first) (r_end first) → r_start first = r_start new ∧ r_end first = r_end new) →
  match absorb new first after with
  | inl (taken, rest) => first :: after = taken ++ rest ∧ taken ≠ [] ∧
      (∀ x, x ∈ taken → inside (r_start x) (r_end x) (r_start new) (r_end new)) ∧ (∀ x, x ∈ rest → before new x)
  | inr c => c ∈ first :: after ∧ overlaps c new
  end.
Proof.
  revert first. induction after as [|next after IH]; intros first Hs Hr Hn1 Hn2 Hin; cbn [absorb].
  - destruct (Z.ltb_spec (r_start first) (r_start new)); [|destruct (Z.ltb_spec (r_end new) (r_end first))]; cbn [orb].
    1,2: split; [set_solver|]; unfold overlaps, partial, apart, inside, before in *; lia.
    split_and!; [done|done| |set_solver]. intros x ->%list_elem_of_singleton. done.
  - apply StronglySorted_inv in Hs as [Hs Hf]. rewrite Forall_forall in Hf.
    pose proof (Hf next ltac:(set_solver)) as Hfn. pose proof (Hr first ltac:(set_solver)) as Hrf.
    pose proof (Hr next ltac:(set_solver)) as Hrn.
    destruct (Z.ltb_spec (r_start first) (r_start new)); [|destruct (Z.ltb_spec (r_end new) (r_end first))]; cbn [orb].
    1,2: split; [set_solver|]; unfold overlaps, partial, apart, inside, before in *; lia.
    destruct (Z.ltb_spec (r_end new) (r_start next)) as [Hlt|Hge].
    + split_and!; [done|done|intros x ->%list_elem_of_singleton; done|].
      apply sorted_after; [done| |done]. intros x Hx. apply Hr. set_solver.
    + specialize (IH next Hs ltac:(set_solver)). unfold before, inside in *.
      destruct (absorb new next after) as [[taken rest]|c]; (destruct IH as (IH1 & IH2); [lia|lia|intros [? ?]; lia|]).
      * destruct IH2 as (Hne & Hta & Hre). split_and!; [by rewrite IH1|done| |done].
        intros x [->|?]%elem_of_cons; [lia|by apply Hta].
      * split; [set_solver|done].
Qed.

Lemma height_child r x : x ∈ r_child r → (height x < height r)%nat.
Proof.
  destruct r as [i s e f c]. cbn. intros Hx. apply Nat.lt_succ_r.
  induction c as [|y c IH]; [set_solver|].
  change (list_max (map height (y :: c))) with (Nat.max (height y) (list_max (map height c))). apply elem_of_cons in Hx as [->|Hx]; [lia|]. specialize (IH Hx). lia.
Qed.

Definition insert_result (parent new : resource) (r : insert) : Prop :=
  match r with
  | Ins_ok p => key p = key parent ∧ wf p ∧ keys p ≡ₚ key new :: keys parent
  | Ins_conflict c => c = parent ∧ ¬ inside (r_start new) (r_end new) (r_start parent) (r_end parent)
                      ∨ key c ∈ keys parent ∧ overlaps c new
  end.

Lemma keys_key r : key r ∈ keys r.
Proof. rewrite keys_eq. set_solver. Qed.
Lemma keys_child r x k : x ∈ r_child r → k ∈ keys x → k ∈ keys r.
Proof. intros. rewrite (keys_eq r). apply elem_of_cons. right. apply elem_of_flat_keys. eauto. Qed.

Lemma wf_leaf new : r_child new = [] → 0 ≤ r_start new ≤ r_end new → r_end new < 2 ^ 32 → wf new.
Proof. intros Hc ??. apply wf_iff. rewrite Hc. split_and!; try lia; [set_solver..|constructor]. Qed.

Lemma request_ok_wf root new root' :
  wf root → wf new → __request_resource root new = Req_ok root' →
  key root' = key root ∧ wf root' ∧ keys root' ≡ₚ keys new ++ keys root.
Proof.
  intros Hwf Hn (l1 & l2 & Hch & -> & H1 & H2 & Hr & Hin)%request_ok; [|done]. split_and!; [done| |].
  - apply (wf_replace root l1 [] [new] l2); [done|done|set_solver| |repeat constructor| |].
    + intros x ->%list_elem_of_singleton. unfold inside in Hin. lia.
    + set_solver.
    + set_solver.
  - apply (keys_replace root l1 [] [new] l2); [done|]. cbn. by rewrite app_nil_r.
Qed.

Lemma child_neighbours r l1 x l2 : wf r → r_child r = l1 ++ [x] ++ l2 →
  (∀ y, y ∈ l1 → before y x) ∧ (∀ y, y ∈ l2 → before x y) ∧ StronglySorted before (x :: l2).
Proof.
  intros (_ & _ & _ & Hs)%wf_iff Hch. rewrite Hch in Hs. apply StronglySorted_app in Hs as (H1 & _ & Hs).
  split; [set_solver|]. split; [|done]. apply StronglySorted_inv in Hs as [_ Hf]. by rewrite Forall_forall in Hf.
Qed.

(** The new resource takes the place of the children it contains. *)
Lemma insert_absorb parent new bf first after taken rest :
  wf parent → wf new → r_child parent = bf ++ [first] ++ after → first :: after = taken ++ rest → taken ≠ [] →
  (∀ x, x ∈ bf → before x new) → (∀ x, x ∈ taken → inside (r_start x) (r_end x) (r_start new) (r_end new)) →
  (∀ x, x ∈ rest → before new x) → inside (r_start new) (r_end new) (r_start parent) (r_end parent) →
  insert_result parent new (Ins_ok (set_child parent (bf ++ set_child new taken :: rest))).
Proof.
  intros Hwf Hwn Hch Heq Hne Hb Hta Hre Hin.
  assert (r_child parent = bf ++ taken ++ rest) as Hch' by by rewrite Hch, <-Heq.
  split; [done|]. split.
  - apply (wf_replace parent bf taken [set_child new taken] rest); [done|done| | |repeat constructor|set_solver|set_solver].
    + intros x ->%list_elem_of_singleton. apply wf_iff in Hwn as (Hr & _), Hwf as (_ & Hc & _ & Hs).
      rewrite Hch' in Hc, Hs. apply wf_iff. cbn [set_child r_start r_end r_child].
      split_and!; [lia|lia|lia|set_solver|done|].
      by apply StronglySorted_app in Hs as (_ & _ & (_ & ? & _)%StronglySorted_app).
    + intros x ->%list_elem_of_singleton. cbn [set_child r_start r_end]. unfold inside in Hin. lia.
  - apply (keys_replace parent bf taken [set_child new taken] rest [key new]); [done|].
    cbn. by rewrite app_nil_r.
Qed.

Lemma insert_correct fuel : ∀ parent new,
  wf parent → (height parent ≤ fuel)%nat → r_child new = [] → 0 ≤ r_start new ≤ r_end new → r_end new < 2 ^ 32 →
  (∀ k, k ∈ keys parent → k_id k ≠ r_id new) →
  ∃ r, __insert_resource fuel parent new = Some r ∧ insert_result parent new r.
Proof.
  induction fuel as [|fuel IH]; intros parent new Hwf Hh Hc Hr1 Hr2 Hid.
  { destruct parent; cbn in Hh; lia. }
  assert (wf new) as Hwn by by apply wf_leaf. cbn [__insert_resource].
  destruct (__request_resource parent new) as [p| |bf first after] eqn:E.
  - eexists. split; [done|]. apply request_ok_wf in E; [|done|done]. rewrite (keys_eq new), Hc in E. done.
  - eexists. split; [done|]. left. apply request_root in E as [?|?]; [lia|done].
  - apply request_conflict in E as (Hch & Hb & Hn1 & Hn2 & _ & Hin).
    destruct (child_neighbours _ _ _ _ Hwf Hch) as (Hbf & Haf & Hsort).
    assert (∀ x, x ∈ first :: after → x ∈ r_child parent) as Hsub by (rewrite Hch; set_solver).
    assert (first ∈ r_child parent) as Hfirst by set_solver.
    destruct (wf_child _ _ Hwf Hfirst) as [Hwfirst Hfin].
    rewrite (proj2 (Z.eqb_neq _ _)) by (apply (Hid (key first)); eauto using keys_child, keys_key).
    destruct ((r_start new <? r_start first) || (r_end first <? r_end new)
      || (r_start first =? r_start new) && (r_end first =? r_end new)) eqn:Ec.
    + pose proof (absorb_spec new first after Hsort) as Ha.
      destruct (absorb new first after) as [[taken rest]|c]; (eexists; split; [done|]).
      * destruct Ha as (Heq & Hne & Hta & Hre); [| | | |by eapply insert_absorb]; [|done|done|].
        -- intros x Hx. by apply (wf_range x), (wf_child _ _ Hwf), Hsub.
        -- unfold inside. intros. lia.
      * right. destruct Ha as [Hx Ho]; [|done|done| |].
        -- intros x Hx. by apply (wf_range x), (wf_child _ _ Hwf), Hsub.
        -- unfold inside. intros. lia.
        -- split; [|done]. eapply keys_child; [by apply Hsub|apply keys_key].
    + destruct (IH first new) as ([first'|c] & -> & Hres); [done| |done..| | |].
      * pose proof (height_child _ _ Hfirst). lia.
      * intros k Hk. apply Hid. by eapply keys_child.
      * eexists. split; [done|]. destruct Hres as (Hk & Hw & Hp). split; [done|].
        injection Hk as Hki Hks Hke _. unfold before in Hbf, Haf. split.
        -- apply (wf_replace parent bf [first] [first'] after); [done|done|set_solver| |repeat constructor| |].
           ++ intros x ->%list_elem_of_singleton. lia.
           ++ intros x y Hx ->%list_elem_of_singleton. unfold before. rewrite Hks. by apply Hbf.
           ++ intros x y ->%list_elem_of_singleton Hy. unfold before. rewrite Hke. by apply Haf.
        -- apply (keys_replace parent bf [first] [first'] after [key new]); [done|]. cbn. by rewrite !app_nil_r.
      * eexists. split; [done|]. right. destruct Hres as [[-> Hni]|[Hk Ho]].
        -- exfalso. apply Hni. unfold inside in *. lia.
        -- split; [|done]. by eapply keys_child.
Qed.

(** C19: insert_resource terminates; it fails exactly if the new range leaves
    the parent or overlaps a resource of the tree partially, and then changes
    nothing; otherwise the tree stays well formed and gains exactly the new
    resource, all others kept. *)
Theorem insert_resource_spec root new :
  wf root → r_child new = [] → 0 ≤ r_start new ≤ r_end new → r_end new < 2 ^ 32 →
  (∀ k, k ∈ keys root → k_id k ≠ r_id new) →
  ∃ z root', insert_resource root new = Some (z, root') ∧
    (z = 0 ↔ inside (r_start new) (r_end new) (r_start root) (r_end root) ∧
             ∀ k, k ∈ keys root → ¬ partial (k_start k) (k_end k) (r_start new) (r_end new)) ∧
    (z = 0 → wf root' ∧ keys root' ≡ₚ key new :: keys root) ∧
    (z ≠ 0 → z = - EBUSY ∧ root' = root).
Proof.
  intros Hwf Hc Hr1 Hr2 Hid.
  destruct (insert_correct (height root) root new) as (r & Hi & Hres); try done.
  unfold insert_resource. rewrite Hi. destruct r as [p|c]; cbn; eexists _, _; (split; [done|]).
  - destruct Hres as (Hk & Hw & Hp). split_and!; [|done|done]. split; [intros _|done].
    assert (key new ∈ keys p) as Hnew by (rewrite Hp; set_solver).
    injection Hk as _ Hks Hke _. split.
    + rewrite <-Hks, <-Hke. by apply (keys_inside p (key new)).
    + intros k Hkin. apply (wf_laminar p k (key new)); [done| |done]. rewrite Hp. set_solver.
  - split_and!; [|done|done]. split; [done|]. intros [Hin Hno].
    destruct Hres as [[_ Hni]|[Hk Ho]]; [done|]. by destruct (Hno _ Hk).
Qed.
Lemma insert_resource_witness :
  ∃ z root', insert_resource (Res 0 0 0xffff 0x200 [Res 1 0x100 0x1ff 0x200 []; Res 2 0x300 0x3ff 0x200 []])
      (Res 3 0x100 0x3ff 0x200 []) = Some (z, root') ∧
    (z = 0 → wf root' ∧ keys root' ≡ₚ [(3, 0x100, 0x3ff, 0x200); (0, 0, 0xffff, 0x200); (1, 0x100, 0x1ff, 0x200); (2, 0x300, 0x3ff, 0x200)]).
Proof.
  destruct (insert_resource_spec
    (Res 0 0 0xffff 0x200 [Res 1 0x100 0x1ff 0x200 []; Res 2 0x300 0x3ff 0x200 []]) (Res 3 0x100 0x3ff 0x200 []))
    as (z & root' & Heq & _ & Hok & _).
  - by repeat constructor.
  - done.
  - done.
  - done.
  - intros k Hk. repeat (apply elem_of_cons in Hk as [->|Hk]; [done|]). set_solver.
  - exists z, root'. split; [exact Heq|exact Hok].
Defined.

(** ** Regions *)
Definition k_flags (k : Z * Z * Z * Z) : Z := k.2.
Definition busy (f : Z) : bool := truthy (f .& IORESOURCE_BUSY).
(** A resource [k] of the tree and the range [s, e]: apart, or around it and not busy. *)
Definition yields (k : Z * Z * Z * Z) (s e : Z) : Prop :=
  apart (k_start k) (k_end k) s e ∨ inside s e (k_start k) (k_end k) ∧ busy (k_flags k) = false.

Lemma apart_subtree x k s e : wf x → k ∈ keys x → apart (r_start x) (r_end x) s e → apart (k_start k) (k_end k) s e.
Proof. intros Hw Hk. pose proof (keys_inside _ _ Hw Hk). unfold apart, inside in *. lia. Qed.

Definition region_result (parent res : resource) (r : region) : Prop :=
  match r with
  | Reg_ok p =>
      key p = key parent ∧ wf p ∧ keys p ≡ₚ key res :: keys parent ∧
      inside (r_start res) (r_end res) (r_start parent) (r_end parent) ∧
      (∀ k, k ∈ flat_map keys (r_child parent) → yields k (r_start res) (r_end res)) ∧
      release_region_in p (r_start res) (r_end res) = Some parent
  | _ => ¬ inside (r_start res) (r_end res) (r_start parent) (r_end parent) ∨
         ∃ k, k ∈ flat_map keys (r_child parent) ∧ ¬ yields k (r_start res) (r_end res)
  end.

(** One level of __release_region. *)
Fixpoint release_region_scan (l : list resource) (start end_ : Z) : option (list resource) :=
  match l with
  | [] => None
  | res :: after =>
      if (r_start res <=? start) && (end_ <=? r_end res) then
        if negb (busy (r_flags res)) then (λ res, res :: after) <$> release_region_in res start end_
        else if negb (r_start res =? start) || negb (r_end res =? end_) then None
        else Some after
      else (λ l, res :: l) <$> release_region_scan after start end_
  end.
Lemma release_region_in_eq r s e :
  release_region_in r s e = set_child r <$> release_region_scan (r_child r) s e.
Proof.
  destruct r as [i rs re f c]. cbn. f_equal. induction c as [|x c IH]; [done|]. cbn. unfold busy. by rewrite IH.
Qed.

Lemma release_region_skip l1 l2 s e :
  s ≤ e → (∀ x, x ∈ l1 → r_end x < s) →
  release_region_scan (l1 ++ l2) s e = (λ l, l1 ++ l) <$> release_region_scan l2 s e.
Proof.
  intros Hse Hl1. induction l1 as [|x l1 IH]; cbn.
  - by destruct (release_region_scan l2 s e).
  - specialize (Hl1 x ltac:(set_solver)) as Hx. rewrite (proj2 (Z.leb_gt e (r_end x))) by lia.
    rewrite andb_false_r, IH by set_solver. by destruct (release_region_scan l2 s e).
Qed.

Lemma request_ok_region parent res p :
  wf parent → wf res → r_child res = [] → busy (r_flags res) = true →
  __request_resource parent res = Req_ok p → region_result parent res (Reg_ok p).
Proof.
  intros Hwf Hwr Hc Hb E. pose proof (request_ok_wf _ _ _ Hwf Hwr E) as (Hk & Hw & Hp).
  rewrite (keys_eq res), Hc in Hp. apply request_ok in E as (l1 & l2 & Hch & -> & H1 & H2 & Hr & Hin); [|done].
  split_and!; [done|done|done|done| |].
  - intros k (x & Hx & Hkx)%elem_of_flat_keys. left.
    destruct (wf_child _ _ Hwf Hx) as [Hwx _]. eapply apart_subtree; [done|done|]. rewrite Hch in Hx. unfold apart, before in *. set_solver.
  - rewrite release_region_in_eq. cbn [set_child r_child]. rewrite release_region_skip by done. cbn.
    rewrite !(proj2 (Z.leb_le _ _)), !Z.eqb_refl, Hb by lia. cbn. rewrite <-Hch. by destruct parent.
Qed.

(** A level that is passed on the way down. *)
Lemma region_descend parent res bf c after c' :
  wf parent → r_child parent = bf ++ [c] ++ after → (∀ x, x ∈ bf → before x res) →
  r_start res ≤ r_end res → inside (r_start res) (r_end res) (r_start parent) (r_end parent) →
  busy (r_flags c) = false → region_result c res (Reg_ok c') →
  region_result parent res (Reg_ok (set_child parent (bf ++ c' :: after))).
Proof.
  intros Hwf Hch Hb Hr Hinp Hbusy (Hk & Hw & Hp & Hin & Hy & Hrel).
  destruct (child_neighbours _ _ _ _ Hwf Hch) as (Hbf & Haf & _).
  assert (c ∈ r_child parent) as Hc by (rewrite Hch; set_solver).
  injection Hk as Hki Hks Hke Hkf. split_and!; [done| | |done| |].
  - destruct (wf_child _ _ Hwf Hc) as [_ Hcin].
    apply (wf_replace parent bf [c] [c'] after); [done|done|set_solver| |repeat constructor| |].
    + intros x ->%list_elem_of_singleton. lia.
    + intros x y Hx ->%list_elem_of_singleton. unfold before. rewrite Hks. by apply Hbf.
    + intros x y ->%list_elem_of_singleton Hx. unfold before. rewrite Hke. by apply Haf.
  - apply (keys_replace parent bf [c] [c'] after [key res]); [done|]. cbn. by rewrite !app_nil_r.
  - intros k (x & Hx & Hkx)%elem_of_flat_keys.
    destruct (wf_child _ _ Hwf Hx) as [Hwx _].
    rewrite Hch, !elem_of_app in Hx. destruct Hx as [Hx|[->%list_elem_of_singleton|Hx]].
    + left. eapply apart_subtree; [done..|]. left. by apply Hb.
    + rewrite keys_eq in Hkx. apply elem_of_cons in Hkx as [->|Hkx]; [|by apply Hy]. by right.
    + left. eapply apart_subtree; [done..|]. right. specialize (Haf x Hx). unfold before, inside in *. lia.
  - rewrite release_region_in_eq. cbn [set_child r_child]. rewrite release_region_skip by done. cbn.
    unfold inside in Hin. rewrite Hkf, Hbusy, !(proj2 (Z.leb_le _ _)) by lia. cbn [andb negb].
    rewrite Hrel. cbn. change (bf ++ c :: after) with (bf ++ [c] ++ after). rewrite <-Hch. by destruct parent.
Qed.

Lemma region_correct fuel : ∀ parent res flags,
  wf parent → (height parent ≤ fuel)%nat → wf res → r_child res = [] → busy (r_flags res) = true →
  ∃ r, request_region_loop fuel parent res flags = Some r ∧ region_result parent res r.
Proof.
  induction fuel as [|fuel IH]; intros parent res flags Hwf Hh Hwr Hc Hb.
  { destruct parent; cbn in Hh; lia. }
  destruct (wf_range _ Hwr) as [Hr _]. cbn [request_region_loop].
  destruct (__request_resource parent res) as [p| |bf c after] eqn:E.
  - eexists. split; [done|]. by apply request_ok_region.
  - eexists. split; [done|]. apply request_root in E as [?|?]; [lia|]. case_match; by left.
  - apply request_conflict in E as (Hch & Hbf & Hn1 & Hn2 & _ & Hin).
    assert (c ∈ r_child parent) as Hcin by (rewrite Hch; set_solver).
    assert (key c ∈ flat_map keys (r_child parent)) as Hkc.
    { apply elem_of_flat_keys. exists c. split; [done|apply keys_key]. }
    destruct (wf_child _ _ Hwf Hcin) as [Hwc _].
    fold (busy (r_flags c)). destruct (busy (r_flags c)) eqn:Hbusy.
    + eexists. split; [done|]. assert (¬ yields (key c) (r_start res) (r_end res)) as Hny.
      { intros [Ha|[_ Hf]]; [|cbn in Hf; congruence]. unfold apart, before in *. cbn in Ha. lia. }
      case_match; right; eauto.
    + destruct (IH c res flags) as (r & -> & Hres); [done| |done..|].
      { pose proof (height_child _ _ Hcin). lia. }
      destruct r as [c'| |c']; (eexists; split; [done|]); [eapply region_descend; (done || lia)| |].
      all: right; destruct Hres as [Hni|(k & Hk & Hny)];
        [exists (key c)|exists k; split; [|done]; apply elem_of_flat_keys; exists c; split; [done|]; rewrite keys_eq; set_solver].
      all: split; [done|]; intros [Ha|[Hi _]]; [|done]; unfold apart, before in *; cbn in Ha; lia.
Qed.


(** ** Allocation *)

Section allocate.
Context (a size : Z) (k : resource_constraint).
Context (Ha : 0 ≤ a ≤ 31) (Hsize : 0 < size < 2 ^ 32).
Context (Halign : c_align k = 2 ^ a) (Halignf : c_alignf k = simple_align_resource).
Context (Hmin : is_u32 (c_min k)) (Hmax : is_u32 (c_max k)).

(** An aligned slot at [s] in [lo, hi], apart from the resources [cs]. *)
Definition fits (lo hi : Z) (cs : list resource) (s : Z) : Prop :=
  (2 ^ a | s) ∧ c_min k ≤ s ∧ s + size - 1 ≤ c_max k ∧ lo ≤ s ∧ s + size - 1 ≤ hi ∧
  ∀ c, c ∈ cs → apart (r_start c) (r_end c) s (s + size - 1).
(** What the search found is the lowest slot, or nothing fits and the end of
    the range it reports has wrapped around. *)
Definition lowest (P : Z → Prop) (found : option (Z * Z)) : Prop :=
  match found with
  | None => ∀ s, ¬ P s
  | Some (s, e) => P s ∧ e = s + size - 1 ∧ (∀ s', P s' → s ≤ s') ∨ e < s ∧ ∀ s', ¬ P s'
  end.

Lemma pow_a : 0 < 2 ^ a ≤ 2 ^ 31.
Proof. split; [lia|apply Z.pow_le_mono_r; lia]. Qed.

(** ALIGN rounds up; when that leaves the 32 bits it gives a smaller address. *)
Lemma ALIGN_up x : is_u32 x → x ≤ ALIGN x (2 ^ a) →
  (2 ^ a | ALIGN x (2 ^ a)) ∧ is_u32 (ALIGN x (2 ^ a)) ∧ ∀ s, (2 ^ a | s) → x ≤ s → ALIGN x (2 ^ a) ≤ s.
Proof.
  intros Hx. pose proof pow_a as Hp. unfold ALIGN. rewrite (u32_small (2 ^ a - 1)) by lia.
  rewrite align_down by (apply u32_range || lia). set (w := u32 _).
  unfold is_u32 in *. pose proof (u32_range (x + (2 ^ a - 1))) as Hw. fold w in Hw.
  pose proof (Z.mul_div_le w (2 ^ a) ltac:(lia)) as Hle. pose proof (Z.div_pos w (2 ^ a) ltac:(lia) ltac:(lia)).
  intros Hup. split; [apply Z.divide_factor_l|]. split; [nia|].
  intros s [q ->] Hs. assert (w = x + (2 ^ a - 1)) as Hnw.
  { subst w. destruct (decide (x + (2 ^ a - 1) < 2 ^ 32)); [by apply u32_small; lia|].
    exfalso. unfold u32 in Hup, Hw, Hle. rewrite (Z.mod_eq _ (2 ^ 32)) in Hup, Hw, Hle by lia.
    assert ((x + (2 ^ a - 1)) / 2 ^ 32 = 1) as Hq by (symmetry; apply Z.div_unique with (x + (2 ^ a - 1) - 2 ^ 32); lia).
    rewrite Hq in *. lia. }
  rewrite Hnw. rewrite Z.mul_comm. apply Z.mul_le_mono_nonneg_r; [lia|].
  apply Z.lt_succ_r. apply Z.div_lt_upper_bound; [lia|]. nia.
Qed.
Lemma ALIGN_wrapped x s : is_u32 x → ALIGN x (2 ^ a) < x → (2 ^ a | s) → x ≤ s → 2 ^ 32 ≤ s.
Proof.
  intros Hx. pose proof pow_a as Hp. unfold ALIGN. rewrite (u32_small (2 ^ a - 1)) by lia.
  rewrite align_down by (apply u32_range || lia). unfold is_u32 in Hx.
  destruct (decide (x + (2 ^ a - 1) < 2 ^ 32)).
  - rewrite u32_small by lia. intros Hlt. pose proof (Z.mod_pos_bound (x + (2 ^ a - 1)) (2 ^ a) ltac:(lia)).
    pose proof (Z.div_mod (x + (2 ^ a - 1)) (2 ^ a) ltac:(lia)). lia.
  - intros _ [q ->] Hs. assert (2 ^ 32 = 2 ^ (32 - a) * 2 ^ a) as Hpow by (rewrite <-Z.pow_add_r by lia; f_equal; lia).
    rewrite Hpow in *. assert (2 ^ (32 - a) - 1 < q); [|nia]. nia.
Qed.

(** One gap, given its start after clipping. *)
Lemma try_gap_lowest lo hi te cs :
  is_u32 lo → is_u32 hi → is_u32 te →
  (∀ s, fits lo hi cs s → s + size - 1 ≤ te ∨ te < s) →
  (∀ s, (2 ^ a | s) → c_min k ≤ s → s + size - 1 ≤ c_max k → lo ≤ s → s + size - 1 ≤ te → fits lo hi cs s) →
  match try_gap k size (Z.max lo (c_min k)) (Z.min te (c_max k)) with
  | Some f => lowest (fits lo hi cs) (Some f)
  | None => ∀ s, fits lo hi cs s → te < s
  end.
Proof.
  intros Hlo Hhi Hte Hcase Hfit. unfold try_gap. rewrite Halign, Halignf. unfold simple_align_resource.
  set (x := Z.max lo (c_min k)). assert (is_u32 x) as Hx by (unfold is_u32 in *; lia).
  destruct (Z.leb_spec x (ALIGN x (2 ^ a))) as [Hup|Hdown].
  - destruct (ALIGN_up x Hx Hup) as (Hdiv & Hal & Hleast). set (al := ALIGN x (2 ^ a)) in *.
    assert (∀ s, fits lo hi cs s → al ≤ s) as Hlow.
    { intros s (Hd & Hm & _ & Hl & _). apply Hleast; [done|lia]. }
    unfold resource_contains. rewrite Z.leb_refl. cbn [andb].
    destruct (decide (al + size - 1 < 2 ^ 32)) as [Hnw|Hw].
    + rewrite (u32_small (al + size - 1)) by (unfold is_u32 in *; lia).
      destruct (Z.leb_spec (al + size - 1) (Z.min te (c_max k))); cbn [lowest].
      * left. split_and!; [|done|done]. apply Hfit; [done|lia..].
      * intros s Hs. specialize (Hlow s Hs) as ?. destruct (Hcase s Hs) as [?|?]; [|done].
        destruct Hs as (_ & _ & Hsm & _). lia.
    + assert (∀ s, ¬ fits lo hi cs s) as Hno.
      { intros s Hs. specialize (Hlow s Hs). destruct Hs as (_ & _ & Hsm & _). unfold is_u32 in Hmax. lia. }
      assert (u32 (al + size - 1) = al + size - 1 - 2 ^ 32) as ->.
      { unfold is_u32 in Hal. symmetry. apply (Z.mod_unique _ _ 1); lia. }
      destruct (_ <=? _); [|intros s Hs; by destruct (Hno s)]. right. split; [lia|done].
  - intros s Hs. exfalso. destruct Hs as (Hd & Hm & Hsm & Hl & _).
    pose proof (ALIGN_wrapped x s Hx Hdown Hd ltac:(lia)). unfold is_u32 in Hmax. lia.
Qed.
Lemma lowest_iff (P Q : Z → Prop) found : (∀ s, P s ↔ Q s) → lowest P found → lowest Q found.
Proof. intros HPQ. destruct found as [[s e]|]; cbn; setoid_rewrite HPQ; done. Qed.

(** Past a resource: the slots that remain are those behind it. *)
Lemma fits_past lo hi r rest s :
  (∀ c, c ∈ r :: rest → lo ≤ r_start c ≤ r_end c ∧ r_end c ≤ hi) → StronglySorted before (r :: rest) →
  (fits lo hi (r :: rest) s → r_start r - 1 < s) → fits (r_end r + 1) hi rest s ↔ fits lo hi (r :: rest) s.
Proof.
  intros Hc [_ Hf]%StronglySorted_inv Hpast. rewrite Forall_forall in Hf.
  specialize (Hc r ltac:(set_solver)) as Hr. split.
  - intros (? & ? & ? & Hlo & ? & Hap). unfold fits. split_and!; try done; [lia|].
    intros c [->|Hin]%elem_of_cons; [left; lia|by apply Hap].
  - intros Hs. specialize (Hpast Hs). destruct Hs as (? & ? & ? & Hlo & ? & Hap). unfold fits. split_and!; try done.
    + destruct (Hap r ltac:(set_solver)); lia.
    + intros c Hin. apply Hap. set_solver.
Qed.

Lemma find_loop_lowest hi cs : ∀ lo,
  is_u32 lo → is_u32 hi → StronglySorted before cs →
  (∀ c, c ∈ cs → (lo ≤ r_start c ≤ r_end c ∧ r_end c ≤ hi) ∧ 0 < r_start c) →
  lowest (fits lo hi cs) (find_loop hi None k size lo cs).
Proof.
  induction cs as [|r rest IH]; intros lo Hlo Hhi Hs Hc; cbn [find_loop].
  - destruct (Z.ltb_spec hi lo) as [Hlt|Hge].
    + intros s (_ & _ & _ & ? & ? & _). lia.
    + pose proof (try_gap_lowest lo hi hi [] Hlo Hhi Hhi) as Hgap.
      destruct (try_gap _ _ _ _) as [f|]; [apply Hgap|]; cbn.
      * intros s (_ & _ & _ & ? & ? & _). lia.
      * intros s ?????. unfold fits. split_and!; (done || set_solver).
      * intros s Hf. assert (hi < s); [|destruct Hf as (_ & _ & _ & ? & ? & _); lia].
        apply Hgap; [|intros; unfold fits; split_and!; (done || set_solver)|done].
        intros s' (_ & _ & _ & ? & ? & _). lia.
  - unfold is_u32 in Hlo, Hhi. destruct (Hc r ltac:(set_solver)) as [Hr Hpos]. cbn [is_old].
    rewrite (u32_small (r_start r - 1)) by lia.
    assert ((∀ s, fits lo hi (r :: rest) s → r_start r - 1 < s) →
      lowest (fits lo hi (r :: rest)) (if r_end r =? hi then None
        else find_loop hi None k size (u32 (r_end r + 1)) rest)) as Hrest.
    { intros Hpast. destruct (Z.eqb_spec (r_end r) hi) as [He|He].
      - intros s Hfs. specialize (Hpast s Hfs). destruct Hfs as (_ & _ & _ & _ & ? & Hap).
        destruct (Hap r ltac:(set_solver)); lia.
      - rewrite u32_small by lia. eapply lowest_iff.
        + intros s. apply fits_past; [intros c Hin; by apply Hc|done|apply Hpast].
        + apply StronglySorted_inv in Hs as [Hs Hf]. rewrite Forall_forall in Hf.
          apply IH; [unfold is_u32; lia|done|done|]. intros c Hin.
          destruct (Hc c ltac:(set_solver)) as [? ?]. specialize (Hf c Hin). unfold before in Hf. lia. }
    destruct (Z.ltb_spec (r_start r - 1) lo) as [Hlt|Hge].
    { apply Hrest. intros s (_ & _ & _ & ? & _). lia. }
    pose proof (try_gap_lowest lo hi (r_start r - 1) (r :: rest) Hlo Hhi ltac:(unfold is_u32; lia)) as Hgap.
    assert (∀ s, fits lo hi (r :: rest) s → s + size - 1 ≤ r_start r - 1 ∨ r_start r - 1 < s) as Hcase.
    { intros s (_ & _ & _ & _ & _ & Hap). destruct (Hap r ltac:(set_solver)); lia. }
    assert (∀ s, (2 ^ a | s) → c_min k ≤ s → s + size - 1 ≤ c_max k → lo ≤ s → s + size - 1 ≤ r_start r - 1 →
      fits lo hi (r :: rest) s) as Hfit.
    { intros s ?????. unfold fits. split_and!; [done..|lia|]. apply StronglySorted_inv in Hs as [_ Hf].
      rewrite Forall_forall in Hf. intros c [->|Hin]%elem_of_cons; [right; lia|].
      specialize (Hf c Hin). unfold before in Hf. right. lia. }
    destruct (try_gap _ _ _ _) as [f|]; [by apply Hgap|]. apply Hrest. by apply Hgap.
Qed.

(** The slots under a root, and the search from its first child. *)
Lemma find_resource_lowest root :
  wf root → (∀ c, c ∈ r_child root → r_start c = r_start root → r_end c < 2 ^ 32 - 1) →
  lowest (fits (r_start root) (r_end root) (r_child root)) (__find_resource root None size k).
Proof.
  intros Hwf Hfull. apply wf_iff in Hwf as (Hr & Hc & Hin & Hs). unfold __find_resource.
  assert (is_u32 (r_start root) ∧ is_u32 (r_end root)) as [Hlo Hhi] by (unfold is_u32; lia).
  assert (∀ c, c ∈ r_child root → r_start root ≤ r_start c ≤ r_end c ∧ r_end c ≤ r_end root) as Hb.
  { intros c Hcin. pose proof (wf_range c (Hc c Hcin)). specialize (Hin c Hcin). lia. }
  clear Hc Hin. destruct (r_child root) as [|r rest] eqn:Hch.
  { apply find_loop_lowest; [done..|set_solver]. }
  pose proof (Hb r ltac:(set_solver)) as Hbr.
  assert (∀ c, c ∈ rest → r_end r < r_start c) as Hrest.
  { apply StronglySorted_inv in Hs as [_ Hf]. by rewrite Forall_forall in Hf. }
  destruct (Z.eqb_spec (r_start r) (r_start root)) as [He|He]; cbn [is_old].
  - specialize (Hfull r ltac:(set_solver) He). rewrite u32_small by lia. eapply lowest_iff.
    + intros s. apply fits_past; [done|done|]. intros (_ & _ & _ & ? & _). lia.
    + apply find_loop_lowest; [unfold is_u32; lia|done|by apply StronglySorted_inv in Hs as [? _]|].
      intros c Hcin. specialize (Hb c ltac:(set_solver)). specialize (Hrest c Hcin). lia.
  - apply find_loop_lowest; [done..|]. intros c [->|Hcin]%elem_of_cons; [lia|].
    specialize (Hb c ltac:(set_solver)). specialize (Hrest c Hcin). lia.
Qed.

(** A resource over the whole root leaves no room and is always in conflict. *)
Lemma full_root root c new :
  wf root → c ∈ r_child root → r_start c = r_start root → r_end c = 2 ^ 32 - 1 →
  (∀ s, ¬ fits (r_start root) (r_end root) (r_child root) s) ∧ ∀ r, __request_resource root new ≠ Req_ok r.
Proof.
  intros Hwf Hc Hs He. pose proof (wf_range _ Hwf) as Hr. split.
  - intros s (_ & _ & _ & ? & ? & Hap). destruct (Hap c Hc); lia.
  - intros r (l1 & l2 & Hch & _ & H1 & H2 & ? & Hin)%request_ok; [|done].
    unfold inside in Hin. rewrite Hch, elem_of_app in Hc.
    destruct Hc as [Hc|Hc]; [specialize (H1 c Hc)|specialize (H2 c Hc)]; unfold before in *; lia.
Qed.

Lemma request_slot root new s e :
  wf root → r_child new = [] → fits (r_start root) (r_end root) (r_child root) s → e = s + size - 1 →
  ∃ root', __request_resource root (set_range new s e) = Req_ok root' ∧ wf root' ∧
    keys root' ≡ₚ key (set_range new s e) :: keys root.
Proof.
  intros Hwf Hc (Hd & Hm & Hx & Hlo & Hhi & Hap) ->. pose proof (wf_range _ Hwf) as Hr.
  destruct (__request_resource root (set_range new s (s + size - 1))) as [r| |b t f] eqn:E.
  - exists r. split; [done|]. apply request_ok_wf in E as (_ & Hw & Hp); [|done|].
    + split; [done|]. rewrite Hp, (keys_eq (set_range _ _ _)). cbn [set_range r_child]. by rewrite Hc.
    + apply wf_leaf; cbn; [done|lia..].
  - apply request_root in E. unfold inside in E. cbn in E. lia.
  - apply request_conflict in E as (Hch & _ & H1 & H2 & _). unfold before in *. cbn in H1, H2.
    destruct (Hap t ltac:(rewrite Hch; set_solver)); lia.
Qed.

(** C36: allocate_resource finds the lowest aligned slot of the requested size
    between the limits that overlaps no child, and inserts the resource there;
    it fails only if there is none, and then leaves the tree alone. Addresses
    that wrap around 32 bits never reach the tree. *)
Theorem allocate_resource_spec root new :
  wf root → r_child new = [] →
  let slot := fits (r_start root) (r_end root) (r_child root) in
  let '(z, root', new') := allocate_resource root new size k in
  (z = 0 ∧ slot (r_start new') ∧ r_end new' = r_start new' + size - 1 ∧ (∀ s, slot s → r_start new' ≤ s) ∧
   wf root' ∧ keys root' ≡ₚ key new' :: keys root) ∨
  (z = - EBUSY ∧ root' = root ∧ ∀ s, ¬ slot s).
Proof.
  intros Hwf Hc slot. unfold allocate_resource.
  destruct (decide (Exists (λ c, r_start c = r_start root ∧ r_end c = 2 ^ 32 - 1) (r_child root))) as [Hf|Hf].
  - apply Exists_exists in Hf as (c & Hcin & Hs & He).
    destruct (__find_resource root None size k) as [[s e]|].
    + destruct (full_root root c (set_range new s e) Hwf Hcin Hs He) as [Hno Hreq].
      destruct (__request_resource root (set_range new s e)) eqn:E; [by destruct (Hreq root0)|by right..].
    + right. split_and!; [done..|]. by apply (full_root root c new).
  - assert (lowest slot (__find_resource root None size k)) as Hlow.
    { apply find_resource_lowest; [done|]. intros c Hcin Hs. pose proof (wf_range c (proj1 (wf_child _ _ Hwf Hcin))).
      destruct (decide (r_end c = 2 ^ 32 - 1)); [|lia]. destruct Hf. apply Exists_exists. eauto. }
    destruct (__find_resource root None size k) as [[s e]|]; [|by right].
    destruct Hlow as [(Hfit & He & Hle)|[Hw Hno]].
    + destruct (request_slot root new s e Hwf Hc Hfit He) as (root' & -> & Hw & Hp). left. by split_and!.
    + rewrite (proj2 (request_root root (set_range new s e))) by (left; cbn; lia). by right.
Qed.
End allocate.

Definition constraint0 : resource_constraint :=
  {| c_min := 0; c_max := 0xffffffff; c_align := 2 ^ 8; c_alignf := simple_align_resource |}.
Lemma allocate_resource_witness :
  let '(z, root', new') := allocate_resource (Res 0 0 0xffffffff 0x200 [Res 1 0 0x1ff 0x200 []; Res 2 0x280 0x37f 0x200 []])
    (Res 3 0 0 0x200 []) 0x200 constraint0 in
  z = 0 ∧ r_start new' = 0x400 ∧ wf root'.
Proof.
  pose proof (allocate_resource_spec 8 0x200 constraint0 ltac:(lia) ltac:(lia) eq_refl eq_refl
    ltac:(done) ltac:(done) (Res 0 0 0xffffffff 0x200 [Res 1 0 0x1ff 0x200 []; Res 2 0x280 0x37f 0x200 []])
    (Res 3 0 0 0x200 []) ltac:(by repeat constructor) eq_refl) as H.
  destruct (allocate_resource _ _ _ _) as [[z root'] new'] eqn:E. vm_compute in E. injection E as <- <- <-.
  destruct H as [(_ & _ & _ & _ & Hw & _)|[? _]]; [|done]. split; [reflexivity|]. split; [reflexivity|exact Hw].
Defined.

Definition constraint1 : resource_constraint :=
  {| c_min := 0xfffff800; c_max := 0xffffffff; c_align := 0x800; c_alignf := simple_align_resource |}.

(** reallocate_resource does not notice that the end it computes has
    wrapped around 32 bits: with a lower limit less than the new size below the
    top of the address space, it turns a resource of a well-formed tree into a
    range that ends before it starts and reports success, or runs into its
    BUG_ON. *)
Theorem reallocate_wraps :
  (∃ root old root', wf root ∧ old ∈ r_child root ∧
     reallocate_resource root old 0x1000 constraint1 = Ret (0, root') ∧ ¬ wf root') ∧
  (∃ root old, wf root ∧ old ∈ r_child root ∧ reallocate_resource root old 0x1000 constraint1 = Bug).
Proof.
  split.
  - exists (Res 0 0 0xffffffff 0x200 [Res 1 0x1000 0x1fff 0x200 []]), (Res 1 0x1000 0x1fff 0x200 []).
    eexists. split_and!; [by repeat constructor|set_solver|vm_compute; reflexivity|].
    intros [Hc _]%(wf_child _ (Res 1 0xfffff800 0x7ff 0x200 [])); [|set_solver].
    apply wf_range in Hc as [? _]. cbn in *. lia.
  - exists (Res 0 0 0xffffffff 0x200 [Res 1 0x100 0x5ff 0x200 []]), (Res 1 0x100 0x5ff 0x200 []).
    split_and!; [by repeat constructor|set_solver|by vm_compute].
Qed.

End Resource.
