(* ===== verification/Board.v ===== *)
(** * Board: the devices of the boards and their registration

    The platform devices of the DE2-115 and DE2-70 boards
    (arch/mips/z48soc/z48soc_mach_*.c), their registration through
    platform_device_add (drivers/base/platform.c), and the memory resources
    that resource_init (arch/mips/kernel/setup.c) takes from the memory map. *)

From S2P Require Import Prelude Resource Z48soc.
Import Resource Z48soc.

Module Board.

(** ** Registration of a device *)

(** A platform device as far as registration reads it. *)
Record platform_device := { pd_id : Z; pd_resource : list resource }.

(** release_resource of a resource anywhere in a tree: [r_id] is its address. *)
Fixpoint release_resource (r : resource) (old : Z) : option resource :=
  let 'Res i s e f c := r in
  match release_scan old [] c with
  | Some c => Some (Res i s e f c)
  | None =>
      (λ c, Res i s e f c) <$>
      (fix scan (l : list resource) : option (list resource) :=
         match l with
         | [] => None
         | x :: l => match release_resource x old with
                     | Some x => Some (x :: l)
                     | None => (λ l, x :: l) <$> scan l
                     end
         end) c
  end.

(** The two roots: memory and I/O ports. *)
Record roots := { iomem_resource : resource; ioport_resource : resource }.
(** The resource tree that a resource of the device belongs to. *)
Inductive root_of := Mem | Io | NoRoot.
Definition resource_root (r : resource) : root_of :=
  if resource_type r =? IORESOURCE_MEM then Mem
  else if resource_type r =? IORESOURCE_IO then Io
  else NoRoot.
Definition claim (t : roots) (r : resource) : option (Z * roots) :=
  match resource_root r with
  | Mem => '(ret, m) ← insert_resource (iomem_resource t) r;
           Some (ret, {| iomem_resource := m; ioport_resource := ioport_resource t |})
  | Io => '(ret, p) ← insert_resource (ioport_resource t) r;
          Some (ret, {| iomem_resource := iomem_resource t; ioport_resource := p |})
  | NoRoot => Some (0, t)
  end.
(** The clean-up after a failure: the resources before it, last one first. *)
Definition unclaim (t : roots) (r : resource) : roots :=
  match resource_root r with
  | Mem => {| iomem_resource := default (iomem_resource t) (release_resource (iomem_resource t) (r_id r));
              ioport_resource := ioport_resource t |}
  | Io => {| iomem_resource := iomem_resource t;
             ioport_resource := default (ioport_resource t) (release_resource (ioport_resource t) (r_id r)) |}
  | NoRoot => t
  end.
(** The loop over the resources: [done_] have been claimed. *)
Fixpoint claim_loop (t : roots) (done_ todo : list resource) : option (Z * roots * list resource) :=
  match todo with
  | [] => Some (0, t, done_)
  | r :: todo =>
      '(ret, t) ← claim t r;
      if ret =? 0 then claim_loop t (done_ ++ [r]) todo else Some (- EBUSY, t, done_)
  end.
(** [added] is what device_add returns. *)
Definition platform_device_add (t : roots) (pdev : platform_device) (added : Z) : option (Z * roots) :=
  '(ret, t, claimed) ← claim_loop t [] (pd_resource pdev);
  let ret := if ret =? 0 then added else ret in
  if ret =? 0 then Some (0, t) else Some (ret, foldl unclaim t (reverse claimed)).

(** ** The memory resources of the kernel *)
Definition HIGHMEM_START : Z := 0x20000000.
(** One entry of the memory map: its resource at address [id], with the code
    and data of the kernel inside it where they fit. *)
Definition resource_init_entry (iomem code data : resource) (id : Z) (b : boot_mem_map_entry) : resource :=
  let start := bm_addr b in
  let end_ := u32 (bm_addr b + bm_size b - 1) in
  if HIGHMEM_START <=? start then iomem else
  let end_ := if HIGHMEM_START <=? end_ then HIGHMEM_START - 1 else end_ in
  let res := Res id start end_ (IORESOURCE_MEM .| IORESOURCE_BUSY) [] in
  let '(_, res) := request_resource res code in
  let '(_, res) := request_resource res data in
  (request_resource iomem res).2.
Fixpoint resource_init (iomem code data : resource) (id : Z) (map : list boot_mem_map_entry) : resource :=
  match map with
  | [] => iomem
  | b :: map => resource_init (resource_init_entry iomem code data id b) code data (id + 1) map
  end.

(** ** The boards *)
Definition IRQF_TRIGGER_HIGH : Z := 4.
Definition PHY_POLL : Z := -1.
Definition mem_res (id start end_ : Z) : resource := Res id start end_ IORESOURCE_MEM [].
Definition irq_res (id irq flags : Z) : resource := Res id (u32 irq) (u32 irq) (IORESOURCE_IRQ .| flags) [].

Definition uart : platform_device := {| pd_id := 0; pd_resource := [] |}.
Definition isp1362_hcd : platform_device :=
  {| pd_id := -1; pd_resource := [mem_res 110 0x1fd000a0 (0x1fd000a0 + 3);
       mem_res 111 (0x1fd000a0 + 4) (0x1fd000a0 + 4 + 3); irq_res 112 36 IRQF_TRIGGER_HIGH] |}.
Definition cfi_device : platform_device :=
  {| pd_id := -1; pd_resource := [mem_res 120 0x1c000000 (0x1c000000 + 8 * 1024 * 1024 - 1)] |}.
Definition eth0_resource : list resource :=
  [mem_res 130 0x1fd00800 (0x1fd00800 + 0x400 - 1); mem_res 131 0x1fd01000 (0x1fd01000 + 0x10 - 1);
   mem_res 132 0x1fd10000 (0x1fd10000 + 0x8000 - 1); mem_res 133 0x1fd18000 (0x1fd18000 + 0x8000 - 1);
   irq_res 134 40 0; irq_res 135 41 0; irq_res 136 PHY_POLL 0].
Definition eth0_device : platform_device := {| pd_id := 0; pd_resource := eth0_resource |}.
Definition dm9k_device : platform_device :=
  {| pd_id := 0; pd_resource := [mem_res 140 0x1fd00080 (0x1fd00080 + 3);
       mem_res 141 (0x1fd00080 + 4) (0x1fd00080 + 4 + 3); irq_res 142 33 IRQF_TRIGGER_HIGH] |}.
Definition ps2k_device : platform_device :=
  {| pd_id := 0; pd_resource := [mem_res 150 0x1fd00020 (0x1fd00020 + 7); irq_res 151 35 IRQF_TRIGGER_HIGH] |}.
Definition ps2m_device : platform_device :=
  {| pd_id := 1; pd_resource := [mem_res 160 0x1fd00028 (0x1fd00028 + 7); irq_res 161 39 IRQF_TRIGGER_HIGH] |}.

Record board := { z48soc_ram_size_mb : Z; z48soc_cpu_clock_freq_khz : Z; devices : list platform_device }.
Definition de2_115 : board :=
  {| z48soc_ram_size_mb := 128; z48soc_cpu_clock_freq_khz := 40000;
     devices := [uart; isp1362_hcd; cfi_device; eth0_device] |}.
Definition de2_70 : board :=
  {| z48soc_ram_size_mb := 64; z48soc_cpu_clock_freq_khz := 25000;
     devices := [uart; ps2k_device; ps2m_device; dm9k_device; isp1362_hcd; cfi_device] |}.

(** z48soc_devinit: every device is registered, whatever the others returned;
    the results in order. *)
Fixpoint z48soc_devinit (t : roots) (devs : list platform_device) (added : platform_device → Z) : option (list Z * roots) :=
  match devs with
  | [] => Some ([], t)
  | d :: devs =>
      '(err, t) ← platform_device_add t d (added d);
      '(errs, t) ← z48soc_devinit t devs added;
      Some (err :: errs, t)
  end.

(** ** Claiming ranges that are free *)

(** The resources below the root. *)
Definition below (r : resource) : list (Z * Z * Z * Z) := flat_map keys (r_child r).
Definition is_mem (r : resource) : bool := if resource_root r is Mem then true else false.
(** A leaf with a proper range, apart from all that is below the root. *)
Definition free_in (root r : resource) : Prop :=
  r_child r = [] ∧ 0 ≤ r_start r ≤ r_end r ∧ r_end r < 2 ^ 32 ∧
  inside (r_start r) (r_end r) (r_start root) (r_end root) ∧ r_id root ≠ r_id r ∧
  ∀ k, k ∈ below root → apart (k_start k) (k_end k) (r_start r) (r_end r) ∧ k_id k ≠ r_id r.

Lemma insert_free root r :
  wf root → free_in root r →
  ∃ root', insert_resource root r = Some (0, root') ∧ wf root' ∧ key root' = key root ∧
    below root' ≡ₚ key r :: below root.
Proof.
  intros Hwf (Hc & Hr1 & Hr2 & Hin & Hid & Hap).
  destruct (insert_correct (height root) root r) as (res & Hres & Hok); try done.
  { rewrite keys_eq. intros k [->|Hk]%elem_of_cons; [done|by apply Hap]. }
  unfold insert_resource. rewrite Hres. destruct res as [p|c]; cbn.
  - destruct Hok as (Hk & Hw & Hp). exists p. split_and!; [done|done|done|].
    rewrite (keys_eq p), (keys_eq root), Hk in Hp. unfold below.
    apply (Permutation_cons_inv (a := key root)). rewrite Hp. solve_Permutation.
  - exfalso. destruct Hok as [[_ Hn]|[Hk (Hn1 & Hn2 & Hn3)]]; [done|].
    rewrite keys_eq in Hk. apply elem_of_cons in Hk as [Hk|Hk].
    + injection Hk as _ Hs He _. rewrite Hs, He in Hn3. done.
    + apply Hn1. by apply (Hap (key c)).
Qed.

(** Two memory resources of the devices do not collide. *)
Definition compatible (r1 r2 : resource) : Prop :=
  is_mem r1 → is_mem r2 → apart (r_start r1) (r_end r1) (r_start r2) (r_end r2) ∧ r_id r1 ≠ r_id r2.
Definition claimable (t : roots) (rs : list resource) : Prop :=
  Forall (λ r, resource_root r = NoRoot ∨ resource_root r = Mem ∧ free_in (iomem_resource t) r) rs ∧
  StronglySorted compatible rs.
Definition mem_keys (rs : list resource) : list (Z * Z * Z * Z) := key <$> filter (λ r, is_mem r) rs.

Lemma claimable_next t r rs m :
  claimable t (r :: rs) → resource_root r = Mem → key m = key (iomem_resource t) →
  below m ≡ₚ key r :: below (iomem_resource t) →
  claimable {| iomem_resource := m; ioport_resource := ioport_resource t |} rs.
Proof.
  intros [[_ Hf]%Forall_cons [Hs Hc]%StronglySorted_inv] Hr Hk Hb. split; [|done].
  rewrite Forall_forall in Hf, Hc. apply Forall_forall. intros x Hx.
  destruct (Hf x Hx) as [?|[Hm (H1 & H2 & H3 & H4 & H5 & H6)]]; [by left|]. right. split; [done|].
  injection Hk as Hki Hks Hke _. unfold free_in. cbn. rewrite Hki, Hks, Hke. split_and!; try done; try lia.
  intros k. rewrite Hb. intros [->|Hkin]%elem_of_cons; [|by apply H6].
  apply (Hc x Hx); unfold is_mem; [by rewrite Hr|by rewrite Hm].
Qed.

Lemma claim_loop_ok rs : ∀ t done_,
  wf (iomem_resource t) → claimable t rs →
  ∃ t', claim_loop t done_ rs = Some (0, t', done_ ++ rs) ∧ wf (iomem_resource t') ∧
    key (iomem_resource t') = key (iomem_resource t) ∧ ioport_resource t' = ioport_resource t ∧
    below (iomem_resource t') ≡ₚ mem_keys rs ++ below (iomem_resource t).
Proof.
  induction rs as [|r rs IH]; intros t done_ Hwf Hc; cbn [claim_loop].
  { exists t. by rewrite app_nil_r. }
  assert (claimable t [r]) as [[Hr _]%Forall_cons _].
  { destruct Hc as [[Hr _]%Forall_cons _]. split; [by constructor|repeat constructor]. }
  unfold claim. destruct Hr as [Hn|[Hm Hfree]].
  - rewrite Hn. cbn [mbind option_bind]. destruct (IH t (done_ ++ [r]) Hwf) as (t' & Hl & Hrest).
    { destruct Hc as [[_ ?]%Forall_cons [? _]%StronglySorted_inv]. by split. }
    exists t'. rewrite <-app_assoc in Hl. split; [done|]. unfold mem_keys. rewrite filter_cons.
    rewrite decide_False by (unfold is_mem; rewrite Hn; exact id). exact Hrest.
  - rewrite Hm. destruct (insert_free _ _ Hwf Hfree) as (m & -> & Hw & Hk & Hb). cbn [mbind option_bind].
    set (t1 := {| iomem_resource := m; ioport_resource := ioport_resource t |}).
    destruct (IH t1 (done_ ++ [r]) Hw (claimable_next _ _ _ _ Hc Hm Hk Hb)) as (t' & Hl & Hw' & Hk' & Hp & Hb').
    exists t'. rewrite <-app_assoc in Hl. split_and!; [done|done|by rewrite Hk'|done|].
    rewrite Hb'. unfold mem_keys. rewrite filter_cons.
    rewrite decide_True by (unfold is_mem; by rewrite Hm). cbn. rewrite Hb. solve_Permutation.
Qed.

Lemma platform_device_add_ok t d :
  wf (iomem_resource t) → claimable t (pd_resource d) →
  ∃ t', platform_device_add t d 0 = Some (0, t') ∧ wf (iomem_resource t') ∧
    key (iomem_resource t') = key (iomem_resource t) ∧
    below (iomem_resource t') ≡ₚ mem_keys (pd_resource d) ++ below (iomem_resource t).
Proof.
  intros Hwf Hc. destruct (claim_loop_ok _ t [] Hwf Hc) as (t' & Hl & Hw & Hk & _ & Hb).
  exists t'. unfold platform_device_add. by rewrite Hl.
Qed.

(** Later devices stay claimable after one has been registered. *)
Lemma claimable_after t t' rs1 rs2 :
  claimable t (rs1 ++ rs2) → key (iomem_resource t') = key (iomem_resource t) →
  below (iomem_resource t') ≡ₚ mem_keys rs1 ++ below (iomem_resource t) → claimable t' rs2.
Proof.
  intros [[_ Hf]%Forall_app (Hc & _ & Hs)%StronglySorted_app] Hk Hb. split; [|done].
  rewrite Forall_forall in Hf. apply Forall_forall. intros x Hx.
  destruct (Hf x Hx) as [?|[Hm (H1 & H2 & H3 & H4 & H5 & H6)]]; [by left|]. right. split; [done|].
  injection Hk as Hki Hks Hke _. unfold free_in. rewrite Hki, Hks, Hke. split_and!; try done; try lia.
  intros k. rewrite Hb, elem_of_app. intros [Hkin|Hkin]; [|by apply H6].
  apply list_elem_of_fmap in Hkin as (y & -> & [Hy Hyin]%list_elem_of_filter).
  apply (Hc y x); [done..|]. unfold is_mem. by rewrite Hm.
Qed.

Lemma devinit_ok devs : ∀ t,
  wf (iomem_resource t) → claimable t (devs ≫= pd_resource) →
  ∃ t', z48soc_devinit t devs (λ _, 0) = Some (replicate (length devs) 0, t') ∧ wf (iomem_resource t') ∧
    key (iomem_resource t') = key (iomem_resource t) ∧
    below (iomem_resource t') ≡ₚ mem_keys (devs ≫= pd_resource) ++ below (iomem_resource t).
Proof.
  induction devs as [|d devs IH]; intros t Hwf Hc; cbn [z48soc_devinit].
  { exists t. done. }
  change ((d :: devs) ≫= pd_resource) with (pd_resource d ++ (devs ≫= pd_resource)) in *.
  destruct (platform_device_add_ok t d Hwf) as (t1 & -> & Hw1 & Hk1 & Hb1).
  { destruct Hc as [[Hc _]%Forall_app (_ & Hs & _)%StronglySorted_app]. by split. }
  cbn [mbind option_bind]. destruct (IH t1 Hw1 (claimable_after _ _ _ _ Hc Hk1 Hb1)) as (t2 & -> & Hw2 & Hk2 & Hb2).
  exists t2. split_and!; [done|done|by rewrite Hk2|]. rewrite Hb2, Hb1. unfold mem_keys. rewrite filter_app, fmap_app.
  solve_Permutation.
Qed.

(** ** The trees the boards start from *)
Section boot.
Context (E M text etext edata : Z).
Context (HE : 0 < E < M) (HM : M ≤ 2 ^ 27) (Htext : 0 ≤ text < etext) (Hdata : etext < edata ≤ E).

Definition iomem0 : resource := Res 0 0 0xffffffff IORESOURCE_MEM [].
Definition code_resource : resource := Res 90 text (etext - 1) 0 [].
Definition data_resource : resource := Res 91 etext (edata - 1) 0 [].
Definition RAM_FLAGS : Z := IORESOURCE_MEM .| IORESOURCE_BUSY.
Definition booted : resource :=
  Res 0 0 0xffffffff IORESOURCE_MEM
    [Res 80 0 (E - 1) RAM_FLAGS [code_resource; data_resource]; Res 81 E (M - 1) RAM_FLAGS []].

Lemma resource_init_boards :
  resource_init iomem0 code_resource data_resource 80
    [{| bm_addr := 0; bm_size := E; bm_type := BOOT_MEM_RESERVED |};
     {| bm_addr := E; bm_size := M - E; bm_type := BOOT_MEM_RAM |}] = booted.
Proof.
  cbn [resource_init]. unfold resource_init_entry. cbn [bm_addr bm_size]. unfold HIGHMEM_START.
  rewrite (u32_small (0 + E - 1)), (u32_small (E + (M - E) - 1)) by lia.
  replace (0 + E - 1) with (E - 1) by lia. replace (E + (M - E) - 1) with (M - 1) by lia.
  rewrite !(proj2 (Z.leb_gt _ _)) by lia.
  unfold request_resource, __request_resource, code_resource, data_resource, iomem0, set_child. cbn [r_start r_end r_child request_scan].
  repeat (match goal with |- context [?x <? ?y] =>
    first [rewrite (proj2 (Z.ltb_ge x y)) by lia|rewrite (proj2 (Z.ltb_lt x y)) by lia] end;
    cbn [r_start r_end r_child r_id r_flags request_scan set_child app fst snd]).
  done.
Qed.
Lemma booted_wf : wf booted.
Proof.
  unfold booted, code_resource, data_resource.
  repeat match goal with
    | |- wf _ => constructor
    | |- Forall _ _ => constructor
    | |- StronglySorted _ _ => constructor
    | |- _ => cbn; lia
    end.
Qed.

(** Device ranges above the RAM are free. *)
Definition device_range (r : resource) : Prop :=
  r_child r = [] ∧ 2 ^ 27 ≤ r_start r ≤ r_end r ∧ r_end r < 2 ^ 32 ∧ 100 ≤ r_id r.
Lemma booted_claimable ioport rs :
  Forall (λ r, resource_root r = NoRoot ∨ resource_root r = Mem ∧ device_range r) rs → StronglySorted compatible rs →
  claimable {| iomem_resource := booted; ioport_resource := ioport |} rs.
Proof.
  intros Hf Hs. split; [|done]. apply (Forall_impl _ _ _ Hf). intros r [?|[Hm (Hc & Hr & He & Hid)]]; [by left|].
  right. split; [done|]. unfold free_in, inside. cbn [iomem_resource booted r_start r_end r_id]. split_and!; try (done || lia).
  intros k Hk. change (below booted) with [(80, 0, E - 1, RAM_FLAGS); (90, text, etext - 1, 0);
    (91, etext, edata - 1, 0); (81, E, M - 1, RAM_FLAGS)] in Hk.
  repeat (apply elem_of_cons in Hk as [->|Hk]; [cbn; unfold apart; lia|]). set_solver.
Qed.
End boot.

Ltac check_devices :=
  repeat match goal with
    | |- Forall _ _ => constructor
    | |- StronglySorted _ _ => constructor
    | |- _ ∨ _ => by left
    | |- _ ∨ _ => right
    | |- _ ∧ _ => split
    | |- compatible _ _ => intros [] []
    | |- apart _ _ _ _ => unfold apart; cbn; lia
    | |- device_range _ => unfold device_range; cbn; lia
    | |- _ => done
    end.

Lemma board_devices b : b = de2_115 ∨ b = de2_70 →
  Forall (λ r, resource_root r = NoRoot ∨ resource_root r = Mem ∧ device_range r) (devices b ≫= pd_resource) ∧
  StronglySorted compatible (devices b ≫= pd_resource).
Proof.
  intros [-> | ->]; cbn; split; check_devices.
Qed.

(** C31: on both boards, for every kernel image that fits the RAM, the memory
    map of the boot code becomes a tree with the image and the rest of the RAM,
    and z48soc_devinit registers every device: no two device windows collide
    with each other or with the RAM, and the tree ends up with exactly these
    resources, properly nested. *)
Theorem board_devinit b end_ text etext edata ioport :
  b = de2_115 ∨ b = de2_70 → 0x80000000 < end_ → kernel_end end_ < z48soc_ram_size_mb b * 1048576 →
  0 ≤ text < etext → etext < edata ≤ kernel_end end_ →
  ∃ map t, prom_meminit end_ (z48soc_ram_size_mb b) [] = Some map ∧
    z48soc_devinit
      {| iomem_resource := resource_init iomem0 (code_resource text etext) (data_resource etext edata) 80 map;
         ioport_resource := ioport |} (devices b) (λ _, 0) = Some (replicate (length (devices b)) 0, t) ∧
    wf (iomem_resource t) ∧
    keys (iomem_resource t) ≡ₚ
      mem_keys (devices b ≫= pd_resource) ++
      keys (booted (kernel_end end_) (z48soc_ram_size_mb b * 1048576) text etext edata).
Proof.
  intros Hb Hend HE Ht Hd. destruct (board_devices b Hb) as [Hf Hs].
  set (M := z48soc_ram_size_mb b * 1048576) in *.
  assert (M ≤ 2 ^ 27 ∧ 0 < z48soc_ram_size_mb b) as [HM Hmb] by (subst M; destruct Hb as [-> | ->]; cbn; lia).
  assert (0 < kernel_end end_ ∧ end_ ≤ 0x9ffff000) as [H0 Hend2].
  { unfold kernel_end in *. split; Z.div_mod_to_equations; lia. }
  eexists _. pose proof (prom_meminit_eq end_ (z48soc_ram_size_mb b) ltac:(lia) Hmb ltac:(lia)) as Hmap.
  fold M in Hmap. cbn zeta in Hmap. rewrite (proj2 (Z.ltb_lt _ _)) in Hmap by lia.
  pose proof (resource_init_boards (kernel_end end_) M text etext edata ltac:(lia) HM Ht Hd) as Hinit.
  destruct (devinit_ok (devices b)
    {| iomem_resource := booted (kernel_end end_) M text etext edata; ioport_resource := ioport |})
    as (t & Hdev & Hw & Hk & Hbl).
  - apply booted_wf; lia.
  - apply booted_claimable; (done || lia).
  - exists t. rewrite Hinit. split_and!; [exact Hmap|done|done|].
    rewrite (keys_eq (iomem_resource t)), Hk. unfold below in Hbl. rewrite Hbl. rewrite (keys_eq (booted _ _ _ _ _)).
    cbn [iomem_resource]. solve_Permutation.
Qed.
Lemma board_devinit_witness :
  ∃ map t, prom_meminit 0x80345678 128 [] = Some map ∧
    z48soc_devinit
      {| iomem_resource := resource_init iomem0 (code_resource 0x100000 0x280000) (data_resource 0x280000 0x300000) 80 map;
         ioport_resource := iomem0 |} (devices de2_115) (λ _, 0) = Some ([0; 0; 0; 0], t) ∧ wf (iomem_resource t).
Proof.
  destruct (board_devinit de2_115 0x80345678 0x100000 0x280000 0x300000 iomem0) as (map & t & H1 & H2 & H3 & _).
  - by left.
  - lia.
  - by vm_compute.
  - lia.
  - split; [lia|by vm_compute].
  - exists map, t. split; [exact H1|]. split; [exact H2|exact H3].
Defined.

(** The error path of platform_device_add gives back the claimed ranges
    with release_resource, which also drops the resources that insert_resource
    had moved below them: after a failed registration over an existing resource
    that resource has disappeared from the tree. *)
Theorem platform_device_add_loses :
  ∃ iomem r d, wf iomem ∧ r ∈ r_child iomem ∧
    ∃ iomem', platform_device_add {| iomem_resource := iomem; ioport_resource := iomem0 |} d (-5)
      = Some (-5, {| iomem_resource := iomem'; ioport_resource := iomem0 |}) ∧ key r ∉ keys iomem'.
Proof.
  exists (Res 0 0 0xffffffff IORESOURCE_MEM [mem_res 1 0x100 0x1ff]), (mem_res 1 0x100 0x1ff),
    {| pd_id := 0; pd_resource := [mem_res 2 0 0xfff] |}.
  split; [by repeat constructor|]. split; [set_solver|]. eexists. split; [by vm_compute|].
  apply (bool_decide_unpack _). by vm_compute.
Qed.

End Board.
