(* ===== verification/Kfifo.v ===== *)
(** * Kfifo: the generic kernel FIFO (kernel/kfifo.c)

    Elements of a fixed size in a ring of a power of two of them, positions
    that wrap around 32 bits, records with a length header, and the transfers
    from and to user space with their faults. The buffer is a list of bytes; an
    access outside of it is [None]. *)

From S2P Require Import Prelude.

Module Kfifo.

Definition EINVAL : Z := 22.
Definition ENOMEM : Z := 12.
Definition EFAULT : Z := 14.

(** [f_data = None] is the null pointer. *)
Record __kfifo := { f_in : Z; f_out : Z; f_mask : Z; f_esize : Z; f_data : option (list Z) }.
Definition set_in (f : __kfifo) (i : Z) : __kfifo :=
  {| f_in := i; f_out := f_out f; f_mask := f_mask f; f_esize := f_esize f; f_data := f_data f |}.
Definition set_out (f : __kfifo) (o : Z) : __kfifo :=
  {| f_in := f_in f; f_out := o; f_mask := f_mask f; f_esize := f_esize f; f_data := f_data f |}.
Definition set_data (f : __kfifo) (d : list Z) : __kfifo :=
  {| f_in := f_in f; f_out := f_out f; f_mask := f_mask f; f_esize := f_esize f; f_data := Some d |}.

Definition kfifo_unused (f : __kfifo) : Z := u32 (u32 (f_mask f + 1) - u32 (f_in f - f_out f)).

(** ** Setting up *)
Definition is_power_of_2 (n : Z) : bool := truthy n && (n .& (u32 (n - 1)) =? 0).
(** 1UL << (fls(n) - 1), for [n] not 0. *)
Definition rounddown_pow_of_two (n : Z) : Z := 2 ^ Z.log2 n.
(** [mem] is what kmalloc returns for a number of bytes. *)
Definition __kfifo_alloc (size esize : Z) (mem : Z → option (list Z)) : Z * __kfifo :=
  let size := if is_power_of_2 size then size else rounddown_pow_of_two size in
  let f mask data := {| f_in := 0; f_out := 0; f_mask := mask; f_esize := esize; f_data := data |} in
  if size <? 2 then (- EINVAL, f 0 None)
  else match mem (u32 (size * esize)) with
       | None => (- ENOMEM, f 0 None)
       | Some data => (0, f (u32 (size - 1)) (Some data))
       end.
Definition __kfifo_free (f : __kfifo) : __kfifo :=
  {| f_in := 0; f_out := 0; f_mask := 0; f_esize := 0; f_data := None |}.
Definition __kfifo_init (buffer : list Z) (size esize : Z) : Z * __kfifo :=
  let size := size / esize in
  let size := if is_power_of_2 size then size else rounddown_pow_of_two size in
  let f mask := {| f_in := 0; f_out := 0; f_mask := mask; f_esize := esize; f_data := Some buffer |} in
  if size <? 2 then (- EINVAL, f 0) else (0, f (u32 (size - 1))).

(** ** Copies *)

(** memcpy to offset [off] of a buffer, and from it. *)
Definition store (data : list Z) (off : Z) (src : list Z) : option (list Z) :=
  if (0 <=? off) && (off + alen src <=? alen data)
  then Some (take (Z.to_nat off) data ++ src ++ drop (Z.to_nat (off + alen src)) data) else None.
Definition load (data : list Z) (off len : Z) : option (list Z) :=
  if (0 <=? off) && (0 <=? len) && (off + len <=? alen data)
  then Some (take (Z.to_nat len) (drop (Z.to_nat off) data)) else None.

(** The byte offset, byte length and first part of a transfer of [len]
    elements at position [off]. *)
Definition extent (f : __kfifo) (len off : Z) : Z * Z * Z :=
  let size := u32 (f_mask f + 1) in
  let esize := f_esize f in
  let off := off .& f_mask f in
  let '(off, size, len) :=
    if negb (esize =? 1) then (u32 (off * esize), u32 (size * esize), u32 (len * esize)) else (off, size, len) in
  (off, len, Z.min len (u32 (size - off))).

Definition kfifo_copy_in (f : __kfifo) (src : list Z) (len off : Z) : option __kfifo :=
  let '(off, len, l) := extent f len off in
  data ← f_data f;
  part1 ← load src 0 l;
  part2 ← load src l (len - l);
  data ← store data off part1;
  data ← store data 0 part2;
  Some (set_data f data).
Definition __kfifo_in (f : __kfifo) (buf : list Z) (len : Z) : option (Z * __kfifo) :=
  let l := kfifo_unused f in
  let len := if l <? len then l else len in
  f' ← kfifo_copy_in f buf len (f_in f);
  Some (len, set_in f' (u32 (f_in f + len))).

Definition kfifo_copy_out (f : __kfifo) (len off : Z) : option (list Z) :=
  let '(off, len, l) := extent f len off in
  data ← f_data f;
  part1 ← load data off l;
  part2 ← load data 0 (len - l);
  Some (part1 ++ part2).
Definition __kfifo_out_peek (f : __kfifo) (len : Z) : option (Z * list Z) :=
  let l := u32 (f_in f - f_out f) in
  let len := if l <? len then l else len in
  buf ← kfifo_copy_out f len (f_out f);
  Some (len, buf).
Definition __kfifo_out (f : __kfifo) (len : Z) : option (Z * list Z * __kfifo) :=
  '(len, buf) ← __kfifo_out_peek f len;
  Some (len, buf, set_out f (u32 (f_out f + len))).

(** ** User space: a user buffer is the bytes that can be read before a fault,
    or the number of bytes that can be written before one *)
Definition DIV_ROUND_UP (n d : Z) : Z := u32 (u32 (n + d) - 1) / d.
(** What arrives of [n] bytes (zero after a fault), and how many were not copied. *)
Definition copy_from_user (from : list Z) (n : Z) : list Z * Z :=
  let got := take (Z.to_nat n) from in
  (got ++ replicate (Z.to_nat (n - alen got)) 0, n - alen got).
Definition kfifo_copy_from_user (f : __kfifo) (from : list Z) (len off : Z) : option (__kfifo * Z * Z) :=
  let '(off, len, l) := extent f len off in
  data ← f_data f;
  let '(part1, ret) := copy_from_user from l in
  data ← store data off part1;
  '(data, ret) ←
    (if truthy ret then Some (data, DIV_ROUND_UP (u32 (ret + len - l)) (f_esize f))
     else let '(part2, ret) := copy_from_user (drop (Z.to_nat l) from) (len - l) in
          data ← store data 0 part2;
          Some (data, if truthy ret then DIV_ROUND_UP ret (f_esize f) else ret));
  Some (set_data f data, u32 (len - ret), ret).
(** The result, *copied, and the fifo. *)
Definition __kfifo_from_user (f : __kfifo) (from : list Z) (len : Z) : option (Z * Z * __kfifo) :=
  let len := if negb (f_esize f =? 1) then len / f_esize f else len in
  let l := kfifo_unused f in
  let len := if l <? len then l else len in
  '(f', copied, ret) ← kfifo_copy_from_user f from len (f_in f);
  let '(len, err) := if truthy ret then (u32 (len - ret), - EFAULT) else (len, 0) in
  Some (err, copied, set_in f' (u32 (f_in f + len))).

(** What reaches the user of [bytes], and how many were not copied. *)
Definition copy_to_user (room : Z) (bytes : list Z) : list Z * Z :=
  let put := take (Z.to_nat room) bytes in (put, alen bytes - alen put).
Definition kfifo_copy_to_user (f : __kfifo) (room len off : Z) : option (list Z * Z * Z) :=
  let '(off, len, l) := extent f len off in
  data ← f_data f;
  part1 ← load data off l;
  let '(put, ret) := copy_to_user room part1 in
  '(put, ret) ←
    (if truthy ret then Some (put, DIV_ROUND_UP (u32 (ret + len - l)) (f_esize f))
     else part2 ← load data 0 (len - l);
          let '(put2, ret) := copy_to_user (room - l) part2 in
          Some (put ++ put2, if truthy ret then DIV_ROUND_UP ret (f_esize f) else ret));
  Some (put, u32 (len - ret), ret).
Definition __kfifo_to_user (f : __kfifo) (room len : Z) : option (Z * Z * list Z * __kfifo) :=
  let len := if negb (f_esize f =? 1) then len / f_esize f else len in
  let l := u32 (f_in f - f_out f) in
  let len := if l <? len then l else len in
  '(put, copied, ret) ← kfifo_copy_to_user f room len (f_out f);
  let '(len, err) := if truthy ret then (u32 (len - ret), - EFAULT) else (len, 0) in
  Some (err, copied, put, set_out f (u32 (f_out f + len))).

(** ** Records: a header of [recsize] bytes (1 or 2) with the length, then the data *)
Definition __kfifo_max_r (len recsize : Z) : Z :=
  let max := u32 (s32 (1 .<< (recsize .<< 3)) - 1) in
  if max <? len then max else len.
Definition __KFIFO_PEEK (data : list Z) (out mask : Z) : option Z := aget data (out .& mask).
Definition __kfifo_peek_n (f : __kfifo) (recsize : Z) : option Z :=
  data ← f_data f;
  l ← __KFIFO_PEEK data (f_out f) (f_mask f);
  if truthy (u32 (recsize - 1)) then
    h ← __KFIFO_PEEK data (u32 (f_out f + 1)) (f_mask f);
    Some (l .| (h .<< 8))
  else Some l.
Definition __KFIFO_POKE (data : list Z) (in_ mask val : Z) : option (list Z) := aset data (in_ .& mask) (u8 val).
Definition __kfifo_poke_n (f : __kfifo) (n recsize : Z) : option __kfifo :=
  data ← f_data f;
  data ← __KFIFO_POKE data (f_in f) (f_mask f) n;
  data ← (if 1 <? recsize then __KFIFO_POKE data (u32 (f_in f + 1)) (f_mask f) (n .>> 8) else Some data);
  Some (set_data f data).
Definition __kfifo_len_r (f : __kfifo) (recsize : Z) : option Z := __kfifo_peek_n f recsize.
Definition __kfifo_in_r (f : __kfifo) (buf : list Z) (len recsize : Z) : option (Z * __kfifo) :=
  if kfifo_unused f <? u32 (len + recsize) then Some (0, f)
  else
    f ← __kfifo_poke_n f len recsize;
    f' ← kfifo_copy_in f buf len (u32 (f_in f + recsize));
    Some (len, set_in f' (u32 (f_in f + u32 (len + recsize)))).
(** The bytes copied, their number, and the length of the record. *)
Definition kfifo_out_copy_r (f : __kfifo) (len recsize : Z) : option (Z * list Z * Z) :=
  n ← __kfifo_peek_n f recsize;
  let len := if n <? len then n else len in
  buf ← kfifo_copy_out f len (u32 (f_out f + recsize));
  Some (len, buf, n).
Definition __kfifo_out_peek_r (f : __kfifo) (len recsize : Z) : option (Z * list Z) :=
  if f_in f =? f_out f then Some (0, [])
  else '(len, buf, _) ← kfifo_out_copy_r f len recsize; Some (len, buf).
Definition __kfifo_out_r (f : __kfifo) (len recsize : Z) : option (Z * list Z * __kfifo) :=
  if f_in f =? f_out f then Some (0, [], f)
  else
    '(len, buf, n) ← kfifo_out_copy_r f len recsize;
    Some (len, buf, set_out f (u32 (f_out f + u32 (n + recsize)))).
Definition __kfifo_skip_r (f : __kfifo) (recsize : Z) : option __kfifo :=
  n ← __kfifo_peek_n f recsize;
  Some (set_out f (u32 (f_out f + u32 (n + recsize)))).
Definition __kfifo_from_user_r (f : __kfifo) (from : list Z) (len recsize : Z) : option (Z * Z * __kfifo) :=
  let len := __kfifo_max_r len recsize in
  if kfifo_unused f <? u32 (len + recsize) then Some (0, 0, f)
  else
    f ← __kfifo_poke_n f len recsize;
    '(f', copied, ret) ← kfifo_copy_from_user f from len (u32 (f_in f + recsize));
    if truthy ret then Some (- EFAULT, 0, f')
    else Some (0, copied, set_in f' (u32 (f_in f + u32 (len + recsize)))).
Definition __kfifo_to_user_r (f : __kfifo) (room len recsize : Z) : option (Z * Z * list Z * __kfifo) :=
  if f_in f =? f_out f then Some (0, 0, [], f)
  else
    n ← __kfifo_peek_n f recsize;
    let len := if n <? len then n else len in
    '(put, copied, ret) ← kfifo_copy_to_user f room len (u32 (f_out f + recsize));
    if truthy ret then Some (- EFAULT, 0, put, f)
    else Some (0, copied, put, set_out f (u32 (f_out f + u32 (n + recsize)))).
(** The record operations of a DMA transfer that has moved the data itself. *)
Definition __kfifo_dma_in_finish_r (f : __kfifo) (len recsize : Z) : option __kfifo :=
  let len := __kfifo_max_r len recsize in
  f ← __kfifo_poke_n f len recsize;
  Some (set_in f (u32 (f_in f + u32 (len + recsize)))).
Definition __kfifo_dma_out_finish_r (f : __kfifo) (recsize : Z) : option __kfifo :=
  len ← __kfifo_peek_n f recsize;
  Some (set_out f (u32 (f_out f + u32 (len + recsize)))).

(** ** The ring of bytes *)

(** [bs] lies in [data] from position [start] on, wrapping at the end. *)
Definition at_ring (data : list Z) (start : Z) (bs : list Z) : Prop :=
  alen bs ≤ alen data ∧ ∀ j, 0 ≤ j < alen bs → aget data ((start + j) `mod` alen data) = aget bs j.

Lemma store_spec data off src :
  0 ≤ off → off + alen src ≤ alen data →
  ∃ data', store data off src = Some data' ∧ alen data' = alen data ∧
    ∀ i, aget data' i = if decide (off ≤ i < off + alen src) then aget src (i - off) else aget data i.
Proof.
  intros Ho Hl. unfold store. rewrite (proj2 (Z.leb_le 0 off)), (proj2 (Z.leb_le _ (alen data))) by lia. cbn.
  eexists. split; [done|]. pose proof (alen_nonneg src) as Hs. unfold alen in *. split.
  - rewrite !length_app, length_take, length_drop. lia.
  - intros i. destruct (decide (off ≤ i < off + Z.of_nat (length src))) as [Hi|Hi].
    + rewrite !aget_to_nat by lia.
      rewrite lookup_app_r by (rewrite length_take; lia). rewrite lookup_app_l by (rewrite length_take; lia).
      f_equal. rewrite length_take. lia.
    + destruct (decide (i < 0)); [by rewrite !aget_None by lia|]. rewrite !aget_to_nat by lia. destruct (decide (i < off)).
      * rewrite lookup_app_l by (rewrite length_take; lia). by rewrite lookup_take_lt by lia.
      * rewrite lookup_app_r by (rewrite length_take; lia). rewrite lookup_app_r by (rewrite length_take; lia).
        rewrite lookup_drop. f_equal. rewrite length_take. lia.
Qed.

Lemma load_spec data off len :
  0 ≤ off → 0 ≤ len → off + len ≤ alen data →
  ∃ bs, load data off len = Some bs ∧ alen bs = len ∧ ∀ j, 0 ≤ j < len → aget bs j = aget data (off + j).
Proof.
  intros Ho Hl Hd. unfold load. rewrite !(proj2 (Z.leb_le _ _)) by lia. cbn. eexists. split; [done|].
  unfold alen in *. split; [rewrite length_take, length_drop; lia|]. intros j Hj.
  rewrite !aget_to_nat by lia. rewrite lookup_take_lt, lookup_drop by lia. f_equal. lia.
Qed.

Lemma list_eq_aget (l1 l2 : list Z) : alen l1 = alen l2 → (∀ j, 0 ≤ j < alen l1 → aget l1 j = aget l2 j) → l1 = l2.
Proof.
  intros Hl H. apply list_eq_same_length with (length l1); [unfold alen in Hl; lia..|].
  intros i x y Hi Hx Hy. specialize (H (Z.of_nat i) ltac:(unfold alen; lia)). rewrite !aget_nat in H. congruence.
Qed.
Lemma alen_take (l : list Z) n : 0 ≤ n ≤ alen l → alen (take (Z.to_nat n) l) = n.
Proof. unfold alen. rewrite length_take. lia. Qed.
Lemma alen_drop (l : list Z) n : 0 ≤ n ≤ alen l → alen (drop (Z.to_nat n) l) = alen l - n.
Proof. unfold alen. rewrite length_drop. lia. Qed.
Lemma aget_take (l : list Z) n j : 0 ≤ j < n → aget (take (Z.to_nat n) l) j = aget l j.
Proof. intros. rewrite !aget_to_nat by lia. apply lookup_take_lt. lia. Qed.
Lemma aget_drop (l : list Z) n j : 0 ≤ n → 0 ≤ j → aget (drop (Z.to_nat n) l) j = aget l (n + j).
Proof. intros. rewrite !aget_to_nat by lia. rewrite lookup_drop. f_equal. lia. Qed.
Lemma aget_app_l (l1 l2 : list Z) j : j < alen l1 → aget (l1 ++ l2) j = aget l1 j.
Proof.
  intros. destruct (decide (0 ≤ j)); [|by rewrite !aget_None by lia].
  rewrite !aget_to_nat by lia. apply lookup_app_l. unfold alen in *. lia.
Qed.
Lemma aget_app_r (l1 l2 : list Z) j : alen l1 ≤ j → aget (l1 ++ l2) j = aget l2 (j - alen l1).
Proof.
  intros. pose proof (alen_nonneg l1). rewrite !aget_to_nat by lia. unfold alen in *.
  rewrite lookup_app_r by lia. f_equal. lia.
Qed.

(** Writing [w] behind what the ring holds; up to [win] bytes may change. *)
Lemma ring_write data data' s start q w win :
  0 < alen data → alen data' = alen data → at_ring data s q → alen w ≤ win → alen q + win ≤ alen data →
  (start - (s + alen q)) `mod` alen data = 0 →
  (∀ i, 0 ≤ i < alen data → (i - start) `mod` alen data < alen w →
     aget data' i = aget w ((i - start) `mod` alen data)) →
  (∀ i, 0 ≤ i < alen data → win ≤ (i - start) `mod` alen data → aget data' i = aget data i) →
  at_ring data' s (q ++ w).
Proof.
  intros HT Hl [_ Hq] Hwin Hlen Hst Hin Hout. set (T := alen data) in *. unfold at_ring. rewrite Hl, alen_app. split; [lia|].
  intros j Hj. pose proof (alen_nonneg q). pose proof (alen_nonneg w).
  assert (((s + j) `mod` T - start) `mod` T = (j - alen q) `mod` T) as Hrel.
  { rewrite Zminus_mod_idemp_l. apply Z.mod_divide in Hst as [c Hc]; [|lia].
    replace (s + j - start) with (j - alen q + (- c) * T) by lia. apply Z_mod_plus_full. }
  destruct (decide (j < alen q)).
  - replace (j - alen q) with (j - alen q + T + (-1) * T) in Hrel by lia.
    rewrite Z_mod_plus_full, (Z.mod_small (j - alen q + T)) in Hrel by lia.
    rewrite Hout; [|apply Z.mod_pos_bound; lia|rewrite Hrel; lia].
    rewrite aget_app_l by lia. apply Hq. lia.
  - rewrite (Z.mod_small (j - alen q)) in Hrel by lia.
    rewrite Hin; [|apply Z.mod_pos_bound; lia|lia]. by rewrite Hrel, aget_app_r by lia.
Qed.

Lemma ring_drop data s q n : 0 ≤ n ≤ alen q → at_ring data s q → at_ring data (s + n) (drop (Z.to_nat n) q).
Proof.
  intros Hn [Hl Hq]. split; [rewrite alen_drop by lia; lia|]. rewrite alen_drop by lia. intros j Hj.
  rewrite aget_drop by lia. rewrite <-Hq by lia. f_equal. f_equal. lia.
Qed.
Lemma ring_shift data s s' q : (s - s') `mod` alen data = 0 → 0 < alen data → at_ring data s q → at_ring data s' q.
Proof.
  intros Hs HT [Hl Hq]. split; [done|]. intros j Hj. rewrite <-Hq by done. f_equal.
  apply Z.mod_divide in Hs as [c Hc]; [|lia]. replace (s + j) with (s' + j + c * alen data) by lia. by rewrite Z_mod_plus_full.
Qed.

(** ** The invariant: a ring of [2 ^ b] elements of [f_esize f] bytes *)
Section ring.
Context (b esize : Z).
Context (Hb : 1 ≤ b ≤ 31) (Hesize : 1 ≤ esize) (Hfits : 2 ^ b * esize < 2 ^ 32).
Abbreviation cap := (2 ^ b).
Abbreviation total := (2 ^ b * esize).

Record geometry (f : __kfifo) (data : list Z) : Prop := {
  g_mask : f_mask f = cap - 1; g_esize : f_esize f = esize; g_data : f_data f = Some data;
  g_len : alen data = total; g_in : is_u32 (f_in f); g_out : is_u32 (f_out f) }.

Lemma cap_range : 2 ≤ cap ≤ 2 ^ 31.
Proof. split; [apply (Z.pow_le_mono_r 2 1 b); lia|apply Z.pow_le_mono_r; lia]. Qed.
Lemma total_range : 2 ≤ total.
Proof. pose proof cap_range. nia. Qed.

(** Positions that differ by the wrap-around are the same place in the ring. *)
Lemma pos_u32 x y : (u32 (x + y) * esize - (x * esize + y * esize)) `mod` total = 0.
Proof.
  pose proof cap_range. pose proof total_range. unfold u32.
  assert (2 ^ 32 = 2 ^ (32 - b) * cap) as Hp by (rewrite <-Z.pow_add_r by lia; f_equal; lia).
  rewrite (Z.mod_eq (x + y)) by lia. apply Z.mod_divide; [lia|].
  exists (- (2 ^ (32 - b) * ((x + y) / 2 ^ 32))). rewrite Hp at 1. ring.
Qed.
Lemma pos_eq off : (off `mod` cap) * esize = (off * esize) `mod` total.
Proof. pose proof cap_range. rewrite Zmult_mod_distr_r. done. Qed.

Lemma extent_eq f data len off :
  geometry f data → 0 ≤ len ≤ cap →
  extent f len off = ((off * esize) `mod` total, len * esize, Z.min (len * esize) (total - (off * esize) `mod` total)).
Proof.
  intros [Hm He Hd Hl _ _] Hlen. pose proof cap_range as HS. pose proof total_range. unfold extent. rewrite Hm, He.
  replace (cap - 1 + 1) with cap by lia. rewrite (u32_small cap) by lia. rewrite land_mask_mod by lia.
  pose proof (Z.mod_pos_bound off cap ltac:(lia)) as Ho. rewrite <-pos_eq.
  destruct (Z.eqb_spec esize 1) as [He1|He1]; cbn [negb].
  - rewrite He1, !Z.mul_1_r. rewrite (u32_small (cap - off `mod` cap)) by lia. done.
  - rewrite (u32_small total), (u32_small (off `mod` cap * esize)), (u32_small (len * esize)) by nia.
    by rewrite u32_small by nia.
Qed.

Lemma copy_in_spec f data src len off :
  geometry f data → 0 ≤ len ≤ cap → len * esize ≤ alen src →
  ∃ data', kfifo_copy_in f src len off = Some (set_data f data') ∧ geometry (set_data f data') data' ∧
    ∀ i, 0 ≤ i < total → aget data' i =
      if decide ((i - off * esize) `mod` total < len * esize) then aget src ((i - off * esize) `mod` total) else aget data i.
Proof.
  intros Hg Hlen Hsrc. pose proof total_range as HT. pose proof (Hg.(g_len _ _)) as Hl. unfold kfifo_copy_in.
  rewrite (extent_eq f data) by done. rewrite (g_data _ _ Hg). cbn [mbind option_bind].
  set (o := (off * esize) `mod` total). pose proof (Z.mod_pos_bound (off * esize) total ltac:(lia)) as Ho. fold o in Ho.
  set (l := Z.min (len * esize) (total - o)).
  assert (0 ≤ len * esize ≤ total) by nia.
  destruct (load_spec src 0 l) as (p1 & -> & Hp1 & Hg1); [lia..|].
  destruct (load_spec src l (len * esize - l)) as (p2 & -> & Hp2 & Hg2); [lia..|]. cbn [mbind option_bind].
  destruct (store_spec data o p1) as (d1 & -> & Hd1 & Hget1); [lia..|]. cbn [mbind option_bind].
  destruct (store_spec d1 0 p2) as (d2 & -> & Hd2 & Hget2); [lia..|]. cbn [mbind option_bind].
  exists d2. split; [done|]. split; [destruct Hg; constructor; cbn; (done || congruence)|].
  intros i Hi. rewrite Hget2, Hget1.
  assert ((i - off * esize) `mod` total = (i - o) `mod` total) as -> by (unfold o; by rewrite Zminus_mod_idemp_r).
  destruct (decide (o ≤ i)).
  - rewrite (Z.mod_small (i - o)) by lia. repeat case_decide; try lia; [|done].
    rewrite Hg1 by lia. done.
  - replace (i - o) with (i - o + total + (-1) * total) by lia. rewrite Z_mod_plus_full, (Z.mod_small (i - o + total)) by lia.
    repeat case_decide; try lia; [|done]. rewrite Hg2 by lia. f_equal. lia.
Qed.

Lemma copy_out_spec f data len off bs :
  geometry f data → 0 ≤ len ≤ cap → at_ring data (off * esize) bs → len * esize ≤ alen bs →
  kfifo_copy_out f len off = Some (take (Z.to_nat (len * esize)) bs).
Proof.
  intros Hg Hlen [Hbs Hget] Hle. pose proof total_range as HT. pose proof (Hg.(g_len _ _)) as Hl. unfold kfifo_copy_out.
  rewrite (extent_eq f data) by done. rewrite (g_data _ _ Hg). cbn [mbind option_bind]. rewrite Hl in *.
  set (o := (off * esize) `mod` total) in *. pose proof (Z.mod_pos_bound (off * esize) total ltac:(lia)) as Ho. fold o in Ho.
  set (l := Z.min (len * esize) (total - o)). assert (0 ≤ len * esize ≤ total) by nia.
  destruct (load_spec data o l) as (p1 & -> & Hp1 & Hg1); [lia..|].
  destruct (load_spec data 0 (len * esize - l)) as (p2 & -> & Hp2 & Hg2); [lia..|]. cbn [mbind option_bind].
  f_equal. apply list_eq_aget; [rewrite alen_app, alen_take; lia|]. rewrite alen_app. intros j Hj.
  rewrite aget_take by lia. rewrite <-Hget by lia.
  assert ((off * esize + j) `mod` total = (o + j) `mod` total) as -> by (unfold o; by rewrite Zplus_mod_idemp_l).
  destruct (decide (j < l)).
  - rewrite aget_app_l, Hg1 by lia. f_equal. rewrite Z.mod_small; lia.
  - rewrite aget_app_r, Hg2 by lia. f_equal.
    replace (o + j) with (o + j - total + 1 * total) by lia. rewrite Z_mod_plus_full, Z.mod_small; lia.
Qed.
(** The fifo holds the bytes [q] of [n] elements. *)
Definition holds (f : __kfifo) (q : list Z) (n : Z) : Prop :=
  ∃ data, geometry f data ∧ at_ring data (f_out f * esize) q ∧ 0 ≤ n ≤ cap ∧ alen q = n * esize ∧
    f_in f = u32 (f_out f + n).

Lemma used_eq f q n : holds f q n → u32 (f_in f - f_out f) = n.
Proof.
  intros (data & Hg & _ & Hn & _ & ->). pose proof cap_range. rewrite u32_sub_l.
  replace (f_out f + n - f_out f) with n by lia. apply u32_small. lia.
Qed.
Lemma unused_eq f q n : holds f q n → kfifo_unused f = cap - n.
Proof.
  intros Hh. unfold kfifo_unused. rewrite (used_eq f q n Hh). destruct Hh as (data & Hg & _ & Hn & _).
  pose proof cap_range. rewrite (g_mask _ _ Hg).
  replace (cap - 1 + 1) with cap by lia. rewrite (u32_small cap), u32_small; lia.
Qed.

(** The position behind the contents. *)
Lemma in_pos f q n : holds f q n → (f_in f * esize - (f_out f * esize + alen q)) `mod` total = 0.
Proof. intros (data & _ & _ & _ & -> & ->). apply pos_u32. Qed.

(** Adding elements that have been written behind the contents. *)
Lemma holds_add f data' q n k w win :
  holds f q n → 0 ≤ k → alen w = k * esize → k * esize ≤ win ≤ (cap - n) * esize →
  geometry (set_data f data') data' →
  (∀ i, 0 ≤ i < total → (i - f_in f * esize) `mod` total < alen w →
     aget data' i = aget w ((i - f_in f * esize) `mod` total)) →
  (∀ data i, f_data f = Some data → 0 ≤ i < total → win ≤ (i - f_in f * esize) `mod` total → aget data' i = aget data i) →
  holds (set_in (set_data f data') (u32 (f_in f + k))) (q ++ w) (n + k).
Proof.
  intros Hh Hk Hw Hwin Hg' Hin Hout. pose proof (in_pos _ _ _ Hh) as Hpos.
  destruct Hh as (data & Hg & Hr & Hn & Hq & Hi). pose proof cap_range. pose proof total_range.
  exists data'. split_and!.
  - destruct Hg'; constructor; cbn in *; try done. apply u32_range.
  - cbn. eapply (ring_write data data' _ (f_in f * esize) q w win); rewrite ?(g_len _ _ Hg), ?(g_len _ _ Hg').
    all: try done; try lia; try nia. intros i Hi1 Hi2. apply Hout; [apply (g_data _ _ Hg)|done|done].
  - lia.
  - nia.
  - rewrite alen_app, Hq, Hw. lia.
  - cbn. rewrite Hi, u32_add_l. f_equal. lia.
Qed.

(** Removing elements from the front. *)
Lemma holds_remove f q n k :
  holds f q n → 0 ≤ k ≤ n →
  holds (set_out f (u32 (f_out f + k))) (drop (Z.to_nat (k * esize)) q) (n - k).
Proof.
  intros (data & Hg & Hr & Hn & Hq & Hi) Hk. pose proof cap_range. pose proof total_range.
  exists data. split_and!; [..|lia|lia| |].
  - destruct Hg; constructor; cbn in *; try done. apply u32_range.
  - cbn. apply (ring_shift _ (f_out f * esize + k * esize)).
    + rewrite (g_len _ _ Hg). pose proof (pos_u32 (f_out f) k) as Hp.
      apply Z.mod_divide in Hp as [c Hc]; [|lia]. apply Z.mod_divide; [lia|]. exists (- c). lia.
    + rewrite (g_len _ _ Hg). lia.
    + apply ring_drop; [nia|done].
  - rewrite alen_drop by nia. lia.
  - cbn. rewrite Hi, u32_add_l. f_equal. lia.
Qed.

Lemma kfifo_in_spec f q n buf len :
  holds f q n → 0 ≤ len → Z.min len (cap - n) * esize ≤ alen buf →
  let k := Z.min len (cap - n) in
  ∃ f', __kfifo_in f buf len = Some (k, f') ∧ holds f' (q ++ take (Z.to_nat (k * esize)) buf) (n + k).
Proof.
  intros Hh Hlen Hbuf k. unfold __kfifo_in. rewrite (unused_eq f q n Hh).
  replace (if cap - n <? len then cap - n else len) with k by (subst k; destruct (Z.ltb_spec (cap - n) len); lia).
  pose proof Hh as (data & Hg & Hr & Hn & Hq & Hi). fold k in Hbuf.
  destruct (copy_in_spec f data buf k (f_in f) Hg ltac:(lia) Hbuf) as (data' & -> & Hg' & Hget). cbn [mbind option_bind].
  eexists. split; [done|].
  apply (holds_add f data' q n k _ (k * esize)); [done|lia|rewrite alen_take; nia|nia|done| |].
  - rewrite alen_take by nia. intros i Hi1 Hi2. rewrite Hget, decide_True by done.
    rewrite aget_take; [done|]. split; [apply Z.mod_pos_bound; pose proof total_range; lia|done].
  - intros d i Hd Hi1 Hi2. rewrite Hget, decide_False by lia. rewrite (g_data _ _ Hg) in Hd. congruence.
Qed.

Lemma kfifo_peek_spec f q n len :
  holds f q n → 0 ≤ len →
  let k := Z.min len n in __kfifo_out_peek f len = Some (k, take (Z.to_nat (k * esize)) q).
Proof.
  intros Hh Hlen k. unfold __kfifo_out_peek. rewrite (used_eq f q n Hh).
  replace (if n <? len then n else len) with k by (subst k; destruct (Z.ltb_spec n len); lia).
  destruct Hh as (data & Hg & Hr & Hn & Hq & Hi).
  by rewrite (copy_out_spec f data k (f_out f) q) by (done || lia || nia).
Qed.
Lemma kfifo_out_spec f q n len :
  holds f q n → 0 ≤ len →
  let k := Z.min len n in
  ∃ f', __kfifo_out f len = Some (k, take (Z.to_nat (k * esize)) q, f') ∧ holds f' (drop (Z.to_nat (k * esize)) q) (n - k).
Proof.
  intros Hh Hlen k. unfold __kfifo_out. rewrite (kfifo_peek_spec f q n len Hh Hlen). cbn [mbind option_bind].
  eexists. split; [done|]. apply holds_remove; [done|]. destruct Hh as (_ & _ & _ & Hn & _). lia.
Qed.
(** ** Transfers with faults; [Huser] keeps DIV_ROUND_UP below 32 bits *)
Context (Huser : total + esize ≤ 2 ^ 32).

Lemma missing_elements len got :
  0 ≤ got < len * esize → len * esize ≤ total → DIV_ROUND_UP (len * esize - got) esize = len - got / esize.
Proof.
  intros Hg Hl. unfold DIV_ROUND_UP.
  assert (u32 (u32 (len * esize - got + esize) - 1) = len * esize - got + esize - 1) as ->.
  { rewrite u32_sub_l. apply u32_small. lia. }
  pose proof (Z.div_mod got esize ltac:(lia)). pose proof (Z.mod_pos_bound got esize ltac:(lia)).
  symmetry. apply (Z.div_unique _ _ _ (esize - 1 - got `mod` esize)); lia.
Qed.

Lemma copy_from_user_spec from n :
  0 ≤ n →
  let got := Z.min (alen from) n in
  ∃ part, copy_from_user from n = (part, n - got) ∧ alen part = n ∧ ∀ j, 0 ≤ j < got → aget part j = aget from j.
Proof.
  intros Hn got. unfold copy_from_user. pose proof (alen_nonneg from).
  assert (alen (take (Z.to_nat n) from) = got) as Ht.
  { unfold alen in *. rewrite length_take. lia. }
  rewrite Ht. eexists. split; [done|]. split.
  - rewrite alen_app, Ht, alen_replicate. lia.
  - intros j Hj. rewrite aget_app_l by lia. apply aget_take. lia.
Qed.

Lemma kfifo_copy_from_user_spec f data from len off :
  geometry f data → 0 ≤ len ≤ cap →
  let got := Z.min (alen from) (len * esize) in
  let ret := len - got / esize in
  ∃ data', kfifo_copy_from_user f from len off = Some (set_data f data', u32 (len * esize - ret), ret) ∧
    geometry (set_data f data') data' ∧
    (∀ i, 0 ≤ i < total → (i - off * esize) `mod` total < got → aget data' i = aget from ((i - off * esize) `mod` total)) ∧
    (∀ i, 0 ≤ i < total → len * esize ≤ (i - off * esize) `mod` total → aget data' i = aget data i).
Proof.
  intros Hg Hlen got ret. pose proof total_range as HT. pose proof (Hg.(g_len _ _)) as Hl. unfold kfifo_copy_from_user.
  rewrite (extent_eq f data) by done. rewrite (g_data _ _ Hg), (g_esize _ _ Hg). cbn [mbind option_bind].
  set (o := (off * esize) `mod` total). pose proof (Z.mod_pos_bound (off * esize) total ltac:(lia)) as Ho. fold o in Ho.
  set (l := Z.min (len * esize) (total - o)). assert (0 ≤ len * esize ≤ total) by nia. pose proof (alen_nonneg from).
  destruct (copy_from_user_spec from l) as (p1 & -> & Hp1 & Hg1); [lia|].
  destruct (store_spec data o p1) as (d1 & -> & Hd1 & Hget1); [lia..|]. cbn [mbind option_bind].
  assert (∀ i, 0 ≤ i < total → (i - off * esize) `mod` total = if decide (o ≤ i) then i - o else i - o + total) as Hrel.
  { intros i Hi. assert ((i - off * esize) `mod` total = (i - o) `mod` total) as -> by (unfold o; by rewrite Zminus_mod_idemp_r).
    case_decide; [apply Z.mod_small; lia|]. symmetry. apply (Z.mod_unique _ _ (-1)); lia. }
  unfold truthy. destruct (Z.eqb_spec (l - Z.min (alen from) l) 0) as [E|E]; cbn [negb].
  - destruct (copy_from_user_spec (drop (Z.to_nat l) from) (len * esize - l)) as (p2 & -> & Hp2 & Hg2); [lia|].
    rewrite alen_drop in * by lia. destruct (store_spec d1 0 p2) as (d2 & -> & Hd2 & Hget2); [lia..|]. cbn [mbind option_bind].
    assert ((if negb (len * esize - l - Z.min (alen from - l) (len * esize - l) =? 0)
      then DIV_ROUND_UP (len * esize - l - Z.min (alen from - l) (len * esize - l)) esize
      else len * esize - l - Z.min (alen from - l) (len * esize - l)) = ret) as ->.
    { replace (len * esize - l - Z.min (alen from - l) (len * esize - l)) with (len * esize - got) by lia.
      destruct (Z.eqb_spec (len * esize - got) 0) as [E2|E2]; cbn [negb].
      - subst ret. replace got with (len * esize) by lia. rewrite Z.div_mul by lia. lia.
      - apply missing_elements; lia. }
    exists d2. split; [done|]. split; [destruct Hg; constructor; cbn; (done || congruence)|]. split.
    + intros i Hi Hin. rewrite (Hrel i Hi) in *. rewrite Hget2, Hget1.
      destruct (decide (o ≤ i)); repeat case_decide; try lia.
      * apply Hg1. lia.
      * rewrite Hg2 by lia. rewrite aget_drop by lia. f_equal. lia.
    + intros i Hi Hout. rewrite (Hrel i Hi) in *. rewrite Hget2, Hget1.
      destruct (decide (o ≤ i)); repeat case_decide; (lia || done).
  - assert (got = alen from) as Hgot by lia.
    replace (u32 (l - Z.min (alen from) l + len * esize - l)) with (len * esize - got) by (rewrite u32_small; lia).
    rewrite missing_elements by lia. fold ret. cbn [mbind option_bind].
    exists d1. split; [done|]. split; [destruct Hg; constructor; cbn; (done || congruence)|]. split.
    + intros i Hi Hin. rewrite (Hrel i Hi) in *. rewrite Hget1.
      destruct (decide (o ≤ i)); repeat case_decide; try lia. apply Hg1. lia.
    + intros i Hi Hout. rewrite (Hrel i Hi) in *. rewrite Hget1.
      destruct (decide (o ≤ i)); repeat case_decide; (lia || done).
Qed.
Lemma div_esize len : (if negb (esize =? 1) then len / esize else len) = len / esize.
Proof. destruct (Z.eqb_spec esize 1) as [->|]; cbn; [by rewrite Z.div_1_r|done]. Qed.
Lemma whole_elements got m : 0 ≤ got ≤ m * esize → 0 ≤ got / esize ≤ m ∧ got / esize * esize ≤ got.
Proof.
  intros Hg. split; [|rewrite Z.mul_comm; apply Z.mul_div_le; lia]. split; [apply Z.div_pos; lia|].
  apply Z.div_le_upper_bound; lia.
Qed.

Lemma kfifo_from_user_spec f q n from len :
  holds f q n → 0 ≤ len →
  let m := Z.min (len / esize) (cap - n) in
  let k := Z.min (alen from) (m * esize) / esize in
  ∃ f', __kfifo_from_user f from len = Some (if k =? m then 0 else - EFAULT, u32 (m * esize - (m - k)), f') ∧
    holds f' (q ++ take (Z.to_nat (k * esize)) from) (n + k).
Proof.
  intros Hh Hlen m k. unfold __kfifo_from_user. pose proof Hh as (data & Hg & Hr & Hn & Hq & Hi).
  pose proof cap_range. pose proof total_range. pose proof (alen_nonneg from).
  rewrite (g_esize _ _ Hg), div_esize, (unused_eq f q n Hh).
  pose proof (Z.div_pos len esize Hlen ltac:(lia)).
  replace (if cap - n <? len / esize then cap - n else len / esize) with m
    by (subst m; destruct (Z.ltb_spec (cap - n) (len / esize)); lia).
  destruct (whole_elements (Z.min (alen from) (m * esize)) m ltac:(nia)) as [Hk1 Hk2]. fold k in Hk1, Hk2.
  destruct (kfifo_copy_from_user_spec f data from m (f_in f) Hg ltac:(lia)) as (data' & -> & Hg' & Hin & Hout).
  cbn [mbind option_bind]. fold k. unfold truthy.
  assert ((let '(len0, err) := if negb (m - k =? 0) then (u32 (m - (m - k)), - EFAULT) else (m, 0) in
    Some (err, u32 (m * esize - (m - k)), set_in (set_data f data') (u32 (f_in f + len0)))) =
    Some (if k =? m then 0 else - EFAULT, u32 (m * esize - (m - k)), set_in (set_data f data') (u32 (f_in f + k)))) as ->.
  { destruct (Z.eqb_spec k m) as [->|Hne]; [by rewrite Z.sub_diag|].
    rewrite (proj2 (Z.eqb_neq (m - k) 0)) by lia. cbn [negb]. by rewrite (u32_small (m - (m - k))) by lia; replace (m - (m - k)) with k by lia. }
  eexists. split; [done|].
  apply (holds_add f data' q n k _ (m * esize)); [done|lia|rewrite alen_take; nia|nia|done| |].
  - rewrite alen_take by nia. intros i Hi1 Hi2. rewrite Hin by lia.
    rewrite aget_take; [done|]. split; [apply Z.mod_pos_bound; lia|done].
  - intros d i Hd Hi1 Hi2. rewrite (g_data _ _ Hg) in Hd. simplify_eq. by apply Hout.
Qed.

Lemma kfifo_copy_to_user_spec f data len off bs room :
  geometry f data → 0 ≤ len ≤ cap → at_ring data (off * esize) bs → len * esize ≤ alen bs → 0 ≤ room →
  let put := Z.min room (len * esize) in
  let ret := len - put / esize in
  kfifo_copy_to_user f room len off = Some (take (Z.to_nat put) bs, u32 (len * esize - ret), ret).
Proof.
  intros Hg Hlen Hbs Hle Hroom put ret.
  pose proof (copy_out_spec f data len off bs Hg Hlen Hbs Hle) as Hout. unfold kfifo_copy_out in Hout.
  pose proof total_range as HT. pose proof (Hg.(g_len _ _)) as Hl. unfold kfifo_copy_to_user.
  rewrite (extent_eq f data) in Hout |- * by done. rewrite (g_data _ _ Hg) in Hout |- *. rewrite (g_esize _ _ Hg).
  cbn [mbind option_bind] in Hout |- *. set (o := (off * esize) `mod` total) in *.
  pose proof (Z.mod_pos_bound (off * esize) total ltac:(lia)) as Ho. fold o in Ho.
  set (l := Z.min (len * esize) (total - o)) in *. assert (0 ≤ len * esize ≤ total) by nia.
  destruct (load_spec data o l) as (p1 & E1 & Hp1 & _); [lia..|].
  destruct (load_spec data 0 (len * esize - l)) as (p2 & E2 & Hp2 & _); [lia..|].
  rewrite E1, E2 in Hout. rewrite E1, E2. cbn [mbind option_bind] in Hout |- *. injection Hout as Hout.
  assert (take (Z.to_nat put) bs = take (Z.to_nat room) (p1 ++ p2)) as ->.
  { rewrite Hout, take_take. f_equal. lia. }
  unfold copy_to_user, truthy. unfold alen in Hp1, Hp2.
  destruct (Z.eqb_spec (alen p1 - alen (take (Z.to_nat room) p1)) 0) as [E|E]; cbn [negb mbind option_bind].
  - unfold alen in E. rewrite length_take in E.
    assert (alen p2 - alen (take (Z.to_nat (room - l)) p2) = len * esize - put) as ->.
    { unfold alen. rewrite length_take. lia. }
    rewrite take_app, (take_ge p1) by lia.
    replace (Z.to_nat (room - l)) with (Z.to_nat room - length p1)%nat by lia.
    assert ((if negb (len * esize - put =? 0) then DIV_ROUND_UP (len * esize - put) esize else len * esize - put) = ret) as ->; [|done].
    destruct (Z.eqb_spec (len * esize - put) 0) as [E3|E3]; cbn [negb].
    + subst ret. replace put with (len * esize) by lia. rewrite Z.div_mul by lia. lia.
    + apply missing_elements; lia.
  - unfold alen in E |- *. rewrite length_take in E |- *.
    replace (u32 (Z.of_nat (length p1) - Z.of_nat (Z.to_nat room `min` length p1) + len * esize - l))
      with (len * esize - put) by (rewrite u32_small; lia).
    rewrite missing_elements by lia. rewrite take_app_le by lia. done.
Qed.
Lemma kfifo_to_user_spec f q n room len :
  holds f q n → 0 ≤ len → 0 ≤ room →
  let m := Z.min (len / esize) n in
  let put := Z.min room (m * esize) in
  let k := put / esize in
  ∃ f', __kfifo_to_user f room len =
      Some (if k =? m then 0 else - EFAULT, u32 (m * esize - (m - k)), take (Z.to_nat put) q, f') ∧
    holds f' (drop (Z.to_nat (k * esize)) q) (n - k).
Proof.
  intros Hh Hlen Hroom m put k. unfold __kfifo_to_user. pose proof Hh as (data & Hg & Hr & Hn & Hq & Hi).
  pose proof cap_range. rewrite (g_esize _ _ Hg), div_esize, (used_eq f q n Hh).
  pose proof (Z.div_pos len esize Hlen ltac:(lia)).
  replace (if n <? len / esize then n else len / esize) with m
    by (subst m; destruct (Z.ltb_spec n (len / esize)); lia).
  destruct (whole_elements put m ltac:(nia)) as [Hk1 Hk2]. fold k in Hk1, Hk2.
  rewrite (kfifo_copy_to_user_spec f data m (f_out f) q room) by (done || lia || nia).
  cbn [mbind option_bind]. fold put. fold k. exists (set_out f (u32 (f_out f + k))). split; [|apply holds_remove; (done || lia)].
  unfold truthy. destruct (Z.eqb_spec k m) as [->|Hne]; [by rewrite Z.sub_diag|].
  rewrite (proj2 (Z.eqb_neq (m - k) 0)) by lia. cbn [negb].
  by rewrite (u32_small (m - (m - k))) by lia; replace (m - (m - k)) with k by lia.
Qed.
End ring.

(** ** The contract: a bounded queue of elements *)
Inductive fifo_op :=
  | In (buf : list Z) (len : Z) | Out (len : Z) | Peek (len : Z)
  | FromUser (from : list Z) (len : Z) | ToUser (room len : Z).
(** The number or error returned, the bytes handed out, the fifo. *)
Definition fifo_exec (f : __kfifo) (o : fifo_op) : option (Z * list Z * __kfifo) :=
  match o with
  | In buf len => '(k, f) ← __kfifo_in f buf len; Some (k, [], f)
  | Out len => __kfifo_out f len
  | Peek len => '(k, buf) ← __kfifo_out_peek f len; Some (k, buf, f)
  | FromUser from len => '(err, _, f) ← __kfifo_from_user f from len; Some (err, [], f)
  | ToUser room len => '(err, _, put, f) ← __kfifo_to_user f room len; Some (err, put, f)
  end.
Fixpoint fifo_run (f : __kfifo) (os : list fifo_op) : option (list (Z * list Z) * __kfifo) :=
  match os with
  | [] => Some ([], f)
  | o :: os => '(r, out, f) ← fifo_exec f o; '(rs, f) ← fifo_run f os; Some ((r, out) :: rs, f)
  end.

(** The same operations on a plain list of bytes with room for [cap] elements. *)
Definition queue_exec (cap esize : Z) (q : list Z) (o : fifo_op) : Z * list Z * list Z :=
  let n := alen q / esize in
  let bytes k := Z.to_nat (k * esize) in
  match o with
  | In buf len => let k := Z.min len (cap - n) in (k, [], q ++ take (bytes k) buf)
  | Out len => let k := Z.min len n in (k, take (bytes k) q, drop (bytes k) q)
  | Peek len => let k := Z.min len n in (k, take (bytes k) q, q)
  | FromUser from len =>
      let m := Z.min (len / esize) (cap - n) in
      let k := Z.min (alen from) (m * esize) / esize in
      (if k =? m then 0 else - EFAULT, [], q ++ take (bytes k) from)
  | ToUser room len =>
      let m := Z.min (len / esize) n in
      let put := Z.min room (m * esize) in
      let k := put / esize in
      (if k =? m then 0 else - EFAULT, take (Z.to_nat put) q, drop (bytes k) q)
  end.
Fixpoint queue_run (cap esize : Z) (q : list Z) (os : list fifo_op) : list (Z * list Z) * list Z :=
  match os with
  | [] => ([], q)
  | o :: os => let '(r, out, q) := queue_exec cap esize q o in
               let '(rs, q) := queue_run cap esize q os in ((r, out) :: rs, q)
  end.
(** The callers' side: lengths are not negative, and a kernel buffer has as
    many bytes as its elements need. *)
Definition op_ok (esize : Z) (o : fifo_op) : Prop :=
  match o with
  | In buf len => 0 ≤ len ∧ len * esize ≤ alen buf
  | Out len | Peek len | FromUser _ len => 0 ≤ len
  | ToUser room len => 0 ≤ room ∧ 0 ≤ len
  end.

Section refines.
Context (b esize : Z).
Context (Hb : 1 ≤ b ≤ 31) (Hesize : 1 ≤ esize) (Huser : 2 ^ b * esize + esize ≤ 2 ^ 32).

Lemma fifo_exec_spec f q n o :
  holds b esize f q n → op_ok esize o →
  let '(r, out, q') := queue_exec (2 ^ b) esize q o in
  ∃ f' n', fifo_exec f o = Some (r, out, f') ∧ holds b esize f' q' n'.
Proof.
  intros Hh Ho. assert (2 ^ b * esize < 2 ^ 32) as Hfits by lia.
  assert (alen q / esize = n) as Hn by (destruct Hh as (_ & _ & _ & _ & -> & _); apply Z.div_mul; lia).
  assert (0 ≤ n ≤ 2 ^ b) as Hr by by destruct Hh as (_ & _ & _ & ? & _).
  unfold queue_exec. rewrite Hn. destruct o as [buf len|len|len|from len|room len]; cbn [fifo_exec op_ok] in *.
  - destruct (kfifo_in_spec b esize Hb Hesize Hfits f q n buf len) as (f' & -> & Hh'); [done|lia|nia|]. by eexists _, _.
  - destruct (kfifo_out_spec b esize Hb Hesize Hfits f q n len) as (f' & -> & Hh'); [done|lia|]. by eexists _, _.
  - rewrite (kfifo_peek_spec b esize Hb Hesize Hfits f q n len) by (done || lia). by eexists _, _.
  - destruct (kfifo_from_user_spec b esize Hb Hesize Hfits Huser f q n from len) as (f' & -> & Hh'); [done|lia|]. by eexists _, _.
  - destruct (kfifo_to_user_spec b esize Hb Hesize Hfits Huser f q n room len) as (f' & -> & Hh'); [done|lia..|]. by eexists _, _.
Qed.

Lemma fifo_run_spec os : ∀ f q n,
  holds b esize f q n → Forall (op_ok esize) os →
  let '(rs, q') := queue_run (2 ^ b) esize q os in
  ∃ f' n', fifo_run f os = Some (rs, f') ∧ holds b esize f' q' n'.
Proof.
  induction os as [|o os IH]; intros f q n Hh Hos; cbn [queue_run fifo_run]; [by eexists _, _|].
  apply Forall_cons in Hos as [Ho Hos]. pose proof (fifo_exec_spec f q n o Hh Ho) as He.
  destruct (queue_exec (2 ^ b) esize q o) as [[r out] q1]. destruct He as (f1 & n1 & -> & Hh1). cbn [mbind option_bind].
  specialize (IH f1 q1 n1 Hh1 Hos). destruct (queue_run (2 ^ b) esize q1 os) as [rs q2].
  destruct IH as (f2 & n2 & -> & Hh2). by eexists _, _.
Qed.
End refines.

Lemma rounddown_log2 size : 0 < size < 2 ^ 32 →
  (if is_power_of_2 size then size else rounddown_pow_of_two size) = 2 ^ Z.log2 size.
Proof.
  intros Hs. unfold is_power_of_2, rounddown_pow_of_two. rewrite (u32_small (size - 1)) by lia.
  destruct (truthy size && (size .& (size - 1) =? 0)) eqn:E; [|done].
  apply andb_true_iff in E as [_ E%Z.eqb_eq]. apply land_pred_pow2; lia.
Qed.
Lemma log2_small size : 2 ≤ size < 2 ^ 32 → 1 ≤ Z.log2 size ≤ 31.
Proof.
  intros Hs. split; [apply (Z.log2_le_mono 2 size); lia|].
  assert (Z.log2 size < 32); [apply Z.log2_lt_pow2; lia|lia].
Qed.

Lemma fresh_holds b esize data :
  1 ≤ b ≤ 31 → 1 ≤ esize → alen data = 2 ^ b * esize →
  holds b esize {| f_in := 0; f_out := 0; f_mask := u32 (2 ^ b - 1); f_esize := esize; f_data := Some data |} [] 0.
Proof.
  intros Hb He Hd. pose proof (cap_range b Hb). exists data. split_and!; try (done || lia).
  - constructor; cbn; (done || (by apply u32_small; lia) || idtac).
  - split; cbn; [unfold alen at 1; cbn; lia|]. unfold alen; cbn; lia.
Qed.

(** C18: from __kfifo_alloc on, under every sequence of transfers (from and to
    kernel and user buffers, with faults anywhere), the fifo behaves as a
    bounded queue of whole elements: the same return values and the same bytes
    in the same order, no access outside the buffer, although its positions
    wrap around 32 bits. *)
Theorem kfifo_refines size esize mem data os :
  2 ≤ size < 2 ^ 32 → 1 ≤ esize → (2 ^ Z.log2 size + 1) * esize ≤ 2 ^ 32 →
  mem (2 ^ Z.log2 size * esize) = Some data → alen data = 2 ^ Z.log2 size * esize → Forall (op_ok esize) os →
  ∃ f f', __kfifo_alloc size esize mem = (0, f) ∧
    fifo_run f os = Some ((queue_run (2 ^ Z.log2 size) esize [] os).1, f').
Proof.
  intros Hs He Hfit Hmem Hlen Hos. pose proof (log2_small size Hs) as Hb. set (b := Z.log2 size) in *.
  pose proof (cap_range b Hb). unfold __kfifo_alloc. rewrite rounddown_log2 by lia. fold b.
  rewrite (proj2 (Z.ltb_ge (2 ^ b) 2)) by lia. rewrite (u32_small (2 ^ b * esize)) by nia. rewrite Hmem.
  pose proof (fifo_run_spec b esize Hb He ltac:(lia) os _ [] 0 (fresh_holds b esize data Hb He Hlen) Hos) as Hrun.
  destruct (queue_run (2 ^ b) esize [] os) as [rs q']. destruct Hrun as (f' & n' & Hrun & _). by eexists _, f'.
Qed.
Lemma kfifo_refines_witness :
  ∃ f f', __kfifo_alloc 5 2 (λ n, Some (replicate (Z.to_nat n) 0)) = (0, f) ∧
    fifo_run f [In [1; 2; 3; 4; 5; 6] 3; Out 2; FromUser [7; 8; 9; 10; 11] 6; ToUser 100 100]
    = Some ([(3, []); (2, [1; 2; 3; 4]); (- EFAULT, []); (0, [5; 6; 7; 8; 9; 10])], f').
Proof.
  apply (kfifo_refines 5 2 (λ n, Some (replicate (Z.to_nat n) 0)) (replicate 8 0)
    [In [1; 2; 3; 4; 5; 6] 3; Out 2; FromUser [7; 8; 9; 10; 11] 6; ToUser 100 100]);
    [lia|lia|by vm_compute|done|done|repeat constructor; cbn; lia || by vm_compute].
Defined.

(** The number of bytes that __kfifo_from_user and __kfifo_to_user report
    is wrong after a fault when elements are larger than a byte: it is the byte
    length of the request less the number of elements not copied. *)
Theorem kfifo_copied_wrong :
  ∃ f from f' copied,
    __kfifo_alloc 4 4 (λ n, Some (replicate (Z.to_nat n) 0)) = (0, f) ∧
    __kfifo_from_user f from 8 = Some (- EFAULT, copied, f') ∧
    alen from = 4 ∧ u32 (f_in f' - f_out f') * f_esize f' = 4 ∧ copied = 7.
Proof.
  eexists _, [1; 2; 3; 4], _, _. split; [vm_compute; reflexivity|]. split; [vm_compute; reflexivity|]. by vm_compute.
Qed.

(** ** Records *)
Definition header (recsize n : Z) : list Z := if recsize =? 1 then [u8 n] else [u8 n; u8 (n .>> 8)].
Definition encode (recsize : Z) (rec : list Z) : list Z := header recsize (alen rec) ++ rec.

Section records.
Context (b recsize : Z).
Context (Hb : 1 ≤ b ≤ 31) (Hrec : recsize = 1 ∨ recsize = 2).
Abbreviation cap := (2 ^ b).

Let Hone : 1 ≤ 1 := Z.le_refl 1.
Lemma cap_fits : cap * 1 < 2 ^ 32.
Proof. pose proof (cap_range b Hb). lia. Qed.
Lemma cap_user : cap * 1 + 1 ≤ 2 ^ 32.
Proof. pose proof (cap_range b Hb). lia. Qed.
Lemma alen_header n : alen (header recsize n) = recsize.
Proof. unfold header. by destruct Hrec as [-> | ->]. Qed.
Lemma alen_encode rec : alen (encode recsize rec) = recsize + alen rec.
Proof. unfold encode. by rewrite alen_app, alen_header. Qed.

Lemma geometry_set f d d1 : geometry b 1 f d → alen d1 = alen d → geometry b 1 (set_data f d1) d1.
Proof. intros [] Hl. constructor; cbn; (done || congruence). Qed.

(** One byte stored at a position. *)
Lemma poke_one f data p v :
  geometry b 1 f data → is_u32 p →
  ∃ d1, __KFIFO_POKE data p (f_mask f) v = Some d1 ∧ alen d1 = cap * 1 ∧
    ∀ i, 0 ≤ i < cap → aget d1 i = if decide (i = p `mod` cap) then Some (u8 v) else aget data i.
Proof.
  intros Hg Hp. pose proof (cap_range b Hb). unfold __KFIFO_POKE. rewrite (g_mask _ _ _ _ Hg), land_mask_mod by lia.
  pose proof (Z.mod_pos_bound p cap ltac:(lia)). rewrite aset_Some by (rewrite (g_len _ _ _ _ Hg); lia).
  eexists. split; [done|].
  assert (aset data (p `mod` cap) (u8 v) = Some (<[Z.to_nat (p `mod` cap):=u8 v]> data)) as Ha
    by (apply aset_Some; rewrite (g_len _ _ _ _ Hg); lia).
  split; [by rewrite (aset_alen _ _ _ _ Ha), (g_len _ _ _ _ Hg)|].
  intros i Hi. case_decide as Hd; [subst i; by rewrite (aget_aset_eq _ _ _ _ Ha)|].
  by rewrite (aget_aset_ne _ _ _ _ _ Ha) by done.
Qed.

Lemma u32_mod_cap x : u32 x `mod` cap = x `mod` cap.
Proof.
  pose proof (cap_range b Hb). unfold u32. apply Z.mod_mod_divide.
  exists (2 ^ (32 - b)). rewrite <-Z.pow_add_r by lia. f_equal. lia.
Qed.
(** The place [c] behind a position. *)
Lemma rel_at i p c : 0 ≤ i < cap → 0 ≤ c < cap → i = u32 (p + c) `mod` cap ↔ (i - p) `mod` cap = c.
Proof.
  intros Hi Hc. pose proof (cap_range b Hb). rewrite u32_mod_cap. split.
  - intros ->. rewrite Zminus_mod_idemp_l. replace (p + c - p) with c by lia. by apply Z.mod_small.
  - intros <-. rewrite Zplus_mod_idemp_r. replace (p + (i - p)) with i by lia. symmetry. by apply Z.mod_small.
Qed.

Lemma poke_spec f data len :
  geometry b 1 f data →
  ∃ d1, __kfifo_poke_n f len recsize = Some (set_data f d1) ∧ geometry b 1 (set_data f d1) d1 ∧
    ∀ i, 0 ≤ i < cap → aget d1 i =
      if decide ((i - f_in f) `mod` cap < recsize) then aget (header recsize len) ((i - f_in f) `mod` cap) else aget data i.
Proof.
  intros Hg. pose proof (cap_range b Hb). unfold __kfifo_poke_n. rewrite (g_data _ _ _ _ Hg). cbn [mbind option_bind].
  pose proof (g_in _ _ _ _ Hg) as Hin. assert (f_in f = u32 (f_in f + 0)) as Hin0 by (rewrite u32_small; unfold is_u32 in Hin; lia).
  destruct (poke_one f data (f_in f) len Hg Hin) as (d1 & -> & Hl1 & Hg1). cbn [mbind option_bind].
  pose proof (geometry_set f data d1 Hg ltac:(by rewrite (g_len _ _ _ _ Hg))) as Hgd1.
  destruct (poke_one (set_data f d1) d1 (u32 (f_in f + 1)) (len .>> 8) Hgd1) as (d2 & Hpk & Hl2 & Hg2); [apply u32_range|].
  change (f_mask (set_data f d1)) with (f_mask f) in Hpk.
  assert (∀ i, 0 ≤ i < cap → (i = f_in f `mod` cap ↔ (i - f_in f) `mod` cap = 0) ∧
    (i = u32 (f_in f + 1) `mod` cap ↔ (i - f_in f) `mod` cap = 1)) as Hrel.
  { intros i Hi. split; [rewrite Hin0 at 1|]; apply rel_at; lia. }
  destruct Hrec as [-> | ->]; [change (1 <? 1) with false|change (1 <? 2) with true]; cbv iota.
  - cbn [mbind option_bind]. exists d1. split; [done|]. split; [done|].
    intros i Hi. rewrite Hg1 by done. pose proof (Z.mod_pos_bound (i - f_in f) cap ltac:(lia)).
    destruct (Hrel i Hi) as [Hr0 _]. repeat case_decide; try (lia || done). by rewrite (proj1 Hr0) by done.
  - rewrite Hpk. cbn [mbind option_bind]. exists d2. split; [done|].
    split; [apply (geometry_set (set_data f d1) d1 d2 Hgd1); by rewrite (g_len _ _ _ _ Hgd1)|].
    intros i Hi. rewrite Hg2, Hg1 by done. pose proof (Z.mod_pos_bound (i - f_in f) cap ltac:(lia)).
    destruct (Hrel i Hi) as [Hr0 Hr1]. repeat case_decide; try (lia || done).
    + by rewrite (proj1 Hr1) by done.
    + by rewrite (proj1 Hr0) by done.
Qed.

(** The bytes of the records in the fifo. *)
Definition records (f : __kfifo) (recs : list (list Z)) : Prop :=
  holds b 1 f (recs ≫= encode recsize) (alen (recs ≫= encode recsize)).

Lemma records_free f recs : records f recs → kfifo_unused f = cap - alen (recs ≫= encode recsize).
Proof. intros Hr. by eapply unused_eq. Qed.

(** Places counted from the data of a new record, [recsize] behind its header. *)
Lemma rel_header p i : 0 ≤ i < cap →
  0 ≤ (i - p) `mod` cap < cap ∧
  (i - u32 (p + recsize)) `mod` cap =
    if decide ((i - p) `mod` cap < recsize) then (i - p) `mod` cap - recsize + cap else (i - p) `mod` cap - recsize.
Proof.
  intros Hi. pose proof (cap_range b Hb). pose proof (Z.mod_pos_bound (i - p) cap ltac:(lia)) as Hm. split; [done|].
  rewrite <-Zminus_mod_idemp_r, u32_mod_cap, Zminus_mod_idemp_r.
  replace (i - (p + recsize)) with (i - p - recsize) by lia. rewrite <-Zminus_mod_idemp_l.
  case_decide; [symmetry; apply (Z.mod_unique _ _ (-1)); lia|apply Z.mod_small; lia].
Qed.

(** Writes behind the records do not disturb them. *)
Lemma records_kept f recs data d2 win :
  records f recs → f_data f = Some data → 0 ≤ win → win ≤ cap - alen (recs ≫= encode recsize) →
  geometry b 1 (set_data f d2) d2 →
  (∀ i, 0 ≤ i < cap → win ≤ (i - f_in f) `mod` cap → aget d2 i = aget data i) → records (set_data f d2) recs.
Proof.
  intros Hr Hd Hwin Hfree Hg2 Hout. pose proof (cap_range b Hb).
  assert (records (set_in (set_data f d2) (u32 (f_in f + 0))) recs) as Hres.
  { unfold records. rewrite <-(app_nil_r (recs ≫= encode recsize)) at 1.
    replace (alen (recs ≫= encode recsize)) with (alen (recs ≫= encode recsize) + 0) by lia.
    apply (holds_add b 1 Hb Hone f d2 _ _ 0 [] win).
    all: rewrite ?Z.mul_1_r; try (done || lia).
    - intros i Hi Hlt. pose proof (Z.mod_pos_bound (i - f_in f) cap ltac:(lia)). change (alen (@nil Z)) with 0 in Hlt. lia.
    - intros d i Hd' Hi Hge. rewrite Hout by done. congruence. }
  destruct Hr as (? & Hg & _). pose proof (g_in _ _ _ _ Hg) as Hi32. rewrite u32_small in Hres by (unfold is_u32 in Hi32; lia).
  by rewrite Z.add_0_r in Hres.
Qed.

(** A record written behind the others: the header, then the data. *)
Lemma record_written f recs data d1 d2 rec :
  records f recs → f_data f = Some data → recsize + alen rec ≤ cap - alen (recs ≫= encode recsize) →
  geometry b 1 (set_data f d2) d2 →
  (∀ i, 0 ≤ i < cap → aget d1 i =
      if decide ((i - f_in f) `mod` cap < recsize) then aget (header recsize (alen rec)) ((i - f_in f) `mod` cap) else aget data i) →
  (∀ i, 0 ≤ i < cap → (i - u32 (f_in f + recsize)) `mod` cap < alen rec → aget d2 i = aget rec ((i - u32 (f_in f + recsize)) `mod` cap)) →
  (∀ i, 0 ≤ i < cap → alen rec ≤ (i - u32 (f_in f + recsize)) `mod` cap → aget d2 i = aget d1 i) →
  records (set_in (set_data f d2) (u32 (f_in f + u32 (alen rec + recsize)))) (recs ++ [rec]).
Proof.
  intros Hr Hd Hfree Hg2 H1 Hin Hout. pose proof (cap_range b Hb). pose proof (alen_nonneg rec).
  assert (0 < recsize ≤ 2) by lia. pose proof (alen_nonneg (recs ≫= encode recsize)).
  unfold records. rewrite bind_app. cbn [mbind list_bind]. rewrite app_nil_r, alen_app.
  rewrite u32_add_r, (Z.add_comm (alen rec)), alen_encode.
  apply (holds_add b 1 Hb Hone f d2 _ _ (recsize + alen rec) (encode recsize rec) (recsize + alen rec)).
  all: rewrite ?alen_encode, ?Z.mul_1_r; try (done || lia).
  - intros i Hi Hlt. destruct (rel_header (f_in f) i ltac:(lia)) as [Hm Hrel]. case_decide.
    + rewrite Hout by lia. rewrite H1, decide_True by lia. unfold encode. rewrite aget_app_l; [done|]. by rewrite alen_header.
    + rewrite Hin by lia. rewrite Hrel. unfold encode. rewrite aget_app_r; rewrite alen_header; [done|lia].
  - intros d i Hd' Hi Hge. destruct (rel_header (f_in f) i ltac:(lia)) as [Hm Hrel].
    rewrite decide_False in Hrel by lia. rewrite Hout by lia. rewrite H1, decide_False by lia. congruence.
Qed.

Lemma kfifo_in_r_spec f recs buf len :
  records f recs → alen buf = len → len + recsize < 2 ^ 32 →
  if cap - alen (recs ≫= encode recsize) <? len + recsize
  then __kfifo_in_r f buf len recsize = Some (0, f)
  else ∃ f', __kfifo_in_r f buf len recsize = Some (len, f') ∧ records f' (recs ++ [buf]).
Proof.
  intros Hr Hlen Hsmall. pose proof (alen_nonneg buf). pose proof (cap_range b Hb). unfold __kfifo_in_r.
  rewrite (records_free f recs Hr), (u32_small (len + recsize)) by lia. 
  destruct (Z.ltb_spec (cap - alen (recs ≫= encode recsize)) (len + recsize)) as [_|Hfit]; [done|].
  pose proof Hr as (data & Hg & _ & Hn & _). pose proof (alen_nonneg (recs ≫= encode recsize)).
  destruct (poke_spec f data len Hg) as (d1 & -> & Hg1 & Hget1). cbn [mbind option_bind].
  destruct (copy_in_spec b 1 Hb Hone cap_fits (set_data f d1) d1 buf len (u32 (f_in f + recsize)) Hg1) as (d2 & Hc & Hg2 & Hget2); [lia..|].
  change (f_in (set_data f d1)) with (f_in f). rewrite Hc. cbn [mbind option_bind].
  eexists. split; [done|]. change (set_data (set_data f d1) d2) with (set_data f d2) in *.
  rewrite <-Hlen. rewrite !Z.mul_1_r in Hget2.
  rewrite <-(u32_small (alen buf + recsize)) by lia.
  apply (record_written f recs data d1 d2 buf); [done|apply (g_data _ _ _ _ Hg)|lia|done| | |].
  - by rewrite Hlen.
  - intros i Hi Hlt. rewrite Hget2 by lia. by rewrite decide_True by lia.
  - intros i Hi Hge. rewrite Hget2 by lia. by rewrite decide_False by lia.
Qed.

Lemma header_length n : 0 ≤ n < 256 ^ recsize → ∃ l h, aget (header recsize n) 0 = Some l ∧
  (recsize = 1 → n = l) ∧ (recsize = 2 → aget (header recsize n) 1 = Some h ∧ n = l .| (h .<< 8)).
Proof.
  intros Hn. exists (u8 n), (u8 (n .>> 8)). unfold header. destruct Hrec as [Hr|Hr]; rewrite Hr in *; cbn -[u8 Z.pow].
  - split; [done|]. split; [intros _; symmetry; apply u8_small; lia|done].
  - split; [done|]. split; [done|]. intros _. split; [done|].
    rewrite Z.shiftl_mul_pow2, lor_add_field by (lia || apply u8_range). rewrite Z.shiftr_div_pow2 by lia.
    rewrite (u8_small (n / 2 ^ 8)); [unfold u8; pose proof (Z.div_mod n (2 ^ 8)); lia|].
    change (256 ^ 2) with (2 ^ 8 * 2 ^ 8) in Hn. split; [apply Z.div_pos; lia|apply Z.div_lt_upper_bound; lia].
Qed.

(** Where the bytes of the first record are. *)
Lemma first_record f rec rest data :
  records f (rec :: rest) → f_data f = Some data →
  geometry b 1 f data ∧ at_ring data (f_out f) (header recsize (alen rec) ++ rec ++ (rest ≫= encode recsize)).
Proof.
  intros (data' & Hg & Hr & _) Hd. rewrite (g_data _ _ _ _ Hg) in Hd. simplify_eq. split; [done|].
  rewrite Z.mul_1_r in Hr. rewrite bind_cons in Hr. unfold encode in Hr at 1. by rewrite <-app_assoc in Hr.
Qed.

Lemma peek_spec f rec rest :
  records f (rec :: rest) → alen rec < 256 ^ recsize → __kfifo_peek_n f recsize = Some (alen rec).
Proof.
  intros Hr Hlen. pose proof Hr as (data & Hg0 & _). destruct (first_record f rec rest data Hr (g_data _ _ _ _ Hg0)) as [Hg [_ Hget]].
  pose proof (cap_range b Hb). pose proof (alen_nonneg rec). pose proof (alen_nonneg (rest ≫= encode recsize)).
  unfold __kfifo_peek_n. rewrite (g_data _ _ _ _ Hg), (g_mask _ _ _ _ Hg). cbn [mbind option_bind]. unfold __KFIFO_PEEK.
  rewrite !land_mask_mod by lia. rewrite u32_mod_cap. rewrite (g_len _ _ _ _ Hg), Z.mul_1_r in Hget.
  rewrite !alen_app, alen_header in Hget.
  destruct (header_length (alen rec) ltac:(lia)) as (l & h & Hl & Hr1' & Hr2').
  pose proof (Hget 0 ltac:(lia)) as Hg0'. rewrite Z.add_0_r, aget_app_l in Hg0' by (rewrite alen_header; lia).
  rewrite Hg0', Hl. cbn [mbind option_bind]. destruct Hrec as [Hr1|Hr2].
  - rewrite Hr1 at 1. change (truthy (u32 (1 - 1))) with false. cbv iota. by rewrite <-Hr1'.
  - rewrite Hr2 at 1. change (truthy (u32 (2 - 1))) with true. cbv iota. destruct (Hr2' Hr2) as [Hh Heq].
    rewrite (Hget 1) by lia. rewrite aget_app_l by (rewrite alen_header; lia). rewrite Hh. cbn [mbind option_bind]. by rewrite <-Heq.
Qed.

Lemma record_data f rec rest data :
  records f (rec :: rest) → f_data f = Some data →
  at_ring data (u32 (f_out f + recsize) * 1) (rec ++ (rest ≫= encode recsize)).
Proof.
  intros Hr Hd. destruct (first_record f rec rest data Hr Hd) as [Hg Hring]. pose proof (cap_range b Hb).
  pose proof (alen_nonneg rec). pose proof (alen_nonneg (rest ≫= encode recsize)).
  apply (ring_drop _ _ _ recsize) in Hring; [|rewrite !alen_app, alen_header; lia].
  assert (Z.to_nat recsize = length (header recsize (alen rec))) as El.
  { pose proof (alen_header (alen rec)) as Hh. unfold alen at 1 in Hh. lia. }
  rewrite El, drop_app_length in Hring.
  eapply ring_shift; [| |exact Hring]; rewrite (g_len _ _ _ _ Hg); [|lia].
  rewrite !Z.mul_1_r, <-Zminus_mod_idemp_r, u32_mod_cap, Zminus_mod_idemp_r. by rewrite Z.sub_diag.
Qed.

Lemma records_pop f rec rest :
  records f (rec :: rest) → records (set_out f (u32 (f_out f + u32 (alen rec + recsize)))) rest.
Proof.
  intros Hr. pose proof (alen_nonneg rec). unfold records in *. rewrite bind_cons in Hr. rewrite alen_app, alen_encode in Hr.
  pose proof (alen_nonneg (rest ≫= encode recsize)).
  apply (holds_remove b 1 Hb Hone _ _ _ (recsize + alen rec)) in Hr; [|lia].
  rewrite Z.mul_1_r in Hr. rewrite u32_add_r, (Z.add_comm (alen rec)).
  assert (Z.to_nat (recsize + alen rec) = length (encode recsize rec)) as El.
  { pose proof (alen_encode rec) as Hh. unfold alen at 1 in Hh. lia. }
  rewrite El, drop_app_length in Hr.
  by replace (recsize + alen rec + alen (rest ≫= encode recsize) - (recsize + alen rec)) with (alen (rest ≫= encode recsize)) in Hr by lia.
Qed.

Lemma records_empty f recs : records f recs → (f_in f =? f_out f) = bool_decide (recs = []).
Proof.
  intros (data & Hg & _ & Hn & _ & ->). pose proof (cap_range b Hb). pose proof (g_out _ _ _ _ Hg) as Ho. unfold is_u32 in Ho.
  destruct recs as [|rec rest].
  - change (alen ([] ≫= encode recsize)) with 0. rewrite Z.add_0_r, u32_small by lia. by rewrite Z.eqb_refl.
  - rewrite bool_decide_eq_false_2 by done. apply Z.eqb_neq. rewrite bind_cons, alen_app, alen_encode in *.
    pose proof (alen_nonneg rec). pose proof (alen_nonneg (rest ≫= encode recsize)).
    set (n := recsize + _ + _) in *. intros He. assert (u32 (u32 (f_out f + n) - f_out f) = 0) as Hz by by rewrite He, Z.sub_diag.
    rewrite u32_sub_l in Hz. replace (f_out f + n - f_out f) with n in Hz by lia. rewrite u32_small in Hz; lia.
Qed.

Lemma take_record (rec rest : list Z) n : 0 ≤ n ≤ alen rec → take (Z.to_nat n) (rec ++ rest) = take (Z.to_nat n) rec.
Proof. intros. apply take_app_le. unfold alen in *. lia. Qed.

(** Reading the first record, or a part of it. *)
Lemma kfifo_out_copy_r_spec f rec rest len :
  records f (rec :: rest) → alen rec < 256 ^ recsize → 0 ≤ len →
  let k := Z.min len (alen rec) in
  kfifo_out_copy_r f len recsize = Some (k, take (Z.to_nat k) rec, alen rec).
Proof.
  intros Hr Hlen Hl k. unfold kfifo_out_copy_r. rewrite (peek_spec f rec rest Hr Hlen). cbn [mbind option_bind].
  replace (if alen rec <? len then alen rec else len) with k by (subst k; destruct (Z.ltb_spec (alen rec) len); lia).
  pose proof Hr as (data & Hg & _ & Hn & _). pose proof (alen_nonneg rec). pose proof (alen_nonneg (rest ≫= encode recsize)).
  rewrite bind_cons, alen_app, alen_encode in Hn.
  rewrite (copy_out_spec b 1 Hb Hone cap_fits f data k _ _ Hg ltac:(lia) (record_data f rec rest data Hr (g_data _ _ _ _ Hg)))
    by (rewrite alen_app; lia).
  cbn [mbind option_bind]. rewrite Z.mul_1_r, take_record by lia. done.
Qed.

Lemma max_r len : 0 ≤ len → __kfifo_max_r len recsize = Z.min len (256 ^ recsize - 1).
Proof.
  intros Hl. unfold __kfifo_max_r. assert (u32 (s32 (1 .<< (recsize .<< 3)) - 1) = 256 ^ recsize - 1) as ->
    by by destruct Hrec as [-> | ->]. destruct (Z.ltb_spec (256 ^ recsize - 1) len); lia.
Qed.

Lemma kfifo_from_user_r_spec f recs from len :
  records f recs → 0 ≤ len →
  let k := Z.min len (256 ^ recsize - 1) in
  if cap - alen (recs ≫= encode recsize) <? k + recsize then __kfifo_from_user_r f from len recsize = Some (0, 0, f)
  else if alen from <? k
  then ∃ f', __kfifo_from_user_r f from len recsize = Some (- EFAULT, 0, f') ∧ records f' recs
  else ∃ f', __kfifo_from_user_r f from len recsize = Some (0, k, f') ∧ records f' (recs ++ [take (Z.to_nat k) from]).
Proof.
  intros Hr Hlen k. pose proof (alen_nonneg from). pose proof (cap_range b Hb).
  assert (255 ≤ 256 ^ recsize - 1 ≤ 65535) by (destruct Hrec as [-> | ->]; lia).
  unfold __kfifo_from_user_r. rewrite max_r by done. fold k.
  rewrite (records_free f recs Hr), (u32_small (k + recsize)) by lia.
  destruct (Z.ltb_spec (cap - alen (recs ≫= encode recsize)) (k + recsize)) as [_|Hfit]; [done|].
  pose proof Hr as (data & Hg & _ & Hn & _). pose proof (alen_nonneg (recs ≫= encode recsize)).
  destruct (poke_spec f data k Hg) as (d1 & -> & Hg1 & Hget1). cbn [mbind option_bind].
  destruct (kfifo_copy_from_user_spec b 1 Hb Hone cap_fits cap_user (set_data f d1) d1 from k (u32 (f_in f + recsize)) Hg1)
    as (d2 & Hc & Hg2 & Hin & Hout); [lia|].
  rewrite Z.div_1_r, !Z.mul_1_r in *. change (f_in (set_data f d1)) with (f_in f). rewrite Hc. cbn [mbind option_bind].
  change (set_data (set_data f d1) d2) with (set_data f d2) in *. unfold truthy.
  destruct (Z.ltb_spec (alen from) k) as [Hf|Hf].
  - rewrite (proj2 (Z.eqb_neq (k - _) 0)) by lia. cbn [negb]. eexists. split; [done|].
    apply (records_kept f recs data d2 (recsize + k)); [done|apply (g_data _ _ _ _ Hg)|lia|lia|done|].
    intros i Hi Hge. destruct (rel_header (f_in f) i Hi) as [Hm Hrel]. rewrite decide_False in Hrel by lia.
    rewrite Hout by lia. by rewrite Hget1, decide_False by lia.
  - replace (k - Z.min (alen from) k) with 0 by lia. cbn [Z.eqb negb]. rewrite Z.sub_0_r, (u32_small k) by lia.
    eexists. split; [done|]. rewrite <-(u32_small (k + recsize)) by lia.
    assert (alen (take (Z.to_nat k) from) = k) as Ht by (apply alen_take; lia).
    rewrite <-Ht at 1. apply (record_written f recs data d1 d2); rewrite ?Ht; [done|apply (g_data _ _ _ _ Hg)|lia|done|done| |].
    + intros i Hi Hlt. rewrite Hin by lia. rewrite aget_take; [done|]. split; [apply Z.mod_pos_bound; lia|done].
    + intros i Hi Hge. by apply Hout.
Qed.

Lemma kfifo_to_user_r_spec f rec rest room len :
  records f (rec :: rest) → alen rec < 256 ^ recsize → 0 ≤ len → 0 ≤ room →
  let k := Z.min len (alen rec) in
  let put := take (Z.to_nat (Z.min room k)) rec in
  if room <? k then __kfifo_to_user_r f room len recsize = Some (- EFAULT, 0, put, f)
  else ∃ f', __kfifo_to_user_r f room len recsize = Some (0, k, put, f') ∧ records f' rest.
Proof.
  intros Hr Hrl Hlen Hroom k put. unfold __kfifo_to_user_r. rewrite (records_empty f _ Hr).
  rewrite bool_decide_eq_false_2 by done. rewrite (peek_spec f rec rest Hr Hrl). cbn [mbind option_bind].
  replace (if alen rec <? len then alen rec else len) with k by (subst k; destruct (Z.ltb_spec (alen rec) len); lia).
  pose proof Hr as (data & Hg & _ & Hn & _). pose proof (alen_nonneg rec). pose proof (alen_nonneg (rest ≫= encode recsize)).
  rewrite bind_cons, alen_app, alen_encode in Hn. pose proof (cap_range b Hb).
  rewrite (kfifo_copy_to_user_spec b 1 Hb Hone cap_fits cap_user f data k _ _ room Hg ltac:(lia)
    (record_data f rec rest data Hr (g_data _ _ _ _ Hg))) by (rewrite ?alen_app; lia).
  cbn [mbind option_bind]. rewrite Z.mul_1_r, Z.div_1_r, take_record by lia. fold put. unfold truthy.
  destruct (Z.ltb_spec room k).
  - by rewrite (proj2 (Z.eqb_neq (k - _) 0)) by lia.
  - replace (k - Z.min room k) with 0 by lia. cbn [Z.eqb negb]. rewrite Z.sub_0_r, (u32_small k) by lia.
    eexists. split; [done|]. by apply records_pop.
Qed.
End records.

(** The contract: a queue of records in a bounded number of bytes. *)
Inductive rec_op :=
  | RIn (buf : list Z) | ROut (len : Z) | RPeek (len : Z)
  | RFromUser (from : list Z) (len : Z) | RToUser (room len : Z).
Definition rec_exec (f : __kfifo) (recsize : Z) (o : rec_op) : option (Z * list Z * __kfifo) :=
  match o with
  | RIn buf => '(k, f) ← __kfifo_in_r f buf (alen buf) recsize; Some (k, [], f)
  | ROut len => __kfifo_out_r f len recsize
  | RPeek len => '(k, buf) ← __kfifo_out_peek_r f len recsize; Some (k, buf, f)
  | RFromUser from len => '(err, _, f) ← __kfifo_from_user_r f from len recsize; Some (err, [], f)
  | RToUser room len => '(err, _, put, f) ← __kfifo_to_user_r f room len recsize; Some (err, put, f)
  end.
Fixpoint rec_run (f : __kfifo) (recsize : Z) (os : list rec_op) : option (list (Z * list Z) * __kfifo) :=
  match os with
  | [] => Some ([], f)
  | o :: os => '(r, out, f) ← rec_exec f recsize o; '(rs, f) ← rec_run f recsize os; Some ((r, out) :: rs, f)
  end.
Definition records_exec (cap recsize : Z) (recs : list (list Z)) (o : rec_op) : Z * list Z * list (list Z) :=
  let free := cap - alen (recs ≫= encode recsize) in
  match o with
  | RIn buf => if free <? alen buf + recsize then (0, [], recs) else (alen buf, [], recs ++ [buf])
  | ROut len =>
      match recs with
      | [] => (0, [], [])
      | rec :: rest => let k := Z.min len (alen rec) in (k, take (Z.to_nat k) rec, rest)
      end
  | RPeek len =>
      match recs with
      | [] => (0, [], [])
      | rec :: _ => let k := Z.min len (alen rec) in (k, take (Z.to_nat k) rec, recs)
      end
  | RFromUser from len =>
      let k := Z.min len (256 ^ recsize - 1) in
      if free <? k + recsize then (0, [], recs)
      else if alen from <? k then (- EFAULT, [], recs) else (0, [], recs ++ [take (Z.to_nat k) from])
  | RToUser room len =>
      match recs with
      | [] => (0, [], [])
      | rec :: rest =>
          let k := Z.min len (alen rec) in
          let put := take (Z.to_nat (Z.min room k)) rec in
          if room <? k then (- EFAULT, put, recs) else (0, put, rest)
      end
  end.
Fixpoint records_run (cap recsize : Z) (recs : list (list Z)) (os : list rec_op) : list (Z * list Z) * list (list Z) :=
  match os with
  | [] => ([], recs)
  | o :: os => let '(r, out, recs) := records_exec cap recsize recs o in
               let '(rs, recs) := records_run cap recsize recs os in ((r, out) :: rs, recs)
  end.
(** The length of a record put in from the kernel fits its header. *)
Definition rec_ok (recsize : Z) (o : rec_op) : Prop :=
  match o with
  | RIn buf => alen buf < 256 ^ recsize
  | ROut len | RPeek len | RFromUser _ len => 0 ≤ len
  | RToUser room len => 0 ≤ room ∧ 0 ≤ len
  end.

Lemma rec_exec_spec b recsize f recs o :
  1 ≤ b ≤ 31 → recsize = 1 ∨ recsize = 2 →
  records b recsize f recs → Forall (λ rec, alen rec < 256 ^ recsize) recs → rec_ok recsize o →
  let '(r, out, recs') := records_exec (2 ^ b) recsize recs o in
  ∃ f', rec_exec f recsize o = Some (r, out, f') ∧ records b recsize f' recs' ∧
    Forall (λ rec, alen rec < 256 ^ recsize) recs'.
Proof.
  intros Hb Hrec Hr Hall Ho. assert (256 ≤ 256 ^ recsize ≤ 65536) by (destruct Hrec as [-> | ->]; lia).
  pose proof (records_empty b recsize Hb Hrec f recs Hr) as Hempty.
  unfold records_exec. destruct o as [buf|len|len|from len|room len]; cbn [rec_exec rec_ok] in *.
  - pose proof (kfifo_in_r_spec b recsize Hb Hrec f recs buf (alen buf) Hr eq_refl ltac:(lia)) as Hs.
    destruct (_ <? _); [by rewrite Hs; eexists|]. destruct Hs as (f' & -> & Hr'). eexists. split; [done|].
    split; [done|]. apply Forall_app. by repeat constructor.
  - unfold __kfifo_out_r. rewrite Hempty. destruct recs as [|rec rest]; [by eexists|].
    apply Forall_cons in Hall as [Hl Hall]. rewrite bool_decide_eq_false_2 by done.
    rewrite (kfifo_out_copy_r_spec b recsize Hb Hrec f rec rest len Hr Hl Ho). eexists. split; [done|].
    split; [by apply records_pop|done].
  - unfold __kfifo_out_peek_r. rewrite Hempty. destruct recs as [|rec rest]; [by eexists|].
    apply Forall_cons in Hall as Hall'. destruct Hall' as [Hl _]. rewrite bool_decide_eq_false_2 by done.
    rewrite (kfifo_out_copy_r_spec b recsize Hb Hrec f rec rest len Hr Hl Ho). by eexists.
  - pose proof (kfifo_from_user_r_spec b recsize Hb Hrec f recs from len Hr Ho) as Hs. cbn zeta in Hs.
    destruct (_ <? _); [by rewrite Hs; eexists|]. pose proof (alen_nonneg from).
    destruct (Z.ltb_spec (alen from) (Z.min len (256 ^ recsize - 1))); destruct Hs as (f' & -> & Hr'); eexists; (split; [done|]);
      (split; [done|]); [done|]. apply Forall_app. split; [done|]. repeat constructor. rewrite alen_take; lia.
  - destruct recs as [|rec rest].
    { unfold __kfifo_to_user_r. rewrite Hempty. by eexists. }
    apply Forall_cons in Hall as Hall'. destruct Hall' as [Hl Hall'], Ho as [Hroom Hlen].
    pose proof (kfifo_to_user_r_spec b recsize Hb Hrec f rec rest room len Hr Hl Hlen Hroom) as Hs. cbn zeta in Hs.
    destruct (_ <? _); [by rewrite Hs; eexists|]. destruct Hs as (f' & -> & Hr'). by eexists.
Qed.

Lemma rec_run_spec b recsize os : ∀ f recs,
  1 ≤ b ≤ 31 → recsize = 1 ∨ recsize = 2 →
  records b recsize f recs → Forall (λ rec, alen rec < 256 ^ recsize) recs → Forall (rec_ok recsize) os →
  ∃ f', rec_run f recsize os = Some ((records_run (2 ^ b) recsize recs os).1, f').
Proof.
  induction os as [|o os IH]; intros f recs Hb Hrec Hr Hall Hos; cbn [rec_run records_run]; [by eexists|].
  apply Forall_cons in Hos as [Ho Hos]. pose proof (rec_exec_spec b recsize f recs o Hb Hrec Hr Hall Ho) as He.
  destruct (records_exec (2 ^ b) recsize recs o) as [[r out] recs1]. destruct He as (f1 & -> & Hr1 & Hall1). cbn [mbind option_bind].
  destruct (IH f1 recs1 Hb Hrec Hr1 Hall1 Hos) as (f' & ->). cbn [mbind option_bind].
  destruct (records_run (2 ^ b) recsize recs1 os) as [rs recs2]. by eexists.
Qed.

(** C32: in record mode the fifo behaves as a queue of records, each with a
    header of one or two bytes, in a bounded number of bytes: what is put in
    comes out whole, in order, once; a record that does not fit is refused; a
    read takes at most the requested part and drops the rest of its record; a
    user-space fault leaves the queue of records as it was. *)
Theorem kfifo_records_refine size recsize data os :
  2 ≤ size < 2 ^ 32 → recsize = 1 ∨ recsize = 2 → alen data = 2 ^ Z.log2 size → Forall (rec_ok recsize) os →
  ∃ f f', __kfifo_alloc size 1 (λ _, Some data) = (0, f) ∧
    rec_run f recsize os = Some ((records_run (2 ^ Z.log2 size) recsize [] os).1, f').
Proof.
  intros Hs Hrec Hlen Hos. pose proof (log2_small size Hs) as Hb. set (b := Z.log2 size) in *.
  pose proof (cap_range b Hb). unfold __kfifo_alloc. rewrite rounddown_log2 by lia. fold b.
  rewrite (proj2 (Z.ltb_ge (2 ^ b) 2)) by lia.
  destruct (rec_run_spec b recsize os
    {| f_in := 0; f_out := 0; f_mask := u32 (2 ^ b - 1); f_esize := 1; f_data := Some data |} [] Hb Hrec)
    as (f' & Hrun); [apply fresh_holds; lia|constructor|done|]. by eexists _, f'.
Qed.
Lemma kfifo_records_witness :
  ∃ f f', __kfifo_alloc 9 1 (λ _, Some (replicate 8 0)) = (0, f) ∧
    rec_run f 1 [RIn [1; 2; 3]; RIn [4; 5; 6; 7]; RIn [8; 9]; ROut 2; RFromUser [1] 2; RToUser 1 5; ROut 5; ROut 5]
    = Some ([(3, []); (0, []); (2, []); (2, [1; 2]); (- EFAULT, []); (- EFAULT, [8]); (2, [8; 9]); (0, [])], f').
Proof.
  apply (kfifo_records_refine 9 1 (replicate 8 0)
    [RIn [1; 2; 3]; RIn [4; 5; 6; 7]; RIn [8; 9]; ROut 2; RFromUser [1] 2; RToUser 1 5; ROut 5; ROut 5]);
    [lia|by left|done|repeat constructor; cbn; lia || by vm_compute].
Defined.

End Kfifo.
