(* ===== verification/Sync.v ===== *)
(** * Sync: counting semaphores and reader/writer semaphores

    kernel/semaphore.c and lib/rwsem-spinlock.c. What runs under the spin lock
    of a semaphore is one step; sleeping tasks, signals, timeouts and the order
    in which tasks run are the events of a schedule. *)

From S2P Require Import Prelude.

(** ** Counting semaphores (kernel/semaphore.c) *)
Module Semaphore.

Definition EINTR : Z := 4.
Definition ETIME : Z := 62.
Definition TASK_INTERRUPTIBLE : Z := 1.
Definition TASK_UNINTERRUPTIBLE : Z := 2.
Definition TASK_WAKEKILL : Z := 128.
Definition TASK_KILLABLE : Z := TASK_WAKEKILL .| TASK_UNINTERRUPTIBLE.
Definition MAX_SCHEDULE_TIMEOUT : Z := 2 ^ 31 - 1.

(** What is pending for a task when it looks. *)
Inductive signal := NoSignal | Signal | FatalSignal.
Definition signal_pending_state (state : Z) (s : signal) : bool :=
  if negb (truthy (state .& (TASK_INTERRUPTIBLE .| TASK_WAKEKILL))) then false
  else match s with
       | NoSignal => false
       | Signal => truthy (state .& TASK_INTERRUPTIBLE)
       | FatalSignal => true
       end.

(** A waiter on the stack of its task: [wt_up] and the arguments of the wait. *)
Record semaphore_waiter := { wt_up : bool; wt_state : Z }.
(** Tasks are numbers; a task waits at most once. *)
Record semaphore := { count : Z; wait_list : list nat; waiters : gmap nat semaphore_waiter }.
Definition sema_init (val : Z) : semaphore := {| count := val; wait_list := []; waiters := ∅ |}.
Definition set_count (s : semaphore) (c : Z) : semaphore :=
  {| count := c; wait_list := wait_list s; waiters := waiters s |}.
(** list_del of a waiter, which ends with the function. *)
Definition leave (s : semaphore) (t : nat) : semaphore :=
  {| count := count s; wait_list := filter (λ x, x ≠ t) (wait_list s); waiters := delete t (waiters s) |}.

(** One round of the loop of __down_common: [None] is asleep. *)
Definition down_round (s : semaphore) (t : nat) (state timeout : Z) (sig : signal) : semaphore * option Z :=
  if signal_pending_state state sig then (leave s t, Some (- EINTR))
  else if timeout <=? 0 then (leave s t, Some (- ETIME))
  else (s, None).
Definition __down_common (s : semaphore) (t : nat) (state timeout : Z) (sig : signal) : semaphore * option Z :=
  let s := {| count := count s; wait_list := wait_list s ++ [t];
              waiters := <[t := {| wt_up := false; wt_state := state |}]> (waiters s) |} in
  down_round s t state timeout sig.
(** Back from schedule_timeout with [timeout] left. *)
Definition down_resume (s : semaphore) (t : nat) (timeout : Z) (sig : signal) : option (semaphore * option Z) :=
  w ← waiters s !! t;
  Some (if wt_up w
        then ({| count := count s; wait_list := wait_list s; waiters := delete t (waiters s) |}, Some 0)
        else down_round s t (wt_state w) timeout sig).

Definition __down (s : semaphore) (t : nat) (sig : signal) : semaphore * option Z :=
  __down_common s t TASK_UNINTERRUPTIBLE MAX_SCHEDULE_TIMEOUT sig.
Definition __down_interruptible (s : semaphore) (t : nat) (sig : signal) : semaphore * option Z :=
  __down_common s t TASK_INTERRUPTIBLE MAX_SCHEDULE_TIMEOUT sig.
Definition __down_killable (s : semaphore) (t : nat) (sig : signal) : semaphore * option Z :=
  __down_common s t TASK_KILLABLE MAX_SCHEDULE_TIMEOUT sig.
Definition __down_timeout (s : semaphore) (t : nat) (jiffies : Z) (sig : signal) : semaphore * option Z :=
  __down_common s t TASK_UNINTERRUPTIBLE jiffies sig.
Definition down (s : semaphore) (t : nat) (sig : signal) : semaphore * option Z :=
  if 0 <? count s then (set_count s (s32 (count s - 1)), Some 0) else __down s t sig.
Definition down_interruptible (s : semaphore) (t : nat) (sig : signal) : semaphore * option Z :=
  if 0 <? count s then (set_count s (s32 (count s - 1)), Some 0) else __down_interruptible s t sig.
Definition down_killable (s : semaphore) (t : nat) (sig : signal) : semaphore * option Z :=
  if 0 <? count s then (set_count s (s32 (count s - 1)), Some 0) else __down_killable s t sig.
Definition down_timeout (s : semaphore) (t : nat) (jiffies : Z) (sig : signal) : semaphore * option Z :=
  if 0 <? count s then (set_count s (s32 (count s - 1)), Some 0) else __down_timeout s t jiffies sig.
(** The four ways to wait, and what they ask of [__down_common]. *)
Inductive down_kind := Down | Interruptible | Killable | Timeout (jiffies : Z).
Definition down_by (s : semaphore) (t : nat) (k : down_kind) (sig : signal) : semaphore * option Z :=
  match k with
  | Down => down s t sig
  | Interruptible => down_interruptible s t sig
  | Killable => down_killable s t sig
  | Timeout jiffies => down_timeout s t jiffies sig
  end.
Definition kind_state (k : down_kind) : Z :=
  match k with
  | Down | Timeout _ => TASK_UNINTERRUPTIBLE
  | Interruptible => TASK_INTERRUPTIBLE
  | Killable => TASK_KILLABLE
  end.
Definition kind_timeout (k : down_kind) : Z :=
  match k with Timeout j => j | _ => MAX_SCHEDULE_TIMEOUT end.
Definition down_trylock (s : semaphore) : semaphore * Z :=
  let c := s32 (count s - 1) in
  (if 0 <=? c then set_count s c else s, if c <? 0 then 1 else 0).
Definition __up (s : semaphore) : semaphore :=
  match wait_list s with
  | [] => s
  | t :: rest =>
      {| count := count s; wait_list := rest;
         waiters := alter (λ w, {| wt_up := true; wt_state := wt_state w |}) t (waiters s) |}
  end.
Definition up (s : semaphore) : semaphore :=
  match wait_list s with
  | [] => set_count s (s32 (count s + 1))
  | _ => __up s
  end.

(** ** Schedules *)
Inductive event :=
  | EDown (t : nat) (k : down_kind) (sig : signal)
  | ETry
  | EUp
  | EResume (t : nat) (timeout : Z) (sig : signal).
#[export] Instance signal_eq_dec : EqDecision signal.
Proof. solve_decision. Defined.
#[export] Instance down_kind_eq_dec : EqDecision down_kind.
Proof. solve_decision. Defined.
#[export] Instance event_eq_dec : EqDecision event.
Proof. solve_decision. Defined.
(** A task that waits does not call down again, and only it resumes. *)
Definition enabled (s : semaphore) (e : event) : Prop :=
  match e with
  | EDown t _ _ => waiters s !! t = None
  | EResume t _ _ => is_Some (waiters s !! t)
  | _ => True
  end.
(** The semaphore and whether the event acquired it. *)
Definition exec (s : semaphore) (e : event) : option (semaphore * bool) :=
  match e with
  | EDown t k sig => let '(s, r) := down_by s t k sig in Some (s, bool_decide (r = Some 0))
  | ETry => let '(s, r) := down_trylock s in Some (s, bool_decide (r = 0))
  | EUp => Some (up s, false)
  | EResume t timeout sig => '(s, r) ← down_resume s t timeout sig; Some (s, bool_decide (r = Some 0))
  end.
(** A run counts the releases and the acquisitions. *)
Inductive run (val : Z) : semaphore → Z → Z → Prop :=
  | run_init : run val (sema_init val) 0 0
  | run_step s ups acq e s' got :
      run val s ups acq → enabled s e → exec s e = Some (s', got) →
      run val s' (if e is EUp then ups + 1 else ups) (if got then acq + 1 else acq).

(** ** What the semaphore promises *)
Definition up_given (kw : nat * semaphore_waiter) : Prop := wt_up kw.2 = true.
#[export] Instance up_given_dec kw : Decision (up_given kw).
Proof. unfold up_given. tc_solve. Defined.
(** Releases handed to a waiter that has not run yet. *)
Definition granted (m : gmap nat semaphore_waiter) : Z := Z.of_nat (size (filter up_given m)).
(** The wait list is the waiters that have not been given the semaphore; a
    count is only left over when nobody waits. *)
Record inv (s : semaphore) : Prop := {
  inv_count : 0 ≤ count s;
  inv_nodup : NoDup (wait_list s);
  inv_idle : 0 < count s → wait_list s = [];
  inv_waits t : t ∈ wait_list s ↔ ∃ w, waiters s !! t = Some w ∧ wt_up w = false }.

Lemma down_by_eq s t k sig :
  down_by s t k sig = if 0 <? count s then (set_count s (s32 (count s - 1)), Some 0)
                      else __down_common s t (kind_state k) (kind_timeout k) sig.
Proof. by destruct k. Qed.

Lemma granted_new m t st : m !! t = None → granted (<[t := {| wt_up := false; wt_state := st |}]> m) = granted m.
Proof. intros Ht. unfold granted. rewrite map_filter_insert_False by done. by rewrite delete_id. Qed.
Lemma granted_leave m t w : m !! t = Some w → wt_up w = false → granted (delete t m) = granted m.
Proof.
  intros Ht Hw. unfold granted. rewrite map_filter_delete, delete_id; [done|].
  apply map_lookup_filter_None. right. intros w' Ht'. simplify_eq. unfold up_given. cbn. congruence.
Qed.
Lemma granted_take m t w : m !! t = Some w → wt_up w = true → granted (delete t m) = granted m - 1.
Proof.
  intros Ht Hw. unfold granted. rewrite map_filter_delete.
  assert (filter up_given m !! t = Some w) as Hf by by apply map_lookup_filter_Some.
  rewrite map_size_delete_Some by by eexists. assert (size (filter up_given m) ≠ 0%nat); [|lia].
  intros He%map_size_empty_inv. by rewrite He in Hf.
Qed.
Lemma granted_give m t w f : m !! t = Some w → wt_up w = false → wt_up (f w) = true → granted (alter f t m) = granted m + 1.
Proof.
  intros Ht Hw Hf. assert (alter f t m = <[t := f w]> m) as ->.
  { apply map_eq. intros i. destruct (decide (i = t)) as [->|]; [by rewrite lookup_alter_eq, lookup_insert_eq, Ht|].
    by rewrite lookup_alter_ne, lookup_insert_ne. }
  unfold granted. rewrite map_filter_insert_True by done. rewrite map_size_insert_None; [lia|].
  apply map_lookup_filter_None. right. intros w' Ht'. simplify_eq. unfold up_given. cbn. congruence.
Qed.

Lemma leave_inv s t : inv s → (∃ w, waiters s !! t = Some w ∧ wt_up w = false) →
  inv (leave s t) ∧ granted (waiters (leave s t)) = granted (waiters s).
Proof.
  intros [Hc Hn Hi Hw] (w & Ht & Hu). split; [|by eapply granted_leave]. split; cbn.
  - done.
  - by apply NoDup_filter.
  - intros H0. by rewrite (Hi H0).
  - intros x. rewrite list_elem_of_filter, Hw. split.
    + intros (Hne & w' & Hx & Hu'). exists w'. by rewrite lookup_delete_ne.
    + intros (w' & [Hne Hx]%lookup_delete_Some & Hu'). eauto.
Qed.

Lemma down_round_inv s t state timeout sig s' r :
  inv s → (∃ w, waiters s !! t = Some w ∧ wt_up w = false) → down_round s t state timeout sig = (s', r) →
  inv s' ∧ granted (waiters s') = granted (waiters s) ∧ r ≠ Some 0 ∧ count s' = count s.
Proof.
  intros Hi Hw. unfold down_round. destruct (leave_inv s t Hi Hw) as [Hl Hg].
  destruct (signal_pending_state state sig); [|destruct (timeout <=? 0)]; intros [= <- <-]; by split_and!.
Qed.

Lemma enqueue_inv s t st :
  inv s → count s ≤ 0 → waiters s !! t = None →
  inv {| count := count s; wait_list := wait_list s ++ [t];
         waiters := <[t := {| wt_up := false; wt_state := st |}]> (waiters s) |}.
Proof.
  intros [Hc Hn Hi Hw] H0 Ht. split; cbn; [done| |lia|].
  - apply NoDup_app. split_and!; [done| |apply NoDup_singleton].
    intros x Hx ->%list_elem_of_singleton. apply Hw in Hx as (? & ? & _). congruence.
  - intros x. rewrite elem_of_app, list_elem_of_singleton, Hw. destruct (decide (x = t)) as [->|Hne].
    + rewrite lookup_insert_eq. naive_solver.
    + rewrite lookup_insert_ne by done. naive_solver.
Qed.

Lemma up_inv s : inv s → count s + 1 < 2 ^ 31 → inv (up s) ∧
  count (up s) + granted (waiters (up s)) = count s + granted (waiters s) + 1.
Proof.
  intros Hinv Hlt. pose proof Hinv as [Hc Hn Hi Hw]. unfold up, __up. destruct (wait_list s) as [|t rest] eqn:Hl.
  - rewrite s32_small by lia. split; [|cbn; lia]. split; cbn; [lia|by rewrite Hl|by rewrite Hl|by rewrite Hl].
  - destruct (proj1 (Hw t)) as (w & Ht & Hu); [set_solver|]. apply NoDup_cons in Hn as [Hnt Hn]. split.
    + split; cbn; [done|done|intros H0; by specialize (Hi H0)|]. intros x. destruct (decide (x = t)) as [->|Hne].
      * rewrite lookup_alter_eq, Ht. cbn. naive_solver.
      * rewrite lookup_alter_ne by done. rewrite <-Hw. set_solver.
    + cbn. rewrite (granted_give _ _ w) by done. lia.
Qed.

Lemma exec_inv s e s' got ups :
  inv s → enabled s e → exec s e = Some (s', got) → count s + granted (waiters s) + 1 < 2 ^ 31 →
  ups = (if e is EUp then 1 else 0) →
  inv s' ∧ count s' + granted (waiters s') + (if got then 1 else 0) = count s + granted (waiters s) + ups.
Proof.
  intros Hinv He Hex Hlt ->. pose proof Hinv as [Hc Hn Hi Hw].
  assert (0 ≤ granted (waiters s)) by (unfold granted; lia).
  destruct e as [t k sig| | |t timeout sig]; cbn [exec enabled] in *.
  - rewrite down_by_eq in Hex. destruct (Z.ltb_spec 0 (count s)) as [Hpos|H0].
    + simplify_eq. rewrite bool_decide_eq_true_2 by done. rewrite s32_small by lia.
      split; [|cbn; lia]. split; cbn; [lia|done|by intros; apply Hi; lia|done].
    + unfold __down_common in Hex. destruct (down_round _ _ _ _ _) as [s1 r] eqn:E. simplify_eq.
      apply down_round_inv in E as (Hinv' & Hg & Hr & Hcnt);
        [|by apply enqueue_inv|eexists; cbn; by rewrite lookup_insert_eq].
      rewrite bool_decide_eq_false_2 by done. split; [done|]. rewrite Hg, Hcnt. cbn. rewrite granted_new by done. lia.
  - unfold down_trylock in Hex. destruct (Z.leb_spec 0 (s32 (count s - 1))) as [Hge|Hlt2]; simplify_eq.
    + rewrite s32_small in * by lia. rewrite (proj2 (Z.ltb_ge (count s - 1) 0)), bool_decide_eq_true_2 by (done || lia).
      split; [|cbn; lia]. split; cbn; [lia|done|by intros; apply Hi; lia|done].
    + rewrite (proj2 (Z.ltb_lt _ 0)), bool_decide_eq_false_2 by (done || lia). split; [done|]. lia.
  - simplify_eq. destruct (up_inv s Hinv) as [Hinv' Hg]; [lia|]. split; [done|]. lia.
  - destruct He as [w Ht]. unfold down_resume in Hex. rewrite Ht in Hex. cbn in Hex. destruct (wt_up w) eqn:Hu.
    + simplify_eq. rewrite bool_decide_eq_true_2 by done. cbn. rewrite (granted_take _ _ w) by done. split; [|lia].
      split; cbn; [done|done|done|]. intros x. rewrite Hw. destruct (decide (x = t)) as [->|Hne].
      * rewrite lookup_delete_eq. split; [intros (w' & ? & ?); congruence|by intros (? & ? & _)].
      * by rewrite lookup_delete_ne.
    + destruct (down_round s t (wt_state w) timeout sig) as [s1 r] eqn:E. simplify_eq.
      apply down_round_inv in E as (Hinv' & Hg & Hr & Hcnt); [|done|eauto].
      rewrite bool_decide_eq_false_2 by done. split; [done|]. rewrite Hg, Hcnt. lia.
Qed.

(** C22: under every schedule of downs of all kinds, trylocks, releases,
    signals, timeouts and wake-ups, the semaphore neither loses nor invents a
    release: the count, the releases handed to sleepers and the acquisitions
    so far add up to the initial value and the releases; so at most that many
    acquisitions ever succeed, and while somebody waits the count is 0. *)
Theorem semaphore_conserves val s ups acq :
  0 ≤ val → run val s ups acq → val + ups + 1 < 2 ^ 31 →
  inv s ∧ count s + granted (waiters s) + acq = val + ups ∧ 0 ≤ acq ≤ val + ups ∧
  (wait_list s ≠ [] → count s = 0).
Proof.
  intros Hval Hrun Hlt.
  assert (inv s ∧ count s + granted (waiters s) + acq = val + ups ∧ 0 ≤ acq ∧ 0 ≤ ups) as (Hi & Hsum & Hacq & Hups).
  { induction Hrun as [|s ups acq e s' got Hrun IH He Hex].
    - split_and!; try done; [|cbn; unfold granted; by rewrite map_filter_empty, map_size_empty; lia].
      split; cbn; [done|constructor|done|]. intros t. rewrite lookup_empty. split; [set_solver|naive_solver].
    - assert (ups ≤ if e is EUp then ups + 1 else ups) by (destruct e; lia).
      destruct IH as (Hi & Hsum & Hacq & Hups); [lia|].
      destruct (exec_inv s e s' got _ Hi He Hex ltac:(lia) eq_refl) as [Hi' Hs'].
      split; [done|]. destruct e, got; cbn in *; lia. }
  split; [done|]. split; [done|]. destruct Hi as [Hc _ Hidle _].
  assert (0 ≤ granted (waiters s)) by (unfold granted; lia). split; [lia|].
  intros Hne. destruct (decide (count s = 0)); [done|]. destruct (Hne (Hidle ltac:(lia))).
Qed.

Lemma semaphore_conserves_witness :
  ∃ s, run 1 s 1 2 ∧ count s + granted (waiters s) + 2 = 1 + 1 ∧ inv s.
Proof.
  assert (∃ s, run 1 s 1 2) as [s Hrun].
  { pose proof (run_step 1 _ 0 0 (EDown 1 Interruptible Signal) _ true (run_init 1) eq_refl eq_refl) as H1.
    pose proof (run_step 1 _ _ _ (EDown 2 (Timeout 10) NoSignal) _ false H1 eq_refl eq_refl) as H2.
    pose proof (run_step 1 _ _ _ EUp _ false H2 I eq_refl) as H3.
    eexists. exact (run_step 1 _ _ _ (EResume 2 0 Signal) _ true H3 (ex_intro _ _ eq_refl) eq_refl). }
  exists s. destruct (semaphore_conserves 1 s 1 2 ltac:(lia) Hrun ltac:(lia)) as (Hi & Hsum & _).
  split; [exact Hrun|]. split; [exact Hsum|exact Hi].
Defined.

(** ** Order of the waiters *)
Inductive steps : semaphore → list event → semaphore → Prop :=
  | steps_nil s : steps s [] s
  | steps_cons s e s1 got es s2 :
      enabled s e → exec s e = Some (s1, got) → steps s1 es s2 → steps s (e :: es) s2.
Definition ups_of (es : list event) : nat := length (filter (λ e, e = EUp) es).

(** [t] waits behind at most [p] others, or has been given the semaphore. *)
Definition waits (s : semaphore) (t p : nat) : Prop :=
  (∃ l1 l2, wait_list s = l1 ++ t :: l2 ∧ (length l1 ≤ p)%nat) ∧
  ∃ w, waiters s !! t = Some w ∧ wt_up w = false.
Definition given (s : semaphore) (t : nat) : Prop := ∃ w, waiters s !! t = Some w ∧ wt_up w = true.

Lemma waits_append s s' t t' p :
  waits s t p → wait_list s' = wait_list s ++ [t'] → waiters s' !! t = waiters s !! t → waits s' t p.
Proof.
  intros [(l1 & l2 & Hl & Hp) Hw] Hl' Hw'. split; [|by rewrite Hw']. exists l1, (l2 ++ [t']). split; [|done].
  by rewrite Hl', Hl, <-app_assoc.
Qed.
Lemma waits_leave s t t' p : waits s t p → t ≠ t' → waits (leave s t') t p.
Proof.
  intros [(l1 & l2 & Hl & Hp) (w & Hw & Hu)] Hne. split; [|exists w; cbn; by rewrite lookup_delete_ne].
  exists (filter (λ x, x ≠ t') l1), (filter (λ x, x ≠ t') l2). split.
  - cbn. rewrite Hl, filter_app, filter_cons. by rewrite decide_True by done.
  - etrans; [apply length_filter|done].
Qed.

Lemma waits_up s t p : waits s t p →
  given (up s) t ∨ (0 < p)%nat ∧ waits (up s) t (p - 1).
Proof.
  intros [(l1 & l2 & Hl & Hp) (w & Hw & Hu)]. unfold up, __up. rewrite Hl.
  destruct l1 as [|x l1]; cbn [app].
  - left. exists {| wt_up := true; wt_state := wt_state w |}. cbn. by rewrite lookup_alter_eq, Hw.
  - destruct (decide (x = t)) as [->|Hne].
    + left. exists {| wt_up := true; wt_state := wt_state w |}. cbn. by rewrite lookup_alter_eq, Hw.
    + right. cbn in Hp. split; [lia|]. split; [exists l1, l2; split; [done|lia]|].
      exists w. cbn. by rewrite lookup_alter_ne.
Qed.

Lemma round_other s t t' state timeout sig :
  t ≠ t' → waiters (down_round s t' state timeout sig).1 !! t = waiters s !! t ∧
  ∀ p, waits s t p → waits (down_round s t' state timeout sig).1 t p.
Proof.
  intros Hne. unfold down_round. destruct (signal_pending_state state sig); [|destruct (timeout <=? 0)]; cbn.
  - split; [by rewrite lookup_delete_ne|]. intros. by apply waits_leave.
  - split; [by rewrite lookup_delete_ne|]. intros. by apply waits_leave.
  - done.
Qed.

(** A step other than the waiter's own keeps its place or improves it. *)
Lemma step_keeps s e s' got t :
  enabled s e → exec s e = Some (s', got) → is_Some (waiters s !! t) → (∀ timeout sig, e ≠ EResume t timeout sig) → e ≠ EUp →
  (given s t → given s' t) ∧ ∀ p, waits s t p → waits s' t p.
Proof.
  intros He Hex [w Hw] Hnr Hnu. assert (∀ s1, waiters s1 !! t = waiters s !! t → given s t → given s1 t) as Hgiv.
  { intros s1 Hs1 (w' & ? & ?). exists w'. by rewrite Hs1. }
  destruct e as [t' k sig| | |t' timeout sig]; cbn [exec enabled] in *; [| |done|].
  - assert (t ≠ t') as Hne by congruence. rewrite down_by_eq in Hex. destruct (0 <? count s).
    + simplify_eq. split; [by apply Hgiv|done].
    + unfold __down_common in Hex. set (s1 := {| count := _ |}) in Hex.
      assert (waiters s1 !! t = waiters s !! t) as Hs1 by by cbn; rewrite lookup_insert_ne.
      destruct (round_other s1 t t' (kind_state k) (kind_timeout k) sig Hne) as [Hr Hp].
      destruct (down_round s1 t' (kind_state k) (kind_timeout k) sig) as [s2 r]. simplify_eq. cbn in Hr, Hp.
      split; [apply Hgiv; by rewrite Hr|]. intros p Hwt. apply Hp. by apply (waits_append s s1 t t' p).
  - unfold down_trylock in Hex. simplify_eq. case_match; split; (done || by apply Hgiv).
  - assert (t ≠ t') as Hne by (intros ->; by apply (Hnr timeout sig)).
    unfold down_resume in Hex. destruct (waiters s !! t') as [w'|] eqn:Ht'; [|done]. cbn in Hex. destruct (wt_up w').
    + simplify_eq. split; [apply Hgiv; cbn; by rewrite lookup_delete_ne|]. intros p [Hl (w1 & Hw1 & Hu1)].
      split; [done|]. exists w1. cbn. by rewrite lookup_delete_ne.
    + destruct (round_other s t t' (wt_state w') timeout sig Hne) as [Hr Hp].
      destruct (down_round s t' (wt_state w') timeout sig) as [s2 r]. simplify_eq. cbn in Hr, Hp. split; [by apply Hgiv|done].
Qed.

Lemma given_up s t : given s t → given (up s) t.
Proof.
  intros (w & Hw & Hu). unfold up, __up. destruct (wait_list s) as [|x rest]; [by exists w|].
  destruct (decide (x = t)) as [->|Hne].
  - exists {| wt_up := true; wt_state := wt_state w |}. cbn. by rewrite lookup_alter_eq, Hw.
  - exists w. cbn. by rewrite lookup_alter_ne.
Qed.

Lemma steps_given s es s' t :
  steps s es s' → (∀ timeout sig, EResume t timeout sig ∉ es) → given s t → given s' t.
Proof.
  induction 1 as [s|s e s1 got es s2 He Hex Hst IH]; intros Hnr Hg; [done|]. apply IH; [set_solver|].
  destruct (decide (e = EUp)) as [->|Hnu]; [cbn in Hex; simplify_eq; by apply given_up|].
  apply (step_keeps s e s1 got t He Hex); [destruct Hg as (w & ? & _); eauto|set_solver|done|done].
Qed.

Lemma steps_waits s es s' t p :
  steps s es s' → (∀ timeout sig, EResume t timeout sig ∉ es) → waits s t p →
  given s' t ∨ (ups_of es ≤ p)%nat.
Proof.
  intros Hst. revert p. induction Hst as [s|s e s1 got es s2 He Hex Hst IH]; intros p Hnr Hs.
  { right. cbn. lia. }
  unfold ups_of. rewrite filter_cons. fold (ups_of es). destruct (decide (e = EUp)) as [->|Hnu].
  - cbn in Hex. simplify_eq. apply waits_up in Hs as [Hg|[Hp Hw]].
    + left. apply (steps_given _ _ _ _ Hst); [set_solver|done].
    + destruct (IH (p - 1)%nat) as [?|Hle]; [set_solver|done|by left|]. right. cbn. unfold ups_of in Hle. lia.
  - apply IH; [set_solver|]. apply (step_keeps s e s1 got t He Hex); [|set_solver|done|done].
    destruct Hs as [_ (w & ? & _)]. eauto.
Qed.

(** Waiters are served in order and no wake-up is lost: a task that waits
    behind [length l1] others has been given the semaphore after that many
    releases and one more, whatever the other tasks do meanwhile; and when it
    then runs, down returns 0, even if a signal is pending or its time is up. *)
Theorem semaphore_fifo s es s' t l1 l2 w :
  wait_list s = l1 ++ t :: l2 → waiters s !! t = Some w → wt_up w = false →
  steps s es s' → (∀ timeout sig, EResume t timeout sig ∉ es) → (length l1 < ups_of es)%nat →
  ∀ timeout sig, ∃ s'', down_resume s' t timeout sig = Some (s'', Some 0).
Proof.
  intros Hl Hw Hu Hst Hnr Hups timeout sig.
  destruct (steps_waits s es s' t (length l1) Hst Hnr) as [(w' & Hw' & Hu')|Hle].
  - split; [by exists l1, l2|by exists w].
  - unfold down_resume. rewrite Hw'. cbn. rewrite Hu'. by eexists.
  - lia.
Qed.
Definition two_waiting : semaphore :=
  {| count := 0; wait_list := [5; 7]%nat;
     waiters := {[5%nat := {| wt_up := false; wt_state := 2 |}; 7%nat := {| wt_up := false; wt_state := 2 |}]} |}.
Lemma semaphore_fifo_witness :
  ∃ s', steps two_waiting [EUp; EResume 5 0 NoSignal; EUp] s' ∧
    ∀ timeout sig, ∃ s'', down_resume s' 7 timeout sig = Some (s'', Some 0).
Proof.
  assert (∃ s', steps two_waiting [EUp; EResume 5 0 NoSignal; EUp] s') as [s' Hst].
  { eexists. eapply steps_cons; [exact I|reflexivity|]. eapply steps_cons; [eexists; reflexivity|reflexivity|].
    eapply steps_cons; [exact I|reflexivity|]. apply steps_nil. }
  exists s'. split; [exact Hst|].
  apply (semaphore_fifo two_waiting [EUp; EResume 5 0 NoSignal; EUp] s' 7 [5%nat] [] {| wt_up := false; wt_state := 2 |}).
  - reflexivity.
  - reflexivity.
  - reflexivity.
  - exact Hst.
  - intros timeout sig Hin. repeat (apply elem_of_cons in Hin as [Hin|Hin]; [discriminate Hin|]). by apply elem_of_nil in Hin.
  - vm_compute. lia.
Defined.

End Semaphore.

(** ** Reader/writer semaphores (lib/rwsem-spinlock.c) *)
Module RwSem.

(** A waiter: its task, and whether it waits for writing. *)
Definition rwsem_waiter : Type := nat * bool.
Record rw_semaphore := { activity : Z; rw_wait : list rwsem_waiter }.
Definition __init_rwsem : rw_semaphore := {| activity := 0; rw_wait := [] |}.
(** [got_lock]: the result of spin_trylock on the semaphore's lock. *)
Definition rwsem_is_locked (got_lock : bool) (sem : rw_semaphore) : bool :=
  if got_lock then negb (activity sem =? 0) else true.

(** The readers at the front of the queue, and the rest. *)
Fixpoint wake_readers (l : list rwsem_waiter) : list rwsem_waiter * list rwsem_waiter :=
  match l with
  | (t, false) :: rest => let '(woken, rest) := wake_readers rest in ((t, false) :: woken, rest)
  | _ => ([], l)
  end.
(** The semaphore and the waiters that are given it. *)
Definition __rwsem_do_wake (sem : rw_semaphore) (wakewrite : bool) : rw_semaphore * list rwsem_waiter :=
  let readers :=
    let '(woken, rest) := wake_readers (rw_wait sem) in
    ({| activity := s32 (activity sem + Z.of_nat (length woken)); rw_wait := rest |}, woken) in
  match rw_wait sem with
  | (t, true) :: rest =>
      if wakewrite then ({| activity := -1; rw_wait := rest |}, [(t, true)]) else (sem, [])
  | _ => readers
  end.
(** Called with somebody waiting. *)
Definition __rwsem_wake_one_writer (sem : rw_semaphore) : rw_semaphore * list rwsem_waiter :=
  match rw_wait sem with
  | w :: rest => ({| activity := -1; rw_wait := rest |}, [w])
  | [] => (sem, [])
  end.

Definition empty (sem : rw_semaphore) : bool := match rw_wait sem with [] => true | _ => false end.
Definition set_activity (sem : rw_semaphore) (a : Z) : rw_semaphore := {| activity := a; rw_wait := rw_wait sem |}.
Definition enqueue (sem : rw_semaphore) (w : rwsem_waiter) : rw_semaphore :=
  {| activity := activity sem; rw_wait := rw_wait sem ++ [w] |}.
(** The lock functions: the semaphore, and whether the lock was granted. *)
Definition __down_read_trylock (sem : rw_semaphore) : rw_semaphore * bool :=
  if (0 <=? activity sem) && empty sem then (set_activity sem (s32 (activity sem + 1)), true) else (sem, false).
Definition __down_read (sem : rw_semaphore) (t : nat) : rw_semaphore * bool :=
  if (0 <=? activity sem) && empty sem then (set_activity sem (s32 (activity sem + 1)), true)
  else (enqueue sem (t, false), false).
Definition __down_write_trylock (sem : rw_semaphore) : rw_semaphore * bool :=
  if (activity sem =? 0) && empty sem then (set_activity sem (-1), true) else (sem, false).
Definition __down_write_nested (sem : rw_semaphore) (t : nat) : rw_semaphore * bool :=
  if (activity sem =? 0) && empty sem then (set_activity sem (-1), true) else (enqueue sem (t, true), false).
Definition __down_write := __down_write_nested.
Definition __up_read (sem : rw_semaphore) : rw_semaphore * list rwsem_waiter :=
  let sem := set_activity sem (s32 (activity sem - 1)) in
  if (activity sem =? 0) && negb (empty sem) then __rwsem_wake_one_writer sem else (sem, []).
Definition __up_write (sem : rw_semaphore) : rw_semaphore * list rwsem_waiter :=
  let sem := set_activity sem 0 in
  if negb (empty sem) then __rwsem_do_wake sem true else (sem, []).
Definition __downgrade_write (sem : rw_semaphore) : rw_semaphore * list rwsem_waiter :=
  let sem := set_activity sem 1 in
  if negb (empty sem) then __rwsem_do_wake sem false else (sem, []).

(** ** Tasks using the semaphore *)

(** Who holds it: a waiter holds it from the moment its task pointer is cleared. *)
Record sys := { sem : rw_semaphore; readers : gset nat; writer : option nat }.
Definition init : sys := {| sem := __init_rwsem; readers := ∅; writer := None |}.
Definition give (s : sys) (w : rwsem_waiter) : sys :=
  if w.2 then {| sem := sem s; readers := readers s; writer := Some w.1 |}
  else {| sem := sem s; readers := {[w.1]} ∪ readers s; writer := writer s |}.

Inductive event :=
  | DownRead (t : nat) | TryRead (t : nat) | DownWrite (t : nat) | TryWrite (t : nat)
  | UpRead (t : nat) | UpWrite (t : nat) | Downgrade (t : nat).
Definition PID_MAX : nat := Z.to_nat 32768.
Definition outside (s : sys) (t : nat) : Prop :=
  (t < PID_MAX)%nat ∧ (t ∉ readers s) ∧ writer s ≠ Some t ∧ (t ∉ (fst <$> rw_wait (sem s))).
(** The rules for the callers: lock only when not involved, release what is held. *)
Definition allowed (s : sys) (e : event) : Prop :=
  match e with
  | DownRead t | TryRead t | DownWrite t | TryWrite t => outside s t
  | UpRead t => t ∈ readers s
  | UpWrite t | Downgrade t => writer s = Some t
  end.
Definition exec (s : sys) (e : event) : sys :=
  let lock '(m, granted) w :=
    let s := {| sem := m; readers := readers s; writer := writer s |} in
    if granted : bool then give s w else s in
  let release '(m, woken) rd wr := foldl give {| sem := m; readers := rd; writer := wr |} woken in
  match e with
  | DownRead t => lock (__down_read (sem s) t) (t, false)
  | TryRead t => lock (__down_read_trylock (sem s)) (t, false)
  | DownWrite t => lock (__down_write (sem s) t) (t, true)
  | TryWrite t => lock (__down_write_trylock (sem s)) (t, true)
  | UpRead t => release (__up_read (sem s)) (readers s ∖ {[t]}) (writer s)
  | UpWrite t => release (__up_write (sem s)) (readers s) None
  | Downgrade t => release (__downgrade_write (sem s)) ({[t]} ∪ readers s) None
  end.
Inductive steps : sys → sys → Prop :=
  | steps_refl s : steps s s
  | steps_step s1 s2 e : steps s1 s2 → allowed s2 e → steps s1 (exec s2 e).

(** ** Exclusion *)
Record inv (s : sys) : Prop := {
  i_writer t : writer s = Some t → activity (sem s) = -1 ∧ readers s = ∅;
  i_readers : writer s = None → activity (sem s) = Z.of_nat (size (readers s));
  i_free : activity (sem s) = 0 → rw_wait (sem s) = [];
  i_head : 0 < activity (sem s) → match rw_wait (sem s) with [] => True | w :: _ => w.2 = true end;
  i_nodup : NoDup (fst <$> rw_wait (sem s));
  i_apart t : t ∈ (fst <$> rw_wait (sem s)) → (t ∉ readers s) ∧ writer s ≠ Some t;
  i_pids t : t ∈ readers s ∨ writer s = Some t ∨ t ∈ (fst <$> rw_wait (sem s)) → (t < PID_MAX)%nat }.

Lemma readers_bound s : inv s → Z.of_nat (size (readers s)) ≤ 32768.
Proof.
  intros Hi. assert (readers s ⊆ list_to_set (seq 0 PID_MAX)) as Hsub.
  { intros t Ht. apply elem_of_list_to_set, elem_of_seq. split; [lia|]. apply (i_pids s Hi). by left. }
  apply subseteq_size in Hsub. rewrite size_list_to_set, length_seq in Hsub by apply NoDup_seq. unfold PID_MAX in Hsub. lia.
Qed.

Lemma wake_readers_spec l :
  let '(woken, rest) := wake_readers l in
  l = woken ++ rest ∧ Forall (λ w, w.2 = false) woken ∧ match rest with [] => True | w :: _ => w.2 = true end.
Proof.
  induction l as [|[t k] l IH]; [done|]. destruct k; cbn.
  - done.
  - destruct (wake_readers l) as [woken rest]. destruct IH as (-> & Hw & Hr). split_and!; [done|by constructor|done].
Qed.

Lemma give_readers woken : ∀ s, Forall (λ w, w.2 = false) woken →
  foldl give s woken = {| sem := sem s; readers := list_to_set (fst <$> woken) ∪ readers s; writer := writer s |}.
Proof.
  induction woken as [|[t k] woken IH]; intros s Hw; cbn.
  - destruct s; cbn. f_equal. set_solver.
  - apply Forall_cons in Hw as [Hk Hw]. cbn in Hk. subst k. cbn. rewrite IH by done. cbn. f_equal. set_solver.
Qed.

(** A lock that is granted at once. *)
Lemma grant_read s t :
  inv s → outside s t → 0 ≤ activity (sem s) → rw_wait (sem s) = [] →
  inv (give {| sem := set_activity (sem s) (s32 (activity (sem s) + 1)); readers := readers s; writer := writer s |} (t, false)).
Proof.
  intros Hi (Hpid & Hr & Hw & _) Ha Hl. pose proof (readers_bound s Hi). destruct Hi as [Hwr Hrd _ _ _ _ Hpids].
  assert (writer s = None) as Hnone by (destruct (writer s) as [x|]; [destruct (Hwr x eq_refl); lia|done]).
  rewrite s32_small by (rewrite Hrd in * by done; lia). split; cbn; rewrite ?Hl, ?Hnone.
  - done.
  - intros _. rewrite size_union, size_singleton, (Hrd Hnone) by set_solver. lia.
  - intros. lia.
  - done.
  - constructor.
  - set_solver.
  - intros x. specialize (Hpids x). rewrite Hnone in Hpids. set_solver.
Qed.
Lemma grant_write s t :
  inv s → outside s t → activity (sem s) = 0 → rw_wait (sem s) = [] →
  inv (give {| sem := set_activity (sem s) (-1); readers := readers s; writer := writer s |} (t, true)).
Proof.
  intros [Hwr Hrd _ _ _ _ Hpids] (Hpid & Hr & Hw & _) Ha Hl.
  assert (writer s = None) as Hnone by (destruct (writer s) as [x|]; [destruct (Hwr x eq_refl); lia|done]).
  assert (readers s = ∅) as Hemp.
  { apply leibniz_equiv, size_empty_iff. specialize (Hrd Hnone). lia. }
  split; cbn; rewrite ?Hl, ?Hemp; [done|done|done|lia|constructor|set_solver|].
  intros x. rewrite Hl in *. set_solver.
Qed.

(** A waiter added to the queue of a semaphore that is held. *)
Lemma rw_enqueue_inv s t k :
  inv s → outside s t → activity (sem s) ≠ 0 → (0 < activity (sem s) → rw_wait (sem s) = [] → k = true) →
  inv {| sem := enqueue (sem s) (t, k); readers := readers s; writer := writer s |}.
Proof.
  intros [Hwr Hrd Hfr Hhd Hnd Hap Hpids] (Hpid & Hr & Hw & Hq) Ha Hk. split; cbn.
  - done.
  - done.
  - done.
  - intros Hpos. specialize (Hhd Hpos). destruct (rw_wait (sem s)); [by apply Hk|done].
  - rewrite fmap_app. apply NoDup_app. split_and!; [done|set_solver|apply NoDup_singleton].
  - intros x. rewrite fmap_app, elem_of_app. intros [?|?]; [by apply Hap|]. set_solver.
  - intros x. specialize (Hpids x). rewrite fmap_app, elem_of_app. set_solver.
Qed.

Lemma empty_iff m : empty m = true ↔ rw_wait m = [].
Proof. unfold empty. by destruct (rw_wait m). Qed.

Lemma not_free s : inv s → (0 <=? activity (sem s)) && empty (sem s) = false → activity (sem s) ≠ 0.
Proof.
  intros Hi Hf H0. rewrite H0 in Hf. cbn in Hf.
  by rewrite (proj2 (empty_iff (sem s)) (i_free s Hi H0)) in Hf.
Qed.

Lemma read_lock_inv s t : inv s → outside s t → inv (exec s (DownRead t)) ∧ inv (exec s (TryRead t)).
Proof.
  intros Hi Ho. unfold exec, __down_read, __down_read_trylock.
  destruct ((0 <=? activity (sem s)) && empty (sem s)) eqn:E.
  - apply andb_true_iff in E as [Ha%Z.leb_le Hl%empty_iff]. split; by apply grant_read.
  - split; [|by destruct s]. apply rw_enqueue_inv; [done|done|by apply not_free|]. intros Hpos Hl%empty_iff.
    rewrite Hl, (proj2 (Z.leb_le 0 _)) in E by lia. done.
Qed.
Lemma write_lock_inv s t : inv s → outside s t → inv (exec s (DownWrite t)) ∧ inv (exec s (TryWrite t)).
Proof.
  intros Hi Ho. unfold exec, __down_write, __down_write_nested, __down_write_trylock.
  destruct ((activity (sem s) =? 0) && empty (sem s)) eqn:E.
  - apply andb_true_iff in E as [Ha%Z.eqb_eq Hl%empty_iff]. split; by apply grant_write.
  - split; [|by destruct s]. apply rw_enqueue_inv; [done|done| |done]. intros H0.
    rewrite H0, (proj2 (empty_iff (sem s))) in E by (by apply (i_free s Hi)). done.
Qed.

(** The queue after its first waiters have left it. *)
Lemma queue_suffix (woken rest : list rwsem_waiter) :
  NoDup (fst <$> woken ++ rest) → NoDup (fst <$> rest) ∧ NoDup (fst <$> woken) ∧
  ∀ t, t ∈ (fst <$> rest) → t ∉ (fst <$> woken).
Proof. rewrite fmap_app. intros (? & Hd & ?)%NoDup_app. split_and!; try done. intros t Hr Hw. by apply (Hd t). Qed.

Lemma up_read_inv s t : inv s → t ∈ readers s → inv (exec s (UpRead t)).
Proof.
  intros Hi Ht. pose proof (readers_bound s Hi) as Hb. destruct Hi as [Hwr Hrd Hfr Hhd Hnd Hap Hpids].
  assert (writer s = None) as Hnone by (destruct (writer s) as [x|]; [destruct (Hwr x eq_refl); set_solver|done]).
  assert (size (readers s ∖ {[t]}) = (size (readers s) - 1)%nat) as Hsz.
  { rewrite size_difference, size_singleton by set_solver. done. }
  assert (size (readers s) ≠ 0%nat) as Hn0 by (intros He%size_empty_inv; set_solver).
  specialize (Hrd Hnone). unfold exec, __up_read. rewrite Hrd, s32_small by lia. cbn [activity set_activity].
  destruct (Z.eqb_spec (Z.of_nat (size (readers s)) - 1) 0) as [H0|H0]; cbn [andb].
  - assert (readers s ∖ {[t]} = ∅) as Hemp by (apply leibniz_equiv, size_empty_iff; lia).
    unfold __rwsem_wake_one_writer, empty. cbn [rw_wait set_activity]. rewrite Hemp. specialize (Hhd ltac:(lia)).
    destruct (rw_wait (sem s)) as [|[x k] rest] eqn:Hl; cbn [negb foldl].
    + split; cbn; rewrite ?Hl, ?Hnone; [done|done|done|lia|constructor|set_solver|set_solver].
    + cbn in Hhd. subst k. cbn. apply (queue_suffix [(x, true)] rest) in Hnd as (Hnd & _ & Hx).
      split; cbn; [done|done|done|lia|done| |].
      * intros y Hy. specialize (Hx y Hy). split; [set_solver|]. intros [= ->]. set_solver.
      * intros y Hy. apply (Hpids y). set_solver.
  - cbn [foldl]. split; cbn; rewrite ?Hnone; [done|intros _; lia|lia|intros; apply Hhd; lia|done| |].
    + intros y Hy. destruct (Hap y Hy). set_solver.
    + intros y Hy. apply (Hpids y). rewrite Hnone. set_solver.
Qed.

(** Readers woken from the front of the queue join [rd]. *)
Lemma wake_readers_inv wl rd a :
  NoDup (fst <$> wl) → (∀ t, t ∈ (fst <$> wl) → t ∉ rd) →
  (∀ t, t ∈ rd ∨ t ∈ (fst <$> wl) → (t < PID_MAX)%nat) → a = Z.of_nat (size rd) →
  (a = 0 → match wl with w :: _ => w.2 = false | [] => True end) →
  let '(woken, rest) := wake_readers wl in
  inv (foldl give {| sem := {| activity := s32 (a + Z.of_nat (length woken)); rw_wait := rest |};
                     readers := rd; writer := None |} woken).
Proof.
  intros Hnd Hap Hpids -> Hhd. pose proof (wake_readers_spec wl) as Hw.
  assert (∀ t l, wl = (t, false) :: l → (wake_readers wl).1 ≠ []) as Hsome.
  { intros t l ->. cbn. by destruct (wake_readers l). }
  destruct (wake_readers wl) as [woken rest]. destruct Hw as (Heq & Hk & Hrest). cbn in Hsome.
  rewrite give_readers by done. cbn [sem readers writer].
  assert (size (list_to_set (fst <$> woken) ∪ rd : gset nat) = (length woken + size rd)%nat) as Hsz.
  { rewrite Heq in Hnd, Hap. destruct (queue_suffix _ _ Hnd) as (_ & Hndw & _). rewrite size_union.
    - by rewrite size_list_to_set, length_fmap.
    - intros x Hx%elem_of_list_to_set Hr. apply (Hap x); [rewrite fmap_app; set_solver|done]. }
  assert (Z.of_nat (length woken + size rd) ≤ 32768) as Hb.
  { rewrite <-Hsz. assert ((list_to_set (fst <$> woken) ∪ rd : gset nat) ⊆ list_to_set (seq 0 PID_MAX)) as Hsub.
    { intros t Ht. apply elem_of_list_to_set, elem_of_seq. split; [lia|]. apply Hpids. rewrite Heq, fmap_app. set_solver. }
    apply subseteq_size in Hsub. rewrite (size_list_to_set (seq 0 PID_MAX)), length_seq in Hsub by apply NoDup_seq.
    unfold PID_MAX in Hsub. lia. }
  rewrite s32_small by lia. rewrite Heq in Hnd, Hap, Hpids. destruct (queue_suffix _ _ Hnd) as (Hndr & _ & Hdis).
  split; cbn; [done|intros _; rewrite Hsz; lia| |by intros _|done| |].
  - intros H0. assert (woken = []) as -> by (apply length_zero_iff_nil; lia). cbn in Heq. subst rest.
    destruct wl as [|[t k] l]; [done|]. specialize (Hhd ltac:(lia)). cbn in Hhd, Hrest. congruence.
  - intros y Hy. split; [|done]. specialize (Hdis y Hy). specialize (Hap y). rewrite fmap_app in Hap. set_solver.
  - intros y Hy. apply (Hpids y). rewrite fmap_app. set_solver.
Qed.

Lemma up_write_inv s t : inv s → writer s = Some t → inv (exec s (UpWrite t)) ∧ inv (exec s (Downgrade t)).
Proof.
  intros [Hwr Hrd Hfr Hhd Hnd Hap Hpids] Ht. destruct (Hwr t Ht) as [Ha Hemp].
  unfold exec, __up_write, __downgrade_write, empty. cbn [rw_wait set_activity]. rewrite Hemp.
  destruct (rw_wait (sem s)) as [|[x k] rest] eqn:Hl; cbn [negb].
  - split; cbn.
    + split; cbn; rewrite ?Hl; [done|done|done|lia|constructor|set_solver|set_solver].
    + split; cbn; rewrite ?Hl; [done|intros _; by rewrite union_empty_r_L, size_singleton|done|done|constructor|set_solver|].
      intros y Hy. apply (Hpids y). set_solver.
  - assert (x ≠ t) as Hxt by (destruct (Hap x) as [_ ?]; [set_solver|congruence]).
    unfold __rwsem_do_wake. cbn [rw_wait set_activity activity]. rewrite Hl. destruct k.
    + apply (queue_suffix [(x, true)] rest) in Hnd as Hq. destruct Hq as (Hndr & _ & Hx). split; cbn.
      * split; cbn; [done|done|done|lia|done| |intros y Hy; apply (Hpids y); set_solver].
        intros y Hy. specialize (Hx y Hy). split; [set_solver|]. intros [= ->]. set_solver.
      * split; cbn; rewrite ?Hl; [done|intros _; by rewrite union_empty_r_L, size_singleton|done|done|done| |].
        -- intros y Hy. destruct (Hap y Hy) as [_ Hy2]. split; [|done]. rewrite Ht in Hy2. set_solver.
        -- intros y Hy. apply (Hpids y). set_solver.
    + split.
      * pose proof (wake_readers_inv ((x, false) :: rest) ∅ 0) as Hwk.
        cbn [wake_readers] in *. destruct (wake_readers rest) as [woken rest']. apply Hwk; [done|set_solver| |done|done].
        intros y Hy. apply (Hpids y). set_solver.
      * pose proof (wake_readers_inv ((x, false) :: rest) ({[t]} ∪ ∅) 1) as Hwk.
        cbn [wake_readers] in *. destruct (wake_readers rest) as [woken rest']. apply Hwk; [done| | | |done].
        -- intros y Hy. destruct (Hap y Hy) as [_ Hy2]. rewrite Ht in Hy2. set_solver.
        -- intros y Hy. apply (Hpids y). set_solver.
        -- by rewrite union_empty_r_L, size_singleton.
Qed.

Lemma rw_exec_inv s e : inv s → allowed s e → inv (exec s e).
Proof.
  intros Hi He. destruct e as [t|t|t|t|t|t|t]; cbn [allowed] in He;
    [by apply read_lock_inv..|by apply write_lock_inv|by apply write_lock_inv|by apply up_read_inv|by apply up_write_inv|by apply up_write_inv].
Qed.
Lemma steps_inv s s' : inv s → steps s s' → inv s'.
Proof. intros Hi. induction 1; [done|]. apply rw_exec_inv; auto. Qed.
Lemma init_inv : inv init.
Proof. split; cbn; [done|by rewrite size_empty|done|done|constructor|set_solver|set_solver]. Qed.


(** Two readers, then a writer and a third reader behind it. *)
Definition readers_then_writer : sys :=
  foldl exec init [DownRead 1%nat; DownRead 2%nat; DownWrite 3%nat; DownRead 4%nat].

(** ** No overtaking *)
Definition holder (s : sys) (t : nat) : Prop := t ∈ readers s ∨ writer s = Some t.
Definition holds (s : sys) (w : rwsem_waiter) : Prop := if w.2 then writer s = Some w.1 else w.1 ∈ readers s.
Fixpoint permitted (s : sys) (es : list event) : Prop :=
  match es with [] => True | e :: es => allowed s e ∧ permitted (exec s e) es end.

(** What a release wakes: readers, or one waiter. *)
Definition one_kind (woken : list rwsem_waiter) : Prop := Forall (λ w, w.2 = false) woken ∨ ∃ w, woken = [w].

Lemma give_holds s woken w : one_kind woken → w ∈ woken → holds (foldl give s woken) w.
Proof.
  intros [Hr|[x ->]] Hw.
  - rewrite give_readers by done. rewrite Forall_forall in Hr. unfold holds. rewrite (Hr w Hw). cbn.
    apply elem_of_union_l, elem_of_list_to_set, list_elem_of_fmap. by exists w.
  - apply list_elem_of_singleton in Hw as ->. unfold holds, give. cbn. destruct (x.2); cbn; set_solver.
Qed.
Lemma give_holder woken : ∀ s t, holder (foldl give s woken) t → holder s t ∨ t ∈ (fst <$> woken).
Proof.
  induction woken as [|[x k] woken IH]; intros s t; cbn [foldl]; [by left|].
  intros [H|H]%IH; [|set_solver]. unfold holder, give in *. destruct k; cbn in *; set_solver.
Qed.
Lemma give_sem woken : ∀ s, sem (foldl give s woken) = sem s.
Proof. induction woken as [|[x k] woken IH]; intros s; cbn [foldl]; [done|]. rewrite IH. by destruct k. Qed.

Lemma up_read_wakes m : rw_wait m = (__up_read m).2 ++ rw_wait (__up_read m).1 ∧ one_kind (__up_read m).2.
Proof.
  unfold __up_read, __rwsem_wake_one_writer, empty. cbn [rw_wait set_activity].
  destruct (rw_wait m) eqn:Hl; destruct (_ =? 0); cbn; rewrite ?Hl; split; try done; (by left; constructor) || (right; by eexists).
Qed.
Lemma do_wake_wakes m b :
  rw_wait m = (__rwsem_do_wake m b).2 ++ rw_wait (__rwsem_do_wake m b).1 ∧ one_kind (__rwsem_do_wake m b).2.
Proof.
  unfold __rwsem_do_wake. pose proof (wake_readers_spec (rw_wait m)) as Hw.
  destruct (wake_readers (rw_wait m)) as [woken rest]. destruct Hw as (Heq & Hk & _).
  destruct (rw_wait m) as [|[t []] l] eqn:Hl; [|destruct b|]; cbn; rewrite ?Hl;
    (split; [done|]); (by left) || (right; by eexists) || (left; by constructor).
Qed.
Lemma up_write_wakes m : rw_wait m = (__up_write m).2 ++ rw_wait (__up_write m).1 ∧ one_kind (__up_write m).2.
Proof.
  unfold __up_write. destruct (negb _); [apply (do_wake_wakes (set_activity m 0))|]. split; [done|left; constructor].
Qed.
Lemma downgrade_wakes m :
  rw_wait m = (__downgrade_write m).2 ++ rw_wait (__downgrade_write m).1 ∧ one_kind (__downgrade_write m).2.
Proof.
  unfold __downgrade_write. destruct (negb _); [apply (do_wake_wakes (set_activity m 1))|]. split; [done|left; constructor].
Qed.

(** [w] has been given the lock, or still waits with fewer tasks in front of it, and
    only these have joined the holders. *)
Definition in_turn (s : sys) (l1 : list rwsem_waiter) (w : rwsem_waiter) (s' : sys) : Prop :=
  ∃ l1' l2', rw_wait (sem s') = l1' ++ w :: l2' ∧ l1' `suffix_of` l1 ∧
             ∀ t, holder s' t → holder s t ∨ t ∈ (fst <$> l1).

Lemma release_in_turn s l1 w l2 m woken rd wr :
  rw_wait (sem s) = l1 ++ w :: l2 → rw_wait (sem s) = woken ++ rw_wait m → one_kind woken →
  (∀ t, t ∈ rd ∨ wr = Some t → holder s t) →
  let s' := foldl give {| sem := m; readers := rd; writer := wr |} woken in holds s' w ∨ in_turn s l1 w s'.
Proof.
  intros Hl Heq Hk Hh s'. rewrite Hl in Heq. apply app_eq_inv in Heq as [(k & Hw & Hr)|(k & Hw & Hr)].
  - right. exists k, l2. subst s'. rewrite give_sem. cbn. split_and!; [done|by exists woken|].
    intros t [Ht|Ht]%give_holder; [left; by apply Hh|right; subst l1; rewrite fmap_app; set_solver].
  - destruct k as [|x k]; cbn in Hr.
    + right. exists [], l2. subst s'. rewrite give_sem. cbn. rewrite app_nil_r in Hw. subst l1. split_and!; [done|by eexists; rewrite app_nil_r|].
      intros t [Ht|Ht]%give_holder; [left; by apply Hh|by right].
    + simplify_eq. left. apply give_holds; [done|set_solver].
Qed.

(** A lock attempt while somebody waits is not granted. *)
Lemma lock_in_turn s l1 w l2 e t :
  rw_wait (sem s) = l1 ++ w :: l2 → e ∈ [DownRead t; TryRead t; DownWrite t; TryWrite t] → in_turn s l1 w (exec s e).
Proof.
  intros Hl He. assert (empty (sem s) = false) as Hne by (unfold empty; rewrite Hl; by destruct l1).
  unfold in_turn, holder. set_unfold. unfold exec, __down_read, __down_read_trylock, __down_write, __down_write_nested, __down_write_trylock.
  rewrite Hne, !andb_false_r.
  destruct_or! He; subst e || done; cbn; rewrite Hl, <-?app_assoc; eexists l1, _; split_and!; (reflexivity || auto).
Qed.
Lemma exec_in_turn s e l1 w l2 :
  allowed s e → rw_wait (sem s) = l1 ++ w :: l2 → holds (exec s e) w ∨ in_turn s l1 w (exec s e).
Proof.
  intros He Hl. destruct e as [t|t|t|t|t|t|t]; try (right; apply (lock_in_turn s l1 w l2 _ t Hl); set_solver); unfold exec; cbn in He.
  - destruct (up_read_wakes (sem s)) as [Heq Hk]. destruct (__up_read (sem s)) as [m woken].
    apply (release_in_turn s l1 w l2); [done..|]. unfold holder. set_solver.
  - destruct (up_write_wakes (sem s)) as [Heq Hk]. destruct (__up_write (sem s)) as [m woken].
    apply (release_in_turn s l1 w l2); [done..|]. unfold holder. set_solver.
  - destruct (downgrade_wakes (sem s)) as [Heq Hk]. destruct (__downgrade_write (sem s)) as [m woken].
    apply (release_in_turn s l1 w l2); [done..|]. unfold holder. set_solver.
Qed.

(** C21: the queue of a reader/writer semaphore is served in order: take a task that
    waits, with [l1] in front of it. Whatever the tasks do from there, either it is
    given the lock at some point, for the mode it asked for, or it still waits, those
    in front of it are a suffix of [l1], and every task that holds the lock held it at
    the start or was in front of it: nobody overtakes it, neither with a trylock nor
    as a reader while readers hold the lock. *)
Theorem rwsem_fair s es l1 w l2 :
  rw_wait (sem s) = l1 ++ w :: l2 → permitted s es →
  (∃ es1 es2, es = es1 ++ es2 ∧ holds (foldl exec s es1) w) ∨ in_turn s l1 w (foldl exec s es).
Proof.
  revert s l1 l2. induction es as [|e es IH]; intros s l1 l2 Hl Hp.
  - right. exists l1, l2. cbn. split_and!; [done|reflexivity|auto].
  - destruct Hp as [He Hp]. destruct (exec_in_turn s e l1 w l2 He Hl) as [Hh|(l1' & l2' & Hl' & [p ->] & Ht)].
    + left. by exists [e], es.
    + destruct (IH _ _ _ Hl' Hp) as [(es1 & es2 & -> & Hh)|(l1'' & l2'' & Hl'' & [p' ->] & Ht')].
      * left. by exists (e :: es1), es2.
      * right. exists l1'', l2''. cbn [foldl]. split_and!; [done|exists (p ++ p'); by rewrite app_assoc|].
        intros t [H|H]%Ht'; [by apply Ht|right; rewrite fmap_app; set_solver].
Qed.

(** Reader 4 waits behind writer 3; reader 5 tries and is refused; readers 1 and 2
    leave, and writer 3 is served before reader 4. *)
Lemma rwsem_fair_witness :
  let es := [TryRead 5%nat; UpRead 1%nat; UpRead 2%nat] in
  permitted readers_then_writer es ∧ writer (foldl exec readers_then_writer es) = Some 3%nat ∧
  ((∃ es1 es2, es = es1 ++ es2 ∧ holds (foldl exec readers_then_writer es1) (4%nat, false)) ∨
   in_turn readers_then_writer [(3%nat, true)] (4%nat, false) (foldl exec readers_then_writer es)).
Proof.
  intros es. assert (permitted readers_then_writer es) as Hp.
  { unfold es. cbn [permitted allowed]. split_and!; [by apply (bool_decide_unpack _); vm_compute..|exact I]. }
  split; [exact Hp|]. split; [reflexivity|].
  apply (rwsem_fair readers_then_writer es [(3%nat, true)] (4%nat, false) []); [reflexivity|exact Hp].
Defined.

End RwSem.
