(* ===== verification/Mutex.v ===== *)
(** * Mutex: sleeping locks with an atomic fast path

    kernel/mutex.c with include/asm-generic/mutex-dec.h, which MIPS uses, and
    kernel/mutex.h (SMP, no debugging). Each access to the atomic count, to the
    owner field and to the spin lock is a step of its own; the tasks interleave
    freely, on any number of processors. *)

From S2P Require Import Prelude Sync.
Import Semaphore (signal, signal_pending_state, TASK_INTERRUPTIBLE, TASK_UNINTERRUPTIBLE, TASK_KILLABLE, EINTR).

Module Mutex.

(** [wait_lock] is the task that holds the spin lock. *)
Record mutex := { count : Z; wait_lock : option nat; wait_list : list nat; owner : option nat }.
Definition __mutex_init : mutex := {| count := 1; wait_lock := None; wait_list := []; owner := None |}.
Definition set_count (m : mutex) (c : Z) : mutex :=
  {| count := c; wait_lock := wait_lock m; wait_list := wait_list m; owner := owner m |}.
Definition set_lock (m : mutex) (l : option nat) : mutex :=
  {| count := count m; wait_lock := l; wait_list := wait_list m; owner := owner m |}.
Definition set_list (m : mutex) (l : list nat) : mutex :=
  {| count := count m; wait_lock := wait_lock m; wait_list := l; owner := owner m |}.
Definition set_owner (m : mutex) (o : option nat) : mutex :=
  {| count := count m; wait_lock := wait_lock m; wait_list := wait_list m; owner := o |}.
Definition mutex_set_owner (m : mutex) (t : nat) : mutex := set_owner m (Some t).
Definition mutex_clear_owner (m : mutex) : mutex := set_owner m None.
Definition mutex_remove_waiter (m : mutex) (t : nat) : mutex := set_list m (filter (λ x, x ≠ t) (wait_list m)).
(** spin_lock_mutex: no step while another task holds it. *)
Definition spin_lock_mutex (m : mutex) (t : nat) : option mutex :=
  match wait_lock m with None => Some (set_lock m (Some t)) | Some _ => None end.
Definition spin_unlock_mutex (m : mutex) : mutex := set_lock m None.

(** ** The fast paths (mutex-dec.h): the count, and whether they succeed *)
Definition atomic_dec_return (c : Z) : Z := s32 (c - 1).
Definition atomic_inc_return (c : Z) : Z := s32 (c + 1).
Definition __mutex_fastpath_lock (c : Z) : Z * bool :=
  let c := atomic_dec_return c in (c, negb (c <? 0)).
Definition __mutex_fastpath_unlock (c : Z) : Z * bool :=
  let c := atomic_inc_return c in (c, negb (c <=? 0)).
Definition __mutex_slowpath_needs_to_unlock : bool := true.
Definition __mutex_fastpath_trylock (c : Z) : Z * bool := if c =? 1 then (0, true) else (c, false).

(** ** The slow paths *)

(** What a step finds outside the mutex: pending signals, whether the task
    should stop spinning, and whether the scheduler lets it spin on the owner. *)
Record env := { e_signal : signal; e_resched : bool; e_spin : bool }.
(** What [mutex_spin_on_owner] returns when its loop ends. *)
Definition mutex_spin_on_owner (m : mutex) (e : env) : bool :=
  e_spin e && bool_decide (owner m = None).

(** Where a task is in [__mutex_lock_common]. *)
Inductive lock_at :=
  | SpinOwner                      (* read the owner *)
  | SpinWait                       (* in mutex_spin_on_owner *)
  | SpinTry (owned : bool)         (* cmpxchg, having seen an owner or not *)
  | SpinSet                        (* got it: set the owner *)
  | SlowLock                       (* take the spin lock and queue *)
  | SlowFirst                      (* the first xchg *)
  | SlowTry                        (* the xchg of the loop *)
  | SlowFail                       (* not free: signal, or sleep *)
  | Asleep (woken : bool)          (* in schedule() *)
  | SlowDone                       (* got it: leave the queue, set the owner *)
  | SlowCount                      (* count 0 if nobody waits *)
  | SlowUnlock.                    (* release the spin lock *)
(** A step of it: still inside, or the value returned. *)
Definition __mutex_lock_common (m : mutex) (t : nat) (state : Z) (a : lock_at) (e : env) : option (mutex * (lock_at + Z)) :=
  match a with
  | SpinOwner => Some (m, inl (match owner m with None => SpinTry false | Some _ => SpinWait end))
  | SpinWait => Some (m, inl (if mutex_spin_on_owner m e then SpinTry true else SlowLock))
  | SpinTry owned =>
      if count m =? 1 then Some (set_count m 0, inl SpinSet)
      else if negb owned && e_resched e then Some (m, inl SlowLock)
      else Some (m, inl SpinOwner)
  | SpinSet => Some (mutex_set_owner m t, inr 0)
  | SlowLock => m ← spin_lock_mutex m t; Some (set_list m (wait_list m ++ [t]), inl SlowFirst)
  | SlowFirst => Some (set_count m (-1), inl (if count m =? 1 then SlowDone else SlowTry))
  | SlowTry => Some (set_count m (-1), inl (if count m =? 1 then SlowDone else SlowFail))
  | SlowFail =>
      if signal_pending_state state (e_signal e)
      then Some (spin_unlock_mutex (mutex_remove_waiter m t), inr (- EINTR))
      else Some (spin_unlock_mutex m, inl (Asleep false))
  | Asleep woken => if woken then m ← spin_lock_mutex m t; Some (m, inl SlowTry) else None
  | SlowDone => Some (mutex_set_owner (mutex_remove_waiter m t) t, inl SlowCount)
  | SlowCount => Some (match wait_list m with [] => set_count m 0 | _ => m end, inl SlowUnlock)
  | SlowUnlock => Some (spin_unlock_mutex m, inr 0)
  end.

(** Where a task is in [__mutex_unlock_common_slowpath]. *)
Inductive unlock_at := USpin | USet | UWake | UDone.
(** A step of it: where the task is then, if still inside, and whom it wakes. *)
Definition __mutex_unlock_common_slowpath (m : mutex) (t : nat) (a : unlock_at) : option (mutex * option unlock_at * option nat) :=
  match a with
  | USpin => m ← spin_lock_mutex m t; Some (m, Some USet, None)
  | USet => Some (if __mutex_slowpath_needs_to_unlock then set_count m 1 else m, Some UWake, None)
  | UWake => Some (m, Some UDone, head (wait_list m))
  | UDone => Some (spin_unlock_mutex m, None, None)
  end.
Definition __mutex_unlock_slowpath := __mutex_unlock_common_slowpath.

(** ** Tasks *)
Inductive lock_kind := Plain | Interruptible | Killable.
(** The slow paths differ in the task state they wait in. *)
Definition __mutex_lock_slowpath (m : mutex) (t : nat) := __mutex_lock_common m t TASK_UNINTERRUPTIBLE.
Definition __mutex_lock_killable_slowpath (m : mutex) (t : nat) := __mutex_lock_common m t TASK_KILLABLE.
Definition __mutex_lock_interruptible_slowpath (m : mutex) (t : nat) := __mutex_lock_common m t TASK_INTERRUPTIBLE.
Definition lock_slowpath (k : lock_kind) :=
  match k with
  | Plain => __mutex_lock_slowpath
  | Interruptible => __mutex_lock_interruptible_slowpath
  | Killable => __mutex_lock_killable_slowpath
  end.

(** Where a task is with respect to the mutex. *)
Inductive pc :=
  | Idle
  | LockFast (k : lock_kind)
  | InLock (k : lock_kind) (a : lock_at)
  | TryFast
  | SetOwner
  | Held
  | UnlockClear
  | UnlockFast
  | InUnlock (a : unlock_at).

#[export] Instance lock_kind_eq_dec : EqDecision lock_kind.
Proof. solve_decision. Defined.
#[export] Instance lock_at_eq_dec : EqDecision lock_at.
Proof. solve_decision. Defined.
#[export] Instance unlock_at_eq_dec : EqDecision unlock_at.
Proof. solve_decision. Defined.
#[export] Instance pc_eq_dec : EqDecision pc.
Proof. solve_decision. Defined.

(** mutex_lock: the plain form ignores what the slow path returns. *)
Definition mutex_lock (m : mutex) (t : nat) (p : pc) (e : env) : option (mutex * pc) :=
  match p with
  | LockFast Plain =>
      let '(c, ok) := __mutex_fastpath_lock (count m) in
      Some (set_count m c, if ok then SetOwner else InLock Plain SpinOwner)
  | InLock Plain a =>
      '(m, r) ← __mutex_lock_slowpath m t a e; Some (m, match r with inl a => InLock Plain a | inr _ => SetOwner end)
  | SetOwner => Some (mutex_set_owner m t, Held)
  | _ => None
  end.
(** mutex_lock_interruptible and mutex_lock_killable set the owner on success. *)
Definition mutex_lock_interruptible (m : mutex) (t : nat) (p : pc) (e : env) : option (mutex * pc) :=
  match p with
  | LockFast Interruptible =>
      let '(c, ok) := __mutex_fastpath_lock (count m) in
      Some (set_count m c, if ok then SetOwner else InLock Interruptible SpinOwner)
  | InLock Interruptible a =>
      '(m, r) ← __mutex_lock_interruptible_slowpath m t a e;
      Some (m, match r with inl a => InLock Interruptible a | inr ret => if ret =? 0 then SetOwner else Idle end)
  | SetOwner => Some (mutex_set_owner m t, Held)
  | _ => None
  end.
Definition mutex_lock_killable (m : mutex) (t : nat) (p : pc) (e : env) : option (mutex * pc) :=
  match p with
  | LockFast Killable =>
      let '(c, ok) := __mutex_fastpath_lock (count m) in
      Some (set_count m c, if ok then SetOwner else InLock Killable SpinOwner)
  | InLock Killable a =>
      '(m, r) ← __mutex_lock_killable_slowpath m t a e;
      Some (m, match r with inl a => InLock Killable a | inr ret => if ret =? 0 then SetOwner else Idle end)
  | SetOwner => Some (mutex_set_owner m t, Held)
  | _ => None
  end.
Definition mutex_trylock (m : mutex) (t : nat) (p : pc) : option (mutex * pc) :=
  match p with
  | TryFast =>
      let '(c, ok) := __mutex_fastpath_trylock (count m) in Some (set_count m c, if ok then SetOwner else Idle)
  | SetOwner => Some (mutex_set_owner m t, Held)
  | _ => None
  end.
Definition mutex_unlock (m : mutex) (t : nat) (p : pc) : option (mutex * pc * option nat) :=
  match p with
  | UnlockClear => Some (mutex_clear_owner m, UnlockFast, None)
  | UnlockFast =>
      let '(c, ok) := __mutex_fastpath_unlock (count m) in Some (set_count m c, if ok then Idle else InUnlock USpin, None)
  | InUnlock a =>
      '(m, a, w) ← __mutex_unlock_slowpath m t a; Some (m, match a with Some a => InUnlock a | None => Idle end, w)
  | _ => None
  end.
(** The next step of a task, and whom it wakes. *)
Definition run_task (m : mutex) (t : nat) (p : pc) (e : env) : option (mutex * pc * option nat) :=
  let quiet r := '(m, p) ← r; Some (m, p, None) in
  match p with
  | Idle | Held => None
  | LockFast Plain | InLock Plain _ => quiet (mutex_lock m t p e)
  | LockFast Interruptible | InLock Interruptible _ => quiet (mutex_lock_interruptible m t p e)
  | LockFast Killable | InLock Killable _ => quiet (mutex_lock_killable m t p e)
  | TryFast | SetOwner => quiet (mutex_trylock m t p)
  | UnlockClear | UnlockFast | InUnlock _ => mutex_unlock m t p
  end.

Record sys := { mtx : mutex; tasks : gmap nat pc }.
Definition init : sys := {| mtx := __mutex_init; tasks := ∅ |}.
Definition at_ (s : sys) (t : nat) : pc := default Idle (tasks s !! t).
(** wake_up_process: a sleeping task becomes runnable. *)
Definition wake_up_process (ts : gmap nat pc) (t : nat) : gmap nat pc :=
  match ts !! t with
  | Some (InLock k (Asleep _)) => <[t := InLock k (Asleep true)]> ts
  | _ => ts
  end.
Definition PID_MAX : nat := Z.to_nat 32768.
(** The events: a task outside asks for the mutex, a holder releases it, a task
    runs a step, and a sleeping task is woken by a signal or for no reason. *)
Inductive action := ALock (k : lock_kind) | ATry | AUnlock | ARun (e : env) | AWake.
Definition move (s : sys) (t : nat) (p : pc) : sys := {| mtx := mtx s; tasks := <[t := p]> (tasks s) |}.
Definition act (s : sys) (t : nat) (a : action) : option sys :=
  match a with
  | ALock k => guard ((t < PID_MAX)%nat ∧ at_ s t = Idle);; Some (move s t (LockFast k))
  | ATry => guard ((t < PID_MAX)%nat ∧ at_ s t = Idle);; Some (move s t TryFast)
  | AUnlock => guard (at_ s t = Held);; Some (move s t UnlockClear)
  | ARun e =>
      '(m, p, w) ← run_task (mtx s) t (at_ s t) e;
      let ts := <[t := p]> (tasks s) in
      Some {| mtx := m; tasks := match w with Some h => wake_up_process ts h | None => ts end |}
  | AWake => Some {| mtx := mtx s; tasks := wake_up_process (tasks s) t |}
  end.
(** A schedule: who does what, in order. *)
Fixpoint play (s : sys) (l : list (nat * action)) : option sys :=
  match l with [] => Some s | (t, a) :: l => s ← act s t a; play s l end.
Definition reachable (s : sys) : Prop := ∃ l, play init l = Some s.

(** ** What a task's place means *)
Definition holding (p : pc) : bool :=
  match p with
  | SetOwner | Held | UnlockClear | UnlockFast | InUnlock USpin | InUnlock USet
  | InLock _ SpinSet | InLock _ SlowDone | InLock _ SlowCount | InLock _ SlowUnlock => true
  | _ => false
  end.
Definition locked (p : pc) : bool :=
  match p with
  | InLock _ SlowFirst | InLock _ SlowTry | InLock _ SlowFail | InLock _ SlowDone | InLock _ SlowCount | InLock _ SlowUnlock
  | InUnlock USet | InUnlock UWake | InUnlock UDone => true
  | _ => false
  end.
Definition queued (p : pc) : bool :=
  match p with
  | InLock _ SlowFirst | InLock _ SlowTry | InLock _ SlowFail | InLock _ (Asleep _) | InLock _ SlowDone => true
  | _ => false
  end.
(** The owner field may name the task, or has to. *)
Definition may_own (p : pc) : bool :=
  match p with
  | InLock _ SlowCount | InLock _ SlowUnlock | SetOwner | Held | UnlockClear => true
  | _ => false
  end.
Definition must_own (p : pc) : bool := match p with Held | UnlockClear => true | _ => false end.
(** Has decremented the count and not exchanged it yet. *)
Definition pending (p : pc) : bool :=
  match p with
  | InLock _ SpinOwner | InLock _ SpinWait | InLock _ (SpinTry _) | InLock _ SlowLock | InLock _ SlowFirst => true
  | _ => false
  end.
(** Will mark the mutex contended, or wake the first waiter. *)
Definition active (p : pc) : bool :=
  match p with
  | InLock _ SlowFirst | InLock _ SlowTry | InLock _ (Asleep true) | InUnlock USpin | InUnlock USet | InUnlock UWake => true
  | _ => false
  end.
Definition is_pending (kp : nat * pc) : Prop := pending kp.2 = true.
#[export] Instance is_pending_dec kp : Decision (is_pending kp).
Proof. unfold is_pending. tc_solve. Defined.
Definition npending (ts : gmap nat pc) : Z := Z.of_nat (size (filter is_pending ts)).

Record inv (s : sys) : Prop := {
  i_excl t u : holding (at_ s t) = true → holding (at_ s u) = true → t = u;
  i_free t : count (mtx s) = 1 → holding (at_ s t) = false;
  i_taken : count (mtx s) ≠ 1 → ∃ t, holding (at_ s t) = true;
  i_max : count (mtx s) ≤ 1;
  i_lock t : wait_lock (mtx s) = Some t ↔ locked (at_ s t) = true;
  i_list t : t ∈ wait_list (mtx s) ↔ queued (at_ s t) = true;
  i_nodup : NoDup (wait_list (mtx s));
  i_may t : owner (mtx s) = Some t → may_own (at_ s t) = true;
  i_must t : must_own (at_ s t) = true → owner (mtx s) = Some t;
  i_low : - 1 - npending (tasks s) ≤ count (mtx s);
  i_wake : wait_list (mtx s) ≠ [] → count (mtx s) < 0 ∨ ∃ t, active (at_ s t) = true;
  i_pids t : is_Some (tasks s !! t) → (t < PID_MAX)%nat }.

(** What one step of a task may do to the mutex. *)
Record core (t : nat) (m : mutex) (p : pc) (m' : mutex) (p' : pc) : Prop := {
  f_token : (holding p' = holding p ∧ (count m' = 1 ↔ count m = 1)) ∨
            (count m = 1 ∧ count m' ≠ 1 ∧ holding p' = true) ∨
            (holding p = true ∧ holding p' = false ∧ count m' = 1);
  f_max : count m' ≤ 1;
  f_lock : (wait_lock m' = wait_lock m ∧ locked p' = locked p) ∨
           (wait_lock m = None ∧ wait_lock m' = Some t ∧ locked p' = true) ∨
           (locked p = true ∧ locked p' = false ∧ wait_lock m' = None);
  f_list : (wait_list m' = wait_list m ∧ queued p' = queued p) ∨
           (wait_list m' = wait_list m ++ [t] ∧ queued p = false ∧ queued p' = true) ∨
           (wait_list m' = filter (λ x, x ≠ t) (wait_list m) ∧ queued p' = false);
  f_owner : (owner m' = owner m ∧ implb (may_own p) (may_own p') ∧ implb (must_own p') (must_own p)) ∨
            (owner m' = Some t ∧ may_own p' = true ∧ holding p = true) ∨
            (owner m' = None ∧ must_own p' = false ∧ holding p = true);
  f_low : -1 ≤ count m' ∨ (count m' = count m - 1 ∧ pending p = false ∧ pending p' = true) ∨
          (count m ≤ count m' ∧ implb (pending p) (pending p')) }.
Record effect (t : nat) (m : mutex) (p : pc) (m' : mutex) (p' : pc) : Prop := {
  f_core : core t m p m' p';
  f_wake : active p' = true ∨ count m' < 0 ∨ wait_list m' = [] ∨
           (active p = false ∧ (count m < 0 → count m' < 0) ∧ (wait_list m = [] → wait_list m' = [])) }.

Definition bz (b : bool) : Z := if b then 1 else 0.
Lemma npending_insert ts t p :
  npending (<[t := p]> ts) = npending ts - bz (pending (default Idle (ts !! t))) + bz (pending p).
Proof.
  unfold npending. assert (size (filter is_pending ts) = size (filter is_pending (delete t ts)) + Z.to_nat (bz (pending (default Idle (ts !! t)))))%nat as Hs.
  { rewrite map_filter_delete. destruct (ts !! t) as [q|] eqn:Ht; cbn.
    - destruct (pending q) eqn:Hq; cbn.
      + assert (filter is_pending ts !! t = Some q) as Hf by (by apply map_lookup_filter_Some).
        rewrite map_size_delete_Some by by eexists. assert (size (filter is_pending ts) ≠ 0%nat); [|lia].
        intros He%map_size_empty_inv. by rewrite He in Hf.
      + rewrite delete_id; [lia|]. apply map_lookup_filter_None. right. intros q' Hq'. simplify_eq. unfold is_pending. cbn. by rewrite Hq.
    - rewrite delete_id; [lia|]. apply map_lookup_filter_None. by left. }
  rewrite Hs. clear Hs. destruct (pending p) eqn:Hp; cbn [bz].
  - rewrite map_filter_insert_True, <-insert_delete_eq by done.
    rewrite map_filter_delete, map_size_insert_None by (apply lookup_delete_eq).
    destruct (pending (default Idle (ts !! t))); cbn; lia.
  - rewrite map_filter_insert_False by (unfold is_pending; cbn; by rewrite Hp).
    destruct (pending (default Idle (ts !! t))); cbn; lia.
Qed.

Lemma at_insert s m t p u : at_ {| mtx := m; tasks := <[t := p]> (tasks s) |} u = if decide (u = t) then p else at_ s u.
Proof.
  unfold at_. cbn. case_decide; [subst; by rewrite lookup_insert_eq|by rewrite lookup_insert_ne].
Qed.

Lemma core_token s t m p (s' := {| mtx := m; tasks := <[t := p]> (tasks s) |}) :
  inv s → core t (mtx s) (at_ s t) m p →
  (∀ u v, holding (at_ s' u) = true → holding (at_ s' v) = true → u = v) ∧
  (∀ u, count m = 1 → holding (at_ s' u) = false) ∧ (count m ≠ 1 → ∃ u, holding (at_ s' u) = true).
Proof.
  intros [Hexcl Hfree Htaken _ _ _ _ _ _ _ _ _] [ftoken _ _ _ _ _]. subst s'. split_and!.
  - intros u v. rewrite !at_insert. repeat case_decide; subst; intros Hu Hv; try done.
    + destruct ftoken as [[E _]|[(Hc & _)|(_ & E & _)]]; [|by rewrite Hfree in Hv|congruence].
      apply Hexcl; [by rewrite <-E|done].
    + destruct ftoken as [[E _]|[(Hc & _)|(_ & E & _)]]; [|by rewrite Hfree in Hu|congruence].
      apply Hexcl; [done|by rewrite <-E].
    + by apply Hexcl.
  - intros u Hc. rewrite at_insert. destruct ftoken as [[E Hi]|[(_ & ? & _)|(Hp & E & _)]]; [|done|].
    + case_decide; [rewrite E|]; apply Hfree; by apply Hi.
    + case_decide; [done|]. destruct (holding (at_ s u)) eqn:Hu; [|done]. by specialize (Hexcl u t Hu Hp).
  - intros Hc. destruct ftoken as [[E Hi]|[(_ & _ & E)|(_ & _ & ?)]]; [| |done].
    + destruct Htaken as [u Hu]; [by intros Hc'%Hi|]. exists u. rewrite at_insert. case_decide; [subst; congruence|done].
    + exists t. by rewrite at_insert, decide_True.
Qed.
Lemma core_owner s t m p (s' := {| mtx := m; tasks := <[t := p]> (tasks s) |}) :
  inv s → core t (mtx s) (at_ s t) m p →
  (∀ u, owner m = Some u → may_own (at_ s' u) = true) ∧ (∀ u, must_own (at_ s' u) = true → owner m = Some u).
Proof.
  intros [Hexcl _ _ _ _ _ _ Hmay Hmust _ _ _] [_ _ _ _ fowner _]. subst s'. split.
  - intros u. rewrite at_insert. destruct fowner as [(-> & Hm & _)|[(-> & Hm & _)|(-> & _)]]; [| |done].
    + intros Hu%Hmay. case_decide; [subst|done]. by rewrite Hu in Hm; destruct (may_own p).
    + intros [= ->]. by rewrite decide_True.
  - intros u. rewrite at_insert. destruct fowner as [(-> & _ & Hm)|[(-> & _ & Hp)|(-> & Hm & Hp)]]; case_decide as Hu; try subst u.
    + intros E. apply Hmust. by rewrite E in Hm; destruct (must_own (at_ s t)).
    + apply Hmust.
    + done.
    + intros E. assert (holding (at_ s u) = true) as Hh by (by destruct (at_ s u)). by specialize (Hexcl u t Hh Hp).
    + congruence.
    + intros E. assert (holding (at_ s u) = true) as Hh by (by destruct (at_ s u)). by specialize (Hexcl u t Hh Hp).
Qed.
Lemma core_inv s t m p (s' := {| mtx := m; tasks := <[t := p]> (tasks s) |}) :
  inv s → (t < PID_MAX)%nat → core t (mtx s) (at_ s t) m p →
  (wait_list m ≠ [] → count m < 0 ∨ ∃ u, active (at_ s' u) = true) → inv s'.
Proof.
  intros Hi Ht Hf Hwk. destruct (core_token s t m p Hi Hf) as (? & ? & ?). destruct (core_owner s t m p Hi Hf) as [? ?]. subst s'.
  destruct Hi as [_ _ _ Hmax Hlock Hlist Hnd _ _ Hlow Hwake Hpids], Hf as [_ fmax flock flist _ flow].
  split; cbn [mtx tasks]; try assumption.
  - intros u. rewrite at_insert. case_decide as Hu; [subst u|].
    + destruct flock as [[-> ->]|[(_ & -> & ->)|(_ & -> & ->)]]; [apply Hlock|done|split; [done|]]. done.
    + destruct flock as [[-> _]|[(Hn & -> & _)|(Hp & _ & ->)]]; [apply Hlock| |].
      * rewrite <-Hlock, Hn. naive_solver.
      * rewrite <-Hlock. apply Hlock in Hp. rewrite Hp. naive_solver.
  - intros u. rewrite at_insert. case_decide as Hu; [subst u|].
    + destruct flist as [[-> ->]|[(-> & _ & ->)|(-> & ->)]]; [apply Hlist|set_solver|].
      rewrite list_elem_of_filter. naive_solver.
    + rewrite <-Hlist. destruct flist as [[-> _]|[(-> & _)|(-> & _)]]; [done|set_solver|].
      rewrite list_elem_of_filter. naive_solver.
  - destruct flist as [[-> _]|[(-> & Hq & _)|(-> & _)]]; [done| |by apply NoDup_filter].
    apply NoDup_app. split_and!; [done| |apply NoDup_singleton]. intros x Hx%Hlist ->%list_elem_of_singleton. congruence.
  - rewrite npending_insert. fold (at_ s t). assert (0 ≤ npending (<[t:=p]> (tasks s))) as Hn by (unfold npending; lia).
    rewrite npending_insert in Hn. fold (at_ s t) in Hn.
    destruct flow as [?|[(? & Hp & Hp')|(? & Hi)]]; [lia|rewrite Hp, Hp' in *; cbn in *; lia|].
    destruct (pending (at_ s t)), (pending p); cbn in *; (lia || done).
  - intros u. destruct (decide (u = t)) as [->|]; [done|]. rewrite lookup_insert_ne by done. apply Hpids.
Qed.
Lemma effect_inv s t m p :
  inv s → (t < PID_MAX)%nat → effect t (mtx s) (at_ s t) m p →
  inv {| mtx := m; tasks := <[t := p]> (tasks s) |}.
Proof.
  intros Hi Ht [Hf fwake]. apply core_inv; [done..|]. intros Hne.
  destruct fwake as [Ha|[?|[?|(Ha & Hc & Hl)]]]; [|by left|done|].
  - right. exists t. by rewrite at_insert, decide_True.
  - destruct (i_wake s Hi) as [?|[u Hu]]; [naive_solver|by left; apply Hc|]. right. exists u. rewrite at_insert, decide_False; [done|congruence].
Qed.

(** A step with a known effect. *)
Ltac effect_solve :=
  repeat match goal with
  | H : (_ =? _) = true |- _ => apply Z.eqb_eq in H
  | H : (_ =? _) = false |- _ => apply Z.eqb_neq in H
  end;
  repeat match goal with |- effect _ _ _ _ _ => split | |- core _ _ _ _ _ => split end; cbn;
    intuition (congruence || lia || match goal with H : wait_list _ = [] |- _ => by rewrite H end).

Lemma pending_bound s : inv s → npending (tasks s) ≤ 32768.
Proof.
  intros Hi. unfold npending. rewrite <-size_dom. assert (dom (filter is_pending (tasks s)) ⊆ list_to_set (seq 0 PID_MAX)) as Hsub.
  { intros t [p [Hp _]%map_lookup_filter_Some]%elem_of_dom. apply elem_of_list_to_set, elem_of_seq.
    split; [lia|]. apply (i_pids s Hi). by eexists. }
  apply subseteq_size in Hsub. rewrite (size_list_to_set (seq 0 PID_MAX)), length_seq in Hsub by apply NoDup_seq.
  unfold PID_MAX in Hsub. lia.
Qed.

Lemma lock_effect m t k a e m' r state :
  count m ≤ 1 → (holding (InLock k a) = true → count m ≤ 0) →
  __mutex_lock_common m t state a e = Some (m', r) →
  match r with
  | inl a' => effect t m (InLock k a) m' (InLock k a')
  | inr r => if r =? 0 then effect t m (InLock k a) m' SetOwner
             else signal_pending_state state (e_signal e) = true ∧ effect t m (InLock k a) m' Idle
  end.
Proof.
  intros Hmax Hh. destruct a; cbn [__mutex_lock_common holding] in *; unfold spin_lock_mutex; intros E;
    repeat case_match; simplify_eq/=; try specialize (Hh eq_refl);
    effect_solve || (split; [done|effect_solve]).
Qed.

Lemma signal_plain sig : signal_pending_state TASK_UNINTERRUPTIBLE sig = false.
Proof. by destruct sig. Qed.

(** The facts a step needs of the state. *)
Lemma run_effect m t p e m' p' :
  - 2 ^ 31 < count m ≤ 1 → (holding p = true → count m ≤ 0) →
  run_task m t p e = Some (m', p', None) → p ≠ InUnlock UWake → effect t m p m' p'.
Proof.
  intros Hb Hh E Hp. assert (count m ≤ 1) as Hmax by lia.
  destruct p as [|k|k a| | | | | |a]; [done| | | | |done| | |]; cbn [run_task holding] in *.
  - assert (effect t m (LockFast k) (set_count m (s32 (count m - 1))) (if negb (s32 (count m - 1) <? 0) then SetOwner else InLock k SpinOwner)) as Hf.
    { rewrite s32_small by lia. destruct (Z.ltb_spec (count m - 1) 0); cbn [negb]; effect_solve. }
    by destruct k; cbn in E; simplify_eq.
  - destruct (lock_slowpath k m t a e) as [[m1 r]|] eqn:El; [|by destruct k; cbn in El, E; rewrite El in E].
    assert (∃ state, __mutex_lock_common m t state a e = Some (m1, r) ∧ (k = Plain → state = TASK_UNINTERRUPTIBLE)) as (state & Ec & Hk).
    { destruct k; eexists; (split; [exact El|done]). }
    apply (lock_effect _ _ k) in Ec; [|lia|done]. destruct r as [a'|r].
    + by destruct k; cbn in El, E; rewrite El in E; simplify_eq/=.
    + destruct (r =? 0) eqn:Er; [|destruct Ec as [Hs Ec]]; destruct k; cbn in El, E; rewrite El in E; cbn in E; rewrite ?Er in E; simplify_eq/=; try done.
      by rewrite (Hk eq_refl), signal_plain in Hs.
  - cbn in E. unfold __mutex_fastpath_trylock in E. destruct (Z.eqb_spec (count m) 1); simplify_eq/=; effect_solve.
  - cbn in E. simplify_eq. specialize (Hh eq_refl). effect_solve.
  - cbn in E. simplify_eq. effect_solve.
  - cbn in E. unfold atomic_inc_return in E. specialize (Hh eq_refl). rewrite s32_small in E by lia.
    destruct (Z.leb_spec (count m + 1) 0); cbn [negb] in E; simplify_eq; effect_solve.
  - destruct a; cbn in E; unfold spin_lock_mutex in E; [| |done|]; repeat case_match; simplify_eq/=; effect_solve.
Qed.

Lemma run_quiet m t p e m' p' w :
  run_task m t p e = Some (m', p', w) → p ≠ InUnlock UWake → w = None.
Proof.
  assert (∀ r : option (mutex * pc), (('(m, p) ← r; Some (m, p, None)) : option (mutex * pc * option nat)) = Some (m', p', w) → w = None) as Hq.
  { intros [[]|] E; by simplify_eq/=. }
  destruct p as [|[]|[] a| | | | | |a]; cbn [run_task]; try done; try (by intros ?%Hq).
  - cbn. by intros [= _ _ <-].
  - cbn. by intros [= _ _ <-].
  - destruct a; cbn; unfold spin_lock_mutex; [|by intros [= _ _ <-]|done|by intros [= _ _ <-]].
    destruct (wait_lock m); cbn; [done|]. by intros [= _ _ <-].
Qed.

Lemma wake_inv s t : inv s → inv {| mtx := mtx s; tasks := wake_up_process (tasks s) t |}.
Proof.
  intros Hi. unfold wake_up_process. destruct (tasks s !! t) as [p|] eqn:Ht; [|by destruct s].
  destruct p as [| |k []| | | | | |]; try (by destruct s).
  apply effect_inv; [done|apply (i_pids s Hi); by eexists|]. assert (at_ s t = InLock k (Asleep woken)) as -> by (unfold at_; by rewrite Ht).
  pose proof (i_max s Hi). effect_solve.
Qed.

(** The wake-up of an unlock: the first waiter sleeps, since it does not hold
    the spin lock. *)
Lemma uwake_inv s t :
  inv s → at_ s t = InUnlock UWake → (t < PID_MAX)%nat →
  inv {| mtx := mtx s;
         tasks := let ts := <[t := InUnlock UDone]> (tasks s) in
                  match head (wait_list (mtx s)) with Some h => wake_up_process ts h | None => ts end |}.
Proof.
  intros Hi Hat Ht. assert (core t (mtx s) (at_ s t) (mtx s) (InUnlock UDone)) as Hf.
  { rewrite Hat. pose proof (i_max s Hi). effect_solve. }
  destruct (wait_list (mtx s)) as [|h l] eqn:Hl; cbn [head].
  { apply core_inv; [done..|]. by rewrite Hl. }
  assert (queued (at_ s h) = true) as Hq by (apply (i_list s Hi); rewrite Hl; set_solver).
  assert (wait_lock (mtx s) = Some t) as Hlk by (apply (i_lock s Hi); by rewrite Hat).
  assert (h ≠ t) as Hne by (intros ->; by rewrite Hat in Hq).
  assert (locked (at_ s h) = false) as Hnl.
  { destruct (locked (at_ s h)) eqn:E; [|done]. apply (i_lock s Hi) in E. congruence. }
  assert (∃ k b, tasks s !! h = Some (InLock k (Asleep b))) as (k & b & Hh).
  { unfold at_ in Hq, Hnl. destruct (tasks s !! h) as [[| |k []| | | | | |]|]; cbn in Hq, Hnl; try done. eauto. }
  unfold wake_up_process. rewrite lookup_insert_ne, Hh, insert_insert_ne by done.
  pose proof (wake_inv s h Hi) as Hi'. unfold wake_up_process in Hi'. rewrite Hh in Hi'.
  set (s1 := {| mtx := mtx s; tasks := <[h := InLock k (Asleep true)]> (tasks s) |}) in *.
  apply (core_inv s1 t (mtx s) (InUnlock UDone)); [done|done| |].
  - unfold s1. by rewrite at_insert, decide_False.
  - intros _. right. exists h. unfold s1. by rewrite !at_insert, decide_False, decide_True.
Qed.

Lemma count_low s : inv s → - 2 ^ 31 < count (mtx s).
Proof. intros Hi. pose proof (i_low s Hi). pose proof (pending_bound s Hi). lia. Qed.
Lemma act_inv s t a s' : inv s → act s t a = Some s' → inv s'.
Proof.
  intros Hi Hact. pose proof (i_max s Hi) as Hmax. pose proof (count_low s Hi).
  assert (at_ s t ≠ Idle → (t < PID_MAX)%nat) as Hpid.
  { intros Hne. apply (i_pids s Hi). unfold at_ in Hne. by destruct (tasks s !! t); [eexists|]. }
  destruct a as [k| | |e|]; cbn [act] in Hact.
  - case_guard as Hg; simplify_eq/=. destruct Hg as [Ht Hat]. apply effect_inv; [done|done|]. rewrite Hat. effect_solve.
  - case_guard as Hg; simplify_eq/=. destruct Hg as [Ht Hat]. apply effect_inv; [done|done|]. rewrite Hat. effect_solve.
  - case_guard as Hat; simplify_eq/=. apply effect_inv; [done|apply Hpid; by rewrite Hat|]. rewrite Hat. effect_solve.
  - destruct (run_task _ _ _ _) as [[[m p] w]|] eqn:Hr; simplify_eq/=.
    assert (t < PID_MAX)%nat as Ht by (apply Hpid; intros E; by rewrite E in Hr).
    destruct (decide (at_ s t = InUnlock UWake)) as [Hw|Hw].
    + rewrite Hw in Hr. cbn in Hr. simplify_eq. by apply uwake_inv.
    + assert (w = None) as -> by (eapply run_quiet; eauto).
      apply effect_inv; [done|done|]. apply run_effect in Hr; [done|lia| |done].
      intros Hh. destruct (decide (count (mtx s) = 1)) as [H1|]; [|lia]. by rewrite (i_free s Hi t H1) in Hh.
  - simplify_eq. by apply wake_inv.
Qed.
Lemma play_inv l : ∀ s s', inv s → play s l = Some s' → inv s'.
Proof.
  induction l as [|[t a] l IH]; intros s s' Hi; cbn [play]; [by intros [= ->]|].
  destruct (act s t a) as [s1|] eqn:E; [|done]. apply IH. by eapply act_inv.
Qed.
Lemma mutex_init_inv : inv init.
Proof.
  split; cbn; unfold at_; cbn; try (intros; by rewrite ?lookup_empty); try (intros ?; rewrite lookup_empty; cbn; set_solver); try done; try constructor.
Qed.
Lemma reachable_inv s : reachable s → inv s.
Proof. intros [l Hl]. exact (play_inv l init s mutex_init_inv Hl). Qed.

(** C16: whatever the tasks do and however their steps interleave, at most one
    task is between the step that gave it the mutex and the step that gives it
    up; the count is 1 exactly when there is none, and never runs out of its 32
    bits; the owner field names a task that holds the mutex, and from the return
    of the lock function to the call of [mutex_unlock] it names the holder; at
    most one task is inside the spin lock. *)
Theorem mutex_exclusion s :
  reachable s →
  (∀ t u, holding (at_ s t) = true → holding (at_ s u) = true → t = u) ∧
  (count (mtx s) = 1 ↔ ∀ t, holding (at_ s t) = false) ∧
  - 32769 ≤ count (mtx s) ≤ 1 ∧
  (∀ t, owner (mtx s) = Some t → holding (at_ s t) = true) ∧
  (∀ t, at_ s t = Held → owner (mtx s) = Some t) ∧
  (∀ t u, locked (at_ s t) = true → locked (at_ s u) = true → t = u).
Proof.
  intros Hi%reachable_inv. split_and!.
  - apply (i_excl s Hi).
  - split; [intros H1 t; by apply (i_free s Hi)|]. intros Hn. destruct (decide (count (mtx s) = 1)) as [|H1]; [done|].
    destruct (i_taken s Hi H1) as [t Ht]. by rewrite Hn in Ht.
  - pose proof (i_low s Hi). pose proof (pending_bound s Hi). lia.
  - apply (i_max s Hi).
  - intros t Ht%(i_may s Hi). by destruct (at_ s t) as [| |? []| | | | | |].
  - intros t Ht. apply (i_must s Hi). by rewrite Ht.
  - intros t u Ht%(i_lock s Hi) Hu%(i_lock s Hi). congruence.
Qed.

(** ** Progress *)
Definition runnable (s : sys) (t : nat) : Prop := ∃ e r, run_task (mtx s) t (at_ s t) e = Some r.
Definition moving (p : pc) : bool :=
  match p with Idle | Held | InLock _ (Asleep false) => false | _ => true end.

Lemma moving_runs s t :
  moving (at_ s t) = true → locked (at_ s t) = true ∨ wait_lock (mtx s) = None → runnable s t.
Proof.
  intros Hm Hl. exists {| e_signal := Semaphore.NoSignal; e_resched := true; e_spin := true |}.
  unfold runnable, run_task. destruct (at_ s t) as [|[]|k a| | | | | |a]; try done; cbn; try (by eexists).
  - assert (is_Some (lock_slowpath k (mtx s) t a {| e_signal := Semaphore.NoSignal; e_resched := true; e_spin := true |})) as [[m r] Hr].
    { destruct k, a as [| |[]| | | | | |[]| | |]; cbn in *; unfold spin_lock_mutex; destruct Hl as [Hl|Hl]; try done; rewrite ?Hl; repeat case_match; by eexists. }
    destruct k; cbn in Hr; rewrite Hr; by eexists.
  - destruct (__mutex_fastpath_trylock _). by eexists.
  - destruct a; cbn in *; unfold spin_lock_mutex; destruct Hl as [Hl|Hl]; try done; rewrite ?Hl; by eexists.
Qed.

Lemma moving_progress s t : inv s → moving (at_ s t) = true → ∃ u, runnable s u.
Proof.
  intros Hi Hm. destruct (wait_lock (mtx s)) as [u|] eqn:Hl.
  - exists u. apply (i_lock s Hi) in Hl. apply moving_runs; [|by left].
    by destruct (at_ s u) as [| |? []| | | | | |].
  - exists t. apply moving_runs; [done|by right].
Qed.

(** C17: no wake-up is lost and nothing deadlocks: while a task is inside the
    mutex code, somebody holds the mutex or some task can run; and when a task
    sleeps although the mutex is free, one of the waiters is awake and on its
    way to try again, or the task that released it is about to wake the first. *)
Theorem mutex_no_lost_wakeup s t :
  reachable s → at_ s t ≠ Idle →
  ((∃ u, at_ s u = Held) ∨ ∃ u, runnable s u) ∧
  (t ∈ wait_list (mtx s) → count (mtx s) = 1 →
   ∃ u, at_ s u = InUnlock UWake ∨
        u ∈ wait_list (mtx s) ∧ ∃ k a, at_ s u = InLock k a ∧ a ∈ [SlowFirst; SlowTry; Asleep true]).
Proof.
  intros Hi%reachable_inv Ht.
  assert (t ∈ wait_list (mtx s) → count (mtx s) < 0 ∨ ∃ u, active (at_ s u) = true) as Hwk.
  { intros Hq. apply (i_wake s Hi). intros E. rewrite E in Hq. by apply not_elem_of_nil in Hq. }
  split.
  - destruct (moving (at_ s t)) eqn:Hm; [right; by apply (moving_progress s t)|].
    destruct (decide (at_ s t = Held)) as [|Hnh]; [left; by exists t|].
    destruct Hwk as [Hc|[u Hu]].
    + apply (i_list s Hi). by destruct (at_ s t) as [| |? []| | | | | |].
    + destruct (i_taken s Hi ltac:(lia)) as [u Hu]. destruct (decide (at_ s u = Held)) as [|Hnu]; [left; by exists u|].
      right. apply (moving_progress s u Hi). by destruct (at_ s u) as [| |? []| | | | | |].
    + right. apply (moving_progress s u Hi). by destruct (at_ s u) as [| |? [| | | | | | | |[]| | |]| | | | | |].
  - intros Hq H1. destruct (Hwk Hq) as [?|[u Hu]]; [lia|]. exists u. pose proof (i_free s Hi u H1) as Hf.
    pose proof (proj2 (i_list s Hi u)) as Hlu.
    destruct (at_ s u) as [| |k a| | | | | |[]] eqn:Hat; try done; [|by left].
    right. destruct a as [| | | | | | | |[]| | |]; try done.
    all: split; [by apply Hlu|by eexists _, _; split; [done|set_solver]].
Qed.

(** Task 1 takes the mutex; task 2 spins, queues and sleeps; task 1 releases it
    and has not woken task 2 yet. *)
Definition calm : action := ARun {| e_signal := Semaphore.NoSignal; e_resched := true; e_spin := false |}.
Definition contended : list (nat * action) :=
  [(1%nat, ALock Plain); (1%nat, calm); (1%nat, calm); (2%nat, ALock Interruptible)] ++ replicate 7 (2%nat, calm).
Definition released : list (nat * action) := contended ++ (1%nat, AUnlock) :: replicate 4 (1%nat, calm).

Lemma mutex_exclusion_witness :
  ∃ s, play init contended = Some s ∧ at_ s 1 = Held ∧ at_ s 2 = InLock Interruptible (Asleep false) ∧ count (mtx s) = -1 ∧
       owner (mtx s) = Some 1%nat ∧ ∀ t u, holding (at_ s t) = true → holding (at_ s u) = true → t = u.
Proof.
  destruct (play init contended) as [s|] eqn:E; [|vm_compute in E; discriminate E].
  exists s. split; [reflexivity|]. pose proof (mutex_exclusion s (ex_intro _ contended E)) as (Hx & _).
  vm_compute in E. injection E as <-. do 4 (split; [reflexivity|]). exact Hx.
Defined.
Lemma mutex_no_lost_wakeup_witness :
  ∃ s, play init released = Some s ∧ count (mtx s) = 1 ∧ at_ s 2 = InLock Interruptible (Asleep false) ∧
    ∃ u, at_ s u = InUnlock UWake ∨
         u ∈ wait_list (mtx s) ∧ ∃ k a, at_ s u = InLock k a ∧ a ∈ [SlowFirst; SlowTry; Asleep true].
Proof.
  destruct (play init released) as [s|] eqn:E; [|vm_compute in E; discriminate E].
  exists s. split; [reflexivity|]. pose proof (mutex_no_lost_wakeup s 2 (ex_intro _ released E)) as Hw.
  vm_compute in E. injection E as <-. split; [reflexivity|]. split; [reflexivity|].
  apply Hw; [discriminate|by apply list_elem_of_singleton|reflexivity].
Defined.

End Mutex.
