(* ===== verification/Rbtree.v ===== *)
(** * Rbtree: the kernel's red-black trees

    lib/rbtree.c and include/linux/rbtree.h. The nodes are in a memory of their
    own, with the parent pointer and the colour in one word, as in the source;
    a pointer to no node makes a function fail. The proofs use a small
    separation logic: [sat] says which cells the memory has, [wp] that a
    function returns and what then holds. *)

From S2P Require Import Prelude.

Module Rbtree.

(** ** The code *)
Definition RB_RED : Z := 0.
Definition RB_BLACK : Z := 1.
Record rb_node := { rb_parent_color : Z; rb_right : Z; rb_left : Z }.
(** The nodes in memory, and the root's pointer. *)
Record state := { mem : gmap Z rb_node; top : Z }.

Definition rb_parent (r : rb_node) : Z := rb_parent_color r .& ~32 3.
Definition rb_color (r : rb_node) : Z := rb_parent_color r .& 1.
Definition rb_is_red (r : rb_node) : bool := negb (truthy (rb_color r)).
Definition rb_is_black (r : rb_node) : bool := truthy (rb_color r).

Definition get (s : state) (p : Z) : option rb_node := mem s !! p.
Definition upd (s : state) (p : Z) (f : rb_node → rb_node) : option state :=
  r ← mem s !! p; Some {| mem := <[p := f r]> (mem s); top := top s |}.
Definition set_top (s : state) (p : Z) : state := {| mem := mem s; top := p |}.
Definition with_color (r : rb_node) (w : Z) : rb_node :=
  {| rb_parent_color := w; rb_right := rb_right r; rb_left := rb_left r |}.
Definition set_right (s : state) (p q : Z) : option state :=
  upd s p (λ r, {| rb_parent_color := rb_parent_color r; rb_right := q; rb_left := rb_left r |}).
Definition set_left (s : state) (p q : Z) : option state :=
  upd s p (λ r, {| rb_parent_color := rb_parent_color r; rb_right := rb_right r; rb_left := q |}).
Definition rb_set_red (s : state) (p : Z) : option state :=
  upd s p (λ r, with_color r (rb_parent_color r .& ~32 1)).
Definition rb_set_black (s : state) (p : Z) : option state :=
  upd s p (λ r, with_color r (rb_parent_color r .| 1)).
Definition rb_set_parent (s : state) (p q : Z) : option state :=
  upd s p (λ r, with_color r ((rb_parent_color r .& 3) .| q)).
Definition rb_set_color (s : state) (p color : Z) : option state :=
  upd s p (λ r, with_color r ((rb_parent_color r .& ~32 1) .| color)).
Definition RB_EMPTY_ROOT (s : state) : bool := top s =? 0.
Definition RB_EMPTY_NODE (s : state) (p : Z) : option bool := r ← get s p; Some (rb_parent r =? p).
Definition RB_CLEAR_NODE (s : state) (p : Z) : option state := rb_set_parent s p p.
Definition rb_init_node (s : state) (p : Z) : option state :=
  s ← upd s p (λ _, {| rb_parent_color := 0; rb_right := 0; rb_left := 0 |}); RB_CLEAR_NODE s p.

(** A child pointer: the root's, or one of a node. *)
Inductive link := LRoot | LLeft (p : Z) | LRight (p : Z).
Definition set_link (s : state) (l : link) (p : Z) : option state :=
  match l with LRoot => Some (set_top s p) | LLeft q => set_left s q p | LRight q => set_right s q p end.
Definition rb_link_node (s : state) (node parent : Z) (rb_link : link) : option state :=
  s ← upd s node (λ _, {| rb_parent_color := parent; rb_right := 0; rb_left := 0 |});
  set_link s rb_link node.

(** [if (q) rb_set_parent(q, p)] *)
Definition adopt (s : state) (q p : Z) : option state := if truthy q then rb_set_parent s q p else Some s.
(** The pointer to [node] in its parent, or in the root, becomes [new]; the code
    looks at the left or at the right child first. *)
Definition relink_left (s : state) (parent node new : Z) : option state :=
  if truthy parent
  then p ← get s parent; if node =? rb_left p then set_left s parent new else set_right s parent new
  else Some (set_top s new).
Definition relink_right (s : state) (parent node new : Z) : option state :=
  if truthy parent
  then p ← get s parent; if node =? rb_right p then set_right s parent new else set_left s parent new
  else Some (set_top s new).

Definition __rb_rotate_left (s : state) (node : Z) : option state :=
  n ← get s node; let right := rb_right n in let parent := rb_parent n in
  r ← get s right;
  s ← set_right s node (rb_left r);
  s ← adopt s (rb_left r) node;
  s ← set_left s right node;
  s ← rb_set_parent s right parent;
  s ← relink_left s parent node right;
  rb_set_parent s node right.
Definition __rb_rotate_right (s : state) (node : Z) : option state :=
  n ← get s node; let left := rb_left n in let parent := rb_parent n in
  l ← get s left;
  s ← set_left s node (rb_right l);
  s ← adopt s (rb_right l) node;
  s ← set_right s left node;
  s ← rb_set_parent s left parent;
  s ← relink_right s parent node left;
  rb_set_parent s node left.

(** [p && rb_is_red(p)] and [!p || rb_is_black(p)] *)
Definition red_node (s : state) (p : Z) : option bool :=
  if truthy p then r ← get s p; Some (rb_is_red r) else Some false.
Definition black_or_null (s : state) (p : Z) : option bool :=
  if truthy p then r ← get s p; Some (rb_is_black r) else Some true.

(** Loops: a round ends with [inl] to go on, [inr] to leave. *)
Fixpoint iter {A B} (fuel : nat) (body : A → option (A + B)) (a : A) : option B :=
  match fuel with
  | O => None
  | S fuel => r ← body a; match r with inl a => iter fuel body a | inr b => Some b end
  end.
(** Each loop walks along a path of the tree. *)
Definition fuel (s : state) : nat := S (S (size (mem s))).

(** One round of [rb_insert_color]. *)
Definition insert_round (x : state * Z) : option (state * Z + state) :=
  let '(s, node) := x in
  n ← get s node; let parent := rb_parent n in
  if parent =? 0 then Some (inr s) else
  p ← get s parent;
  if negb (rb_is_red p) then Some (inr s) else
  let gparent := rb_parent p in
  g ← get s gparent;
  if parent =? rb_left g then
    let uncle := rb_right g in
    red ← red_node s uncle;
    if red : bool then
      s ← rb_set_black s uncle; s ← rb_set_black s parent; s ← rb_set_red s gparent;
      Some (inl (s, gparent))
    else
      '(s, parent, node) ← (if rb_right p =? node then s ← __rb_rotate_left s parent; Some (s, node, parent)
                            else Some (s, parent, node));
      s ← rb_set_black s parent; s ← rb_set_red s gparent; s ← __rb_rotate_right s gparent;
      Some (inl (s, node))
  else
    let uncle := rb_left g in
    red ← red_node s uncle;
    if red : bool then
      s ← rb_set_black s uncle; s ← rb_set_black s parent; s ← rb_set_red s gparent;
      Some (inl (s, gparent))
    else
      '(s, parent, node) ← (if rb_left p =? node then s ← __rb_rotate_right s parent; Some (s, node, parent)
                            else Some (s, parent, node));
      s ← rb_set_black s parent; s ← rb_set_red s gparent; s ← __rb_rotate_left s gparent;
      Some (inl (s, node)).
Definition rb_insert_color (s : state) (node : Z) : option state :=
  s ← iter (fuel s) insert_round (s, node);
  rb_set_black s (top s).

(** One round of [__rb_erase_color]; it leaves with the node to make black. *)
Definition erase_round (x : state * Z * Z) : option (state * Z * Z + state * Z) :=
  let '(s, node, parent) := x in
  black ← black_or_null s node;
  if negb (black && negb (node =? top s)) then Some (inr (s, node)) else
  p ← get s parent;
  if rb_left p =? node then
    let other := rb_right p in
    o ← get s other;
    '(s, other) ← (if rb_is_red o then
                     s ← rb_set_black s other; s ← rb_set_red s parent; s ← __rb_rotate_left s parent;
                     p ← get s parent; Some (s, rb_right p)
                   else Some (s, other));
    o ← get s other;
    bl ← black_or_null s (rb_left o); br ← black_or_null s (rb_right o);
    if (bl && br) : bool then
      s ← rb_set_red s other; p ← get s parent; Some (inl (s, parent, rb_parent p))
    else
      '(s, other) ← (if br : bool then
                       s ← rb_set_black s (rb_left o); s ← rb_set_red s other; s ← __rb_rotate_right s other;
                       p ← get s parent; Some (s, rb_right p)
                     else Some (s, other));
      p ← get s parent; s ← rb_set_color s other (rb_color p); s ← rb_set_black s parent;
      o ← get s other; s ← rb_set_black s (rb_right o); s ← __rb_rotate_left s parent;
      Some (inr (s, top s))
  else
    let other := rb_left p in
    o ← get s other;
    '(s, other) ← (if rb_is_red o then
                     s ← rb_set_black s other; s ← rb_set_red s parent; s ← __rb_rotate_right s parent;
                     p ← get s parent; Some (s, rb_left p)
                   else Some (s, other));
    o ← get s other;
    bl ← black_or_null s (rb_left o); br ← black_or_null s (rb_right o);
    if (bl && br) : bool then
      s ← rb_set_red s other; p ← get s parent; Some (inl (s, parent, rb_parent p))
    else
      '(s, other) ← (if bl : bool then
                       s ← rb_set_black s (rb_right o); s ← rb_set_red s other; s ← __rb_rotate_left s other;
                       p ← get s parent; Some (s, rb_left p)
                     else Some (s, other));
      p ← get s parent; s ← rb_set_color s other (rb_color p); s ← rb_set_black s parent;
      o ← get s other; s ← rb_set_black s (rb_left o); s ← __rb_rotate_right s parent;
      Some (inr (s, top s)).
Definition __rb_erase_color (s : state) (node parent : Z) : option state :=
  '(s, node) ← iter (fuel s) erase_round (s, node, parent);
  if truthy node then rb_set_black s node else Some s.

(** [while (n->rb_left) n = n->rb_left], and to the right. *)
Definition leftmost (s : state) (p : Z) : option Z :=
  iter (fuel s) (λ n, r ← get s n; Some (if truthy (rb_left r) then inl (rb_left r) else inr n)) p.
Definition rightmost (s : state) (p : Z) : option Z :=
  iter (fuel s) (λ n, r ← get s n; Some (if truthy (rb_right r) then inl (rb_right r) else inr n)) p.

(** The two-child case of [rb_erase]: the successor takes the place of [old]. *)
Definition erase_swap (s : state) (old : Z) : option (state * Z * Z * Z) :=
  o ← get s old;
  node ← leftmost s (rb_right o);
  s ← relink_left s (rb_parent o) old node;
  n ← get s node; let child := rb_right n in let parent := rb_parent n in let color := rb_color n in
  '(s, parent) ← (if parent =? old then Some (s, node)
                  else s ← adopt s child parent; s ← set_left s parent child;
                       o ← get s old; s ← set_right s node (rb_right o); s ← rb_set_parent s (rb_right o) node;
                       Some (s, parent));
  o ← get s old;
  s ← upd s node (λ r, with_color r (rb_parent_color o));
  s ← set_left s node (rb_left o);
  s ← rb_set_parent s (rb_left o) node;
  Some (s, child, parent, color).
Definition erase_single (s : state) (node child : Z) : option (state * Z * Z * Z) :=
  n ← get s node; let parent := rb_parent n in let color := rb_color n in
  s ← adopt s child parent;
  s ← relink_left s parent node child;
  Some (s, child, parent, color).
Definition rb_erase (s : state) (node : Z) : option state :=
  n ← get s node;
  '(s, child, parent, color) ←
    (if negb (truthy (rb_left n)) then erase_single s node (rb_right n)
     else if negb (truthy (rb_right n)) then erase_single s node (rb_left n)
     else erase_swap s node);
  if color =? RB_BLACK then __rb_erase_color s child parent else Some s.

Definition rb_first (s : state) : option Z := if truthy (top s) then leftmost s (top s) else Some 0.
Definition rb_last (s : state) : option Z := if truthy (top s) then rightmost s (top s) else Some 0.
(** Up to the first ancestor reached from its other side. *)
Definition climb_right (s : state) (node : Z) : option Z :=
  iter (fuel s) (λ node, n ← get s node; let parent := rb_parent n in
    if truthy parent then p ← get s parent; Some (if node =? rb_right p then inl parent else inr parent)
    else Some (inr parent)) node.
Definition climb_left (s : state) (node : Z) : option Z :=
  iter (fuel s) (λ node, n ← get s node; let parent := rb_parent n in
    if truthy parent then p ← get s parent; Some (if node =? rb_left p then inl parent else inr parent)
    else Some (inr parent)) node.
Definition rb_next (s : state) (node : Z) : option Z :=
  n ← get s node;
  if rb_parent n =? node then Some 0
  else if truthy (rb_right n) then leftmost s (rb_right n) else climb_right s node.
Definition rb_prev (s : state) (node : Z) : option Z :=
  n ← get s node;
  if rb_parent n =? node then Some 0
  else if truthy (rb_left n) then rightmost s (rb_left n) else climb_left s node.
Definition rb_replace_node (s : state) (victim new : Z) : option state :=
  v ← get s victim;
  s ← relink_left s (rb_parent v) victim new;
  s ← adopt s (rb_left v) new;
  s ← adopt s (rb_right v) new;
  v ← get s victim; upd s new (λ _, v).

(** ** Words with a pointer and a colour *)
Definition is_ptr (p : Z) : Prop := is_u32 p ∧ p `mod` 4 = 0.
Definition is_addr (p : Z) : Prop := is_ptr p ∧ p ≠ 0.
(** [true] is black. *)
Definition cz (c : bool) : Z := if c then RB_BLACK else RB_RED.
Definition cell (p : Z) (c : bool) (r l : Z) : rb_node :=
  {| rb_parent_color := p + cz c; rb_right := r; rb_left := l |}.

Local Ltac word_arith :=
  repeat match goal with c : bool |- _ => destruct c end; unfold cz, RB_RED, RB_BLACK in *; Z.div_mod_to_equations; lia.
Lemma ptr_word p c : is_ptr p → is_u32 (p + cz c).
Proof. intros [Hp H4]. unfold is_u32 in *. by word_arith. Qed.
Lemma parent_cell p c r l : is_ptr p → rb_parent (cell p c r l) = p.
Proof.
  intros Hp. unfold rb_parent. cbn [rb_parent_color cell]. change 3 with (2 ^ 2 - 1).
  rewrite align_down by (by apply ptr_word || lia). destruct Hp as [Hp H4]. by word_arith.
Qed.
Lemma color_cell p c r l : is_ptr p → rb_color (cell p c r l) = cz c.
Proof.
  intros [Hp H4]. unfold rb_color. cbn [rb_parent_color cell]. change 1 with (2 ^ 1 - 1) at 1.
  rewrite land_mask_mod by lia. by word_arith.
Qed.
Lemma is_red_cell p c r l : is_ptr p → rb_is_red (cell p c r l) = negb c.
Proof. intros Hp. unfold rb_is_red. rewrite color_cell by done. by destruct c. Qed.
Lemma is_black_cell p c r l : is_ptr p → rb_is_black (cell p c r l) = c.
Proof. intros Hp. unfold rb_is_black. rewrite color_cell by done. by destruct c. Qed.

Lemma lor_ptr q x : is_ptr q → 0 ≤ x < 4 → x .| q = q + x.
Proof.
  intros [Hq H4] Hx. assert (q = (q / 4) * 2 ^ 2) as Eq by (Z.div_mod_to_equations; lia).
  rewrite Eq at 1. rewrite lor_add_field by lia. lia.
Qed.
Lemma set_parent_word p c q : is_ptr p → is_ptr q → ((p + cz c) .& 3) .| q = q + cz c.
Proof.
  intros [Hp H4] Hq. change 3 with (2 ^ 2 - 1). rewrite land_mask_mod by lia.
  replace ((p + cz c) `mod` 2 ^ 2) with (cz c) by (by word_arith).
  apply lor_ptr; [done|]. by word_arith.
Qed.
Lemma clear_word p c : is_ptr p → (p + cz c) .& ~32 1 = p.
Proof.
  intros Hp. change 1 with (2 ^ 1 - 1). rewrite align_down by (by apply ptr_word || lia).
  destruct Hp as [Hp H4]. by word_arith.
Qed.
Lemma set_black_word p c : is_ptr p → (p + cz c) .| 1 = p + cz true.
Proof.
  intros Hp. destruct c; cbn [cz].
  - rewrite <-(lor_ptr p RB_BLACK), (Z.lor_comm RB_BLACK p), <-Z.lor_assoc by (done || by word_arith). done.
  - unfold RB_RED. rewrite Z.add_0_r, Z.lor_comm, lor_ptr by (done || lia). done.
Qed.
Lemma set_color_word p c c' : is_ptr p → ((p + cz c) .& ~32 1) .| cz c' = p + cz c'.
Proof. intros Hp. rewrite clear_word, Z.lor_comm, lor_ptr by (done || by word_arith). done. Qed.

(** ** Cells of the memory *)
Abbreviation cells_of := (list (Z * rb_node)).
Record sat (s : state) (L : cells_of) : Prop := {
  sat_nodup : NoDup L.*1;
  sat_addr a n : (a, n) ∈ L → is_addr a;
  sat_get a n : (a, n) ∈ L → mem s !! a = Some n }.
Definition wp {A} (o : option A) (Q : A → Prop) : Prop := ∃ a, o = Some a ∧ Q a.

Lemma wp_ret {A} (a : A) Q : Q a → wp (Some a) Q.
Proof. intros. by exists a. Qed.
Lemma wp_bind {A B} (o : option A) (f : A → option B) Q : wp o (λ a, wp (f a) Q) → wp (o ≫= f) Q.
Proof. intros (a & -> & b & Hb & HQ). exists b. cbn. by rewrite Hb. Qed.
Lemma wp_mono {A} (o : option A) (P Q : A → Prop) : wp o P → (∀ a, P a → Q a) → wp o Q.
Proof. intros (a & Ha & HP) H. exists a. eauto. Qed.
(** [I n]: the loop ends within [n] rounds more. *)
Lemma wp_iter {A B} (I : nat → A → Prop) (Q : B → Prop) (body : A → option (A + B)) :
  (∀ n a, I n a → wp (body a) (λ r, match r with inl a' => ∃ m, (m < n)%nat ∧ I m a' | inr b => Q b end)) →
  ∀ f n a, I n a → (n < f)%nat → wp (iter f body a) Q.
Proof.
  intros Hb. induction f as [|f IH]; intros n a Ha Hn; [lia|]. cbn. apply wp_bind.
  eapply wp_mono; [by apply (Hb n)|]. intros [a'|b]; cbn; [intros (m & Hm & Ha'); apply (IH m); [done|lia]|apply wp_ret].
Qed.

Lemma sat_perm s L L' : L ≡ₚ L' → sat s L → sat s L'.
Proof.
  intros Hp [Hn Ha Hg]. split.
  - by rewrite <-Hp.
  - intros a n. rewrite <-Hp. apply Ha.
  - intros a n. rewrite <-Hp. apply Hg.
Qed.
Lemma sat_top s L p : sat s L → sat (set_top s p) L.
Proof. intros [Hn Ha Hg]. by split. Qed.
Lemma wp_get s L a n (Q : rb_node → Prop) : sat s L → (a, n) ∈ L → Q n → wp (get s a) Q.
Proof. intros Hs Hin HQ. exists n. split; [by apply (sat_get s L)|done]. Qed.
Lemma wp_upd s L L' a n f (Q : state → Prop) :
  sat s L → L ≡ₚ (a, n) :: L' → (∀ s', sat s' ((a, f n) :: L') → top s' = top s → Q s') → wp (upd s a f) Q.
Proof.
  intros Hs Hp HQ. apply (sat_perm _ _ _ Hp) in Hs as [Hn Ha Hg]. cbn in Hn. apply NoDup_cons in Hn as [Hnin Hn].
  eexists. unfold upd. rewrite (Hg a n) by set_solver. split; [done|]. apply HQ; [|done]. split; cbn.
  - by apply NoDup_cons.
  - intros b m [[= -> ->]|Hin]%elem_of_cons; [apply (Ha a n); set_solver|apply (Ha b m); set_solver].
  - intros b m [[= -> ->]|Hin]%elem_of_cons; [by rewrite lookup_insert_eq|].
    rewrite lookup_insert_ne; [apply Hg; set_solver|]. intros ->. apply Hnin, list_elem_of_fmap. by exists (b, m).
Qed.

(** Chunks of cells, and permutations of them. *)
Definition one (x : Z * rb_node) : cells_of := [x].
Lemma one_eq x L : x :: L = one x ++ L.
Proof. done. Qed.
Lemma length_one x : length (one x) = 1%nat.
Proof. done. Qed.
Lemma elem_of_one x y : x ∈ one y ↔ x = y.
Proof. apply list_elem_of_singleton. Qed.
Lemma perm_there (h x R R' : cells_of) : R ≡ₚ h ++ R' → x ++ R ≡ₚ h ++ x ++ R'.
Proof. intros ->. rewrite !app_assoc. f_equiv. apply Permutation_app_comm. Qed.
Lemma perm_step (h L R R' : cells_of) : R ≡ₚ h ++ R' → L ≡ₚ R' → h ++ L ≡ₚ R.
Proof. intros -> ->. done. Qed.
Lemma perm_nil (L R : cells_of) : L ++ [] ≡ₚ R ++ [] → L ≡ₚ R.
Proof. by rewrite !app_nil_r. Qed.
Ltac perm_find := first [apply (reflexivity (R := Permutation)) | eapply perm_there; perm_find].
Ltac perm :=
  rewrite ?one_eq; try apply perm_nil; rewrite <-?app_assoc;
  repeat (eapply perm_step; [perm_find|]); reflexivity.
(** The same where the right-hand side ends in what is left over. *)
Ltac perm_rest :=
  rewrite ?one_eq, <-?app_assoc; symmetry;
  repeat (eapply perm_step; [perm_find|]); reflexivity.
Opaque one.

(** ** Trees and the way up from a subtree *)
Inductive tree := E | T (c : bool) (l : tree) (a : Z) (r : tree).
(** [FL]: the subtree is the left child of [a]. *)
Inductive frame := FL (c : bool) (a : Z) (r : tree) | FR (c : bool) (l : tree) (a : Z).
Definition ptr (t : tree) : Z := match t with E => 0 | T _ _ a _ => a end.
Definition fptr (f : frame) : Z := match f with FL _ a _ | FR _ _ a => a end.
Definition up (k : list frame) : Z := match k with [] => 0 | f :: _ => fptr f end.
Fixpoint plug (k : list frame) (t : tree) : tree :=
  match k with
  | [] => t
  | FL c a r :: k => plug k (T c t a r)
  | FR c l a :: k => plug k (T c l a t)
  end.
Fixpoint inorder (t : tree) : list Z :=
  match t with E => [] | T _ l a r => inorder l ++ a :: inorder r end.
(** What comes before and after the subtree. *)
Fixpoint before (k : list frame) : list Z :=
  match k with [] => [] | FL _ _ _ :: k => before k | FR _ l a :: k => before k ++ inorder l ++ [a] end.
Fixpoint after (k : list frame) : list Z :=
  match k with [] => [] | FL _ a r :: k => a :: inorder r ++ after k | FR _ _ _ :: k => after k end.
Lemma inorder_plug k : ∀ t, inorder (plug k t) = before k ++ inorder t ++ after k.
Proof.
  induction k as [|[c a r|c l a] k IH]; intros t; cbn; [by rewrite app_nil_r|..]; rewrite IH; cbn.
  - by rewrite <-!app_assoc.
  - by rewrite <-!app_assoc.
Qed.

(** The cells of a tree whose root has parent [p], and those around a subtree at [h]. *)
Fixpoint cells (p : Z) (t : tree) : cells_of :=
  match t with
  | E => []
  | T c l a r => one (a, cell p c (ptr r) (ptr l)) ++ cells a l ++ cells a r
  end.
Fixpoint around (h : Z) (k : list frame) : cells_of :=
  match k with
  | [] => []
  | FL c a r :: k => one (a, cell (up k) c (ptr r) h) ++ cells a r ++ around a k
  | FR c l a :: k => one (a, cell (up k) c h (ptr l)) ++ cells a l ++ around a k
  end.
Fixpoint root_of (h : Z) (k : list frame) : Z :=
  match k with [] => h | f :: k => root_of (fptr f) k end.
Lemma cells_plug k : ∀ t, cells 0 (plug k t) ≡ₚ cells (up k) t ++ around (ptr t) k.
Proof.
  induction k as [|[c a r|c l a] k IH]; intros t; cbn; [by rewrite app_nil_r|..]; rewrite IH; cbn; perm.
Qed.
Lemma plug_ne k : ∀ t, t ≠ E → plug k t ≠ E.
Proof. induction k as [|[c a r|c l a] k IH]; intros t Ht; cbn; [done|..]; by apply IH. Qed.
Lemma root_plug k : ∀ t, ptr (plug k t) = root_of (ptr t) k.
Proof. induction k as [|[c a r|c l a] k IH]; intros t; cbn; [done|..]; by rewrite IH. Qed.

(** The memory has the tree with [t] at [k], and the other cells [F]. *)
Definition rep (s : state) (k : list frame) (t : tree) (F : cells_of) : Prop :=
  sat s (cells (up k) t ++ around (ptr t) k ++ F) ∧ top s = root_of (ptr t) k.

Lemma cells_ptr p t : t ≠ E → ∃ n, (ptr t, n) ∈ cells p t.
Proof. destruct t as [|c l a r]; [done|]. intros _. eexists. cbn. rewrite elem_of_app, elem_of_one. by left. Qed.
Lemma sat_ptr s L p t : sat s L → (∀ x, x ∈ cells p t → x ∈ L) → is_ptr (ptr t).
Proof.
  intros Hs Hin. destruct t as [|c l a r]; [by cbn; unfold is_ptr, is_u32; cbn|].
  destruct (cells_ptr p (T c l a r)) as [n Hn]; [done|]. apply (sat_addr s L Hs _ n). by apply Hin.
Qed.
Lemma around_up h k : k ≠ [] → ∃ n, (up k, n) ∈ around h k.
Proof. destruct k as [|[c a r|c l a] k]; [done|..]; intros _; eexists; cbn; rewrite elem_of_app, elem_of_one; by left. Qed.
Lemma sat_up s L h k : sat s L → (∀ x, x ∈ around h k → x ∈ L) → is_ptr (up k).
Proof.
  intros Hs Hin. destruct k as [|f k]; [by cbn; unfold is_ptr, is_u32; cbn|].
  destruct (around_up h (f :: k)) as [n Hn]; [done|]. apply (sat_addr s L Hs _ n). by apply Hin.
Qed.

(** Membership in chunks, and the pointers of a satisfied list. *)
Ltac in_cells := intros; repeat rewrite elem_of_app; rewrite ?elem_of_one; tauto.
Lemma sat_one s L a n : sat s L → (a, n) ∈ L → is_ptr a ∧ a ≠ 0.
Proof. intros Hs Hin. exact (sat_addr s L Hs a n Hin). Qed.
Ltac ptrs :=
  match goal with
  | |- is_ptr 0 => by unfold is_ptr, is_u32
  | |- is_ptr (ptr ?t) => match goal with H : sat _ ?L |- _ => match L with context [cells ?p t] => apply (sat_ptr _ L p t H); in_cells end end
  | |- is_ptr (up ?k) => match goal with H : sat _ ?L |- _ => match L with context [around ?h k] => apply (sat_up _ L h k H); in_cells end end
  | |- is_ptr ?a => match goal with H : sat _ ?L |- _ => match L with context [one (a, ?n)] => apply (sat_one _ L a n H); in_cells end end
  end.

Lemma sat_ne s L L' a n b m : sat s L → L ≡ₚ one (a, n) ++ one (b, m) ++ L' → a ≠ b.
Proof.
  intros Hs Hp. apply (sat_perm _ _ _ Hp) in Hs as [Hn _ _]. rewrite <-!one_eq in Hn. cbn in Hn.
  apply NoDup_cons in Hn as [Hn _]. intros ->. apply Hn. set_solver.
Qed.
Lemma sat_ne_ptr s L L' a n p t : sat s L → L ≡ₚ one (a, n) ++ cells p t ++ L' → a ≠ ptr t.
Proof.
  intros Hs Hp. destruct t as [|c l b r].
  - apply (sat_one s L a n Hs). rewrite Hp. in_cells.
  - eapply (sat_ne s L _ a n b); [done|]. rewrite Hp. cbn. rewrite <-!app_assoc. reflexivity.
Qed.

(** A read of one cell, and writes to it. *)
Lemma wp_get_cell s L L' a n (Q : rb_node → Prop) : sat s L → L ≡ₚ one (a, n) ++ L' → Q n → wp (get s a) Q.
Proof. intros Hs Hp. apply (wp_get s L); [done|]. rewrite Hp. in_cells. Qed.
Section writes.
Context (s : state) (L L' : cells_of) (a p : Z) (c : bool) (r l : Z) (Q : state → Prop).
Context (Hs : sat s L) (Hp : L ≡ₚ one (a, cell p c r l) ++ L').
Local Ltac write := unfold set_right, set_left, rb_set_red, rb_set_black, rb_set_parent, rb_set_color;
  intros; apply (wp_upd s L L' a (cell p c r l)); [done|by rewrite one_eq|]; intros s'; cbn; unfold with_color; cbn; rewrite one_eq.
Lemma wp_set_right q : (∀ s', sat s' (one (a, cell p c q l) ++ L') → top s' = top s → Q s') → wp (set_right s a q) Q.
Proof. write. auto. Qed.
Lemma wp_set_left q : (∀ s', sat s' (one (a, cell p c r q) ++ L') → top s' = top s → Q s') → wp (set_left s a q) Q.
Proof. write. auto. Qed.
Lemma wp_set_parent q : is_ptr p → is_ptr q →
  (∀ s', sat s' (one (a, cell q c r l) ++ L') → top s' = top s → Q s') → wp (rb_set_parent s a q) Q.
Proof. write. rewrite set_parent_word by done. auto. Qed.
Lemma wp_set_black : is_ptr p →
  (∀ s', sat s' (one (a, cell p true r l) ++ L') → top s' = top s → Q s') → wp (rb_set_black s a) Q.
Proof. write. rewrite set_black_word by done. auto. Qed.
Lemma wp_set_red : is_ptr p →
  (∀ s', sat s' (one (a, cell p false r l) ++ L') → top s' = top s → Q s') → wp (rb_set_red s a) Q.
Proof. write. rewrite clear_word by done. replace p with (p + cz false) at 1 by (cbn; unfold RB_RED; lia). auto. Qed.
Lemma wp_set_color c' : is_ptr p →
  (∀ s', sat s' (one (a, cell p c' r l) ++ L') → top s' = top s → Q s') → wp (rb_set_color s a (cz c')) Q.
Proof. write. rewrite set_color_word by done. auto. Qed.
End writes.

Lemma truthy_0 : truthy 0 = false.
Proof. done. Qed.
Lemma truthy_true p : p ≠ 0 → truthy p = true.
Proof. intros. unfold truthy. by apply negb_true_iff, Z.eqb_neq. Qed.

Lemma wp_adopt s L L' p t q (Q : state → Prop) :
  sat s L → L ≡ₚ cells p t ++ L' → is_ptr p → is_ptr q →
  (∀ s', sat s' (cells q t ++ L') → top s' = top s → Q s') → wp (adopt s (ptr t) q) Q.
Proof.
  intros Hs Hp Hpp Hq HQ. unfold adopt. destruct t as [|c l a r]; cbn [ptr cells] in *.
  - rewrite truthy_0. apply wp_ret, HQ; [by apply (sat_perm _ L)|done].
  - assert ((a, cell p c (ptr r) (ptr l)) ∈ L) as Hin by (rewrite Hp; in_cells).
    rewrite truthy_true by (by apply (sat_one s L a _ Hs Hin)). rewrite <-app_assoc in Hp.
    eapply wp_set_parent; [done|exact Hp|done|done|]. intros s' Hs' Ht. apply HQ; [|done]. by rewrite <-app_assoc.
Qed.

(** The pointer to a subtree, in its parent or in the root. *)
Lemma wp_relink_left s L L' k old n new (Q : state → Prop) :
  sat s L → L ≡ₚ around old k ++ one (old, n) ++ L' → top s = root_of old k →
  (∀ s', sat s' (around new k ++ one (old, n) ++ L') → top s' = root_of new k → Q s') →
  wp (relink_left s (up k) old new) Q.
Proof.
  intros Hs Hp Ht HQ. unfold relink_left. destruct k as [|f k]; cbn [up].
  { rewrite truthy_0. apply wp_ret, HQ; [|done]. apply sat_top. by apply (sat_perm _ L). }
  destruct f as [c a r|c l a]; cbn [fptr around root_of] in *; rewrite <-!app_assoc in Hp.
  all: rewrite truthy_true by (eapply (sat_one s L a); [done|]; rewrite Hp; in_cells).
  all: apply wp_bind; eapply wp_get_cell; [exact Hs|exact Hp|]; cbn [rb_left cell].
  - rewrite Z.eqb_refl. eapply wp_set_left; [exact Hs|exact Hp|]. intros s' Hs' Ht'. apply HQ; [|congruence]. by rewrite <-!app_assoc.
  - rewrite (proj2 (Z.eqb_neq old (ptr l))).
    2: { eapply (sat_ne_ptr s L _ old n a l); [done|]. rewrite Hp. perm_rest. }
    eapply wp_set_right; [exact Hs|exact Hp|]. intros s' Hs' Ht'. apply HQ; [|congruence]. by rewrite <-!app_assoc.
Qed.

Lemma wp_relink_right s L L' k old n new (Q : state → Prop) :
  sat s L → L ≡ₚ around old k ++ one (old, n) ++ L' → top s = root_of old k →
  (∀ s', sat s' (around new k ++ one (old, n) ++ L') → top s' = root_of new k → Q s') →
  wp (relink_right s (up k) old new) Q.
Proof.
  intros Hs Hp Ht HQ. unfold relink_right. destruct k as [|f k]; cbn [up].
  { rewrite truthy_0. apply wp_ret, HQ; [|done]. apply sat_top. by apply (sat_perm _ L). }
  destruct f as [c a r|c l a]; cbn [fptr around root_of] in *; rewrite <-!app_assoc in Hp.
  all: rewrite truthy_true by (eapply (sat_one s L a); [done|]; rewrite Hp; in_cells).
  all: apply wp_bind; eapply wp_get_cell; [exact Hs|exact Hp|]; cbn [rb_right cell].
  - rewrite (proj2 (Z.eqb_neq old (ptr r))).
    2: { eapply (sat_ne_ptr s L _ old n a r); [done|]. rewrite Hp. perm_rest. }
    eapply wp_set_left; [exact Hs|exact Hp|]. intros s' Hs' Ht'. apply HQ; [|congruence]. by rewrite <-!app_assoc.
  - rewrite Z.eqb_refl. eapply wp_set_right; [exact Hs|exact Hp|]. intros s' Hs' Ht'. apply HQ; [|congruence]. by rewrite <-!app_assoc.
Qed.

(** One step of a function: the goal is [wp] of a read or a write. *)
Ltac step_read := apply wp_bind; eapply wp_get_cell; [eassumption|perm_rest|].
Ltac step_write tac :=
  tac; [eassumption|perm_rest|..];
  lazymatch goal with
  | |- ∀ s', sat s' _ → _ =>
      let s' := fresh "s" in let Hs := fresh "Hs" in let Ht := fresh "Ht" in
      intros s' Hs Ht;
      repeat match goal with H : sat ?x _ |- _ => tryif constr_eq x s' then fail else clear H end
  | |- is_ptr _ => try done; ptrs
  | _ => idtac
  end.
Ltac next_write tac := apply wp_bind; step_write tac.

Lemma rotate_left_spec s k cn A n cr B r C F :
  rep s k (T cn A n (T cr B r C)) F →
  wp (__rb_rotate_left s n) (λ s', rep s' k (T cr (T cn A n B) r C) F).
Proof.
  intros [Hs Ht]. cbn [cells ptr] in Hs, Ht. unfold __rb_rotate_left.
  assert (is_ptr (up k)) by ptrs. assert (is_ptr n) by ptrs. assert (is_ptr r) by ptrs.
  step_read. rewrite parent_cell by done. cbn [rb_right cell]. step_read. cbn [rb_left cell].
  next_write ltac:(eapply wp_set_right). next_write ltac:(eapply wp_adopt). next_write ltac:(eapply wp_set_left).
  next_write ltac:(eapply wp_set_parent). next_write ltac:(eapply wp_relink_left).
  { congruence. }
  step_write ltac:(eapply wp_set_parent). split; [|cbn in *; congruence].
  cbn [cells ptr]. eapply sat_perm; [|eassumption]. perm.
Qed.
Lemma rotate_right_spec s k cn l cl A B n C F :
  rep s k (T cn (T cl A l B) n C) F →
  wp (__rb_rotate_right s n) (λ s', rep s' k (T cl A l (T cn B n C)) F).
Proof.
  intros [Hs Ht]. cbn [cells ptr] in Hs, Ht. unfold __rb_rotate_right.
  assert (is_ptr (up k)) by ptrs. assert (is_ptr n) by ptrs. assert (is_ptr l) by ptrs.
  step_read. rewrite parent_cell by done. cbn [rb_left cell]. step_read. cbn [rb_right cell].
  next_write ltac:(eapply wp_set_left). next_write ltac:(eapply wp_adopt). next_write ltac:(eapply wp_set_right).
  next_write ltac:(eapply wp_set_parent). next_write ltac:(eapply wp_relink_right).
  { congruence. }
  step_write ltac:(eapply wp_set_parent). split; [|cbn in *; congruence].
  cbn [cells ptr]. eapply sat_perm; [|eassumption]. perm.
Qed.

(** ** Moving the focus *)
Lemma rep_left s k c l a r F : rep s k (T c l a r) F ↔ rep s (FL c a r :: k) l F.
Proof. unfold rep. cbn. split; intros [Hs Ht]; (split; [|done]); (eapply sat_perm; [|exact Hs]); perm. Qed.
Lemma rep_right s k c l a r F : rep s k (T c l a r) F ↔ rep s (FR c l a :: k) r F.
Proof. unfold rep. cbn. split; intros [Hs Ht]; (split; [|done]); (eapply sat_perm; [|exact Hs]); perm. Qed.
Lemma go_left s k c l a r F : rep s k (T c l a r) F → rep s (FL c a r :: k) l F.
Proof. apply rep_left. Qed.
Lemma go_right s k c l a r F : rep s k (T c l a r) F → rep s (FR c l a :: k) r F.
Proof. apply rep_right. Qed.
Lemma rep_plug s k : ∀ t F, rep s k t F ↔ rep s [] (plug k t) F.
Proof. induction k as [|[c a r|c l a] k IH]; intros t F; cbn; [done|..]; rewrite <-IH; symmetry; [apply rep_left|apply rep_right]. Qed.

Lemma rep_up s k t F : rep s k t F → is_ptr (up k).
Proof. intros [Hs _]. ptrs. Qed.
Lemma rep_ptr s k t F : rep s k t F → is_ptr (ptr t).
Proof. intros [Hs _]. ptrs. Qed.
Lemma rep_top s k c l a r F : rep s k (T c l a r) F → a ≠ 0.
Proof. intros [Hs _]. cbn in Hs. eapply (sat_one s _ a); [exact Hs|]. in_cells. Qed.
Lemma rep_frame s f k t F : rep s (f :: k) t F → fptr f ≠ 0.
Proof. destruct f; [rewrite <-rep_left|rewrite <-rep_right]; apply rep_top. Qed.
Lemma wp_node s k c l a r F (Q : rb_node → Prop) :
  rep s k (T c l a r) F → Q (cell (up k) c (ptr r) (ptr l)) → wp (get s a) Q.
Proof. intros [Hs _]. cbn in Hs. eapply wp_get_cell; [exact Hs|]. perm_rest. Qed.
(** The parent of the focus. *)
Lemma wp_parent s f k t F (Q : rb_node → Prop) :
  rep s (f :: k) t F →
  Q (match f with FL c a r => cell (up k) c (ptr r) (ptr t) | FR c l a => cell (up k) c (ptr t) (ptr l) end) →
  wp (get s (fptr f)) Q.
Proof. destruct f; [rewrite <-rep_left|rewrite <-rep_right]; intros Hr; by apply (wp_node s k _ _ _ _ F). Qed.
Lemma rep_ne_right s c a r k t F : rep s (FL c a r :: k) t F → t ≠ E → ptr t ≠ ptr r.
Proof.
  intros [Hs _]. destruct t as [|c' l' a' r']; [done|]. intros _. cbn in *.
  eapply (sat_ne_ptr s _ _ a' _ a r); [exact Hs|]. perm_rest.
Qed.
Lemma rep_ne_left s c l a k t F : rep s (FR c l a :: k) t F → t ≠ E → ptr t ≠ ptr l.
Proof.
  intros [Hs _]. destruct t as [|c' l' a' r']; [done|]. intros _. cbn in *.
  eapply (sat_ne_ptr s _ _ a' _ a l); [exact Hs|]. perm_rest.
Qed.
Lemma rep_size s k t F : rep s k t F → (length k ≤ size (mem s))%nat.
Proof.
  intros [[Hn _ Hg] _]. transitivity (length (cells (up k) t ++ around (ptr t) k ++ F)).
  - rewrite !length_app. assert (∀ h, length k ≤ length (around h k))%nat as Hk; [|specialize (Hk (ptr t)); lia].
    clear. induction k as [|[c a r|c l a] k IH]; intros h; cbn [around length]; [lia|..];
      rewrite !length_app, length_one; specialize (IH a); lia.
  - rewrite <-(length_fmap fst), <-(size_list_to_set (C := gset Z)), <-(size_dom (D := gset Z)) by done.
    apply subseteq_size. intros a Ha%elem_of_list_to_set. apply list_elem_of_fmap in Ha as ([b n] & -> & Hin).
    apply elem_of_dom. eexists. by apply Hg.
Qed.

(** ** Colours *)
Section colours.
Context (s : state) (k : list frame) (c : bool) (l : tree) (a : Z) (r : tree) (F : cells_of) (Hr : rep s k (T c l a r) F).
Local Ltac colour tac := pose proof (rep_up _ _ _ _ Hr); destruct Hr as [Hs Ht]; cbn in Hs, Ht;
  step_write tac; split; [|cbn; congruence]; cbn; eapply sat_perm; [|eassumption]; perm.
Lemma set_black_spec : wp (rb_set_black s a) (λ s', rep s' k (T true l a r) F).
Proof. colour ltac:(eapply wp_set_black). Qed.
Lemma set_red_spec : wp (rb_set_red s a) (λ s', rep s' k (T false l a r) F).
Proof. colour ltac:(eapply wp_set_red). Qed.
Lemma set_color_spec c' : wp (rb_set_color s a (cz c')) (λ s', rep s' k (T c' l a r) F).
Proof. colour ltac:(eapply wp_set_color). Qed.
End colours.

Definition black (t : tree) : bool := match t with E => true | T c _ _ _ => c end.
Lemma wp_red_node s k t F (Q : bool → Prop) : rep s k t F → Q (negb (black t)) → wp (red_node s (ptr t)) Q.
Proof.
  intros Hr HQ. unfold red_node. destruct t as [|c l a r]; cbn [ptr]; [by apply wp_ret|].
  rewrite truthy_true by (by eapply rep_top). apply wp_bind. eapply wp_node; [done|].
  rewrite is_red_cell by (by eapply rep_up). by apply wp_ret.
Qed.
Lemma wp_black_or_null s k t F (Q : bool → Prop) : rep s k t F → Q (black t) → wp (black_or_null s (ptr t)) Q.
Proof.
  intros Hr HQ. unfold black_or_null. destruct t as [|c l a r]; cbn [ptr]; [by apply wp_ret|].
  rewrite truthy_true by (by eapply rep_top). apply wp_bind. eapply wp_node; [done|].
  rewrite is_black_cell by (by eapply rep_up). by apply wp_ret.
Qed.

(** ** The red-black invariant *)

(** [rb c n t]: no red node has a red child, every path has [n] black nodes, and
    the root is black if [c]. *)
Inductive rb : bool → nat → tree → Prop :=
  | rb_E : rb true 0 E
  | rb_R n l a r : rb true n l → rb true n r → rb false n (T false l a r)
  | rb_B cl cr n l a r : rb cl n l → rb cr n r → rb true (S n) (T true l a r).
(** [fits c n k]: a tree with [rb c n] fits at [k] in a tree with a black root. *)
Inductive fits : bool → nat → list frame → Prop :=
  | fits_root n : fits true n []
  | fits_FLR n a r k : rb true n r → fits false n k → fits true n (FL false a r :: k)
  | fits_FRR n l a k : rb true n l → fits false n k → fits true n (FR false l a :: k)
  | fits_FLB c c' n a r k : rb c' n r → fits true (S n) k → fits c n (FL true a r :: k)
  | fits_FRB c c' n l a k : rb c' n l → fits true (S n) k → fits c n (FR true l a :: k).
Create HintDb rbtree.
#[export] Hint Constructors rb fits : rbtree.

Lemma rb_plug k : ∀ c n t, fits c n k → rb c n t → ∃ N, rb true N (plug k t).
Proof.
  induction k as [|f k IH]; intros c n t Hk Ht; inversion Hk; subst; cbn; [by eexists|..]; eapply IH; eauto with rbtree.
Qed.
Lemma rb_black n t : rb true n t → black t = true.
Proof. by inversion 1. Qed.
Lemma rb_true c n t : rb c n t → black t = true → rb true n t.
Proof. inversion 1; subst; cbn; intros; (done || eauto with rbtree). Qed.
(** A tree whose root is to be made black. *)
Definition almost (t : tree) : Prop := ∃ c l a r N, t = T c l a r ∧ rb true N (T true l a r).

(** The state of the insertion loop: a red node that may have a red parent. *)
Definition inserting (F : cells_of) (xs : list Z) (d : nat) (x : state * Z) : Prop :=
  ∃ k l r n, rep x.1 k (T false l x.2 r) F ∧ rb true n l ∧ rb true n r ∧ fits true n k ∧ length k = d ∧
    inorder (plug k (T false l x.2 r)) = xs.
Definition rooted (F : cells_of) (xs : list Z) (s : state) : Prop :=
  ∃ t, rep s [] t F ∧ almost t ∧ inorder t = xs.

(** Leaving the loop: at the root, or below a black parent. *)
Lemma almost_plug k l a r n :
  fits true n k → rb true n l → rb true n r → (k = [] ∨ fits false n k) → almost (plug k (T false l a r)).
Proof.
  intros Hk Hl Hr [->|Hf].
  - exists false, l, a, r, (S n). split; [done|]. eauto with rbtree.
  - destruct (rb_plug k false n (T false l a r) Hf) as [N HN]; [eauto with rbtree|].
    assert (plug k (T false l a r) ≠ E) as Hne by (by apply plug_ne).
    destruct (plug k (T false l a r)) as [|c l' a' r'] eqn:Ep; [done|]. inversion HN; subst. exists true, l', a', r'. eauto.
Qed.

Lemma refocus s k t k' t' F : rep s k t F → plug k t = plug k' t' → rep s k' t' F.
Proof. rewrite (rep_plug s k), (rep_plug s k'). by intros H <-. Qed.
(** Run a function whose specification is [lem], and call the new state [s']. *)
Ltac wp_call lem := apply wp_bind; eapply wp_mono; [eapply lem; eapply refocus; [eassumption|reflexivity]|cbn beta].
Ltac wp_last lem := eapply wp_mono; [eapply lem; eapply refocus; [eassumption|reflexivity]|cbn beta].

(** Two shapes with the same nodes in order. *)
Ltac inorder := cbn; rewrite !inorder_plug; cbn; do 4 (rewrite <-?app_assoc; cbn); done.

Section insertion.
Context (F : cells_of) (xs : list Z).
Implicit Types (s : state) (k : list frame).
Let ends (d : nat) (r : state * Z + state) : Prop :=
  match r with inl x' => ∃ m, (m < d)%nat ∧ inserting F xs m x' | inr s => rooted F xs s end.

(** The uncle is red: recolour and go on with the grandparent. *)
Lemma recolour_left s k x p y g ul u ur cx cy n :
  rep s k (T true (T false x p y) g (T false ul u ur)) F →
  rb cx n x → rb cy n y → rb false n (T false ul u ur) → fits true (S n) k →
  inorder (plug k (T true (T false x p y) g (T false ul u ur))) = xs →
  wp (s ← rb_set_black s u; s ← rb_set_black s p; s ← rb_set_red s g; Some (inl (s, g))) (ends (S (S (length k)))).
Proof.
  intros Hr Hx Hy Hu Hk Hxs.
  wp_call (set_black_spec s (FR true (T false x p y) g :: k) false ul u ur). intros s1 H1.
  wp_call (set_black_spec s1 (FL true g (T true ul u ur) :: k) false x p y). intros s2 H2.
  wp_call (set_red_spec s2 k true (T true x p y) g (T true ul u ur)). intros s3 H3.
  apply wp_ret. exists (length k). split; [lia|]. exists k, (T true x p y), (T true ul u ur), (S n).
  inversion_clear Hu. split_and!; eauto with rbtree. rewrite <-Hxs. inorder.
Qed.
Lemma recolour_right s k x p y g ul u ur cx cy n :
  rep s k (T true (T false ul u ur) g (T false x p y)) F →
  rb cx n x → rb cy n y → rb false n (T false ul u ur) → fits true (S n) k →
  inorder (plug k (T true (T false ul u ur) g (T false x p y))) = xs →
  wp (s ← rb_set_black s u; s ← rb_set_black s p; s ← rb_set_red s g; Some (inl (s, g))) (ends (S (S (length k)))).
Proof.
  intros Hr Hx Hy Hu Hk Hxs.
  wp_call (set_black_spec s (FL true g (T false x p y) :: k) false ul u ur). intros s1 H1.
  wp_call (set_black_spec s1 (FR true (T true ul u ur) g :: k) false x p y). intros s2 H2.
  wp_call (set_red_spec s2 k true (T true ul u ur) g (T true x p y)). intros s3 H3.
  apply wp_ret. exists (length k). split; [lia|]. exists k, (T true ul u ur), (T true x p y), (S n).
  inversion_clear Hu. split_and!; eauto with rbtree. rewrite <-Hxs. inorder.
Qed.
(** The uncle is black and the node an outer grandchild: one rotation ends it. *)
Lemma finish_left s k l a r p B g U n :
  rep s k (T true (T false (T false l a r) p B) g U) F →
  rb true n l → rb true n r → rb true n B → rb true n U → fits true (S n) k →
  inorder (plug k (T true (T false (T false l a r) p B) g U)) = xs →
  wp (s ← rb_set_black s p; s ← rb_set_red s g; s ← __rb_rotate_right s g; Some (inl (s, a))) (ends (S (S (length k)))).
Proof.
  intros Hr Hl Hrr HB HU Hk Hxs.
  wp_call (set_black_spec s (FL true g U :: k) false (T false l a r) p B). intros s1 H1.
  wp_call (set_red_spec s1 k true (T true (T false l a r) p B) g U). intros s2 H2.
  wp_call (rotate_right_spec s2 k false p true (T false l a r) B g U). intros s3 H3.
  apply wp_ret. exists (S (length k)). split; [lia|]. exists (FL true p (T false B g U) :: k), l, r, n.
  split_and!; eauto with rbtree; [by eapply go_left|]. rewrite <-Hxs. inorder.
Qed.
Lemma finish_right s k l a r p B g U n :
  rep s k (T true U g (T false B p (T false l a r))) F →
  rb true n l → rb true n r → rb true n B → rb true n U → fits true (S n) k →
  inorder (plug k (T true U g (T false B p (T false l a r)))) = xs →
  wp (s ← rb_set_black s p; s ← rb_set_red s g; s ← __rb_rotate_left s g; Some (inl (s, a))) (ends (S (S (length k)))).
Proof.
  intros Hr Hl Hrr HB HU Hk Hxs.
  wp_call (set_black_spec s (FR true U g :: k) false B p (T false l a r)). intros s1 H1.
  wp_call (set_red_spec s1 k true U g (T true B p (T false l a r))). intros s2 H2.
  wp_call (rotate_left_spec s2 k false U g true B p (T false l a r)). intros s3 H3.
  apply wp_ret. exists (S (length k)). split; [lia|]. exists (FR true (T false U g B) p :: k), l, r, n.
  split_and!; eauto with rbtree; [by eapply go_right|]. rewrite <-Hxs. inorder.
Qed.

(** The node is one of the children [x] and [y] of a red parent. *)
Definition red_child (n : nat) (x y : tree) (node : Z) : Prop :=
  ∃ l r, rb true n l ∧ rb true n r ∧ ((x = T false l node r ∧ rb true n y) ∨ (y = T false l node r ∧ rb true n x)).
Lemma red_child_rb n x y node : red_child n x y node → ∃ cx cy, rb cx n x ∧ rb cy n y.
Proof. intros (l & r & Hl & Hr & [[-> Hy]|[-> Hx]]); eauto 7 with rbtree. Qed.

(** A round with a red parent [p] below a black grandparent. *)
Lemma round_start s k x p y f n node :
  rep s (f :: k) (T false x p y) F → red_child n x y node →
  wp (get s node) (λ n, rb_parent n = p) ∧ wp (get s p) (λ n, n = cell (fptr f) false (ptr y) (ptr x)) ∧ p ≠ 0 ∧ is_ptr (fptr f).
Proof.
  intros Hr (l & r & Hl & Hrr & Hside). split_and!.
  - destruct Hside as [[-> _]|[-> _]].
    + eapply wp_node; [by eapply go_left|]. apply parent_cell. by apply (rep_ptr _ _ _ _ Hr).
    + eapply wp_node; [by eapply go_right|]. apply parent_cell. by apply (rep_ptr _ _ _ _ Hr).
  - by eapply wp_node.
  - by apply (rep_top _ _ _ _ _ _ _ Hr).
  - by apply (rep_up _ _ _ _ Hr).
Qed.
Ltac wp_use H := apply wp_bind; eapply wp_mono; [exact H|cbn beta].

Lemma round_left s k x p y g U n node c :
  rep s k (T true (T false x p y) g U) F → inorder (plug k (T true (T false x p y) g U)) = xs →
  fits true (S n) k → rb c n U → red_child n x y node →
  wp (insert_round (s, node)) (ends (S (S (length k)))).
Proof.
  intros Hr Hxs Hk HU Hc. pose proof (go_left _ _ _ _ _ _ _ Hr) as Hrp.
  destruct (round_start _ _ _ _ _ _ _ _ Hrp Hc) as (Hn & Hp & Hp0 & Hg0). cbn [fptr] in *.
  unfold insert_round. wp_use Hn. intros nd ->. rewrite (proj2 (Z.eqb_neq p 0)) by done.
  wp_use Hp. intros ? ->. rewrite is_red_cell, parent_cell by done. cbn [negb].
  apply wp_bind. eapply wp_node; [exact Hr|]. cbn [rb_left rb_right cell ptr]. rewrite Z.eqb_refl.
  apply wp_bind. eapply wp_red_node; [by eapply go_right|]. cbn beta.
  destruct (black U) eqn:Hb; cbn [negb].
  - apply (rb_true _ _ _ HU) in Hb. destruct Hc as (l & r & Hl & Hrr & [[-> Hy]|[-> Hx]]).
    + apply go_left, rep_ne_right in Hrp; [|done]. cbn [ptr] in Hrp.
      rewrite (proj2 (Z.eqb_neq (ptr y) node)) by done. eapply finish_left; eauto.
    + cbn [ptr]. rewrite Z.eqb_refl. apply wp_bind.
      wp_call (rotate_left_spec s (FL true g U :: k) false x p false l node r). intros s1 H1. apply wp_ret.
      eapply finish_left; [eapply refocus; [exact H1|done]|eauto..]. rewrite <-Hxs. inorder.
  - destruct U as [|cu ul u ur]; [done|]. cbn in Hb. subst cu. destruct (red_child_rb _ _ _ _ Hc) as (cx & cy & Hx & Hy).
    inversion HU; subst c. eapply recolour_left; eauto.
Qed.
Lemma round_right s k x p y g U n node c :
  rep s k (T true U g (T false x p y)) F → inorder (plug k (T true U g (T false x p y))) = xs →
  fits true (S n) k → rb c n U → red_child n x y node →
  wp (insert_round (s, node)) (ends (S (S (length k)))).
Proof.
  intros Hr Hxs Hk HU Hc. pose proof (go_right _ _ _ _ _ _ _ Hr) as Hrp.
  destruct (round_start _ _ _ _ _ _ _ _ Hrp Hc) as (Hn & Hp & Hp0 & Hg0). cbn [fptr] in *.
  unfold insert_round. wp_use Hn. intros nd ->. rewrite (proj2 (Z.eqb_neq p 0)) by done.
  wp_use Hp. intros ? ->. rewrite is_red_cell, parent_cell by done. cbn [negb].
  apply wp_bind. eapply wp_node; [exact Hr|]. cbn [rb_left rb_right cell ptr].
  rewrite (proj2 (Z.eqb_neq p (ptr U))) by (by apply rep_ne_left in Hrp).
  apply wp_bind. eapply wp_red_node; [by eapply go_left|]. cbn beta.
  destruct (black U) eqn:Hb; cbn [negb].
  - apply (rb_true _ _ _ HU) in Hb. destruct Hc as (l & r & Hl & Hrr & [[-> Hy]|[-> Hx]]).
    + cbn [ptr]. rewrite Z.eqb_refl. apply wp_bind.
      wp_call (rotate_right_spec s (FR true U g :: k) false node false l r p y). intros s1 H1. apply wp_ret.
      eapply finish_right; [eapply refocus; [exact H1|done]|eauto..]. rewrite <-Hxs. inorder.
    + apply go_right, rep_ne_left in Hrp; [|done]. cbn [ptr] in Hrp.
      rewrite (proj2 (Z.eqb_neq (ptr x) node)) by done. eapply finish_right; eauto.
  - destruct U as [|cu ul u ur]; [done|]. cbn in Hb. subst cu. destruct (red_child_rb _ _ _ _ Hc) as (cx & cy & Hx & Hy).
    inversion HU; subst c. eapply recolour_right; eauto.
Qed.
Lemma insert_round_spec d x : inserting F xs d x → wp (insert_round x) (ends d).
Proof.
  intros (k & l & r & n & Hr & Hl & Hrr & Hk & <- & Hxs). destruct x as [s a]. cbn [fst snd] in *.
  assert (k = [] ∨ fits false n k → wp (Some (inr s)) (ends (length k))) as Hdone.
  { intros Hd. apply wp_ret. exists (plug k (T false l a r)). split_and!; [by apply (proj1 (rep_plug _ _ _ _))|by eapply almost_plug|done]. }
  assert (wp (get s a) (λ nd, rb_parent nd = up k)) as Hn.
  { eapply wp_node; [exact Hr|]. apply parent_cell. by apply (rep_up _ _ _ _ Hr). }
  destruct k as [|f k]; [|pose proof (rep_frame _ _ _ _ _ Hr) as Hf0; pose proof (wp_parent _ _ _ _ _ (λ nd, rb_is_red nd = negb (match f with FL c _ _ | FR c _ _ => c end)) Hr) as Hp].
  - unfold insert_round. wp_use Hn. intros nd ->. cbn. apply Hdone. by left.
  - assert (is_ptr (up k)) by (destruct f; [apply rep_left in Hr|apply rep_right in Hr]; by eapply rep_up).
    destruct f as [[] p B|[] B p]; cbn [fptr up] in *.
    1, 3: unfold insert_round; wp_use Hn; intros nd ->; rewrite (proj2 (Z.eqb_neq p 0)) by done;
      wp_use (Hp ltac:(by apply is_red_cell)); intros ? ->; cbn [negb]; apply Hdone; right; inversion Hk; subst; eauto with rbtree.
    all: inversion_clear Hk as [|? ? ? ? HB Hk'|? ? ? ? HB Hk'| |];
      assert (red_child n (T false l a r) B a) as HcL by (exists l, r; auto);
      assert (red_child n B (T false l a r) a) as HcR by (exists l, r; auto);
      revert Hxs; inversion Hk' as [| | |? c' ? g U k' HU Hk2|? c' ? U g k' HU Hk2]; subst; intros Hxs.
    + apply (round_left s k' (T false l a r) p B g U n a c'); [eapply refocus; [exact Hr|done]|exact Hxs|done..].
    + apply (round_right s k' (T false l a r) p B g U n a c'); [eapply refocus; [exact Hr|done]|exact Hxs|done..].
    + apply (round_left s k' B p (T false l a r) g U n a c'); [eapply refocus; [exact Hr|done]|exact Hxs|done..].
    + apply (round_right s k' B p (T false l a r) g U n a c'); [eapply refocus; [exact Hr|done]|exact Hxs|done..].
Qed.

Lemma rb_insert_color_spec s k l a r n :
  rep s k (T false l a r) F → rb true n l → rb true n r → fits true n k → inorder (plug k (T false l a r)) = xs →
  wp (rb_insert_color s a) (λ s', ∃ t N, rep s' [] t F ∧ rb true N t ∧ inorder t = xs).
Proof.
  intros Hr Hl Hrr Hk Hxs. unfold rb_insert_color. apply wp_bind.
  eapply wp_mono.
  - eapply (wp_iter (inserting F xs) (rooted F xs) insert_round insert_round_spec _ (length k)).
    + by exists k, l, r, n.
    + pose proof (rep_size _ _ _ _ Hr). unfold fuel. lia.
  - intros s1 (t & Ht & (c & l' & a' & r' & N & -> & HN) & Hin). cbn beta.
    replace (top s1) with a' by (by destruct Ht as [_ ->]).
    eapply wp_mono; [by eapply set_black_spec|]. intros s2 H2. by exists (T true l' a' r'), N.
Qed.
End insertion.

(** ** Erasing *)
Definition blacken (t : tree) : tree := match t with E => E | T _ l a r => T true l a r end.
(** A subtree with one black node too few on every path, once its root is black. *)
Definition short (n : nat) (t : tree) : Prop :=
  rb true n t ∨ ∃ l a r, t = T false l a r ∧ rb true (S n) (T true l a r).
(** Where a node of colour [c] with children of black height [n] fits. *)
Definition fits_node (c : bool) (n : nat) (k : list frame) : Prop := if c then fits true (S n) k else fits false n k.

Lemma fits_weaken n k : fits false n k → fits true n k.
Proof. inversion 1; subst; eauto with rbtree. Qed.
Lemma fits_above n c p r k : fits true n (FL c p r :: k) → (∃ cr, rb cr n r ∧ (c = false → cr = true)) ∧ fits_node c n k.
Proof. inversion 1; subst; cbn; (split; [eexists; split; [eassumption|done]|done]). Qed.
Lemma fits_above_right n c l p k : fits true n (FR c l p :: k) → (∃ cl, rb cl n l ∧ (c = false → cl = true)) ∧ fits_node c n k.
Proof. inversion 1; subst; cbn; (split; [eexists; split; [eassumption|done]|done]). Qed.
Lemma rb_node_fits c n l a r k cl cr :
  fits_node c n k → rb cl n l → rb cr n r → (c = false → cl = true ∧ cr = true) → ∃ N, rb true N (plug k (T c l a r)).
Proof.
  destruct c; cbn; intros Hk Hl Hr Hc; eapply rb_plug; eauto with rbtree. destruct Hc as [-> ->]; [done|]. eauto with rbtree.
Qed.
Lemma root_in k : ∀ h, k ≠ [] → ∃ n, (root_of h k, n) ∈ around h k.
Proof.
  induction k as [|f k IH]; intros h; [done|]. intros _. destruct k as [|g k].
  - destruct f; cbn; eexists; rewrite !elem_of_app, elem_of_one; by left.
  - destruct (IH (fptr f)) as [n Hn]; [done|]. exists n. destruct f; cbn -[root_of around] in *; cbn [root_of around fptr] in *;
      rewrite !elem_of_app; right; right; exact Hn.
Qed.
Lemma rep_not_root s f k t F : rep s (f :: k) t F → ptr t ≠ top s.
Proof.
  intros [Hs ->]. destruct (root_in (f :: k) (ptr t)) as [n Hn]; [done|].
  destruct (sat_one s _ (root_of (ptr t) (f :: k)) n Hs) as [_ H0]; [in_cells|].
  destruct t as [|c l a r]; [done|]. intros E0. destruct Hs as [Hnd _ _].
  rewrite fmap_app in Hnd. apply NoDup_app in Hnd as (_ & Hd & _). apply (Hd a).
  - apply list_elem_of_fmap. exists (a, cell (up (f :: k)) c (ptr r) (ptr l)). split; [done|]. cbn [cells]. in_cells.
  - apply list_elem_of_fmap. exists (root_of a (f :: k), n). cbn [ptr] in *. split; [done|]. in_cells.
Qed.

Section erasure.
Context (F : cells_of) (xs : list Z).
Implicit Types (s : state) (k : list frame).

Definition erasing (d : nat) (x : state * Z * Z) : Prop :=
  ∃ s k t n, x = (s, ptr t, up k) ∧ rep s k t F ∧ short n t ∧ fits true (S n) k ∧
    d = (length k + if black t then 1 else 0)%nat ∧ inorder (plug k t) = xs.
Definition erased (x : state * Z) : Prop :=
  ∃ s k t N, x = (s, ptr t) ∧ rep s k t F ∧ rb true N (plug k (blacken t)) ∧ inorder (plug k t) = xs.
Let ends (d : nat) (r : state * Z * Z + state * Z) : Prop :=
  match r with inl x => ∃ m, (m < d)%nat ∧ erasing m x | inr x => erased x end.

(** The last case: a red nephew on the outer side. *)
Lemma erase_finish_left s k c t p x o y q z n cx d :
  rep s k (T c t p (T true x o (T false y q z))) F →
  rb true n t → rb cx n x → rb true n y → rb true n z → fits_node c (S n) k →
  inorder (plug k (T c t p (T true x o (T false y q z)))) = xs →
  wp (p' ← get s p; s ← rb_set_color s o (rb_color p'); s ← rb_set_black s p; o' ← get s o;
      s ← rb_set_black s (rb_right o'); s ← __rb_rotate_left s p; Some (inr (s, top s))) (ends d).
Proof.
  intros Hr Ht Hx Hy Hz Hk Hxs.
  apply wp_bind. eapply wp_node; [exact Hr|]. rewrite color_cell by (by eapply rep_up).
  wp_call (set_color_spec s (FR c t p :: k) true x o (T false y q z)). intros s1 H1.
  wp_call (set_black_spec s1 k c t p (T c x o (T false y q z))). intros s2 H2.
  apply wp_bind. eapply (wp_node s2 (FR true t p :: k)); [by eapply go_right|]. cbn [rb_right cell ptr].
  wp_call (set_black_spec s2 (FR c x o :: FR true t p :: k) false y q z). intros s3 H3.
  wp_call (rotate_left_spec s3 k true t p c x o (T true y q z)). intros s4 H4. apply wp_ret.
  destruct (rb_node_fits c (S n) (T true t p x) o (T true y q z) k true true) as [N HN]; [eauto with rbtree..|].
  apply (proj1 (rep_plug _ _ _ _)) in H4. set (u := plug k (T c (T true t p x) o (T true y q z))) in *.
  exists s4, [], u, N. destruct H4 as [Hs Htop]. rewrite Htop. split_and!; [done|done| |].
  - cbn. apply rb_black in HN as Hb. destruct u; cbn in *; by subst.
  - rewrite <-Hxs. unfold u. inorder.
Qed.
Lemma erase_finish_right s k c t p x o y q z n cx d :
  rep s k (T c (T true (T false y q z) o x) p t) F →
  rb true n t → rb cx n x → rb true n y → rb true n z → fits_node c (S n) k →
  inorder (plug k (T c (T true (T false y q z) o x) p t)) = xs →
  wp (p' ← get s p; s ← rb_set_color s o (rb_color p'); s ← rb_set_black s p; o' ← get s o;
      s ← rb_set_black s (rb_left o'); s ← __rb_rotate_right s p; Some (inr (s, top s))) (ends d).
Proof.
  intros Hr Ht Hx Hy Hz Hk Hxs.
  apply wp_bind. eapply wp_node; [exact Hr|]. rewrite color_cell by (by eapply rep_up).
  wp_call (set_color_spec s (FL c p t :: k) true (T false y q z) o x). intros s1 H1.
  wp_call (set_black_spec s1 k c (T c (T false y q z) o x) p t). intros s2 H2.
  apply wp_bind. eapply (wp_node s2 (FL true p t :: k)); [by eapply go_left|]. cbn [rb_left cell ptr].
  wp_call (set_black_spec s2 (FL c o x :: FL true p t :: k) false y q z). intros s3 H3.
  wp_call (rotate_right_spec s3 k true o c (T true y q z) x p t). intros s4 H4. apply wp_ret.
  destruct (rb_node_fits c (S n) (T true y q z) o (T true x p t) k true true) as [N HN]; [eauto with rbtree..|].
  apply (proj1 (rep_plug _ _ _ _)) in H4. set (u := plug k (T c (T true y q z) o (T true x p t))) in *.
  exists s4, [], u, N. destruct H4 as [Hs Htop]. rewrite Htop. split_and!; [done|done| |].
  - cbn. apply rb_black in HN as Hb. destruct u; cbn in *; by subst.
  - rewrite <-Hxs. unfold u. inorder.
Qed.

(** Both nephews black: the sibling becomes red, and the parent is next. *)
Lemma erase_up s k c u p n d :
  rep s k u F → ptr u = p → black u = c → rb true (S n) (blacken u) → fits_node c (S n) k → inorder (plug k u) = xs →
  (length k + (if c then 1 else 0) < d)%nat →
  wp (p' ← get s p; Some (inl (s, p, rb_parent p'))) (ends d).
Proof.
  intros Hr <- <- Hu Hk Hxs Hd. destruct u as [|c l a r]; [inversion Hu|]. cbn [black ptr] in *.
  apply wp_bind. eapply wp_node; [exact Hr|]. rewrite parent_cell by (by eapply rep_up). apply wp_ret.
  eexists. split; [exact Hd|]. exists s, k, (T c l a r). destruct c; cbn in Hk, Hu.
  - exists (S n). split_and!; [done|done|by left|done..].
  - exists n. split_and!; [done|done|right; by exists l, a, r|by apply fits_weaken|done..].
Qed.

(** The sibling is black. *)
Lemma erase_black_left s k c t p ol o or n cl cr d :
  rep s k (T c t p (T true ol o or)) F →
  rb true n t → rb cl n ol → rb cr n or → fits_node c (S n) k →
  inorder (plug k (T c t p (T true ol o or))) = xs → (length k + (if c then 1 else 0) < d)%nat →
  wp (o' ← get s o;
      bl ← black_or_null s (rb_left o'); br ← black_or_null s (rb_right o');
      if (bl && br) : bool then s ← rb_set_red s o; p' ← get s p; Some (inl (s, p, rb_parent p'))
      else
        '(s, other) ← (if br : bool then
                         s ← rb_set_black s (rb_left o'); s ← rb_set_red s o; s ← __rb_rotate_right s o;
                         p' ← get s p; Some (s, rb_right p')
                       else Some (s, o));
        p' ← get s p; s ← rb_set_color s other (rb_color p'); s ← rb_set_black s p;
        o' ← get s other; s ← rb_set_black s (rb_right o'); s ← __rb_rotate_left s p;
        Some (inr (s, top s))) (ends d).
Proof.
  intros Hr Ht Hl Hrr Hk Hxs Hd. pose proof (go_right _ _ _ _ _ _ _ Hr) as Ho.
  apply wp_bind. eapply wp_node; [exact Ho|]. cbn [rb_left rb_right cell].
  apply wp_bind. eapply wp_black_or_null; [by eapply go_left|]. cbn beta.
  apply wp_bind. eapply wp_black_or_null; [by eapply go_right|]. cbn beta.
  destruct (black or) eqn:Hbr; [destruct (black ol) eqn:Hbl|]; rewrite ?andb_false_r; cbn [andb].
  - apply (rb_true _ _ _ Hl) in Hbl. apply (rb_true _ _ _ Hrr) in Hbr.
    wp_call (set_red_spec s (FR c t p :: k) true ol o or). intros s1 H1.
    eapply (erase_up s1 k c (T c t p (T false ol o or)) p n); [by apply rep_right in H1|done|done| |done| |done].
    + cbn. eauto with rbtree.
    + rewrite <-Hxs. inorder.
  - destruct ol as [|cl' x ol y]; [done|]. cbn in Hbl. subst cl'. inversion_clear Hl as [|? ? ? ? Hl1 Hl2|].
    apply (rb_true _ _ _ Hrr) in Hbr. cbn [ptr]. apply wp_bind.
    wp_call (set_black_spec s (FL true o or :: FR c t p :: k) false x ol y). intros s1 H1.
    wp_call (set_red_spec s1 (FR c t p :: k) true (T true x ol y) o or). intros s2 H2.
    wp_call (rotate_right_spec s2 (FR c t p :: k) false ol true x y o or). intros s3 H3.
    apply rep_right in H3. apply wp_bind. eapply wp_node; [exact H3|]. apply wp_ret. cbn [rb_right cell ptr].
    eapply (erase_finish_left s3 k c t p x ol y o or n); eauto. rewrite <-Hxs. inorder.
  - destruct or as [|cr' y q z]; [done|]. cbn in Hbr. subst cr'. inversion_clear Hrr as [|? ? ? ? Hr1 Hr2|].
    apply wp_bind, wp_ret. eapply erase_finish_left; eauto.
Qed.
Lemma erase_black_right s k c t p ol o or n cl cr d :
  rep s k (T c (T true ol o or) p t) F →
  rb true n t → rb cl n ol → rb cr n or → fits_node c (S n) k →
  inorder (plug k (T c (T true ol o or) p t)) = xs → (length k + (if c then 1 else 0) < d)%nat →
  wp (o' ← get s o;
      bl ← black_or_null s (rb_left o'); br ← black_or_null s (rb_right o');
      if (bl && br) : bool then s ← rb_set_red s o; p' ← get s p; Some (inl (s, p, rb_parent p'))
      else
        '(s, other) ← (if bl : bool then
                         s ← rb_set_black s (rb_right o'); s ← rb_set_red s o; s ← __rb_rotate_left s o;
                         p' ← get s p; Some (s, rb_left p')
                       else Some (s, o));
        p' ← get s p; s ← rb_set_color s other (rb_color p'); s ← rb_set_black s p;
        o' ← get s other; s ← rb_set_black s (rb_left o'); s ← __rb_rotate_right s p;
        Some (inr (s, top s))) (ends d).
Proof.
  intros Hr Ht Hl Hrr Hk Hxs Hd. pose proof (go_left _ _ _ _ _ _ _ Hr) as Ho.
  apply wp_bind. eapply wp_node; [exact Ho|]. cbn [rb_left rb_right cell].
  apply wp_bind. eapply wp_black_or_null; [by eapply go_left|]. cbn beta.
  apply wp_bind. eapply wp_black_or_null; [by eapply go_right|]. cbn beta.
  destruct (black ol) eqn:Hbl; [destruct (black or) eqn:Hbr|]; cbn [andb].
  - apply (rb_true _ _ _ Hl) in Hbl. apply (rb_true _ _ _ Hrr) in Hbr.
    wp_call (set_red_spec s (FL c p t :: k) true ol o or). intros s1 H1.
    eapply (erase_up s1 k c (T c (T false ol o or) p t) p n); [by apply rep_left in H1|done|done| |done| |done].
    + cbn. eauto with rbtree.
    + rewrite <-Hxs. inorder.
  - destruct or as [|cr' x or y]; [done|]. cbn in Hbr. subst cr'. inversion_clear Hrr as [|? ? ? ? Hr1 Hr2|].
    apply (rb_true _ _ _ Hl) in Hbl. cbn [ptr]. apply wp_bind.
    wp_call (set_black_spec s (FR true ol o :: FL c p t :: k) false x or y). intros s1 H1.
    wp_call (set_red_spec s1 (FL c p t :: k) true ol o (T true x or y)). intros s2 H2.
    wp_call (rotate_left_spec s2 (FL c p t :: k) false ol o true x or y). intros s3 H3.
    apply rep_left in H3. apply wp_bind. eapply wp_node; [exact H3|]. apply wp_ret. cbn [rb_left cell ptr].
    eapply (erase_finish_right s3 k c t p y or ol o x n); eauto. rewrite <-Hxs. inorder.
  - destruct ol as [|cl' y q z]; [done|]. cbn in Hbl. subst cl'. inversion_clear Hl as [|? ? ? ? Hl1 Hl2|].
    apply wp_bind, wp_ret. eapply erase_finish_right; eauto.
Qed.
Lemma erase_left s k c t p O n :
  rep s (FL c p O :: k) t F → rb true n t → fits true (S n) (FL c p O :: k) →
  inorder (plug (FL c p O :: k) t) = xs → black t = true →
  wp (erase_round (s, ptr t, p)) (ends (S (length k) + 1)).
Proof.
  intros Hr Ht Hk Hxs Hb. unfold erase_round.
  apply wp_bind. eapply wp_black_or_null; [exact Hr|]. rewrite Hb.
  rewrite (proj2 (Z.eqb_neq (ptr t) (top s))) by (by eapply rep_not_root). cbn [andb negb].
  apply wp_bind. eapply (wp_parent s (FL c p O)); [exact Hr|]. cbn [rb_left rb_right cell]. rewrite Z.eqb_refl.
  apply fits_above in Hk as [(co & HO & Hc) Hk]. apply rep_left in Hr. pose proof (go_right _ _ _ _ _ _ _ Hr) as Ho.
  destruct O as [|co' ol o or]; [inversion HO|]. cbn [ptr].
  apply wp_bind. eapply wp_node; [exact Ho|]. rewrite is_red_cell by (by eapply rep_up). destruct co'; cbn [negb].
  - inversion_clear HO as [| |? ? ? ? ? ? Hol Hor]. apply wp_bind, wp_ret.
    eapply (erase_black_left s k c t p ol o or n); eauto. destruct c; lia.
  - destruct c; [|specialize (Hc eq_refl); subst co; inversion HO]. inversion_clear HO as [|? ? ? ? Hol Hor|].
    apply wp_bind. wp_call (set_black_spec s (FR true t p :: k) false ol o or). intros s1 H1.
    wp_call (set_red_spec s1 k true t p (T true ol o or)). intros s2 H2.
    wp_call (rotate_left_spec s2 k false t p true ol o or). intros s3 H3.
    apply go_left in H3. apply wp_bind. eapply wp_node; [exact H3|]. apply wp_ret. cbn [rb_right cell].
    destruct ol as [|[] x ol y]; inversion_clear Hol as [| |? ? ? ? ? ? Hx Hy]. cbn [ptr].
    eapply (erase_black_left s3 (FL true o or :: k) false t p x ol y n); eauto.
    + cbn. eauto with rbtree.
    + rewrite <-Hxs. inorder.
    + cbn. lia.
Qed.
Lemma erase_right s k c t p O n :
  rep s (FR c O p :: k) t F → rb true n t → fits true (S n) (FR c O p :: k) →
  inorder (plug (FR c O p :: k) t) = xs → black t = true →
  wp (erase_round (s, ptr t, p)) (ends (S (length k) + 1)).
Proof.
  intros Hr Ht Hk Hxs Hb. unfold erase_round.
  apply wp_bind. eapply wp_black_or_null; [exact Hr|]. rewrite Hb.
  rewrite (proj2 (Z.eqb_neq (ptr t) (top s))) by (by eapply rep_not_root). cbn [andb negb].
  apply wp_bind. eapply (wp_parent s (FR c O p)); [exact Hr|]. cbn [rb_left rb_right cell].
  apply fits_above_right in Hk as [(co & HO & Hc) Hk]. apply rep_right in Hr. pose proof (go_left _ _ _ _ _ _ _ Hr) as Ho.
  assert (O ≠ E) as Hne by (intros ->; inversion HO).
  rewrite (proj2 (Z.eqb_neq (ptr O) (ptr t))) by (by eapply rep_ne_right).
  destruct O as [|co' ol o or]; [done|]. cbn [ptr].
  apply wp_bind. eapply wp_node; [exact Ho|]. rewrite is_red_cell by (by eapply rep_up). destruct co'; cbn [negb].
  - inversion_clear HO as [| |? ? ? ? ? ? Hol Hor]. apply wp_bind, wp_ret.
    eapply (erase_black_right s k c t p ol o or n); eauto. destruct c; lia.
  - destruct c; [|specialize (Hc eq_refl); subst co; inversion HO]. inversion_clear HO as [|? ? ? ? Hol Hor|].
    apply wp_bind. wp_call (set_black_spec s (FL true p t :: k) false ol o or). intros s1 H1.
    wp_call (set_red_spec s1 k true (T true ol o or) p t). intros s2 H2.
    wp_call (rotate_right_spec s2 k false o true ol or p t). intros s3 H3.
    apply go_right in H3. apply wp_bind. eapply wp_node; [exact H3|]. apply wp_ret. cbn [rb_left cell].
    destruct or as [|[] x or y]; inversion_clear Hor as [| |? ? ? ? ? ? Hx Hy]. cbn [ptr].
    eapply (erase_black_right s3 (FR true ol o :: k) false t p x or y n); eauto.
    + cbn. eauto with rbtree.
    + rewrite <-Hxs. inorder.
    + cbn. lia.
Qed.

Lemma erase_round_spec d x : erasing d x → wp (erase_round x) (ends d).
Proof.
  intros (s & k & t & n & -> & Hr & Hsh & Hk & -> & Hxs). destruct Hsh as [Ht|(l & a & r & -> & Ht)].
  - pose proof (rb_black _ _ Ht) as Hb. rewrite Hb. destruct k as [|f k].
    + unfold erase_round. apply wp_bind. eapply wp_black_or_null; [exact Hr|]. rewrite Hb.
      replace (top s) with (ptr t) by (by destruct Hr as [_ ->]). rewrite Z.eqb_refl. apply wp_ret.
      exists s, [], t, n. split_and!; [done|done| |done]. cbn. by destruct t; cbn in *; subst.
    + destruct f; [by eapply erase_left|by eapply erase_right].
  - unfold erase_round. apply wp_bind. eapply wp_black_or_null; [exact Hr|]. cbn [black andb negb]. apply wp_ret.
    destruct (rb_plug k _ _ _ Hk Ht) as [N HN]. by exists s, k, (T false l a r), N.
Qed.
Lemma erase_color_spec s k t n :
  rep s k t F → short n t → fits true (S n) k → inorder (plug k t) = xs →
  wp (__rb_erase_color s (ptr t) (up k)) (λ s', ∃ t' N, rep s' [] t' F ∧ rb true N t' ∧ inorder t' = xs).
Proof.
  intros Hr Hsh Hk Hxs. unfold __rb_erase_color. apply wp_bind. eapply wp_mono.
  - eapply (wp_iter erasing erased erase_round erase_round_spec).
    + by exists s, k, t, n.
    + pose proof (rep_size _ _ _ _ Hr). unfold fuel. destruct (black t); lia.
  - intros ? (s1 & k1 & t1 & N & -> & H1 & HN & Hin). cbn beta iota.
    destruct t1 as [|c l a r]; cbn [ptr blacken] in *.
    + rewrite truthy_0. apply wp_ret. exists (plug k1 E), N. split_and!; [by apply (proj1 (rep_plug _ _ _ _))|done|done].
    + rewrite truthy_true by (by eapply rep_top). eapply wp_mono; [by eapply set_black_spec|]. intros s2 H2.
      exists (plug k1 (T true l a r)), N. split_and!; [by apply (proj1 (rep_plug _ _ _ _))|done|]. rewrite <-Hin. inorder.
Qed.
End erasure.

(** ** Finding and removing a node *)
Lemma plug_app p k t : plug (p ++ k) t = plug k (plug p t).
Proof. revert t. induction p as [|[] p IH]; intros t; cbn; auto. Qed.
Lemma before_app p k : before (p ++ k) = before k ++ before p.
Proof. induction p as [|[] p IH]; cbn; [by rewrite app_nil_r|done|]. by rewrite IH, !app_assoc. Qed.
Lemma after_app p k : after (p ++ k) = after p ++ after k.
Proof. induction p as [|[] p IH]; cbn; [done| |done]. by rewrite IH, !app_assoc. Qed.
Lemma locate t : ∀ xs1 a xs2, inorder t = xs1 ++ a :: xs2 →
  ∃ k c l r, t = plug k (T c l a r) ∧ xs1 = before k ++ inorder l ∧ xs2 = inorder r ++ after k.
Proof.
  induction t as [|c l IHl b r IHr]; intros xs1 a xs2 Heq; cbn in Heq; [by destruct xs1|].
  apply app_eq_inv in Heq as [(ys & Hl & Hr)|(ys & -> & Hr)]; destruct ys as [|y ys]; cbn in Hr; injection Hr as E1 E2; subst.
  - exists [], c, l, r. rewrite app_nil_r in Hl. subst. cbn. by rewrite app_nil_r.
  - destruct (IHl _ _ _ Hl) as (k & c' & l' & r' & -> & -> & ->). exists (k ++ [FL c b r]), c', l', r'.
    rewrite plug_app, before_app, after_app. cbn. by rewrite app_nil_r, <-app_assoc.
  - exists [], c, l, r. cbn. by rewrite !app_nil_r.
  - destruct (IHr _ _ _ E2) as (k & c' & l' & r' & -> & -> & ->). exists (k ++ [FR c l y]), c', l', r'.
    rewrite plug_app, before_app, after_app. cbn. by rewrite app_nil_r, <-!app_assoc.
Qed.
(** The converse of [rb_plug]. *)
Lemma unplug k : ∀ c N t, rb c N (plug k t) → ∃ c' n, rb c' n t ∧ (c = true → fits c' n k).
Proof.
  induction k as [|f k IH]; intros c N t Ht; cbn in Ht; [exists c, N; split; [done|intros ->; constructor]|].
  destruct f as [cf a r|cf l a]; apply IH in Ht as (c' & n & Ht & Hk); inversion Ht; subst; eexists _, _; (split; [eassumption|]);
    intros Hc; specialize (Hk Hc); eauto with rbtree.
Qed.
Lemma fits_rename p c n cf l a b k : fits c n (p ++ FR cf l a :: k) → fits c n (p ++ FR cf l b :: k).
Proof.
  revert c n. induction p as [|f p IH]; intros c n; cbn; [inversion 1; subst; eauto with rbtree|].
  inversion 1; subst; eauto with rbtree.
Qed.
Lemma short_of c n t : rb c n t → short n t.
Proof. inversion 1; subst; [by left|right; eauto 6 with rbtree|by left]. Qed.

(** The number of nodes bounds every walk down. *)
Fixpoint tsize (t : tree) : nat := match t with E => 0 | T _ l _ r => S (tsize l + tsize r) end.
Lemma cells_length p t : length (cells p t) = tsize t.
Proof. revert p. induction t as [|c l IHl a r IHr]; intros p; cbn; [done|]. by rewrite !length_app, length_one, IHl, IHr. Qed.
Lemma rep_tsize s k t F : rep s k t F → (tsize t ≤ size (mem s))%nat.
Proof.
  intros [[Hn _ Hg] _]. transitivity (length (cells (up k) t ++ around (ptr t) k ++ F)).
  - rewrite length_app, cells_length. lia.
  - rewrite <-(length_fmap fst), <-(size_list_to_set (C := gset Z)), <-(size_dom (D := gset Z)) by done.
    apply subseteq_size. intros a Ha%elem_of_list_to_set. apply list_elem_of_fmap in Ha as ([b n] & -> & Hin).
    apply elem_of_dom. eexists. by apply Hg.
Qed.
Definition is_left (f : frame) : Prop := match f with FL _ _ _ => True | FR _ _ _ => False end.
Definition is_right (f : frame) : Prop := match f with FL _ _ _ => False | FR _ _ _ => True end.

Lemma leftmost_spec s k t F : rep s k t F → t ≠ E →
  wp (leftmost s (ptr t)) (λ b, ∃ p c r, t = plug p (T c E b r) ∧ Forall is_left p).
Proof.
  intros Hr Hne. assert (∃ c0 l0 a0 r0, t = T c0 l0 a0 r0) as (c0 & l0 & a0 & r0 & Et) by (destruct t; [done|eauto]).
  replace (ptr t) with a0 by (by rewrite Et).
  eapply (wp_iter (λ m n, ∃ p c l r, t = plug p (T c l n r) ∧ Forall is_left p ∧ m = tsize l)) with (n := tsize l0).
  - intros m n (p & c & l & r & -> & Hp & ->). apply wp_bind.
    eapply (wp_node s (p ++ k)); [eapply refocus; [exact Hr|by rewrite plug_app]|]. cbn [rb_left cell]. apply wp_ret.
    destruct l as [|c' l n' r']; cbn [ptr].
    + rewrite truthy_0. by exists p, c, r.
    + rewrite truthy_true.
      2: { apply (rep_top s (FL c n r :: p ++ k) c' l n' r' F). eapply refocus; [exact Hr|]. cbn. by rewrite plug_app. }
      exists (tsize l). split; [cbn; lia|]. exists (FL c n r :: p), c', l, r'. split_and!; [done|by constructor|done].
  - by exists [], c0, l0, r0.
  - apply rep_tsize in Hr. unfold fuel. rewrite Et in Hr. cbn [tsize] in Hr. lia.
Qed.

(** What the first part of [rb_erase] leaves: [t] at [k], the erased cell apart,
    and the colour of the place that was lost. *)
Definition cut (F : cells_of) (a : Z) (k : list frame) (t : tree) (c : bool) (x : state * Z * Z * Z) : Prop :=
  ∃ s n, x = (s, ptr t, up k, cz c) ∧ rep s k t (one (a, n) ++ F).

Lemma erase_single_spec s k c l a r x F :
  rep s k (T c l a r) F → (l = E ∧ r = x) ∨ (l = x ∧ r = E) → wp (erase_single s a (ptr x)) (cut F a k x c).
Proof.
  intros Hr Hx. pose proof (rep_up _ _ _ _ Hr) as Hup. pose proof (rep_ptr _ _ _ _ Hr) as Ha. cbn [ptr] in Ha.
  unfold erase_single. apply wp_bind. eapply wp_node; [exact Hr|]. rewrite parent_cell, color_cell by done.
  destruct Hr as [Hs Ht]. cbn [ptr] in Ht. set (n := cell (up k) c (ptr r) (ptr l)).
  assert (sat s (one (a, n) ++ cells a x ++ around a k ++ F)) as Hs'.
  { destruct Hx as [[-> ->]|[-> ->]]; cbn in Hs; (eapply sat_perm; [|exact Hs]); perm. }
  clear Hs. next_write ltac:(eapply wp_adopt). next_write ltac:(eapply wp_relink_left).
  { congruence. }
  apply wp_ret. eexists _, _. split; [done|]. split; [|done]. eapply sat_perm; [|eassumption]. perm.
Qed.

(** A path down from a node at [p]. *)
Definition up_from (p : Z) (k : list frame) : Z := match k with [] => p | f :: _ => fptr f end.
Fixpoint around_from (p h : Z) (k : list frame) : cells_of :=
  match k with
  | [] => []
  | FL c a r :: k => one (a, cell (up_from p k) c (ptr r) h) ++ cells a r ++ around_from p a k
  | FR c l a :: k => one (a, cell (up_from p k) c h (ptr l)) ++ cells a l ++ around_from p a k
  end.
Lemma cells_path p k : ∀ t, cells p (plug k t) ≡ₚ cells (up_from p k) t ++ around_from p (ptr t) k.
Proof. induction k as [|[c a r|c l a] k IH]; intros t; cbn; [by rewrite app_nil_r|..]; rewrite IH; cbn; perm. Qed.
Lemma wp_adopt' s L L' p t q (Q : state → Prop) :
  sat s L → L ≡ₚ cells p t ++ L' → is_ptr p → is_ptr q → t ≠ E →
  (∀ s', sat s' (cells q t ++ L') → top s' = top s → Q s') → wp (rb_set_parent s (ptr t) q) Q.
Proof.
  intros Hs Hp Hpp Hq Hne HQ. pose proof (wp_adopt s L L' p t q Q Hs Hp Hpp Hq HQ) as H. unfold adopt in H.
  destruct t as [|c l a r]; [done|]. cbn [ptr] in *. rewrite truthy_true in H; [done|].
  eapply (sat_one s L a); [done|]. rewrite Hp. cbn. in_cells.
Qed.

(** The successor [b] of [old], with a path [path] between them, is unlinked and
    gets the right subtree. *)
Lemma swap_unlink s k c l a path cs b rs F (r := plug path (T cs E b rs)) (r' := plug path rs) n :
  Forall is_left path →
  sat s (one (a, cell (up k) c (ptr r) (ptr l)) ++ cells a l ++ cells a r ++ around b k ++ F) → n = up_from a path →
  wp (if n =? a then Some (s, b)
      else s ← adopt s (ptr rs) n; s ← set_left s n (ptr rs);
           o ← get s a; s ← set_right s b (rb_right o); s ← rb_set_parent s (rb_right o) b;
           Some (s, n))
     (λ x, x.2 = up (path ++ FR c l b :: k) ∧ top x.1 = top s ∧ ∃ pc m,
        is_ptr pc ∧ sat x.1 (one (a, cell (up k) c m (ptr l)) ++ cells a l ++ one (b, cell pc cs (ptr r') 0) ++ cells b r' ++ around b k ++ F)).
Proof.
  intros Hl Hs ->. assert (is_ptr a) by ptrs. destruct path as [|[cq q sq|] path]; cbn [up_from fptr up app].
  - rewrite Z.eqb_refl. apply wp_ret. split_and!; [done|done|]. exists a, b. split; [done|]. eapply sat_perm; [|exact Hs]. cbn. perm.
  - assert (sat s (one (a, cell (up k) c (ptr r) (ptr l)) ++ cells a l ++ one (b, cell q cs (ptr rs) 0) ++ cells b rs ++
      one (q, cell (up_from a path) cq (ptr sq) b) ++ cells q sq ++ around_from a q path ++ around b k ++ F)) as Hs'.
    { eapply sat_perm; [|exact Hs]. unfold r. rewrite (cells_path a (FL cq q sq :: path)). cbn. perm. }
    clear Hs. assert (is_ptr b) by ptrs. assert (is_ptr q) by ptrs.
    assert (q ≠ a) as Hqa by (eapply (sat_ne _ _ _ q _ a); [exact Hs'|perm_rest]).
    rewrite (proj2 (Z.eqb_neq q a)) by done.
    next_write ltac:(eapply wp_adopt). next_write ltac:(eapply wp_set_left). step_read. cbn [rb_right cell].
    next_write ltac:(eapply wp_set_right).
    assert (ptr r = ptr r') as Hrr by (unfold r, r'; cbn; by rewrite !root_plug).
    rewrite Hrr.
    assert (sat s2 (one (b, cell q cs (ptr r') 0) ++ one (a, cell (up k) c (ptr r') (ptr l)) ++ cells a l ++ cells a r' ++ around b k ++ F)) as Hs3.
    { rewrite Hrr in *. eapply sat_perm; [|eassumption]. unfold r'. rewrite (cells_path a (FL cq q sq :: path)). cbn. perm. }
    assert (r' ≠ E) as Hne by (by apply (plug_ne path (T cq rs q sq))).
    next_write ltac:(eapply wp_adopt'). { done. }
    apply wp_ret. cbn [fst snd]. split_and!; [done|congruence|]. exists q, (ptr r'). split; [done|].
    eapply sat_perm; [|eassumption]. perm.
  - by apply Forall_cons in Hl as [? _].
Qed.
Lemma erase_swap_spec s k c l a r F :
  rep s k (T c l a r) F → l ≠ E → r ≠ E →
  wp (erase_swap s a) (λ x, ∃ path cs b rs, r = plug path (T cs E b rs) ∧ Forall is_left path ∧
    cut F a (path ++ FR c l b :: k) rs cs x).
Proof.
  intros Hr Hl Hrr. pose proof (rep_up _ _ _ _ Hr) as Hup. unfold erase_swap.
  apply wp_bind. eapply wp_node; [exact Hr|]. rewrite parent_cell by done. cbn [rb_right cell].
  apply wp_bind. eapply wp_mono; [eapply leftmost_spec; [by eapply go_right|done]|]. intros b (path & cs & rs & Er & Hpath). cbn beta.
  destruct Hr as [Hs Ht]. cbn [cells ptr] in Hs, Ht. assert (is_ptr a) by ptrs.
  next_write ltac:(eapply wp_relink_left). { done. }
  rewrite Er in Hs0. assert (sat s0 (one (b, cell (up_from a path) cs (ptr rs) 0) ++ cells b rs ++ around_from a b path ++
    one (a, cell (up k) c (ptr r) (ptr l)) ++ cells a l ++ around b k ++ F)) as Hs1.
  { eapply sat_perm; [|exact Hs0]. rewrite (cells_path a path). cbn. rewrite Er. perm. }
  assert (is_ptr b) by (clear Hs0; ptrs). assert (is_ptr (up_from a path)) as Huf.
  { destruct path as [|[cq q sq|] path]; cbn; [done| |by apply Forall_cons in Hpath as [? _]].
    cbn in Hs1. eapply (sat_one s0 _ q _ Hs1). in_cells. }
  step_read. cbn [rb_right cell]. rewrite parent_cell, color_cell by done. clear Hs1.
  apply wp_bind. eapply wp_mono.
  { eapply (swap_unlink s0 k c l a path cs b rs F); [done| |done]. eapply sat_perm; [|exact Hs0]. rewrite <-Er. perm. }
  intros [s1 par] (Hpar & Htop & pc & m & Hpc & Hs1). cbn [fst snd] in *. subst par. clear Hs0.
  set (r' := plug path rs) in *. step_read. cbn [rb_left rb_parent_color cell].
  apply wp_bind. eapply wp_upd; [exact Hs1|rewrite one_eq; perm_rest|]. intros s2 Hs2 Ht2. cbn in Hs2. unfold with_color in Hs2. cbn in Hs2.
  rewrite one_eq in Hs2. fold (cell (up k) c (ptr r') 0) in Hs2. clear Hs1.
  next_write ltac:(eapply wp_set_left). next_write ltac:(eapply wp_adopt'). { done. }
  apply wp_ret. exists path, cs, b, rs. split_and!; [done|done|]. eexists _, _. split; [done|].
  eapply (refocus _ k (T c l b r')); [|by rewrite plug_app]. split; [|cbn in *; congruence]. cbn [cells ptr].
  eapply sat_perm; [|eassumption]. perm.
Qed.

(** The memory has a red-black tree with the nodes [xs] in order, besides [F]. *)
Definition rbtree (s : state) (xs : list Z) (F : cells_of) : Prop :=
  ∃ t N, rep s [] t F ∧ rb true N t ∧ inorder t = xs.

(** The end of [rb_erase]: rebalance if a black node was lost. *)
Lemma cut_done F a k t c n x xs :
  cut F a k t c x → rb (if c then black t else true) n t → fits_node c n k → inorder (plug k t) = xs →
  wp (let '(s, child, parent, color) := x in if color =? RB_BLACK then __rb_erase_color s child parent else Some s)
     (λ s', ∃ m, rbtree s' xs (one (a, m) ++ F)).
Proof.
  intros (s & m & -> & Hr) Ht Hk Hxs. destruct c; cbn.
  - eapply wp_mono; [eapply erase_color_spec; [exact Hr|by eapply short_of|exact Hk|exact Hxs]|]. intros s' Hs'. by exists m.
  - apply wp_ret. exists m. destruct (rb_plug k true n t (fits_weaken _ _ Hk) Ht) as [N HN].
    exists (plug k t), N. split_and!; [by apply (proj1 (rep_plug _ _ _ _))|done|done].
Qed.
Lemma rb_node_inv c' n c l a r :
  rb c' n (T c l a r) → ∃ cl cr m, rb cl m l ∧ rb cr m r ∧ (c = false → cl = true ∧ cr = true) ∧ ∀ k, fits c' n k → fits_node c m k.
Proof.
  inversion 1; subst; eexists _, _, _; (split; [eassumption|]); (split; [eassumption|]); (split; [done|]); cbn; auto.
Qed.
Lemma rb_child c cl n t : rb cl n t → (c = false → cl = true) → rb (if c then black t else true) n t.
Proof. intros Ht Hc. destruct c; [destruct Ht; cbn; eauto with rbtree|]. by rewrite Hc in Ht. Qed.

Lemma before_lefts p : Forall is_left p → before p = [].
Proof. induction 1 as [|[] p Hf Hp IH]; by cbn. Qed.
Lemma after_rights p : Forall is_right p → after p = [].
Proof. induction 1 as [|[] p Hf Hp IH]; by cbn. Qed.

Lemma rb_erase_spec s xs1 a xs2 F :
  rbtree s (xs1 ++ a :: xs2) F → wp (rb_erase s a) (λ s', ∃ m, rbtree s' (xs1 ++ xs2) (one (a, m) ++ F)).
Proof.
  intros (t & N & Hr & HN & Hin). destruct (locate t _ _ _ Hin) as (k & c & l & r & -> & -> & ->). clear Hin.
  apply (rep_plug s k) in Hr. destruct (unplug _ _ _ _ HN) as (c' & n & Ht & Hk). specialize (Hk eq_refl).
  destruct (rb_node_inv _ _ _ _ _ _ Ht) as (cl & cr & m & Hl & Hrr & Hc & Hf). apply Hf in Hk. clear Ht Hf.
  unfold rb_erase. apply wp_bind. eapply wp_node; [exact Hr|]. cbn [rb_left rb_right cell].
  destruct l as [|ccl ll la lr]; [|destruct r as [|ccr rl ra rrr]]; cbn [ptr].
  - rewrite truthy_0. cbn [negb]. apply wp_bind. eapply wp_mono; [eapply erase_single_spec; [exact Hr|by left]|]. intros x Hx.
    eapply cut_done; [exact Hx|eapply rb_child; [done|naive_solver]|done|]. rewrite inorder_plug. cbn. by rewrite app_nil_r.
  - rewrite truthy_true by (by eapply rep_top, go_left). rewrite truthy_0. cbn [negb].
    apply wp_bind. eapply wp_mono; [eapply (erase_single_spec s k c _ a E (T ccl ll la lr)); [exact Hr|by right]|]. intros x Hx.
    eapply cut_done; [exact Hx|eapply rb_child; [done|naive_solver]|done|]. rewrite inorder_plug. cbn. by rewrite <-?app_assoc.
  - rewrite truthy_true by (by eapply rep_top, go_left). rewrite truthy_true by (by eapply rep_top, go_right). cbn [negb].
    apply wp_bind. eapply wp_mono; [by eapply erase_swap_spec|].
    intros x (path & cs & b & rs & Er & Hpath & Hx). set (l := T ccl ll la lr) in *. rewrite Er in *.
    change (plug k (T c l a (plug path (T cs E b rs)))) with (plug (FR c l a :: k) (plug path (T cs E b rs))) in HN.
    rewrite <-plug_app in HN. destruct (unplug _ _ _ _ HN) as (c1 & n1 & Ht & Hk1). specialize (Hk1 eq_refl).
    destruct (rb_node_inv _ _ _ _ _ _ Ht) as (cl1 & cr1 & m1 & _ & Hrs & Hc1 & Hf). apply Hf in Hk1.
    eapply cut_done; [exact Hx|eapply rb_child; [done|naive_solver]| |].
    + unfold fits_node in *. destruct cs; by eapply fits_rename.
    + rewrite !inorder_plug, before_app, after_app. cbn -[l]. rewrite (before_lefts path) by done. do 3 (rewrite <-?app_assoc; cbn -[l]). done.
Qed.

(** ** Linking a new node *)
Definition link_of (k : list frame) : link :=
  match k with [] => LRoot | FL _ a _ :: _ => LLeft a | FR _ _ a :: _ => LRight a end.
Lemma link_insert_spec s k a m F N :
  rep s k E (one (a, m) ++ F) → rb true N (plug k E) →
  wp (s ← rb_link_node s a (up k) (link_of k); rb_insert_color s a) (λ s', rbtree s' (before k ++ a :: after k) F).
Proof.
  intros [Hs Ht] HN. cbn [cells ptr app] in Hs, Ht. assert (is_ptr (up k)) by ptrs. apply wp_bind. eapply wp_mono with (P := λ s', rep s' k (T false E a E) F).
  - unfold rb_link_node. apply wp_bind. eapply wp_upd; [exact Hs|rewrite one_eq; perm_rest|]. intros s1 Hs1 Ht1. clear Hs.
    replace {| rb_parent_color := up k; rb_right := 0; rb_left := 0 |} with (cell (up k) false 0 0) in Hs1
      by (unfold cell; f_equal; cbn; unfold RB_RED; lia).
    rewrite one_eq in Hs1. destruct k as [|[c p r|c l p] k]; cbn [link_of set_link up fptr around root_of] in *.
    + apply wp_ret. split; [|done]. cbn. by apply sat_top.
    + step_write ltac:(eapply wp_set_left). split; [|cbn; congruence]. cbn. eapply sat_perm; [|eassumption]. perm.
    + step_write ltac:(eapply wp_set_right). split; [|cbn; congruence]. cbn. eapply sat_perm; [|eassumption]. perm.
  - intros s' Hr. destruct (unplug _ _ _ _ HN) as (c & n & HE & Hk). specialize (Hk eq_refl). inversion HE; subst.
    eapply rb_insert_color_spec; [exact Hr|constructor|constructor|exact Hk|]. by rewrite inorder_plug.
Qed.

(** ** Walking the tree *)
Lemma rightmost_spec s k t F : rep s k t F → t ≠ E →
  wp (rightmost s (ptr t)) (λ b, ∃ p c l, t = plug p (T c l b E) ∧ Forall is_right p).
Proof.
  intros Hr Hne. assert (∃ c0 l0 a0 r0, t = T c0 l0 a0 r0) as (c0 & l0 & a0 & r0 & Et) by (destruct t; [done|eauto]).
  replace (ptr t) with a0 by (by rewrite Et).
  eapply (wp_iter (λ m n, ∃ p c l r, t = plug p (T c l n r) ∧ Forall is_right p ∧ m = tsize r)) with (n := tsize r0).
  - intros m n (p & c & l & r & -> & Hp & ->). apply wp_bind.
    eapply (wp_node s (p ++ k)); [eapply refocus; [exact Hr|by rewrite plug_app]|]. cbn [rb_right cell]. apply wp_ret.
    destruct r as [|c' l' n' r]; cbn [ptr].
    + rewrite truthy_0. by exists p, c, l.
    + rewrite truthy_true.
      2: { apply (rep_top s (FR c l n :: p ++ k) c' l' n' r F). eapply refocus; [exact Hr|]. cbn. by rewrite plug_app. }
      exists (tsize r). split; [cbn; lia|]. exists (FR c l n :: p), c', l', r. split_and!; [done|by constructor|done].
  - by exists [], c0, l0, r0.
  - apply rep_tsize in Hr. unfold fuel. rewrite Et in Hr. cbn [tsize] in Hr. lia.
Qed.

(** The parent of a node, and its test for having one. *)
Lemma wp_up s k t F (Q : rb_node → Prop) :
  rep s k t F → t ≠ E → (∀ n, rb_parent n = up k → Q n) → wp (get s (ptr t)) Q.
Proof.
  intros Hr Hne HQ. destruct t as [|c l a r]; [done|]. eapply wp_node; [exact Hr|]. apply HQ, parent_cell. by eapply rep_up.
Qed.
Lemma climb_right_spec s k t F : rep s k t F → t ≠ E → wp (climb_right s (ptr t)) (λ b, b = hd 0 (after k)).
Proof.
  intros Hr Hne.
  eapply (wp_iter (λ m n, ∃ p q, k = p ++ q ∧ n = ptr (plug p t) ∧ Forall is_right p ∧ m = length q)) with (n := length k).
  - intros m n (p & q & -> & -> & Hp & ->). assert (rep s q (plug p t) F) as Hq by (eapply refocus; [exact Hr|by rewrite plug_app]).
    apply wp_bind. eapply wp_up; [exact Hq|by apply plug_ne|]. intros n Hn. rewrite Hn, after_app, after_rights by done.
    destruct q as [|f q]; cbn [up app after hd].
    + rewrite truthy_0. by apply wp_ret.
    + rewrite truthy_true by (by eapply rep_frame). apply wp_bind. eapply wp_parent; [exact Hq|].
      apply wp_ret. destruct f as [c b r|c l b]; cbn [rb_right cell fptr].
      * rewrite (proj2 (Z.eqb_neq _ _)); [done|]. eapply rep_ne_right; [exact Hq|by apply plug_ne].
      * rewrite Z.eqb_refl. exists (length q). split; [cbn; lia|]. exists (p ++ [FR c l b]), q. rewrite <-app_assoc, plug_app.
        split_and!; [done|done|apply Forall_app; split; [done|by repeat constructor]|done].
  - by exists [], k.
  - apply rep_size in Hr. unfold fuel. lia.
Qed.
Lemma climb_left_spec s k t F : rep s k t F → t ≠ E → wp (climb_left s (ptr t)) (λ b, b = default 0 (last (before k))).
Proof.
  intros Hr Hne.
  eapply (wp_iter (λ m n, ∃ p q, k = p ++ q ∧ n = ptr (plug p t) ∧ Forall is_left p ∧ m = length q)) with (n := length k).
  - intros m n (p & q & -> & -> & Hp & ->). assert (rep s q (plug p t) F) as Hq by (eapply refocus; [exact Hr|by rewrite plug_app]).
    apply wp_bind. eapply wp_up; [exact Hq|by apply plug_ne|]. intros n Hn. rewrite Hn, before_app, (before_lefts p), app_nil_r by done.
    destruct q as [|f q]; cbn [up before].
    + rewrite truthy_0. by apply wp_ret.
    + rewrite truthy_true by (by eapply rep_frame). apply wp_bind. eapply wp_parent; [exact Hq|].
      apply wp_ret. destruct f as [c b r|c l b]; cbn [rb_left cell fptr before].
      * rewrite Z.eqb_refl. exists (length q). split; [cbn; lia|]. exists (p ++ [FL c b r]), q. rewrite <-app_assoc, plug_app.
        split_and!; [done|done|apply Forall_app; split; [done|by repeat constructor]|done].
      * rewrite (proj2 (Z.eqb_neq _ _)); [by rewrite app_assoc, last_snoc|]. eapply rep_ne_left; [exact Hq|by apply plug_ne].
  - by exists [], k.
  - apply rep_size in Hr. unfold fuel. lia.
Qed.

Lemma rep_ne_up s k c l a r F : rep s k (T c l a r) F → up k ≠ a.
Proof.
  intros [Hs _]. cbn in Hs. destruct k as [|[c' b r'|c' l' b] k]; cbn [up fptr around] in *.
  - intros E0. destruct (sat_one s _ a (cell 0 c (ptr r) (ptr l)) Hs) as [_ ?]; [in_cells|]. congruence.
  - eapply (sat_ne s _ _ b _ a); [exact Hs|perm_rest].
  - eapply (sat_ne s _ _ b _ a); [exact Hs|perm_rest].
Qed.
Lemma rb_first_spec s xs F : rbtree s xs F → rb_first s = Some (hd 0 xs).
Proof.
  intros (t & N & Hr & _ & <-). unfold rb_first. pose proof Hr as [_ Ht]. cbn in Ht. rewrite Ht. destruct t as [|c l a r]; [done|].
  rewrite truthy_true by (by eapply rep_top).
  destruct (leftmost_spec _ _ _ _ Hr) as (b & -> & p & c' & r' & -> & Hp); [done|]. by rewrite inorder_plug, before_lefts.
Qed.
Lemma rb_last_spec s xs F : rbtree s xs F → rb_last s = Some (default 0 (last xs)).
Proof.
  intros (t & N & Hr & _ & <-). unfold rb_last. pose proof Hr as [_ Ht]. cbn in Ht. rewrite Ht. destruct t as [|c l a r]; [done|].
  rewrite truthy_true by (by eapply rep_top).
  destruct (rightmost_spec _ _ _ _ Hr) as (b & -> & p & c' & r' & -> & Hp); [done|].
  rewrite inorder_plug, after_rights, app_nil_r by done. cbn. by rewrite app_assoc, last_snoc.
Qed.
Lemma rb_next_spec s xs1 a xs2 F : rbtree s (xs1 ++ a :: xs2) F → rb_next s a = Some (hd 0 xs2).
Proof.
  intros (t & N & Hr & _ & Hin). destruct (locate t _ _ _ Hin) as (k & c & l & r & -> & -> & ->). apply (rep_plug s k) in Hr.
  cut (wp (rb_next s a) (λ b, b = hd 0 (inorder r ++ after k))); [by intros (b & -> & ->)|].
  unfold rb_next. apply wp_bind. eapply wp_node; [exact Hr|]. rewrite parent_cell by (by eapply rep_up).
  rewrite (proj2 (Z.eqb_neq _ _)) by (by eapply rep_ne_up). cbn [rb_right cell]. destruct r as [|c' l' a' r']; cbn [ptr].
  - rewrite truthy_0. by eapply (climb_right_spec s k (T c l a E)).
  - apply go_right in Hr. rewrite truthy_true by (by eapply rep_top). eapply wp_mono; [by eapply (leftmost_spec s _ (T c' l' a' r'))|].
    intros b (p & c1 & r1 & -> & Hp). by rewrite inorder_plug, before_lefts.
Qed.
Lemma rb_prev_spec s xs1 a xs2 F : rbtree s (xs1 ++ a :: xs2) F → rb_prev s a = Some (default 0 (last xs1)).
Proof.
  intros (t & N & Hr & _ & Hin). destruct (locate t _ _ _ Hin) as (k & c & l & r & -> & -> & ->). apply (rep_plug s k) in Hr.
  cut (wp (rb_prev s a) (λ b, b = default 0 (last (before k ++ inorder l)))); [by intros (b & -> & ->)|].
  unfold rb_prev. apply wp_bind. eapply wp_node; [exact Hr|]. rewrite parent_cell by (by eapply rep_up).
  rewrite (proj2 (Z.eqb_neq _ _)) by (by eapply rep_ne_up). cbn [rb_left cell]. destruct l as [|c' l' a' r']; cbn [ptr].
  - rewrite truthy_0. cbn [inorder]. rewrite app_nil_r. by eapply (climb_left_spec s k (T c E a r)).
  - apply go_left in Hr. rewrite truthy_true by (by eapply rep_top). eapply wp_mono; [by eapply (rightmost_spec s _ (T c' l' a' r'))|].
    intros b (p & c1 & l1 & -> & Hp). rewrite inorder_plug, after_rights, app_nil_r by done. cbn. by rewrite !app_assoc, last_snoc.
Qed.
Lemma rb_replace_spec s xs1 a xs2 b m F :
  rbtree s (xs1 ++ a :: xs2) (one (b, m) ++ F) →
  wp (rb_replace_node s a b) (λ s', ∃ m', rbtree s' (xs1 ++ b :: xs2) (one (a, m') ++ F)).
Proof.
  intros (t & N & Hr & HN & Hin). destruct (locate t _ _ _ Hin) as (k & c & l & r & -> & -> & ->). apply (rep_plug s k) in Hr. clear Hin.
  pose proof (rep_up _ _ _ _ Hr) as Hup. unfold rb_replace_node. apply wp_bind. eapply wp_node; [exact Hr|].
  rewrite parent_cell by done. cbn [rb_left rb_right cell]. destruct Hr as [Hs Ht]. cbn [cells ptr] in Hs, Ht.
  assert (is_ptr a) by ptrs. assert (is_ptr b) by ptrs.
  next_write ltac:(eapply wp_relink_left). { done. }
  next_write ltac:(eapply wp_adopt). next_write ltac:(eapply wp_adopt). step_read.
  eapply wp_upd; [eassumption|rewrite one_eq; perm_rest|]. intros s3 Hs3 Ht3. rewrite one_eq in Hs3.
  eexists. destruct (unplug _ _ _ _ HN) as (c' & n & Hrb & Hk). specialize (Hk eq_refl).
  destruct (rb_plug k c' n (T c l b r) Hk) as [N' HN']; [by inversion Hrb; subst; eauto with rbtree|].
  exists (plug k (T c l b r)), N'. split_and!; [|done|rewrite inorder_plug; cbn; by rewrite <-!app_assoc].
  apply (proj1 (rep_plug _ _ _ _)). split; [|cbn in *; congruence]. cbn. eapply sat_perm; [|eassumption]. perm.
Qed.

(** ** What the trees promise *)

(** [parent] and [l] are where a node between [xs1] and [xs2] is linked. *)
Definition leaf (s : state) (xs1 xs2 : list Z) (parent : Z) (l : link) (F : cells_of) : Prop :=
  ∃ k N, rep s k E F ∧ rb true N (plug k E) ∧ before k = xs1 ∧ after k = xs2 ∧ parent = up k ∧ l = link_of k.

(** Every path has at most twice as many nodes as the shortest, and the tree is
    filled accordingly. *)
Fixpoint height (t : tree) : nat := match t with E => 0 | T _ l _ r => S (Nat.max (height l) (height r)) end.
Lemma rb_height c n t : rb c n t → (height t ≤ 2 * n + if c then 0 else 1)%nat ∧ (2 ^ n ≤ length (inorder t) + 1)%nat.
Proof.
  induction 1 as [|n l a r Hl [Hl1 Hl2] Hr [Hr1 Hr2]|cl cr n l a r Hl [Hl1 Hl2] Hr [Hr1 Hr2]]; cbn [height inorder]; rewrite ?length_app; cbn [length].
  - cbn. lia.
  - lia.
  - rewrite Nat.pow_succ_r'. destruct cl, cr; lia.
Qed.
Lemma height_plug k : ∀ t, (length k + height t ≤ height (plug k t))%nat.
Proof. induction k as [|[] k IH]; intros t; cbn; [done|..]; (etrans; [|apply IH]); cbn; lia. Qed.
Lemma depth_log k t N : rb true N (plug k t) → (length k ≤ 2 * Nat.log2 (length (inorder (plug k t)) + 1))%nat.
Proof.
  intros [Hh Hn]%rb_height. pose proof (height_plug k t). apply Nat.log2_le_mono in Hn. rewrite Nat.log2_pow2 in Hn by lia. lia.
Qed.

(** Memory with a given tree. *)
Definition load (t : tree) (F : cells_of) : state := {| mem := list_to_map (cells 0 t ++ F); top := ptr t |}.
Lemma load_rep t F : NoDup (cells 0 t ++ F).*1 → Forall (λ x, is_addr x.1) (cells 0 t ++ F) → rep (load t F) [] t F.
Proof.
  intros Hn Ha. rewrite Forall_forall in Ha. split; [|done]. cbn. split; cbn; [done|by intros a n Hin; apply (Ha (a, n))|].
  intros a n. by apply elem_of_list_to_map_1.
Qed.

(** C10: insertion: a new node linked at any leaf of a red-black tree and handed
    to [rb_insert_color] ends up in the tree at that place; the function returns,
    follows no bad pointer, leaves a red-black tree with consistent parent
    pointers and otherwise the same nodes in the same order, touches no other
    node, and the position it started from is at most 2 log2 (n + 1) deep. *)
Theorem rb_insert s xs1 xs2 parent l a m F :
  leaf s xs1 xs2 parent l (one (a, m) ++ F) →
  wp (s ← rb_link_node s a parent l; rb_insert_color s a) (λ s', rbtree s' (xs1 ++ a :: xs2) F) ∧
  ∃ k, parent = up k ∧ (length k ≤ 2 * Nat.log2 (length (xs1 ++ xs2) + 1))%nat.
Proof.
  intros (k & N & Hr & HN & <- & <- & -> & ->). split; [by eapply link_insert_spec|].
  exists k. split; [done|]. apply depth_log in HN. by rewrite inorder_plug in HN.
Qed.
(** Three nodes, red and black, and a new node between the last two. *)
Definition tree3 : tree := T true (T false E 16 E) 32 (T false E 64 E).
Lemma rb_insert_witness :
  ∃ s', (s ← rb_link_node (load tree3 (one (48, cell 0 true 0 0))) 48 64 (LLeft 64); rb_insert_color s 48) = Some s' ∧
        rbtree s' [16; 32; 48; 64] [].
Proof.
  assert (leaf (load tree3 (one (48, cell 0 true 0 0))) [16; 32] [64] 64 (LLeft 64) (one (48, cell 0 true 0 0) ++ [])) as Hl.
  { exists [FL false 64 E; FR true (T false E 16 E) 32], 1%nat. split_and!; try reflexivity.
    - apply (proj2 (rep_plug _ _ _ _)), load_rep; [by apply (bool_decide_unpack _); vm_compute|].
      repeat (constructor; [by vm_compute|]); constructor.
    - repeat econstructor. }
  destruct (rb_insert _ _ _ _ _ 48 (cell 0 true 0 0) [] Hl) as [(s' & Hs & Hr) _]. by exists s'.
Defined.

(** C11: removal: [rb_erase] of any node of a red-black tree returns, follows no
    bad pointer and leaves a red-black tree with the other nodes in the same
    order; the erased node is out of the tree and no other node is touched.
    [rb_replace_node] puts a new node in the place of one of the tree. *)
Theorem rb_erase_correct s xs1 a xs2 F :
  rbtree s (xs1 ++ a :: xs2) F →
  wp (rb_erase s a) (λ s', ∃ m, rbtree s' (xs1 ++ xs2) (one (a, m) ++ F)) ∧
  ∀ b m F', F = one (b, m) ++ F' →
    wp (rb_replace_node s a b) (λ s', ∃ m', rbtree s' (xs1 ++ b :: xs2) (one (a, m') ++ F')).
Proof. intros Hs. split; [by apply rb_erase_spec|]. intros b m F' ->. by eapply rb_replace_spec. Qed.
(** The root of a tree of five nodes, whose successor is two levels down. *)
Definition tree5 : tree :=
  T true (T true (T false E 16 E) 32 E) 64 (T true (T false E 80 E) 96 E).
Lemma tree5_rbtree : rbtree (load tree5 []) [16; 32; 64; 80; 96] [].
Proof.
  exists tree5, 2%nat. split_and!; [|repeat econstructor|reflexivity].
  apply load_rep; [by apply (bool_decide_unpack _); vm_compute|]. repeat (constructor; [by vm_compute|]); constructor.
Qed.
Lemma rb_erase_witness :
  ∃ s', rb_erase (load tree5 []) 64 = Some s' ∧ (∃ m, rbtree s' [16; 32; 80; 96] (one (64, m) ++ [])) ∧ top s' = 80.
Proof.
  pose proof tree5_rbtree as Ht.
  destruct (rb_erase_correct _ [16; 32] 64 [80; 96] [] Ht) as [(s' & Hs & Hr) _]. exists s'.
  split; [exact Hs|]. split; [exact Hr|]. vm_compute in Hs. by injection Hs as <-.
Defined.

(** Iteration: [rb_first] and [rb_last] give the ends of the tree, [rb_next]
    and [rb_prev] the neighbours of a node, and NULL past the ends, so that
    walking with [rb_next] from [rb_first] visits the nodes in order, each once. *)
Theorem rb_walk s xs F :
  rbtree s xs F →
  rb_first s = Some (hd 0 xs) ∧ rb_last s = Some (default 0 (last xs)) ∧
  ∀ xs1 a xs2, xs = xs1 ++ a :: xs2 → rb_next s a = Some (hd 0 xs2) ∧ rb_prev s a = Some (default 0 (last xs1)).
Proof.
  intros Hs. split; [by eapply rb_first_spec|]. split; [by eapply rb_last_spec|].
  intros xs1 a xs2 ->. split; [by eapply rb_next_spec|by eapply rb_prev_spec].
Qed.
Lemma rb_walk_witness :
  rbtree (load tree5 []) [16; 32; 64; 80; 96] [] ∧ rb_next (load tree5 []) 32 = Some 64 ∧ rb_prev (load tree5 []) 16 = Some 0.
Proof.
  pose proof tree5_rbtree as Ht.
  split; [exact Ht|]. destruct (rb_walk _ _ _ Ht) as (_ & _ & Hw). split.
  - exact (proj1 (Hw [16] 32 [64; 80; 96] eq_refl)).
  - exact (proj2 (Hw [] 16 [32; 64; 80; 96] eq_refl)).
Defined.

End Rbtree.
