(* ===== verification/Deadline.v ===== *)
(** * Deadline: the deadline I/O scheduler

    block/deadline-iosched.c and the red-black tree and dispatch helpers of
    block/elevator.c. A request is known by the address of its tree node; its
    other fields are in [requests]. A function is [None] when it follows a bad
    pointer or hits a BUG_ON. *)

From S2P Require Import Prelude Rbtree.
Import Rbtree.

(** ** Sorted requests (block/elevator.c) *)
Module Elevator.

(** The fields of a request the scheduler uses: first sector, bytes, direction,
    and the expiry time kept in csd.list.next. *)
Record request := { rq_sector : Z; rq_bytes : Z; rq_write : bool; rq_time : Z }.
Abbreviation requests := (gmap Z request).
Definition blk_rq_pos (r : request) : Z := rq_sector r.
Definition blk_rq_sectors (r : request) : Z := rq_bytes r .>> 9.
Definition rq_end_sector (r : request) : Z := u64 (blk_rq_pos r + blk_rq_sectors r).
(** READ is [false] and WRITE is [true]. *)
Definition rq_data_dir (r : request) : bool := rq_write r.
Definition rq_fifo_time (r : request) : Z := rq_time r.

(** [*p] of a pointer to a child pointer. *)
Definition read_link (s : state) (l : link) : option Z :=
  match l with
  | LRoot => Some (top s)
  | LLeft q => r ← get s q; Some (rb_left r)
  | LRight q => r ← get s q; Some (rb_right r)
  end.
(** One round of the loop of [elv_rb_add]. *)
Definition add_round (s : state) (rqs : requests) (pos : Z) (x : link * Z) : option (link * Z + link * Z) :=
  let '(p, parent) := x in
  n ← read_link s p;
  if n =? 0 then Some (inr (p, parent)) else
  r ← rqs !! n;
  Some (inl (if pos <? blk_rq_pos r then (LLeft n, n) else (LRight n, n))).
Definition elv_rb_add (s : state) (rqs : requests) (rq : Z) : option state :=
  r ← rqs !! rq;
  '(p, parent) ← iter (fuel s) (add_round s rqs (blk_rq_pos r)) (LRoot, 0);
  s ← rb_link_node s rq parent p;
  rb_insert_color s rq.
Definition elv_rb_del (s : state) (rq : Z) : option state :=
  e ← RB_EMPTY_NODE s rq;
  if e : bool then None else
  s ← rb_erase s rq;
  RB_CLEAR_NODE s rq.
Definition elv_rb_find (s : state) (rqs : requests) (sector : Z) : option Z :=
  iter (fuel s) (λ n,
    if n =? 0 then Some (inr 0) else
    r ← rqs !! n;
    if sector <? blk_rq_pos r then x ← get s n; Some (inl (rb_left x))
    else if blk_rq_pos r <? sector then x ← get s n; Some (inl (rb_right x))
    else Some (inr n)) (top s).

(** The dispatch queue. *)
Record request_queue := {
  queue_head : list Z; nr_sorted : Z; end_sector : Z; boundary_rq : Z; last_merge : Z; hash : gset Z }.
Definition elv_rqhash_del (h : gset Z) (rq : Z) : gset Z := if decide (rq ∈ h) then h ∖ {[rq]} else h.
Definition elv_dispatch_add_tail (q : request_queue) (rqs : requests) (rq : Z) : option request_queue :=
  r ← rqs !! rq;
  Some {| queue_head := queue_head q ++ [rq];
          nr_sorted := u32 (nr_sorted q - 1);
          end_sector := rq_end_sector r;
          boundary_rq := rq;
          last_merge := if last_merge q =? rq then 0 else last_merge q;
          hash := elv_rqhash_del (hash q) rq |}.

(** ** The sorted tree as a sorted list *)
Definition pos (R : requests) (a : Z) : Z := match R !! a with Some r => blk_rq_pos r | None => 0 end.
Definition sorted (R : requests) (xs : list Z) : Prop := StronglySorted (λ a b, pos R a ≤ pos R b) xs.
Definition known (R : requests) (xs : list Z) : Prop := ∀ x, x ∈ xs → is_Some (R !! x).

Lemma sorted_app R xs ys : sorted R (xs ++ ys) → ∀ x y, x ∈ xs → y ∈ ys → pos R x ≤ pos R y.
Proof.
  unfold sorted. induction xs as [|a xs IH]; intros Hs x y Hx Hy; [by apply elem_of_nil in Hx|].
  cbn in Hs. apply StronglySorted_inv in Hs as [Hs Ha]. apply elem_of_cons in Hx as [->|Hx]; [|by apply IH].
  rewrite Forall_forall in Ha. apply Ha. set_solver.
Qed.
Lemma sorted_insert R xs1 a xs2 :
  sorted R (xs1 ++ xs2) → Forall (λ x, pos R x ≤ pos R a) xs1 → Forall (λ x, pos R a < pos R x) xs2 → sorted R (xs1 ++ a :: xs2).
Proof.
  intros Hs H1 H2. unfold sorted in *. induction xs1 as [|x xs1 IH]; cbn in *.
  - constructor; [done|]. eapply Forall_impl; [exact H2|]. cbn. lia.
  - apply StronglySorted_inv in Hs as [Hs Hx]. apply Forall_cons in H1 as [Hxa H1]. constructor; [by apply IH|].
    rewrite Forall_app in *. destruct Hx. split; [done|]. by constructor.
Qed.
Lemma sorted_remove R xs1 a xs2 : sorted R (xs1 ++ a :: xs2) → sorted R (xs1 ++ xs2).
Proof.
  unfold sorted. induction xs1 as [|x xs1 IH]; cbn; intros Hs; apply StronglySorted_inv in Hs as [Hs Hx]; [done|].
  constructor; [by apply IH|]. rewrite Forall_app in *. destruct Hx as [? ?%Forall_cons]. naive_solver.
Qed.

Lemma wp_read_link s k t F (Q : Z → Prop) : rep s k t F → Q (ptr t) → wp (read_link s (link_of k)) Q.
Proof.
  intros Hr HQ. destruct k as [|[c a r|c l a] k]; cbn [link_of read_link].
  - apply wp_ret. by destruct Hr as [_ ->].
  - apply wp_bind. eapply (wp_parent s (FL c a r)); [exact Hr|]. by apply wp_ret.
  - apply wp_bind. eapply (wp_parent s (FR c l a)); [exact Hr|]. by apply wp_ret.
Qed.

(** In a sorted tree, everything right of a node is not before it. *)
Lemma sorted_plug R k c l a r :
  sorted R (inorder (plug k (T c l a r))) →
  (∀ x, x ∈ inorder l → pos R x ≤ pos R a) ∧ (∀ x, x ∈ inorder r → pos R a ≤ pos R x).
Proof.
  rewrite inorder_plug. cbn. intros Hs. split; intros x Hx.
  - apply (sorted_app R (before k ++ inorder l) (a :: inorder r ++ after k)); [by rewrite <-!app_assoc in *|set_solver|set_solver].
  - apply (sorted_app R (before k ++ inorder l ++ [a]) (inorder r ++ after k)); [|set_solver|set_solver].
    rewrite <-!app_assoc in *. done.
Qed.

Lemma elv_rb_add_spec s R xs a m F :
  rbtree s xs (one (a, m) ++ F) → sorted R xs → known R xs → is_Some (R !! a) →
  ∃ xs1 xs2, xs = xs1 ++ xs2 ∧ Forall (λ x, pos R x ≤ pos R a) xs1 ∧ Forall (λ x, pos R a < pos R x) xs2 ∧
    wp (elv_rb_add s R a) (λ s', rbtree s' (xs1 ++ a :: xs2) F).
Proof.
  intros (t0 & N & Hr & HN & <-) Hs Hk [ra Ha]. assert (pos R a = blk_rq_pos ra) as Hpa by (unfold pos; by rewrite Ha).
  assert (wp (iter (fuel s) (add_round s R (blk_rq_pos ra)) (LRoot, 0)) (λ x, ∃ k, plug k E = t0 ∧ x = (link_of k, up k) ∧
    Forall (λ x, pos R x ≤ pos R a) (before k) ∧ Forall (λ x, pos R a < pos R x) (after k))) as (x & Hx & k & <- & -> & Hb & Hf).
  { eapply (wp_iter (λ m x, ∃ k t, plug k t = t0 ∧ x = (link_of k, up k) ∧ Forall (λ x, pos R x ≤ pos R a) (before k) ∧
      Forall (λ x, pos R a < pos R x) (after k) ∧ m = tsize t)) with (n := tsize t0).
    - intros n x (k & t & <- & -> & Hb & Hf & ->). unfold add_round.
      assert (rep s k t (one (a, m) ++ F)) as Hk' by (by eapply refocus).
      apply wp_bind. eapply wp_read_link; [exact Hk'|]. destruct t as [|c l b r]; cbn [ptr].
      { apply wp_ret. eauto 6. }
      rewrite (proj2 (Z.eqb_neq b 0)) by (by eapply rep_top).
      destruct (Hk b) as [rb' Hrb]; [rewrite inorder_plug; set_solver|]. apply wp_bind. exists rb'. split; [done|]. apply wp_ret.
      destruct (sorted_plug R k c l b r Hs) as [Hl' Hr']. assert (pos R b = blk_rq_pos rb') as Hpb by (unfold pos; by rewrite Hrb).
      destruct (Z.ltb_spec (blk_rq_pos ra) (blk_rq_pos rb')) as [Hlt|Hge].
      + exists (tsize l). split; [cbn; lia|]. exists (FL c b r :: k), l. split_and!; [done|done|done| |done].
        cbn. constructor; [lia|]. apply Forall_app. split; [|done]. apply Forall_forall. intros y Hy%Hr'. lia.
      + exists (tsize r). split; [cbn; lia|]. exists (FR c l b :: k), r. split_and!; [done|done| |done|done].
        cbn. rewrite !Forall_app, Forall_singleton. split_and!; [done| |lia]. apply Forall_forall. intros y Hy%Hl'. lia.
    - exists [], t0. split_and!; (done || by constructor).
    - apply rep_tsize in Hr. unfold fuel. lia. }
  exists (before k), (after k). split_and!; [by rewrite inorder_plug|done|done|].
  unfold elv_rb_add. apply wp_bind. exists ra. split; [done|]. apply wp_bind. exists (link_of k, up k). split; [done|].
  eapply link_insert_spec; [|exact HN]. eapply refocus; [exact Hr|done].
Qed.

Lemma elv_rb_del_spec s xs1 a xs2 F :
  rbtree s (xs1 ++ a :: xs2) F → wp (elv_rb_del s a) (λ s', ∃ m, rbtree s' (xs1 ++ xs2) (one (a, m) ++ F)).
Proof.
  intros Hs. unfold elv_rb_del, RB_EMPTY_NODE. pose proof Hs as (t & N & Hr & _ & Hin).
  destruct (locate t _ _ _ Hin) as (k & c & l & r & -> & _ & _). apply (rep_plug s k) in Hr.
  apply wp_bind, wp_bind. eapply wp_node; [exact Hr|]. rewrite parent_cell by (by eapply rep_up). apply wp_ret.
  rewrite (proj2 (Z.eqb_neq _ _)) by (by eapply rep_ne_up).
  apply wp_bind. eapply wp_mono; [by apply rb_erase_spec|]. intros s1 (m & t' & N' & [Hs1 Ht1] & HN' & Hin').
  unfold RB_CLEAR_NODE, rb_set_parent. eapply wp_upd; [exact Hs1|rewrite one_eq; perm_rest|]. intros s2 Hs2 Ht2.
  eexists. exists t', N'. split_and!; [|done|done]. split; [|congruence]. rewrite one_eq in Hs2. eapply sat_perm; [|exact Hs2]. perm.
Qed.

(** The search finds a request at the sector exactly when there is one. *)
Lemma elv_rb_find_spec s R xs F sector :
  rbtree s xs F → sorted R xs → known R xs →
  wp (elv_rb_find s R sector) (λ b, (b ∈ xs ∧ b ≠ 0 ∧ pos R b = sector) ∨ (b = 0 ∧ ∀ x, x ∈ xs → pos R x ≠ sector)).
Proof.
  intros (t0 & N & Hr & HN & <-) Hs Hk. unfold elv_rb_find. replace (top s) with (ptr t0) by (by destruct Hr as [_ ->]).
  eapply (wp_iter (λ m n, ∃ k t, plug k t = t0 ∧ n = ptr t ∧ (∀ x, x ∈ before k ++ after k → pos R x ≠ sector) ∧ m = tsize t)) with (n := tsize t0).
  - intros n x (k & t & <- & -> & Hout & ->). assert (rep s k t F) as Hk' by (by eapply refocus).
    destruct t as [|c l b r]; cbn [ptr].
    { rewrite Z.eqb_refl. apply wp_ret. right. split; [done|]. intros x Hx. apply Hout. rewrite inorder_plug in Hx. set_solver. }
    assert (b ≠ 0) as Hb0 by (by eapply rep_top). rewrite (proj2 (Z.eqb_neq b 0)) by done.
    destruct (Hk b) as [rb' Hrb]; [rewrite inorder_plug; set_solver|]. apply wp_bind. exists rb'. split; [done|].
    destruct (sorted_plug R k c l b r Hs) as [Hl' Hr']. assert (pos R b = blk_rq_pos rb') as Hpb by (unfold pos; by rewrite Hrb).
    destruct (Z.ltb_spec sector (blk_rq_pos rb')); [|destruct (Z.ltb_spec (blk_rq_pos rb') sector)].
    + apply wp_bind. eapply wp_node; [exact Hk'|]. apply wp_ret. exists (tsize l). split; [cbn; lia|].
      exists (FL c b r :: k), l. split_and!; [done|done| |done]. cbn. intros y. rewrite !elem_of_app, elem_of_cons, elem_of_app.
      intros [?|[->|[Hy%Hr'|?]]]; [apply Hout; set_solver|lia|lia|apply Hout; set_solver].
    + apply wp_bind. eapply wp_node; [exact Hk'|]. apply wp_ret. exists (tsize r). split; [cbn; lia|].
      exists (FR c l b :: k), r. split_and!; [done|done| |done]. cbn. intros y. rewrite !elem_of_app, list_elem_of_singleton.
      intros [[?|[Hy%Hl'| ->]]|?]; [apply Hout; set_solver|lia|lia|apply Hout; set_solver].
    + apply wp_ret. left. split_and!; [rewrite inorder_plug; set_solver|done|lia].
  - exists [], t0. split_and!; [done|done|set_solver|done].
  - apply rep_tsize in Hr. unfold fuel. lia.
Qed.
End Elevator.

Module Deadline.
Import Elevator.

(** Two of each, for reads and writes. *)
Record two (A : Type) := Two { rd : A; wr : A }.
Arguments Two {A}.
Arguments rd {A}.
Arguments wr {A}.
Definition of_dir {A} (x : two A) (d : bool) : A := if d then wr x else rd x.
Definition put {A} (x : two A) (d : bool) (a : A) : two A := if d then Two (rd x) a else Two a (wr x).

Definition HZ : Z := 100.
Definition read_expire : Z := HZ / 2.
Definition write_expire : Z := 5 * HZ.
Definition writes_starved_default : Z := 2.
Definition fifo_batch_default : Z := 16.

(** [nodes] is the memory of the tree nodes, shared by the two trees. *)
Record deadline_data := {
  nodes : gmap Z rb_node; sort_list : two Z; fifo_list : two (list Z); next_rq : two Z;
  batching : Z; last_sector : Z; starved : Z;
  fifo_expire : two Z; fifo_batch : Z; writes_starved : Z; front_merges : Z }.
(** The system: the scheduler, the requests and the dispatch queue. *)
Record sys := { dd : deadline_data; rqs : requests; queue : request_queue }.
Definition tree_of (D : deadline_data) (d : bool) : state := {| mem := nodes D; top := of_dir (sort_list D) d |}.
Definition set_tree (D : deadline_data) (d : bool) (s : state) : deadline_data :=
  {| nodes := mem s; sort_list := put (sort_list D) d (top s); fifo_list := fifo_list D; next_rq := next_rq D;
     batching := batching D; last_sector := last_sector D; starved := starved D;
     fifo_expire := fifo_expire D; fifo_batch := fifo_batch D; writes_starved := writes_starved D; front_merges := front_merges D |}.
Definition set_fifo (D : deadline_data) (f : two (list Z)) : deadline_data :=
  {| nodes := nodes D; sort_list := sort_list D; fifo_list := f; next_rq := next_rq D;
     batching := batching D; last_sector := last_sector D; starved := starved D;
     fifo_expire := fifo_expire D; fifo_batch := fifo_batch D; writes_starved := writes_starved D; front_merges := front_merges D |}.
Definition set_next (D : deadline_data) (n : two Z) : deadline_data :=
  {| nodes := nodes D; sort_list := sort_list D; fifo_list := fifo_list D; next_rq := n;
     batching := batching D; last_sector := last_sector D; starved := starved D;
     fifo_expire := fifo_expire D; fifo_batch := fifo_batch D; writes_starved := writes_starved D; front_merges := front_merges D |}.
Definition set_run (D : deadline_data) (b l st : Z) : deadline_data :=
  {| nodes := nodes D; sort_list := sort_list D; fifo_list := fifo_list D; next_rq := next_rq D;
     batching := b; last_sector := l; starved := st;
     fifo_expire := fifo_expire D; fifo_batch := fifo_batch D; writes_starved := writes_starved D; front_merges := front_merges D |}.
Definition with_dd (y : sys) (D : deadline_data) : sys := {| dd := D; rqs := rqs y; queue := queue y |}.

(** jiffies comparisons *)
Definition time_after (a b : Z) : bool := s32 (s32 b - s32 a) <? 0.
Definition time_before (a b : Z) : bool := time_after b a.

Definition deadline_latter_request (D : deadline_data) (d : bool) (rq : Z) : option Z := rb_next (tree_of D d) rq.
Definition deadline_add_rq_rb (D : deadline_data) (R : requests) (rq : Z) : option deadline_data :=
  r ← R !! rq; let d := rq_data_dir r in
  s ← elv_rb_add (tree_of D d) R rq; Some (set_tree D d s).
Definition deadline_del_rq_rb (D : deadline_data) (R : requests) (rq : Z) : option deadline_data :=
  r ← R !! rq; let d := rq_data_dir r in
  D ← (if of_dir (next_rq D) d =? rq then n ← deadline_latter_request D d rq; Some (set_next D (put (next_rq D) d n)) else Some D);
  s ← elv_rb_del (tree_of D d) rq; Some (set_tree D d s).
Definition set_time (R : requests) (rq : Z) (t : Z) : requests :=
  alter (λ r, {| rq_sector := rq_sector r; rq_bytes := rq_bytes r; rq_write := rq_write r; rq_time := t |}) rq R.
Definition deadline_add_request (y : sys) (jiffies rq : Z) : option sys :=
  r ← rqs y !! rq; let d := rq_data_dir r in
  D ← deadline_add_rq_rb (dd y) (rqs y) rq;
  Some {| dd := set_fifo D (put (fifo_list D) d (of_dir (fifo_list D) d ++ [rq]));
          rqs := set_time (rqs y) rq (u32 (jiffies + of_dir (fifo_expire D) d)); queue := queue y |}.
(** rq_fifo_clear takes the request off the list it is on. *)
Definition rq_fifo_clear (D : deadline_data) (rq : Z) : deadline_data :=
  set_fifo D (Two (filter (λ x, x ≠ rq) (rd (fifo_list D))) (filter (λ x, x ≠ rq) (wr (fifo_list D)))).
Definition deadline_remove_request (D : deadline_data) (R : requests) (rq : Z) : option deadline_data :=
  deadline_del_rq_rb (rq_fifo_clear D rq) R rq.

Definition deadline_move_to_dispatch (y : sys) (rq : Z) : option sys :=
  D ← deadline_remove_request (dd y) (rqs y) rq;
  q ← elv_dispatch_add_tail (queue y) (rqs y) rq;
  Some {| dd := D; rqs := rqs y; queue := q |}.
Definition deadline_move_request (y : sys) (rq : Z) : option sys :=
  r ← rqs y !! rq; let d := rq_data_dir r in
  n ← deadline_latter_request (dd y) d rq;
  let D := set_next (dd y) (put (Two 0 0) d n) in
  let D := set_run D (batching D) (rq_end_sector r) (starved D) in
  deadline_move_to_dispatch (with_dd y D) rq.
Definition deadline_check_fifo (y : sys) (jiffies : Z) (d : bool) : option bool :=
  rq ← head (of_dir (fifo_list (dd y)) d);
  r ← rqs y !! rq;
  Some (time_after jiffies (rq_fifo_time r)).

(** dispatch_request: dd->batching++, and the request is moved. *)
Definition dispatch_request (y : sys) (rq : Z) : option (sys * Z) :=
  y ← deadline_move_request (with_dd y (set_run (dd y) (u32 (batching (dd y) + 1)) (last_sector (dd y)) (starved (dd y)))) rq;
  Some (y, 1).
(** dispatch_find_request: the start of a batch. *)
Definition dispatch_find_request (y : sys) (jiffies : Z) (d : bool) : option (sys * Z) :=
  expired ← deadline_check_fifo y jiffies d;
  rq ← (if expired || (of_dir (next_rq (dd y)) d =? 0) then head (of_dir (fifo_list (dd y)) d) else Some (of_dir (next_rq (dd y)) d));
  dispatch_request (with_dd y (set_run (dd y) 0 (last_sector (dd y)) (starved (dd y)))) rq.
Definition dispatch_writes (y : sys) (jiffies : Z) : option (sys * Z) :=
  if RB_EMPTY_ROOT (tree_of (dd y) true) then None else
  dispatch_find_request (with_dd y (set_run (dd y) (batching (dd y)) (last_sector (dd y)) 0)) jiffies true.
Definition deadline_dispatch_requests (y : sys) (jiffies : Z) : option (sys * Z) :=
  let D := dd y in
  let reads := negb (bool_decide (rd (fifo_list D) = [])) in
  let writes := negb (bool_decide (wr (fifo_list D) = [])) in
  let rq := if truthy (wr (next_rq D)) then wr (next_rq D) else rd (next_rq D) in
  if truthy rq && (batching D <? u32 (fifo_batch D)) then dispatch_request y rq else
  if reads then
    if RB_EMPTY_ROOT (tree_of D false) then None else
    if writes then
      let y' := with_dd y (set_run D (batching D) (last_sector D) (u32 (starved D + 1))) in
      if u32 (writes_starved D) <=? starved D then dispatch_writes y' jiffies
      else dispatch_find_request y' jiffies false
    else dispatch_find_request y jiffies false
  else if writes then dispatch_writes y jiffies
  else Some (y, 0).

(** Merging. *)
Definition ELEVATOR_NO_MERGE : Z := 0.
Definition ELEVATOR_FRONT_MERGE : Z := 1.
Record bio := { bi_sector : Z; bi_size : Z; bi_write : bool }.
Definition bio_sectors (b : bio) : Z := bi_size b .>> 9.
(** [merge_ok] is elv_rq_merge_ok, which looks at fields that are not modelled. *)
Definition deadline_merge (merge_ok : Z → bio → bool) (y : sys) (b : bio) : option (Z * Z) :=
  if truthy (front_merges (dd y)) then
    let sector := u64 (bi_sector b + bio_sectors b) in
    rq ← elv_rb_find (tree_of (dd y) (bi_write b)) (rqs y) sector;
    if truthy rq then
      r ← rqs y !! rq;
      if negb (sector =? blk_rq_pos r) then None
      else if merge_ok rq b then Some (ELEVATOR_FRONT_MERGE, rq) else Some (ELEVATOR_NO_MERGE, 0)
    else Some (ELEVATOR_NO_MERGE, 0)
  else Some (ELEVATOR_NO_MERGE, 0).
Definition deadline_merged_request (y : sys) (req type : Z) : option sys :=
  if type =? ELEVATOR_FRONT_MERGE then
    r ← rqs y !! req; let d := rq_data_dir r in
    s ← elv_rb_del (tree_of (dd y) d) req;
    D ← deadline_add_rq_rb (set_tree (dd y) d s) (rqs y) req;
    Some (with_dd y D)
  else Some y.
(** list_move(&req->queuelist, &next->queuelist): [req] right behind [next]. *)
Definition list_move (l : list Z) (req next : Z) : list Z :=
  filter (λ x, x ≠ req) l ≫= λ x, if decide (x = next) then [x; req] else [x].
Definition deadline_merged_requests (y : sys) (req next : Z) : option sys :=
  r ← rqs y !! req; n ← rqs y !! next; let d := rq_data_dir n in
  let F := of_dir (fifo_list (dd y)) d in
  y ← (if bool_decide (req ∈ F) && bool_decide (next ∈ F) && time_before (rq_fifo_time n) (rq_fifo_time r)
       then Some {| dd := set_fifo (dd y) (put (fifo_list (dd y)) d (list_move F req next));
                    rqs := set_time (rqs y) req (rq_fifo_time n); queue := queue y |}
       else Some y);
  D ← deadline_remove_request (dd y) (rqs y) next; Some (with_dd y D).

Definition deadline_init_queue (m : gmap Z rb_node) : deadline_data :=
  {| nodes := m; sort_list := Two 0 0; fifo_list := Two [] []; next_rq := Two 0 0;
     batching := 0; last_sector := 0; starved := 0;
     fifo_expire := Two read_expire write_expire; fifo_batch := fifo_batch_default;
     writes_starved := writes_starved_default; front_merges := 1 |}.
Definition deadline_exit_queue (D : deadline_data) : option unit :=
  if bool_decide (rd (fifo_list D) = []) && bool_decide (wr (fifo_list D) = []) then Some () else None.

(** ** What is queued *)
Lemma of_put {A} (x : two A) d e a : of_dir (put x d a) e = if decide (e = d) then a else of_dir x e.
Proof. destruct x, d, e; done. Qed.

(** Both trees in the memory, with the requests [X] in sector order. *)
Definition forest (m : gmap Z rb_node) (tops : two Z) (X : two (list Z)) (F : cells_of) : Prop :=
  ∃ tr tw nr nw, sat {| mem := m; top := 0 |} (cells 0 tr ++ cells 0 tw ++ F) ∧ tops = Two (ptr tr) (ptr tw) ∧
    rb true nr tr ∧ rb true nw tw ∧ inorder tr = rd X ∧ inorder tw = wr X.
Record queued (y : sys) (X : two (list Z)) (F : cells_of) : Prop := {
  q_forest : forest (nodes (dd y)) (sort_list (dd y)) X F;
  q_fifo d : of_dir (fifo_list (dd y)) d ≡ₚ of_dir X d;
  q_sorted d : sorted (rqs y) (of_dir X d);
  q_dir d x : x ∈ of_dir X d → ∃ r, rqs y !! x = Some r ∧ rq_write r = d;
  q_next d : of_dir (next_rq (dd y)) d = 0 ∨ of_dir (next_rq (dd y)) d ∈ of_dir X d;
  q_single : rd (next_rq (dd y)) = 0 ∨ wr (next_rq (dd y)) = 0 }.

Lemma sat_mem s s' L : mem s = mem s' → sat s L → sat s' L.
Proof. intros E [Hn Ha Hg]. split; [done|done|]. by rewrite <-E. Qed.
(** One of the trees, the other in its frame. *)
Lemma forest_focus m tops X F d : forest m tops X F →
  ∃ G, rbtree {| mem := m; top := of_dir tops d |} (of_dir X d) (G ++ F) ∧
    ∀ s' xs' F', rbtree s' xs' (G ++ F') → forest (mem s') (put tops d (top s')) (put X d xs') F'.
Proof.
  intros (tr & tw & nr & nw & Hs & -> & Hr & Hw & Hir & Hiw). destruct d; cbn.
  - exists (cells 0 tr). split.
    + exists tw, nw. split_and!; [|done|done]. split; [|done]. cbn. eapply sat_mem; [|eapply sat_perm; [|exact Hs]]; [done|perm].
    + intros s' xs' F' (t & N & [Hs' Ht'] & HN & Hin). exists tr, t, nr, N. cbn in *. split_and!; [|by rewrite Ht'|done..].
      eapply sat_mem; [|eapply sat_perm; [|exact Hs']]; [done|perm].
  - exists (cells 0 tw). split.
    + exists tr, nr. split_and!; [|done|done]. split; [|done]. cbn. eapply sat_mem; [|exact Hs]. done.
    + intros s' xs' F' (t & N & [Hs' Ht'] & HN & Hin). exists t, tw, N, nw. cbn in *. split_and!; [|by rewrite Ht'|done..].
      eapply sat_mem; [|exact Hs']. done.
Qed.
Lemma rbtree_perm s xs F F' : F ≡ₚ F' → rbtree s xs F → rbtree s xs F'.
Proof.
  intros HF (t & N & [Hs Ht] & HN & Hin). exists t, N. split_and!; [|done|done]. split; [|done].
  eapply sat_perm; [|exact Hs]. by rewrite HF.
Qed.
Lemma forest_nodup m tops X F : forest m tops X F → NoDup (rd X ++ wr X ++ F.*1).
Proof.
  intros (tr & tw & nr & nw & [Hn _ _] & _ & _ & _ & <- & <-).
  assert (∀ p t, (cells p t).*1 ≡ₚ inorder t) as Hc.
  { intros p t. revert p. induction t as [|c l IHl a r IHr]; intros p; cbn; [done|].
    rewrite !fmap_app, IHl, IHr, <-Permutation_middle. done. }
  rewrite !fmap_app in Hn. by rewrite <-(Hc 0 tr), <-(Hc 0 tw).
Qed.
Lemma queued_nodup y X F d : queued y X F → NoDup (of_dir X d).
Proof.
  intros Hq. apply q_forest, forest_nodup in Hq. apply NoDup_app in Hq as (Hr & _ & (Hw & _)%NoDup_app). by destruct d.
Qed.
Lemma queued_apart y X F x : queued y X F → x ∈ rd X → x ∉ wr X.
Proof. intros Hq Hr Hw. destruct (q_dir _ _ _ Hq false x Hr) as (r & H1 & H2). destruct (q_dir _ _ _ Hq true x Hw) as (r' & H3 & H4). congruence. Qed.
Lemma pos_set_time R a t x : pos (set_time R a t) x = pos R x.
Proof.
  unfold pos, set_time. destruct (decide (x = a)) as [->|Hne]; [|by rewrite lookup_alter_ne].
  rewrite lookup_alter_eq. by destruct (R !! a).
Qed.
Lemma sorted_ext R R' xs : (∀ x, pos R' x = pos R x) → sorted R xs → sorted R' xs.
Proof. intros He. unfold sorted. induction 1 as [|a l Hs IH Ha]; constructor; [done|]. eapply Forall_impl; [exact Ha|]. intros b. by rewrite !He. Qed.
Lemma set_time_dir R a t x r : R !! x = Some r → ∃ r', set_time R a t !! x = Some r' ∧ rq_write r' = rq_write r.
Proof.
  intros Hx. unfold set_time. destruct (decide (x = a)) as [->|Hne]; [|rewrite lookup_alter_ne by done; eauto].
  rewrite lookup_alter_eq, Hx. cbn. eauto.
Qed.

(** What an operation on the trees leaves alone. *)
Definition same_run (D D' : deadline_data) : Prop :=
  batching D' = batching D ∧ starved D' = starved D ∧ fifo_expire D' = fifo_expire D ∧ fifo_batch D' = fifo_batch D ∧
  writes_starved D' = writes_starved D ∧ front_merges D' = front_merges D.

Lemma put_get {A} (x : two A) d : put x d (of_dir x d) = x.
Proof. by destruct x, d. Qed.
Lemma elem_insert {A} (xs1 xs2 : list A) a x : x ∈ xs1 ++ a :: xs2 ↔ x = a ∨ x ∈ xs1 ++ xs2.
Proof. set_solver. Qed.

Lemma deadline_add_spec y X F a m r jiffies :
  queued y X (one (a, m) ++ F) → rqs y !! a = Some r →
  wp (deadline_add_request y jiffies a) (λ y', let d := rq_write r in ∃ xs1 xs2,
    of_dir X d = xs1 ++ xs2 ∧ queued y' (put X d (xs1 ++ a :: xs2)) F ∧ same_run (dd y) (dd y') ∧
    next_rq (dd y') = next_rq (dd y) ∧ queue y' = queue y ∧
    fifo_list (dd y') = put (fifo_list (dd y)) d (of_dir (fifo_list (dd y)) d ++ [a]) ∧
    rqs y' = set_time (rqs y) a (u32 (jiffies + of_dir (fifo_expire (dd y)) d))).
Proof.
  intros Hq Ha. set (d := rq_write r). destruct (forest_focus _ _ _ _ d (q_forest _ _ _ Hq)) as (G & Ht & Hback).
  assert (known (rqs y) (of_dir X d)) as Hkn by (intros x Hx; destruct (q_dir _ _ _ Hq d x Hx) as (? & ? & _); by eexists).
  destruct (elv_rb_add_spec (tree_of (dd y) d) (rqs y) (of_dir X d) a m (G ++ F)) as (xs1 & xs2 & HX & H1 & H2 & Hwp);
    [eapply rbtree_perm; [|exact Ht]; perm|apply (q_sorted _ _ _ Hq)|done|by eexists|].
  unfold deadline_add_request, deadline_add_rq_rb. apply wp_bind. exists r. split; [done|]. fold d.
  apply wp_bind, wp_bind. exists r. split; [done|]. unfold rq_data_dir. fold d. apply wp_bind. eapply wp_mono; [exact Hwp|].
  intros s' Hs'. apply wp_ret, wp_ret. exists xs1, xs2. split_and!; [done| |by repeat split|done|done|done|done].
  pose proof (q_sorted _ _ _ Hq d) as Hso. rewrite HX in Hso. split; cbn.
  - by apply Hback.
  - intros e. rewrite !of_put. case_decide; [subst|apply (q_fifo _ _ _ Hq)].
    rewrite (q_fifo _ _ _ Hq), HX, <-!Permutation_middle, app_nil_r. done.
  - intros e. eapply sorted_ext; [apply pos_set_time|]. rewrite of_put. case_decide; [by apply sorted_insert|apply (q_sorted _ _ _ Hq)].
  - intros e x. rewrite of_put. assert (x ∈ of_dir X e ∨ e = d ∧ x = a → ∃ r0, rqs y !! x = Some r0 ∧ rq_write r0 = e) as Hx.
    { intros [Hx|[-> ->]]; [by apply (q_dir _ _ _ Hq)|by exists r]. }
    intros Hin. destruct Hx as (r0 & Hr0 & <-).
    { case_decide; [subst e|by left]. apply elem_insert in Hin as [->|?]; [by right|left; by rewrite HX]. }
    by apply set_time_dir.
  - intros e. rewrite of_put. destruct (q_next _ _ _ Hq e) as [?|Hn]; [by left|right]. case_decide; [subst e|done].
    apply elem_insert. right. by rewrite <-HX.
  - apply (q_single _ _ _ Hq).
Qed.

Lemma filter_out (a : Z) xs1 xs2 : NoDup (xs1 ++ a :: xs2) → filter (λ x, x ≠ a) (xs1 ++ a :: xs2) = xs1 ++ xs2.
Proof.
  intros (_ & H1 & [H2 _]%NoDup_cons)%NoDup_app. rewrite filter_app, filter_cons, decide_False by naive_solver.
  f_equal; apply filter_all; intros x Hx ->; [apply (H1 a Hx); by left|done].
Qed.

Lemma queued_nonzero y X F d x : queued y X F → x ∈ of_dir X d → x ≠ 0.
Proof.
  intros Hq Hx. destruct (forest_focus _ _ _ _ d (q_forest _ _ _ Hq)) as (G & (t & N & Hr & _ & Hin) & _). rewrite <-Hin in Hx.
  apply list_elem_of_split in Hx as (xs1 & xs2 & Hx). destruct (locate t _ _ _ Hx) as (k & c & l & r & -> & _ & _).
  apply (rep_plug _ k) in Hr. by eapply rep_top.
Qed.
Lemma queued_dir y X F d e x : queued y X F → x ∈ of_dir X d → x ∈ of_dir X e → d = e.
Proof. intros Hq Hd He. destruct (q_dir _ _ _ Hq d x Hd) as (r & H1 & <-). destruct (q_dir _ _ _ Hq e x He) as (r' & H2 & <-). congruence. Qed.

(** The invariant after a request has left. *)
Lemma queued_remove y X F d xs1 a xs2 m s' n :
  queued y X F → of_dir X d = xs1 ++ a :: xs2 →
  forest (mem s') (put (sort_list (dd y)) d (top s')) (put X d (xs1 ++ xs2)) (one (a, m) ++ F) →
  (∀ e, of_dir n e = 0 ∨ of_dir n e ∈ of_dir (put X d (xs1 ++ xs2)) e) → rd n = 0 ∨ wr n = 0 →
  queued (with_dd y (set_tree (set_next (rq_fifo_clear (dd y) a) n) d s')) (put X d (xs1 ++ xs2)) (one (a, m) ++ F).
Proof.
  intros Hq HX Hf Hn Hsg. pose proof (queued_nodup _ _ _ d Hq) as Hnd. rewrite HX in Hnd. split; cbn.
  - done.
  - intros e. assert (of_dir (Two (filter (λ x, x ≠ a) (rd (fifo_list (dd y)))) (filter (λ x, x ≠ a) (wr (fifo_list (dd y))))) e =
      filter (λ x, x ≠ a) (of_dir (fifo_list (dd y)) e)) as -> by (by destruct e).
    rewrite (q_fifo _ _ _ Hq), of_put. case_decide as He; [subst e; by rewrite HX, filter_out|].
    rewrite filter_all; [done|]. intros x Hx ->. apply He. eapply (queued_dir _ _ _ _ _ a Hq Hx). rewrite HX. set_solver.
  - intros e. rewrite of_put. pose proof (q_sorted _ _ _ Hq e) as Hs. case_decide; [subst e; rewrite HX in Hs; by eapply sorted_remove|done].
  - intros e x. rewrite of_put. intros Hx. apply (q_dir _ _ _ Hq). case_decide; [subst e; rewrite HX; set_solver|done].
  - done.
  - done.
Qed.

Lemma deadline_remove_spec y X F d xs1 a xs2 :
  queued y X F → of_dir X d = xs1 ++ a :: xs2 →
  wp (deadline_remove_request (dd y) (rqs y) a) (λ D', ∃ m,
    queued (with_dd y D') (put X d (xs1 ++ xs2)) (one (a, m) ++ F) ∧ same_run (dd y) D' ∧ last_sector D' = last_sector (dd y) ∧
    (∀ e, of_dir (fifo_list D') e = filter (λ x, x ≠ a) (of_dir (fifo_list (dd y)) e)) ∧
    next_rq D' = if of_dir (next_rq (dd y)) d =? a then put (next_rq (dd y)) d (hd 0 xs2) else next_rq (dd y)).
Proof.
  intros Hq HX. assert (a ∈ of_dir X d) as Hin by (rewrite HX; set_solver).
  destruct (q_dir _ _ _ Hq d a Hin) as (r & Ha & Hd). destruct (forest_focus _ _ _ _ d (q_forest _ _ _ Hq)) as (G & Ht & Hback).
  rewrite HX in Ht. unfold deadline_remove_request, deadline_del_rq_rb. apply wp_bind. exists r. split; [done|].
  unfold rq_data_dir. rewrite Hd. set (n := if of_dir (next_rq (dd y)) d =? a then put (next_rq (dd y)) d (hd 0 xs2) else next_rq (dd y)).
  apply wp_bind. eapply wp_mono with (P := λ D, D = set_next (rq_fifo_clear (dd y) a) n).
  { unfold n. cbn [next_rq rq_fifo_clear set_fifo]. destruct (of_dir (next_rq (dd y)) d =? a).
    - apply wp_bind. unfold deadline_latter_request. exists (hd 0 xs2). split; [by eapply rb_next_spec|by apply wp_ret].
    - by apply wp_ret. }
  intros D ->. apply wp_bind. eapply wp_mono; [by eapply elv_rb_del_spec|]. intros s' (m & Hs'). apply wp_ret. exists m.
  assert (rbtree s' (xs1 ++ xs2) (G ++ one (a, m) ++ F)) as Hs2 by (eapply rbtree_perm; [|exact Hs']; perm).
  split_and!; [|by repeat split|done|by intros []|done].
  apply queued_remove; [done|done|by apply Hback| |].
  - intros e. unfold n. rewrite of_put. pose proof (q_next _ _ _ Hq e) as Hne.
    destruct (Z.eqb_spec (of_dir (next_rq (dd y)) d) a) as [E|E]; rewrite ?of_put; case_decide; subst; try done.
    + destruct xs2; cbn; [by left|right; set_solver].
    + rewrite HX in Hne. set_solver.
  - unfold n. destruct (Z.eqb_spec (of_dir (next_rq (dd y)) d) a) as [E|E]; [|apply (q_single _ _ _ Hq)].
    pose proof (queued_nonzero _ _ _ _ _ Hq Hin). pose proof (q_single _ _ _ Hq). destruct d; cbn in *; [left|right]; lia.
Qed.

(** ** Dispatching *)
Lemma queued_run y X F b l st : queued y X F → queued (with_dd y (set_run (dd y) b l st)) X F.
Proof. intros [? ? ? ? ? ?]. by split. Qed.
Lemma queued_next y X F n :
  queued y X F → (∀ e, of_dir n e = 0 ∨ of_dir n e ∈ of_dir X e) → rd n = 0 ∨ wr n = 0 → queued (with_dd y (set_next (dd y) n)) X F.
Proof. intros [? ? ? ? ? ?] Hn Hs. by split. Qed.

(** [a], between [xs1] and [xs2] in direction [d], has gone to the dispatch queue. *)
Record sent (y : sys) (X : two (list Z)) (F : cells_of) (d : bool) (xs1 : list Z) (a : Z) (xs2 : list Z) (b st : Z) (y' : sys) : Prop := {
  s_was : of_dir X d = xs1 ++ a :: xs2;
  s_queued : ∃ m, queued y' (put X d (xs1 ++ xs2)) (one (a, m) ++ F);
  s_queue : queue_head (queue y') = queue_head (queue y) ++ [a];
  s_next : next_rq (dd y') = put (Two 0 0) d (hd 0 xs2);
  s_fifo e : of_dir (fifo_list (dd y')) e = filter (λ x, x ≠ a) (of_dir (fifo_list (dd y)) e);
  s_rqs : rqs y' = rqs y;
  s_batching : batching (dd y') = b;
  s_starved : starved (dd y') = st;
  s_settings : fifo_expire (dd y') = fifo_expire (dd y) ∧ fifo_batch (dd y') = fifo_batch (dd y) ∧
               writes_starved (dd y') = writes_starved (dd y) ∧ front_merges (dd y') = front_merges (dd y) }.

Lemma dispatch_request_spec y X F d xs1 a xs2 :
  queued y X F → of_dir X d = xs1 ++ a :: xs2 →
  wp (dispatch_request y a) (λ x, x.2 = 1 ∧ sent y X F d xs1 a xs2 (u32 (batching (dd y) + 1)) (starved (dd y)) x.1).
Proof.
  intros Hq HX. assert (a ∈ of_dir X d) as Hin by (rewrite HX; set_solver). destruct (q_dir _ _ _ Hq d a Hin) as (r & Ha & Hd).
  destruct (forest_focus _ _ _ _ d (q_forest _ _ _ Hq)) as (G & Ht & _). rewrite HX in Ht.
  pose proof (queued_nodup _ _ _ d Hq) as Hnd. rewrite HX in Hnd.
  unfold dispatch_request, deadline_move_request. apply wp_bind, wp_bind. exists r. split; [done|]. unfold rq_data_dir. rewrite Hd.
  apply wp_bind. exists (hd 0 xs2). split; [by eapply rb_next_spec|]. cbn beta zeta.
  set (n := put (Two 0 0) d (hd 0 xs2)). unfold deadline_move_to_dispatch. cbn [dd rqs queue with_dd batching starved set_next set_run last_sector].
  assert (hd 0 xs2 ≠ a) as Hna.
  { destruct xs2 as [|b xs2]; cbn; [by intros <-; eapply (queued_nonzero _ _ _ _ _ Hq Hin)|]. intros ->.
    apply NoDup_app in Hnd as (_ & _ & [Hnd _]%NoDup_cons). set_solver. }
  assert (queued (with_dd y (set_run (set_next (dd y) n) (u32 (batching (dd y) + 1)) (rq_end_sector r) (starved (dd y)))) X F) as Hq1.
  { apply (queued_run (with_dd y (set_next (dd y) n))). apply queued_next; [done|intros e; unfold n; rewrite of_put|destruct d; cbn; auto].
    case_decide; [subst e|left; by destruct e]. rewrite HX. destruct xs2; cbn; [by left|right; set_solver]. }
  apply wp_bind. eapply wp_mono; [exact (deadline_remove_spec _ X F d xs1 a xs2 Hq1 HX)|].
  intros D (m & HqD & (Hb & Hst & He & Hfb & Hws & Hfm) & _ & Hfi & Hnx). cbn [dd with_dd next_rq set_run set_next] in Hnx.
  unfold n in Hnx. rewrite of_put, decide_True, (proj2 (Z.eqb_neq _ _)) in Hnx by done.
  apply wp_bind. unfold elv_dispatch_add_tail. apply wp_bind. exists r. split; [done|]. apply wp_ret, wp_ret, wp_ret. split; [done|].
  split; cbn; try done. exists m. destruct HqD as [? ? ? ? ? ?]. by split.
Qed.

Lemma sent_run y X F d xs1 a xs2 b st y' b0 l0 st0 :
  sent (with_dd y (set_run (dd y) b0 l0 st0)) X F d xs1 a xs2 b st y' → sent y X F d xs1 a xs2 b st y'.
Proof. intros [? ? ? ? ? ? ? ? ?]. by split. Qed.
Lemma fifo_tree y X F d : queued y X F → of_dir (fifo_list (dd y)) d ≠ [] → RB_EMPTY_ROOT (tree_of (dd y) d) = false.
Proof.
  intros Hq Hne. destruct (forest_focus _ _ _ _ d (q_forest _ _ _ Hq)) as (G & (t & N & Hr & _ & Hin) & _).
  unfold RB_EMPTY_ROOT, tree_of. cbn. apply Z.eqb_neq. pose proof Hr as [_ Ht]. cbn in Ht. rewrite Ht. destruct t as [|c l a r]; [|by eapply rep_top].
  intros _. apply Hne. pose proof (q_fifo _ _ _ Hq d) as Hp. rewrite <-Hin in Hp. by apply Permutation_nil_r in Hp.
Qed.

(** The request a new batch starts with: the oldest one if it has expired or
    there is nothing to go on with, else the next in sector order. *)
Definition expired (y : sys) (jiffies : Z) (d : bool) : bool :=
  match head (of_dir (fifo_list (dd y)) d) with
  | Some a => match rqs y !! a with Some r => time_after jiffies (rq_fifo_time r) | None => false end
  | None => false
  end.
Definition pick (y : sys) (jiffies : Z) (d : bool) : Z :=
  if expired y jiffies d || (of_dir (next_rq (dd y)) d =? 0) then hd 0 (of_dir (fifo_list (dd y)) d) else of_dir (next_rq (dd y)) d.

Lemma find_request_spec y X F jiffies d :
  queued y X F → of_dir (fifo_list (dd y)) d ≠ [] →
  wp (dispatch_find_request y jiffies d) (λ x, x.2 = 1 ∧ ∃ xs1 xs2, sent y X F d xs1 (pick y jiffies d) xs2 1 (starved (dd y)) x.1).
Proof.
  intros Hq Hne. pose proof (q_fifo _ _ _ Hq d) as Hp. destruct (of_dir (fifo_list (dd y)) d) as [|a fs] eqn:Hf; [done|].
  assert (a ∈ of_dir X d) as Ha by (rewrite <-Hp; set_solver). destruct (q_dir _ _ _ Hq d a Ha) as (r & Hr & Hd).
  assert (pick y jiffies d ∈ of_dir X d) as Hin.
  { unfold pick. rewrite Hf. destruct (q_next _ _ _ Hq d) as [->|Hn]; [rewrite Z.eqb_refl, orb_true_r; done|].
    destruct (expired y jiffies d || _); done. }
  unfold dispatch_find_request, deadline_check_fifo. apply wp_bind, wp_bind. rewrite Hf. exists a. split; [done|].
  apply wp_bind. exists r. split; [done|]. apply wp_ret. apply wp_bind. exists (pick y jiffies d). split.
  { unfold pick, expired. rewrite Hf. cbn. rewrite Hr. by destruct (time_after jiffies (rq_fifo_time r) || _). }
  apply list_elem_of_split in Hin as (xs1 & xs2 & HX).
  eapply wp_mono; [eapply dispatch_request_spec; [by apply queued_run|exact HX]|]. intros [y' r'] [Hr' Hs]. split; [done|].
  exists xs1, xs2. by apply sent_run in Hs.
Qed.

(** Which request is dispatched, and the counters [b] and [st] after it. *)
Definition in_batch (D : deadline_data) : bool :=
  (truthy (wr (next_rq D)) || truthy (rd (next_rq D))) && (batching D <? u32 (fifo_batch D)).
Inductive policy (y : sys) (jiffies : Z) : bool → Z → Z → Z → Prop :=
  | go_on d a : in_batch (dd y) = true → of_dir (next_rq (dd y)) d = a → a ≠ 0 →
      policy y jiffies d a (u32 (batching (dd y) + 1)) (starved (dd y))
  | start_read st : in_batch (dd y) = false → rd (fifo_list (dd y)) ≠ [] →
      (wr (fifo_list (dd y)) = [] ∧ st = starved (dd y) ∨
       wr (fifo_list (dd y)) ≠ [] ∧ starved (dd y) < u32 (writes_starved (dd y)) ∧ st = u32 (starved (dd y) + 1)) →
      policy y jiffies false (pick y jiffies false) 1 st
  | start_write : in_batch (dd y) = false → wr (fifo_list (dd y)) ≠ [] →
      (rd (fifo_list (dd y)) = [] ∨ u32 (writes_starved (dd y)) ≤ starved (dd y)) →
      policy y jiffies true (pick y jiffies true) 1 0.

Lemma writes_spec y X F jiffies :
  queued y X F → wr (fifo_list (dd y)) ≠ [] →
  wp (dispatch_writes y jiffies) (λ x, x.2 = 1 ∧ ∃ xs1 xs2, sent y X F true xs1 (pick y jiffies true) xs2 1 0 x.1).
Proof.
  intros Hq Hne. unfold dispatch_writes. rewrite (fifo_tree y X F true) by done.
  eapply wp_mono; [eapply (find_request_spec (with_dd y (set_run (dd y) (batching (dd y)) (last_sector (dd y)) 0)) X F); [by apply queued_run|done]|].
  intros [y' r] [Hr (xs1 & xs2 & Hs)]. split; [done|]. exists xs1, xs2. by apply sent_run in Hs.
Qed.

Lemma fifo_nil y X F d : queued y X F → of_dir (fifo_list (dd y)) d = [] ↔ of_dir X d = [].
Proof.
  intros Hq. pose proof (q_fifo _ _ _ Hq d) as Hp. split; intros E0; rewrite E0 in Hp.
  - by apply Permutation_nil_l in Hp.
  - by apply Permutation_nil_r in Hp.
Qed.
Lemma dispatch_correct y X F jiffies :
  queued y X F →
  wp (deadline_dispatch_requests y jiffies) (λ x,
    (rd X = [] ∧ wr X = [] ∧ x = (y, 0)) ∨
    ((rd X ≠ [] ∨ wr X ≠ []) ∧ x.2 = 1 ∧ ∃ d a b st xs1 xs2, policy y jiffies d a b st ∧ sent y X F d xs1 a xs2 b st x.1)).
Proof.
  intros Hq. pose proof (fifo_nil y X F false Hq) as Hfr. pose proof (fifo_nil y X F true Hq) as Hfw. cbn in Hfr, Hfw.
  unfold deadline_dispatch_requests.
  assert (truthy (if truthy (wr (next_rq (dd y))) then wr (next_rq (dd y)) else rd (next_rq (dd y))) && (batching (dd y) <? u32 (fifo_batch (dd y)))
    = in_batch (dd y)) as -> by (unfold in_batch; by destruct (truthy (wr (next_rq (dd y)))) eqn:E; rewrite ?E).
  destruct (in_batch (dd y)) eqn:Hb.
  - assert (∃ d, of_dir (next_rq (dd y)) d = (if truthy (wr (next_rq (dd y))) then wr (next_rq (dd y)) else rd (next_rq (dd y))) ∧
      of_dir (next_rq (dd y)) d ≠ 0) as (d & Hd & H0).
    { unfold in_batch in Hb. apply andb_true_iff in Hb as [Hb _]. unfold truthy in *.
      destruct (Z.eqb_spec (wr (next_rq (dd y))) 0); cbn in *; [exists false|exists true; done].
      destruct (Z.eqb_spec (rd (next_rq (dd y))) 0); cbn in *; [done|]. done. }
    rewrite <-Hd. destruct (q_next _ _ _ Hq d) as [?|Hin]; [done|]. pose proof Hin as Hin'.
    apply list_elem_of_split in Hin as (xs1 & xs2 & HX). eapply wp_mono; [by eapply dispatch_request_spec|]. intros x [Hx Hs].
    right. split; [destruct d; [right|left]; intros E0; cbn in Hin'; rewrite E0 in Hin'; by apply elem_of_nil in Hin'|]. split; [done|].
    eexists d, (of_dir (next_rq (dd y)) d), _, _, xs1, xs2. split; [by apply go_on|exact Hs].
  - case_bool_decide as Hr; case_bool_decide as Hw; cbn [negb].
    + apply wp_ret. left. naive_solver.
    + eapply wp_mono; [by eapply writes_spec|]. intros x (Hx & xs1 & xs2 & Hs). right. split; [naive_solver|]. split; [done|].
      eexists true, _, _, _, xs1, xs2. split; [apply start_write; auto|exact Hs].
    + rewrite (fifo_tree y X F false) by done. eapply wp_mono; [by eapply find_request_spec|]. intros x (Hx & xs1 & xs2 & Hs).
      right. split; [naive_solver|]. split; [done|]. eexists false, _, _, _, xs1, xs2. split; [apply start_read; auto|exact Hs].
    + rewrite (fifo_tree y X F false) by done. destruct (Z.leb_spec (u32 (writes_starved (dd y))) (starved (dd y))) as [Hst|Hst].
      * eapply wp_mono; [eapply (writes_spec (with_dd y (set_run (dd y) (batching (dd y)) (last_sector (dd y)) (u32 (starved (dd y) + 1)))) X F); [by apply queued_run|done]|].
        intros x (Hx & xs1 & xs2 & Hs). right. split; [naive_solver|]. split; [done|].
        eexists true, _, _, _, xs1, xs2. split; [apply start_write; auto|]. by apply sent_run in Hs.
      * eapply wp_mono; [eapply (find_request_spec (with_dd y (set_run (dd y) (batching (dd y)) (last_sector (dd y)) (u32 (starved (dd y) + 1)))) X F); [by apply queued_run|done]|].
        intros x (Hx & xs1 & xs2 & Hs). right. split; [naive_solver|]. split; [done|].
        eexists false, _, _, _, xs1, xs2. split; [apply start_read; eauto|]. by apply sent_run in Hs.
Qed.

(** C12: the dispatcher: when nothing is queued it does nothing and returns 0.
    Otherwise it returns 1 and moves exactly one request, chosen by the policy, to
    the end of the dispatch queue: it goes on with the batch in sector order while
    the batch is not used up; a new batch goes to the reads unless there are none or
    the writes have waited for [writes_starved] batches, and starts with the oldest
    request if that has expired. The request leaves both its tree and its fifo; the
    trees stay red-black and sorted and hold the same requests as the fifos; no
    BUG_ON is hit. *)
Theorem deadline_dispatch y X F jiffies :
  queued y X F →
  ∃ y' r, deadline_dispatch_requests y jiffies = Some (y', r) ∧
    ((rd X = [] ∧ wr X = [] ∧ y' = y ∧ r = 0) ∨
     ((rd X ≠ [] ∨ wr X ≠ []) ∧ r = 1 ∧
      ∃ d a b st xs1 xs2, policy y jiffies d a b st ∧ sent y X F d xs1 a xs2 b st y')).
Proof.
  intros Hq. destruct (dispatch_correct y X F jiffies Hq) as ([y' r] & Hd & [(Hr & Hw & E0)|(Hne & Hr & Hs)]); exists y', r; (split; [done|]).
  - injection E0 as -> ->. by left.
  - by right.
Qed.

(** ** Starvation *)

(** A request that is not queued and can be added. *)
Definition idle (y : sys) (rq : Z) : Prop := ∃ X F, queued y X F ∧ rq ∈ F.*1 ∧ is_Some (rqs y !! rq).
(** [serves y n y']: from [y], [n] calls of the dispatcher and any number of new
    requests in between lead to [y']. *)
Inductive serves (y : sys) : Z → sys → Prop :=
  | serves_refl : serves y 0 y
  | serves_add n y1 jiffies rq y2 : serves y n y1 → idle y1 rq → deadline_add_request y1 jiffies rq = Some y2 → serves y n y2
  | serves_dispatch n y1 jiffies y2 r : serves y n y1 → deadline_dispatch_requests y1 jiffies = Some (y2, r) → serves y (n + 1) y2.

(** How many reads can still go before a waiting write. *)
Definition patience (D : deadline_data) : Z :=
  (if rd (next_rq D) =? 0 then 0 else Z.max 0 (fifo_batch D - batching D)) +
  Z.max 0 (writes_starved D - starved D) * Z.max 1 (fifo_batch D).
Definition sane (D : deadline_data) : Prop :=
  is_u32 (batching D) ∧ is_u32 (starved D) ∧ 0 ≤ fifo_batch D < 2 ^ 31 ∧ 0 ≤ writes_starved D < 2 ^ 31.

Lemma queued_perm y X F F' : F ≡ₚ F' → queued y X F → queued y X F'.
Proof.
  intros HF [Hf ? ? ? ? ?]. split; [|done..]. destruct Hf as (tr & tw & nr & nw & Hs & Hrest). exists tr, tw, nr, nw.
  split; [|done]. eapply sat_perm; [|exact Hs]. by rewrite HF.
Qed.

Lemma policy_read y jiffies a b st :
  policy y jiffies false a b st → wr (fifo_list (dd y)) ≠ [] → sane (dd y) →
  (rd (next_rq (dd y)) ≠ 0 ∧ batching (dd y) < fifo_batch (dd y) ∧ b = batching (dd y) + 1 ∧ st = starved (dd y)) ∨
  (b = 1 ∧ starved (dd y) < writes_starved (dd y) ∧ st = starved (dd y) + 1).
Proof.
  intros Hp Hw (Hb & Hst & Hfb & Hws). unfold is_u32 in *. inversion Hp as [d' a' Hin Hn H0|st' Hin Hr Hwr|]; subst.
  - left. unfold in_batch in Hin. apply andb_true_iff in Hin as [_ Hlt%Z.ltb_lt]. rewrite u32_small in Hlt by lia.
    rewrite u32_small by lia. done.
  - right. destruct Hwr as [[? _]|(_ & Hlt & ->)]; [done|]. rewrite u32_small in Hlt by lia. rewrite u32_small by lia. done.
Qed.
(** A write waits: the dispatcher serves it, or loses patience. *)
Lemma dispatch_patience y X F jiffies y' r :
  queued y X F → wr (fifo_list (dd y)) ≠ [] → sane (dd y) → deadline_dispatch_requests y jiffies = Some (y', r) →
  ∃ a X' F', queue_head (queue y') = queue_head (queue y) ++ [a] ∧ queued y' X' F' ∧ rqs y' = rqs y ∧
    ((∃ ra, rqs y !! a = Some ra ∧ rq_write ra = true) ∨
     wr (fifo_list (dd y')) ≠ [] ∧ sane (dd y') ∧ patience (dd y') < patience (dd y) ∧
     fifo_batch (dd y') = fifo_batch (dd y) ∧ writes_starved (dd y') = writes_starved (dd y)).
Proof.
  intros Hq Hw (Hb & Hst & Hfb & Hws) Hd. destruct (dispatch_correct y X F jiffies Hq) as (x & E0 & Hx). rewrite Hd in E0. injection E0 as <-.
  pose proof (fifo_nil y X F true Hq) as Hnil. cbn in Hnil. destruct Hx as [(_ & HwX & _)|(_ & _ & d & a & b & st & xs1 & xs2 & Hp & Hs)]; [naive_solver|].
  cbn in Hs. destruct Hs as [Hwas [m Hq'] Hqh Hnx _ Hrq Hba Hsta (_ & Hfb' & Hws' & _)]. exists a. eexists _, _. split; [done|]. split; [exact Hq'|].
  split; [done|]. destruct d.
  - left. apply (q_dir _ _ _ Hq true). cbn in *. rewrite Hwas. set_solver.
  - right. cbn [of_dir put] in *. assert (wr (fifo_list (dd y')) ≠ []) as Hw'.
    { intros E0. apply Hw, Hnil. apply (fifo_nil y' _ _ true Hq') in E0. done. }
    split; [done|]. unfold sane, patience. rewrite Hfb', Hws', Hnx, Hba, Hsta. cbn [rd].
    apply policy_read in Hp; [|done|done]. unfold is_u32 in *.
    destruct Hp as [(Hn & Hlt & -> & ->)|(-> & Hlt & ->)].
    + rewrite (proj2 (Z.eqb_neq (rd (next_rq (dd y))) 0)) by done. split; [lia|]. split; [|done]. destruct (hd 0 xs2 =? 0); lia.
    + split; [lia|]. split; [|done]. rewrite !(Z.max_r 0 (writes_starved _ - _)) by lia.
      destruct (hd 0 xs2 =? 0), (rd (next_rq (dd y)) =? 0); lia.
Qed.

(** A write among the requests dispatched since [y]. *)
Definition wrote (y y' : sys) : Prop :=
  ∃ l a r, queue_head (queue y') = queue_head (queue y) ++ l ∧ a ∈ l ∧ rqs y' !! a = Some r ∧ rq_write r = true.
Definition grown (y y' : sys) : Prop := ∃ l, queue_head (queue y') = queue_head (queue y) ++ l.

Lemma wrote_more y y1 y2 :
  wrote y y1 → (∃ l, queue_head (queue y2) = queue_head (queue y1) ++ l) →
  (∀ a r, rqs y1 !! a = Some r → ∃ r', rqs y2 !! a = Some r' ∧ rq_write r' = rq_write r) → wrote y y2.
Proof.
  intros (l & a & r & Hl & Ha & Hr & Hw) [l' Hl'] Hk. destruct (Hk a r Hr) as (r' & Hr' & Hd).
  exists (l ++ l'), a, r'. rewrite Hl', Hl, app_assoc. split_and!; [done|set_solver|done|congruence].
Qed.
Lemma dispatch_queue y X F jiffies y' r : queued y X F → deadline_dispatch_requests y jiffies = Some (y', r) →
  (∃ X' F', queued y' X' F') ∧ grown y y' ∧ rqs y' = rqs y.
Proof.
  intros Hq Hd. destruct (dispatch_correct y X F jiffies Hq) as (x & E0 & Hx). rewrite Hd in E0. injection E0 as <-.
  destruct Hx as [(_ & _ & [= -> ->])|(_ & _ & d & a & b & st & xs1 & xs2 & _ & [_ [m Hq'] Hqh _ _ Hrq _ _ _])].
  - split_and!; [eauto|exists []; by rewrite app_nil_r|done].
  - split_and!; [eauto|by exists [a]|done].
Qed.
Lemma add_queue y X F jiffies rq y' : queued y X F → idle y rq → deadline_add_request y jiffies rq = Some y' →
  (∃ X' F', queued y' X' F') ∧ queue y' = queue y ∧ same_run (dd y) (dd y') ∧ next_rq (dd y') = next_rq (dd y) ∧
  (wr (fifo_list (dd y)) ≠ [] → wr (fifo_list (dd y')) ≠ []) ∧
  (∀ a r, rqs y !! a = Some r → ∃ r', rqs y' !! a = Some r' ∧ rq_write r' = rq_write r).
Proof.
  intros _ (X1 & F1 & Hq & HF & [r Hr]) Ha. apply list_elem_of_fmap in HF as ([b m] & -> & HF). cbn in *.
  apply list_elem_of_split in HF as (G1 & G2 & ->).
  assert (queued y X1 (one (b, m) ++ (G1 ++ G2))) as Hq1.
  { eapply queued_perm; [|exact Hq]. rewrite <-Permutation_middle. by rewrite one_eq. }
  destruct (deadline_add_spec y X1 (G1 ++ G2) b m r jiffies Hq1 Hr) as (y2 & E0 & xs1 & xs2 & _ & Hq2 & Hrun & Hn & Hqe & Hf & Hrq).
  rewrite Ha in E0. injection E0 as <-. split_and!; [eauto|done|done|done| |].
  - rewrite Hf. destruct (rq_write r); cbn; [|done]. intros _ E0. by apply app_eq_nil in E0 as [_ ?].
  - intros a ra Hra. rewrite Hrq. by apply set_time_dir.
Qed.

Lemma serves_patience y X F n y' :
  queued y X F → wr (fifo_list (dd y)) ≠ [] → sane (dd y) → serves y n y' →
  (∃ X' F', queued y' X' F') ∧ grown y y' ∧
  (wrote y y' ∨ wr (fifo_list (dd y')) ≠ [] ∧ sane (dd y') ∧ patience (dd y') + n ≤ patience (dd y)).
Proof.
  intros Hq Hw Hs. induction 1 as [|n y1 jiffies rq y2 Hsv IH Hid Hadd|n y1 jiffies y2 r Hsv IH Hdis].
  - split_and!; [eauto|exists []; by rewrite app_nil_r|right]. split_and!; [done|done|lia].
  - destruct IH as ((X1 & F1 & Hq1) & [l Hl] & IH). destruct (add_queue _ _ _ _ _ _ Hq1 Hid Hadd) as (Hq2 & Hqe & (Hb & Hst & He & Hfb & Hws & _) & Hn & Hf & Hk).
    split_and!; [done|exists l; by rewrite Hqe|]. destruct IH as [IH|(Hw1 & Hs1 & Hp)].
    + left. eapply wrote_more; [exact IH|exists []; by rewrite Hqe, app_nil_r|done].
    + right. split; [by apply Hf|]. unfold sane, patience in *. rewrite Hb, Hst, Hfb, Hws, Hn. done.
  - destruct IH as ((X1 & F1 & Hq1) & [l Hl] & IH). destruct (dispatch_queue _ _ _ _ _ _ Hq1 Hdis) as (Hq2 & [l' Hl'] & Hrq).
    split_and!; [done|exists (l ++ l'); by rewrite Hl', Hl, app_assoc|]. destruct IH as [IH|(Hw1 & Hs1 & Hp)].
    + left. eapply wrote_more; [exact IH|by exists l'|]. rewrite Hrq. eauto.
    + destruct (dispatch_patience _ _ _ _ _ _ Hq1 Hw1 Hs1 Hdis) as (a & X2 & F2 & Hqh & _ & _ & [(ra & Hra & Hwr)|(Hw2 & Hs2 & Hp2 & _)]).
      * left. exists (l ++ [a]), a, ra. rewrite Hqh, Hl, app_assoc, Hrq. split_and!; [done|set_solver|done|done].
      * right. split_and!; [done|done|lia].
Qed.

(** C13: writes are not starved: while a write is queued, at most
    (writes_starved + 1) * max 1 fifo_batch requests are dispatched before a write
    is, whatever requests arrive meanwhile. *)
Theorem deadline_no_starvation y X F n y' :
  queued y X F → wr (fifo_list (dd y)) ≠ [] → sane (dd y) → serves y n y' →
  (writes_starved (dd y) + 1) * Z.max 1 (fifo_batch (dd y)) < n → wrote y y'.
Proof.
  intros Hq Hw Hs Hsv Hn. destruct (serves_patience _ _ _ _ _ Hq Hw Hs Hsv) as (_ & _ & [?|(_ & (Hb' & _) & Hp)]); [done|].
  exfalso. assert (0 ≤ patience (dd y')) as H0.
  { unfold patience. assert (0 ≤ Z.max 0 (writes_starved (dd y') - starved (dd y')) * Z.max 1 (fifo_batch (dd y'))) by (apply Z.mul_nonneg_nonneg; lia).
    destruct (_ =? 0); lia. }
  destruct Hs as (Hb & Hst & Hfb & Hws). unfold patience at 2 in Hp. unfold is_u32 in *.
  assert (Z.max 0 (writes_starved (dd y) - starved (dd y)) * Z.max 1 (fifo_batch (dd y)) ≤ writes_starved (dd y) * Z.max 1 (fifo_batch (dd y)))
    by (apply Z.mul_le_mono_nonneg_r; lia).
  destruct (rd (next_rq (dd y)) =? 0); lia.
Qed.

(** ** Merging *)
Lemma queued_known y X F d : queued y X F → known (rqs y) (of_dir X d).
Proof. intros Hq x Hx. destruct (q_dir _ _ _ Hq d x Hx) as (r & Hr & _). by exists r. Qed.
(** A front merge is found exactly when a queued request of the direction starts
    where the bio ends and the block layer accepts it. *)
Lemma deadline_merge_spec ok y X F b :
  queued y X F → truthy (front_merges (dd y)) = true →
  wp (deadline_merge ok y b) (λ x, let sector := u64 (bi_sector b + bio_sectors b) in
    (x.1 = ELEVATOR_FRONT_MERGE ∧ x.2 ∈ of_dir X (bi_write b) ∧ pos (rqs y) x.2 = sector ∧ ok x.2 b = true) ∨
    (x = (ELEVATOR_NO_MERGE, 0) ∧ ((∀ a, a ∈ of_dir X (bi_write b) → pos (rqs y) a ≠ sector) ∨
                                    ∃ a, a ∈ of_dir X (bi_write b) ∧ pos (rqs y) a = sector ∧ ok a b = false))).
Proof.
  intros Hq Hfm. unfold deadline_merge. rewrite Hfm. destruct (forest_focus _ _ _ _ (bi_write b) (q_forest _ _ _ Hq)) as (G & Ht & _).
  apply wp_bind. eapply wp_mono; [exact (elv_rb_find_spec _ _ _ _ _ Ht (q_sorted _ _ _ Hq _) (queued_known _ _ _ _ Hq))|].
  intros a [(Ha & H0 & Hp)|[-> Hno]].
  - rewrite truthy_true by done. destruct (queued_known _ _ _ _ Hq a Ha) as [r Hr]. apply wp_bind. exists r. split; [done|].
    assert (blk_rq_pos r = u64 (bi_sector b + bio_sectors b)) as -> by (rewrite <-Hp; unfold pos; by rewrite Hr).
    rewrite Z.eqb_refl. cbn [negb]. destruct (ok a b) eqn:Hok; apply wp_ret; [left; done|right; split; [done|right; by exists a]].
  - apply wp_ret. right. auto.
Qed.

Lemma sorted_on R R' xs : (∀ x, x ∈ xs → pos R' x = pos R x) → sorted R xs → sorted R' xs.
Proof.
  intros HR Hso. unfold sorted in *. induction Hso as [|a l Hs IH Ha]; constructor; [apply IH; set_solver|].
  rewrite Forall_forall in *. intros b Hb. rewrite !HR by set_solver. by apply Ha.
Qed.
Lemma put_put {A} (x : two A) d a b : put (put x d a) d b = put x d b.
Proof. by destruct x, d. Qed.
Definition with_rqs (y : sys) (R : requests) : sys := {| dd := dd y; rqs := R; queue := queue y |}.
(** A front merge moved the start of [req]: [deadline_merged_request] sorts it in
    again, and everything else stays where it was. *)
Lemma deadline_merged_request_spec y X F R d xs1 req xs2 r :
  queued (with_rqs y R) X F → of_dir X d = xs1 ++ req :: xs2 →
  rqs y !! req = Some r → rq_write r = d → (∀ x, x ≠ req → rqs y !! x = R !! x) →
  wp (deadline_merged_request y req ELEVATOR_FRONT_MERGE) (λ y', ∃ ys1 ys2, xs1 ++ xs2 = ys1 ++ ys2 ∧
    queued y' (put X d (ys1 ++ req :: ys2)) F ∧ same_run (dd y) (dd y') ∧ fifo_list (dd y') = fifo_list (dd y) ∧
    next_rq (dd y') = next_rq (dd y) ∧ queue y' = queue y).
Proof.
  intros Hq HX Hr Hd HR. destruct (forest_focus _ _ _ _ d (q_forest _ _ _ Hq)) as (G & Ht & Hback). rewrite HX in Ht. cbn in Ht, Hback.
  pose proof (queued_nodup _ _ _ d Hq) as Hnd. rewrite HX in Hnd.
  assert (∀ x, x ∈ xs1 ++ xs2 → rqs y !! x = R !! x) as HR'.
  { intros x Hx. apply HR. intros ->. apply NoDup_app in Hnd as (_ & H1 & [H2 _]%NoDup_cons). apply elem_of_app in Hx as [Hx|Hx]; [|done].
    apply (H1 req Hx). by left. }
  pose proof (q_sorted _ _ _ Hq d) as Hso. rewrite HX in Hso. apply sorted_remove in Hso.
  pose proof (queued_known _ _ _ d Hq) as Hkn. cbn in Hkn, Hso.
  assert (sorted (rqs y) (xs1 ++ xs2)) as Hso'.
  { eapply sorted_on; [|exact Hso]. intros x Hx. unfold pos. by rewrite HR'. }
  unfold deadline_merged_request. rewrite Z.eqb_refl. apply wp_bind. exists r. split; [done|]. unfold rq_data_dir. rewrite Hd.
  apply wp_bind. eapply wp_mono; [by eapply elv_rb_del_spec|]. intros s1 (m & H1).
  destruct (elv_rb_add_spec s1 (rqs y) (xs1 ++ xs2) req m (G ++ F)) as (ys1 & ys2 & Hys & Hle & Hlt & Hwp); [done|done| |by eexists|].
  { intros x Hx. rewrite HR' by done. apply Hkn. rewrite HX. set_solver. }
  unfold deadline_add_rq_rb. apply wp_bind, wp_bind. exists r. split; [done|]. unfold rq_data_dir. rewrite Hd.
  assert (tree_of (set_tree (dd y) d s1) d = s1) as -> by (unfold tree_of, set_tree; cbn; rewrite of_put, decide_True by done; by destruct s1).
  apply wp_bind. eapply wp_mono; [exact Hwp|]. intros s2 H2. apply wp_ret, wp_ret. exists ys1, ys2. split_and!; [done| |by repeat split|done|done|done].
  split; cbn.
  - rewrite put_put. by apply Hback.
  - intros e. rewrite of_put. pose proof (q_fifo _ _ _ Hq e) as Hfi. cbn in Hfi. case_decide; [subst e|done]. by rewrite Hfi, HX, <-!Permutation_middle, Hys.
  - intros e. rewrite of_put. case_decide as He; [rewrite Hys in Hso'; by apply sorted_insert|].
    eapply sorted_on; [|apply (q_sorted _ _ _ Hq e)]. intros x Hx. unfold pos. rewrite HR; [done|]. intros ->.
    apply He. eapply queued_dir; [exact Hq|exact Hx|rewrite HX; set_solver].
  - intros e x Hx. destruct (decide (x = req)) as [->|Hne]; [exists r; split; [done|]|rewrite HR by done; apply (q_dir _ _ _ Hq)].
    + rewrite of_put in Hx. case_decide; [by subst|]. rewrite Hd. apply (queued_dir _ _ _ _ _ req Hq); [rewrite HX; set_solver|exact Hx].
    + rewrite of_put in Hx. case_decide; [subst e|done]. rewrite HX. apply elem_insert in Hx as [?|Hx]; [done|]. rewrite <-Hys in Hx. set_solver.
  - intros e. rewrite of_put. destruct (q_next _ _ _ Hq e) as [?|Hn]; [by left|right]. case_decide; [subst e|done].
    apply elem_insert. rewrite HX in Hn. apply elem_insert in Hn. by rewrite <-Hys.
  - apply (q_single _ _ _ Hq).
Qed.
Lemma move_none (l : list Z) (req next : Z) : next ∉ l → (l ≫= (λ x, if decide (x = next) then [x; req] else [x])) = l.
Proof. induction l as [|x l IH]; intros Hn; [done|]. cbn. rewrite decide_False by set_solver. cbn. f_equal. apply IH. set_solver. Qed.
(** list_move puts [req] behind [next], wherever it was. *)
Lemma list_move_spec (l : list Z) (req next : Z) : NoDup l → next ∈ l → req ≠ next →
  ∃ l1 l2, (filter (λ x, x ≠ req) l = l1 ++ next :: l2) ∧ (next ∉ l1 ++ l2) ∧ list_move l req next = l1 ++ next :: req :: l2.
Proof.
  intros Hnd Hn Hne. assert (next ∈ filter (λ x, x ≠ req) l) as Hf by (apply list_elem_of_filter; done).
  apply (NoDup_filter (λ x, x ≠ req)) in Hnd. apply list_elem_of_split in Hf as (l1 & l2 & Hf). exists l1, l2. rewrite Hf in Hnd.
  apply NoDup_app in Hnd as (_ & H1 & [H2 _]%NoDup_cons). assert (next ∉ l1) as H3 by (intros Hx; apply (H1 _ Hx); by left).
  split_and!; [done|set_solver|]. unfold list_move. rewrite Hf, bind_app. cbn. rewrite decide_True by done. cbn. by rewrite !move_none.
Qed.
Lemma filter_perm (l : list Z) (a : Z) : NoDup l → a ∈ l → a :: filter (λ x, x ≠ a) l ≡ₚ l.
Proof. intros Hnd (l1 & l2 & ->)%list_elem_of_split. rewrite filter_out by done. by rewrite Permutation_middle. Qed.
(** Moving [req] in its fifo and giving it another deadline keeps the invariant. *)
Lemma queued_move y X F d req next t : queued y X F → req ∈ of_dir X d → next ∈ of_dir X d → req ≠ next →
  queued {| dd := set_fifo (dd y) (put (fifo_list (dd y)) d (list_move (of_dir (fifo_list (dd y)) d) req next));
            rqs := set_time (rqs y) req t; queue := queue y |} X F.
Proof.
  intros Hq Hr Hn Hne. pose proof (queued_nodup _ _ _ d Hq) as Hnd. rewrite <-(q_fifo _ _ _ Hq d) in Hnd, Hr, Hn. split; cbn.
  - apply (q_forest _ _ _ Hq).
  - intros e. rewrite of_put. case_decide; [subst e|apply (q_fifo _ _ _ Hq)].
    destruct (list_move_spec _ req next Hnd Hn Hne) as (l1 & l2 & H1 & _ & ->).
    rewrite <-(q_fifo _ _ _ Hq d), <-(filter_perm _ req Hnd Hr), H1, <-!Permutation_middle. apply perm_swap.
  - intros e. eapply sorted_ext; [apply pos_set_time|apply (q_sorted _ _ _ Hq)].
  - intros e x Hx. destruct (q_dir _ _ _ Hq e x Hx) as (r & Hr' & <-). by apply set_time_dir.
  - apply (q_next _ _ _ Hq).
  - apply (q_single _ _ _ Hq).
Qed.

(** Merging two queued requests: [next] leaves its tree and its fifo, [req] stays
    in its sector position, and it inherits the earlier deadline of the two together
    with the fifo position that goes with it. Trees and fifos keep their invariant. *)
Theorem deadline_merged_requests_spec y X F d xs1 req next xs2 r n :
  queued y X F → of_dir X d = xs1 ++ next :: xs2 → req ∈ of_dir X d → req ≠ next →
  rqs y !! req = Some r → rqs y !! next = Some n →
  wp (deadline_merged_requests y req next) (λ y', ∃ m,
    queued y' (put X d (xs1 ++ xs2)) (one (next, m) ++ F) ∧ queue y' = queue y ∧
    if time_before (rq_fifo_time n) (rq_fifo_time r)
    then rq_fifo_time <$> rqs y' !! req = Some (rq_fifo_time n) ∧
         ∃ l1 l2, filter (λ x, x ≠ req) (of_dir (fifo_list (dd y)) d) = l1 ++ next :: l2 ∧
                  of_dir (fifo_list (dd y')) d = l1 ++ req :: l2
    else rqs y' = rqs y ∧ of_dir (fifo_list (dd y')) d = filter (λ x, x ≠ next) (of_dir (fifo_list (dd y)) d)).
Proof.
  intros Hq HX Hreq Hne Hr Hn. assert (next ∈ of_dir X d) as Hnext by (rewrite HX; set_solver).
  unfold deadline_merged_requests. apply wp_bind. exists r. split; [done|]. apply wp_bind. exists n. split; [done|].
  destruct (q_dir _ _ _ Hq d next Hnext) as (n' & Hn' & Hd). assert (n' = n) as -> by congruence. unfold rq_data_dir. rewrite Hd.
  rewrite !bool_decide_true by (by rewrite (q_fifo _ _ _ Hq)). cbn [andb]. destruct (time_before (rq_fifo_time n) (rq_fifo_time r)).
  - apply wp_bind, wp_ret, wp_bind. pose proof (queued_move y X F d req next (rq_fifo_time n) Hq Hreq Hnext Hne) as Hq1.
    eapply wp_mono; [exact (deadline_remove_spec _ X F d xs1 next xs2 Hq1 HX)|]. intros D (m & Hq2 & _ & _ & Hf & _). apply wp_ret. exists m.
    split; [done|]. split; [done|]. split; [unfold with_dd, set_time; cbn; by rewrite lookup_alter_eq, Hr|].
    pose proof (queued_nodup _ _ _ d Hq) as Hnd. rewrite <-(q_fifo _ _ _ Hq d) in Hnd, Hnext.
    destruct (list_move_spec _ req next Hnd Hnext Hne) as (l1 & l2 & H1 & H2 & H3). exists l1, l2. split; [done|].
    cbn in Hf |- *. rewrite Hf, of_put, decide_True, H3 by done. rewrite filter_app, filter_cons, decide_False by naive_solver.
    rewrite filter_cons, decide_True by done. rewrite !filter_all; [done|set_solver..].
  - apply wp_bind, wp_ret, wp_bind. eapply wp_mono; [exact (deadline_remove_spec _ X F d xs1 next xs2 Hq HX)|].
    intros D (m & Hq2 & _ & _ & Hf & _). apply wp_ret. exists m. split_and!; [done|done|done|apply Hf].
Qed.

(** ** A concrete queue: two reads and a write *)
Definition reads2 : tree := T true (T false E 32 E) 16 E.
Definition write1 : tree := T true E 48 E.
Definition busy (fb ws : Z) : sys :=
  let D := deadline_init_queue (list_to_map (cells 0 reads2 ++ cells 0 write1)) in
  {| dd := {| nodes := nodes D; sort_list := Two (ptr reads2) (ptr write1); fifo_list := Two [16; 32] [48]; next_rq := next_rq D;
              batching := batching D; last_sector := last_sector D; starved := starved D; fifo_expire := fifo_expire D;
              fifo_batch := fb; writes_starved := ws; front_merges := front_merges D |};
     rqs := {[16 := {| rq_sector := 8; rq_bytes := 512; rq_write := false; rq_time := 50 |};
              32 := {| rq_sector := 4; rq_bytes := 512; rq_write := false; rq_time := 60 |};
              48 := {| rq_sector := 6; rq_bytes := 512; rq_write := true; rq_time := 500 |}]};
     queue := {| queue_head := []; nr_sorted := 3; end_sector := 0; boundary_rq := 0; last_merge := 0; hash := ∅ |} |}.
Lemma busy_queued fb ws : queued (busy fb ws) (Two [32; 16] [48]) [].
Proof.
  split.
  - exists reads2, write1, 1%nat, 1%nat. split_and!; [|done|repeat econstructor|repeat econstructor|done|done].
    assert (Forall (λ x, is_addr x.1) (cells 0 reads2 ++ cells 0 write1 ++ [])) as Ha by (repeat (constructor; [by vm_compute|]); constructor).
    rewrite Forall_forall in Ha. split; [by apply (bool_decide_unpack _); vm_compute|by intros a n Hin; apply (Ha (a, n))|].
    intros a n Hin. rewrite app_nil_r in Hin.
    apply (elem_of_list_to_map_1 (cells 0 reads2 ++ cells 0 write1)); [by apply (bool_decide_unpack _); vm_compute|done].
  - intros []; cbn; [done|]. apply (Permutation_swap 32 16 []).
  - intros []; cbn; repeat constructor. by vm_compute.
  - intros [] x; cbn; rewrite ?elem_of_cons, elem_of_nil; intros Hx; destruct_or! Hx; subst; (done || by eexists).
  - intros []; by left.
  - by left.
Qed.
Lemma deadline_dispatch_witness :
  ∃ y', deadline_dispatch_requests (busy 16 2) 10 = Some (y', 1) ∧ queue_head (queue y') = [16] ∧
    ∃ d a b st xs1 xs2, policy (busy 16 2) 10 d a b st ∧ sent (busy 16 2) (Two [32; 16] [48]) [] d xs1 a xs2 b st y'.
Proof.
  destruct (deadline_dispatch (busy 16 2) _ [] 10 (busy_queued 16 2)) as (y' & r & Hd & [(E0 & _)|(_ & -> & Hs)]); [discriminate E0|].
  exists y'. split; [exact Hd|]. split; [|exact Hs]. vm_compute in Hd. by injection Hd as <-.
Defined.
(** [n] calls of the dispatcher. *)
Fixpoint dispatches (n : nat) (y : sys) : option sys :=
  match n with O => Some y | S n => y ← dispatches n y; x ← deadline_dispatch_requests y 10; Some x.1 end.
Lemma dispatches_serves y n : ∀ y', dispatches n y = Some y' → serves y (Z.of_nat n) y'.
Proof.
  induction n as [|n IH]; intros y'; cbn [dispatches]; [intros [= <-]; constructor|].
  destruct (dispatches n y) as [y1|]; [|done]. cbn. destruct (deadline_dispatch_requests y1 10) as [[y2 r]|] eqn:E0; [|done]. cbn.
  intros [= <-]. replace (Z.of_nat (S n)) with (Z.of_nat n + 1) by lia. eapply serves_dispatch; [by apply IH|exact E0].
Qed.
Lemma deadline_no_starvation_witness :
  ∃ y', dispatches 3 (busy 1 1) = Some y' ∧ wrote (busy 1 1) y' ∧ queue_head (queue y') = [16; 48; 32].
Proof.
  destruct (dispatches 3 (busy 1 1)) as [y'|] eqn:E0; [|vm_compute in E0; discriminate E0].
  exists y'. split; [reflexivity|]. split.
  - apply (deadline_no_starvation (busy 1 1) _ [] 3 y' (busy_queued 1 1)); [discriminate| |exact (dispatches_serves _ _ _ E0)|reflexivity].
    vm_compute. repeat split; discriminate.
  - vm_compute in E0. by injection E0 as <-.
Defined.
Lemma deadline_merged_requests_witness :
  ∃ y', deadline_merged_requests (busy 16 2) 32 16 = Some y' ∧ (∃ m, queued y' (Two [32] [48]) (one (16, m) ++ [])) ∧
    rd (fifo_list (dd y')) = [32] ∧ rq_fifo_time <$> rqs y' !! 32 = Some 50.
Proof.
  destruct (deadline_merged_requests_spec (busy 16 2) _ [] false [32] 32 16 []
    {| rq_sector := 4; rq_bytes := 512; rq_write := false; rq_time := 60 |}
    {| rq_sector := 8; rq_bytes := 512; rq_write := false; rq_time := 50 |} (busy_queued 16 2)) as (y' & Hy & m & Hq & _ & Ht & _);
    [done|by left|done|reflexivity|reflexivity|].
  exists y'. split; [exact Hy|]. split; [by exists m|]. split; [|exact Ht]. vm_compute in Hy. by injection Hy as <-.
Defined.

End Deadline.
