(* ===== verification/Timer.v ===== *)
(** * Timer: the timer wheel

    kernel/timer.c of a kernel without the dynamic tick (CONFIG_NO_HZ) and CPU
    hotplug: five vectors of lists in which a timer stands by its time of expiry,
    moved down from vector to vector (cascade) as that time comes nearer; and
    find_last_bit (lib/find_last_bit.c) with the board's __fls (asm/bitops.h).

    The work list of __run_timers, a list head on its stack, is a field of the base
    here: its timers are pending and can be deleted or modified by the handlers.
    What a processor does under the lock of a base is one step, and so is moving a
    timer to another base, since nobody else can lock the timer between the two
    locks; the handlers run without it, and what they and other processors do meanwhile is a script of
    operations. [fired] records which timer's handler was called, with its
    time of expiry, at which tick. *)

From S2P Require Import Prelude.

Module Timer.

Definition TVN_BITS : Z := 6.
Definition TVR_BITS : Z := 8.
Definition TVN_SIZE : Z := 1 .<< TVN_BITS.
Definition TVR_SIZE : Z := 1 .<< TVR_BITS.
Definition TVN_MASK : Z := TVN_SIZE - 1.
Definition TVR_MASK : Z := TVR_SIZE - 1.
Definition time_before (a b : Z) : bool := s32 (a - b) <? 0.
Definition time_after_eq (a b : Z) : bool := 0 <=? s32 (a - b).

(** A timer; [linked] is entry.next != NULL, [tbase] the processor whose base timer->base is. *)
Record timer_list := { linked : bool; expires : Z; tbase : nat; deferrable : bool; function : bool; slack : Z }.
(** A base; [tv] has tv1 to tv5 in this order. *)
Record tvec_base := {
  running_timer : option nat; timer_jiffies : Z; next_timer : Z; tv : list (list (list nat)); work_list : list nat }.
Record sys := { timers : gmap nat timer_list; bases : gmap nat tvec_base; jiffies : Z; fired : list (nat * Z * Z) }.

Definition set_linked (l : bool) (x : timer_list) : timer_list :=
  {| linked := l; expires := expires x; tbase := tbase x; deferrable := deferrable x; function := function x; slack := slack x |}.
Definition set_expires (e : Z) (x : timer_list) : timer_list :=
  {| linked := linked x; expires := e; tbase := tbase x; deferrable := deferrable x; function := function x; slack := slack x |}.
Definition timer_set_base (c : nat) (x : timer_list) : timer_list :=
  {| linked := linked x; expires := expires x; tbase := c; deferrable := deferrable x; function := function x; slack := slack x |}.
Definition set_timer_slack (n : Z) (x : timer_list) : timer_list :=
  {| linked := linked x; expires := expires x; tbase := tbase x; deferrable := deferrable x; function := function x; slack := n |}.
Definition timer_set_deferrable (x : timer_list) : timer_list :=
  {| linked := linked x; expires := expires x; tbase := tbase x; deferrable := true; function := function x; slack := slack x |}.
Definition __init_timer (cpu : nat) (x : timer_list) : timer_list :=
  {| linked := false; expires := expires x; tbase := cpu; deferrable := false; function := function x; slack := -1 |}.

Definition set_running (r : option nat) (b : tvec_base) : tvec_base :=
  {| running_timer := r; timer_jiffies := timer_jiffies b; next_timer := next_timer b; tv := tv b; work_list := work_list b |}.
Definition set_next (n : Z) (b : tvec_base) : tvec_base :=
  {| running_timer := running_timer b; timer_jiffies := timer_jiffies b; next_timer := n; tv := tv b; work_list := work_list b |}.
Definition set_tv (v : list (list (list nat))) (b : tvec_base) : tvec_base :=
  {| running_timer := running_timer b; timer_jiffies := timer_jiffies b; next_timer := next_timer b; tv := v; work_list := work_list b |}.
Definition set_jiffies (j : Z) (b : tvec_base) : tvec_base :=
  {| running_timer := running_timer b; timer_jiffies := j; next_timer := next_timer b; tv := tv b; work_list := work_list b |}.
Definition set_work (l : list nat) (b : tvec_base) : tvec_base :=
  {| running_timer := running_timer b; timer_jiffies := timer_jiffies b; next_timer := next_timer b; tv := tv b; work_list := l |}.
Definition upd_timer (t : nat) (x : timer_list) (s : sys) : sys :=
  {| timers := <[t := x]> (timers s); bases := bases s; jiffies := jiffies s; fired := fired s |}.
Definition upd_base (c : nat) (b : tvec_base) (s : sys) : sys :=
  {| timers := timers s; bases := <[c := b]> (bases s); jiffies := jiffies s; fired := fired s |}.

Definition init_timers_cpu (j : Z) : tvec_base :=
  {| running_timer := None; timer_jiffies := j; next_timer := j;
     tv := replicate (Z.to_nat TVR_SIZE) [] :: replicate 4 (replicate (Z.to_nat TVN_SIZE) []); work_list := [] |}.

(** ** The wheel *)
(** list_add_tail(&timer->entry, tv[k].vec + i) *)
Definition list_add_tail (k : nat) (i : Z) (t : nat) (b : tvec_base) : tvec_base :=
  set_tv (alter (alter (λ l, l ++ [t]) (Z.to_nat i)) k (tv b)) b.
(** __list_del: out of whichever list the timer is in *)
Definition list_del (t : nat) (b : tvec_base) : tvec_base :=
  set_work (filter (.≠ t) (work_list b)) (set_tv (map (map (filter (.≠ t))) (tv b)) b).
Definition internal_add_timer (t : nat) (expires : Z) (b : tvec_base) : tvec_base :=
  let idx := u32 (expires - timer_jiffies b) in
  if idx <? TVR_SIZE then list_add_tail 0 (expires .& TVR_MASK) t b
  else if idx <? 1 .<< (TVR_BITS + TVN_BITS) then list_add_tail 1 ((expires .>> TVR_BITS) .& TVN_MASK) t b
  else if idx <? 1 .<< (TVR_BITS + 2 * TVN_BITS) then list_add_tail 2 ((expires .>> (TVR_BITS + TVN_BITS)) .& TVN_MASK) t b
  else if idx <? 1 .<< (TVR_BITS + 3 * TVN_BITS) then list_add_tail 3 ((expires .>> (TVR_BITS + 2 * TVN_BITS)) .& TVN_MASK) t b
  else if s32 idx <? 0 then list_add_tail 0 (timer_jiffies b .& TVR_MASK) t b
  else
    let '(idx, expires) := if 0xffffffff <? idx then (0xffffffff, u32 (0xffffffff + timer_jiffies b)) else (idx, expires) in
    list_add_tail 4 ((expires .>> (TVR_BITS + 3 * TVN_BITS)) .& TVN_MASK) t b.
(** list_replace_init: the list, and the vector with it empty *)
Definition take_list (k : nat) (i : Z) (b : tvec_base) : list nat * tvec_base :=
  (default [] (tv b !! k ≫= λ v, v !! Z.to_nat i), set_tv (alter (alter (λ _, []) (Z.to_nat i)) k (tv b)) b).
Definition cascade (ts : gmap nat timer_list) (c k : nat) (index : Z) (b : tvec_base) : option tvec_base :=
  let '(l, b) := take_list k index b in
  foldl (λ r t, b ← r; x ← ts !! t; if bool_decide (tbase x = c) then Some (internal_add_timer t (expires x) b) else None) (Some b) l.
Definition INDEX (N : Z) (b : tvec_base) : Z := (timer_jiffies b .>> (TVR_BITS + N * TVN_BITS)) .& TVN_MASK.
(** The cascades of a tick: tv3 only if the index in tv2 was 0, and so on. *)
Definition cascades (ts : gmap nat timer_list) (c : nat) (b : tvec_base) : option tvec_base :=
  if negb (timer_jiffies b .& TVR_MASK =? 0) then Some b else
  let i := INDEX 0 b in b ← cascade ts c 1 i b;
  if negb (i =? 0) then Some b else
  let i := INDEX 1 b in b ← cascade ts c 2 i b;
  if negb (i =? 0) then Some b else
  let i := INDEX 2 b in b ← cascade ts c 3 i b;
  if negb (i =? 0) then Some b else cascade ts c 4 (INDEX 3 b) b.
(** One round of __run_timers up to the handlers: what is due goes to the work list. *)
Definition collect (ts : gmap nat timer_list) (c : nat) (b : tvec_base) : option tvec_base :=
  let index := timer_jiffies b .& TVR_MASK in
  b ← cascades ts c b;
  let b := set_jiffies (u32 (timer_jiffies b + 1)) b in
  let '(l, b) := take_list 0 index b in
  Some (set_work l b).

(** ** Starting and stopping timers *)
(** A binary search: unless one of the [k] high bits is set they are shifted out. *)
Definition fls_step (k : Z) (p : Z * Z) : Z * Z :=
  let '(num, word) := p in
  if truthy (word .& u32 (0xffffffff .<< (32 - k))) then (num, word) else (num - k, u32 (word .<< k)).
Definition __fls (word : Z) : Z :=
  let '(num, word) := fls_step 2 (fls_step 4 (fls_step 8 (fls_step 16 (31, word)))) in
  if truthy (word .& u32 (0xffffffff .<< 31)) then num else num - 1.
Fixpoint last_word (addr : list Z) (words : nat) (size : Z) : Z :=
  match words with
  | O => size
  | S words => let tmp := nth words addr 0 in if truthy tmp then Z.of_nat words * 32 + __fls tmp else last_word addr words size
  end.
Definition find_last_bit (addr : list Z) (size : Z) : Z :=
  let words := size / 32 in
  let tmp := nth (Z.to_nat words) addr 0 .& (0xffffffff .>> (32 - (size .& 31))) in
  if truthy (size .& 31) && truthy tmp then words * 32 + __fls tmp else last_word addr (Z.to_nat words) size.
Definition apply_slack (j : Z) (x : timer_list) (expires : Z) : Z :=
  let round expires_limit :=
    let mask := expires .^ expires_limit in
    if mask =? 0 then expires else
    let bit := find_last_bit [mask] 32 in
    let mask := u32 (s32 (1 .<< bit) - 1) in
    Z.ldiff expires_limit mask in
  if 0 <=? slack x then round (u32 (expires + slack x)) else
  let delta := s32 (expires - j) in
  if delta <? 256 then expires else round (u32 (expires + delta / 256)).
(** The next timer is to be looked for again if the one taken away could be it. *)
Definition forget_next (x : timer_list) (b : tvec_base) : tvec_base :=
  if (expires x =? next_timer b) && negb (deferrable x) then set_next (timer_jiffies b) b else b.
Definition note_next (x : timer_list) (b : tvec_base) : tvec_base :=
  if time_before (expires x) (next_timer b) && negb (deferrable x) then set_next (expires x) b else b.
(** The base of [cpu] takes the timer over unless its handler is running. *)
Definition __mod_timer (cpu t : nat) (e : Z) (pending_only : bool) (s : sys) : option (Z * sys) :=
  x ← timers s !! t;
  if negb (function x) then None else
  let c := tbase x in
  b ← bases s !! c;
  if negb (linked x) && pending_only then Some (0, s) else
  let b := if linked x then forget_next x (list_del t b) else b in
  let s := upd_base c b s in
  let c := if negb (bool_decide (cpu = c)) && negb (bool_decide (running_timer b = Some t)) then cpu else c in
  b ← bases s !! c;
  let y := set_expires e (timer_set_base c x) in
  Some (if linked x then 1 else 0, upd_timer t (set_linked true y) (upd_base c (internal_add_timer t e (note_next y b)) s)).
Definition mod_timer_pending (cpu t : nat) (e : Z) (s : sys) : option (Z * sys) := __mod_timer cpu t e true s.
Definition mod_timer (cpu t : nat) (e : Z) (s : sys) : option (Z * sys) :=
  x ← timers s !! t;
  let e := apply_slack (jiffies s) x e in
  if linked x && (expires x =? e) then Some (1, s) else __mod_timer cpu t e false s.
Definition mod_timer_pinned (cpu t : nat) (e : Z) (s : sys) : option (Z * sys) :=
  x ← timers s !! t;
  if (expires x =? e) && linked x then Some (1, s) else __mod_timer cpu t e false s.
Definition add_timer (cpu t : nat) (s : sys) : option sys :=
  x ← timers s !! t;
  if linked x then None else snd <$> mod_timer cpu t (expires x) s.
Definition add_timer_on (t cpu : nat) (s : sys) : option sys :=
  x ← timers s !! t;
  if linked x || negb (function x) then None else
  b ← bases s !! cpu;
  let y := timer_set_base cpu x in
  Some (upd_timer t (set_linked true y) (upd_base cpu (internal_add_timer t (expires y) (note_next y b)) s)).
Definition del_timer (t : nat) (s : sys) : option (Z * sys) :=
  x ← timers s !! t;
  if negb (linked x) then Some (0, s) else
  b ← bases s !! tbase x;
  Some (1, upd_timer t (set_linked false x) (upd_base (tbase x) (forget_next x (list_del t b)) s)).
Definition try_to_del_timer_sync (t : nat) (s : sys) : option (Z * sys) :=
  x ← timers s !! t;
  b ← bases s !! tbase x;
  if bool_decide (running_timer b = Some t) then Some (-1, s) else
  if negb (linked x) then Some (0, s) else
  Some (1, upd_timer t (set_linked false x) (upd_base (tbase x) (forget_next x (list_del t b)) s)).

(** ** What processors do, and the timer softirq *)
Inductive op :=
  | Mod (t : nat) (e : Z) | ModPending (t : nat) (e : Z) | ModPinned (t : nat) (e : Z) | Add (t : nat) | AddOn (t cpu : nat)
  | Del (t : nat) | TryDelSync (t : nat) | Tick.
Definition do_timer (s : sys) : sys := {| timers := timers s; bases := bases s; jiffies := u32 (jiffies s + 1); fired := fired s |}.
Definition exec_op (cpu : nat) (o : op) (s : sys) : option (Z * sys) :=
  match o with
  | Mod t e => mod_timer cpu t e s
  | ModPending t e => mod_timer_pending cpu t e s
  | ModPinned t e => mod_timer_pinned cpu t e s
  | Add t => (0,.) <$> add_timer cpu t s
  | AddOn t c => (0,.) <$> add_timer_on t c s
  | Del t => del_timer t s
  | TryDelSync t => try_to_del_timer_sync t s
  | Tick => Some (0, do_timer s)
  end.
Definition exec_ops (l : list (nat * op)) (s : sys) : option sys := foldl (λ r '(c, o), s ← r; snd <$> exec_op c o s) (Some s) l.
(** call_timer_fn, with the lock dropped: the first timer of the work list, and the next script *)
Definition call_timer_fn (c t : nat) (b : tvec_base) (script : list (nat * op)) (s : sys) : option sys :=
  x ← timers s !! t;
  let s := upd_timer t (set_linked false x) (upd_base c (list_del t (set_running (Some t) b)) s) in
  exec_ops script {| timers := timers s; bases := bases s; jiffies := jiffies s; fired := fired s ++ [(t, expires x, u32 (timer_jiffies b - 1))] |}.
(** The loops of __run_timers: a handler, a tick, or the end. *)
Definition run_round (c : nat) (st : list (list (nat * op)) * sys) : option ((list (list (nat * op)) * sys) + sys) :=
  let '(scripts, s) := st in
  b ← bases s !! c;
  match work_list b with
  | t :: _ => s ← call_timer_fn c t b (hd [] scripts) s; Some (inl (tl scripts, s))
  | [] =>
      if time_after_eq (jiffies s) (timer_jiffies b)
      then b ← collect (timers s) c b; Some (inl (scripts, upd_base c b s))
      else Some (inr (upd_base c (set_running None b) s))
  end.
Fixpoint __run_timers (fuel : nat) (c : nat) (scripts : list (list (nat * op))) (s : sys) : option sys :=
  match fuel with
  | O => None
  | S fuel => r ← run_round c (scripts, s); match r with inl (scripts, s) => __run_timers fuel c scripts s | inr s => Some s end
  end.
Definition run_timer_softirq (fuel c : nat) (scripts : list (list (nat * op))) (s : sys) : option sys :=
  b ← bases s !! c;
  if time_after_eq (jiffies s) (timer_jiffies b) then __run_timers fuel c scripts s else Some s.

(** ** Rounding to full seconds *)
Definition round_jiffies_common (HZ now j cpu : Z) (force_up : bool) : Z :=
  let original := j in
  let j := u32 (j + cpu * 3) in
  let rem := j `mod` HZ in
  let j := if (rem <? HZ / 4) && negb force_up then u32 (j - rem) else u32 (j - rem + HZ) in
  let j := u32 (j - cpu * 3) in
  if j <=? now then original else j.
Definition __round_jiffies (HZ now j cpu : Z) : Z := round_jiffies_common HZ now j cpu false.
Definition __round_jiffies_up (HZ now j cpu : Z) : Z := round_jiffies_common HZ now j cpu true.
Definition __round_jiffies_relative (HZ now j cpu : Z) : Z := u32 (round_jiffies_common HZ now (u32 (j + now)) cpu false - now).
Definition __round_jiffies_up_relative (HZ now j cpu : Z) : Z := u32 (round_jiffies_common HZ now (u32 (j + now)) cpu true - now).

(** ** The lists of a base *)
Definition wheel (b : tvec_base) : list nat := concat (map (@concat nat) (tv b)).
Definition entries (b : tvec_base) : list nat := wheel b ++ work_list b.
Definition at_slot (b : tvec_base) (k i t : nat) : Prop := ∃ v l, tv b !! k = Some v ∧ v !! i = Some l ∧ t ∈ l.
Definition slots (k : nat) : nat := if decide (k = 0%nat) then 256 else 64.
Definition shape (b : tvec_base) : Prop :=
  length (tv b) = 5%nat ∧ ∀ k v, tv b !! k = Some v → length v = slots k.

Lemma concat_insert {A} (w : list (list A)) k u v X Y :
  w !! k = Some v → X ++ u ≡ₚ Y ++ v → X ++ concat (<[k := u]> w) ≡ₚ Y ++ concat w.
Proof.
  intros Hk Hf. rewrite insert_take_drop by (by eapply lookup_lt_Some). rewrite <-(take_drop_middle w k v Hk) at 3. rewrite !concat_app. cbn [concat].
  rewrite !(Permutation_app_comm (concat (take k w))), <-!(assoc_L (++)). rewrite !app_assoc. by do 2 apply Permutation_app_tail.
Qed.
Lemma alter_insert_list {A} (f : A → A) (l : list A) i x : l !! i = Some x → alter f i l = <[i := f x]> l.
Proof.
  intros Hi. apply list_eq. intros j. destruct (decide (i = j)) as [->|Hne].
  - rewrite list_lookup_alter_eq, Hi, list_lookup_insert_eq; [done|by eapply lookup_lt_Some].
  - by rewrite list_lookup_alter_ne, list_lookup_insert_ne.
Qed.
Lemma wheel_alter (f : list nat → list nat) b k i v l X Y :
  tv b !! k = Some v → v !! i = Some l → X ++ f l ≡ₚ Y ++ l → X ++ wheel (set_tv (alter (alter f i) k (tv b)) b) ≡ₚ Y ++ wheel b.
Proof.
  intros Hk Hi Hf. unfold wheel. cbn [tv set_tv]. rewrite (alter_insert_list _ _ _ _ Hk), (alter_insert_list _ _ _ _ Hi).
  change (map (@concat nat) (<[k := <[i := f l]> v]> (tv b))) with (@concat nat <$> <[k := <[i := f l]> v]> (tv b)). rewrite list_fmap_insert.
  apply (concat_insert _ _ _ (concat v)); [by rewrite list_lookup_fmap, Hk|]. by apply (concat_insert _ _ _ l).
Qed.
Lemma slot_exists b k i : shape b → (k < 5)%nat → (i < slots k)%nat → ∃ v l, tv b !! k = Some v ∧ v !! i = Some l.
Proof.
  intros [H5 Hs] Hk Hi. destruct (lookup_lt_is_Some_2 (tv b) k) as [v Hv]; [lia|]. pose proof (Hs k v Hv) as Hl.
  destruct (lookup_lt_is_Some_2 v i) as [l Hl']; [lia|]. by exists v, l.
Qed.
Lemma shape_alter (f : list nat → list nat) b k i : shape b → shape (set_tv (alter (alter f i) k (tv b)) b).
Proof.
  intros [H5 Hs]. split; cbn [tv set_tv]; [by rewrite length_alter|]. intros k' v. destruct (decide (k = k')) as [->|Hne].
  - rewrite list_lookup_alter_eq. destruct (tv b !! k') as [u|] eqn:E; intros [= <-]. rewrite length_alter. by apply Hs.
  - rewrite list_lookup_alter_ne by done. apply Hs.
Qed.
Lemma at_slot_alter f b k i k' i' t :
  at_slot (set_tv (alter (alter f i) k (tv b)) b) k' i' t ↔
  (k', i') ≠ (k, i) ∧ at_slot b k' i' t ∨ (k', i') = (k, i) ∧ ∃ v l, tv b !! k = Some v ∧ v !! i = Some l ∧ t ∈ f l.
Proof.
  unfold at_slot. cbn [tv set_tv]. destruct (decide (k' = k)) as [->|Hk].
  - setoid_rewrite list_lookup_alter_eq. destruct (tv b !! k) as [v|]; cbn; [|naive_solver]. destruct (decide (i' = i)) as [->|Hi].
    + split; [intros (? & l & [= <-] & Hl & Ht)|intros [(? & _)|(_ & ? & l & [= <-] & Hl & Ht)]; [done|]].
      * rewrite list_lookup_alter_eq in Hl. destruct (v !! i) as [l0|] eqn:E; [|done]. injection Hl as <-. right. naive_solver.
      * eexists _, (f l). split; [done|]. by rewrite list_lookup_alter_eq, Hl.
    + split.
      * intros (? & l & [= <-] & Hl & Ht). rewrite list_lookup_alter_ne in Hl by done. left. split; [congruence|]. by exists v, l.
      * intros [(_ & ? & l & [= <-] & Hl & Ht)|(E & _)]; [|congruence]. eexists _, l. split; [done|]. by rewrite list_lookup_alter_ne.
  - setoid_rewrite list_lookup_alter_ne; [|done]. split; [intros H; left; split; [congruence|done]|]. intros [[_ H]|[E _]]; [done|congruence].
Qed.
Lemma elem_of_wheel b t : t ∈ wheel b ↔ ∃ k i, at_slot b k i t.
Proof.
  unfold wheel, at_slot. rewrite list_elem_of_In, in_concat. setoid_rewrite in_map_iff. split.
  - intros (x & (v & <- & Hv) & Ht). apply in_concat in Ht as (l & Hl & Ht). apply list_elem_of_In in Hv, Hl, Ht. apply list_elem_of_lookup in Hv as [k Hk], Hl as [i Hi]. naive_solver.
  - intros (k & i & v & l & Hv & Hl & Ht). exists (concat v). split; [exists v; split; [done|]; apply list_elem_of_In; by eapply list_elem_of_lookup_2|].
    apply in_concat. exists l. split; apply list_elem_of_In; [by eapply list_elem_of_lookup_2|done].
Qed.
Lemma entries_alter (f : list nat → list nat) b k i X Y v l :
  tv b !! k = Some v → v !! i = Some l → X ++ f l ≡ₚ Y ++ l → X ++ entries (set_tv (alter (alter f i) k (tv b)) b) ≡ₚ Y ++ entries b.
Proof. intros. unfold entries. rewrite !app_assoc. cbn [work_list set_tv]. apply Permutation_app_tail. by eapply wheel_alter. Qed.
Lemma entries_add_tail b k i t :
  shape b → (k < 5)%nat → (Z.to_nat i < slots k)%nat → entries (list_add_tail k i t b) ≡ₚ t :: entries b.
Proof.
  intros Hs Hk Hi. destruct (slot_exists b k _ Hs Hk Hi) as (v & l & Hv & Hl). apply (entries_alter _ b k _ [] [t] v l Hv Hl).
  cbn. by rewrite Permutation_app_comm.
Qed.
Lemma entries_take b k i : shape b → (k < 5)%nat → (Z.to_nat i < slots k)%nat →
  (take_list k i b).1 ++ entries (take_list k i b).2 ≡ₚ entries b.
Proof.
  intros Hs Hk Hi. destruct (slot_exists b k _ Hs Hk Hi) as (v & l & Hv & Hl). unfold take_list. cbn [fst snd]. rewrite Hv. cbn. rewrite Hl. cbn [default from_option].
  apply (entries_alter _ b k _ l [] v l Hv Hl). by rewrite app_nil_r.
Qed.
Lemma elem_take b k i u : u ∈ (take_list k i b).1 ↔ at_slot b k (Z.to_nat i) u.
Proof.
  unfold take_list, at_slot. cbn [fst]. destruct (tv b !! k) as [v|]; cbn; [|set_solver]. destruct (v !! Z.to_nat i) as [l|] eqn:E; cbn; [|naive_solver set_solver].
  naive_solver.
Qed.
Lemma at_slot_take b k i k' i' u : at_slot (take_list k i b).2 k' i' u ↔ (k', i') ≠ (k, Z.to_nat i) ∧ at_slot b k' i' u.
Proof. unfold take_list. cbn [snd]. rewrite at_slot_alter. set_solver. Qed.
Lemma at_slot_add_tail b k i t k' i' u :
  at_slot (list_add_tail k i t b) k' i' u → at_slot b k' i' u ∨ u = t ∧ k' = k ∧ i' = Z.to_nat i.
Proof.
  unfold list_add_tail. rewrite at_slot_alter. intros [[_ H]|([= -> ->] & v & l & Hv & Hl & Hu)]; [by left|].
  apply elem_of_app in Hu as [Hu|Hu]; [left; by exists v, l|]. right. set_solver.
Qed.
Lemma filter_concat {A} (P : A → Prop) `{∀ x, Decision (P x)} (w : list (list A)) : filter P (concat w) = concat (map (filter P) w).
Proof. induction w as [|l w IH]; [done|]. cbn [concat map]. by rewrite filter_app, IH. Qed.
Lemma entries_del t b : entries (list_del t b) = filter (.≠ t) (entries b).
Proof.
  unfold entries, wheel. cbn [work_list tv list_del set_work set_tv]. rewrite filter_app, filter_concat, !map_map. do 2 f_equal.
  apply map_ext. intros v. by rewrite filter_concat.
Qed.
Lemma at_slot_del t b k i u : at_slot (list_del t b) k i u ↔ at_slot b k i u ∧ u ≠ t.
Proof.
  unfold at_slot. cbn [tv list_del set_work set_tv]. change (map (map (filter (.≠ t))) (tv b)) with (map (filter (.≠ t)) <$> tv b).
  setoid_rewrite list_lookup_fmap. destruct (tv b !! k) as [v|]; cbn; [|naive_solver].
  split.
  - intros (? & l & [= <-] & Hl & Hu). change (map (filter (.≠ t)) v) with (filter (.≠ t) <$> v) in Hl. rewrite list_lookup_fmap in Hl.
    destruct (v !! i) as [l0|] eqn:E; [|done]. injection Hl as <-. apply list_elem_of_filter in Hu. naive_solver.
  - intros ((? & l & [= <-] & Hl & Hu) & Hne). eexists _, (filter (.≠ t) l). split; [done|].
    change (map (filter (.≠ t)) v) with (filter (.≠ t) <$> v). rewrite list_lookup_fmap, Hl. split; [done|]. by apply list_elem_of_filter.
Qed.
Lemma shape_del t b : shape b → shape (list_del t b).
Proof.
  intros [H5 Hs]. split; cbn [tv list_del set_work set_tv]; [by rewrite length_map|]. intros k v.
  change (map (map (filter (.≠ t))) (tv b)) with (map (filter (.≠ t)) <$> tv b). rewrite list_lookup_fmap.
  destruct (tv b !! k) eqn:E; intros [= <-]. rewrite length_map. by apply Hs.
Qed.

(** ** Where a timer stands *)
(** Whether the time of expiry is not after the tick; [internal_add_timer]'s idea of the past. *)
Definition due (T e : Z) : Prop := s32 (e - T) ≤ 0.
(** The list of a timer with time of expiry [e] at time [T]. [settled] timers need no cascade at this tick. *)
Definition placed (settled : bool) (T e : Z) (k i : nat) : Prop :=
  match k with
  | O => s32 (e - T) < 0 ∧ Z.of_nat i = T `mod` 256 ∨ u32 (e - T) < 256 ∧ Z.of_nat i = e `mod` 256
  | S k =>
      let P := 2 ^ (8 + 6 * Z.of_nat k) in
      Z.of_nat i = (e / P) `mod` 64 ∧ (if settled then e `mod` P < u32 (e - T) else e `mod` P ≤ u32 (e - T)) ∧
      u32 (e - T) < 2 ^ 31 ∧ u32 (e - T) - e `mod` P < 64 * P
  end.
#[local] Instance placed_dec se T e k i : Decision (placed se T e k i).
Proof. destruct se, k; unfold placed; cbv zeta; apply _. Defined.
Local Ltac circ := unfold is_u32, s32, u32 in *; Z.div_mod_to_equations; lia.
Lemma u32_diff e T : is_u32 e → is_u32 T → u32 (e - T) = e - T ∧ T ≤ e ∨ u32 (e - T) = e - T + 2 ^ 32 ∧ e < T.
Proof. intros. circ. Qed.
Lemma s32_u32 x : s32 (u32 x) = s32 x.
Proof. circ. Qed.
Lemma s32_diff x : s32 x = u32 x ∧ u32 x < 2 ^ 31 ∨ s32 x = u32 x - 2 ^ 32 ∧ 2 ^ 31 ≤ u32 x.
Proof. circ. Qed.
Lemma mask8 x : x .& TVR_MASK = x `mod` 256.
Proof. apply (land_mask_mod x 8). lia. Qed.
Lemma mask6 x n : 0 ≤ n → (x .>> n) .& TVN_MASK = (x / 2 ^ n) `mod` 64.
Proof. intros. rewrite Z.shiftr_div_pow2 by done. apply (land_mask_mod _ 6). lia. Qed.
Lemma index_div b n : 0 ≤ n → INDEX n b = (timer_jiffies b / 2 ^ (8 + 6 * n)) `mod` 64.
Proof. intros. unfold INDEX, TVR_BITS, TVN_BITS. rewrite mask6 by lia. by rewrite (Z.mul_comm n 6). Qed.
Lemma placed_weaken se T e k i : placed true T e k i → placed se T e k i.
Proof. destruct se; [done|]. destruct k; cbn; [done|]. intuition lia. Qed.

Lemma placed_up (k : nat) T e : 2 ^ (8 + 6 * Z.of_nat k) ≤ u32 (e - T) < 2 ^ (14 + 6 * Z.of_nat k) → u32 (e - T) < 2 ^ 31 →
  (Z.to_nat ((e / 2 ^ (8 + 6 * Z.of_nat k)) `mod` 64) < slots (S k))%nat ∧ placed true T e (S k) (Z.to_nat ((e / 2 ^ (8 + 6 * Z.of_nat k)) `mod` 64)).
Proof.
  intros Ha H31. replace (14 + 6 * Z.of_nat k) with (6 + (8 + 6 * Z.of_nat k)) in Ha by lia. rewrite (Z.pow_add_r 2 6) in Ha by lia. change (2 ^ 6) with 64 in Ha.
  unfold placed, slots. rewrite decide_False by lia. cbv zeta. set (P := 2 ^ (8 + 6 * Z.of_nat k)) in *. assert (0 < P) by (apply Z.pow_pos_nonneg; lia).
  pose proof (Z.mod_pos_bound e P ltac:(lia)). pose proof (Z.mod_pos_bound (e / P) 64 ltac:(lia)). rewrite Z2Nat.id by lia. cbv iota. lia.
Qed.
(** internal_add_timer puts the timer at the tail of one list, where it is settled. *)
Lemma internal_add_placed t e b : is_u32 e → is_u32 (timer_jiffies b) →
  ∃ k i, internal_add_timer t e b = list_add_tail k i t b ∧ (k < 5)%nat ∧ (Z.to_nat i < slots k)%nat ∧
         placed true (timer_jiffies b) e k (Z.to_nat i).
Proof.
  intros He HT. unfold internal_add_timer. cbv zeta. set (a := u32 (e - timer_jiffies b)).
  pose proof (u32_range (e - timer_jiffies b)) as Ha. fold a in Ha. rewrite !mask8, !mask6 by done.
  change (1 .<< (TVR_BITS + TVN_BITS)) with (2 ^ 14). change (1 .<< (TVR_BITS + 2 * TVN_BITS)) with (2 ^ 20).
  change (1 .<< (TVR_BITS + 3 * TVN_BITS)) with (2 ^ 26). change TVR_SIZE with 256. replace (4294967295 <? a) with false by lia. cbv iota beta.
  pose proof (s32_diff (e - timer_jiffies b)) as Hs. fold a in Hs. replace (s32 a) with (s32 (e - timer_jiffies b)) by (unfold a; clear; circ).
  destruct (a <? 256) eqn:E0; [eexists 0%nat, _; split; [done|]; unfold placed, slots; fold a; rewrite decide_True by done; Z.div_mod_to_equations; lia|].
  destruct (a <? 2 ^ 14) eqn:E1; [eexists 1%nat, _; split; [done|]; split; [lia|]; apply (placed_up 0); fold a; cbn -[Z.pow]; lia|].
  destruct (a <? 2 ^ 20) eqn:E2; [eexists 2%nat, _; split; [done|]; split; [lia|]; apply (placed_up 1); fold a; cbn -[Z.pow]; lia|].
  destruct (a <? 2 ^ 26) eqn:E3; [eexists 3%nat, _; split; [done|]; split; [lia|]; apply (placed_up 2); fold a; cbn -[Z.pow]; lia|].
  destruct (s32 (e - timer_jiffies b) <? 0) eqn:E4; [eexists 0%nat, _; split; [done|]; unfold placed, slots; fold a; rewrite decide_True by done; Z.div_mod_to_equations; lia|].
  rewrite mask6 by done. eexists 4%nat, _; split; [done|]; split; [lia|]; apply (placed_up 3); fold a; cbn -[Z.pow]; lia.
Qed.
(** An unsettled timer is in the list that this tick's cascade of its vector takes. *)
Lemma unsettled_now T e (k : nat) i : is_u32 e → is_u32 T → placed false T e (S k) i → ¬ placed true T e (S k) i →
  T `mod` 2 ^ (8 + 6 * Z.of_nat k) = 0 ∧ Z.of_nat i = (T / 2 ^ (8 + 6 * Z.of_nat k)) `mod` 64.
Proof.
  unfold placed, is_u32. cbv zeta. set (P := 2 ^ (8 + 6 * Z.of_nat k)). assert (0 < P) by (apply Z.pow_pos_nonneg; lia).
  intros He HT (Hi & Hr & H31 & Hlt) Hn. assert (Hra : e `mod` P = u32 (e - T)) by lia.
  pose proof (Z.mod_pos_bound e P ltac:(lia)). pose proof (Z.mod_le e P ltac:(lia) ltac:(lia)).
  assert (HTe : T = e - e `mod` P) by (destruct (u32_diff e T He HT) as [[-> ?]|[-> ?]] in Hra; lia).
  assert (HTP : T = e / P * P) by (pose proof (Z.div_mod e P ltac:(lia)); lia). rewrite HTP. split; [by apply Z_mod_mult|]. by rewrite Z.div_mul by lia.
Qed.
(** A tick later a settled timer that was not collected still stands where it belongs. *)
Lemma placed_next T e (k i : nat) : is_u32 e → is_u32 T → placed true T e k i → (k = 0%nat → Z.of_nat i ≠ T `mod` 256) →
  ¬ due T e ∧ placed false (u32 (T + 1)) e k i.
Proof.
  intros He HT Hp H0. pose proof (s32_diff (e - T)) as Hs. pose proof (u32_diff e T He HT) as Hu.
  assert (Hn : 0 < u32 (e - T) → u32 (e - u32 (T + 1)) = u32 (e - T) - 1).
  { intros Hpos. rewrite u32_sub_r. clear -Hpos He HT. circ. }
  unfold due. destruct k as [|k]; unfold placed in *; cbv zeta in *.
  - destruct Hp as [[_ Hi]|[Ha Hi]]; [by destruct (H0 eq_refl)|]. assert (u32 (e - T) ≠ 0) by (intros Hz; apply (H0 eq_refl); rewrite Hi; f_equal; unfold is_u32 in *; lia).
    pose proof (u32_range (e - T)). rewrite Hn by lia. lia.
  - pose proof (Z.mod_pos_bound e (2 ^ (8 + 6 * Z.of_nat k)) ltac:(apply Z.pow_pos_nonneg; lia)). rewrite Hn by lia. lia.
Qed.
(** What stands in the list of this tick is due. *)
Lemma placed_due T e (i : nat) : is_u32 e → is_u32 T → placed true T e 0 i → Z.of_nat i = T `mod` 256 → due T e.
Proof.
  intros He HT [[? _]|[Ha Hi]] HiT; unfold due; [lia|]. pose proof (s32_diff (e - T)). pose proof (u32_diff e T He HT). unfold is_u32 in *.
  assert (u32 (e - T) = 0) by (Z.div_mod_to_equations; lia). lia.
Qed.

(** ** The invariant of a base *)
Definition located (ts : gmap nat timer_list) (b : tvec_base) (n : nat) : Prop :=
  ∀ k i t, at_slot b k i t → ∃ x, ts !! t = Some x ∧ is_u32 (expires x) ∧ placed (bool_decide (k ≤ n)%nat) (timer_jiffies b) (expires x) k i.
Definition member (ts : gmap nat timer_list) (c t : nat) : Prop := ∃ x, ts !! t = Some x ∧ linked x = true ∧ tbase x = c.
Definition base_ok (ts : gmap nat timer_list) (c : nat) (b : tvec_base) : Prop :=
  is_u32 (timer_jiffies b) ∧ shape b ∧ NoDup (entries b) ∧ (∀ t, t ∈ entries b ↔ member ts c t) ∧ located ts b 0 ∧
  (∀ t x, t ∈ work_list b → ts !! t = Some x → due (u32 (timer_jiffies b - 1)) (expires x)).
(** Moves inside the wheel. *)
Definition moved (b b' : tvec_base) : Prop :=
  shape b' ∧ entries b' ≡ₚ entries b ∧ timer_jiffies b' = timer_jiffies b ∧ work_list b' = work_list b ∧
  running_timer b' = running_timer b ∧ next_timer b' = next_timer b.
Lemma at_slot_level b k i t : shape b → at_slot b k i t → (k < 5)%nat ∧ (i < slots k)%nat.
Proof. intros [H5 Hs] (v & l & Hv & Hl & _). rewrite <-(Hs k v Hv), <-H5. split; by eapply lookup_lt_Some. Qed.
Lemma elem_of_entries b t : t ∈ entries b ↔ (∃ k i, at_slot b k i t) ∨ t ∈ work_list b.
Proof. unfold entries. by rewrite elem_of_app, elem_of_wheel. Qed.
Lemma internal_add_effect t e b : is_u32 e → is_u32 (timer_jiffies b) → shape b →
  let b' := internal_add_timer t e b in
  shape b' ∧ entries b' ≡ₚ t :: entries b ∧ timer_jiffies b' = timer_jiffies b ∧ work_list b' = work_list b ∧
  running_timer b' = running_timer b ∧ next_timer b' = next_timer b ∧
  ∀ k i u, at_slot b' k i u → at_slot b k i u ∨ u = t ∧ placed true (timer_jiffies b) e k i.
Proof.
  intros He HT Hs. destruct (internal_add_placed t e b He HT) as (k & i & -> & Hk & Hi & Hp). cbv zeta.
  split_and!; try done; [by apply shape_alter|by apply entries_add_tail|].
  intros k' i' u H. apply at_slot_add_tail in H as [H|(-> & -> & ->)]; auto.
Qed.

(** cascade: every timer of the list is put in again. *)
Lemma cascade_fold (ts : gmap nat timer_list) c l b : shape b → is_u32 (timer_jiffies b) →
  (∀ u, u ∈ l → ∃ x, ts !! u = Some x ∧ tbase x = c ∧ is_u32 (expires x)) →
  ∃ b', foldl (λ r t, b ← r; x ← ts !! t; if bool_decide (tbase x = c) then Some (internal_add_timer t (expires x) b) else None) (Some b) l = Some b' ∧
    shape b' ∧ entries b' ≡ₚ l ++ entries b ∧ timer_jiffies b' = timer_jiffies b ∧ work_list b' = work_list b ∧
    running_timer b' = running_timer b ∧ next_timer b' = next_timer b ∧
    ∀ k i u, at_slot b' k i u → at_slot b k i u ∨ ∃ x, ts !! u = Some x ∧ is_u32 (expires x) ∧ placed true (timer_jiffies b) (expires x) k i.
Proof.
  revert b. induction l as [|t l IH]; intros b Hs HT Hl; [by exists b; split_and!; auto|].
  destruct (Hl t) as (x & Hx & Hc & He); [set_solver|]. cbn [foldl]. cbn. rewrite Hx. cbn. rewrite bool_decide_true by done.
  destruct (internal_add_effect t (expires x) b He HT Hs) as (Hs1 & He1 & HT1 & Hw1 & Hr1 & Hn1 & Ha1).
  destruct (IH (internal_add_timer t (expires x) b)) as (b' & -> & Hs2 & He2 & HT2 & Hw2 & Hr2 & Hn2 & Ha2); [done|by rewrite HT1|set_solver|].
  exists b'. split_and!; try congruence.
  - rewrite He2, He1. symmetry. apply Permutation_middle.
  - intros k i u H. destruct (Ha2 k i u H) as [H1|(y & Hy)]; [|right; exists y; by rewrite <-HT1].
    destruct (Ha1 k i u H1) as [?|(-> & ?)]; [by left|]. right. by exists x.
Qed.
Definition known (ts : gmap nat timer_list) (c : nat) (b : tvec_base) : Prop := ∀ t, t ∈ entries b → ∃ x, ts !! t = Some x ∧ tbase x = c.
Lemma cascade_level ts c b (n : nat) : shape b → is_u32 (timer_jiffies b) → known ts c b → (n < 4)%nat → located ts b n →
  ∃ b', cascade ts c (S n) (INDEX (Z.of_nat n) b) b = Some b' ∧ moved b b' ∧ located ts b' (S n).
Proof.
  intros Hs HT Hk Hn Hl. unfold cascade. rewrite index_div by lia. set (i := (timer_jiffies b / _) `mod` 64).
  assert (0 ≤ i < 64) by (apply Z.mod_pos_bound; lia). rewrite (surjective_pairing (take_list (S n) i b)).
  assert (Hi : (Z.to_nat i < slots (S n))%nat) by (unfold slots; rewrite decide_False by done; lia).
  destruct (cascade_fold ts c (take_list (S n) i b).1 (take_list (S n) i b).2) as (b' & Hb' & Hs' & He' & HT' & Hw' & Hr' & Hn' & Ha').
  { by apply shape_alter. } { done. }
  { intros u Hu. apply elem_take in Hu. destruct (Hl _ _ _ Hu) as (x & Hx & Hex & _). destruct (Hk u) as (y & Hy & Hc); [apply elem_of_entries; eauto|].
    exists x. naive_solver. }
  exists b'. split; [exact Hb'|]. split; [split_and!; [done|rewrite He'; apply entries_take; [done|lia|done]|done..]|].
  intros k j u H'. rewrite HT'. change (timer_jiffies (take_list (S n) i b).2) with (timer_jiffies b) in *.
  destruct (Ha' k j u H') as [H1|(x & Hx & Hex & Hp)]; [|exists x; split_and!; [done..|by apply placed_weaken]].
  apply at_slot_take in H1 as [Hne H1]. destruct (Hl _ _ _ H1) as (x & Hx & Hex & Hp). exists x. split_and!; [done..|].
  destruct (decide (k = S n)) as [->|Hkn].
  - rewrite bool_decide_false in Hp by lia. rewrite bool_decide_true by done. destruct (decide (placed true (timer_jiffies b) (expires x) (S n) j)) as [?|Hun]; [done|].
    destruct (unsettled_now _ _ _ _ Hex HT Hp Hun) as [_ Hj]. destruct Hne. f_equal. fold i in Hj. lia.
  - rewrite (bool_decide_ext _ (k ≤ n)%nat) by lia. done.
Qed.
Lemma moved_refl b : shape b → moved b b.
Proof. done. Qed.
Lemma moved_trans b1 b2 b3 : moved b1 b2 → moved b2 b3 → moved b1 b3.
Proof. intros (_ & E1 & ? & ? & ? & ?) (? & E2 & ? & ? & ? & ?). split_and!; [done|by rewrite E2, E1|congruence..]. Qed.
Lemma known_moved ts c b b' : moved b b' → known ts c b → known ts c b'.
Proof. intros (_ & E & _) Hk t. rewrite E. apply Hk. Qed.
(** No cascade above a vector whose turn it is not. *)
Lemma located_stop ts b (n : nat) : is_u32 (timer_jiffies b) → shape b →
  ((n < 4)%nat → timer_jiffies b `mod` 2 ^ (8 + 6 * Z.of_nat n) ≠ 0) → located ts b n → located ts b 4.
Proof.
  intros HT Hs Hm Hl k i t Ht. destruct (at_slot_level _ _ _ _ Hs Ht) as [Hk5 _]. destruct (Hl k i t Ht) as (x & Hx & He & Hp). exists x. split_and!; [done..|].
  rewrite (bool_decide_true (k ≤ 4)%nat) by lia. destruct (decide (k ≤ n)%nat) as [Hkn|Hkn]; [by rewrite bool_decide_true in Hp|]. rewrite bool_decide_false in Hp by done.
  destruct k as [|k]; [lia|]. destruct (decide (placed true (timer_jiffies b) (expires x) (S k) i)) as [?|Hun]; [done|].
  destruct (unsettled_now _ _ _ _ He HT Hp Hun) as [Hz _]. destruct Hm; [lia|].
  replace (8 + 6 * Z.of_nat k) with ((8 + 6 * Z.of_nat n) + 6 * Z.of_nat (k - n)) in Hz by lia. rewrite (Z.pow_add_r 2 (8 + 6 * Z.of_nat n)) in Hz by lia.
  apply Z.mod_divide in Hz; [|apply Z.neq_mul_0; split; apply Z.pow_nonzero; lia]. apply Z.mod_divide; [apply Z.pow_nonzero; lia|]. etrans; [apply Z.divide_factor_l|done].
Qed.
Lemma index_stop b (n : nat) : INDEX (Z.of_nat n) b ≠ 0 → timer_jiffies b `mod` 2 ^ (8 + 6 * Z.of_nat (S n)) ≠ 0.
Proof.
  rewrite index_div by lia. replace (8 + 6 * Z.of_nat (S n)) with ((8 + 6 * Z.of_nat n) + 6) by lia. rewrite (Z.pow_add_r 2 (8 + 6 * Z.of_nat n) 6) by lia. change (2 ^ 6) with 64.
  set (P := 2 ^ _). assert (0 < P) by (apply Z.pow_pos_nonneg; lia). intros Hi Hz. apply Hi. rewrite Z.rem_mul_r in Hz by lia.
  pose proof (Z.mod_pos_bound (timer_jiffies b) P ltac:(lia)). pose proof (Z.mod_pos_bound (timer_jiffies b / P) 64 ltac:(lia)). nia.
Qed.
Lemma cascades_settle ts c b : shape b → is_u32 (timer_jiffies b) → known ts c b → located ts b 0 →
  ∃ b', cascades ts c b = Some b' ∧ moved b b' ∧ located ts b' 4.
Proof.
  intros Hs HT Hk Hl. unfold cascades. rewrite mask8. destruct (timer_jiffies b `mod` 256 =? 0) eqn:E0; cbn [negb].
  2: { exists b. split_and!; [done..|]. apply (located_stop ts b 0); auto. intros _. change (2 ^ (8 + 6 * Z.of_nat 0)) with 256. lia. }
  assert (Hgo : ∀ (n : nat) b, shape b ∧ is_u32 (timer_jiffies b) ∧ known ts c b → (n < 4)%nat → located ts b n →
    ∃ b', cascade ts c (S n) (INDEX (Z.of_nat n) b) b = Some b' ∧ moved b b' ∧ located ts b' (S n) ∧ (shape b' ∧ is_u32 (timer_jiffies b') ∧ known ts c b') ∧
          (INDEX (Z.of_nat n) b ≠ 0 → located ts b' 4)).
  { clear. intros n b (Hs & HT & Hk) Hn Hl. destruct (cascade_level ts c b n) as (b' & ? & Hm & Hl'); [done..|]. exists b'. split_and!; try done.
    - apply Hm. - destruct Hm as (_ & _ & -> & _). done. - by eapply known_moved.
    - intros Hi. apply (located_stop ts b' (S n)); [by destruct Hm as (_ & _ & -> & _)|apply Hm| |done]. intros _.
      destruct Hm as (_ & _ & -> & _). by apply index_stop. }
  destruct (Hgo 0%nat b) as (b1 & E1 & M1 & L1 & K1 & S1); [done|lia|done|]. change (Z.of_nat 0) with 0 in *. rewrite E1. cbn -[INDEX cascade].
  destruct (INDEX 0 b =? 0) eqn:I0; cbn [negb]; [|exists b1; split_and!; try done; apply S1; lia].
  destruct (Hgo 1%nat b1) as (b2 & E2 & M2 & L2 & K2 & S2); [done|lia|done|]. change (Z.of_nat 1) with 1 in *. rewrite E2. cbn -[INDEX cascade].
  pose proof (moved_trans _ _ _ M1 M2) as M12.
  destruct (INDEX 1 b1 =? 0) eqn:I1; cbn [negb]; [|exists b2; split_and!; try done; apply S2; lia].
  destruct (Hgo 2%nat b2) as (b3 & E3 & M3 & L3 & K3 & S3); [done|lia|done|]. change (Z.of_nat 2) with 2 in *. rewrite E3. cbn -[INDEX cascade].
  pose proof (moved_trans _ _ _ M12 M3) as M13.
  destruct (INDEX 2 b2 =? 0) eqn:I2; cbn [negb]; [|exists b3; split_and!; try done; apply S3; lia].
  destruct (Hgo 3%nat b3) as (b4 & E4 & M4 & L4 & K4 & _); [done|lia|done|]. change (Z.of_nat 3) with 3 in *.
  exists b4. split_and!; [done|by eapply moved_trans|done].
Qed.
Lemma member_known ts c b : base_ok ts c b → known ts c b.
Proof. intros (_ & _ & _ & Hm & _) t Ht. apply Hm in Ht as (x & ? & _ & ?). eauto. Qed.
Lemma collect_ok ts c b : base_ok ts c b → work_list b = [] →
  ∃ b', collect ts c b = Some b' ∧ base_ok ts c b' ∧ timer_jiffies b' = u32 (timer_jiffies b + 1) ∧ running_timer b' = running_timer b ∧
    ∀ t, t ∈ work_list b' ↔ ∃ x, ts !! t = Some x ∧ linked x = true ∧ tbase x = c ∧ due (timer_jiffies b) (expires x).
Proof.
  intros Hok Hw. pose proof (member_known _ _ _ Hok) as Hk. destruct Hok as (HT & Hs & Hnd & Hm & Hl & _).
  destruct (cascades_settle ts c b Hs HT Hk Hl) as (b1 & E1 & (Hs1 & He1 & HT1 & Hw1 & Hr1 & _) & Hl1). unfold collect. rewrite E1. cbn -[cascades take_list]. rewrite HT1, mask8.
  set (i := timer_jiffies b `mod` 256). assert (Hi : 0 ≤ i < 256) by (apply Z.mod_pos_bound; lia). set (b2 := set_jiffies _ b1).
  rewrite (surjective_pairing (take_list 0 i b2)). set (l := (take_list 0 i b2).1). set (b3 := (take_list 0 i b2).2).
  assert (Hs3 : shape b3) by (by apply shape_alter).
  assert (Hent : entries (set_work l b3) ≡ₚ entries b).
  { rewrite <-He1. change (entries b1) with (entries b2). rewrite <-(entries_take b2 0 i Hs1); [|lia|unfold slots; rewrite decide_True by done; lia]. fold l b3.
    unfold entries. cbn [work_list set_work]. change (work_list b3) with (work_list b1). rewrite Hw1, Hw, app_nil_r. change (wheel (set_work l b3)) with (wheel b3). apply Permutation_app_comm. }
  assert (Hslot : ∀ k j t, at_slot b3 k j t → ∃ x, ts !! t = Some x ∧ is_u32 (expires x) ∧ ¬ due (timer_jiffies b) (expires x) ∧ placed false (u32 (timer_jiffies b + 1)) (expires x) k j).
  { intros k j t Ht. apply at_slot_take in Ht as [Hne Ht]. change (at_slot b1 k j t) in Ht. destruct (at_slot_level _ _ _ _ Hs1 Ht) as [Hk5 _].
    destruct (Hl1 _ _ _ Ht) as (x & Hx & He & Hp). rewrite bool_decide_true in Hp by lia. rewrite HT1 in Hp. exists x.
    destruct (placed_next (timer_jiffies b) (expires x) k j) as [? ?]; [done..| |done]. intros -> Hj. apply Hne. f_equal. fold i in Hj. lia. }
  assert (Hin : ∀ t, t ∈ l → ∃ x, ts !! t = Some x ∧ due (timer_jiffies b) (expires x)).
  { intros t Ht. apply elem_take in Ht. change (at_slot b1 0 (Z.to_nat i) t) in Ht. destruct (Hl1 _ _ _ Ht) as (x & Hx & He & Hp). rewrite bool_decide_true, HT1 in Hp by lia.
    exists x. split; [done|]. eapply placed_due; [done..|]. fold i. lia. }
  eexists. split; [reflexivity|]. split_and!; [|done|exact Hr1|].
  - split_and!; [apply u32_range|done|by rewrite Hent|intros t; by rewrite Hent| |].
    + intros k j t Ht. destruct (Hslot k j t Ht) as (x & Hx & He & _ & Hp). exists x. split_and!; [done..|]. destruct k; [done|]. by rewrite bool_decide_false by lia.
    + intros t x Ht Hx. change (timer_jiffies (set_work l b3)) with (u32 (timer_jiffies b + 1)). rewrite u32_sub_l. replace (timer_jiffies b + 1 - 1) with (timer_jiffies b) by lia.
      rewrite u32_small by done. destruct (Hin t Ht). naive_solver.
  - intros t. cbn [work_list set_work]. split.
    + intros Ht. destruct (Hin t Ht) as (x & Hx & Hd). destruct (proj1 (Hm t)) as (y & Hy & ? & ?); [rewrite <-Hent; apply elem_of_entries; by right|]. exists x. naive_solver.
    + intros (x & Hx & Hlk & Hc & Hd). assert (Ht : t ∈ entries (set_work l b3)) by (rewrite Hent; apply Hm; by exists x).
      apply elem_of_entries in Ht as [(k & j & Ht)|Ht]; [|done]. destruct (Hslot k j t Ht) as (y & Hy & _ & Hn & _). rewrite Hx in Hy. injection Hy as ->. done.
Qed.

(** ** The invariant under the operations *)
Lemma base_ok_ext ts c b b' :
  tv b' = tv b → timer_jiffies b' = timer_jiffies b → work_list b' = work_list b → base_ok ts c b → base_ok ts c b'.
Proof. destruct b, b'; cbn. by intros -> -> ->. Qed.
(** Only what the base says of its timers counts. *)
Lemma base_ok_other ts c b t y : base_ok ts c b → t ∉ entries b → ¬ (linked y = true ∧ tbase y = c) → base_ok (<[t := y]> ts) c b.
Proof.
  intros (HT & Hs & Hnd & Hm & Hl & Hw) Ht Hy. assert (Hne : ∀ u, u ∈ entries b → u ≠ t) by set_solver. split_and!; [done..| | |].
  - intros u. rewrite Hm. unfold member. destruct (decide (u = t)) as [->|Hut]; [|by rewrite lookup_insert_ne].
    rewrite lookup_insert_eq. split; [intros H; exfalso; by apply Ht, Hm|naive_solver].
  - intros k i u Hu. rewrite lookup_insert_ne; [by apply Hl|]. apply not_eq_sym, Hne, elem_of_entries. eauto.
  - intros u x Hu. rewrite lookup_insert_ne; [by apply Hw|]. apply not_eq_sym, Hne, elem_of_entries. eauto.
Qed.
Lemma base_ok_del ts c b t y : base_ok ts c b → ¬ (linked y = true ∧ tbase y = c) → base_ok (<[t := y]> ts) c (list_del t b).
Proof.
  intros (HT & Hs & Hnd & Hm & Hl & Hw) Hy. split_and!; [done|by apply shape_del|rewrite entries_del; by apply NoDup_filter| | |].
  - intros u. rewrite entries_del, list_elem_of_filter, Hm. unfold member. destruct (decide (u = t)) as [->|Hut]; [rewrite lookup_insert_eq; naive_solver|].
    rewrite lookup_insert_ne by done. naive_solver.
  - intros k i u Hu. apply at_slot_del in Hu as [Hu Hne]. rewrite lookup_insert_ne by done. by apply Hl.
  - intros u x Hu. cbn [work_list list_del set_work] in Hu. apply list_elem_of_filter in Hu as [Hne Hu]. rewrite lookup_insert_ne by done. by apply Hw.
Qed.
Lemma base_ok_add ts c b t y : base_ok ts c b → t ∉ entries b → linked y = true → tbase y = c → is_u32 (expires y) →
  base_ok (<[t := y]> ts) c (internal_add_timer t (expires y) b).
Proof.
  intros (HT & Hs & Hnd & Hm & Hl & Hw) Ht Hlk Hc He. assert (Hne : ∀ u, u ∈ entries b → u ≠ t) by set_solver.
  destruct (internal_add_effect t (expires y) b He HT Hs) as (Hs1 & He1 & HT1 & Hw1 & _ & _ & Ha1). split_and!; [by rewrite HT1|done|rewrite He1; by constructor| | |].
  - intros u. rewrite He1. rewrite elem_of_cons, Hm. unfold member. destruct (decide (u = t)) as [->|Hut]; [rewrite lookup_insert_eq; naive_solver|].
    rewrite lookup_insert_ne by done. naive_solver.
  - intros k i u Hu. rewrite HT1. destruct (Ha1 k i u Hu) as [H|[-> H]].
    + rewrite lookup_insert_ne; [by apply Hl|]. apply not_eq_sym, Hne, elem_of_entries. eauto.
    + exists y. rewrite lookup_insert_eq. split_and!; [done..|]. by apply placed_weaken.
  - intros u x. rewrite Hw1, HT1. intros Hu. rewrite lookup_insert_ne; [by apply Hw|]. apply not_eq_sym, Hne, elem_of_entries. eauto.
Qed.
Definition sys_ok (s : sys) : Prop :=
  is_u32 (jiffies s) ∧ (∀ t x, timers s !! t = Some x → is_u32 (expires x) ∧ is_Some (bases s !! tbase x)) ∧
  (∀ c b, bases s !! c = Some b → base_ok (timers s) c b).
(** What an operation on the timers [U] leaves alone: the other timers, and of the bases the time,
    the timer that runs, and the order of the work list. *)
Definition frame_base (U : list nat) (b b' : tvec_base) : Prop :=
  timer_jiffies b' = timer_jiffies b ∧ running_timer b' = running_timer b ∧ work_list b' `sublist_of` work_list b ∧
  ∀ t, t ∉ U → t ∈ work_list b → t ∈ work_list b'.
Definition frame (U : list nat) (s s' : sys) : Prop :=
  fired s' = fired s ∧ (∀ t, t ∉ U → timers s' !! t = timers s !! t) ∧
  (∀ t x, timers s !! t = Some x → ∃ x', timers s' !! t = Some x' ∧ function x' = function x) ∧ dom (timers s') = dom (timers s) ∧
  (∀ c b, bases s !! c = Some b → ∃ b', bases s' !! c = Some b' ∧ frame_base U b b').
Lemma frame_base_refl U b : frame_base U b b.
Proof. by repeat split. Qed.
Lemma frame_refl U s : frame U s s.
Proof. split_and!; eauto using frame_base_refl. Qed.
Lemma frame_trans U s1 s2 s3 : frame U s1 s2 → frame U s2 s3 → frame U s1 s3.
Proof.
  intros (F1 & T1 & X1 & D1 & B1) (F2 & T2 & X2 & D2 & B2). split_and!; [congruence|intros t Ht; by rewrite T2, T1| |congruence|].
  - intros t x Hx. destruct (X1 t x Hx) as (x1 & Hx1 & ?). destruct (X2 t x1 Hx1) as (x2 & ? & ?). exists x2. split; [done|congruence].
  - intros c b Hb. destruct (B1 c b Hb) as (b1 & Hb1 & J1 & R1 & W1 & M1). destruct (B2 c b1 Hb1) as (b2 & Hb2 & J2 & R2 & W2 & M2).
    exists b2. split; [done|]. split_and!; [congruence..|by etrans|auto].
Qed.
Lemma frame_weaken U V s s' : U ⊆ V → frame U s s' → frame V s s'.
Proof.
  intros HUV (F & T & X & D & B). split_and!; [done|intros t Ht; apply T; set_solver|done..|].
  intros c b Hb. destruct (B c b Hb) as (b' & ? & ? & ? & ? & M). exists b'. split; [done|]. split_and!; [done..|]. intros t Ht. apply M. set_solver.
Qed.
Definition step_ok (t : nat) (s s' : sys) : Prop := sys_ok s' ∧ jiffies s' = jiffies s ∧ frame [t] s s'.
(** A step that changes one timer and one base. *)
Lemma step_set s t x y c b b' : sys_ok s → timers s !! t = Some x → bases s !! c = Some b →
  base_ok (<[t := y]> (timers s)) c b' → (linked x = true → tbase x = c) → (linked y = true → tbase y = c) →
  is_u32 (expires y) → is_Some (bases s !! tbase y) → function y = function x → frame_base [t] b b' →
  step_ok t s (upd_timer t y (upd_base c b' s)).
Proof.
  intros (Hj & Ht & Hb) Hx Hc Hok Hlx Hly He Hby Hf Hfr. split; [split; [done|split]|split; [done|]]; cbn [timers bases jiffies fired upd_timer upd_base].
  - intros u z. destruct (decide (u = t)) as [->|Hne].
    + rewrite lookup_insert_eq. intros [= <-]. split; [done|]. destruct (decide (tbase y = c)) as [->|]; [by rewrite lookup_insert_eq|by rewrite lookup_insert_ne].
    + rewrite lookup_insert_ne by done. intros Hz. destruct (Ht u z Hz) as [? ?]. split; [done|].
      destruct (decide (tbase z = c)) as [->|]; [by rewrite lookup_insert_eq|by rewrite lookup_insert_ne].
  - intros c' d. destruct (decide (c' = c)) as [->|Hne]; [rewrite lookup_insert_eq; by intros [= <-]|]. rewrite lookup_insert_ne by done. intros Hd. pose proof (Hb c' d Hd) as Hok'.
    apply base_ok_other; [done| |naive_solver]. destruct Hok' as (_ & _ & _ & Hm & _). rewrite Hm. intros (z & Hz & ? & ?). naive_solver.
  - unfold frame. cbn [timers bases fired upd_timer upd_base]. split_and!; [done|intros u Hu; apply lookup_insert_ne; set_solver| |by apply dom_insert_lookup_L|].
    + intros u z Hz. destruct (decide (u = t)) as [->|]; [rewrite lookup_insert_eq|rewrite lookup_insert_ne by done]; naive_solver.
    + intros c' d Hd. destruct (decide (c' = c)) as [->|]; [rewrite lookup_insert_eq|rewrite lookup_insert_ne by done].
      * exists b'. naive_solver.
      * exists d. split; [done|apply frame_base_refl].
Qed.
Lemma forget_next_same x b : tv (forget_next x b) = tv b ∧ timer_jiffies (forget_next x b) = timer_jiffies b ∧
  work_list (forget_next x b) = work_list b ∧ running_timer (forget_next x b) = running_timer b.
Proof. unfold forget_next. by destruct (_ && _). Qed.
Lemma note_next_same x b : tv (note_next x b) = tv b ∧ timer_jiffies (note_next x b) = timer_jiffies b ∧
  work_list (note_next x b) = work_list b ∧ running_timer (note_next x b) = running_timer b.
Proof. unfold note_next. by destruct (_ && _). Qed.
Lemma frame_base_del t b b' : tv b' = tv (list_del t b) → timer_jiffies b' = timer_jiffies b → work_list b' = work_list (list_del t b) →
  running_timer b' = running_timer b → frame_base [t] b b'.
Proof.
  intros _ ? Hw ?. split_and!; [done..|rewrite Hw; apply sublist_filter|]. intros u Hu. rewrite Hw. cbn [work_list list_del set_work].
  intros. apply list_elem_of_filter. set_solver.
Qed.
(** Taking a pending timer out of its base. *)
Lemma detach_ok s t x b : sys_ok s → timers s !! t = Some x → bases s !! tbase x = Some b →
  step_ok t s (upd_timer t (set_linked false x) (upd_base (tbase x) (forget_next x (list_del t b)) s)).
Proof.
  intros Hok Hx Hb. destruct (forget_next_same x (list_del t b)) as (F1 & F2 & F3 & F4). pose proof Hok as (_ & Ht & Hbs). destruct (Ht t x Hx) as [He ?].
  eapply step_set; try done. - eapply base_ok_ext; [done..|]. apply base_ok_del; [by apply Hbs|]. by intros [? _]. - by apply frame_base_del.
Qed.
Lemma unlinked_out ts c b t x : base_ok ts c b → ts !! t = Some x → linked x = false → t ∉ entries b.
Proof. intros (_ & _ & _ & Hm & _) Hx Hl. rewrite Hm. intros (z & Hz & ? & _). congruence. Qed.
Lemma work_nodup ts c b : base_ok ts c b → NoDup (work_list b).
Proof. intros (_ & _ & Hnd & _). by apply NoDup_app in Hnd as (_ & _ & ?). Qed.
Lemma attach_ok s t x y c b : sys_ok s → timers s !! t = Some x → linked x = false → bases s !! c = Some b →
  linked y = true → tbase y = c → is_u32 (expires y) → function y = function x →
  step_ok t s (upd_timer t y (upd_base c (internal_add_timer t (expires y) (note_next y b)) s)).
Proof.
  intros Hok Hx Hlx Hb Hly Hc He Hf. destruct (note_next_same y b) as (N1 & N2 & N3 & N4). pose proof Hok as (_ & _ & Hbs). pose proof (Hbs c b Hb) as Hbok.
  assert (Hn : base_ok (timers s) c (note_next y b)) by (by eapply base_ok_ext). pose proof Hn as (HT & Hs & _ & Hm & _).
  destruct (internal_add_effect t (expires y) (note_next y b) He HT Hs) as (_ & _ & E3 & E4 & E5 & _).
  eapply step_set; try done; [| |by rewrite Hc, Hb|].
  - apply base_ok_add; try done. by eapply unlinked_out.
  - congruence.
  - split_and!; [congruence..|by rewrite E4, N3|]. intros u _. by rewrite E4, N3.
Qed.
Lemma step_trans t s1 s2 s3 : step_ok t s1 s2 → step_ok t s2 s3 → step_ok t s1 s3.
Proof. intros (_ & J1 & F1) (? & J2 & F2). split; [done|]. split; [congruence|by eapply frame_trans]. Qed.
Lemma step_refl t s : sys_ok s → step_ok t s s.
Proof. intros. split; [done|]. split; [done|apply frame_refl]. Qed.

(** The pending timers with their times of expiry: what the callers know of the wheel. *)
Definition pend (s : sys) : gmap nat Z := omap (λ x, if linked x then Some (expires x) else None) (timers s).
Lemma pend_upd t y c b s : pend (upd_timer t y (upd_base c b s)) = if linked y then <[t := expires y]> (pend s) else delete t (pend s).
Proof. unfold pend. cbn [timers upd_timer upd_base]. rewrite omap_insert. by destruct (linked y). Qed.
Lemma pend_lookup s t x : timers s !! t = Some x → pend s !! t = if linked x then Some (expires x) else None.
Proof. intros Hx. unfold pend. by rewrite lookup_omap, Hx. Qed.
Lemma __mod_timer_ok cpu t e po s x : sys_ok s → timers s !! t = Some x → function x = true → is_Some (bases s !! cpu) → is_u32 e →
  ∃ s', __mod_timer cpu t e po s = Some (if linked x then 1 else 0, s') ∧ step_ok t s s' ∧
        pend s' = if negb (linked x) && po then pend s else <[t := e]> (pend s).
Proof.
  intros Hok Hx Hf [bc Hbc] He. pose proof Hok as (_ & Ht & Hbs). destruct (Ht t x Hx) as [Hex [b Hb]]. unfold __mod_timer. rewrite Hx. cbn -[list_del internal_add_timer note_next forget_next upd_base upd_timer lookup]. rewrite Hf. cbn [negb]. rewrite Hb. cbn -[list_del internal_add_timer note_next forget_next upd_base upd_timer lookup].
  destruct (negb (linked x) && po) eqn:Epo.
  { destruct (linked x); [done|]. exists s. split_and!; [done|by apply step_refl|done]. }
  set (b1 := if linked x then _ else b). set (s1 := upd_timer t (set_linked false x) (upd_base (tbase x) b1 s)).
  assert (H1 : step_ok t s s1).
  { subst s1 b1. destruct (linked x) eqn:Hl; [by apply detach_ok|]. eapply step_set; try done.
    apply base_ok_other; [by apply Hbs| |by intros [? _]]. eapply unlinked_out; eauto. }
  pose proof H1 as (Hok1 & _ & _). set (c := if negb _ && negb _ then cpu else tbase x).
  assert (Hc : ∃ d, bases (upd_base (tbase x) b1 s) !! c = Some d).
  { change (is_Some (<[tbase x := b1]> (bases s) !! c)). apply lookup_insert_is_Some'. subst c. destruct (negb (bool_decide (cpu = _)) && _); eauto. }
  destruct Hc as (d & Hd). rewrite Hd. cbn -[list_del internal_add_timer note_next forget_next upd_base upd_timer lookup]. eexists. split; [reflexivity|]. set (y := set_linked true _).
  assert (Heq : ∀ d', upd_timer t y (upd_base c d' (upd_base (tbase x) b1 s)) = upd_timer t y (upd_base c d' s1)) by (intros d'; unfold s1, upd_timer, upd_base; cbn; by rewrite insert_insert_eq).
  split.
  - rewrite Heq. eapply step_trans; [exact H1|]. apply (attach_ok s1 t (set_linked false x) y c d); try done. cbn. by rewrite lookup_insert_eq.
  - rewrite pend_upd. cbn [linked y set_linked set_expires timer_set_base expires]. by unfold pend.
Qed.

(** ** The slack *)
(** Two numbers with their highest different bit [n]: the larger one, rounded down to that bit, lies between them. *)
Lemma lxor_top a b : 0 ≤ a → 0 ≤ b → a .^ b ≠ 0 → let P := 2 ^ Z.log2 (a .^ b) in
  a / P = b / P + 1 ∧ (b / P) `mod` 2 = 0 ∨ b / P = a / P + 1 ∧ (a / P) `mod` 2 = 0.
Proof.
  intros Ha Hb Hx P. set (n := Z.log2 (a .^ b)) in P. assert (Hn : 0 ≤ n) by apply Z.log2_nonneg. assert (Hxp : 0 < a .^ b) by (pose proof (proj2 (Z.lxor_nonneg a b) ltac:(lia)); lia).
  assert (H1 : (a .^ b) / P = 1) by (pose proof (Z.log2_spec _ Hxp); subst P; fold n in H; symmetry; apply (Z.div_unique _ _ _ ((a .^ b) - 2 ^ n)); rewrite Z.pow_succ_r in H by done; lia).
  unfold P in *. rewrite <-!Z.shiftr_div_pow2 in * by done. rewrite Z.shiftr_lxor in H1. set (u := a .>> n) in *. set (v := b .>> n) in *.
  assert (Huv : u = v .^ 1) by (rewrite <-H1, Z.lxor_comm, Z.lxor_assoc, Z.lxor_nilpotent, Z.lxor_0_r; done).
  assert (Hvu : v = u .^ 1) by (rewrite Huv, Z.lxor_assoc, Z.lxor_nilpotent, Z.lxor_0_r; done).
  destruct (Z.Even_or_Odd v) as [[w Hw]|[w Hw]].
  - left. rewrite Hw. split; [|by rewrite Z.mul_comm, Z_mod_mult]. rewrite Huv, Hw. symmetry. apply Z.add_nocarry_lxor. apply Z.bits_inj'. intros i Hi.
    rewrite Z.land_spec, Z.bits_0. destruct (decide (i = 0)) as [->|]; [by rewrite Z.testbit_even_0|]. replace (Z.testbit 1 i) with false by (symmetry; apply (Z.bits_above_log2 1); cbn; lia). apply andb_false_r.
  - right. assert (Hu : u = 2 * w) by (rewrite Huv, Hw; apply Z.bits_inj'; intros i Hi; rewrite Z.lxor_spec; destruct (decide (i = 0)) as [->|]; [by rewrite Z.testbit_odd_0, Z.testbit_even_0|];
      replace (Z.testbit 1 i) with false by (symmetry; apply (Z.bits_above_log2 1); cbn; lia); rewrite xorb_false_r; replace i with (Z.succ (i - 1)) by lia; rewrite Z.testbit_odd_succ, Z.testbit_even_succ by lia; done).
    rewrite Hu. split; [lia|by rewrite Z.mul_comm, Z_mod_mult].
Qed.
Lemma high_bits n w : 0 ≤ n < 32 → is_u32 w → truthy (w .& u32 (0xffffffff .<< n)) = (2 ^ n <=? w).
Proof.
  intros Hn Hw. assert (Hm : u32 (0xffffffff .<< n) = ~32 (2 ^ n - 1)).
  { rewrite Z.shiftl_mul_pow2 by lia. replace (0xffffffff * 2 ^ n) with (Z.lnot (2 ^ n - 1) + 2 ^ n * 2 ^ 32) by (unfold Z.lnot; lia). unfold u32. apply Z_mod_plus_full. }
  rewrite Hm, align_down by (unfold is_u32 in *; lia || done). pose proof (Z.pow_pos_nonneg 2 n ltac:(lia) ltac:(lia)). unfold truthy, is_u32 in *.
  destruct (2 ^ n <=? w) eqn:E; [|rewrite Z.div_small by lia; by rewrite Z.mul_0_r]. pose proof (Z.div_le_mono (2 ^ n) w (2 ^ n) ltac:(lia) ltac:(lia)) as Hq. rewrite Z.div_same in Hq by lia. nia.
Qed.
Lemma fls_step_log k num w : 0 < k ≤ 16 → 2 ^ (32 - 2 * k) ≤ w < 2 ^ 32 →
  ∃ w', fls_step k (num, w) = (num + Z.log2 w - Z.log2 w', w') ∧ 2 ^ (32 - k) ≤ w' < 2 ^ 32.
Proof.
  intros Hk Hw. pose proof (Z.pow_pos_nonneg 2 (32 - 2 * k) ltac:(lia) ltac:(lia)). unfold fls_step. rewrite high_bits by (unfold is_u32; lia). destruct (2 ^ (32 - k) <=? w) eqn:E.
  - exists w. split; [f_equal; lia|lia].
  - pose proof (Z.pow_pos_nonneg 2 k ltac:(lia) ltac:(lia)) as Hp. assert (Hs : w * 2 ^ k < 2 ^ 32) by (replace 32 with (32 - k + k) by lia; rewrite (Z.pow_add_r 2 (32 - k)) by lia; apply Z.mul_lt_mono_pos_r; lia).
    pose proof (Z.mul_nonneg_nonneg w (2 ^ k) ltac:(lia) ltac:(lia)). exists (w * 2 ^ k). rewrite Z.shiftl_mul_pow2, u32_small by lia. rewrite Z.log2_mul_pow2 by lia. split; [f_equal; lia|]. split; [|done].
    replace (32 - k) with (32 - 2 * k + k) by lia. rewrite Z.pow_add_r by lia. apply Z.mul_le_mono_nonneg_r; lia.
Qed.
Lemma __fls_log w : 0 < w < 2 ^ 32 → __fls w = Z.log2 w.
Proof.
  intros Hw. unfold __fls. destruct (fls_step_log 16 31 w) as (w1 & -> & H1); [lia|cbn; lia|]. destruct (fls_step_log 8 (31 + Z.log2 w - Z.log2 w1) w1) as (w2 & -> & H2); [lia|exact H1|].
  destruct (fls_step_log 4 (31 + Z.log2 w - Z.log2 w1 + Z.log2 w1 - Z.log2 w2) w2) as (w3 & -> & H3); [lia|exact H2|].
  destruct (fls_step_log 2 (31 + Z.log2 w - Z.log2 w1 + Z.log2 w1 - Z.log2 w2 + Z.log2 w2 - Z.log2 w3) w3) as (w4 & -> & H4); [lia|exact H3|].
  change (2 ^ (32 - 2)) with (2 ^ 30) in H4. rewrite high_bits by (unfold is_u32; lia). destruct (2 ^ 31 <=? w4) eqn:E.
  - rewrite (Z.log2_unique w4 31) by lia. lia.
  - rewrite (Z.log2_unique w4 30) by (change (2 ^ Z.succ 30) with (2 ^ 31); lia). lia.
Qed.
Lemma find_last_bit_log w : 0 < w < 2 ^ 32 → find_last_bit [w] 32 = Z.log2 w.
Proof. intros Hw. unfold find_last_bit. change (truthy (32 .& 31)) with false. change (Z.to_nat (32 / 32)) with 1%nat. cbn [andb last_word nth]. unfold truthy. replace (w =? 0) with false by lia. by apply __fls_log. Qed.
(** The slack a timer has. *)
Definition slack_of (j : Z) (x : timer_list) (e : Z) : Z :=
  if 0 <=? slack x then slack x else if s32 (e - j) <? 256 then 0 else s32 (e - j) / 256.
Lemma slack_of_range j x e : slack x < 2 ^ 31 → 0 ≤ slack_of j x e < 2 ^ 31.
Proof.
  intros Hx. unfold slack_of. pose proof (s32_range (e - j)). destruct (0 <=? slack x) eqn:E1; [lia|]. destruct (s32 (e - j) <? 256) eqn:E2; [lia|].
  set (d := s32 (e - j)) in *. Z.div_mod_to_equations. lia.
Qed.
Lemma slack_mask n : 0 ≤ n ≤ 31 → u32 (s32 (1 .<< n) - 1) = Z.ones n.
Proof.
  intros Hn. rewrite Z.ones_equiv, Z.shiftl_1_l. pose proof (Z.pow_le_mono_r 2 n 31 ltac:(lia) ltac:(lia)). pose proof (Z.pow_pos_nonneg 2 n ltac:(lia) ltac:(lia)).
  rewrite <-u32_sub_l, u32_s32, u32_sub_l. apply u32_small. change (2 ^ 32) with (2 * 2 ^ 31). lia.
Qed.
Lemma apply_slack_value j x e : is_u32 e →
  let L := u32 (e + slack_of j x e) in
  apply_slack j x e = if e .^ L =? 0 then e else let P := 2 ^ Z.log2 (e .^ L) in P * (L / P).
Proof.
  intros He. unfold apply_slack, slack_of. cbv zeta. pose proof He as [He0 He32].
  assert (Hr : ∀ L, is_u32 L → (if e .^ L =? 0 then e else Z.ldiff L (u32 (s32 (1 .<< find_last_bit [e .^ L] 32) - 1))) =
    (if e .^ L =? 0 then e else 2 ^ Z.log2 (e .^ L) * (L / 2 ^ Z.log2 (e .^ L)))).
  { intros L [HL0 HL]. destruct (e .^ L =? 0) eqn:E; [done|]. pose proof (Z.log2_nonneg (e .^ L)).
    pose proof (Z.log2_lxor e L He0 HL0). pose proof (proj2 (Z.lxor_nonneg e L) ltac:(lia)).
    assert (∀ y, 0 ≤ y < 2 ^ 32 → Z.log2 y ≤ 31) as Hlog by (intros y Hy; destruct (decide (y = 0)) as [->|]; [done|]; apply Z.lt_succ_r; apply Z.log2_lt_pow2; lia).
    pose proof (Hlog e He). pose proof (Hlog L ltac:(lia)). rewrite find_last_bit_log by (split; [lia|]; apply Z.log2_lt_cancel; change (Z.log2 (2 ^ 32)) with 32; lia). rewrite slack_mask by lia. rewrite Z.ldiff_ones_r, Z.shiftl_mul_pow2, Z.shiftr_div_pow2 by done. apply Z.mul_comm. }
  destruct (0 <=? slack x); [apply Hr, u32_range|]. destruct (s32 (e - j) <? 256); [|apply Hr, u32_range].
  rewrite Z.add_0_r, u32_small by done. by rewrite Z.lxor_nilpotent.
Qed.
Lemma apply_slack_range j x e : is_u32 e → is_u32 (apply_slack j x e).
Proof.
  intros He. rewrite apply_slack_value by done. cbv zeta. destruct (_ =? 0); [done|]. set (P := 2 ^ _). pose proof (u32_range (e + slack_of j x e)) as HL. set (L := u32 _) in *.
  assert (0 < P) by (apply Z.pow_pos_nonneg; [lia|apply Z.log2_nonneg]). pose proof (Z.div_pos L P ltac:(lia) ltac:(lia)). pose proof (Z.mul_div_le L P ltac:(lia)). unfold is_u32. nia.
Qed.
(** A multiple of [2 ^ m] between two numbers with different top bit [n]: no rounder than the upper one rounded down. *)
Lemma rounder_divides e y P m q : 0 < P → 0 ≤ m → (∃ n, 0 ≤ n ∧ P = 2 ^ n) → e / P = q → q `mod` 2 = 0 → e < y → y / P = q ∨ y / P = q + 1 →
  (2 ^ m | y) → (2 ^ m | P * (q + 1)).
Proof.
  intros HP Hm (n & Hn & ->) Hq Hev Hlt Hy Hd. destruct (decide (m ≤ n)) as [Hmn|Hmn].
  { apply Z.divide_mul_l. exists (2 ^ (n - m)). rewrite <-Z.pow_add_r by lia. f_equal. lia. }
  exfalso. assert (Hd' : (2 ^ n * 2 | y)).
  { etrans; [|done]. exists (2 ^ (m - n - 1)). replace m with (m - n - 1 + (n + 1)) at 1 by lia. rewrite !Z.pow_add_r by lia. lia. }
  destruct Hd' as [w ->]. replace (w * (2 ^ n * 2)) with (w * 2 * 2 ^ n) in * by lia. rewrite Z.div_mul in Hy by lia.
  destruct Hy as [Hy|Hy]; [|clear -Hy Hev; Z.div_mod_to_equations; lia]. pose proof (Z.mul_div_le e (2 ^ n) ltac:(lia)). nia.
Qed.


(** ** The operations against the map of pending timers *)
Definition op_timers (o : op) : list nat :=
  match o with Mod t _ | ModPending t _ | ModPinned t _ | Add t | AddOn t _ | Del t | TryDelSync t => [t] | Tick => [] end.
(** What the callers have to see to: known timers and processors, a function, and no second add_timer. *)
Definition op_legal (cpu : nat) (o : op) (s : sys) : Prop :=
  is_Some (bases s !! cpu) ∧
  match o with
  | Mod t e | ModPending t e | ModPinned t e => is_u32 e ∧ ∃ x, timers s !! t = Some x ∧ function x = true
  | Add t => ∃ x, timers s !! t = Some x ∧ function x = true ∧ linked x = false
  | AddOn t c => is_Some (bases s !! c) ∧ ∃ x, timers s !! t = Some x ∧ function x = true ∧ linked x = false
  | Del t | TryDelSync t => is_Some (timers s !! t)
  | Tick => True
  end.
Definition is_running (s : sys) (t : nat) : bool :=
  match timers s !! t ≫= λ x, bases s !! tbase x with Some b => bool_decide (running_timer b = Some t) | None => false end.
Definition is_pending (s : sys) (t : nat) : bool := bool_decide (is_Some (pend s !! t)).
Definition slacked (s : sys) (t : nat) (e : Z) : Z := match timers s !! t with Some x => apply_slack (jiffies s) x e | None => e end.
Definition expires_of (s : sys) (t : nat) : Z := match timers s !! t with Some x => expires x | None => 0 end.
Definition op_pend (o : op) (s : sys) : gmap nat Z :=
  match o with
  | Mod t e => <[t := slacked s t e]> (pend s)
  | ModPending t e => if is_pending s t then <[t := e]> (pend s) else pend s
  | ModPinned t e => <[t := e]> (pend s)
  | Add t => <[t := slacked s t (expires_of s t)]> (pend s)
  | AddOn t _ => <[t := expires_of s t]> (pend s)
  | Del t => delete t (pend s)
  | TryDelSync t => if is_running s t then pend s else delete t (pend s)
  | Tick => pend s
  end.
Definition op_result (o : op) (s : sys) : Z :=
  match o with
  | Mod t _ | ModPending t _ | ModPinned t _ | Del t => if is_pending s t then 1 else 0
  | TryDelSync t => if is_running s t then -1 else if is_pending s t then 1 else 0
  | Add _ | AddOn _ _ | Tick => 0
  end.
Lemma is_pending_linked s t x : timers s !! t = Some x → is_pending s t = linked x.
Proof. intros Hx. unfold is_pending. rewrite (pend_lookup s t x Hx). by destruct (linked x). Qed.
Lemma del_timer_ok s t x b : sys_ok s → timers s !! t = Some x → bases s !! tbase x = Some b →
  ∃ s', (if negb (linked x) then Some (0, s) else
         Some (1, upd_timer t (set_linked false x) (upd_base (tbase x) (forget_next x (list_del t b)) s))) = Some (if linked x then 1 else 0, s') ∧
        step_ok t s s' ∧ pend s' = delete t (pend s).
Proof.
  intros Hok Hx Hb. destruct (linked x) eqn:Hl; cbn [negb]; eexists; (split; [reflexivity|]).
  - split; [by apply detach_ok|]. rewrite pend_upd. done.
  - split; [by apply step_refl|]. rewrite delete_id; [done|]. by rewrite (pend_lookup s t x Hx), Hl.
Qed.
Lemma mod_timer_ok cpu t e s x : sys_ok s → timers s !! t = Some x → function x = true → is_Some (bases s !! cpu) → is_u32 e →
  ∃ s', (if linked x && (expires x =? e) then Some (1, s) else __mod_timer cpu t e false s) = Some (if linked x then 1 else 0, s') ∧
        step_ok t s s' ∧ pend s' = <[t := e]> (pend s).
Proof.
  intros Hok Hx Hf Hc He. destruct (linked x && (expires x =? e)) eqn:E.
  - apply andb_true_iff in E as [Hl E]. exists s. rewrite Hl. split; [done|]. split; [by apply step_refl|]. rewrite insert_id; [done|]. rewrite (pend_lookup s t x Hx), Hl. f_equal. lia.
  - destruct (__mod_timer_ok cpu t e false s x) as (s' & ? & ? & Hp); [done..|]. exists s'. by rewrite andb_false_r in Hp.
Qed.
Definition op_jiffies (o : op) (j : Z) : Z := match o with Tick => u32 (j + 1) | _ => j end.
Definition op_ok (o : op) (s : sys) (r : option (Z * sys)) : Prop :=
  ∃ s', r = Some (op_result o s, s') ∧ sys_ok s' ∧ jiffies s' = op_jiffies o (jiffies s) ∧ frame (op_timers o) s s' ∧ pend s' = op_pend o s.
Lemma exec_op_ok cpu o s : sys_ok s → op_legal cpu o s → op_ok o s (exec_op cpu o s).
Proof.
  intros Hok [Hc Hl].  unfold op_ok.
  destruct o as [t e|t e|t e|t|t c|t|t|]; cbn [exec_op op_result op_jiffies op_timers op_pend].
  - destruct Hl as (He & x & Hx & Hf). rewrite (is_pending_linked s t x Hx). unfold mod_timer, slacked. rewrite Hx. cbn -[__mod_timer apply_slack].
    destruct (mod_timer_ok cpu t (apply_slack (jiffies s) x e) s x) as (s' & Hs' & (? & ? & ?) & ?); [done..|by apply apply_slack_range|]. exists s'. done.
  - destruct Hl as (He & x & Hx & Hf). rewrite (is_pending_linked s t x Hx). unfold mod_timer_pending.
    destruct (__mod_timer_ok cpu t e true s x) as (s' & Hs' & (? & ? & ?) & Hp); [done..|]. exists s'. rewrite andb_true_r in Hp. destruct (linked x); done.
  - destruct Hl as (He & x & Hx & Hf). rewrite (is_pending_linked s t x Hx). unfold mod_timer_pinned. rewrite Hx. cbn -[__mod_timer]. rewrite andb_comm.
    destruct (mod_timer_ok cpu t e s x) as (s' & Hs' & (? & ? & ?) & ?); [done..|]. exists s'. done.
  - destruct Hl as (x & Hx & Hf & Hlk). unfold add_timer, mod_timer, slacked, expires_of. rewrite Hx. cbn -[__mod_timer apply_slack]. rewrite Hlk.
    destruct (mod_timer_ok cpu t (apply_slack (jiffies s) x (expires x)) s x) as (s' & Hs' & (? & ? & ?) & ?); [done..|apply apply_slack_range; exact (proj1 (proj1 (proj2 Hok) t x Hx))|].
    exists s'. rewrite Hlk in Hs'. rewrite Hs'. done.
  - destruct Hl as ([b Hb] & x & Hx & Hf & Hlk). unfold add_timer_on, expires_of. rewrite Hx. cbn -[internal_add_timer note_next]. rewrite Hlk, Hf. cbn -[internal_add_timer note_next lookup]. rewrite Hb. cbn -[internal_add_timer note_next lookup].
    eexists. split; [reflexivity|].
    destruct (attach_ok s t x (set_linked true (timer_set_base c x)) c b) as (? & ? & ?); [done..|exact (proj1 (proj1 (proj2 Hok) t x Hx))|done|].
    split; [done|]. split; [done|]. split; [done|]. by rewrite pend_upd.
  - destruct Hl as [x Hx]. destruct (proj1 (proj2 Hok) t x Hx) as (_ & b & Hb). unfold del_timer. rewrite Hx, (is_pending_linked s t x Hx). cbn -[list_del forget_next upd_timer upd_base lookup]. rewrite Hb.
    destruct (del_timer_ok s t x b Hok Hx Hb) as (s' & Hs' & (? & ? & ?) & ?). exists s'. done.
  - destruct Hl as [x Hx]. destruct (proj1 (proj2 Hok) t x Hx) as (_ & b & Hb). unfold try_to_del_timer_sync, is_running. rewrite Hx, (is_pending_linked s t x Hx). cbn -[list_del forget_next upd_timer upd_base lookup]. rewrite Hb.
    cbn -[list_del forget_next upd_timer upd_base lookup]. destruct (bool_decide (running_timer b = Some t)); [exists s; split_and!; try done; apply frame_refl|].
    destruct (del_timer_ok s t x b Hok Hx Hb) as (s' & Hs' & (? & ? & ?) & ?). exists s'. done.
  - exists (do_timer s). split; [done|]. split; [split; [apply u32_range|apply Hok]|]. split; [done|]. split; [unfold frame; cbn [do_timer timers bases fired]; apply (frame_refl [] s)|done].
Qed.

(** ** Running the timers *)
Fixpoint ticks (l : list (nat * op)) : Z := match l with [] => 0 | (_, Tick) :: l => 1 + ticks l | _ :: l => ticks l end.
Fixpoint all_ticks (ss : list (list (nat * op))) : Z := match ss with [] => 0 | l :: ss => ticks l + all_ticks ss end.
Definition touched (l : list (nat * op)) : list nat := concat (map (λ p, op_timers p.2) l).
Definition is_add (o : op) : bool := match o with Add _ | AddOn _ _ => true | _ => false end.
(** Handlers and other processors may modify and delete timers, and may not break the rules of add_timer. *)
Definition script_ok (s : sys) (l : list (nat * op)) : Prop := ∀ cpu o, (cpu, o) ∈ l → is_add o = false ∧ op_legal cpu o s.
(** The processors are the same, and so are the timers and their functions. *)
Definition compat (s s' : sys) : Prop :=
  (∀ c, is_Some (bases s !! c) → is_Some (bases s' !! c)) ∧ (∀ t x, timers s !! t = Some x → ∃ x', timers s' !! t = Some x' ∧ function x' = function x) ∧
  dom (timers s') = dom (timers s).
Lemma frame_compat U s s' : frame U s s' → compat s s'.
Proof. intros (_ & _ & X & D & B). split_and!; [|done..]. intros c [b Hb]. destruct (B c b Hb) as (b' & ? & _). eauto. Qed.
Lemma compat_trans s1 s2 s3 : compat s1 s2 → compat s2 s3 → compat s1 s3.
Proof.
  intros (B1 & X1 & D1) (B2 & X2 & D2). split_and!; [auto| |congruence]. intros t x Hx. destruct (X1 t x Hx) as (x1 & Hx1 & ?).
  destruct (X2 t x1 Hx1) as (x2 & ? & ?). exists x2. split; [done|congruence].
Qed.
Lemma script_compat s s' l : compat s s' → script_ok s l → script_ok s' l.
Proof.
  intros (B & X & _) Hl cpu o Ho. destruct (Hl cpu o Ho) as [Ha [Hc Hop]]. split; [done|]. split; [auto|].
  destruct o; try done; try (destruct Hop as (? & x & Hx & Hf); split; [done|]; destruct (X _ _ Hx) as (x' & ? & ?); exists x'; split; [done|congruence]);
    destruct Hop as [x Hx]; destruct (X _ _ Hx) as (x' & ? & _); eauto.
Qed.
Lemma exec_ops_ok l s : sys_ok s → script_ok s l →
  ∃ s', exec_ops l s = Some s' ∧ sys_ok s' ∧ jiffies s' = u32 (jiffies s + ticks l) ∧ frame (touched l) s s'.
Proof.
  revert s. induction l as [|[c o] l IH]; intros s Hok Hl.
  - exists s. split_and!; [done|apply Hok..| |apply frame_refl]. cbn. rewrite Z.add_0_r, u32_small; [done|apply Hok].
  - destruct (Hl c o) as [_ Hleg]; [set_solver|]. destruct (exec_op_ok c o s Hok Hleg) as (s1 & E1 & Hok1 & Hj1 & Hf1 & _).
    destruct (IH s1) as (s2 & E2 & Hok2 & Hj2 & Hf2); [done|eapply script_compat; [by eapply frame_compat|]; intros ? ? ?; apply Hl; set_solver|].
    exists s2. split; [unfold exec_ops in *; cbn [foldl]; cbn; by rewrite E1|]. split; [done|]. split.
    + rewrite Hj2, Hj1. destruct o; cbn [op_jiffies ticks]; try done. rewrite u32_add_l. f_equal. lia.
    + eapply frame_trans; (eapply frame_weaken; [|eassumption]); unfold touched; cbn [map concat snd]; set_solver.
Qed.

Lemma sys_ok_base c s b b' : sys_ok s → bases s !! c = Some b → base_ok (timers s) c b' → sys_ok (upd_base c b' s).
Proof.
  intros (Hj & Ht & Hbs) Hb Hb'. split; [done|]. split; cbn [timers bases upd_base].
  - intros t x Hx. destruct (Ht t x Hx) as [? ?]. split; [done|]. apply lookup_insert_is_Some'. by right.
  - intros c' d. destruct (decide (c' = c)) as [->|]; [rewrite lookup_insert_eq; by intros [= <-]|rewrite lookup_insert_ne by done; apply Hbs].
Qed.
Lemma compat_base c s b' : compat s (upd_base c b' s).
Proof. split_and!; [intros c' ?; apply lookup_insert_is_Some'; by right|eauto|done]. Qed.
(** One handler: the first timer of the work list is fired, with the others left in their order. *)
Lemma call_timer_fn_ok c t b w l s : sys_ok s → bases s !! c = Some b → work_list b = t :: w → script_ok s l →
  ∃ x s' b', timers s !! t = Some x ∧ call_timer_fn c t b l s = Some s' ∧ sys_ok s' ∧ jiffies s' = u32 (jiffies s + ticks l) ∧ compat s s' ∧
    fired s' = fired s ++ [(t, expires x, u32 (timer_jiffies b - 1))] ∧ due (u32 (timer_jiffies b - 1)) (expires x) ∧
    (t ∉ touched l → timers s' !! t = Some (set_linked false x)) ∧ (∀ u, u ≠ t → u ∉ touched l → timers s' !! u = timers s !! u) ∧
    bases s' !! c = Some b' ∧ timer_jiffies b' = timer_jiffies b ∧ work_list b' `sublist_of` w ∧ ∀ u, u ∉ touched l → u ∈ w → u ∈ work_list b'.
Proof.
  intros Hok Hb Hw Hl. pose proof Hok as (Hj & Ht & Hbs). pose proof (Hbs c b Hb) as (HT & Hs & Hnd & Hm & Hloc & Hdue).
  destruct (proj1 (Hm t)) as (x & Hx & Hlx & Hcx); [apply elem_of_entries; right; rewrite Hw; set_solver|].
  assert (Hndw : t ∉ w) by (pose proof (work_nodup _ _ _ (Hbs c b Hb)) as Hn; rewrite Hw in Hn; by eapply NoDup_cons_1_1).
  set (s0 := upd_base c (set_running (Some t) b) s).
  assert (Hok0 : sys_ok s0) by (eapply sys_ok_base; [done..|]; apply (base_ok_ext _ c b); [done..|by apply Hbs]).
  set (b1 := list_del t (set_running (Some t) b)). set (s1 := upd_timer t (set_linked false x) (upd_base c b1 s0)).
  assert (H1 : step_ok t s0 s1).
  { assert (Hb0 : bases s0 !! c = Some (set_running (Some t) b)) by (cbn; apply lookup_insert_eq). eapply step_set; try done.
    - apply base_ok_del; [by apply Hok0|by intros [? _]].
    - exact (proj1 (Ht t x Hx)).
    - cbn [tbase set_linked]. rewrite Hcx, Hb0. done.
    - by apply frame_base_del. }
  destruct H1 as (Hok1 & _ & Hf1). set (s2 := {| timers := timers s1; bases := bases s1; jiffies := jiffies s1; fired := fired s ++ [(t, expires x, u32 (timer_jiffies b - 1))] |}).
  assert (Hb1 : bases s1 !! c = Some b1) by (cbn; apply lookup_insert_eq).
  assert (Hc2 : compat s s2).
  { destruct (frame_compat _ _ _ Hf1) as (B & X & D). split_and!; [|done|done]. intros c' Hc'. apply B. apply lookup_insert_is_Some'. by right. }
  destruct (exec_ops_ok l s2) as (s3 & E3 & Hok3 & Hj3 & Hf3); [done|by eapply script_compat|]. destruct Hf3 as (F3 & T3 & X3 & D3 & B3).
  destruct (B3 c b1 Hb1) as (b3 & Hb3 & J3 & _ & W3 & M3).
  assert (Hw1 : work_list b1 = w).
  { cbn [b1 list_del work_list set_work set_running]. rewrite Hw, filter_cons_False by (intros H; by apply H). apply filter_all. intros u Hu ->. done. }
  exists x, s3, b3. split; [done|]. split.
  { unfold call_timer_fn. rewrite Hx, <-E3. cbn -[list_del]. unfold s2, s1, s0, upd_timer, upd_base. cbn -[list_del]. by rewrite insert_insert_eq. }
  split; [done|]. split; [done|]. split; [eapply compat_trans; [exact Hc2|by eapply (frame_compat (touched l))]|]. split; [done|]. split; [apply (Hdue t x); [rewrite Hw; set_solver|done]|].
  split; [intros Hu; rewrite T3 by done; cbn; apply lookup_insert_eq|]. split; [intros u Hne Hu; rewrite T3 by done; cbn; by apply lookup_insert_ne|].
  rewrite Hw1 in *. done.
Qed.

(** The ticks of [T] until a time of expiry is due; what is past is due at once. *)
Definition wait (T e : Z) : Z := Z.max 0 (s32 (e - T)).
Definition of_timer (t : nat) (F : list (nat * Z * Z)) : list (nat * Z * Z) := filter (λ f, f.1.1 = t) F.
Definition scripts_ok (s : sys) (ss : list (list (nat * op))) : Prop := ∀ l, l ∈ ss → script_ok s l.
Section run.
Context (c : nat) (s0 : sys) (T0 D A : Z) (U : list nat).
(** After [n] ticks, with the calls [F]: a timer no script touches is where it was, collected in the tick before, or fired at its tick. *)
Definition fate (n : Z) (F : list (nat * Z * Z)) (s : sys) (b : tvec_base) (t : nat) (x : timer_list) : Prop :=
  of_timer t F = [] ∧ timers s !! t = Some x ∧
    (linked x = true → tbase x = c → if bool_decide (t ∈ work_list b) then wait T0 (expires x) = n - 1 else n ≤ wait T0 (expires x)) ∨
  linked x = true ∧ tbase x = c ∧ of_timer t F = [(t, expires x, u32 (T0 + wait T0 (expires x)))] ∧ wait T0 (expires x) < n ∧
    timers s !! t = Some (set_linked false x).
Definition run_inv (n : Z) (F : list (nat * Z * Z)) (ss : list (list (nat * op))) (s : sys) (b : tvec_base) : Prop :=
  sys_ok s ∧ scripts_ok s ss ∧ concat (map touched ss) ⊆ U ∧ bases s !! c = Some b ∧ compat s0 s ∧ timer_jiffies b = u32 (T0 + n) ∧ 0 ≤ n ∧
  (∃ g, jiffies s = u32 (T0 + n + g) ∧ -1 ≤ g ∧ n + g + all_ticks ss = D ∧ all_ticks ss ≤ A) ∧ fired s = fired s0 ++ F ∧ (∀ t e j, (t, e, j) ∈ F → due j e) ∧
  ∀ t x, t ∉ U → timers s0 !! t = Some x → fate n F s b t x.
Lemma all_ticks_nonneg ss : 0 ≤ all_ticks ss.
Proof. assert (∀ l, 0 ≤ ticks l) as Ht by (intros l; induction l as [|[? []] l IH]; cbn; lia). induction ss as [|l ss IH]; cbn; [lia|]. pose proof (Ht l). lia. Qed.
Lemma all_ticks_tl ss : all_ticks ss = ticks (hd [] ss) + all_ticks (tl ss).
Proof. by destruct ss. Qed.
Lemma touched_tl ss t : t ∉ concat (map touched ss) → t ∉ touched (hd [] ss) ∧ t ∉ concat (map touched (tl ss)).
Proof. destruct ss; cbn; set_solver. Qed.

Lemma work_member s b t x : sys_ok s → bases s !! c = Some b → timers s !! t = Some x → t ∈ work_list b → linked x = true ∧ tbase x = c.
Proof.
  intros (_ & _ & Hbs) Hb Hx Ht. destruct (Hbs c b Hb) as (_ & _ & _ & Hm & _). destruct (proj1 (Hm t)) as (y & Hy & ? & ?); [apply elem_of_entries; by right|].
  rewrite Hx in Hy. by injection Hy as <-.
Qed.
Lemma of_timer_app t F G : of_timer t (F ++ G) = of_timer t F ++ of_timer t G.
Proof. apply filter_app. Qed.
Lemma fate_fired n F s s' b b' t z x j : fate n F s b t z → timers s !! t = Some x → linked x = true → tbase x = c → t ∈ work_list b →
  (n - 1 = wait T0 (expires x) → j = u32 (T0 + wait T0 (expires x))) → timers s' !! t = Some (set_linked false x) →
  fate n (F ++ [(t, expires x, j)]) s' b' t z.
Proof.
  intros [(Hf & Hz & Hwait)|(_ & _ & _ & _ & Hbad)] Hx Hl Hc Ht Hj Hs'; [|rewrite Hx in Hbad; by injection Hbad as ->].
  rewrite Hx in Hz. injection Hz as <-. right. specialize (Hwait Hl Hc). rewrite bool_decide_true in Hwait by done. split_and!; [done..| |lia|done].
  rewrite of_timer_app, Hf, <-Hj by lia. unfold of_timer. by rewrite filter_cons_True.
Qed.
Lemma fate_other n F s s' b b' t u z e j : fate n F s b u z → u ≠ t → timers s' !! u = timers s !! u → (u ∈ work_list b' ↔ u ∈ work_list b) →
  fate n (F ++ [(t, e, j)]) s' b' u z.
Proof.
  intros Hf Hne Hs Hw. unfold fate. rewrite of_timer_app, Hs. unfold of_timer at 2 4. rewrite !filter_cons_False by (cbn; congruence). rewrite app_nil_r.
  by rewrite (bool_decide_ext _ _ Hw).
Qed.
Lemma fire_step n F ss s b t w : run_inv n F ss s b → work_list b = t :: w →
  ∃ s' b' F', call_timer_fn c t b (hd [] ss) s = Some s' ∧ run_inv n F' (tl ss) s' b' ∧ (length (work_list b') ≤ length w)%nat.
Proof.
  intros (Hok & Hss & HU & Hb & Hc & HT & Hn & (g & Hg & Hg1 & HD & HA) & HF & Hdue & Hfate) Hw.
  destruct (call_timer_fn_ok c t b w (hd [] ss) s) as (x & s' & b' & Hx & E & Hok' & Hj' & Hc' & HF' & Hd' & Ht' & Hu' & Hb' & HT' & Hw' & Hm'); [done..|destruct ss; [by intros ? ? ?%not_elem_of_nil|apply Hss; set_solver]|].
  exists s', b', (F ++ [(t, expires x, u32 (timer_jiffies b - 1))]). split; [done|]. split; [|by apply sublist_length].
  assert (Hnw : t ∉ w) by (pose proof (work_nodup _ _ _ (proj2 (proj2 Hok) c b Hb)) as Hn'; rewrite Hw in Hn'; by eapply NoDup_cons_1_1).
  split; [done|]. split; [intros l Hl; eapply script_compat; [done|]; apply Hss; destruct ss; set_solver|]. split; [destruct ss; [done|]; cbn in *; set_solver|].
  split; [done|]. split; [by eapply compat_trans|]. split; [congruence|]. split; [done|]. split; [|split; [by rewrite HF', HF, app_assoc|split]].
  - pose proof (all_ticks_nonneg [hd [] ss]) as Hh. cbn [all_ticks] in Hh. rewrite all_ticks_tl in HD, HA. exists (g + ticks (hd [] ss)).
    split; [rewrite Hj', Hg, u32_add_l; f_equal; lia|lia].
  - intros u e j [Hin|Hin]%elem_of_app; [by eapply Hdue|]. apply list_elem_of_singleton in Hin. by simplify_eq.
  - intros u z HuU Hz. assert (Hut : u ∉ touched (hd [] ss)) by (eapply touched_tl; set_solver). destruct (decide (u = t)) as [->|Hne].
    + destruct (work_member s b t x) as [Hlx Hcx]; [done..|rewrite Hw; set_solver|]. eapply fate_fired; [by apply Hfate|done..|rewrite Hw; set_solver| |by apply Ht'].
      rewrite HT, u32_sub_l. intros Hn1. f_equal. lia.
    + eapply fate_other; [by apply Hfate|done|by apply Hu'|]. rewrite Hw. split; [intros Hin|set_solver]. apply elem_of_cons. right. eapply elem_of_submseteq; [done|by apply sublist_submseteq].
Qed.
Lemma due_wait n e : 0 ≤ n ≤ wait T0 e → due (u32 (T0 + n)) e ↔ wait T0 e = n.
Proof.
  unfold due, wait. intros Hn. rewrite <-(s32_u32 (e - _)), u32_sub_r, s32_u32. pose proof (s32_range (e - T0)). assert (Hs : s32 (e - (T0 + n)) = s32 (s32 (e - T0) - n)).
  { rewrite <-(s32_u32 (e - _)), <-(s32_u32 (s32 _ - _)), <-(u32_sub_l (s32 _)), u32_s32, u32_sub_l. do 2 f_equal. lia. }
  rewrite Hs. destruct (decide (n = 0)) as [->|]; [rewrite Z.sub_0_r, s32_small by lia; lia|]. rewrite s32_small by lia. lia.
Qed.
Context (HD31 : D < 2 ^ 31).
Lemma behind n g : 0 ≤ n → -1 ≤ g → n + g ≤ D → time_after_eq (u32 (T0 + n + g)) (u32 (T0 + n)) = (0 <=? g).
Proof.
  intros. unfold time_after_eq. rewrite <-(s32_u32 (_ - _)), u32_sub_l, u32_sub_r, s32_u32. replace (T0 + n + g - (T0 + n)) with g by lia. by rewrite s32_small by lia.
Qed.
Lemma tick_step n F ss s b : run_inv n F ss s b → work_list b = [] → time_after_eq (jiffies s) (timer_jiffies b) = true →
  ∃ b', collect (timers s) c b = Some b' ∧ run_inv (n + 1) F ss (upd_base c b' s) b' ∧ n ≤ D ∧ (length (work_list b') ≤ size (timers s0))%nat.
Proof.
  intros (Hok & Hss & HU & Hb & Hc & HT & Hn & (g & Hg & Hg1 & HD & HA) & HF & Hdue & Hfate) Hw Hafter. pose proof (all_ticks_nonneg ss) as Hp.
  rewrite Hg, HT, behind in Hafter by lia. destruct (collect_ok (timers s) c b) as (b' & E & Hok' & HT' & _ & Hin); [by apply Hok|done|]. rewrite HT in *.
  exists b'. split; [done|]. split; [|split; [lia|]].
  - split; [by eapply sys_ok_base|]. split; [intros l Hl; eapply script_compat; [apply compat_base|by apply Hss]|]. split; [done|]. split; [apply lookup_insert_eq|].
    split; [eapply compat_trans; [done|apply compat_base]|]. split; [rewrite HT', u32_add_l; f_equal; lia|]. split; [lia|].
    split; [exists (g - 1); split; [cbn; rewrite Hg; f_equal; lia|lia]|]. split; [done|]. split; [done|]. intros t x Ht Hx.
    destruct (Hfate t x Ht Hx) as [(Hf & Hx' & Hwait)|(? & ? & ? & ? & ?)]; [left|right; split_and!; try done; lia]. split_and!; [done..|]. intros Hl Hcx. specialize (Hwait Hl Hcx).
    rewrite Hw, bool_decide_false in Hwait by apply not_elem_of_nil. pose proof (due_wait n (expires x) ltac:(lia)) as Hdw. case_bool_decide as Hwk.
    + apply Hin in Hwk as (y & Hy & _ & _ & Hd). rewrite Hx' in Hy. injection Hy as <-. apply Hdw in Hd. lia.
    + assert (¬ due (u32 (T0 + n)) (expires x)) as Hnd by (intros Hd; apply Hwk, Hin; by exists x). rewrite Hdw in Hnd. lia.
  - pose proof (work_nodup _ _ _ Hok') as Hnd. rewrite <-(size_list_to_set (C := gset nat) _ Hnd), <-(size_dom (D := gset nat)). apply subseteq_size. intros t Ht. apply elem_of_list_to_set, Hin in Ht as (x & Hx & _).
    destruct Hc as (_ & _ & <-). by eapply elem_of_dom_2.
Qed.
(** What is left to do, in rounds of the loop: a bound on the fuel. *)
Definition rounds (n : Z) (b : tvec_base) : nat := Z.to_nat (D + 1 - n) * S (size (timers s0)) + length (work_list b) + 1.
Lemma run_loop fuel n F ss s b : run_inv n F ss s b → (rounds n b ≤ fuel)%nat →
  ∃ s' n' F' ss' s1 b1, __run_timers fuel c ss s = Some s' ∧ s' = upd_base c (set_running None b1) s1 ∧ run_inv n' F' ss' s1 b1 ∧
    work_list b1 = [] ∧ n ≤ n' ∧ jiffies s' = u32 (T0 + n' - 1).
Proof.
  revert n F ss s b. induction fuel as [|fuel IH]; intros n F ss s b Hinv Hfuel; [unfold rounds in Hfuel; lia|].
  pose proof Hinv as (Hok & Hss & HU & Hb & Hc & HT & Hn & (g & Hg & Hg1 & HD & HA) & HF & Hdue & Hfate). pose proof (all_ticks_nonneg ss) as Hp.
  cbn [__run_timers run_round]. rewrite Hb. cbn -[collect time_after_eq upd_base call_timer_fn]. destruct (work_list b) as [|t w] eqn:Hw.
  - destruct (time_after_eq (jiffies s) (timer_jiffies b)) eqn:Ha.
    + destruct (tick_step n F ss s b Hinv Hw Ha) as (b' & -> & Hinv' & Hle & Hlen). cbn -[collect time_after_eq upd_base call_timer_fn].
      destruct (IH (n + 1) F ss (upd_base c b' s) b' Hinv') as (s' & n' & F' & ss' & s1 & b1 & ? & ? & ? & ? & ? & ?).
      { unfold rounds in *. rewrite Hw in Hfuel. replace (Z.to_nat (D + 1 - n)) with (S (Z.to_nat (D + 1 - (n + 1)))) in Hfuel by lia. cbn in Hfuel |- *. lia. }
      exists s', n', F', ss', s1, b1. split_and!; try done. lia.
    + rewrite Hg, HT, behind in Ha by lia. eexists _, n, F, ss, s, b. split; [reflexivity|]. split_and!; try done. cbn. rewrite Hg. f_equal. lia.
  - destruct (fire_step n F ss s b t w Hinv Hw) as (s2 & b2 & F2 & -> & Hinv' & Hlen). cbn -[collect time_after_eq upd_base call_timer_fn].
    destruct (IH n F2 (tl ss) s2 b2 Hinv') as (s' & n' & F' & ss' & s1 & b1 & ? & ? & ? & ? & ? & ?).
    { unfold rounds in *. rewrite Hw in Hfuel. cbn in Hfuel. lia. }
    by exists s', n', F', ss', s1, b1.
Qed.
End run.
Lemma run_start c ss s b : sys_ok s → bases s !! c = Some b → work_list b = [] → scripts_ok s ss →
  let T := timer_jiffies b in let late := s32 (jiffies s - T) in -1 ≤ late →
  run_inv c s T (late + all_ticks ss) (all_ticks ss) (concat (map touched ss)) 0 [] ss s b.
Proof.
  intros Hok Hb Hw Hss T late Hl1. pose proof (proj2 (proj2 Hok) c b Hb) as (HT & _).
  split; [done|]. split; [done|]. split; [done|]. split; [done|]. split; [split_and!; eauto|]. rewrite !Z.add_0_r. split; [by rewrite u32_small|]. split; [done|].
  split; [exists late; split; [|lia]; unfold late; rewrite <-u32_add_r, u32_s32, u32_add_r; replace (T + (jiffies s - T)) with (jiffies s) by lia; rewrite u32_small; [done|apply Hok]|].
  split; [by rewrite app_nil_r|]. split; [set_solver|]. intros t x Ht Hx. left. split_and!; [done..|]. intros _ _. rewrite Hw, bool_decide_false by apply not_elem_of_nil. unfold wait. lia.
Qed.
Lemma u32_inj x y : 0 ≤ x - y < 2 ^ 32 → u32 x = u32 y → x = y.
Proof. circ. Qed.
Lemma run_fuel_mono fuel fuel' c ss s s' : __run_timers fuel c ss s = Some s' → (fuel ≤ fuel')%nat → __run_timers fuel' c ss s = Some s'.
Proof.
  revert fuel' ss s. induction fuel as [|fuel IH]; intros fuel' ss s; [done|]. intros H Hle. destruct fuel' as [|fuel']; [lia|]. cbn [__run_timers] in *.
  destruct (run_round c (ss, s)) as [[[ss1 s1]|s1]|]; cbn in *; [|done|done]. by apply IH; [|lia].
Qed.

(** C14: __run_timers comes to an end, with the base one tick ahead of jiffies; no handler is called before its time of expiry;
    and a timer that nobody touches meanwhile has its handler called exactly once, in the very tick of its time of expiry
    (the first tick for one in the past), if that tick was run, and is left alone otherwise. *)
Theorem run_timers_fire c ss s b : sys_ok s → bases s !! c = Some b → work_list b = [] → scripts_ok s ss →
  let T := timer_jiffies b in
  let late := s32 (jiffies s - T) in
  -1 ≤ late → late + all_ticks ss < 2 ^ 31 →
  ∃ s' b' n F,
    (∀ fuel, (Z.to_nat (late + all_ticks ss + 1) * S (size (timers s)) + 1 ≤ fuel)%nat → __run_timers fuel c ss s = Some s') ∧
    sys_ok s' ∧ bases s' !! c = Some b' ∧ work_list b' = [] ∧ running_timer b' = None ∧
    late + 1 ≤ n ≤ late + all_ticks ss + 1 ∧ timer_jiffies b' = u32 (T + n) ∧ jiffies s' = u32 (T + n - 1) ∧
    fired s' = fired s ++ F ∧ (∀ t e j, (t, e, j) ∈ F → due j e) ∧
    ∀ t x, t ∉ concat (map touched ss) → timers s !! t = Some x →
      if linked x && bool_decide (tbase x = c) && (wait T (expires x) <? n)
      then of_timer t F = [(t, expires x, u32 (T + wait T (expires x)))] ∧ timers s' !! t = Some (set_linked false x)
      else of_timer t F = [] ∧ timers s' !! t = Some x.
Proof.
  intros Hok Hb Hw Hss T late Hl1 Hl2. set (D := late + all_ticks ss). pose proof (all_ticks_nonneg ss) as Hp. pose proof (proj2 (proj2 Hok) c b Hb) as (HT & _).
  pose proof (run_start c ss s b Hok Hb Hw Hss Hl1) as Hinv. fold T late D in Hinv.
  set (f0 := (Z.to_nat (late + all_ticks ss + 1) * S (size (timers s)) + 1)%nat).
  destruct (run_loop c s T D (all_ticks ss) (concat (map touched ss)) Hl2 f0 0 [] ss s b Hinv) as (s' & n & F & ss' & s1 & b1 & E & -> & Hinv' & Hw1 & _ & Hj').
  { unfold rounds, f0, D. rewrite Hw, Z.sub_0_r. cbn [length]. lia. }
  destruct Hinv' as (Hok1 & _ & _ & Hb1 & _ & HT1 & Hn1 & (g & Hg & Hg1 & HD & HA) & HF & Hdue & Hfate). pose proof (all_ticks_nonneg ss').
  assert (g = -1) by (assert (Hgn : T + n + g = T + n - 1) by (apply u32_inj; [unfold D in *; lia|by rewrite <-Hg, <-Hj']); lia).
  exists (upd_base c (set_running None b1) s1), (set_running None b1), n, F. split; [intros fuel Hf; by eapply run_fuel_mono|].
  split; [eapply sys_ok_base; [done..|]; apply (base_ok_ext _ c b1); [done..|by apply Hok1]|]. split; [apply lookup_insert_eq|]. split; [done|]. split; [done|].
  split; [unfold D in *; lia|]. split; [done|]. split; [done|]. split; [done|]. split; [done|]. intros t x Ht Hx.
  destruct (Hfate t x Ht Hx) as [(Hf & Hx' & Hwait)|(-> & Hc & Hf & Hlt & Hx')].
  - destruct (linked x && bool_decide (tbase x = c) && (wait T (expires x) <? n)) eqn:Eb; [|done]. exfalso. apply andb_true_iff in Eb as [[Hlk Hc]%andb_true_iff Hlt].
    specialize (Hwait Hlk (bool_decide_eq_true_1 _ Hc)). rewrite Hw1, bool_decide_false in Hwait by apply not_elem_of_nil. lia.
  - rewrite bool_decide_true by done. replace (wait T (expires x) <? n) with true by lia. done.
Qed.

(** C15: Every operation, called as its comment demands, returns what it promises and does to the pending timers exactly what
    a map from timers to times of expiry does; the lists of all bases stay well formed, every pending timer is in exactly
    one of them, at a place from which the cascades bring it down in time, and other timers are not touched. *)
Theorem timer_ops_refine cpu o s : sys_ok s → op_legal cpu o s →
  ∃ s', exec_op cpu o s = Some (op_result o s, s') ∧ pend s' = op_pend o s ∧ sys_ok s' ∧ jiffies s' = op_jiffies o (jiffies s) ∧ frame (op_timers o) s s'.
Proof. intros Hok Hl. destruct (exec_op_ok cpu o s Hok Hl) as (s' & ? & ? & ? & ? & ?). by exists s'. Qed.

(** A tick of the wheel takes out exactly the pending timers of the base that are due at it, whichever vectors
    they stand in, and keeps the others in their right places for the next tick. *)
Theorem collect_exact ts c b : base_ok ts c b → work_list b = [] →
  ∃ b', collect ts c b = Some b' ∧ base_ok ts c b' ∧ timer_jiffies b' = u32 (timer_jiffies b + 1) ∧ NoDup (work_list b') ∧
    ∀ t, t ∈ work_list b' ↔ member ts c t ∧ ∃ x, ts !! t = Some x ∧ due (timer_jiffies b) (expires x).
Proof.
  intros Hok Hw. destruct (collect_ok ts c b Hok Hw) as (b' & ? & ? & ? & _ & Hin). exists b'. split_and!; [done..|by eapply work_nodup|].
  intros t. rewrite Hin. unfold member. split; [intros (x & ? & ? & ? & ?); eauto 10|]. intros [(x & Hx & ? & ?) (y & Hy & ?)]. rewrite Hx in Hy. injection Hy as <-. by exists x.
Qed.

(** The wheel of a processor that comes up. *)
Lemma init_base_ok ts c j : is_u32 j → (∀ t x, ts !! t = Some x → linked x = false) → base_ok ts c (init_timers_cpu j).
Proof.
  intros Hj Hts. assert (He : entries (init_timers_cpu j) = []) by reflexivity. assert (Hno : ∀ k i t, ¬ at_slot (init_timers_cpu j) k i t).
  { intros k i t H. assert (Ht : t ∈ entries (init_timers_cpu j)) by (apply elem_of_entries; eauto). rewrite He in Ht. by apply not_elem_of_nil in Ht. }
  split; [done|]. split; [split; [done|]; intros [|[|[|[|[|k]]]]] v Hv; by inversion Hv|]. rewrite He. split; [constructor|].
  split; [intros t; split; [by intros ?%not_elem_of_nil|intros (x & Hx & Hl & _); by rewrite (Hts t x Hx) in Hl]|]. split; [intros k i t H; by apply Hno in H|]. by intros t x ?%not_elem_of_nil.
Qed.

(** ** Witnesses: two processors, shortly before jiffies wraps *)
Definition a_timer : timer_list := {| linked := false; expires := 0; tbase := 0; deferrable := false; function := true; slack := -1 |}.
Definition sys0 : sys :=
  {| timers := <[0%nat := a_timer]> (<[1%nat := a_timer]> (<[2%nat := a_timer]> (<[3%nat := a_timer]> ∅)));
     bases := <[0%nat := init_timers_cpu 0xfffffff0]> (<[1%nat := init_timers_cpu 0xfffffff0]> ∅); jiffies := 0xfffffff0; fired := [] |}.
Lemma sys0_timer t x : timers sys0 !! t = Some x → x = a_timer.
Proof. cbn [timers sys0]. rewrite !lookup_insert_Some, lookup_empty. naive_solver. Qed.
Lemma sys0_ok : sys_ok sys0.
Proof.
  split; [done|]. split.
  - intros t x ->%sys0_timer. split; [done|]. by exists (init_timers_cpu 0xfffffff0).
  - intros c b Hb. assert (b = init_timers_cpu 0xfffffff0) as ->.
    { cbn [bases sys0] in Hb. rewrite !lookup_insert_Some, lookup_empty in Hb. naive_solver. }
    apply init_base_ok; [done|]. by intros t x ->%sys0_timer.
Qed.
Definition arm : list (nat * op) :=
  [(0%nat, ModPinned 0 0xfffffff3); (0%nat, ModPinned 1 0x210); (0%nat, ModPinned 2 0x30000); (0%nat, ModPinned 3 0xffffffe0)] ++ replicate 600 (1%nat, Tick).
Definition sys1 : sys := default sys0 (exec_ops arm sys0).
Lemma arm_ok : script_ok sys0 arm.
Proof.
  intros cpu o. unfold arm. rewrite elem_of_app, elem_of_replicate. intros [H|[[= -> ->] _]]; [|by repeat split; eexists].
  repeat (apply elem_of_cons in H as [[= -> ->]|H]; [split; [done|]; split; [by eexists|]; split; [done|]; by exists a_timer|]). by apply not_elem_of_nil in H.
Qed.
Lemma sys1_ok : sys_ok sys1.
Proof. destruct (exec_ops_ok arm sys0 sys0_ok arm_ok) as (s' & E & Hok & _). unfold sys1. by rewrite E. Qed.
Definition armed (e : Z) : timer_list := {| linked := true; expires := e; tbase := 0; deferrable := false; function := true; slack := -1 |}.
Definition base1 : tvec_base := default (init_timers_cpu 0) (bases sys1 !! 0%nat).
Lemma base1_ok : bases sys1 !! 0%nat = Some base1 ∧ work_list base1 = [] ∧ timer_jiffies base1 = 0xfffffff0 ∧ jiffies sys1 = 0x248.
Proof. by vm_compute. Qed.
(** The handler of timer 3 arms it again; while timer 0's runs there is a tick, and timer 2 is deleted. *)
Definition handlers : list (list (nat * op)) := [[(0%nat, ModPinned 3 0x400)]; [(1%nat, Tick); (0%nat, Del 2)]].
Lemma handlers_ok : scripts_ok sys1 handlers.
Proof.
  intros l Hl cpu o Ho. assert (H : (cpu, o) ∈ concat handlers) by (apply list_elem_of_In, in_concat; exists l; by rewrite <-!list_elem_of_In).
  cbn in H. repeat (apply elem_of_cons in H as [[= -> ->]|H]; [split; [done|]; split; [by vm_compute; eexists|]; try done; try (split; [done|]); vm_compute; by eexists|]). by apply not_elem_of_nil in H.
Qed.
Lemma handlers_touch : (0%nat ∉ concat (map touched handlers)) ∧ (1%nat ∉ concat (map touched handlers)).
Proof. change (concat (map touched handlers)) with [3%nat; 2%nat]. set_solver. Qed.
Lemma run_timers_fire_witness : ∃ s' F, __run_timers (Z.to_nat 4000) 0 handlers sys1 = Some s' ∧ fired s' = F ∧
  of_timer 0 F = [(0%nat, 0xfffffff3, 0xfffffff3)] ∧ of_timer 1 F = [(1%nat, 0x210, 0x210)].
Proof.
  destruct base1_ok as (Hb & Hw & HT & Hj).
  destruct (run_timers_fire 0 handlers sys1 base1 sys1_ok Hb Hw handlers_ok) as (s' & b' & n & F & Hrun & _ & _ & _ & _ & Hn & _ & _ & HF & _ & Hall); [rewrite HT, Hj; by vm_compute..|].
  exists s', F. rewrite HT, Hj in *. change (s32 (0x248 - 0xfffffff0)) with 600 in *. change (all_ticks handlers) with 1 in *.
  split; [apply Hrun; assert (size (timers sys1) = 4%nat) as -> by (by vm_compute); lia|]. split; [rewrite HF; by vm_compute|].
  assert (Hof : ∀ t e, t ∉ concat (map touched handlers) → timers sys1 !! t = Some (armed e) → wait 0xfffffff0 e ≤ 600 → of_timer t F = [(t, e, u32 (0xfffffff0 + wait 0xfffffff0 e))]).
  { intros t e Ht Hx Hwait. specialize (Hall t (armed e) Ht Hx). cbn [linked tbase expires armed] in Hall. rewrite bool_decide_true in Hall by done.
    replace (wait 0xfffffff0 e <? n) with true in Hall by lia. by destruct Hall. }
  destruct handlers_touch as [H0 H1].
  split; [rewrite (Hof 0%nat 0xfffffff3)|rewrite (Hof 1%nat 0x210)]; [by vm_compute|exact H0|by vm_compute|by vm_compute|by vm_compute|exact H1|by vm_compute|by vm_compute].
Defined.
(** Timer 1 stands in a far vector at the first tick, timer 3 is the only one due. *)
Lemma collect_exact_witness : ∃ b', collect (timers sys1) 0 base1 = Some b' ∧ ∀ t, t ∈ work_list b' ↔ t = 3%nat.
Proof.
  destruct base1_ok as (Hb & Hw & HT & _). destruct (collect_exact (timers sys1) 0 base1 (proj2 (proj2 sys1_ok) 0%nat base1 Hb) Hw) as (b' & E & _ & _ & _ & Hin).
  exists b'. split; [done|]. intros t. rewrite Hin, HT. split.
  - intros [_ (x & Hx & Hd)]. assert (Hts : timers sys1 = <[0%nat := armed 0xfffffff3]> (<[1%nat := armed 0x210]> (<[2%nat := armed 0x30000]> (<[3%nat := armed 0xffffffe0]> ∅)))) by (by vm_compute).
    rewrite Hts, !lookup_insert_Some, lookup_empty in Hx. unfold due in Hd. clear -Hx Hd.
    destruct Hx as [[_ <-]|[_ [[_ <-]|[_ [[_ <-]|[_ [[<- _]|[_ [=]]]]]]]]]; [exfalso; by apply Hd; vm_compute..|done].
  - intros ->. clear. assert (Hx : timers sys1 !! 3%nat = Some (armed 0xffffffe0)) by (vm_compute; reflexivity). split; exists (armed 0xffffffe0); (split; [exact Hx|]); [by split|]. by vm_compute.
Defined.
Lemma timer_ops_refine_witness : ∃ s', exec_op 1 (Mod 1 0x5000) sys1 = Some (1, s') ∧ pend s' = <[1%nat := 0x5040]> (pend sys1) ∧ sys_ok s'.
Proof.
  destruct (timer_ops_refine 1 (Mod 1 0x5000) sys1 sys1_ok) as (s' & E & Hp & Hok & _); [split; [by vm_compute; eexists|]; split; [done|]; exists (armed 0x210); by vm_compute|].
  exists s'. split; [exact E|]. split; [|done]. rewrite Hp. clear. vm_compute. reflexivity.
Defined.

(** Two timers for the same tick fire in the order they were added only if they were put in the same list:
    timer 1, added while the tick was far away, comes after timer 0, which was added later. *)
Example same_tick_not_fifo :
  (λ s, fired s) <$> (s ← exec_ops ((0%nat, ModPinned 1 0x12c) :: replicate 116 (0%nat, Tick)) sys0;
                      s ← __run_timers (Z.to_nat 4000) 0 [] s;
                      s ← exec_ops ((0%nat, ModPinned 0 0x12c) :: replicate 300 (0%nat, Tick)) s;
                      __run_timers (Z.to_nat 4000) 0 [] s) = Some [(0%nat, 0x12c, 0x12c); (1%nat, 0x12c, 0x12c)].
Proof. by vm_compute. Qed.
(** Shortly after jiffies has wrapped, rounding down gives a time before the wrap, which the comparison takes for a late one. *)
Example round_jiffies_past : __round_jiffies 250 2 4 1 = 0xfffffffd ∧ time_before (__round_jiffies 250 2 4 1) 2 = true.
Proof. by vm_compute. Qed.
(** Away from the wrap the result is the original time or a full second on the processor's own grid, after now and near. *)
Lemma round_jiffies_near HZ now j cpu up : 0 < HZ → 0 ≤ cpu → HZ / 4 ≤ j → j + cpu * 3 + HZ < 2 ^ 32 →
  let r := round_jiffies_common HZ now j cpu up in
  r = j ∨ now < r ∧ (r + cpu * 3) `mod` HZ = 0 ∧ j - HZ / 4 < r ≤ j + HZ ∧ (up = true → j < r).
Proof.
  intros HHZ Hcpu Hj Hmax. unfold round_jiffies_common. cbv zeta. assert (0 ≤ HZ / 4) by (apply Z.div_pos; lia). rewrite (u32_small (j + cpu * 3)) by lia.
  pose proof (Z.mod_pos_bound (j + cpu * 3) HZ HHZ) as Hr. pose proof (Z.div_mod (j + cpu * 3) HZ ltac:(lia)) as Hdm. set (q := (j + cpu * 3) / HZ) in *. set (m := (j + cpu * 3) `mod` HZ) in *.
  assert (Hgrid : ∀ r w, r + cpu * 3 = HZ * w → (r + cpu * 3) `mod` HZ = 0) by (intros r w ->; by rewrite Z.mul_comm, Z_mod_mult).
  destruct ((m <? HZ / 4) && negb up) eqn:E.
  - apply andb_true_iff in E as [Em Eu]. rewrite !u32_small by (rewrite ?u32_small; lia). destruct (_ <=? now) eqn:En; [by left|]. right.
    split; [lia|]. split; [apply (Hgrid _ q); lia|]. split; [lia|]. intros ->. done.
  - rewrite !u32_small by (rewrite ?u32_small; lia). destruct (_ <=? now) eqn:En; [by left|]. right.
    split; [lia|]. split; [apply (Hgrid _ (q + 1)); lia|]. split; lia.
Qed.

End Timer.
