(* ===== verification/Ieee754.v ===== *)
(** * Ieee754: numbers, exceptions and rounding of the floating-point emulator

    The Z4800 has no floating-point unit (cpu_has_fpu is 0 in mach-z48soc), so
    every floating-point instruction is emulated by arch/mips/math-emu. This file
    has the representation (ieee754.h, ieee754int.h), the special values
    (ieee754.c), and the packing and rounding of results (ieee754sp.c, ieee754dp.c).

    The single and double precision files of the source are the same code over
    different constants; here they are one definition over a [format], and
    [ieee754sp_format] and [ieee754dp_format] are its instances. [rounded] states
    what a correctly rounded result is; [format_spec] shows that the code
    produces it. *)

From S2P Require Import Prelude.

Module Ieee754.

(** ** Formats: the constants of ieee754int.h *)
Record format := { W : Z; EBITS : Z; MBITS : Z; EBIAS : Z; EMIN : Z; EMAX : Z }.
Definition SP : format := {| W := 32; EBITS := 8; MBITS := 23; EBIAS := 127; EMIN := -126; EMAX := 127 |}.
Definition DP : format := {| W := 64; EBITS := 11; MBITS := 52; EBIAS := 1023; EMIN := -1022; EMAX := 1023 |}.

(** What the code needs of the constants. *)
Class Format (F : format) := {
  f_mbits : 8 ≤ MBITS F;
  f_width : MBITS F + 8 ≤ W F;
  f_half : ∃ H, 0 < H ∧ W F = 2 * H;
  f_emin : EMIN F = 1 - EBIAS F;
  f_emax : EMAX F = EBIAS F;
  f_ebias : EBIAS F = 2 ^ (EBITS F - 1) - 1;
  f_ebits : 7 ≤ EBITS F;
  f_word : W F = 1 + EBITS F + MBITS F }.
#[export] Instance SP_format : Format SP.
Proof. split; try (vm_compute; congruence). exists 16. done. Qed.
#[export] Instance DP_format : Format DP.
Proof. split; try (vm_compute; congruence). exists 32. done. Qed.

(** A number, as the bit fields of the unions ieee754sp and ieee754dp. *)
Record fl := { sign : bool; bexp : Z; mant : Z }.
#[export] Instance fl_eq_dec : EqDecision fl.
Proof. solve_decision. Defined.

(** ** The control and status register *)
Inductive rmode := RN | RZ | RD | RU.
#[export] Instance rmode_eq_dec : EqDecision rmode.
Proof. solve_decision. Defined.
Record csr := { rm : rmode; sx : Z; mx : Z; cx : Z; pad1 : Z; cbit : bool; nod : bool; pad0 : Z }.
Definition INEXACT : Z := 1.
Definition UNDERFLOW : Z := 2.
Definition OVERFLOW : Z := 4.
Definition ZERO_DIVIDE : Z := 8.
Definition INVALID_OPERATION : Z := 16.
Definition with_cx (c : csr) (s x : Z) : csr :=
  {| rm := rm c; sx := s; mx := mx c; cx := x; pad1 := pad1 c; cbit := cbit c; nod := nod c; pad0 := pad0 c |}.
Definition with_rm (c : csr) (r : rmode) : csr :=
  {| rm := r; sx := sx c; mx := mx c; cx := cx c; pad1 := pad1 c; cbit := cbit c; nod := nod c; pad0 := pad0 c |}.
(** No exception raised or enabled. *)
Definition csr0 (r : rmode) : csr := {| rm := r; sx := 0; mx := 0; cx := 0; pad1 := 0; cbit := false; nod := false; pad0 := 0 |}.
Definition CLEARCX (c : csr) : csr := with_cx c (sx c) 0.
Definition SETCX (c : csr) (x : Z) : csr := with_cx c (sx c .| x) (cx c .| x).
Definition TSTX (c : csr) : bool := truthy (cx c .& mx c).

(** ** Classes *)
Inductive cls := NORM | ZERO | DNORM | INF | SNAN | QNAN.
#[export] Instance cls_eq_dec : EqDecision cls.
Proof. solve_decision. Defined.
Record comp := { vc : cls; vs : bool; ve : Z; vm : Z }.

Section format.
Context (F : format).

(** The width of a mantissa variable. *)
Definition uw (x : Z) : Z := x `mod` 2 ^ W F.
Definition MBIT (x : Z) : Z := 2 ^ x.
Definition HIDDEN_BIT : Z := MBIT (MBITS F).

Definition EXPLODE (v : fl) : comp :=
  if bexp v =? EMAX F + 1 + EBIAS F then
    {| vc := if mant v =? 0 then INF else if truthy (mant v .& MBIT (MBITS F - 1)) then SNAN else QNAN;
       vs := sign v; ve := bexp v; vm := mant v |}
  else if bexp v =? EMIN F - 1 + EBIAS F then
    if truthy (mant v) then {| vc := DNORM; vs := sign v; ve := EMIN F; vm := mant v |}
    else {| vc := ZERO; vs := sign v; ve := bexp v; vm := mant v |}
  else {| vc := NORM; vs := sign v; ve := bexp v - EBIAS F; vm := mant v .| HIDDEN_BIT |}.

(** Assignment to the bit fields. *)
Definition build (s : bool) (bx m : Z) : fl :=
  {| sign := s; bexp := bx `mod` 2 ^ EBITS F; mant := m `mod` 2 ^ MBITS F |}.

(** ** Special values: the tables of ieee754.c *)
Definition konst (s : bool) (b m : Z) : fl := {| sign := s; bexp := b; mant := m |}.
Definition spcvals : list fl := [
  konst false (EMIN F - 1 + EBIAS F) 0; konst true (EMIN F - 1 + EBIAS F) 0;
  konst false (EBIAS F) 0; konst true (EBIAS F) 0;
  konst false (3 + EBIAS F) (2 ^ (MBITS F - 2)); konst true (3 + EBIAS F) (2 ^ (MBITS F - 2));
  konst false (EMAX F + 1 + EBIAS F) 0; konst true (EMAX F + 1 + EBIAS F) 0;
  konst false (EMAX F + 1 + EBIAS F) (2 ^ (MBITS F - 1) - 1);
  konst false (EMAX F + EBIAS F) (2 ^ MBITS F - 1); konst true (EMAX F + EBIAS F) (2 ^ MBITS F - 1);
  konst false (EMIN F + EBIAS F) 0; konst true (EMIN F + EBIAS F) 0;
  konst false (EMIN F - 1 + EBIAS F) 1; konst true (EMIN F - 1 + EBIAS F) 1;
  konst false (31 + EBIAS F) 0; konst false (63 + EBIAS F) 0 ].
Definition spcval (i : nat) (sn : bool) : fl := nth (i + (if sn then 1 else 0)) spcvals (konst false 0 0).
Definition fzero : bool → fl := spcval 0.
Definition fone : bool → fl := spcval 2.
Definition ften : bool → fl := spcval 4.
Definition finf : bool → fl := spcval 6.
Definition findef : fl := spcval 8 false.
Definition fmax : bool → fl := spcval 9.
Definition fmin : bool → fl := spcval 11.
Definition fmind : bool → fl := spcval 13.
Definition f1e31 : fl := spcval 15 false.
Definition f1e63 : fl := spcval 16 false.

(** FLUSHX: with denormals switched off, one counts as zero. *)
Definition FLUSH (c : csr) (v : fl) (k : comp) : csr * fl * comp :=
  if bool_decide (vc k = DNORM) && nod c then
    (SETCX c INEXACT, fzero (vs k), {| vc := ZERO; vs := vs k; ve := EMIN F - 1 + EBIAS F; vm := 0 |})
  else (c, v, k).

(** ** Common functions of ieee754sp.c and ieee754dp.c *)
Definition class (x : fl) : cls := vc (EXPLODE x).
Definition isnan (x : fl) : bool := match class x with SNAN | QNAN => true | _ => false end.
Definition issnan (x : fl) : bool := truthy (mant x .& MBIT (MBITS F - 1)).
(** The handler that xcpt calls for an enabled exception only prints. *)
Definition xcpt (c : csr) (r : fl) : fl * csr := (r, c).
Definition nanxcpt (c : csr) (r : fl) : fl * csr :=
  if negb (issnan r) then (r, c) else
  let c := SETCX c INVALID_OPERATION in
  if negb (truthy (mx c .& INVALID_OPERATION)) then
    let r := {| sign := sign r; bexp := bexp r; mant := Z.ldiff (mant r) (MBIT (MBITS F - 1)) |} in
    if isnan r then (r, c) else (findef, c)
  else (r, c).
Definition bestnan (x y : fl) : fl := if mant y <? mant x then x else y.

Definition get_rounding (c : csr) (sn : bool) (xm : Z) : Z :=
  if truthy (xm .& (MBIT 3 - 1)) then
    match rm c with
    | RZ => xm
    | RN => uw (xm + (3 + ((xm .>> 3) .& 1)))
    | RU => if negb sn then uw (xm + 8) else xm
    | RD => if sn then uw (xm + 8) else xm
    end
  else xm.

(** Sticky right shifts: SPXSRSXn and SPXSRSX1, XDPSRS and XDPSRS1. *)
Definition srs (v rs : Z) : Z :=
  if MBITS F + 3 <? rs then 1 else (v .>> rs) .| Z.b2z (truthy (uw (v .<< (W F - rs)))).
Definition srs1 (v : Z) : Z := (v .>> 1) .| (v .& 1).

(** The second half of [format]: rounding with its adjustment of the exponent,
    overflow, and the bit fields. *)
Definition round_adjust (c : csr) (sn : bool) (xe xm : Z) : csr * Z * Z :=
  if truthy (xm .& (MBIT 3 - 1)) then
    let c := SETCX c INEXACT in
    let c := if (xm .& (HIDDEN_BIT .<< 3)) =? 0 then SETCX c UNDERFLOW else c in
    let xm := get_rounding c sn xm in
    if truthy (xm .>> (MBITS F + 1 + 3)) then (c, xe + 1, xm .>> 1) else (c, xe, xm)
  else (c, xe, xm).
Definition pack (c : csr) (sn : bool) (xe xm : Z) : fl * csr :=
  if EMAX F <? xe then
    let c := SETCX (SETCX c OVERFLOW) INEXACT in
    (match rm c with
     | RN => finf sn
     | RZ => fmax sn
     | RU => if sn then fmax true else finf false
     | RD => if sn then finf true else fmax false
     end, c)
  else if (xm .& HIDDEN_BIT) =? 0 then
    let c := if truthy (mx c .& UNDERFLOW) then SETCX c UNDERFLOW else c in
    (build sn (EMIN F - 1 + EBIAS F) xm, c)
  else (build sn (xe + EBIAS F) (Z.ldiff xm HIDDEN_BIT), c).
Definition format_pack (c : csr) (sn : bool) (xe xm : Z) : fl * csr :=
  let '(c, xe, xm) := round_adjust c sn xe xm in pack c sn xe (xm .>> 3).
Definition format_ (c : csr) (sn : bool) (xe xm : Z) : fl * csr :=
  if xe <? EMIN F then
    let es := EMIN F - xe in
    if nod c then
      let c := SETCX (SETCX c UNDERFLOW) INEXACT in
      (match rm c with
       | RN | RZ => fzero sn
       | RU => if sn then fzero true else fmin false
       | RD => if sn then fmin true else fzero false
       end, c)
    else if (xe =? EMIN F - 1) && truthy (get_rounding c sn xm .>> (MBITS F + 1 + 3)) then
      format_pack (SETCX c INEXACT) sn (xe + 1) (Z.ldiff (get_rounding c sn xm .>> 1) (MBIT 3 - 1))
    else format_pack c sn (xe + es) (srs xm es)
  else format_pack c sn xe xm.
(** SPNORMRET2: the result, reported to the handler if an exception is enabled. *)
Definition NORMRET (c : csr) (sn : bool) (xe xm : Z) : fl * csr :=
  let '(V, c) := format_ c sn xe xm in if TSTX c then xcpt c V else (V, c).

(** while ((m >> k) == 0) { m <<= 1; e--; }, with as much fuel as the word has bits *)
Definition normalise (k m e : Z) : option (Z * Z) :=
  loop (Z.to_nat (W F)) (λ '(m, e), if (m .>> k) =? 0 then inl (uw (m .<< 1), e - 1) else inr (m, e)) (m, e).
End format.

#[global] Arguments fzero : simpl never.
#[global] Arguments fone : simpl never.
#[global] Arguments ften : simpl never.
#[global] Arguments finf : simpl never.
#[global] Arguments findef : simpl never.
#[global] Arguments fmax : simpl never.
#[global] Arguments fmin : simpl never.
#[global] Arguments fmind : simpl never.
Definition ieee754sp_format := format_ SP.
Definition ieee754dp_format := format_ DP.
Definition ieee754sp_class := class SP.
Definition ieee754dp_class := class DP.

(** ** What a number stands for

    Every finite number is an integer multiple of the least positive one, so a
    value is an integer in that unit; an exact result is a fraction [N / D] of it. *)
Inductive dir := Nearest | TowardZero | AwayFromZero.
Definition dir_of (r : rmode) (sn : bool) : dir :=
  match r with
  | RN => Nearest
  | RZ => TowardZero
  | RU => if sn then TowardZero else AwayFromZero
  | RD => if sn then AwayFromZero else TowardZero
  end.

Section values.
Context (F : format).
Definition wf (x : fl) : Prop := 0 ≤ bexp x < 2 ^ EBITS F ∧ 0 ≤ mant x < 2 ^ MBITS F.
Definition finite (x : fl) : bool := negb (bexp x =? EMAX F + 1 + EBIAS F).
Definition ival (x : fl) : Z := if bexp x =? 0 then mant x else (mant x + 2 ^ MBITS F) * 2 ^ (bexp x - 1).
Definition val (x : fl) : Z := if sign x then - ival x else ival x.
(** The first power of two beyond the largest number, and the unit of the
    largest numbers. *)
Definition top_ulp : Z := 2 ^ (EMAX F - EMIN F).
Definition huge : Z := 2 ^ (MBITS F + 1) * top_ulp.

(** [v] is the exact magnitude [N / D] with sign [sn], rounded in mode [r]: the
    nearest number, the one with an even mantissa if there are two, infinity from
    half a unit above the largest number; or the next number in the direction. *)
Definition rounded (r : rmode) (sn : bool) (N D : Z) (v : fl) : Prop :=
  wf v ∧ sign v = sn ∧
  match dir_of r sn with
  | Nearest =>
      if finite v then
        2 * N < (2 * huge - top_ulp) * D ∧
        ∀ w, wf w → finite w = true →
          Z.abs (ival v * D - N) < Z.abs (ival w * D - N) ∨
          Z.abs (ival v * D - N) = Z.abs (ival w * D - N) ∧ (ival v = ival w ∨ Z.even (mant v) = true)
      else v = finf F sn ∧ (2 * huge - top_ulp) * D ≤ 2 * N
  | TowardZero =>
      finite v = true ∧ ival v * D ≤ N ∧ ∀ w, wf w → finite w = true → ival w * D ≤ N → ival w ≤ ival v
  | AwayFromZero =>
      if finite v then N ≤ ival v * D ∧ ∀ w, wf w → finite w = true → N ≤ ival w * D → ival v ≤ ival w
      else v = finf F sn ∧ ∀ w, wf w → finite w = true → ival w * D < N
  end.

(** What the operation adds to the flags: inexact when the result is not the
    exact value, overflow beyond the largest number, underflow for an inexact
    result below the least normal number (or any, if it traps). *)
Definition flags (c : csr) (N D : Z) (v : fl) (X : Z) : Prop :=
  0 ≤ X < 8 ∧
  (Z.testbit X 0 = true ↔ finite v = false ∨ ival v * D ≠ N) ∧
  (Z.testbit X 2 = true ↔ finite v = false ∨ huge * D ≤ N) ∧
  (Z.testbit X 1 = true → N < 2 ^ MBITS F * D ∧ (ival v * D ≠ N ∨ Z.testbit (mx c) 1 = true)) ∧
  (ival v < 2 ^ MBITS F → ival v * D ≠ N → Z.testbit X 1 = true).
End values.

(** ** Rounding of fractions *)
Definition Rint (d : dir) (N D : Z) : Z :=
  let f := N / D in let r := N `mod` D in
  match d with
  | TowardZero => f
  | AwayFromZero => if r =? 0 then f else f + 1
  | Nearest => if (D <? 2 * r) || (2 * r =? D) && Z.odd f then f + 1 else f
  end.

(** [o] is [N / D], or lies strictly between the same multiples of 4: enough to
    round to a multiple of 8 in every mode. *)
Definition near4 (o N D : Z) : Prop :=
  o * D = N ∨ o `mod` 4 ≠ 0 ∧ 4 * (o / 4) * D < N < 4 * (o / 4 + 1) * D.
(** [o] is [N / D] rounded to odd. *)
Definition odd_round (o N D : Z) : Prop :=
  o * D = N ∨ Z.odd o = true ∧ (o - 1) * D < N < (o + 1) * D.

Lemma cross_le a b c d k : 0 < k → a * k = b → c * k = d → b ≤ d → a ≤ c.
Proof. nia. Qed.
Lemma cross_lt a b c d k : 0 < k → a * k = b → c * k = d → b < d → a < c.
Proof. nia. Qed.
Lemma near4_ratio o N D N' D' : 0 < D → 0 < D' → N * D' = N' * D → near4 o N D → near4 o N' D'.
Proof.
  intros HD HD' E [H|(Hm & H1 & H2)]; [left; apply (Z.mul_reg_r _ _ D); [lia|]; rewrite <-E, <-H; ring|right; split; [done|split]].
  - apply (Z.mul_lt_mono_pos_r D); [done|]. rewrite <-E.
    apply (Z.mul_lt_mono_pos_r D') in H1; [|done]. lia.
  - apply (Z.mul_lt_mono_pos_r D); [done|]. rewrite <-E.
    apply (Z.mul_lt_mono_pos_r D') in H2; [|done]. lia.
Qed.
Lemma odd_round_ratio o N D N' D' : 0 < D → 0 < D' → N * D' = N' * D → odd_round o N D → odd_round o N' D'.
Proof.
  intros HD HD' E [H|(Hm & H1 & H2)]; [left; apply (Z.mul_reg_r _ _ D); [lia|]; rewrite <-E, <-H; ring|right; split; [done|split]].
  - apply (Z.mul_lt_mono_pos_r D); [done|]. rewrite <-E. apply (Z.mul_lt_mono_pos_r D') in H1; [|done]. lia.
  - apply (Z.mul_lt_mono_pos_r D); [done|]. rewrite <-E. apply (Z.mul_lt_mono_pos_r D') in H2; [|done]. lia.
Qed.
Lemma odd_near4 o N D : 0 < D → odd_round o N D → near4 o N D.
Proof.
  intros HD [H|(Ho & H1 & H2)]; [by left|right]. rewrite Zodd_mod in Ho. apply Z.eqb_eq in Ho.
  assert (o `mod` 4 = 1 ∨ o `mod` 4 = 3) as Hm by (Z.div_mod_to_equations; lia).
  assert (4 * (o / 4) ≤ o - 1 ∧ o + 1 ≤ 4 * (o / 4 + 1)) as [] by (Z.div_mod_to_equations; lia).
  split_and!; [lia|nia|nia].
Qed.
Lemma odd_double o N D : odd_round o N D → near4 (2 * o) (2 * N) D.
Proof.
  intros [H|(Ho & H1 & H2)]; [left; lia|right]. rewrite Zodd_mod in Ho. apply Z.eqb_eq in Ho.
  assert ((2 * o) / 4 = (o - 1) / 2 ∧ 2 * ((o - 1) / 2) = o - 1) as [-> E] by (Z.div_mod_to_equations; lia).
  split; [Z.div_mod_to_equations; lia|]. replace (4 * ((o - 1) / 2)) with (2 * (o - 1)) by lia.
  replace (4 * ((o - 1) / 2 + 1)) with (2 * (o + 1)) by lia. lia.
Qed.
Lemma odd_add a o N D : Z.even a = true → odd_round o N D → odd_round (a + o) (a * D + N) D.
Proof.
  intros Ha [H|(Ho & H1 & H2)]; [left; lia|right]. split; [|lia].
  rewrite Z.odd_add, Ho. rewrite <-Z.negb_even, Ha. done.
Qed.
Lemma odd_opp o N D : odd_round o N D → odd_round (- o) (- N) D.
Proof. intros [H|(Ho & H1 & H2)]; [left; lia|right]. split; [by rewrite Z.odd_opp|lia]. Qed.

(** ** Sticky shifts *)
Lemma lor_1 f : f .| 1 = 2 * (f / 2) + 1.
Proof.
  assert (∀ a, 1 .| (a * 2 ^ 1) = 1 + a * 2 ^ 1) as H by (intros; apply lor_add_field; lia).
  pose proof (Z.div_mod f 2 ltac:(lia)) as E. pose proof (Z.mod_pos_bound f 2 ltac:(lia)).
  assert (f `mod` 2 = 0 ∨ f `mod` 2 = 1) as [E1|E1] by lia.
  - rewrite E at 1. rewrite E1, Z.add_0_r, Z.lor_comm. replace (2 * (f / 2)) with (f / 2 * 2 ^ 1) at 1 by lia. rewrite H. lia.
  - rewrite E at 1. rewrite E1. replace (2 * (f / 2) + 1) with (1 .| (f / 2 * 2 ^ 1)) by (rewrite H; lia).
    by rewrite Z.lor_comm, Z.lor_assoc, Z.lor_diag.
Qed.
Lemma lor_b2z f b : f .| Z.b2z b = if b then 2 * (f / 2) + 1 else f.
Proof. destruct b; cbn; [apply lor_1|apply Z.lor_0_r]. Qed.
Lemma truthy_spec x : truthy x = true ↔ x ≠ 0.
Proof. unfold truthy. by rewrite negb_true_iff, Z.eqb_neq. Qed.
Lemma truthy_spec0 x : truthy x = false ↔ x = 0.
Proof. unfold truthy. by rewrite negb_false_iff, Z.eqb_eq. Qed.

(** Rounding to odd what a sticky shift loses: [P] is the power of two. *)
Lemma shift_odd o N D P : 0 < D → 0 < P → P = 2 ∨ P `mod` 4 = 0 → near4 o N D →
  odd_round (if o `mod` P =? 0 then o / P else 2 * (o / P / 2) + 1) N (D * P).
Proof.
  intros HD HP HP4 Hn. pose proof (Z.div_mod o P ltac:(lia)) as E. pose proof (Z.mod_pos_bound o P HP) as Hr.
  set (f := o / P) in *. set (r := o `mod` P) in *. destruct (Z.eqb_spec r 0) as [Hr0|Hr0].
  - destruct Hn as [H|(Hm & H1 & H2)]; [left; rewrite <-H, E, Hr0; ring|].
    destruct HP4 as [->|H4]; [|exfalso; apply Hm; rewrite E, Hr0, Z.add_0_r, Zmult_mod, H4; done].
    assert (f `mod` 2 = 1) as Hf by (Z.div_mod_to_equations; lia). right. split; [by rewrite Zodd_mod, Hf|].
    assert (o / 4 = (f - 1) / 2 ∧ 2 * ((f - 1) / 2) = f - 1) as [Eo Ef] by (Z.div_mod_to_equations; lia).
    rewrite Eo in H1, H2. replace (4 * ((f - 1) / 2)) with (2 * (f - 1)) in H1 by lia.
    replace (4 * ((f - 1) / 2 + 1)) with (2 * (f + 1)) in H2 by lia. lia.
  - right. set (h := f / 2). assert (f = 2 * h ∨ f = 2 * h + 1) as Hf by (unfold h; Z.div_mod_to_equations; lia).
    split; [rewrite Z.odd_add, Z.odd_mul; done|].
    assert (2 * h * P * D < N ∧ N < (2 * h + 2) * P * D) as [H1 H2]; [|lia].
    destruct Hn as [H|(Hm & H1 & H2)].
    + assert (2 * h * P < o < (2 * h + 2) * P) by (destruct Hf; nia). rewrite <-H. split; apply Z.mul_lt_mono_pos_r; lia.
    + assert (2 * h * P ≤ 4 * (o / 4) ∧ 4 * (o / 4 + 1) ≤ (2 * h + 2) * P) as [L1 L2].
      { destruct HP4 as [->|H4]; [Z.div_mod_to_equations; lia|].
        assert (P = 4 * (P / 4)) as EP by (Z.div_mod_to_equations; lia). set (Q := P / 4) in *.
        assert (h * 2 * Q ≤ o / 4) by (apply Z.div_le_lower_bound; [lia|]; destruct Hf; nia).
        assert (o / 4 < (2 * h + 2) * Q) by (apply Z.div_lt_upper_bound; [lia|]; destruct Hf; nia). nia. }
      split; [eapply Z.le_lt_trans; [|exact H1]|eapply Z.lt_le_trans; [exact H2|]]; apply Z.mul_le_mono_nonneg_r; lia.
Qed.

Section sticky.
Context (F : format) `{!Format F}.
Abbreviation p := (MBITS F).

Lemma srs_value v s : 0 ≤ v → 1 ≤ s ≤ p + 3 → srs F v s = if v `mod` 2 ^ s =? 0 then v / 2 ^ s else 2 * (v / 2 ^ s / 2) + 1.
Proof.
  intros Hv Hs. pose proof f_mbits. pose proof f_width. unfold srs. destruct (Z.ltb_spec (p + 3) s); [lia|].
  rewrite lor_b2z, Z.shiftr_div_pow2 by lia. unfold uw. rewrite Z.shiftl_mul_pow2 by lia.
  replace (2 ^ W F) with (2 ^ s * 2 ^ (W F - s)) by (rewrite <-Z.pow_add_r by lia; f_equal; lia).
  rewrite Z.mul_mod_distr_r by lia. assert (0 < 2 ^ (W F - s)) by lia.
  unfold truthy. destruct (Z.eqb_spec (v `mod` 2 ^ s) 0) as [->|Hne]; [done|].
  destruct (Z.eqb_spec (v `mod` 2 ^ s * 2 ^ (W F - s)) 0); [nia|done].
Qed.
Lemma pow2_mod4 s : 1 ≤ s → 2 ^ s = 2 ∨ 2 ^ s `mod` 4 = 0.
Proof.
  intros Hs. destruct (decide (s = 1)) as [->|]; [by left|right].
  replace (2 ^ s) with (2 ^ (s - 2) * 4) by (change 4 with (2 ^ 2); rewrite <-Z.pow_add_r by lia; f_equal; lia). apply Z.mod_mul. lia.
Qed.
(** A sticky shift rounds to odd. *)
Lemma srs_odd v s N D : 0 < v < 2 ^ (p + 4) → 1 ≤ s → 0 < D → near4 v N D → odd_round (srs F v s) N (D * 2 ^ s).
Proof.
  intros Hv Hs HD Hn. pose proof f_mbits as Hp. destruct (decide (s ≤ p + 3)) as [Hle|Hgt].
  - rewrite srs_value by lia. apply shift_odd; [done|lia|by apply pow2_mod4|done].
  - unfold srs. destruct (Z.ltb_spec (p + 3) s); [|lia]. right. split; [done|].
    assert (2 ^ (p + 4) ≤ 2 ^ s) by (apply Z.pow_le_mono_r; lia). assert (16 ≤ 2 ^ (p + 4)) by (apply (Z.pow_le_mono_r 2 4); lia).
    destruct Hn as [<-|(Hm & Hn1 & Hn2)]; [nia|]. assert (0 ≤ v / 4 ∧ 4 * (v / 4) ≤ v) as [] by (Z.div_mod_to_equations; lia). nia.
Qed.
Lemma srs_range v s : 0 < v < 2 ^ (p + 4) → 1 ≤ s → 0 ≤ srs F v s < 2 ^ (p + 4).
Proof.
  intros Hv Hs. pose proof f_mbits. assert (16 ≤ 2 ^ (p + 4)) by (apply (Z.pow_le_mono_r 2 4); lia). destruct (decide (s ≤ p + 3)).
  - rewrite srs_value by lia. assert (2 ^ 1 ≤ 2 ^ s) by (apply Z.pow_le_mono_r; lia).
    assert (0 ≤ v / 2 ^ s) by (apply Z.div_pos; lia). assert (v / 2 ^ s ≤ v / 2) by (apply Z.div_le_compat_l; lia).
    destruct (_ =? 0); Z.div_mod_to_equations; lia.
  - unfold srs. destruct (Z.ltb_spec (p + 3) s); lia.
Qed.
Lemma srs1_value v : 0 ≤ v → srs1 v = if v `mod` 2 ^ 1 =? 0 then v / 2 ^ 1 else 2 * (v / 2 ^ 1 / 2) + 1.
Proof.
  intros Hv. unfold srs1. change 1 with (Z.ones 1) at 2. rewrite Z.land_ones, Z.shiftr_div_pow2 by lia.
  pose proof (Z.mod_pos_bound v (2 ^ 1) ltac:(lia)). destruct (Z.eqb_spec (v `mod` 2 ^ 1) 0) as [->|Hne]; [apply Z.lor_0_r|].
  replace (v `mod` 2 ^ 1) with 1 by lia. apply lor_1.
Qed.
Lemma srs1_odd v N D : 0 ≤ v → 0 < D → near4 v N D → odd_round (srs1 v) N (D * 2).
Proof. intros Hv HD Hn. rewrite srs1_value by done. apply (shift_odd v N D (2 ^ 1)); auto; lia. Qed.

(** ** Rounding to eighths *)
Lemma get_rounding_shift c sn o N D : 0 ≤ o < 2 ^ (p + 4) → 0 < D → near4 o N D →
  0 ≤ get_rounding F c sn o < 2 ^ (p + 5) ∧ o ≤ get_rounding F c sn o ≤ o + 8 ∧
  get_rounding F c sn o / 8 = Rint (dir_of (rm c) sn) N (8 * D) ∧
  (o `mod` 8 = 0 ↔ N `mod` (8 * D) = 0).
Proof.
  intros Ho HD Hn. pose proof f_mbits as Hp. pose proof f_width as HW.
  assert (16 ≤ 2 ^ (p + 4)) by (apply (Z.pow_le_mono_r 2 4); lia).
  assert (2 ^ (p + 5) = 2 * 2 ^ (p + 4)) as E5 by (rewrite <-Z.pow_succ_r by lia; f_equal; lia).
  assert (2 ^ (p + 5) ≤ 2 ^ W F) by (apply Z.pow_le_mono_r; lia).
  unfold get_rounding, MBIT, Rint. rewrite land_mask_mod by lia. change (2 ^ 3) with 8.
  pose proof (Z.div_mod o 8 ltac:(lia)) as E. pose proof (Z.mod_pos_bound o 8 ltac:(lia)) as Hb.
  set (a := o / 8) in *. set (b := o `mod` 8) in *.
  assert (N / (8 * D) = a ∧ N `mod` (8 * D) = N - 8 * a * D) as [Eq Er].
  { assert (8 * a * D ≤ N < 8 * (a + 1) * D).
    { destruct Hn as [<-|(_ & H1 & H2)]; [nia|]. assert (2 * a ≤ o / 4 ∧ o / 4 < 2 * (a + 1)) as [] by (Z.div_mod_to_equations; lia). nia. }
    split; [symmetry; apply (Z.div_unique _ _ a (N - 8 * a * D)); lia|].
    symmetry; apply (Z.mod_unique _ _ a); lia. }
  rewrite Eq, Er. set (r := N - 8 * a * D) in *.
  assert (b = 0 ∧ r = 0 ∨ 0 < b < 4 ∧ 0 < r < 4 * D ∨ b = 4 ∧ r = 4 * D ∨ 4 < b < 8 ∧ 4 * D < r < 8 * D) as Hr.
  { destruct Hn as [<-|(Hm & H1 & H2)]; [assert (r = b * D) as -> by (unfold r; rewrite E; ring); nia|].
    assert (o / 4 = 2 * a + b / 4 ∧ o `mod` 4 = b `mod` 4) as [E4 E4'] by (Z.div_mod_to_equations; lia).
    rewrite E4 in H1, H2. rewrite E4' in Hm. unfold r.
    assert (b / 4 = 0 ∧ 0 < b < 4 ∨ b / 4 = 1 ∧ 4 < b) as [[E0 ?]|[E0 ?]] by (Z.div_mod_to_equations; lia); rewrite E0 in H1, H2; lia. }
  assert ((o .>> 3) .& 1 = a `mod` 2) as Ea by (rewrite Z.shiftr_div_pow2 by lia; change 1 with (Z.ones 1); by rewrite Z.land_ones by lia).
  assert (Z.odd a = (a `mod` 2 =? 1)) as Eo by apply Zodd_mod.
  rewrite Ea, Eo. clearbody a b r. clear Eq Er Ea Eo Hn. pose proof (Z.mod_pos_bound a 2 ltac:(lia)) as Ha.
  assert (∀ x, 0 ≤ x ≤ 8 → uw F (o + x) = o + x) as Hu by (intros; unfold uw; apply Z.mod_small; lia).
  assert (∀ x, 8 * a ≤ x < 8 * (a + 1) → x / 8 = a) as Hd0 by (intros; Z.div_mod_to_equations; lia).
  assert (∀ x, 8 * (a + 1) ≤ x < 8 * (a + 2) → x / 8 = a + 1) as Hd1 by (intros; Z.div_mod_to_equations; lia).
  unfold truthy. destruct (Z.eqb_spec b 0) as [Hb0|Hb0]; cbn [negb]; destruct (rm c), sn; cbn [negb dir_of]; rewrite ?Hu by lia;
    (split; [lia|]; split; [lia|]; split; [|lia]);
    repeat match goal with
           | |- context [?x <? ?y] => destruct (Z.ltb_spec x y)
           | |- context [?x =? ?y] => destruct (Z.eqb_spec x y)
           end; cbn [andb orb]; (apply Hd0; lia) || (apply Hd1; lia) || lia.
Qed.

End sticky.

(** ** Correct rounding of a fraction to a multiple of a power of two *)
Lemma Rint_scale d N D k : 0 < D → 0 < k → Rint d (k * N) (k * D) = Rint d N D.
Proof.
  intros HD Hk. unfold Rint. rewrite Z.div_mul_cancel_l, Z.mul_mod_distr_l by lia. set (r := N `mod` D). destruct d; [|done|].
  - destruct (Z.ltb_spec (k * D) (2 * (k * r))), (Z.ltb_spec D (2 * r)), (Z.eqb_spec (2 * (k * r)) (k * D)), (Z.eqb_spec (2 * r) D); cbn; try done; nia.
  - destruct (Z.eqb_spec (k * r) 0), (Z.eqb_spec r 0); try done; nia.
Qed.
Lemma Rint_cases d N D : 0 < D → let f := N / D in let r := N - f * D in 0 ≤ r < D ∧
  match d with
  | TowardZero => Rint d N D = f
  | AwayFromZero => Rint d N D = f ∧ r = 0 ∨ Rint d N D = f + 1 ∧ 0 < r
  | Nearest => Rint d N D = f ∧ (2 * r < D ∨ 2 * r = D ∧ Z.even (Rint d N D) = true) ∨
               Rint d N D = f + 1 ∧ (D < 2 * r ∨ 2 * r = D ∧ Z.even (Rint d N D) = true)
  end.
Proof.
  intros HD f r. pose proof (Z.div_mod N D ltac:(lia)) as E. pose proof (Z.mod_pos_bound N D HD) as Hr.
  assert (N `mod` D = r) as Er by (unfold r, f; lia). rewrite Er in Hr. split; [done|]. unfold Rint. fold f. rewrite Er.
  destruct d; [|done|].
  - destruct (Z.ltb_spec D (2 * r)); cbn; [auto|]. destruct (Z.eqb_spec (2 * r) D); cbn; [|left; split; [done|left; lia]].
    destruct (Z.odd f) eqn:Ho; [right|left]; (split; [done|]); right; (split; [done|]).
    + rewrite Z.even_add. rewrite <-Z.negb_odd, Ho. done.
    + by rewrite <-Z.negb_odd, Ho.
  - destruct (Z.eqb_spec r 0); [left; done|right; split; [done|lia]].
Qed.
Lemma Rint_exact d N D : 0 < D → Rint d N D * D = N ↔ N `mod` D = 0.
Proof.
  intros HD. pose proof (Rint_cases d N D HD) as [Hr Hc]. cbn zeta in *. pose proof (Z.div_mod N D ltac:(lia)).
  destruct d; [destruct Hc as [[-> Hc]|[-> Hc]]|rewrite Hc|destruct Hc as [[-> Hc]|[-> Hc]]]; nia.
Qed.
Lemma Rint_le d N D : 0 < D → N / D ≤ Rint d N D ≤ N / D + 1.
Proof.
  intros HD. pose proof (Rint_cases d N D HD) as [Hr Hc]. cbn zeta in *.
  destruct d; [destruct Hc as [[-> Hc]|[-> Hc]]|rewrite Hc|destruct Hc as [[-> Hc]|[-> Hc]]]; lia.
Qed.

Section rounding.
Context (F : format) `{!Format F}.
Abbreviation p := (MBITS F).
Abbreviation K := (EMAX F - EMIN F).

Lemma K_pos : 8 ≤ K.
Proof.
  pose proof f_emin. pose proof f_emax. pose proof f_ebias. pose proof f_ebits.
  assert (2 ^ 6 ≤ 2 ^ (EBITS F - 1)) by (apply Z.pow_le_mono_r; lia). lia.
Qed.
Lemma exp_range : EMIN F - 1 + EBIAS F = 0 ∧ EMAX F + 1 + EBIAS F = K + 2 ∧ K + 3 = 2 ^ EBITS F ∧ EMIN F + EBIAS F = 1.
Proof.
  pose proof f_emin. pose proof f_emax. pose proof f_ebias. pose proof f_ebits.
  assert (2 ^ EBITS F = 2 * 2 ^ (EBITS F - 1)) by (rewrite <-Z.pow_succ_r by lia; f_equal; lia). lia.
Qed.
Lemma finite_spec x : wf F x → finite F x = true → bexp x ≤ K + 1.
Proof.
  intros [Hb _] Hf. destruct exp_range as (_ & E2 & E3 & _). unfold finite in Hf. rewrite E2 in Hf. apply negb_true_iff, Z.eqb_neq in Hf. lia.
Qed.
Lemma ival_nonneg x : wf F x → 0 ≤ ival F x.
Proof. intros [Hb Hm]. unfold ival. destruct (Z.eqb_spec (bexp x) 0); [lia|]. apply Z.mul_nonneg_nonneg; lia. Qed.
Lemma huge_pow : huge F = 2 ^ (p + 1 + K).
Proof. pose proof K_pos. pose proof f_mbits. unfold huge, top_ulp. by rewrite <-Z.pow_add_r by lia. Qed.
(** The largest number. *)
Lemma ival_max x : wf F x → finite F x = true → ival F x ≤ huge F - top_ulp F.
Proof.
  intros Hw Hf. pose proof (finite_spec x Hw Hf). destruct Hw as [Hb Hm]. pose proof K_pos. pose proof f_mbits.
  assert (2 ^ (p + 1) = 2 * 2 ^ p) as Ep by (rewrite <-Z.pow_succ_r by lia; f_equal; lia).
  assert (0 < top_ulp F) by (unfold top_ulp; lia). unfold ival, huge. destruct (Z.eqb_spec (bexp x) 0); [nia|].
  assert (2 ^ (bexp x - 1) ≤ top_ulp F) by (apply Z.pow_le_mono_r; lia). assert (0 < 2 ^ (bexp x - 1)) by lia. nia.
Qed.
Lemma ival_fmax sn : wf F (fmax F sn) ∧ finite F (fmax F sn) = true ∧ ival F (fmax F sn) = huge F - top_ulp F ∧ sign (fmax F sn) = sn.
Proof.
  pose proof K_pos. pose proof f_mbits. destruct exp_range as (E1 & E2 & E3 & E4).
  assert (EMAX F + EBIAS F = K + 1) as E5 by lia.
  assert (2 ^ (p + 1) = 2 * 2 ^ p) as Ep by (rewrite <-Z.pow_succ_r by lia; f_equal; lia).
  assert (fmax F sn = konst sn (K + 1) (2 ^ p - 1)) as -> by (unfold fmax, spcval; rewrite <-E5; by destruct sn).
  split_and!; [split; cbn; lia| | |done].
  - unfold finite. cbn. rewrite E2. destruct (Z.eqb_spec (K + 1) (K + 2)); [lia|done].
  - unfold ival, huge. cbn. destruct (Z.eqb_spec (K + 1) 0); [lia|]. replace (K + 1 - 1) with K by lia. fold (top_ulp F). rewrite Ep. lia.
Qed.
Lemma wf_finf sn : wf F (finf F sn) ∧ finite F (finf F sn) = false ∧ sign (finf F sn) = sn ∧ 2 ^ p ≤ ival F (finf F sn).
Proof.
  pose proof K_pos. pose proof f_mbits. destruct exp_range as (E1 & E2 & E3 & E4).
  assert (finf F sn = konst sn (K + 2) 0) as -> by (unfold finf, spcval; rewrite <-E2; by destruct sn).
  split_and!; [split; cbn; lia| |done|].
  - unfold finite. cbn. rewrite E2. by rewrite Z.eqb_refl.
  - unfold ival. cbn. destruct (Z.eqb_spec (K + 2) 0); [lia|]. assert (1 ≤ 2 ^ (K + 2 - 1)) by lia. assert (0 < 2 ^ p) by lia. nia.
Qed.

(** No number lies strictly between neighbouring multiples of the unit. *)
Lemma grid w q f : wf F w → 0 ≤ q → 0 ≤ f → 2 ^ p ≤ f ∨ q = 0 → ival F w ≤ f * 2 ^ q ∨ (f + 1) * 2 ^ q ≤ ival F w.
Proof.
  intros [Hb Hm] Hq Hf0 [Hf| ->]; [|lia]. pose proof f_mbits. unfold ival. destruct (Z.eqb_spec (bexp w) 0) as [_|Hb0].
  { left. assert (1 ≤ 2 ^ q) by lia. nia. }
  assert (2 ^ (p + 1) = 2 * 2 ^ p) as Ep by (rewrite <-Z.pow_succ_r by lia; f_equal; lia).
  destruct (decide (q ≤ bexp w - 1)) as [Hle|Hgt].
  - replace (2 ^ (bexp w - 1)) with (2 ^ (bexp w - 1 - q) * 2 ^ q) by (rewrite <-Z.pow_add_r by lia; f_equal; lia).
    rewrite Z.mul_assoc. set (k := _ * 2 ^ (_ - q)). assert (0 < 2 ^ q) by lia. destruct (decide (k ≤ f)); [left|right]; nia.
  - left. assert (2 ^ q = 2 * 2 ^ (q - 1)) as Eq by (rewrite <-Z.pow_succ_r by lia; f_equal; lia).
    assert (2 ^ (bexp w - 1) ≤ 2 ^ (q - 1)) by (apply Z.pow_le_mono_r; lia). assert (0 < 2 ^ (bexp w - 1)) by lia. nia.
Qed.

(** The exact value [N / D] lies between [2 ^ p] and [2 ^ (p + 1)] units [2 ^ q],
    or below with the least unit. *)
Definition in_unit (q N D : Z) : Prop :=
  0 ≤ q ∧ 0 < D ∧ 0 ≤ N ∧ N < 2 ^ (p + 1) * (D * 2 ^ q) ∧ (2 ^ p * (D * 2 ^ q) ≤ N ∨ q = 0).

Lemma in_unit_floor q N D : in_unit q N D → let f := N / (D * 2 ^ q) in
  0 < D * 2 ^ q ∧ 0 ≤ f < 2 ^ (p + 1) ∧ (2 ^ p ≤ f ∨ q = 0).
Proof.
  intros (Hq & HD & HN & Hlt & Hge). assert (0 < D * 2 ^ q) as HP by (apply Z.mul_pos_pos; lia). cbn zeta. split_and!; [done| | |].
  - by apply Z.div_pos.
  - apply Z.div_lt_upper_bound; [done|]. lia.
  - destruct Hge as [Hge|]; [left|by right]. apply Z.div_le_lower_bound; [done|]. lia.
Qed.

Lemma rounded_finite r sn q N D v :
  in_unit q N D → wf F v → sign v = sn → finite F v = true →
  ival F v = Rint (dir_of r sn) N (D * 2 ^ q) * 2 ^ q → Z.even (mant v) = Z.even (Rint (dir_of r sn) N (D * 2 ^ q)) →
  Rint (dir_of r sn) N (D * 2 ^ q) * 2 ^ q < huge F → rounded F r sn N D v.
Proof.
  intros Hu Hw Hsn Hfi Hv Hev Hh. pose proof (in_unit_floor _ _ _ Hu) as (HP & Hf & Hfq). cbn zeta in *.
  pose proof (Rint_cases (dir_of r sn) N _ HP) as [Hr Hc]. cbn zeta in *. set (n := Rint _ _ _) in *. set (f := N / _) in *.
  assert (∀ w, wf F w → ival F w * D ≤ f * (D * 2 ^ q) ∨ (f + 1) * (D * 2 ^ q) ≤ ival F w * D) as Hg.
  { intros w Hww. destruct Hu as (Hq & HD & _). destruct (grid w q f Hww Hq) as [Hl|Hl]; [lia|done|left|right]; nia. }
  assert (ival F v * D = n * (D * 2 ^ q)) as Evd by (rewrite Hv; ring). set (P := D * 2 ^ q) in *.
  assert (0 < D) as HD by apply Hu. split; [done|]. split; [done|]. destruct (dir_of r sn); rewrite ?Hfi.
  - split.
    + destruct Hu as (Hq & _ & HN & Hlt & Hge). pose proof K_pos as HK. pose proof f_mbits as Hp. unfold huge in *.
      assert (2 ^ (p + 1) = 2 * 2 ^ p) as Ep by (rewrite <-Z.pow_succ_r by lia; f_equal; lia).
      assert (q ≤ K) as HqK.
      { destruct (decide (q ≤ K)) as [|Hgt]; [done|exfalso]. destruct Hfq as [Hfq|]; [|lia].
        assert (2 ^ (K + 1) ≤ 2 ^ q) by (apply Z.pow_le_mono_r; lia).
        assert (2 ^ (K + 1) = 2 * top_ulp F) by (unfold top_ulp; rewrite <-Z.pow_succ_r by lia; f_equal; lia).
        assert (f ≤ n) by (destruct Hc as [[-> _]|[-> _]]; lia). assert (0 < 2 ^ p) by lia. nia. }
      destruct (decide (q = K)) as [Eq|Nq].
      * assert (P = D * top_ulp F) as EP by (unfold P, top_ulp; by rewrite Eq). assert (0 < top_ulp F) as HT by (unfold top_ulp; lia).
        assert (2 ^ q = top_ulp F) as E2 by (unfold top_ulp; by rewrite Eq). rewrite E2 in Hh. apply Z.mul_lt_mono_pos_r in Hh; [|done].
        assert (2 * N < (2 * 2 ^ (p + 1) - 1) * P) as HH; [|rewrite EP in HH; lia].
        destruct Hc as [[En Hc]|[En Hc]]; rewrite En in *; [|nia]. destruct Hc as [Hc|[Hc He]]; [nia|].
        assert (f ≠ 2 ^ (p + 1) - 1); [|nia]. intros ->. rewrite Ep, Z.even_sub, Z.even_mul in He. done.
      * assert (2 * 2 ^ q ≤ top_ulp F) as HT by (unfold top_ulp; rewrite <-Z.pow_succ_r by lia; apply Z.pow_le_mono_r; lia).
        assert (2 * P ≤ D * top_ulp F) as HPT by (unfold P; rewrite Z.mul_shuffle3; apply Z.mul_le_mono_nonneg_l; lia).
        assert (2 ^ (p + 1) * (2 * P) ≤ 2 ^ (p + 1) * (D * top_ulp F)) by (apply Z.mul_le_mono_nonneg_l; lia).
        assert (1 * (D * top_ulp F) ≤ 2 ^ (p + 1) * (D * top_ulp F)) by (apply Z.mul_le_mono_nonneg_r; lia). lia.
    + intros w Hww Hwf. rewrite Evd. specialize (Hg w Hww).
      assert (ival F v = ival F w ↔ ival F w * D = n * P) as Hiff by (rewrite <-Evd; split; [intros ->; done|intros E0; apply Z.mul_reg_r in E0; [done|lia]]).
      destruct Hc as [[En Hc]|[En Hc]]; rewrite En in *.
      * destruct Hg as [Hg|Hg].
        -- destruct (decide (ival F w * D = f * P)); [right; split; [lia|left; tauto]|left; lia].
        -- destruct Hc as [Hc|[Hc He]]; [left; lia|]. destruct (decide (ival F w * D = (f + 1) * P)); [right; split; [lia|right; congruence]|left; lia].
      * destruct Hg as [Hg|Hg].
        -- destruct Hc as [Hc|[Hc He]]; [left; lia|]. destruct (decide (ival F w * D = f * P)); [right; split; [lia|right; congruence]|left; lia].
        -- destruct (decide (ival F w * D = (f + 1) * P)); [right; split; [lia|left; tauto]|left; lia].
  - split; [done|]. rewrite Evd, Hc. split; [lia|]. intros w Hww _ Hle. specialize (Hg w Hww).
    assert (ival F w * D ≤ ival F v * D) by (rewrite Evd, Hc; lia). nia.
  - rewrite Evd. split; [destruct Hc as [[-> Hc]|[-> Hc]]; lia|]. intros w Hww _ Hle. specialize (Hg w Hww).
    assert (ival F v * D ≤ ival F w * D) by (rewrite Evd; destruct Hc as [[-> Hc]|[-> Hc]]; lia). nia.
Qed.

Lemma rounded_overflow r sn q N D :
  in_unit q N D → huge F ≤ Rint (dir_of r sn) N (D * 2 ^ q) * 2 ^ q →
  rounded F r sn N D (match dir_of r sn with TowardZero => fmax F sn | _ => finf F sn end) ∧
  (dir_of r sn = TowardZero → huge F * D ≤ N) ∧ (huge F - top_ulp F) * D < N.
Proof.
  intros Hu Hh. pose proof (in_unit_floor _ _ _ Hu) as (HP & Hf & Hfq). cbn zeta in *.
  pose proof (Rint_cases (dir_of r sn) N _ HP) as [Hr Hc]. cbn zeta in *. set (n := Rint _ _ _) in *. set (f := N / _) in *.
  destruct Hu as (Hq & HD & HN & Hlt & Hge). pose proof K_pos as HK. pose proof f_mbits as Hp.
  assert (2 ^ (p + 1) = 2 * 2 ^ p) as Ep by (rewrite <-Z.pow_succ_r by lia; f_equal; lia).
  assert (0 < top_ulp F) as HT by (unfold top_ulp; lia). set (P := D * 2 ^ q) in *.
  assert (q = K ∧ n = 2 ^ (p + 1) ∧ P = D * top_ulp F ∨ huge F * D ≤ N) as Hcase.
  { assert (n ≤ 2 ^ (p + 1)) as Hn by (destruct (dir_of r sn); [destruct Hc as [[-> _]|[-> _]]|rewrite Hc|destruct Hc as [[-> _]|[-> _]]]; lia).
    destruct (Z.lt_trichotomy q K) as [Hqk|[Hqk|Hqk]].
    - exfalso. unfold huge in Hh. assert (2 ^ q < top_ulp F) by (apply Z.pow_lt_mono_r; lia). assert (0 < 2 ^ q) by lia. nia.
    - left. unfold P, huge, top_ulp in *. rewrite Hqk in *. apply Z.mul_le_mono_pos_r in Hh; [|done]. split_and!; [done|lia|done].
    - right. unfold huge. destruct Hge as [Hge|]; [|lia]. eapply Z.le_trans; [|exact Hge]. unfold P.
      assert (2 ^ (K + 1) ≤ 2 ^ q) by (apply Z.pow_le_mono_r; lia).
      assert (2 ^ (K + 1) = 2 * top_ulp F) as E2 by (unfold top_ulp; rewrite <-Z.pow_succ_r by lia; f_equal; lia).
      rewrite Ep. assert (0 < 2 ^ p) by lia. assert (2 * top_ulp F * (D * 2 ^ p) ≤ 2 ^ q * (D * 2 ^ p)) by (apply Z.mul_le_mono_nonneg_r; lia). lia. }
  assert (dir_of r sn = TowardZero → huge F * D ≤ N) as HZ.
  { intros E. destruct Hcase as [(Eq & En & EP)|]; [|done]. rewrite E in Hc. unfold huge. rewrite <-En, Hc. replace (f * top_ulp F * D) with (f * P) by (rewrite EP; ring). lia. }
  assert ((huge F - top_ulp F) * D < N) as HM.
  { destruct Hcase as [(Eq & En & EP)|]; [|nia]. unfold huge. replace ((2 ^ (p + 1) * top_ulp F - top_ulp F) * D) with ((n - 1) * P) by (rewrite EP, En; ring).
    destruct (dir_of r sn); [destruct Hc as [[En' Hc]|[En' Hc]]|rewrite Hc|destruct Hc as [[En' Hc]|[En' Hc]]]; lia. }
  split; [|done]. unfold rounded. destruct (wf_finf sn) as (Hi1 & Hi2 & Hi3 & _). destruct (ival_fmax sn) as (Hm1 & Hm2 & Hm3 & Hm4).
  destruct (dir_of r sn) eqn:Ed; rewrite ?Hi2, ?Hm2, ?Hi3, ?Hm4, ?Hm3.
  - do 3 (split; [done|]). destruct Hcase as [(Eq & En & EP)|?]; [|nia]. unfold huge.
    replace ((2 * (2 ^ (p + 1) * top_ulp F) - top_ulp F) * D) with ((2 * n - 1) * P) by (rewrite EP, En; ring).
    destruct Hc as [[En' Hc]|[En' Hc]]; lia.
  - do 3 (split; [done|]). split; [lia|]. intros w Hw Hwf _. by apply ival_max.
  - do 3 (split; [done|]). intros w Hw Hwf. pose proof (ival_max w Hw Hwf). nia.
Qed.

(** ** Packing *)
Lemma SETCX_SETCX c a b : SETCX (SETCX c a) b = SETCX c (a .| b).
Proof. unfold SETCX, with_cx. cbn. by rewrite !Z.lor_assoc. Qed.
Lemma SETCX_0 c : SETCX c 0 = c.
Proof. destruct c. unfold SETCX, with_cx. cbn. by rewrite !Z.lor_0_r. Qed.
Lemma testbit_top m k : 0 ≤ k → 0 ≤ m < 2 ^ (k + 1) → Z.testbit m k = (2 ^ k <=? m).
Proof.
  intros Hk Hm. destruct (Z.leb_spec (2 ^ k) m) as [Hle|Hlt]; [|apply (testbit_above m k); lia].
  apply Z.testbit_true; [done|]. assert (2 ^ (k + 1) = 2 * 2 ^ k) by (rewrite <-Z.pow_succ_r by lia; f_equal; lia).
  replace (m / 2 ^ k) with 1; [done|]. apply (Z.div_unique _ _ _ (m - 2 ^ k)); lia.
Qed.
Lemma land_top m k : 0 ≤ k → 0 ≤ m < 2 ^ (k + 1) → (m .& 2 ^ k =? 0) = (m <? 2 ^ k).
Proof.
  intros Hk Hm. pose proof (land_bit m k Hk) as Hl. rewrite Z.shiftl_1_l in Hl. unfold truthy in Hl.
  rewrite testbit_top in Hl by done. destruct (m .& 2 ^ k =? 0), (Z.leb_spec (2 ^ k) m), (Z.ltb_spec m (2 ^ k)); cbn in Hl; first [done|lia|discriminate Hl].
Qed.
Lemma ldiff_top m k : 0 ≤ k → 2 ^ k ≤ m < 2 ^ (k + 1) → Z.ldiff m (2 ^ k) = m - 2 ^ k.
Proof.
  intros Hk Hm. symmetry. apply Z.sub_nocarry_ldiff. apply Z.bits_inj'. intros i Hi. rewrite Z.ldiff_spec, Z.bits_0, Z.pow2_bits_eqb by done.
  destruct (Z.eqb_spec k i) as [<-|]; [|done]. rewrite testbit_top by lia. destruct (Z.leb_spec (2 ^ k) m); [done|lia].
Qed.
Lemma near4_bounds o N D a : 0 < D → near4 o N D → (4 * a ≤ o → 4 * a * D ≤ N) ∧ (o < 4 * a → N < 4 * a * D).
Proof.
  intros HD [<-|(Hm & H1 & H2)]; [split; intros; [apply Z.mul_le_mono_nonneg_r|apply Z.mul_lt_mono_pos_r]; lia|].
  split; intros Ho.
  - assert (a ≤ o / 4) by (Z.div_mod_to_equations; lia). assert (4 * a * D ≤ 4 * (o / 4) * D) by (apply Z.mul_le_mono_nonneg_r; lia). lia.
  - assert (o / 4 + 1 ≤ a) by (Z.div_mod_to_equations; lia). assert (4 * (o / 4 + 1) * D ≤ 4 * a * D) by (apply Z.mul_le_mono_nonneg_r; lia). lia.
Qed.

(** [xm] has the exact value [N / D] in eighths of the unit [2 ^ q]. *)
Definition packable (q xm N D : Z) : Prop :=
  0 ≤ q ∧ 0 < D ∧ 0 ≤ xm < 2 ^ (p + 4) ∧ (2 ^ (p + 3) ≤ xm ∨ q = 0) ∧ near4 xm (8 * N) (D * 2 ^ q).
Lemma pow_p k : 0 ≤ k → 2 ^ (p + k) = 2 ^ p * 2 ^ k.
Proof. intros. pose proof f_mbits. apply Z.pow_add_r; lia. Qed.
Lemma packable_unit q xm N D : packable q xm N D → in_unit q N D.
Proof.
  intros (Hq & HD & Hx & Hge & Hn). assert (0 < D * 2 ^ q) as HP by (apply Z.mul_pos_pos; lia).
  pose proof (pow_p 4 ltac:(lia)) as E4. pose proof (pow_p 3 ltac:(lia)) as E3. pose proof (pow_p 1 ltac:(lia)) as E1.
  destruct (near4_bounds _ _ _ 0 HP Hn) as [H0 _]. destruct (near4_bounds _ _ _ (2 ^ p * 4) HP Hn) as [_ H1].
  destruct (near4_bounds _ _ _ (2 ^ p * 2) HP Hn) as [H2 _]. split_and!; [done|done|lia|lia|]. destruct Hge; [left|by right]. lia.
Qed.

Lemma rm_SETCX c x : rm (SETCX c x) = rm c. Proof. done. Qed.
Lemma get_rounding_SETCX c x sn m : get_rounding F (SETCX c x) sn m = get_rounding F c sn m. Proof. done. Qed.

Lemma round_adjust_spec c sn q xe xm N D : packable q xm N D →
  let n := Rint (dir_of (rm c) sn) N (D * 2 ^ q) in
  let inex := negb (N `mod` (D * 2 ^ q) =? 0) in
  ∃ m, round_adjust F c sn xe xm =
         (SETCX c (if inex then INEXACT .| (if xm <? 2 ^ (p + 3) then UNDERFLOW else 0) else 0),
          if n =? 2 ^ (p + 1) then xe + 1 else xe, m) ∧
       m .>> 3 = (if n =? 2 ^ (p + 1) then 2 ^ p else n) ∧ 0 ≤ n ≤ 2 ^ (p + 1) ∧ (2 ^ p ≤ n ∨ q = 0) ∧ (xm < 2 ^ (p + 3) ∨ 2 ^ p ≤ n).
Proof.
  intros Hpk. pose proof (packable_unit _ _ _ _ Hpk) as Hu. pose proof (in_unit_floor _ _ _ Hu) as (HP & Hf & Hfq). cbn zeta in *.
  destruct Hpk as (Hq & HD & Hx & Hge & Hn). set (n := Rint _ _ _).
  pose proof f_mbits as Hp. pose proof (pow_p 4 ltac:(lia)) as E4. pose proof (pow_p 3 ltac:(lia)) as E3.
  pose proof (pow_p 1 ltac:(lia)) as E1. pose proof (pow_p 5 ltac:(lia)) as E5.
  destruct (get_rounding_shift F c sn xm (8 * N) (D * 2 ^ q) Hx HP Hn) as (Hg & Hg2 & Hg3 & Hg4).
  rewrite Rint_scale in Hg3 by lia. fold n in Hg3. rewrite Z.mul_mod_distr_l in Hg4 by lia.
  set (g := get_rounding F c sn xm) in *. pose proof (Rint_le (dir_of (rm c) sn) N _ HP) as Hle. fold n in Hle.
  assert (8 * n ≤ g < 8 * n + 8) as Hg8 by (rewrite <-Hg3; clear; Z.div_mod_to_equations; lia).
  assert (g < 2 ^ (p + 4) ↔ n < 2 ^ (p + 1)) as Hov by lia.
  assert (0 ≤ n ≤ 2 ^ (p + 1)) as Hn01 by lia.
  assert (xm < 2 ^ (p + 3) ∨ 2 ^ p ≤ n) as Hlow by lia.
  unfold round_adjust, MBIT. rewrite land_mask_mod by lia. change (2 ^ 3) with 8.
  unfold HIDDEN_BIT, MBIT. rewrite Z.shiftl_mul_pow2, <-Z.pow_add_r by lia.
  rewrite land_top by (replace (p + 3 + 1) with (p + 4) by lia; lia).
  destruct (Z.eqb_spec (N `mod` (D * 2 ^ q)) 0) as [Hex|Hex]; cbn [negb].
  - assert (xm `mod` 8 = 0) as Hx8 by (apply Hg4; lia). rewrite Hx8. cbn. rewrite SETCX_0.
    assert (g = xm) as Eg by (unfold g, get_rounding, MBIT; rewrite land_mask_mod by lia; change (2 ^ 3) with 8; by rewrite Hx8).
    destruct (Z.eqb_spec n (2 ^ (p + 1))); [lia|]. exists xm. rewrite Z.shiftr_div_pow2 by lia. change (2 ^ 3) with 8.
    split_and!; [done|congruence|lia|lia|lia|done].
  - assert (xm `mod` 8 ≠ 0) as Hx8 by (intros H0; apply Hg4 in H0; lia). rewrite (proj2 (truthy_spec _)) by done.
    assert ((if xm <? 2 ^ (p + 3) then SETCX (SETCX c INEXACT) UNDERFLOW else SETCX c INEXACT) =
            SETCX c (INEXACT .| (if xm <? 2 ^ (p + 3) then UNDERFLOW else 0))) as ->.
    { destruct (xm <? 2 ^ (p + 3)); [apply SETCX_SETCX|]. by rewrite Z.lor_0_r. }
    rewrite get_rounding_SETCX. fold g. rewrite !Z.shiftr_div_pow2 by lia. replace (p + 1 + 3) with (p + 4) by lia.
    destruct (Z.eqb_spec n (2 ^ (p + 1))) as [En|En].
    + assert (g / 2 ^ (p + 4) = 1) as -> by (symmetry; apply (Z.div_unique _ _ _ (g - 2 ^ (p + 4))); lia).
      cbn. exists (g / 2 ^ 1). rewrite Z.shiftr_div_pow2 by lia. split_and!; [done| |lia|lia|lia|done].
      rewrite Z.div_div by lia. change (2 ^ 1 * 2 ^ 3) with (8 * 2). rewrite <-Z.div_div, Hg3, En, E1 by lia. by apply Z.div_mul.
    + rewrite (Z.div_small g) by lia. cbn. exists g. rewrite Z.shiftr_div_pow2 by lia. change (2 ^ 3) with 8. split_and!; [done|done|lia|lia|lia|done].
Qed.

Lemma pack_finite c sn q n : 0 ≤ q ≤ K → 0 ≤ n < 2 ^ (p + 1) → 2 ^ p ≤ n ∨ q = 0 →
  ∃ v, pack F c sn (EMIN F + q) n = (v, if (n <? 2 ^ p) && truthy (mx c .& UNDERFLOW) then SETCX c UNDERFLOW else c) ∧
    wf F v ∧ sign v = sn ∧ finite F v = true ∧ ival F v = n * 2 ^ q ∧ Z.even (mant v) = Z.even n.
Proof.
  intros Hq Hn Hnq. pose proof K_pos as HK. pose proof f_mbits as Hp. destruct exp_range as (E1 & E2 & E3 & E4).
  unfold pack, build, HIDDEN_BIT, MBIT. destruct (Z.ltb_spec (EMAX F) (EMIN F + q)); [lia|]. rewrite land_top by lia.
  pose proof (pow_p 1 ltac:(lia)) as Ep. destruct (Z.ltb_spec n (2 ^ p)) as [Hlt|Hge]; cbn [andb].
  - assert (q = 0) as -> by lia. eexists. split; [done|]. rewrite E1, (Z.mod_small 0), (Z.mod_small n) by lia.
    rewrite Z.pow_0_r, Z.mul_1_r. unfold wf, finite, ival. cbn [bexp mant sign]. rewrite E2. destruct (Z.eqb_spec 0 (K + 2)); [lia|]. split_and!; try done; lia.
  - rewrite ldiff_top by lia. eexists. split; [done|]. replace (EMIN F + q + EBIAS F) with (q + 1) by lia.
    rewrite !Z.mod_small by lia. unfold wf, finite, ival. cbn [bexp mant sign]. rewrite E2.
    destruct (Z.eqb_spec (q + 1) (K + 2)); [lia|]. destruct (Z.eqb_spec (q + 1) 0); [lia|]. split_and!; try done; try lia.
    + f_equal; [lia|f_equal; lia].
    + rewrite Z.even_sub. replace p with (Z.succ (p - 1)) by lia. rewrite Z.pow_succ_r, Z.even_mul by lia. cbn. by destruct (Z.even n).
Qed.
Lemma pack_overflow c sn xe n : EMAX F < xe →
  pack F c sn xe n = (match dir_of (rm c) sn with TowardZero => fmax F sn | _ => finf F sn end, SETCX (SETCX c OVERFLOW) INEXACT).
Proof. intros Hx. unfold pack. rewrite (proj2 (Z.ltb_lt _ _)) by done. cbn. by destruct (rm c), sn. Qed.

(** Which case of [pack] applies. *)
Lemma unit_le_K n q : 0 ≤ q → 2 ^ p ≤ n ∨ q = 0 → n * 2 ^ q < huge F → q ≤ K.
Proof.
  intros Hq [Hn|]; [|pose proof K_pos; lia]. intros Hh. apply Z.nlt_ge. intros Hlt. pose proof K_pos. pose proof f_mbits.
  rewrite huge_pow in Hh. assert (2 ^ (p + 1 + K) ≤ 2 ^ p * 2 ^ q) by (rewrite <-Z.pow_add_r by lia; apply Z.pow_le_mono_r; lia).
  assert (0 < 2 ^ q) by lia. nia.
Qed.
Lemma flags_overflow c sn N D d :
  (d = TowardZero → huge F * D ≤ N) → (huge F - top_ulp F) * D < N →
  flags F c N D (match d with TowardZero => fmax F sn | _ => finf F sn end) 5.
Proof.
  intros HZ HM. destruct (wf_finf sn) as (_ & Hi2 & _ & Hi4). destruct (ival_fmax sn) as (_ & Hm2 & Hm3 & _).
  pose proof K_pos. pose proof f_mbits. pose proof (pow_p 1 ltac:(lia)) as Ep.
  assert (2 ^ p ≤ huge F - top_ulp F) as Hmax by (unfold huge; assert (1 ≤ top_ulp F) by (unfold top_ulp; lia); assert (1 ≤ 2 ^ p) by lia; nia).
  split; [lia|]. destruct d; rewrite ?Hi2, ?Hm2, ?Hm3; (split; [|split; [|split]]); cbn; try done; try tauto; try lia.
Qed.
Lemma flags_finite c q xm n N D v :
  packable q xm N D → 0 < D * 2 ^ q → ival F v = n * 2 ^ q → finite F v = true → n * 2 ^ q < huge F →
  N / (D * 2 ^ q) ≤ n → 2 ^ p ≤ n ∨ q = 0 → xm < 2 ^ (p + 3) ∨ 2 ^ p ≤ n → (n * (D * 2 ^ q) = N ↔ N `mod` (D * 2 ^ q) = 0) →
  flags F c N D v ((if negb (N `mod` (D * 2 ^ q) =? 0) then INEXACT .| (if xm <? 2 ^ (p + 3) then UNDERFLOW else 0) else 0)
                   .| (if (n <? 2 ^ p) && truthy (mx c .& UNDERFLOW) then UNDERFLOW else 0)).
Proof.
  intros (Hq & HD & Hx & Hge & Hn4) HP Hv Hf Hh Hle Hnq Hlow Hex. pose proof f_mbits as Hp. pose proof (pow_p 3 ltac:(lia)) as E3.
  assert (ival F v * D = n * (D * 2 ^ q)) as Ev by (rewrite Hv; ring). pose proof (unit_le_K _ _ Hq Hnq Hh) as HqK.
  assert (¬ huge F * D ≤ N) as Hno.
  { intros Hc. assert (2 ^ (p + 1 + K - q) ≤ N / (D * 2 ^ q)) as Hl.
    { apply Z.div_le_lower_bound; [done|]. rewrite huge_pow in Hc.
      replace (2 ^ (p + 1 + K)) with (2 ^ q * 2 ^ (p + 1 + K - q)) in Hc by (rewrite <-Z.pow_add_r by lia; f_equal; lia). lia. }
    rewrite huge_pow in Hh. replace (2 ^ (p + 1 + K)) with (2 ^ (p + 1 + K - q) * 2 ^ q) in Hh by (rewrite <-Z.pow_add_r by lia; f_equal; lia).
    assert (0 < 2 ^ q) by lia. nia. }
  assert (truthy (mx c .& UNDERFLOW) = Z.testbit (mx c) 1) as -> by (change UNDERFLOW with (1 .<< 1); by apply land_bit).
  assert (xm < 2 ^ (p + 3) → N < 2 ^ p * D) as Hx3.
  { intros Hlt. assert (q = 0) as -> by lia. rewrite Z.pow_0_r, Z.mul_1_r in *.
    destruct (near4_bounds _ _ _ (2 ^ p * 2) HD Hn4) as [_ Hb]. lia. }
  assert (n < 2 ^ p → N < 2 ^ p * D) as Hn3.
  { intros Hlt. assert (q = 0) as -> by lia. rewrite Z.pow_0_r, Z.mul_1_r in *. pose proof (Z.div_mod N D ltac:(lia)). pose proof (Z.mod_pos_bound N D HD). nia. }
  assert (n * 2 ^ q < 2 ^ p → n < 2 ^ p ∧ xm < 2 ^ (p + 3)) as Hsm.
  { intros Hlt. assert (n < 2 ^ p) by (assert (1 ≤ 2 ^ q) by lia; destruct Hnq; [nia|subst q; lia]). lia. }
  unfold flags. rewrite Hf, Ev, Hv. set (nx := N `mod` (D * 2 ^ q)) in *. clearbody nx.
  destruct (Z.eqb_spec nx 0), (Z.ltb_spec xm (2 ^ (p + 3))), (Z.ltb_spec n (2 ^ p)), (Z.testbit (mx c) 1); cbn [negb andb]; clear Hn4;
    match goal with |- context [Z.testbit ?X 0] => let x := eval vm_compute in X in change X with x end; cbn; split_and!; lia.
Qed.

(** Packing rounds correctly. *)
Lemma format_pack_spec c sn q xm N D : packable q xm N D →
  ∃ v X, format_pack F c sn (EMIN F + q) xm = (v, SETCX c X) ∧ rounded F (rm c) sn N D v ∧ flags F c N D v X.
Proof.
  intros Hpk. pose proof (packable_unit _ _ _ _ Hpk) as Hu. pose proof (in_unit_floor _ _ _ Hu) as (HP & Hf & Hfq).
  destruct (round_adjust_spec c sn q (EMIN F + q) xm N D Hpk) as (m & Hra & Hm & Hn & Hnq & Hlow). cbn zeta in *.
  unfold format_pack. rewrite Hra, Hm. clear Hra Hm. pose proof (Rint_exact (dir_of (rm c) sn) N _ HP) as Hex.
  pose proof (Rint_le (dir_of (rm c) sn) N _ HP) as [Hle _]. set (n := Rint (dir_of (rm c) sn) N (D * 2 ^ q)) in *.
  pose proof K_pos as HK. pose proof f_mbits as Hp. pose proof (pow_p 1 ltac:(lia)) as Ep. assert (0 ≤ q) as Hq by apply Hpk.
  assert (huge F = 2 ^ (p + 1) * 2 ^ K) as Eh by done. destruct (decide (huge F ≤ n * 2 ^ q)) as [Hov|Hfin].
  - assert (EMAX F < (if n =? 2 ^ (p + 1) then EMIN F + q + 1 else EMIN F + q)) as Hxe.
    { destruct (Z.eqb_spec n (2 ^ (p + 1))) as [En|En]; apply Z.nle_gt; intros Hle'.
      - assert (2 ^ q < 2 ^ K) by (apply Z.pow_lt_mono_r; lia). nia.
      - assert (2 ^ q ≤ 2 ^ K) by (apply Z.pow_le_mono_r; lia). assert (0 < 2 ^ q) by lia. nia. }
    rewrite pack_overflow, !SETCX_SETCX, rm_SETCX by done. destruct (rounded_overflow (rm c) sn q N D Hu Hov) as (Hr & HZ & HM).
    eexists _, _. split; [done|]. split; [done|].
    assert (2 ^ (p + 3) ≤ xm) as Hx3.
    { destruct Hpk as (_ & _ & _ & [|Hq0] & _); [done|]. destruct (Z.eqb_spec n (2 ^ (p + 1))); lia. }
    destruct (Z.ltb_spec xm (2 ^ (p + 3))); [lia|]. destruct (_ =? 0); cbn; by apply flags_overflow.
  - apply Z.nle_gt in Hfin. pose proof (unit_le_K _ _ Hq Hnq Hfin) as HqK. set (X0 := if negb _ then _ else 0).
    assert (∃ v, pack F (SETCX c X0) sn (if n =? 2 ^ (p + 1) then EMIN F + q + 1 else EMIN F + q) (if n =? 2 ^ (p + 1) then 2 ^ p else n) =
        (v, SETCX c (X0 .| (if (n <? 2 ^ p) && truthy (mx c .& UNDERFLOW) then UNDERFLOW else 0))) ∧
        wf F v ∧ sign v = sn ∧ finite F v = true ∧ ival F v = n * 2 ^ q ∧ Z.even (mant v) = Z.even n) as (v & Hv & Hw & Hs & Hfv & Hi & He).
    { destruct (Z.eqb_spec n (2 ^ (p + 1))) as [En|En].
      - destruct (pack_finite (SETCX c X0) sn (q + 1) (2 ^ p)) as (v & Hv & Hw & Hs & Hfv & Hi & He); [|lia|by left|].
        { split; [lia|]. assert (2 ^ q < 2 ^ K) as Hlt by (rewrite En, Eh in Hfin; nia). apply Z.pow_lt_mono_r_iff in Hlt; lia. }
        exists v. rewrite Z.add_assoc in Hv. rewrite Hv, (proj2 (Z.ltb_ge _ _)) by lia. rewrite (proj2 (Z.ltb_ge _ _)) by lia. cbn [andb].
        rewrite Z.lor_0_r. split_and!; [done..| |].
        + rewrite Hi, En, Ep, Z.pow_add_r by lia. ring.
        + rewrite He, En, Ep, Z.even_mul. replace p with (Z.succ (p - 1)) by lia. rewrite Z.pow_succ_r, Z.even_mul by lia. done.
      - destruct (pack_finite (SETCX c X0) sn q n) as (v & Hv & Hrest); [lia|lia|done|]. exists v. split; [|done]. rewrite Hv.
        change (mx (SETCX c X0)) with (mx c). destruct ((n <? 2 ^ p) && _); [by rewrite SETCX_SETCX|by rewrite Z.lor_0_r]. }
    exists v, (X0 .| (if (n <? 2 ^ p) && truthy (mx c .& UNDERFLOW) then UNDERFLOW else 0)). split; [done|]. split; [by eapply rounded_finite|].
    by eapply flags_finite.
Qed.

(** ** [format_] rounds correctly *)

(** [xm] has the exact value [N / D] in eighths of the last place at exponent [xe]. *)
Definition formattable (xe xm N D : Z) : Prop :=
  0 < D ∧ 2 ^ (p + 3) ≤ xm < 2 ^ (p + 4) ∧
  near4 xm (8 * N * 2 ^ Z.max 0 (EMIN F - xe)) (D * 2 ^ Z.max 0 (xe - EMIN F)).

Lemma Rint_double d N D M : 0 < D → N < M * D → 2 * M ≤ Rint d (2 * N) D → Rint d N D = M ∧ 0 ≤ N - (M - 1) * D.
Proof.
  intros HD HN HM. destruct (Rint_cases d (2 * N) D HD) as [Hr2 Hc2]. cbn zeta in *. set (f2 := 2 * N / D) in *.
  assert (Rint d (2 * N) D ≤ f2 + 1) as Hle by (apply Rint_le; done). assert (f2 < 2 * M) as Hf2 by nia.
  assert (f2 = 2 * M - 1 ∧ Rint d (2 * N) D = f2 + 1) as [Ef ER] by lia.
  assert (N / D = M - 1) as EN by (symmetry; apply (Z.div_unique _ _ _ (N - (M - 1) * D)); nia).
  destruct (Rint_cases d N D HD) as [Hr Hc]. cbn zeta in *. rewrite EN in *. split; [|lia].
  destruct d; [|lia|]; destruct Hc2 as [[Hx _]|[_ Hc2]], Hc as [[Hy Hc]|[Hy Hc]]; try lia; exfalso; nia.
Qed.

Lemma format_tiny c sn xm N D : nod c = false → 0 < D → 2 ^ (p + 3) ≤ xm < 2 ^ (p + 4) → near4 xm (16 * N) D →
  truthy (get_rounding F c sn xm .>> (p + 1 + 3)) = true →
  ∃ v, format_pack F (SETCX c INEXACT) sn (EMIN F) (Z.ldiff (get_rounding F c sn xm .>> 1) (MBIT 3 - 1)) = (v, SETCX c INEXACT) ∧
    rounded F (rm c) sn N D v ∧ flags F c N D v INEXACT.
Proof.
  intros Hnod HD Hx Hn Ht. pose proof f_mbits as Hp. pose proof (pow_p 4 ltac:(lia)) as E4. pose proof (pow_p 3 ltac:(lia)) as E3. pose proof (pow_p 1 ltac:(lia)) as E1.
  destruct (get_rounding_shift F c sn xm (16 * N) D ltac:(lia) HD Hn) as (Hg & Hg2 & Hg3 & _). set (g := get_rounding F c sn xm) in *.
  apply truthy_spec in Ht. rewrite Z.shiftr_div_pow2 in Ht by lia. replace (p + 1 + 3) with (p + 4) in Ht by lia.
  assert (2 ^ (p + 4) ≤ g) as Hgge by (apply Z.nlt_ge; intros Hlt; apply Ht, Z.div_small; lia).
  replace (16 * N) with (8 * (2 * N)) in Hg3 by lia. rewrite Rint_scale in Hg3 by lia.
  assert (8 * (g / 8) ≤ g < 8 * (g / 8) + 8) as Hg8 by (clear; Z.div_mod_to_equations; lia). rewrite Hg3 in Hg8.
  destruct (near4_bounds _ _ _ (2 ^ p * 4) HD Hn) as [_ HNlt]. assert (N < 2 ^ p * D) as HN by lia.
  destruct (Rint_double (dir_of (rm c) sn) N D (2 ^ p) HD HN) as [HR HN0]; [lia|].
  assert (Z.ldiff (g .>> 1) (MBIT 3 - 1) = 2 ^ (p + 3)) as ->.
  { unfold MBIT. replace (2 ^ 3 - 1) with (Z.ones 3) by done. rewrite Z.ldiff_ones_r, !Z.shiftr_div_pow2, Z.shiftl_mul_pow2 by lia.
    rewrite Z.div_div by lia. change (2 ^ 1 * 2 ^ 3) with 16. change (2 ^ 3) with 8.
    assert (g / 16 = 2 ^ p) as -> by (symmetry; apply (Z.div_unique _ _ _ (g - 2 ^ p * 16)); lia). lia. }
  unfold format_pack, round_adjust, MBIT. rewrite land_mask_mod by lia. rewrite E3, Z.mod_mul by lia. cbn [truthy Z.eqb negb].
  rewrite Z.shiftr_div_pow2, Z.div_mul by lia.
  destruct (pack_finite (SETCX c INEXACT) sn 0 (2 ^ p)) as (v & Hv & Hw & Hs & Hf & Hi & He); [pose proof K_pos; lia|lia|by left|].
  rewrite Z.add_0_r in Hv. rewrite Hv, (proj2 (Z.ltb_ge _ _)) by lia. cbn [andb]. exists v. split; [done|]. rewrite Z.pow_0_r, Z.mul_1_r in Hi.
  assert (2 ^ p < huge F) as Hh by (pose proof K_pos; rewrite huge_pow; apply Z.pow_lt_mono_r; lia).
  split.
  - apply (rounded_finite _ _ 0); rewrite ?Z.pow_0_r, ?Z.mul_1_r, ?HR; try done. repeat split; rewrite ?Z.pow_0_r, ?Z.mul_1_r; try done; try lia.
    assert (0 ≤ (2 ^ p - 1) * D) by (apply Z.mul_nonneg_nonneg; lia). lia.
  - assert (huge F * D > N) by nia. repeat split; rewrite ?Hf, ?Hi; cbn; try lia; try done.
Qed.

Lemma format_spec c sn xe xm N D : nod c = false → formattable xe xm N D →
  ∃ v X, format_ F c sn xe xm = (v, SETCX c X) ∧ rounded F (rm c) sn N D v ∧ flags F c N D v X.
Proof.
  intros Hnod (HD & Hx & Hn). unfold format_. rewrite Hnod. destruct (Z.ltb_spec xe (EMIN F)) as [Hlt|Hge].
  - rewrite (Z.max_r 0 (EMIN F - xe)), (Z.max_l 0 (xe - EMIN F)), Z.pow_0_r, Z.mul_1_r in Hn by lia. set (es := EMIN F - xe) in *.
    destruct ((xe =? EMIN F - 1) && _) eqn:Et.
    + apply andb_prop in Et as [Ee%Z.eqb_eq Et]. assert (es = 1) as Ees by (unfold es; lia). rewrite Ees in Hn.
      replace (8 * N * 2 ^ 1) with (16 * N) in Hn by lia. destruct (format_tiny c sn xm N D) as (v & Hv & Hr); [done..|].
      exists v, INEXACT. replace (xe + 1) with (EMIN F) by lia. done.
    + replace (xe + es) with (EMIN F + 0) by (unfold es; lia). apply format_pack_spec. pose proof (pow_p 4 ltac:(lia)) as E4. pose proof (pow_p 3 ltac:(lia)) as E3.
      assert (0 < 2 ^ es) as Hes by (apply Z.pow_pos_nonneg; unfold es; lia).
      pose proof (srs_odd F xm es _ D ltac:(lia) ltac:(unfold es; lia) HD Hn) as Ho.
      pose proof (srs_range F xm es ltac:(lia) ltac:(unfold es; lia)) as Hsr. assert (0 < D * 2 ^ es) by (apply Z.mul_pos_pos; lia).
      split_and!; [lia|done|lia|lia|by right|]. rewrite Z.pow_0_r, Z.mul_1_r. apply odd_near4 in Ho; [|done].
      eapply near4_ratio; [| | |exact Ho]; [done|done|ring].
  - rewrite (Z.max_l 0 (EMIN F - xe)), (Z.max_r 0 (xe - EMIN F)), Z.pow_0_r, Z.mul_1_r in Hn by lia.
    set (q := xe - EMIN F) in *. replace xe with (EMIN F + q) by (unfold q; lia). apply format_pack_spec. split_and!; [lia|done|lia|lia|left; lia|done].
Qed.
End rounding.

End Ieee754.
