(* ===== verification/FpArith.v ===== *)
(** * FpArith: addition, subtraction, multiplication and division

    sp_add.c, sp_sub.c, sp_mul.c and sp_div.c of arch/mips/math-emu and their
    double precision copies, as one definition each over a [format]. The theorems
    show that every result is the correctly rounded exact one, with the right
    flags, and what happens to zeros, infinities and NaNs. *)

From S2P Require Import Prelude Ieee754.
Import Ieee754.

Module FpArith.

(** Case analysis on the comparisons of the goal. *)
Ltac zbool := repeat match goal with
  | |- context [?x <? ?y] => destruct (Z.ltb_spec x y)
  | |- context [?x =? ?y] => destruct (Z.eqb_spec x y)
  | |- context [?x <=? ?y] => destruct (Z.leb_spec x y)
  end.

Section code.
Context (F : format).

(** SPDNORMX: a denormal is shifted up to the hidden bit. *)
Definition DNORM_ (k : comp) : option comp :=
  '(m, e) ← normalise F (MBITS F) (vm k) (ve k); Some {| vc := vc k; vs := vs k; ve := e; vm := m |}.

(** The end of add and sub: two normalised numbers, the second with its final sign. *)
Definition add_aligned (c : csr) (xs : bool) (xe xm : Z) (ys : bool) (ym : Z) : option (fl * csr) :=
  if bool_decide (xs = ys) then
    let xm := uw F (xm + ym) in
    let '(xe, xm) := if truthy (xm .>> (MBITS F + 1 + 3)) then (xe + 1, srs1 xm) else (xe, xm) in
    Some (NORMRET F c xs xe xm)
  else
    let '(xs, xm) := if ym <=? xm then (xs, uw F (xm - ym)) else (ys, uw F (ym - xm)) in
    if xm =? 0 then Some (fzero F (bool_decide (rm c = RD)), c) else
    '(xm, xe) ← normalise F (MBITS F + 3) xm xe;
    Some (NORMRET F c xs xe xm).
Definition add_finite (c : csr) (kx ky : comp) : option (fl * csr) :=
  let xm := uw F (vm kx .<< 3) in
  let ym := uw F (vm ky .<< 3) in
  let '(xe, xm, ym) :=
    if ve ky <? ve kx then (ve kx, xm, srs F ym (ve kx - ve ky))
    else if ve kx <? ve ky then (ve kx + (ve ky - ve kx), srs F xm (ve ky - ve kx), ym)
    else (ve kx, xm, ym) in
  add_aligned c (vs kx) xe xm (vs ky) ym.

Definition fadd (c : csr) (x y : fl) : option (fl * csr) :=
  let kx := EXPLODE F x in let ky := EXPLODE F y in
  let c := CLEARCX c in
  let '(c, x, kx) := FLUSH F c x kx in
  let '(c, y, ky) := FLUSH F c y ky in
  match vc kx, vc ky with
  | SNAN, _ | _, SNAN => Some (nanxcpt F (SETCX c INVALID_OPERATION) (findef F))
  | (ZERO | NORM | DNORM | INF), QNAN => Some (y, c)
  | QNAN, _ => Some (x, c)
  | INF, INF =>
      if bool_decide (vs kx = vs ky) then Some (x, c) else Some (xcpt (SETCX c INVALID_OPERATION) (findef F))
  | (NORM | ZERO | DNORM), INF => Some (y, c)
  | INF, (ZERO | NORM | DNORM) => Some (x, c)
  | ZERO, ZERO => if bool_decide (vs kx = vs ky) then Some (x, c) else Some (fzero F (bool_decide (rm c = RD)), c)
  | (NORM | DNORM), ZERO => Some (x, c)
  | ZERO, (NORM | DNORM) => Some (y, c)
  | DNORM, DNORM => kx ← DNORM_ kx; ky ← DNORM_ ky; add_finite c kx ky
  | NORM, DNORM => ky ← DNORM_ ky; add_finite c kx ky
  | DNORM, NORM => kx ← DNORM_ kx; add_finite c kx ky
  | NORM, NORM => add_finite c kx ky
  end.

Definition flip (k : comp) : comp := {| vc := vc k; vs := negb (vs k); ve := ve k; vm := vm k |}.
Definition fsub (c : csr) (x y : fl) : option (fl * csr) :=
  let kx := EXPLODE F x in let ky := EXPLODE F y in
  let c := CLEARCX c in
  let '(c, x, kx) := FLUSH F c x kx in
  let '(c, y, ky) := FLUSH F c y ky in
  match vc kx, vc ky with
  | SNAN, _ | _, SNAN => Some (nanxcpt F (SETCX c INVALID_OPERATION) (findef F))
  | (ZERO | NORM | DNORM | INF), QNAN => Some (y, c)
  | QNAN, _ => Some (x, c)
  | INF, INF =>
      if bool_decide (vs kx ≠ vs ky) then Some (x, c) else Some (xcpt (SETCX c INVALID_OPERATION) (findef F))
  | (NORM | ZERO | DNORM), INF => Some (finf F (negb (vs ky)), c)
  | INF, (ZERO | NORM | DNORM) => Some (x, c)
  | ZERO, ZERO => if bool_decide (vs kx ≠ vs ky) then Some (x, c) else Some (fzero F (bool_decide (rm c = RD)), c)
  | (NORM | DNORM), ZERO => Some (x, c)
  | ZERO, (NORM | DNORM) => Some ({| sign := negb (sign y); bexp := bexp y; mant := mant y |}, c)
  | DNORM, DNORM => kx ← DNORM_ kx; ky ← DNORM_ ky; add_finite c kx (flip ky)
  | NORM, DNORM => ky ← DNORM_ ky; add_finite c kx (flip ky)
  | DNORM, NORM => kx ← DNORM_ kx; add_finite c kx (flip ky)
  | NORM, NORM => add_finite c kx (flip ky)
  end.

(** The product of two words, high word with a sticky bit, from four products of
    half words. *)
Definition mul_cross (hrm lrm t : Z) : Z * Z :=
  let h := W F / 2 in
  let at_ := uw F (lrm + uw F (t .<< h)) in
  let hrm := uw F (hrm + Z.b2z (at_ <? lrm)) in
  (uw F (hrm + (t .>> h)), at_).
Definition mul_high (xm ym : Z) : Z :=
  let h := W F / 2 in
  let lxm := xm `mod` 2 ^ h in let hxm := xm .>> h in
  let lym := ym `mod` 2 ^ h in let hym := ym .>> h in
  let lrm := uw F (lxm * lym) in
  let hrm := uw F (hxm * hym) in
  let '(hrm, lrm) := mul_cross hrm lrm (uw F (lxm * hym)) in
  let '(hrm, lrm) := mul_cross hrm lrm (uw F (hxm * lym)) in
  hrm .| Z.b2z (truthy lrm).
Definition mul_finite (c : csr) (kx ky : comp) : fl * csr :=
  let re := ve kx + ve ky in
  let rs := xorb (vs kx) (vs ky) in
  let xm := uw F (vm kx .<< (W F - (MBITS F + 1))) in
  let ym := uw F (vm ky .<< (W F - (MBITS F + 1))) in
  let rm := mul_high xm ym in
  if Z.testbit rm (W F - 1) then
    NORMRET F c rs (re + 1)
      ((rm .>> (W F - (MBITS F + 1 + 3))) .| Z.b2z (truthy (uw F (rm .<< (MBITS F + 1 + 3)))))
  else
    NORMRET F c rs re
      ((rm .>> (W F - (MBITS F + 1 + 3 + 1))) .| Z.b2z (truthy (uw F (rm .<< (MBITS F + 1 + 3 + 1))))).
Definition fmul (c : csr) (x y : fl) : option (fl * csr) :=
  let kx := EXPLODE F x in let ky := EXPLODE F y in
  let c := CLEARCX c in
  let '(c, x, kx) := FLUSH F c x kx in
  let '(c, y, ky) := FLUSH F c y ky in
  match vc kx, vc ky with
  | SNAN, _ | _, SNAN => Some (nanxcpt F (SETCX c INVALID_OPERATION) (findef F))
  | (ZERO | NORM | DNORM | INF), QNAN => Some (y, c)
  | QNAN, _ => Some (x, c)
  | INF, ZERO | ZERO, INF => Some (xcpt (SETCX c INVALID_OPERATION) (findef F))
  | (NORM | DNORM), INF | INF, (NORM | DNORM | INF) => Some (finf F (xorb (vs kx) (vs ky)), c)
  | ZERO, (ZERO | NORM | DNORM) | (NORM | DNORM), ZERO => Some (fzero F (xorb (vs kx) (vs ky)), c)
  | DNORM, DNORM => kx ← DNORM_ kx; ky ← DNORM_ ky; Some (mul_finite c kx ky)
  | NORM, DNORM => ky ← DNORM_ ky; Some (mul_finite c kx ky)
  | DNORM, NORM => kx ← DNORM_ kx; Some (mul_finite c kx ky)
  | NORM, NORM => Some (mul_finite c kx ky)
  end.

(** for (bm = MBIT(MBITS + 2); bm; bm >>= 1): one bit of the quotient per round *)
Definition div_round (ym : Z) (s : Z * Z * Z) : Z * Z * Z + Z * Z :=
  let '(xm, rm, bm) := s in
  if bm =? 0 then inr (xm, rm) else
  if ym <=? xm then
    let xm := uw F (xm - ym) in let rm := rm .| bm in
    if xm =? 0 then inr (xm, rm) else inl (uw F (xm .<< 1), rm, bm .>> 1)
  else inl (uw F (xm .<< 1), rm, bm .>> 1).
Definition div_finite (c : csr) (kx ky : comp) : option (fl * csr) :=
  let xm := uw F (vm kx .<< 3) in
  let ym := uw F (vm ky .<< 3) in
  let re := ve kx - ve ky in
  '(xm, rm) ← loop (Z.to_nat (W F)) (div_round ym) (xm, 0, MBIT (MBITS F + 2));
  let rm := uw F (rm .<< 1) in
  let rm := if truthy xm then rm .| 1 else rm in
  '(rm, re) ← normalise F (MBITS F + 3) rm re;
  Some (NORMRET F c (negb (bool_decide (vs kx = vs ky))) re rm).
Definition fdiv (c : csr) (x y : fl) : option (fl * csr) :=
  let kx := EXPLODE F x in let ky := EXPLODE F y in
  let c := CLEARCX c in
  let '(c, x, kx) := FLUSH F c x kx in
  let '(c, y, ky) := FLUSH F c y ky in
  match vc kx, vc ky with
  | SNAN, _ | _, SNAN => Some (nanxcpt F (SETCX c INVALID_OPERATION) (findef F))
  | (ZERO | NORM | DNORM | INF), QNAN => Some (y, c)
  | QNAN, _ => Some (x, c)
  | INF, INF => Some (xcpt (SETCX c INVALID_OPERATION) (findef F))
  | (NORM | ZERO | DNORM), INF => Some (fzero F (xorb (vs kx) (vs ky)), c)
  | INF, (ZERO | NORM | DNORM) => Some (finf F (xorb (vs kx) (vs ky)), c)
  | ZERO, ZERO => Some (xcpt (SETCX c INVALID_OPERATION) (findef F))
  | (NORM | DNORM), ZERO => Some (xcpt (SETCX c ZERO_DIVIDE) (finf F (xorb (vs kx) (vs ky))))
  | ZERO, (NORM | DNORM) => Some (fzero F (negb (bool_decide (vs kx = vs ky))), c)
  | DNORM, DNORM => kx ← DNORM_ kx; ky ← DNORM_ ky; div_finite c kx ky
  | NORM, DNORM => ky ← DNORM_ ky; div_finite c kx ky
  | DNORM, NORM => kx ← DNORM_ kx; div_finite c kx ky
  | NORM, NORM => div_finite c kx ky
  end.
End code.

Definition ieee754sp_add := fadd SP.
Definition ieee754dp_add := fadd DP.
Definition ieee754sp_sub := fsub SP.
Definition ieee754dp_sub := fsub DP.
Definition ieee754sp_mul := fmul SP.
Definition ieee754dp_mul := fmul DP.
Definition ieee754sp_div := fdiv SP.
Definition ieee754dp_div := fdiv DP.

Section operands.
Context (F : format) `{!Format F}.
Abbreviation p := (MBITS F).

Lemma uw_small x : 0 ≤ x < 2 ^ W F → uw F x = x.
Proof. apply Z.mod_small. Qed.
Lemma shiftl3 x : 0 ≤ x < 2 ^ (p + 1) → uw F (x .<< 3) = 8 * x.
Proof.
  intros Hx. rewrite Z.shiftl_mul_pow2 by lia. pose proof f_mbits. pose proof f_width. pose proof (pow_p F 1 ltac:(lia)).
  assert (2 ^ (p + 8) ≤ 2 ^ W F) by (apply Z.pow_le_mono_r; lia). pose proof (pow_p F 8 ltac:(lia)). rewrite uw_small; lia.
Qed.
Lemma normalise_n k n : 0 ≤ k < W F → ∀ fuel m e, (n < fuel)%nat → 0 < m → 2 ^ k ≤ m * 2 ^ Z.of_nat n < 2 ^ (k + 1) →
  loop fuel (λ '(m, e), if (m .>> k) =? 0 then inl (uw F (m .<< 1), e - 1) else inr (m, e)) (m, e) = Some (m * 2 ^ Z.of_nat n, e - Z.of_nat n).
Proof.
  intros Hk. assert (2 ^ (k + 1) = 2 * 2 ^ k) as E1 by (rewrite <-Z.pow_succ_r by lia; f_equal; lia).
  assert (2 ^ (k + 1) ≤ 2 ^ W F) as E2 by (apply Z.pow_le_mono_r; lia).
  induction n as [|n IH]; intros [|fuel] m e Hf Hm Hr; try lia; cbn [loop].
  - rewrite Z.mul_1_r in *. rewrite Z.shiftr_div_pow2 by lia. assert (m / 2 ^ k = 1) as -> by (symmetry; apply (Z.div_unique _ _ _ (m - 2 ^ k)); lia).
    cbn. do 2 f_equal. lia.
  - rewrite Nat2Z.inj_succ, Z.pow_succ_r in * by lia. assert (1 ≤ 2 ^ Z.of_nat n) by lia.
    rewrite Z.shiftr_div_pow2, Z.div_small by nia. cbn [Z.eqb]. rewrite Z.shiftl_mul_pow2, uw_small by nia.
    change (2 ^ 1) with 2. rewrite IH; [do 2 f_equal; lia|lia|lia|lia].
Qed.
Lemma normalise_spec k m e : 0 ≤ k < W F → 0 < m < 2 ^ (k + 1) →
  ∃ j, 0 ≤ j ≤ k ∧ normalise F k m e = Some (m * 2 ^ j, e - j) ∧ 2 ^ k ≤ m * 2 ^ j < 2 ^ (k + 1).
Proof.
  intros Hk Hm. pose proof (Z.log2_spec m ltac:(lia)) as Hl. pose proof (Z.log2_nonneg m) as H0.
  assert (Z.log2 m ≤ k) as Hlk by (apply Z.lt_succ_r, Z.log2_lt_pow2; lia). set (j := k - Z.log2 m).
  assert (2 ^ k = 2 ^ Z.log2 m * 2 ^ j) as E by (rewrite <-Z.pow_add_r by (unfold j; lia); f_equal; unfold j; lia).
  rewrite Z.pow_succ_r in Hl by done. assert (2 ^ (k + 1) = 2 * 2 ^ k) as E1 by (rewrite <-Z.pow_succ_r by lia; f_equal; lia).
  assert (0 < 2 ^ j) by (apply Z.pow_pos_nonneg; unfold j; lia). assert (2 ^ k ≤ m * 2 ^ j < 2 ^ (k + 1)) as Hr by nia.
  exists j. split; [unfold j; lia|]. split; [|done]. unfold normalise. rewrite <-(Z2Nat.id j) in Hr |- * by (unfold j; lia).
  apply normalise_n; [done|unfold j; lia|lia|done].
Qed.

(** A finite operand of magnitude [a], normalised. *)
Record opd (a : Z) (k : comp) : Prop := {
  o_mant : 2 ^ p ≤ vm k < 2 ^ (p + 1);
  o_exp : EMIN F - p ≤ ve k ≤ EMAX F;
  o_val h : p ≤ h → vm k * 2 ^ (ve k - EMIN F + h) = a * 2 ^ h }.
Lemma opd_pos a k : opd a k → 0 < a.
Proof.
  intros [Hm He Hv]. specialize (Hv p ltac:(lia)). pose proof f_mbits. assert (0 < 2 ^ p) by lia.
  assert (0 < 2 ^ (ve k - EMIN F + p)) by (apply Z.pow_pos_nonneg; lia). nia.
Qed.
Lemma FLUSH_off c v k : nod c = false → FLUSH F c v k = (c, v, k).
Proof. intros H. unfold FLUSH. by rewrite H, andb_false_r. Qed.

Lemma finite_operand x : wf F x → finite F x = true →
  vs (EXPLODE F x) = sign x ∧
  (vc (EXPLODE F x) = ZERO ∧ ival F x = 0 ∧ x = fzero F (sign x) ∨
   vc (EXPLODE F x) = NORM ∧ opd (ival F x) (EXPLODE F x) ∨
   vc (EXPLODE F x) = DNORM ∧ ∃ k, DNORM_ F (EXPLODE F x) = Some k ∧ vs k = sign x ∧ opd (ival F x) k).
Proof.
  intros Hw Hf. pose proof (finite_spec F x Hw Hf) as Hb. destruct Hw as [Hbe Hm]. pose proof (K_pos F) as HK. pose proof f_mbits as Hp.
  pose proof f_width as HW. destruct (exp_range F) as (E1 & E2 & E3 & E4). pose proof (pow_p F 1 ltac:(lia)) as Ep.
  unfold EXPLODE. unfold finite in Hf. apply negb_true_iff in Hf. rewrite Hf, E1. destruct (Z.eqb_spec (bexp x) 0) as [Hb0|Hb0].
  - destruct (truthy (mant x)) eqn:Ht.
    + apply truthy_spec in Ht. split; [done|]. right; right. split; [done|]. unfold DNORM_. cbn [vm ve vc vs].
      destruct (normalise_spec p (mant x) (EMIN F)) as (j & Hj & -> & Hr); [lia|lia|]. cbn. eexists. split; [done|]. split; [done|]. split; cbn; [lia|lia|].
      intros h Hh. unfold ival. rewrite Hb0. cbn. rewrite <-Z.mul_assoc, <-Z.pow_add_r by lia. f_equal. f_equal. lia.
    + apply truthy_spec0 in Ht. split; [done|]. left. split; [done|]. unfold ival. rewrite Hb0. cbn. split; [done|].
      destruct x as [sn b m]. cbn in *. subst. unfold fzero, spcval, spcvals. rewrite E1. by destruct sn.
  - split; [done|]. right; left. split; [done|].
    assert (mant x .| HIDDEN_BIT F = mant x + 2 ^ p) as Eh by (unfold HIDDEN_BIT, MBIT; rewrite <-(Z.mul_1_l (2 ^ p)); apply lor_add_field; lia).
    split; cbn; rewrite ?Eh; [lia|lia|]. intros h Hh. unfold ival. destruct (Z.eqb_spec (bexp x) 0); [done|].
    rewrite <-Z.mul_assoc, <-Z.pow_add_r by lia. f_equal. f_equal. lia.
Qed.

(** From a mantissa in the right unit to [formattable]. *)
Lemma formattable_intro h e m A B N D :
  0 < D → 0 < B → 0 ≤ h → 0 ≤ e - EMIN F + h → 2 ^ (p + 3) ≤ m < 2 ^ (p + 4) → near4 m A B →
  A * D * 2 ^ (e - EMIN F + h) = 8 * N * B * 2 ^ h → formattable F e m N D.
Proof.
  intros HD HB Hh He Hm Hn E. split; [done|]. split; [done|].
  assert (0 < 2 ^ Z.max 0 (e - EMIN F)) by (apply Z.pow_pos_nonneg; lia).
  eapply near4_ratio; [exact HB|apply Z.mul_pos_pos; lia| |exact Hn]. destruct (decide (0 ≤ e - EMIN F)).
  - rewrite Z.max_r, Z.max_l, Z.pow_0_r by lia. apply (Z.mul_reg_r _ _ (2 ^ h)); [lia|]. rewrite Z.pow_add_r in E by lia. lia.
  - rewrite Z.max_l, Z.max_r, Z.pow_0_r by lia. apply (Z.mul_reg_r _ _ (2 ^ (e - EMIN F + h))); [lia|].
    replace (2 ^ h) with (2 ^ (EMIN F - e) * 2 ^ (e - EMIN F + h)) in E by (rewrite <-Z.pow_add_r by lia; f_equal; lia). lia.
Qed.
Lemma NORMRET_spec c sn e m N D : nod c = false → formattable F e m N D →
  ∃ v X, NORMRET F c sn e m = (v, SETCX c X) ∧ rounded F (rm c) sn N D v ∧ flags F c N D v X.
Proof.
  intros Hc Hf. destruct (format_spec F c sn e m N D Hc Hf) as (v & X & E & Hr). exists v, X. split; [|done].
  unfold NORMRET. rewrite E. unfold xcpt. by destruct (TSTX _).
Qed.
(** A number that needs no rounding. *)
Lemma rounded_exact r v : wf F v → finite F v = true → rounded F r (sign v) (ival F v) 1 v.
Proof.
  intros Hw Hf. split; [done|]. split; [done|]. pose proof (ival_max F v Hw Hf). assert (0 < top_ulp F) by (pose proof (K_pos F); unfold top_ulp; lia).
  rewrite Hf, !Z.mul_1_r. destruct (dir_of r (sign v)); [split; [lia|]|split; [done|]; split; [lia|]|split; [lia|]]; intros w _ _; [|lia..].
  rewrite Z.sub_diag. destruct (decide (ival F w = ival F v)) as [E|E]; [right|left]; lia.
Qed.
Lemma flags_exact c v : wf F v → finite F v = true → flags F c (ival F v) 1 v 0.
Proof.
  intros Hw Hf. pose proof (ival_max F v Hw Hf). assert (0 < top_ulp F) by (pose proof (K_pos F); unfold top_ulp; lia).
  unfold flags. rewrite Hf. cbn. split_and!; lia.
Qed.
End operands.

Section addition.
Context (F : format) `{!Format F}.
Abbreviation p := (MBITS F).
Implicit Types c : csr.

(** What every operation promises: the exact result [N / D] with sign [sn], rounded. *)
Definition correct (c : csr) (r : option (fl * csr)) (sn : bool) (N D : Z) : Prop :=
  ∃ v X, r = Some (v, SETCX c X) ∧ rounded F (rm c) sn N D v ∧ flags F c N D v X.

Lemma add_same c sn e xm ym A B N h :
  nod c = false → 0 < B → 0 ≤ h → 0 ≤ e - EMIN F + h → 2 ^ (p + 3) ≤ xm + ym < 2 ^ (p + 5) - 8 →
  odd_round (xm + ym) A B → A * 2 ^ (e - EMIN F + h) = 8 * N * B * 2 ^ h →
  correct c (add_aligned F c sn e xm sn ym) sn N 1.
Proof.
  intros Hc HB Hh He Hr Ho E. pose proof f_mbits. pose proof f_width.
  pose proof (pow_p F 5 ltac:(lia)) as E5. pose proof (pow_p F 4 ltac:(lia)) as E4. pose proof (pow_p F 3 ltac:(lia)) as E3. pose proof (pow_p F 8 ltac:(lia)) as E8.
  assert (2 ^ (p + 8) ≤ 2 ^ W F) by (apply Z.pow_le_mono_r; lia). assert (0 < 2 ^ p) by lia.
  unfold add_aligned. rewrite bool_decide_true by done. rewrite (uw_small F (xm + ym)) by lia. set (m := xm + ym) in *.
  replace (p + 1 + 3) with (p + 4) by lia. rewrite Z.shiftr_div_pow2 by lia. apply odd_near4 in Ho; [|done]. destruct (decide (m < 2 ^ (p + 4))) as [Hlt|Hge].
  - rewrite Z.div_small by lia. cbn [truthy Z.eqb negb].
    destruct (NORMRET_spec F c sn e m N 1 Hc) as (v & X & -> & Hv); [|by exists v, X].
    apply (formattable_intro F h e m A B); try done; lia.
  - assert (m / 2 ^ (p + 4) = 1) as -> by (symmetry; apply (Z.div_unique _ _ _ (m - 2 ^ (p + 4))); lia). cbn [truthy Z.eqb negb].
    destruct (NORMRET_spec F c sn (e + 1) (srs1 m) N 1 Hc) as (v & X & -> & Hv); [|by exists v, X].
    apply (formattable_intro F h _ _ A (B * 2)); try done; try lia.
    + rewrite srs1_value by lia. change (2 ^ 1) with 2. destruct (_ =? 0); Z.div_mod_to_equations; lia.
    + apply odd_near4; [lia|]. apply srs1_odd; [lia|done|done].
    + replace (e + 1 - EMIN F + h) with (Z.succ (e - EMIN F + h)) by lia. rewrite Z.pow_succ_r by lia. lia.
Qed.

Lemma odd_round_sign o A B : 0 < B → odd_round o A B → (0 < o → 0 < A) ∧ (o < 0 → A < 0) ∧ (o = 0 → A = 0).
Proof. intros HB [H|(Ho & H1 & H2)]; [nia|]. split_and!; intros Hs; [nia|nia|subst o; done]. Qed.
Lemma normalise_round m A B : 0 < B → 0 < m < 2 ^ (p + 4) → odd_round m A B → m * B ≠ A → 2 ^ (p + 2) ≤ m → ∀ j, 0 ≤ j →
  2 ^ (p + 3) ≤ m * 2 ^ j < 2 ^ (p + 4) → near4 (m * 2 ^ j) (A * 2 ^ j) B.
Proof.
  intros HB Hm Ho Hne Hbig j Hj Hr. pose proof f_mbits. pose proof (pow_p F 4 ltac:(lia)) as E4. pose proof (pow_p F 3 ltac:(lia)) as E3. pose proof (pow_p F 2 ltac:(lia)) as E2.
  assert (j = 0 ∨ j = 1) as [->| ->].
  { assert (j < 2); [|lia]. apply Z.nle_gt. intros Hj2. assert (2 ^ 2 ≤ 2 ^ j) by (apply Z.pow_le_mono_r; lia). nia. }
  - rewrite !Z.mul_1_r. by apply odd_near4.
  - change (2 ^ 1) with 2. rewrite !(Z.mul_comm _ 2). by apply odd_double.
Qed.

Lemma normret_normalised c sn e m A B N D h :
  nod c = false → 0 < D → 0 < B → 0 ≤ h - p - 3 → 0 ≤ e - EMIN F + h - p - 3 → 0 < m < 2 ^ (p + 4) →
  odd_round m A B → (m * B ≠ A → 2 ^ (p + 2) ≤ m) → A * D * 2 ^ (e - EMIN F + h) = 8 * N * B * 2 ^ h →
  ∃ m' e', normalise F (p + 3) m e = Some (m', e') ∧ correct c (Some (NORMRET F c sn e' m')) sn N D.
Proof.
  intros Hc HD HB Hh He Hm Ho Hbig E. pose proof f_mbits. pose proof f_width. replace (p + 4) with (p + 3 + 1) in Hm by lia.
  destruct (normalise_spec F (p + 3) m e) as (j & Hj & Hn & Hr); [lia|done|]. exists (m * 2 ^ j), (e - j). split; [done|].
  replace (p + 3 + 1) with (p + 4) in * by lia.
  destruct (NORMRET_spec F c sn (e - j) (m * 2 ^ j) N D Hc) as (v & X & -> & Hv); [|by exists v, X].
  apply (formattable_intro F h _ _ (A * 2 ^ j) B); try done; try lia.
  - destruct (decide (m * B = A)) as [Ex|Nx]; [left; rewrite <-Ex; ring|]. apply normalise_round; auto; lia.
  - rewrite <-E. replace (e - EMIN F + h) with (j + (e - j - EMIN F + h)) by lia. rewrite (Z.pow_add_r 2 j) by lia. ring.
Qed.

Lemma add_diff c xs e xm ys ym A B S h :
  nod c = false → xs ≠ ys → 0 < B → 0 ≤ h - p - 3 → 0 ≤ e - EMIN F + h - p - 3 → 0 ≤ xm < 2 ^ (p + 4) → 0 ≤ ym < 2 ^ (p + 4) →
  odd_round (xm - ym) A B → ((xm - ym) * B ≠ A → 2 ^ (p + 2) ≤ Z.abs (xm - ym)) → A * 2 ^ (e - EMIN F + h) = 8 * S * B * 2 ^ h →
  if S =? 0 then add_aligned F c xs e xm ys ym = Some (fzero F (bool_decide (rm c = RD)), c)
  else correct c (add_aligned F c xs e xm ys ym) (if S <? 0 then ys else xs) (Z.abs S) 1.
Proof.
  intros Hc Hs HB Hh He Hx Hy Ho Hbig E. pose proof f_mbits. pose proof f_width.
  assert (2 ^ (p + 4) ≤ 2 ^ W F) by (apply Z.pow_le_mono_r; lia). destruct (odd_round_sign _ _ _ HB Ho) as (Hp1 & Hp2 & Hp3).
  assert (0 < 2 ^ (e - EMIN F + h) ∧ 0 < 2 ^ h) as [P1 P2] by (split; apply Z.pow_pos_nonneg; lia).
  assert ((0 < A ↔ 0 < S) ∧ (A < 0 ↔ S < 0)) as [HS1 HS2].
  { set (u := 2 ^ (e - EMIN F + h)) in *. set (w := 2 ^ h) in *. assert (0 < 8 * B * w) by nia. assert (A * u = S * (8 * B * w)) as E' by lia. clear E. nia. }
  unfold add_aligned. rewrite bool_decide_false by done. destruct (Z.leb_spec ym xm) as [Hle|Hlt].
  - rewrite uw_small by lia. destruct (Z.eqb_spec (xm - ym) 0) as [E0|E0]; [destruct (Z.eqb_spec S 0); [done|lia]|].
    destruct (Z.eqb_spec S 0); [lia|]. destruct (Z.ltb_spec S 0); [lia|]. rewrite Z.abs_eq by lia.
    destruct (normret_normalised c xs e (xm - ym) A B S 1 h) as (m' & e' & -> & Hcor); auto; lia.
  - rewrite uw_small by lia. destruct (Z.eqb_spec (ym - xm) 0) as [E0|E0]; [lia|].
    destruct (Z.eqb_spec S 0); [lia|]. destruct (Z.ltb_spec S 0); [|lia]. rewrite Z.abs_neq by lia. apply odd_opp in Ho. rewrite Z.opp_sub_distr in Ho.
    destruct (normret_normalised c ys e (ym - xm) (- A) B (- S) 1 h) as (m' & e' & -> & Hcor); auto; try lia.
    by replace (ym - xm) with (- xm + ym) by lia.
Qed.

(** Two mantissas in one unit: that of the larger exponent exact, the other one
    rounded to odd, and small if it is not exact. *)
Definition aligned (h e a b m t : Z) : Prop :=
  ∃ A B, 0 < B ∧ Z.even m = true ∧ 2 ^ (p + 3) ≤ m ≤ 2 ^ (p + 4) - 8 ∧ 0 ≤ t ≤ 2 ^ (p + 4) - 8 ∧
    odd_round t A B ∧ (t * B ≠ A → t ≤ 2 ^ p + 1) ∧
    m * B * 2 ^ (e - EMIN F + h) = 8 * a * B * 2 ^ h ∧ A * 2 ^ (e - EMIN F + h) = 8 * b * B * 2 ^ h.

Lemma srs_eighths y s : 2 ^ p ≤ y < 2 ^ (p + 1) → 1 ≤ s →
  0 ≤ srs F (8 * y) s ≤ 2 ^ (p + 4) - 8 ∧ odd_round (srs F (8 * y) s) (8 * y) (2 ^ s) ∧
  (srs F (8 * y) s * 2 ^ s ≠ 8 * y → srs F (8 * y) s ≤ 2 ^ p + 1).
Proof.
  intros Hy Hs. pose proof f_mbits as Hp. pose proof (pow_p F 4 ltac:(lia)) as E4. pose proof (pow_p F 1 ltac:(lia)) as E1.
  assert (256 ≤ 2 ^ p) by (apply (Z.pow_le_mono_r 2 8); lia).
  pose proof (srs_odd F (8 * y) s (8 * y) 1 ltac:(lia) Hs ltac:(lia) ltac:(left; lia)) as Ho. rewrite Z.mul_1_l in Ho.
  assert (0 ≤ srs F (8 * y) s ≤ 8 * y / 2 ^ s + 1) as Hb.
  { destruct (decide (s ≤ p + 3)) as [Hle|Hgt].
    - rewrite (srs_value F (8 * y) s); [|lia|lia]. assert (0 ≤ 8 * y / 2 ^ s) by (apply Z.div_pos; lia). destruct (_ =? 0); Z.div_mod_to_equations; lia.
    - unfold srs. destruct (Z.ltb_spec (p + 3) s); [|lia]. assert (0 ≤ 8 * y / 2 ^ s) by (apply Z.div_pos; lia). lia. }
  assert (2 ^ 1 ≤ 2 ^ s) by (apply Z.pow_le_mono_r; lia). assert (8 * y / 2 ^ s ≤ 8 * y / 2 ^ 1) by (apply Z.div_le_compat_l; lia).
  assert (8 * y / 2 ^ 1 = 4 * y) by (change (2 ^ 1) with 2; clear; Z.div_mod_to_equations; lia).
  split; [lia|]. split; [done|]. intros Hne. destruct (decide (s ≤ 3)) as [H3|H3].
  - exfalso. apply Hne. rewrite (srs_value F (8 * y) s); [|lia|lia]. assert (8 * y = y * 2 ^ (3 - s) * 2 ^ s) as E8.
    { rewrite <-Z.mul_assoc, <-Z.pow_add_r by lia. replace (3 - s + s) with 3 by lia. lia. }
    rewrite E8, Z.mod_mul, Z.div_mul by lia. done.
  - assert (2 ^ 4 ≤ 2 ^ s) by (apply Z.pow_le_mono_r; lia). assert (8 * y / 2 ^ s ≤ 8 * y / 2 ^ 4) by (apply Z.div_le_compat_l; lia).
    assert (8 * y / 2 ^ 4 < 2 ^ p) by (apply Z.div_lt_upper_bound; lia). lia.
Qed.
Lemma even_8 x : Z.even (8 * x) = true.
Proof. by rewrite Z.even_mul. Qed.
Lemma align_lt h a b k1 k2 : opd F a k1 → opd F b k2 → ve k2 < ve k1 → 2 * p ≤ h →
  aligned h (ve k1) a b (8 * vm k1) (srs F (8 * vm k2) (ve k1 - ve k2)).
Proof.
  intros [Hm1 He1 Hv1] [Hm2 He2 Hv2] Hlt Hh. set (s := ve k1 - ve k2). pose proof f_mbits as Hp.
  pose proof (pow_p F 4 ltac:(lia)) as E4. pose proof (pow_p F 1 ltac:(lia)) as E1. pose proof (pow_p F 3 ltac:(lia)) as E3.
  destruct (srs_eighths (vm k2) s Hm2 ltac:(unfold s; lia)) as (Hr & Ho & Hs). specialize (Hv1 h ltac:(lia)). specialize (Hv2 h ltac:(lia)).
  exists (8 * vm k2), (2 ^ s). split_and!; try done; try lia.
  - apply even_8.
  - replace (8 * vm k1 * 2 ^ s * 2 ^ (ve k1 - EMIN F + h)) with (8 * (vm k1 * 2 ^ (ve k1 - EMIN F + h)) * 2 ^ s) by ring. rewrite Hv1. ring.
  - replace (ve k1 - EMIN F + h) with (s + (ve k2 - EMIN F + h)) by (unfold s; lia). rewrite Z.pow_add_r by (unfold s; lia).
    replace (8 * vm k2 * (2 ^ s * 2 ^ (ve k2 - EMIN F + h))) with (8 * (vm k2 * 2 ^ (ve k2 - EMIN F + h)) * 2 ^ s) by ring. rewrite Hv2. ring.
Qed.
Lemma align_eq h a b k1 k2 : opd F a k1 → opd F b k2 → ve k2 = ve k1 → 2 * p ≤ h → aligned h (ve k1) a b (8 * vm k1) (8 * vm k2).
Proof.
  intros [Hm1 He1 Hv1] [Hm2 He2 Hv2] Heq Hh. pose proof f_mbits as Hp.
  pose proof (pow_p F 4 ltac:(lia)) as E4. pose proof (pow_p F 1 ltac:(lia)) as E1. pose proof (pow_p F 3 ltac:(lia)) as E3.
  specialize (Hv1 h ltac:(lia)). specialize (Hv2 h ltac:(lia)). rewrite Heq in Hv2.
  exists (8 * vm k2), 1. split_and!; try done; try lia; [apply even_8|left; lia].
Qed.

Lemma aligned_sum c h e a b m t sn : nod c = false → aligned h e a b m t → 0 ≤ h → 0 ≤ e - EMIN F + h →
  correct c (add_aligned F c sn e m sn t) sn (a + b) 1 ∧ correct c (add_aligned F c sn e t sn m) sn (a + b) 1.
Proof.
  intros Hc (A & B & HB & Hev & Hm & Ht & Ho & _ & E1 & E2) Hh He. apply (odd_add m) in Ho; [|done].
  pose proof f_mbits. pose proof (pow_p F 4 ltac:(lia)). pose proof (pow_p F 5 ltac:(lia)).
  split; apply (add_same c sn e _ _ (m * B + A) B _ h); rewrite ?(Z.add_comm t m); try done; lia.
Qed.
Lemma aligned_diff c h e a b m t xs ys : nod c = false → xs ≠ ys → aligned h e a b m t → 0 ≤ h - p - 3 → 0 ≤ e - EMIN F + h - p - 3 →
  (if a - b =? 0 then add_aligned F c xs e m ys t = Some (fzero F (bool_decide (rm c = RD)), c)
   else correct c (add_aligned F c xs e m ys t) (if a - b <? 0 then ys else xs) (Z.abs (a - b)) 1) ∧
  (if b - a =? 0 then add_aligned F c xs e t ys m = Some (fzero F (bool_decide (rm c = RD)), c)
   else correct c (add_aligned F c xs e t ys m) (if b - a <? 0 then ys else xs) (Z.abs (b - a)) 1).
Proof.
  intros Hc Hs (A & B & HB & Hev & Hm & Ht & Ho & Hsm & E1 & E2) Hh He. pose proof f_mbits.
  pose proof (pow_p F 4 ltac:(lia)) as P4. pose proof (pow_p F 3 ltac:(lia)) as P3. pose proof (pow_p F 2 ltac:(lia)) as P2. assert (256 ≤ 2 ^ p) by (apply (Z.pow_le_mono_r 2 8); lia).
  pose proof (odd_add m _ _ _ Hev (odd_opp _ _ _ Ho)) as Hd. split.
  - apply (add_diff c xs e m ys t (m * B + - A) B (a - b) h); try done; lia.
  - apply odd_opp in Hd. apply (add_diff c xs e t ys m (- (m * B + - A)) B (b - a) h); try done; try lia.
    by replace (t - m) with (- (m + - t)) by lia.
Qed.

Definition signed (sn : bool) (a : Z) : Z := if sn then - a else a.
Lemma add_finite_spec c kx ky a b : nod c = false → opd F a kx → opd F b ky →
  let S := signed (vs kx) a + signed (vs ky) b in
  if S =? 0 then add_finite F c kx ky = Some (fzero F (bool_decide (rm c = RD)), c)
  else correct c (add_finite F c kx ky) (S <? 0) (Z.abs S) 1.
Proof.
  intros Hc Hx Hy S. pose proof f_mbits as Hp. pose proof (opd_pos F _ _ Hx) as Ha. pose proof (opd_pos F _ _ Hy) as Hb. set (h := 3 * p + 3).
  pose proof (o_exp _ _ _ Hx) as Hex. pose proof (o_exp _ _ _ Hy) as Hey. pose proof (o_mant _ _ _ Hx) as Hmx. pose proof (o_mant _ _ _ Hy) as Hmy.
  unfold add_finite. rewrite !shiftl3 by (done || lia).
  assert (∃ e m t a' b' (fl : bool), aligned h e a' b' m t ∧ EMIN F - p ≤ e ∧
    (if ve ky <? ve kx then (ve kx, 8 * vm kx, srs F (8 * vm ky) (ve kx - ve ky))
     else if ve kx <? ve ky then (ve kx + (ve ky - ve kx), srs F (8 * vm kx) (ve ky - ve kx), 8 * vm ky)
     else (ve kx, 8 * vm kx, 8 * vm ky)) = (if fl then (e, t, m) else (e, m, t)) ∧
    a' = (if fl then b else a) ∧ b' = (if fl then a else b)) as (e & m & t & a' & b' & fl & Hal & He & Hres & -> & ->).
  { destruct (Z.ltb_spec (ve ky) (ve kx)); [|destruct (Z.ltb_spec (ve kx) (ve ky))].
    - eexists _, _, _, _, _, false. split; [by apply align_lt; [exact Hx|exact Hy|lia|unfold h; lia]|]. split_and!; [lia|done..].
    - replace (ve kx + (ve ky - ve kx)) with (ve ky) by lia.
      eexists _, _, _, _, _, true. split; [by apply align_lt; [exact Hy|exact Hx|lia|unfold h; lia]|]. split_and!; [lia|done..].
    - eexists _, _, _, _, _, false. split; [by apply align_eq; [exact Hx|exact Hy|lia|unfold h; lia]|]. split_and!; [lia|done..]. }
  rewrite Hres. clear Hres. destruct (decide (vs kx = vs ky)) as [Es|Es].
  - rewrite <-Es. assert (Z.abs S = a + b ∧ (S <? 0) = vs kx ∧ S ≠ 0) as (-> & -> & HS).
    { unfold S, signed. rewrite <-?Es. destruct (vs kx); split_and!; zbool; done || lia. }
    destruct (Z.eqb_spec S 0); [done|]. destruct (aligned_sum c h e _ _ m t (vs kx) Hc Hal) as [H1 H2]; [unfold h; lia..|].
    destruct fl; [rewrite Z.add_comm|]; done.
  - destruct (aligned_diff c h e _ _ m t (vs kx) (vs ky) Hc Es Hal) as [H1 H2]; [unfold h; lia..|].
    assert ((S =? 0) = (a - b =? 0) ∧ Z.abs S = Z.abs (a - b) ∧ (S <? 0) = if a - b <? 0 then vs ky else if a - b =? 0 then false else vs kx) as (-> & -> & ->).
    { unfold S, signed. destruct (vs kx), (vs ky); try done; split_and!; zbool; done || lia. }
    destruct fl.
    + destruct (Z.eqb_spec (a - b) 0); done.
    + destruct (Z.eqb_spec (a - b) 0); done.
Qed.

Lemma val_signed x : val F x = signed (sign x) (ival F x).
Proof. done. Qed.
(** An operation that returns a finite number as it is. *)
Lemma correct_exact c v : wf F v → finite F v = true → correct c (Some (v, c)) (sign v) (ival F v) 1.
Proof. intros Hw Hf. exists v, 0. rewrite SETCX_0. split; [done|]. split; [by apply rounded_exact|by apply flags_exact]. Qed.
Lemma signed_facts sn a : 0 < a → signed sn a ≠ 0 ∧ Z.abs (signed sn a) = a ∧ (signed sn a <? 0) = sn.
Proof. intros Ha. unfold signed. destruct sn; split_and!; zbool; done || lia. Qed.

(** The result of an addition whose exact value is [S]. *)
Definition sum_spec (c : csr) (r : option (fl * csr)) (S : Z) (zero_sign : bool) : Prop :=
  if S =? 0 then r = Some (fzero F zero_sign, c) else correct c r (S <? 0) (Z.abs S) 1.
Lemma sum_spec_exact c v S z : wf F v → finite F v = true → 0 < ival F v → S = val F v → sum_spec c (Some (v, c)) S z.
Proof.
  intros Hw Hf Hi ->. rewrite val_signed. destruct (signed_facts (sign v) (ival F v) Hi) as (H0 & Ha & Hs). unfold sum_spec.
  destruct (Z.eqb_spec (signed (sign v) (ival F v)) 0); [done|]. rewrite Ha, Hs. by apply correct_exact.
Qed.
Lemma sum_spec_finite c kx ky x y (sy : bool) : nod c = false → opd F (ival F x) kx → opd F (ival F y) ky → vs kx = sign x → vs ky = sy →
  sum_spec c (add_finite F c kx ky) (val F x + signed sy (ival F y)) (if bool_decide (sign x = sy) then sign x else bool_decide (rm c = RD)).
Proof.
  intros Hc Hx Hy Ex Ey. pose proof (add_finite_spec c kx ky _ _ Hc Hx Hy) as Ha. rewrite Ex, Ey, <-val_signed in Ha. unfold sum_spec. cbn zeta in Ha.
  destruct (Z.eqb_spec (val F x + signed sy (ival F y)) 0) as [E0|]; [|done]. rewrite Ha. rewrite (bool_decide_false (sign x = sy)); [done|].
  intros <-. pose proof (opd_pos F _ _ Hx). pose proof (opd_pos F _ _ Hy). unfold val, signed in E0. destruct (sign x); lia.
Qed.

Theorem fadd_correct c x y :
  nod c = false → wf F x → wf F y → finite F x = true → finite F y = true →
  sum_spec (CLEARCX c) (fadd F c x y) (val F x + val F y) (if bool_decide (sign x = sign y) then sign x else bool_decide (rm c = RD)).
Proof.
  intros Hc Hwx Hwy Hfx Hfy. destruct (finite_operand F x Hwx Hfx) as [Esx Hx]. destruct (finite_operand F y Hwy Hfy) as [Esy Hy].
  change (rm c) with (rm (CLEARCX c)). unfold fadd. rewrite !FLUSH_off by done. cbn beta iota.
  destruct Hx as [(-> & Hx0 & Ex)|[(-> & Hx)|(-> & kx & Hkx & Hsx & Hx)]], Hy as [(-> & Hy0 & Ey)|[(-> & Hy)|(-> & ky & Hky & Hsy & Hy)]];
    try (pose proof (opd_pos F _ _ Hx)); try (pose proof (opd_pos F _ _ Hy)); rewrite ?Esx, ?Esy, ?Hkx, ?Hky; cbn [mbind option_bind].
  - unfold sum_spec, val. rewrite Hx0, Hy0. destruct (sign x) eqn:Es, (sign y); cbn; rewrite ?Ex; by rewrite ?Es.
  - apply sum_spec_exact; [done..|]. unfold val. rewrite Hx0. destruct (sign x); lia.
  - apply sum_spec_exact; [done..|]. unfold val. rewrite Hx0. destruct (sign x); lia.
  - apply sum_spec_exact; [done..|]. unfold val. rewrite Hy0. destruct (sign y); lia.
  - rewrite (val_signed y). by apply sum_spec_finite.
  - rewrite (val_signed y). by apply sum_spec_finite.
  - apply sum_spec_exact; [done..|]. unfold val. rewrite Hy0. destruct (sign y); lia.
  - rewrite (val_signed y). by apply sum_spec_finite.
  - rewrite (val_signed y). by apply sum_spec_finite.
Qed.

Definition neg (x : fl) : fl := {| sign := negb (sign x); bexp := bexp x; mant := mant x |}.
Lemma opd_flip a k : opd F a k → opd F a (flip k).
Proof. intros [? ? ?]. by split. Qed.
Theorem fsub_correct c x y :
  nod c = false → wf F x → wf F y → finite F x = true → finite F y = true →
  sum_spec (CLEARCX c) (fsub F c x y) (val F x - val F y) (if bool_decide (sign x ≠ sign y) then sign x else bool_decide (rm c = RD)).
Proof.
  intros Hc Hwx Hwy Hfx Hfy. destruct (finite_operand F x Hwx Hfx) as [Esx Hx]. destruct (finite_operand F y Hwy Hfy) as [Esy Hy].
  assert (val F x - val F y = val F x + signed (negb (sign y)) (ival F y)) as -> by (unfold val, signed; destruct (sign y); cbn; lia).
  assert ((if bool_decide (sign x ≠ sign y) then sign x else bool_decide (rm c = RD)) =
          (if bool_decide (sign x = negb (sign y)) then sign x else bool_decide (rm (CLEARCX c) = RD))) as -> by (by destruct (sign x), (sign y)).
  unfold fsub. rewrite !FLUSH_off by done. cbn beta iota. change {| sign := negb (sign y); bexp := bexp y; mant := mant y |} with (neg y).
  destruct Hx as [(-> & Hx0 & Ex)|[(-> & Hx)|(-> & kx & Hkx & Hsx & Hx)]], Hy as [(-> & Hy0 & Ey)|[(-> & Hy)|(-> & ky & Hky & Hsy & Hy)]];
    try (pose proof (opd_pos F _ _ Hx)); try (pose proof (opd_pos F _ _ Hy)); rewrite ?Esx, ?Esy, ?Hkx, ?Hky; cbn [mbind option_bind].
  - unfold sum_spec, val, signed. rewrite Hx0, Hy0. destruct (sign x) eqn:Es, (sign y); cbn; rewrite ?Ex; by rewrite ?Es.
  - apply sum_spec_exact; [done..|]. change (val F (neg y)) with (signed (negb (sign y)) (ival F y)). unfold val. rewrite Hx0. destruct (sign x); lia.
  - apply sum_spec_exact; [done..|]. change (val F (neg y)) with (signed (negb (sign y)) (ival F y)). unfold val. rewrite Hx0. destruct (sign x); lia.
  - apply sum_spec_exact; [done..|]. unfold signed. rewrite Hy0. destruct (negb (sign y)); lia.
  - apply sum_spec_finite; [done|done|by apply opd_flip|done|cbn; by rewrite Esy].
  - apply sum_spec_finite; [done|done|by apply opd_flip|done|cbn; by rewrite Hsy].
  - apply sum_spec_exact; [done..|]. unfold signed. rewrite Hy0. destruct (negb (sign y)); lia.
  - apply sum_spec_finite; [done|done|by apply opd_flip|done|cbn; by rewrite Esy].
  - apply sum_spec_finite; [done|done|by apply opd_flip|done|cbn; by rewrite Hsy].
Qed.
End addition.

Section multiplication.
Context (F : format) `{!Format F}.
Abbreviation p := (MBITS F).

(** Adding [t] at the middle of a double word. *)
Lemma mul_cross_spec hi lo t : 0 ≤ lo < 2 ^ W F → 0 ≤ t < 2 ^ W F → 0 ≤ hi →
  hi * 2 ^ W F + lo + t * 2 ^ (W F / 2) < 2 ^ W F * 2 ^ W F →
  let '(hi', lo') := mul_cross F hi lo t in
  hi' * 2 ^ W F + lo' = hi * 2 ^ W F + lo + t * 2 ^ (W F / 2) ∧ 0 ≤ lo' < 2 ^ W F ∧ 0 ≤ hi'.
Proof.
  intros Hlo Ht Hhi Hs. destruct f_half as (H & HH & EW). unfold mul_cross, uw. rewrite EW in *. replace (2 * H / 2) with H in * by (rewrite Z.mul_comm, Z.div_mul; lia).
  assert (2 ^ (2 * H) = 2 ^ H * 2 ^ H) as E2 by (rewrite <-Z.pow_add_r by lia; f_equal; lia). rewrite E2 in *.
  rewrite Z.shiftl_mul_pow2, Z.shiftr_div_pow2 by lia. assert (0 < 2 ^ H) as HP by lia. set (Q := 2 ^ H) in *.
  rewrite Z.mul_mod_distr_r by lia. pose proof (Z.div_mod t Q ltac:(lia)) as Et. pose proof (Z.mod_pos_bound t Q HP) as Hm.
  set (th := t / Q) in *. set (tl := t `mod` Q) in *. assert (0 ≤ th < Q) as Hth by nia. clearbody th tl. subst t.
  set (R := Q * Q) in *. assert (tl * Q ≤ R - Q) as Htl by nia. assert ((Q * th + tl) * Q = th * R + tl * Q) as E3 by (unfold R; ring). rewrite E3 in *.
  assert (hi + th + 1 ≤ R ∨ lo + tl * Q < R ∧ hi + th < R) as Hfit by nia.
  destruct (decide (lo + tl * Q < R)) as [Hc|Hc].
  - rewrite (Z.mod_small (lo + tl * Q)) by nia. destruct (Z.ltb_spec (lo + tl * Q) lo); [nia|]. cbn. rewrite Z.add_0_r, (Z.mod_small hi) by nia. rewrite Z.mod_small by nia. nia.
  - assert ((lo + tl * Q) `mod` R = lo + tl * Q - R) as -> by (symmetry; apply (Z.mod_unique _ _ 1); lia).
    destruct (Z.ltb_spec (lo + tl * Q - R) lo); [|nia]. cbn. rewrite (Z.mod_small (hi + 1)) by nia. rewrite Z.mod_small by nia. nia.
Qed.
(** The high word of the product, rounded to odd. *)
Lemma mul_high_spec x y : 0 ≤ x < 2 ^ W F → 0 ≤ y < 2 ^ W F →
  mul_high F x y = if (x * y) `mod` 2 ^ W F =? 0 then x * y / 2 ^ W F else 2 * (x * y / 2 ^ W F / 2) + 1.
Proof.
  intros Hx Hy. unfold mul_high. destruct f_half as (H & HH & EW). assert (W F / 2 = H) as Eh by (rewrite EW, Z.mul_comm, Z.div_mul; lia). rewrite Eh.
  assert (2 ^ W F = 2 ^ H * 2 ^ H) as E2 by (rewrite EW, <-Z.pow_add_r by lia; f_equal; lia). rewrite !Z.shiftr_div_pow2 by lia.
  assert (0 < 2 ^ H) as HP by lia. pose proof (Z.div_mod x (2 ^ H) ltac:(lia)) as Ex. pose proof (Z.div_mod y (2 ^ H) ltac:(lia)) as Ey.
  pose proof (Z.mod_pos_bound x _ HP) as Hx0. pose proof (Z.mod_pos_bound y _ HP) as Hy0. set (xl := x `mod` _) in *. set (yl := y `mod` _) in *.
  set (xh := x / _) in *. set (yh := y / _) in *. assert (0 ≤ xh < 2 ^ H) as Hxh by nia. assert (0 ≤ yh < 2 ^ H) as Hyh by nia. clearbody xl yl xh yh.
  assert (∀ a b, 0 ≤ a < 2 ^ H → 0 ≤ b < 2 ^ H → 0 ≤ a * b < 2 ^ W F) as Hmul by (intros; rewrite E2; nia).
  rewrite !(uw_small F) by (apply Hmul; done).
  assert (x * y = xh * yh * 2 ^ W F + xl * yl + xl * yh * 2 ^ H + xh * yl * 2 ^ H) as Exy by (rewrite Ex, Ey, E2; ring).
  assert (x * y < 2 ^ W F * 2 ^ W F) as Hxy by (apply Z.mul_lt_mono_nonneg; lia).
  pose proof (Hmul _ _ Hxh Hyh) as M1. pose proof (Hmul _ _ Hx0 Hyh) as M2. pose proof (Hmul _ _ Hxh Hy0) as M3. pose proof (Hmul _ _ Hx0 Hy0) as M4.
  assert (0 ≤ xl * yh * 2 ^ H) as N1 by (apply Z.mul_nonneg_nonneg; lia). assert (0 ≤ xh * yl * 2 ^ H) as N2 by (apply Z.mul_nonneg_nonneg; lia).
  pose proof (mul_cross_spec (xh * yh) (xl * yl) (xl * yh) M4 M2 (proj1 M1)) as C1. rewrite Eh in C1. specialize (C1 ltac:(lia)).
  destruct (mul_cross F (xh * yh) (xl * yl) (xl * yh)) as [h1 l1]. destruct C1 as (C1 & Hl1 & Hh1).
  pose proof (mul_cross_spec h1 l1 (xh * yl) Hl1 M3 Hh1) as C2. rewrite Eh in C2. specialize (C2 ltac:(lia)).
  destruct (mul_cross F h1 l1 (xh * yl)) as [h2 l2]. destruct C2 as (C2 & Hl2 & Hh2).
  assert (x * y = 2 ^ W F * h2 + l2) as E by lia. rewrite lor_b2z.
  rewrite <-(Z.mod_unique (x * y) (2 ^ W F) h2 l2), <-(Z.div_unique (x * y) (2 ^ W F) h2 l2) by (done || (left; lia)).
  unfold truthy. by destruct (l2 =? 0).
Qed.

(** A sticky shift within the word. *)
Lemma sticky_shift v s : 0 ≤ v → 0 < s < W F →
  (v .>> s) .| Z.b2z (truthy (uw F (v .<< (W F - s)))) = if v `mod` 2 ^ s =? 0 then v / 2 ^ s else 2 * (v / 2 ^ s / 2) + 1.
Proof.
  intros Hv Hs. rewrite lor_b2z, Z.shiftr_div_pow2 by lia. unfold uw. rewrite Z.shiftl_mul_pow2 by lia.
  replace (2 ^ W F) with (2 ^ s * 2 ^ (W F - s)) by (rewrite <-Z.pow_add_r by lia; f_equal; lia).
  rewrite Z.mul_mod_distr_r by lia. assert (0 < 2 ^ (W F - s)) by lia.
  unfold truthy. destruct (Z.eqb_spec (v `mod` 2 ^ s) 0) as [->|Hne]; [done|].
  destruct (Z.eqb_spec (v `mod` 2 ^ s * 2 ^ (W F - s)) 0); [nia|done].
Qed.
Lemma sticky_range v s k : 0 ≤ v → 0 < s → 0 < k → 2 ^ (k + s) ≤ v < 2 ^ (k + s + 1) →
  2 ^ k ≤ (if v `mod` 2 ^ s =? 0 then v / 2 ^ s else 2 * (v / 2 ^ s / 2) + 1) < 2 ^ (k + 1).
Proof.
  intros Hv Hs Hk Hr. replace (k + s + 1) with (k + 1 + s) in Hr by lia. rewrite !Z.pow_add_r in Hr by lia. rewrite Z.pow_add_r by lia.
  assert (2 ^ k ≤ v / 2 ^ s < 2 ^ k * 2 ^ 1) as Hd by (split; [apply Z.div_le_lower_bound|apply Z.div_lt_upper_bound]; lia).
  replace k with (Z.succ (k - 1)) in Hd |- * by lia. rewrite Z.pow_succ_r in * by lia. destruct (_ =? 0); [lia|]. Z.div_mod_to_equations. lia.
Qed.

Definition prod_den : Z := 2 ^ (p - EMIN F).
Lemma mul_finite_spec c kx ky a b : nod c = false → opd F a kx → opd F b ky →
  correct F c (Some (mul_finite F c kx ky)) (xorb (vs kx) (vs ky)) (a * b) prod_den.
Proof.
  intros Hc [Hmx Hex Hvx] [Hmy Hey Hvy]. pose proof f_mbits as Hp. pose proof f_width as HW. pose proof (K_pos F) as HK. pose proof f_emin as HE. pose proof f_emax as HM.
  unfold mul_finite. set (u := W F - (p + 1)). assert (2 ^ W F = 2 ^ (p + 1) * 2 ^ u) as EW by (rewrite <-Z.pow_add_r by (unfold u; lia); f_equal; unfold u; lia).
  assert (0 < 2 ^ u) as Hu by (apply Z.pow_pos_nonneg; unfold u; lia). pose proof (pow_p F 1 ltac:(lia)) as P1.
  rewrite (Z.shiftl_mul_pow2 (vm kx)), (Z.shiftl_mul_pow2 (vm ky)) by (unfold u; lia). rewrite (uw_small F (vm kx * 2 ^ u)), (uw_small F (vm ky * 2 ^ u)) by nia.
  set (x := vm kx * 2 ^ u). set (y := vm ky * 2 ^ u). assert (0 ≤ x < 2 ^ W F ∧ 0 ≤ y < 2 ^ W F) as [Hx Hy] by (unfold x, y; nia).
  rewrite mul_high_spec by done. set (r := if _ =? 0 then _ else _).
  assert (2 ^ W F * 2 ^ (W F - 2) ≤ x * y < 2 ^ W F * 2 ^ W F) as Hxy.
  { assert (2 ^ W F = 2 * (2 ^ p * 2 ^ u)) as E1 by (rewrite EW, P1; ring). assert (2 ^ W F = 4 * 2 ^ (W F - 2)) as E2 by (change 4 with (2 ^ 2); rewrite <-Z.pow_add_r by lia; f_equal; lia).
    assert (2 ^ p * 2 ^ u ≤ x ∧ 2 ^ p * 2 ^ u ≤ y) as [L1 L2] by (unfold x, y; split; apply Z.mul_le_mono_nonneg_r; lia). split; [nia|apply Z.mul_lt_mono_nonneg; lia]. }
  assert (odd_round r (x * y) (2 ^ W F)) as Hr.
  { unfold r. rewrite <-(Z.mul_1_l (2 ^ W F)) at 4. apply shift_odd; [lia|lia|apply pow2_mod4; lia|left; lia]. }
  assert (2 ^ (W F - 2) ≤ r < 2 ^ W F) as Hrr.
  { unfold r. assert (2 ^ (W F - 2) ≤ x * y / 2 ^ W F < 2 ^ W F) as Hd by (split; [apply Z.div_le_lower_bound|apply Z.div_lt_upper_bound]; lia).
    assert (2 ^ W F = 2 * (2 * 2 ^ (W F - 2))) as E2 by (rewrite <-!Z.pow_succ_r by lia; f_equal; lia).
    replace (2 ^ (W F - 2)) with (2 * 2 ^ (W F - 3)) in * by (rewrite <-Z.pow_succ_r by lia; f_equal; lia).
    destruct (_ =? 0); [lia|]. revert Hd. generalize (x * y / 2 ^ W F). intros z Hd. clear -Hd E2. Z.div_mod_to_equations. lia. }
  apply odd_near4 in Hr; [|lia]. set (h1 := 2 * p - EMIN F + 8). specialize (Hvx h1 ltac:(unfold h1; lia)). specialize (Hvy h1 ltac:(unfold h1; lia)).
  assert (∀ e s, 0 < s < W F → e + W F - p - 5 = ve kx + ve ky + s → ve kx + ve ky ≤ e → 2 ^ (p + 3 + s) ≤ r < 2 ^ (p + 3 + s + 1) →
    correct F c (Some (NORMRET F c (xorb (vs kx) (vs ky)) e ((r .>> s) .| Z.b2z (truthy (uw F (r .<< (W F - s))))))) (xorb (vs kx) (vs ky)) (a * b) prod_den) as Hfin.
  { intros e s Hs He Hel Hrs. rewrite sticky_shift by lia.
    edestruct (NORMRET_spec F c (xorb (vs kx) (vs ky)) e) as (v & X & -> & Hv); [done| |by exists v, X].
    apply (formattable_intro F (2 * h1) _ _ (x * y) (2 ^ W F * 2 ^ s)); [unfold prod_den; lia|lia|unfold h1; lia|unfold h1; lia| | |].
    - replace (p + 4) with (p + 3 + 1) by lia. apply sticky_range; lia.
    - apply odd_near4; [lia|]. apply shift_odd; [lia|lia|apply pow2_mod4; lia|done].
    - unfold x, y, prod_den.
      assert (vm kx * vm ky * 2 ^ (ve kx - EMIN F + h1 + (ve ky - EMIN F + h1)) = a * b * 2 ^ (2 * h1)) as E.
      { rewrite Z.pow_add_r by (unfold h1; lia). replace (2 * h1) with (h1 + h1) by lia. rewrite (Z.pow_add_r 2 h1 h1) by (unfold h1; lia).
        transitivity ((vm kx * 2 ^ (ve kx - EMIN F + h1)) * (vm ky * 2 ^ (ve ky - EMIN F + h1))); [ring|]. rewrite Hvx, Hvy. ring. }
      assert (2 ^ u * 2 ^ u * 2 ^ (p - EMIN F) * 2 ^ (e - EMIN F + 2 * h1) = 2 ^ (ve kx - EMIN F + h1 + (ve ky - EMIN F + h1)) * (2 ^ 3 * 2 ^ W F * 2 ^ s)) as Epow.
      { clear -Hs Hp HW Hex Hey He Hel HK HE HM. rewrite <-!Z.pow_add_r by (unfold u, h1; lia). f_equal. unfold u. lia. }
      transitivity (vm kx * vm ky * (2 ^ u * 2 ^ u * 2 ^ (p - EMIN F) * 2 ^ (e - EMIN F + 2 * h1))); [ring|]. rewrite Epow, Z.mul_assoc, E. ring. }
  replace (2 ^ W F) with (2 ^ (W F - 1 + 1)) in Hrr by (f_equal; lia). rewrite testbit_top by lia. destruct (Z.leb_spec (2 ^ (W F - 1)) r) as [Hge|Hlt].
  - replace (p + 1 + 3) with (W F - (W F - (p + 1 + 3))) at 2 by lia. apply Hfin; [lia|lia|lia|].
    replace (p + 3 + (W F - (p + 1 + 3))) with (W F - 1) by lia. lia.
  - replace (p + 1 + 3 + 1) with (W F - (W F - (p + 1 + 3 + 1))) at 2 by lia. apply Hfin; [lia|lia|lia|].
    replace (p + 3 + (W F - (p + 1 + 3 + 1))) with (W F - 2) by lia. replace (W F - 2 + 1) with (W F - 1) by lia. lia.
Qed.

Theorem fmul_correct c x y :
  nod c = false → wf F x → wf F y → finite F x = true → finite F y = true →
  if ival F x * ival F y =? 0 then fmul F c x y = Some (fzero F (xorb (sign x) (sign y)), CLEARCX c)
  else correct F (CLEARCX c) (fmul F c x y) (xorb (sign x) (sign y)) (ival F x * ival F y) prod_den.
Proof.
  intros Hc Hwx Hwy Hfx Hfy. destruct (finite_operand F x Hwx Hfx) as [Esx Hx]. destruct (finite_operand F y Hwy Hfy) as [Esy Hy].
  unfold fmul. rewrite !FLUSH_off by done. cbn beta iota.
  destruct Hx as [(-> & Hx0 & Ex)|[(-> & Hx)|(-> & kx & Hkx & Hsx & Hx)]], Hy as [(-> & Hy0 & Ey)|[(-> & Hy)|(-> & ky & Hky & Hsy & Hy)]];
    rewrite ?Esx, ?Esy, ?Hkx, ?Hky, ?Hx0, ?Hy0, ?Z.mul_0_r; cbn [mbind option_bind]; try done;
    pose proof (opd_pos F _ _ Hx); pose proof (opd_pos F _ _ Hy); destruct (Z.eqb_spec (ival F x * ival F y) 0); try nia;
    rewrite <-?Hsx, <-?Hsy, <-?Esx, <-?Esy; by apply mul_finite_spec.
Qed.
End multiplication.

Section division.
Context (F : format) `{!Format F}.
Abbreviation p := (MBITS F).

(** The division loop after a round: [q] is the quotient so far, [x] the remainder. *)
Lemma div_loop ym : 0 < ym < 2 ^ (p + 4) → ∀ i fuel x q, (i < fuel)%nat → 0 ≤ x < ym → 0 ≤ q →
  ∃ x' r', loop fuel (div_round F ym) (uw F (x .<< 1), q * 2 ^ Z.of_nat i, 2 ^ Z.of_nat i .>> 1) = Some (x', r') ∧
    q * 2 ^ Z.of_nat i ≤ r' < (q + 1) * 2 ^ Z.of_nat i ∧ 0 ≤ x' < 2 * ym ∧
    2 * (q * ym + x) * 2 ^ Z.of_nat i = 2 * r' * ym + x'.
Proof.
  intros Hy. pose proof f_mbits. pose proof f_width. assert (2 ^ (p + 8) ≤ 2 ^ W F) as HW by (apply Z.pow_le_mono_r; lia).
  pose proof (pow_p F 8 ltac:(lia)) as E8. pose proof (pow_p F 4 ltac:(lia)) as E4.
  assert (∀ x, 0 ≤ x < ym → uw F (x .<< 1) = 2 * x) as Hsh by (intros x Hx; rewrite Z.shiftl_mul_pow2 by lia; rewrite uw_small by lia; lia).
  induction i as [|i IH]; intros [|fuel] x q Hf Hx Hq; try lia; cbn [loop div_round].
  - rewrite Hsh by done. exists (2 * x), q. rewrite Z.mul_1_r. split; [done|]. lia.
  - rewrite Hsh, Nat2Z.inj_succ, Z.pow_succ_r by lia. rewrite Z.shiftr_div_pow2, (Z.mul_comm 2), Z.div_mul by lia.
    assert (0 < 2 ^ Z.of_nat i) as Hi by lia. destruct (Z.eqb_spec (2 ^ Z.of_nat i) 0); [lia|].
    replace (q * (2 ^ Z.of_nat i * 2)) with ((2 * q) * 2 ^ Z.of_nat i) by ring. destruct (Z.leb_spec ym (2 * x)) as [Hle|Hlt].
    + rewrite (uw_small F (2 * x - ym)) by lia.
      assert (2 * q * 2 ^ Z.of_nat i .| 2 ^ Z.of_nat i = (2 * q + 1) * 2 ^ Z.of_nat i) as ->.
      { rewrite <-!Z.shiftl_mul_pow2, <-(Z.mul_1_l (2 ^ _)), <-Z.shiftl_mul_pow2, <-Z.shiftl_lor by lia. f_equal.
        rewrite lor_1, (Z.mul_comm 2 q), Z.div_mul by lia. ring. }
      destruct (Z.eqb_spec (2 * x - ym) 0) as [E0|E0].
      * exists 0, ((2 * q + 1) * 2 ^ Z.of_nat i). rewrite E0. split; [done|]. split_and!; try nia.
      * destruct (IH fuel (2 * x - ym) (2 * q + 1)) as (x' & r' & -> & Hr & Hx' & E); [lia..|]. exists x', r'. split; [done|]. lia.
    + destruct (IH fuel (2 * x) (2 * q)) as (x' & r' & -> & Hr & Hx' & E); [lia..|]. exists x', r'. split; [done|]. lia.
Qed.

(** The quotient of two normalised mantissas, rounded to odd. *)
Lemma div_quotient mx my : 2 ^ p ≤ mx < 2 ^ (p + 1) → 2 ^ p ≤ my < 2 ^ (p + 1) →
  ∃ x' r', loop (Z.to_nat (W F)) (div_round F (uw F (my .<< 3))) (uw F (mx .<< 3), 0, MBIT (p + 2)) = Some (x', r') ∧
    let m := uw F (r' .<< 1) in let m := if truthy x' then m .| 1 else m in
    2 ^ (p + 2) ≤ m < 2 ^ (p + 4) ∧ odd_round m (mx * 2 ^ (p + 3)) my.
Proof.
  intros Hx Hy. pose proof f_mbits. pose proof f_width. pose proof (pow_p F 1 ltac:(lia)) as E1. pose proof (pow_p F 2 ltac:(lia)) as E2.
  pose proof (pow_p F 3 ltac:(lia)) as E3. pose proof (pow_p F 4 ltac:(lia)) as E4. pose proof (pow_p F 8 ltac:(lia)) as E8.
  assert (2 ^ (p + 8) ≤ 2 ^ W F) as HW by (apply Z.pow_le_mono_r; lia).
  rewrite (shiftl3 F my) by lia. destruct (div_loop (8 * my) ltac:(lia) (Z.to_nat (p + 3)) (Z.to_nat (W F)) (4 * mx) 0) as (x' & r' & El & Hr & Hx' & E); [lia..|].
  exists x', r'. replace (MBIT (p + 2)) with (2 ^ Z.of_nat (Z.to_nat (p + 3)) .>> 1).
  2:{ rewrite Z2Nat.id by lia. replace (p + 3) with (p + 2 + 1) by lia. unfold MBIT. rewrite Z.shiftr_div_pow2, (Z.pow_add_r 2 (p + 2) 1), Z.div_mul by lia. done. }
  replace (uw F (mx .<< 3)) with (uw F ((4 * mx) .<< 1)) by (f_equal; rewrite !Z.shiftl_mul_pow2 by lia; lia).
  split; [exact El|]. rewrite Z2Nat.id, !Z.mul_0_l, ?Z.add_0_l, ?Z.mul_1_l in * by lia. cbv zeta. rewrite (Z.shiftl_mul_pow2 r') by lia.
  rewrite (uw_small F (r' * 2 ^ 1)) by lia. change (2 ^ 1) with 2.
  assert (8 * (mx * 2 ^ (p + 3)) = 8 * (2 * r' * my) + x') as E' by lia. clear E El.
  assert (odd_round (if truthy x' then (r' * 2) .| 1 else r' * 2) (mx * 2 ^ (p + 3)) my ∧ r' * 2 ≤ (if truthy x' then (r' * 2) .| 1 else r' * 2) ≤ 2 * r' + 1) as [Ho Hle].
  { destruct (truthy x') eqn:Et.
    - apply truthy_spec in Et. rewrite lor_1, Z.div_mul by lia. split; [right|lia]. split; [by rewrite Z.odd_add, Z.odd_mul|lia].
    - apply truthy_spec0 in Et. split; [left|]; lia. }
  split; [|done]. set (m := if truthy x' then _ else _) in *. split; [|lia]. destruct Ho as [Ho|(_ & _ & Ho)]; nia.
Qed.

Lemma div_finite_spec c kx ky a b : nod c = false → opd F a kx → opd F b ky →
  correct F c (div_finite F c kx ky) (xorb (vs kx) (vs ky)) (a * prod_den F) b.
Proof.
  intros Hc Ox Oy. pose proof (opd_pos F _ _ Oy) as Hb. destruct Ox as [Hmx Hex Hvx], Oy as [Hmy Hey Hvy].
  pose proof f_mbits as Hp. pose proof (K_pos F) as HK. pose proof f_emin as HE. pose proof f_emax.
  unfold div_finite. destruct (div_quotient (vm kx) (vm ky) Hmx Hmy) as (x' & r' & -> & Hm & Ho). cbn [mbind option_bind]. cbv zeta in Hm, Ho |- *.
  set (h := 2 * p + EMAX F - EMIN F + 8). specialize (Hvx h ltac:(unfold h; lia)). specialize (Hvy h ltac:(unfold h; lia)).
  set (m := if truthy x' then _ else _) in *. destruct (normret_normalised F c (xorb (vs kx) (vs ky)) (ve kx - ve ky) m (vm kx * 2 ^ (p + 3)) (vm ky) (a * prod_den F) b h Hc Hb)
    as (m' & e' & En & Hcor); [lia|unfold h; lia|unfold h; lia| |exact Ho|intros _; apply Hm| |].
  - split; [|exact (proj2 Hm)]. assert (0 < 2 ^ (p + 2)) by lia. lia.
  - unfold prod_den. apply (Z.mul_reg_r _ _ (2 ^ (ve ky - EMIN F + h) * 2 ^ h)); [apply Z.neq_mul_0; split; apply Z.pow_nonzero; unfold h; lia|].
    assert (2 ^ (p + 3) * 2 ^ (ve kx - ve ky - EMIN F + h) * 2 ^ (ve ky - EMIN F + h) = 8 * 2 ^ (p - EMIN F) * 2 ^ h * 2 ^ (ve kx - EMIN F + h)) as Epow.
    { change 8 with (2 ^ 3). rewrite <-!Z.pow_add_r by (unfold h; lia). f_equal. lia. }
    transitivity (vm kx * b * 2 ^ h * (2 ^ (p + 3) * 2 ^ (ve kx - ve ky - EMIN F + h) * 2 ^ (ve ky - EMIN F + h))); [ring|]. rewrite Epow.
    transitivity (8 * 2 ^ (p - EMIN F) * 2 ^ h * (b * 2 ^ h) * (vm kx * 2 ^ (ve kx - EMIN F + h))); [ring|]. rewrite Hvx, <-Hvy. ring.
  - rewrite En. cbn [mbind option_bind]. replace (negb (bool_decide (vs kx = vs ky))) with (xorb (vs kx) (vs ky)) by (by destruct (vs kx), (vs ky)). exact Hcor.
Qed.

Theorem fdiv_correct c x y :
  nod c = false → wf F x → wf F y → finite F x = true → finite F y = true →
  if ival F y =? 0 then
    fdiv F c x y = Some (if ival F x =? 0 then (findef F, SETCX (CLEARCX c) INVALID_OPERATION)
                         else (finf F (xorb (sign x) (sign y)), SETCX (CLEARCX c) ZERO_DIVIDE))
  else if ival F x =? 0 then fdiv F c x y = Some (fzero F (xorb (sign x) (sign y)), CLEARCX c)
  else correct F (CLEARCX c) (fdiv F c x y) (xorb (sign x) (sign y)) (ival F x * prod_den F) (ival F y).
Proof.
  intros Hc Hwx Hwy Hfx Hfy. destruct (finite_operand F x Hwx Hfx) as [Esx Hx]. destruct (finite_operand F y Hwy Hfy) as [Esy Hy].
  unfold fdiv. rewrite !FLUSH_off by done. cbn beta iota.
  destruct Hx as [(-> & Hx0 & Ex)|[(-> & Hx)|(-> & kx & Hkx & Hsx & Hx)]], Hy as [(-> & Hy0 & Ey)|[(-> & Hy)|(-> & ky & Hky & Hsy & Hy)]];
    rewrite ?Esx, ?Esy, ?Hkx, ?Hky, ?Hx0, ?Hy0; cbn [mbind option_bind Z.eqb];
    try (pose proof (opd_pos F _ _ Hx); destruct (Z.eqb_spec (ival F x) 0); [lia|]);
    try (pose proof (opd_pos F _ _ Hy); destruct (Z.eqb_spec (ival F y) 0); [lia|]);
    unfold xcpt; rewrite ?if_same; try done; try (by destruct (sign x), (sign y)); try (by destruct (TSTX _));
    rewrite <-?Hsx, <-?Hsy, <-?Esx, <-?Esy; by apply div_finite_spec.
Qed.
End division.

Section special.
Context (F : format) `{!Format F}.

Lemma findef_quiet : issnan F (findef F) = false.
Proof.
  unfold issnan, findef, spcval, spcvals, konst, MBIT. cbn [nth mant Nat.add]. pose proof f_mbits.
  apply truthy_spec0. rewrite Z.land_comm. apply Z.bits_inj'. intros n Hn. rewrite Z.land_spec, Z.bits_0, Z.pow2_bits_eqb by lia.
  destruct (Z.eqb_spec (MBITS F - 1) n) as [<-|]; [|done]. replace (2 ^ (MBITS F - 1) - 1) with (Z.ones (MBITS F - 1)) by (rewrite Z.ones_equiv; lia).
  by rewrite Z.ones_spec_high by lia.
Qed.
Lemma class_nan x : isnan F x = true → wf F x → class F x = if issnan F x then SNAN else QNAN.
Proof.
  unfold isnan, class, EXPLODE, issnan. destruct (_ =? _); [|destruct (_ =? _); [destruct (truthy _)|]; done].
  cbn. destruct (_ =? 0); [done|]. by destruct (truthy _).
Qed.

(** What the four operations do with a NaN. *)
Definition nan_result (c : csr) (x y : fl) : fl * csr :=
  if isnan F x && issnan F x || isnan F y && issnan F y then (findef F, SETCX (CLEARCX c) INVALID_OPERATION)
  else if isnan F x then (x, CLEARCX c) else (y, CLEARCX c).

Theorem nan_operands c x y :
  nod c = false → wf F x → wf F y → isnan F x = true ∨ isnan F y = true →
  Forall (λ op, op c x y = Some (nan_result c x y)) [fadd F; fsub F; fmul F; fdiv F].
Proof.
  intros Hc Hx Hy Hn. pose proof (class_nan x) as Cx. pose proof (class_nan y) as Cy. unfold nan_result.
  assert (∀ k, nanxcpt F k (findef F) = (findef F, k)) as Hnx by (intros k; unfold nanxcpt; by rewrite findef_quiet).
  repeat constructor; unfold fadd, fsub, fmul, fdiv; rewrite !FLUSH_off by done; cbn beta iota; rewrite ?Hnx;
    change (vc (EXPLODE F x)) with (class F x); change (vc (EXPLODE F y)) with (class F y);
    destruct (isnan F x) eqn:Nx, (isnan F y) eqn:Ny; try (destruct Hn; done);
    try (rewrite Cx by done); try (rewrite Cy by done); cbn [andb orb];
    repeat match goal with
      | |- context [issnan F ?v] => destruct (issnan F v)
      end; try done; unfold isnan in *; destruct (class F x), (class F y); done.
Qed.

Definition isinf (x : fl) : bool := bool_decide (class F x = INF).
Definition iszero (x : fl) : bool := bool_decide (class F x = ZERO).

Theorem inf_operands c x y :
  nod c = false → isnan F x = false → isnan F y = false → isinf x || isinf y = true →
  let c' := CLEARCX c in let s := xorb (sign x) (sign y) in let invalid := Some (findef F, SETCX c' INVALID_OPERATION) in
  fadd F c x y = (if isinf x && isinf y && s then invalid else if isinf x then Some (x, c') else Some (y, c')) ∧
  fsub F c x y = (if isinf x && isinf y && negb s then invalid else if isinf x then Some (x, c') else Some (finf F (negb (sign y)), c')) ∧
  fmul F c x y = (if iszero x || iszero y then invalid else Some (finf F s, c')) ∧
  fdiv F c x y = (if isinf x && isinf y then invalid else if isinf x then Some (finf F s, c') else Some (fzero F s, c')).
Proof.
  intros Hc Nx Ny Hi c' s invalid. unfold isnan, isinf, iszero in *.
  assert (∀ v, vs (EXPLODE F v) = sign v) as Es by (intros v; unfold EXPLODE; by repeat case_match).
  unfold fadd, fsub, fmul, fdiv; rewrite !FLUSH_off by done; cbn beta iota; rewrite !Es.
  change (vc (EXPLODE F x)) with (class F x); change (vc (EXPLODE F y)) with (class F y).
  unfold invalid, s. destruct (class F x), (class F y); try done; by destruct (sign x), (sign y).
Qed.
End special.

(** ** The arithmetic of both formats *)

(** C3: Sums and differences of finite numbers of both formats are correctly rounded in every mode, subnormal
    results and overflow included, with the right exceptions and the right sign of zero. *)
Theorem add_sub_correct F `{!Format F} c x y :
  nod c = false → wf F x → wf F y → finite F x = true → finite F y = true →
  sum_spec F (CLEARCX c) (fadd F c x y) (val F x + val F y) (if bool_decide (sign x = sign y) then sign x else bool_decide (rm c = RD)) ∧
  sum_spec F (CLEARCX c) (fsub F c x y) (val F x - val F y) (if bool_decide (sign x ≠ sign y) then sign x else bool_decide (rm c = RD)).
Proof. intros. split; [by apply fadd_correct|by apply fsub_correct]. Qed.
Lemma add_sub_correct_witness :
  sum_spec SP (csr0 RN) (ieee754sp_add (csr0 RN) (fone SP false) (fmin SP false)) (val SP (fone SP false) + val SP (fmin SP false)) false ∧
  sum_spec DP (csr0 RD) (ieee754dp_sub (csr0 RD) (fone DP false) (fone DP false)) (val DP (fone DP false) - val DP (fone DP false)) true.
Proof. split; [apply (add_sub_correct SP (csr0 RN)); done|apply (add_sub_correct DP (csr0 RD)); done]. Defined.

(** C4: Products and quotients of finite numbers of both formats are correctly rounded in every mode with the
    right exceptions, and zeros and divisions by zero give what IEEE 754 says. *)
Theorem mul_div_correct F `{!Format F} c x y :
  nod c = false → wf F x → wf F y → finite F x = true → finite F y = true →
  let s := xorb (sign x) (sign y) in
  (if ival F x * ival F y =? 0 then fmul F c x y = Some (fzero F s, CLEARCX c)
   else correct F (CLEARCX c) (fmul F c x y) s (ival F x * ival F y) (prod_den F)) ∧
  (if ival F y =? 0 then
     fdiv F c x y = Some (if ival F x =? 0 then (findef F, SETCX (CLEARCX c) INVALID_OPERATION) else (finf F s, SETCX (CLEARCX c) ZERO_DIVIDE))
   else if ival F x =? 0 then fdiv F c x y = Some (fzero F s, CLEARCX c)
   else correct F (CLEARCX c) (fdiv F c x y) s (ival F x * prod_den F) (ival F y)).
Proof. intros. split; [by apply fmul_correct|by apply fdiv_correct]. Qed.
Lemma mul_div_correct_witness :
  correct SP (csr0 RU) (ieee754sp_mul (csr0 RU) (fmin SP true) (fmin SP true)) false (ival SP (fmin SP true) * ival SP (fmin SP true)) (prod_den SP) ∧
  correct DP (csr0 RZ) (ieee754dp_div (csr0 RZ) (fone DP false) (ften DP true)) true (ival DP (fone DP false) * prod_den DP) (ival DP (ften DP true)).
Proof.
  split; [exact (proj1 (mul_div_correct SP (csr0 RU) (fmin SP true) (fmin SP true) eq_refl ltac:(done) ltac:(done) eq_refl eq_refl))|].
  exact (proj2 (mul_div_correct DP (csr0 RZ) (fone DP false) (ften DP true) eq_refl ltac:(done) ltac:(done) eq_refl eq_refl)).
Defined.

(** What the four operations give when an operand is not finite. *)
Definition special_result (F : format) (c : csr) (x y : fl) : Prop :=
  if isnan F x || isnan F y then Forall (λ op, op c x y = Some (nan_result F c x y)) [fadd F; fsub F; fmul F; fdiv F] else
  let c' := CLEARCX c in let s := xorb (sign x) (sign y) in let invalid := Some (findef F, SETCX c' INVALID_OPERATION) in
  fadd F c x y = (if isinf F x && isinf F y && s then invalid else if isinf F x then Some (x, c') else Some (y, c')) ∧
  fsub F c x y = (if isinf F x && isinf F y && negb s then invalid else if isinf F x then Some (x, c') else Some (finf F (negb (sign y)), c')) ∧
  fmul F c x y = (if iszero F x || iszero F y then invalid else Some (finf F s, c')) ∧
  fdiv F c x y = (if isinf F x && isinf F y then invalid else if isinf F x then Some (finf F s, c') else Some (fzero F s, c')).
Lemma not_finite F x : finite F x = false → isnan F x || isinf F x = true.
Proof.
  unfold finite, isnan, isinf, class, EXPLODE. intros H%negb_false_iff. rewrite H. destruct (mant x =? 0); [done|]. by destruct (truthy _).
Qed.
(** C37: With an operand that is not finite the four operations pass on a quiet NaN, turn a signalling one into
    the default NaN with invalid operation, and follow the rules of infinities. *)
Theorem special_operands F `{!Format F} c x y :
  nod c = false → wf F x → wf F y → finite F x && finite F y = false → special_result F c x y.
Proof.
  intros Hc Hx Hy Hf. unfold special_result. destruct (isnan F x || isnan F y) eqn:En; [apply nan_operands; try done; by apply orb_true_iff|]. apply orb_false_iff in En as [Nx Ny]. apply inf_operands; [done..|].
  apply andb_false_iff in Hf as [Hf|Hf]; apply not_finite in Hf; rewrite ?Nx, ?Ny in Hf; cbn in Hf; rewrite Hf; [done|apply orb_true_r].
Qed.
Lemma special_operands_witness : special_result SP (csr0 RN) (finf SP true) (fone SP false).
Proof. apply (special_operands SP); done. Defined.

End FpArith.
