(* ===== verification/FpConv.v ===== *)
(** * FpConv: comparison and conversion

    Further operations of arch/mips/math-emu: comparison, negation and absolute
    value, conversions between the two formats and to and from 32 and 64-bit
    integers, logb, scalb, frexp, modf, floor, ceil and trunc. As in [FpArith] a
    pair of single and double precision functions that are the same code is one
    definition over a [format]. *)

From S2P Require Import Prelude Ieee754 FpArith.
Import Ieee754 FpArith.

Module FpConv.

Section code.
Context (F : format).

(** The word of a number: the member [bits] of the unions. *)
Definition bits (x : fl) : Z := Z.b2z (sign x) * 2 ^ (W F - 1) + bexp x * 2 ^ MBITS F + mant x.
Definition of_bits (b : Z) : fl :=
  {| sign := Z.testbit b (W F - 1); bexp := (b .>> MBITS F) `mod` 2 ^ EBITS F; mant := b `mod` 2 ^ MBITS F |}.
(** The same word as a signed integer. *)
Definition sbits (b : Z) : Z := if Z.testbit b (W F - 1) then b - 2 ^ W F else b.

(** ** sp_simple.c *)
Definition copysign (c : csr) (x y : fl) : fl * csr :=
  ({| sign := sign y; bexp := bexp x; mant := mant x |}, CLEARCX c).
Definition fneg (c : csr) (x : fl) : fl * csr :=
  let kx := EXPLODE F x in
  let c := CLEARCX c in
  let '(c, x, kx) := FLUSH F c x kx in
  let x := {| sign := negb (sign x); bexp := bexp x; mant := mant x |} in
  if bool_decide (vc kx = SNAN) then
    nanxcpt F (SETCX c INVALID_OPERATION) {| sign := sign x; bexp := bexp (findef F); mant := mant (findef F) |}
  else (x, c).
Definition fabs (c : csr) (x : fl) : fl * csr :=
  let kx := EXPLODE F x in
  let c := CLEARCX c in
  let '(c, x, kx) := FLUSH F c x kx in
  let x := {| sign := false; bexp := bexp x; mant := mant x |} in
  if bool_decide (vc kx = SNAN) then nanxcpt F (SETCX c INVALID_OPERATION) (findef F) else (x, c).

(** ** sp_cmp.c *)
Definition CLT : Z := 1.
Definition CEQ : Z := 2.
Definition CGT : Z := 4.
Definition CUN : Z := 8.
Definition cmp_key (b : Z) : Z :=
  let v := sbits b in if v <? 0 then sbits (uw F (- v) .^ 2 ^ (W F - 1)) else v.
Definition fcmp (c : csr) (x y : fl) (cmp : Z) (sig : bool) : bool * csr :=
  let kx := EXPLODE F x in let ky := EXPLODE F y in
  let '(c, x, kx) := FLUSH F c x kx in
  let '(c, y, ky) := FLUSH F c y ky in
  let c := CLEARCX c in
  if isnan F x || isnan F y then
    let c := if sig || bool_decide (vc kx = SNAN) || bool_decide (vc ky = SNAN) then SETCX c INVALID_OPERATION else c in
    if truthy (cmp .& CUN) then (true, c) else
    if truthy (cmp .& (CLT .| CGT)) && sig then (false, SETCX c INVALID_OPERATION)
    else (false, c)
  else
    let vx := cmp_key (bits x) in
    let vy := cmp_key (bits y) in
    (if vx <? vy then truthy (cmp .& CLT) else if vx =? vy then truthy (cmp .& CEQ) else truthy (cmp .& CGT), c).

(** ** From integers: sp_fint.c, sp_flong.c, dp_flong.c. The integer has [N] bits,
    the mantissa variable the width of the format [G]. *)
Definition int_mag (N x : Z) : Z := if x <? 0 then if x =? - 2 ^ (N - 1) then 2 ^ (N - 1) else - x else x.
Definition shunt (m e : Z) : option (Z * Z) :=
  loop 64 (λ '(m, e), if truthy (m .>> (MBITS F + 1 + 3)) then inl (srs1 m, e + 1) else inr (m, e)) (m, e).
Definition from_int (G : format) (N : Z) (c : csr) (x : Z) : option (fl * csr) :=
  let c := CLEARCX c in
  if x =? 0 then Some (fzero F false, c) else
  if (x =? 1) || (x =? -1) then Some (fone F (x <? 0), c) else
  if (x =? 10) || (x =? -10) then Some (ften F (x <? 0), c) else
  let xs := x <? 0 in
  let xm := int_mag N x in
  let xe := MBITS F + 3 in
  '(xm, xe) ← (if truthy (xm .>> (MBITS F + 1 + 3)) then shunt xm xe else normalise G (MBITS F + 3) xm xe);
  Some (NORMRET F c xs xe xm).
(** dp_fint.c: the result is built directly. *)
Definition from_int_exact (N : Z) (c : csr) (x : Z) : option (fl * csr) :=
  let c := CLEARCX c in
  if x =? 0 then Some (fzero F false, c) else
  if (x =? 1) || (x =? -1) then Some (fone F (x <? 0), c) else
  if (x =? 10) || (x =? -10) then Some (ften F (x <? 0), c) else
  '(xm, xe) ← normalise F (MBITS F) (int_mag N x) (MBITS F);
  Some (build F (x <? 0) (xe + EBIAS F) (Z.ldiff xm (HIDDEN_BIT F)), c).
(** The unsigned ones: funs and fulong, with the signed conversion and 2^(N-1). *)
Definition from_uns (N : Z) (fint : csr → Z → option (fl * csr)) (top : fl) (c : csr) (u : Z) : option (fl * csr) :=
  if Z.testbit u (N - 1) then '(v, c) ← fint c (u `mod` 2 ^ (N - 1)); fadd F c top v
  else fint c u.

(** ** To integers: sp_tint.c, dp_tint.c, sp_tlong.c, dp_tlong.c *)
Definition residue1 (xm xe : Z) : Z := uw F (xm .<< (W F - MBITS F + xe)).
Definition residue2 (xm xe : Z) : Z := uw F (uw F (xm .<< (xe + 1)) .<< (W F - 1 - MBITS F)).
(** (round, sticky, xm) *)
Definition int_split (residue : Z → Z → Z) (xm xe : Z) : bool * bool * Z :=
  if xe <? -1 then (false, truthy xm, 0)
  else let r := residue xm xe in
    (truthy (r .>> (W F - 1)), truthy (uw F (r .<< 1)), xm .>> (MBITS F - xe)).
Definition int_round (c : csr) (xs rnd sticky : bool) (xm : Z) : Z :=
  match rm c with
  | RN => if rnd && (sticky || truthy (xm .& 1)) then xm + 1 else xm
  | RZ => xm
  | RU => if (rnd || sticky) && negb xs then xm + 1 else xm
  | RD => if (rnd || sticky) && xs then xm + 1 else xm
  end.
Definition sw (N x : Z) : Z := (x + 2 ^ (N - 1)) `mod` 2 ^ N - 2 ^ (N - 1).
Definition si_indef (N : Z) : Z := 2 ^ (N - 1) - 1.
Definition int_ret (N : Z) (c : csr) (xs : bool) (xm : Z) : Z * csr := (sw N (if xs then - xm else xm), c).
Definition int_invalid (N : Z) (c : csr) : Z * csr := (si_indef N, SETCX c INVALID_OPERATION).
Definition to_int_finite (N : Z) (residue : Z → Z → Z) (whole : bool) (c : csr) (xs : bool) (xe xm : Z) : Z * csr :=
  if N - 1 <=? xe then
    if (xe =? N - 1) && xs && (xm =? HIDDEN_BIT F) then (- 2 ^ (N - 1), c) else int_invalid N c
  else if MBITS F <? xe then int_ret N c xs ((xm .<< (xe - MBITS F)) `mod` 2 ^ N)
  else if whole || (xe <? MBITS F) then
    let '(rnd, sticky, xm) := int_split residue xm xe in
    let xm := int_round c xs rnd sticky xm in
    if negb ((xm .>> (N - 1)) =? 0) then int_invalid N c
    else int_ret N (if rnd || sticky then SETCX c INEXACT else c) xs xm
  else int_ret N c xs xm.
(** dp_tint.c: the corner case is looked for after the rounding. *)
Definition to_int_late (N : Z) (c : csr) (xs : bool) (xe xm : Z) : Z * csr :=
  if N - 1 <? xe then int_invalid N c
  else if MBITS F <? xe then int_ret N c xs (uw F (xm .<< (xe - MBITS F)))
  else if xe <? MBITS F then
    let '(rnd, sticky, xm) := int_split residue1 xm xe in
    let xm := int_round c xs rnd sticky xm in
    if negb ((xm .>> (N - 1)) =? 0) && (negb xs || negb (xm =? 2 ^ (N - 1))) then int_invalid N c
    else int_ret N (if rnd || sticky then SETCX c INEXACT else c) xs xm
  else int_ret N c xs xm.
Definition to_int (N : Z) (conv : csr → bool → Z → Z → Z * csr) (c : csr) (x : fl) : Z * csr :=
  let c := CLEARCX c in
  let kx := EXPLODE F x in
  let '(c, x, kx) := FLUSH F c x kx in
  match vc kx with
  | SNAN | QNAN | INF => int_invalid N c
  | ZERO => (0, c)
  | DNORM | NORM => conv c (vs kx) (ve kx) (vm kx)
  end.
Definition to_uns (N : Z) (tint : csr → fl → Z * csr) (top : fl) (c : csr) (x : fl) : option (Z * csr) :=
  let '(lt, c) := fcmp c x top CLT false in
  if lt then let '(r, c) := tint c x in Some (r `mod` 2 ^ N, c)
  else '(d, c) ← fsub F c x top; let '(r, c) := tint c d in Some (r `mod` 2 ^ N .| 2 ^ (N - 1), c).

(** ** sp_logb.c, sp_scalb.c, sp_frexp.c, sp_modf.c *)
Definition logb (fint : csr → Z → option (fl * csr)) (c : csr) (x : fl) : option (fl * csr) :=
  let c := CLEARCX c in
  let kx := EXPLODE F x in
  match vc kx with
  | SNAN => Some (nanxcpt F c x)
  | QNAN => Some (x, c)
  | INF => Some (finf F false, c)
  | ZERO => Some (finf F true, c)
  | DNORM => kx ← DNORM_ F kx; fint c (ve kx)
  | NORM => fint c (ve kx)
  end.
(** For an [n] with which the exponent stays an int. *)
Definition scalb (c : csr) (x : fl) (n : Z) : option (fl * csr) :=
  let c := CLEARCX c in
  let kx := EXPLODE F x in
  match vc kx with
  | SNAN => Some (nanxcpt F c x)
  | QNAN | INF | ZERO => Some (x, c)
  | DNORM => kx ← DNORM_ F kx; Some (NORMRET F c (vs kx) (ve kx + n) (uw F (vm kx .<< 3)))
  | NORM => Some (NORMRET F c (vs kx) (ve kx + n) (uw F (vm kx .<< 3)))
  end.
Definition frexp (c : csr) (x : fl) : option (fl * Z * csr) :=
  let c := CLEARCX c in
  let kx := EXPLODE F x in
  let ret k := (build F (vs k) (-1 + EBIAS F) (Z.ldiff (vm k) (HIDDEN_BIT F)), ve k + 1, c) in
  match vc kx with
  | SNAN | QNAN | INF | ZERO => Some (x, 0, c)
  | DNORM => kx ← DNORM_ F kx; Some (ret kx)
  | NORM => Some (ret kx)
  end.
(** The fractional part, the integer part through the pointer. *)
Definition modf (c : csr) (x : fl) : option (fl * fl * csr) :=
  let c := CLEARCX c in
  let kx := EXPLODE F x in
  let xs := vs kx in let xe := ve kx in let xm := vm kx in
  match vc kx with
  | SNAN | QNAN | INF | ZERO => Some (x, x, c)
  | DNORM => Some (x, fzero F xs, c)
  | NORM =>
      if xe <? 0 then Some (x, fzero F xs, c) else
      if MBITS F <=? xe then Some (fzero F xs, x, c) else
      let ip := build F xs (xe + EBIAS F) (Z.ldiff (uw F ((xm .>> (MBITS F - xe)) .<< (MBITS F - xe))) (HIDDEN_BIT F)) in
      let xm := uw F (xm .<< (W F - (MBITS F - xe))) .>> (W F - (MBITS F - xe)) in
      if xm =? 0 then Some (fzero F xs, ip, c) else
      '(xm, xe) ← normalise F (MBITS F) xm xe;
      Some (build F xs (xe + EBIAS F) (Z.ldiff xm (HIDDEN_BIT F)), ip, c)
  end.
End code.

Definition ieee754sp_neg := fneg SP.
Definition ieee754dp_neg := fneg DP.
Definition ieee754sp_abs := fabs SP.
Definition ieee754dp_abs := fabs DP.
Definition ieee754sp_cmp := fcmp SP.
Definition ieee754dp_cmp := fcmp DP.
Definition ieee754sp_fint := from_int SP SP 32.
Definition ieee754dp_fint := from_int_exact DP 32.
Definition ieee754sp_flong := from_int SP DP 64.
Definition ieee754dp_flong := from_int DP DP 64.
Definition ieee754sp_funs := from_uns SP 32 ieee754sp_fint (f1e31 SP).
Definition ieee754dp_funs := from_uns DP 32 ieee754dp_fint (f1e31 DP).
Definition ieee754sp_fulong := from_uns SP 64 ieee754sp_flong (f1e63 SP).
Definition ieee754dp_fulong := from_uns DP 64 ieee754dp_flong (f1e63 DP).
Definition ieee754sp_tint := to_int SP 32 (to_int_finite SP 32 (residue2 SP) true).
Definition ieee754dp_tint := to_int DP 32 (to_int_late DP 32).
Definition ieee754sp_tlong := to_int SP 64 (to_int_finite SP 64 (residue1 SP) false).
Definition ieee754dp_tlong := to_int DP 64 (to_int_finite DP 64 (residue2 DP) false).
Definition ieee754sp_tuns := to_uns SP 32 ieee754sp_tint (f1e31 SP).
Definition ieee754dp_tuns := to_uns DP 32 ieee754dp_tint (f1e31 DP).
Definition ieee754sp_tulong := to_uns SP 64 ieee754sp_tlong (f1e63 SP).
Definition ieee754dp_tulong := to_uns DP 64 ieee754dp_tlong (f1e63 DP).
Definition ieee754sp_logb := logb SP ieee754sp_fint.
Definition ieee754dp_logb := logb DP ieee754dp_fint.
Definition ieee754sp_scalb := scalb SP.
Definition ieee754dp_scalb := scalb DP.
Definition ieee754sp_frexp := frexp SP.
Definition ieee754dp_frexp := frexp DP.
Definition ieee754sp_modf := modf SP.
Definition ieee754dp_modf := modf DP.

(** ** sp_fdp.c and dp_fsp.c: between the formats *)
Definition ieee754sp_fdp (c : csr) (x : fl) : fl * csr :=
  let kx := EXPLODE DP x in
  let c := CLEARCX c in
  let '(c, x, kx) := FLUSH DP c x kx in
  let xs := vs kx in let xm := vm kx in
  match vc kx with
  | SNAN => nanxcpt SP (SETCX c INVALID_OPERATION) (findef SP)
  | QNAN =>
      let nan := build SP xs (EMAX SP + 1 + EBIAS SP) (uw SP (xm .>> (MBITS DP - MBITS SP))) in
      nanxcpt SP c (if isnan SP nan then nan else findef SP)
  | INF => (finf SP xs, c)
  | ZERO => (fzero SP xs, c)
  | DNORM =>
      let c := SETCX (SETCX c UNDERFLOW) INEXACT in
      if bool_decide (rm c = RU) && negb xs || bool_decide (rm c = RD) && xs then xcpt c (fmind SP xs)
      else xcpt c (fzero SP xs)
  | NORM =>
      let rm := uw SP ((xm .>> (MBITS DP - (MBITS SP + 3))) .| Z.b2z (truthy (uw DP (xm .<< (64 - (MBITS DP - (MBITS SP + 3))))))) in
      NORMRET SP c xs (ve kx) rm
  end.
Definition ieee754dp_fsp (c : csr) (x : fl) : option (fl * csr) :=
  let kx := EXPLODE SP x in
  let c := CLEARCX c in
  let '(c, x, kx) := FLUSH SP c x kx in
  let xs := vs kx in
  let ret xm xe := (build DP xs (xe + EBIAS DP) (uw DP (Z.ldiff xm (HIDDEN_BIT SP) .<< (MBITS DP - MBITS SP))), c) in
  match vc kx with
  | SNAN => Some (nanxcpt DP (SETCX c INVALID_OPERATION) (findef DP))
  | QNAN => Some (nanxcpt DP c (build DP xs (EMAX DP + 1 + EBIAS DP) (uw DP (vm kx .<< (MBITS DP - MBITS SP)))))
  | INF => Some (finf DP xs, c)
  | ZERO => Some (fzero DP xs, c)
  | DNORM => '(xm, xe) ← normalise SP (MBITS SP) (vm kx) (ve kx); Some (ret xm xe)
  | NORM => Some (ret (vm kx) (ve kx))
  end.

(** ** ieee754m.c *)
Definition ieee754dp_floor (c : csr) (x : fl) : option (fl * csr) :=
  '(f, i, c) ← ieee754dp_modf c x;
  let '(lt, c) := ieee754dp_cmp c f (fzero DP false) CLT false in
  if lt then fsub DP c i (fone DP false) else Some (i, c).
Definition ieee754dp_ceil (c : csr) (x : fl) : option (fl * csr) :=
  '(f, i, c) ← ieee754dp_modf c x;
  let '(gt, c) := ieee754dp_cmp c f (fzero DP false) CGT false in
  if gt then fadd DP c i (fone DP false) else Some (i, c).
Definition ieee754dp_trunc (c : csr) (x : fl) : option (fl * csr) :=
  '(f, i, c) ← ieee754dp_modf c x; Some (i, c).

Section words.
Context (F : format) `{!Format F}.
Abbreviation p := (MBITS F).

Lemma word_width : 2 ^ W F = 2 * 2 ^ (W F - 1) ∧ 2 ^ (W F - 1) = 2 ^ EBITS F * 2 ^ p ∧ 0 < 2 ^ p.
Proof.
  pose proof f_word. pose proof f_mbits. pose proof f_ebits. split_and!; [|rewrite <-Z.pow_add_r by lia; f_equal; lia|lia].
  rewrite <-Z.pow_succ_r by lia. f_equal. lia.
Qed.
Definition mag (x : fl) : Z := bexp x * 2 ^ p + mant x.
Lemma mag_range x : wf F x → 0 ≤ mag x < 2 ^ (W F - 1).
Proof. intros [Hb Hm]. destruct word_width as (_ & -> & ?). unfold mag. nia. Qed.
Lemma bits_range x : wf F x → 0 ≤ bits F x < 2 ^ W F.
Proof. intros Hw. pose proof (mag_range x Hw). unfold bits, mag in *. destruct word_width as (-> & _). destruct (sign x); cbn; lia. Qed.
Lemma bits_top x : wf F x → Z.testbit (bits F x) (W F - 1) = sign x.
Proof.
  intros Hw. pose proof (mag_range x Hw) as Hm. pose proof (bits_range x Hw). pose proof f_width. pose proof f_mbits.
  rewrite testbit_top; [|lia|by replace (W F - 1 + 1) with (W F) by lia]. unfold bits, mag in *.
  destruct (sign x); cbn [Z.b2z]; [apply Z.leb_le|apply Z.leb_gt]; lia.
Qed.

Lemma of_bits_bits x : wf F x → of_bits F (bits F x) = x.
Proof.
  intros Hw. unfold of_bits. rewrite bits_top by done. pose proof f_mbits. pose proof f_ebits. destruct word_width as (_ & Ew & Hp). destruct Hw as [Hb Hm].
  assert (bits F x = (Z.b2z (sign x) * 2 ^ EBITS F + bexp x) * 2 ^ p + mant x) as -> by (unfold bits; rewrite Ew; ring).
  rewrite Z.shiftr_div_pow2, Z.div_add_l, (Z.div_small (mant x)), Z.add_0_r by lia.
  rewrite (Z.add_comm (_ * 2 ^ EBITS F)), Z.mod_add, (Z.mod_small (bexp x)) by lia.
  rewrite (Z.add_comm (_ * 2 ^ p)), Z.mod_add, (Z.mod_small (mant x)) by lia. by destruct x.
Qed.
Lemma of_bits_wf b : wf F (of_bits F b).
Proof. pose proof f_mbits. pose proof f_ebits. split; cbn; apply Z.mod_pos_bound; lia. Qed.
Lemma bits_of_bits b : 0 ≤ b < 2 ^ W F → bits F (of_bits F b) = b.
Proof.
  intros Hb. pose proof f_mbits. pose proof f_ebits. pose proof f_width. destruct word_width as (Ew1 & Ew & Hp). unfold bits, of_bits. cbn [sign bexp mant].
  rewrite testbit_top; [|lia|by replace (W F - 1 + 1) with (W F) by lia]. rewrite Z.shiftr_div_pow2 by lia.
  assert (b / 2 ^ p / 2 ^ EBITS F = Z.b2z (2 ^ (W F - 1) <=? b)) as E.
  { rewrite Z.div_div, (Z.mul_comm (2 ^ p)), <-Ew by lia. destruct (Z.leb_spec (2 ^ (W F - 1)) b); cbn; [symmetry; apply (Z.div_unique _ _ _ (b - 2 ^ (W F - 1)))|apply Z.div_small]; lia. }
  pose proof (Z.div_mod (b / 2 ^ p) (2 ^ EBITS F) ltac:(lia)) as E1. pose proof (Z.div_mod b (2 ^ p) ltac:(lia)) as E2. rewrite E in E1. rewrite Ew in E1 |- *.
  transitivity (2 ^ p * (b / 2 ^ p) + b `mod` 2 ^ p); [|by symmetry]. clear E2 E. revert E1. generalize ((b / 2 ^ p) `mod` 2 ^ EBITS F). generalize (b / 2 ^ p). intros u um ->. ring.
Qed.

Lemma cmp_key_spec x : wf F x → cmp_key F (bits F x) = if sign x then - mag x else mag x.
Proof.
  intros Hw. pose proof (mag_range x Hw) as Hm. pose proof f_width. pose proof f_mbits. destruct word_width as (E1 & _ & _). unfold cmp_key.
  assert (bits F x = Z.b2z (sign x) * 2 ^ (W F - 1) + mag x) as Eb by (unfold bits, mag; ring).
  assert (sbits F (bits F x) = mag x - Z.b2z (sign x) * 2 ^ (W F - 1)) as ->.
  { unfold sbits. rewrite bits_top, Eb by done. destruct (sign x); cbn; lia. }
  destruct (sign x); cbn [Z.b2z]; [|destruct (Z.ltb_spec (mag x - 0 * 2 ^ (W F - 1)) 0); lia].
  destruct (Z.ltb_spec (mag x - 1 * 2 ^ (W F - 1)) 0) as [_|]; [|lia].
  replace (- (mag x - 1 * 2 ^ (W F - 1))) with (2 ^ (W F - 1) - mag x) by lia. unfold uw. rewrite Z.mod_small by lia.
  assert (∀ v, 0 ≤ v < 2 ^ (W F - 1) → v .^ 2 ^ (W F - 1) = v + 2 ^ (W F - 1)) as Hx.
  { intros v Hv. symmetry. apply Z.add_nocarry_lxor. apply Z.bits_inj'. intros n Hn. rewrite Z.land_spec, Z.bits_0, Z.pow2_bits_eqb by lia.
    destruct (Z.eqb_spec (W F - 1) n) as [<-|]; [|by rewrite andb_false_r]. rewrite testbit_top by (replace (W F - 1 + 1) with (W F) by lia; lia).
    destruct (Z.leb_spec (2 ^ (W F - 1)) v); [lia|done]. }
  destruct (decide (mag x = 0)) as [->|Hne].
  - rewrite Z.sub_0_r, Z.lxor_nilpotent. unfold sbits. by rewrite Z.bits_0.
  - rewrite Hx by lia. unfold sbits. rewrite testbit_top by (replace (W F - 1 + 1) with (W F) by lia; lia). destruct (Z.leb_spec (2 ^ (W F - 1)) (2 ^ (W F - 1) - mag x + 2 ^ (W F - 1))); lia.
Qed.

(** The order of the words is that of the numbers, infinity being [huge]. *)
Lemma ival_bexp x y : wf F x → wf F y → bexp x < bexp y → ival F x < ival F y.
Proof.
  intros [Hx Hmx] [Hy Hmy] Hlt. pose proof f_mbits. unfold ival. destruct (Z.eqb_spec (bexp y) 0); [lia|].
  assert (1 ≤ 2 ^ (bexp y - 1)) by lia. destruct (Z.eqb_spec (bexp x) 0); [nia|].
  assert (2 ^ bexp x ≤ 2 ^ (bexp y - 1)) by (apply Z.pow_le_mono_r; lia). replace (bexp x) with (Z.succ (bexp x - 1)) in * by lia.
  rewrite Z.pow_succ_r in * by lia. assert (0 < 2 ^ (bexp x - 1)) by lia. rewrite Z.sub_succ_l in *. replace (Z.succ (bexp x - 1 - 1)) with (bexp x - 1) by lia. nia.
Qed.
Lemma mag_ival x y : wf F x → wf F y → (mag x ?= mag y) = (ival F x ?= ival F y).
Proof.
  intros Hx Hy. pose proof (ival_bexp x y Hx Hy) as H1. pose proof (ival_bexp y x Hy Hx) as H2. destruct Hx as [Hx Hmx], Hy as [Hy Hmy].
  destruct (Z.lt_trichotomy (bexp x) (bexp y)) as [Hlt|[Heq|Hgt]].
  - specialize (H1 Hlt). transitivity Lt; [|symmetry]; apply Z.compare_lt_iff; [unfold mag; nia|done].
  - unfold mag, ival. rewrite Heq. destruct (Z.eqb_spec (bexp y) 0) as [->|]; [done|].
    rewrite Z.add_compare_mono_l. rewrite <-Zmult_compare_compat_r by lia. by rewrite Z.add_comm, (Z.add_comm (mant y)), Z.add_compare_mono_l.
  - specialize (H2 Hgt). transitivity Gt; [|symmetry]; apply Z.compare_gt_iff; [unfold mag; nia|done].
Qed.
Lemma cmp_key_val x y : wf F x → wf F y → (cmp_key F (bits F x) ?= cmp_key F (bits F y)) = (val F x ?= val F y).
Proof.
  intros Hx Hy. rewrite !cmp_key_spec by done. pose proof (mag_ival x y Hx Hy) as E. pose proof (mag_ival y x Hy Hx) as E'. unfold val.
  assert (mag x = 0 ↔ ival F x = 0) as Zx by (unfold mag, ival; destruct Hx; destruct (Z.eqb_spec (bexp x) 0) as [->|]; [lia|assert (0 < 2 ^ (bexp x - 1)) by lia; nia]).
  assert (mag y = 0 ↔ ival F y = 0) as Zy by (unfold mag, ival; destruct Hy; destruct (Z.eqb_spec (bexp y) 0) as [->|]; [lia|assert (0 < 2 ^ (bexp y - 1)) by lia; nia]).
  pose proof (mag_range x Hx). pose proof (mag_range y Hy). pose proof (ival_nonneg F x Hx). pose proof (ival_nonneg F y Hy).
  destruct (sign x), (sign y); [by rewrite !Z.compare_opp| | |done].
  - destruct (decide (mag x = 0)) as [E0|]; [rewrite E0, (proj1 Zx E0); destruct (decide (mag y = 0)) as [E1|]; [by rewrite E1, (proj1 Zy E1)|]|];
      (transitivity Lt; [|symmetry]; apply Z.compare_lt_iff; lia).
  - destruct (decide (mag x = 0)) as [E0|]; [rewrite E0, (proj1 Zx E0); destruct (decide (mag y = 0)) as [E1|]; [by rewrite E1, (proj1 Zy E1)|]|];
      (transitivity Gt; [|symmetry]; apply Z.compare_gt_iff; lia).
Qed.

Theorem fcmp_ordered c x y cmp sig :
  nod c = false → wf F x → wf F y → isnan F x = false → isnan F y = false →
  fcmp F c x y cmp sig =
  (truthy (cmp .& match val F x ?= val F y with Lt => CLT | Eq => CEQ | Gt => CGT end), CLEARCX c).
Proof.
  intros Hc Hx Hy Nx Ny. unfold fcmp. rewrite !FLUSH_off by done. rewrite Nx, Ny. cbn [orb]. rewrite <-(cmp_key_val x y Hx Hy).
  destruct (Z.compare_spec (cmp_key F (bits F x)) (cmp_key F (bits F y))) as [E|E|E].
  - rewrite E, Z.ltb_irrefl, Z.eqb_refl. done.
  - by rewrite (proj2 (Z.ltb_lt _ _) E).
  - destruct (Z.ltb_spec (cmp_key F (bits F x)) (cmp_key F (bits F y))); [lia|]. destruct (Z.eqb_spec (cmp_key F (bits F x)) (cmp_key F (bits F y))); [lia|done].
Qed.
Theorem fcmp_unordered c x y cmp sig :
  nod c = false → isnan F x = true ∨ isnan F y = true →
  fcmp F c x y cmp sig =
  (truthy (cmp .& CUN), if sig || bool_decide (class F x = SNAN) || bool_decide (class F y = SNAN) then SETCX (CLEARCX c) INVALID_OPERATION else CLEARCX c).
Proof.
  intros Hc Hn. unfold fcmp. rewrite !FLUSH_off by done. cbn beta iota.
  assert (isnan F x || isnan F y = true) as -> by (destruct Hn as [-> | ->]; [done|apply orb_true_r]).
  change (vc (EXPLODE F x)) with (class F x); change (vc (EXPLODE F y)) with (class F y).
  destruct (truthy (cmp .& CUN)); [done|]. destruct sig; [|by rewrite andb_false_r]. cbn [orb]. rewrite andb_true_r.
  destruct (truthy _); [by rewrite SETCX_SETCX, Z.lor_diag|done].
Qed.
End words.

(** ** Conversions from integers *)
Section from.
Context (F : format) `{!Format F}.
Abbreviation p := (MBITS F).
(** The number 1, in the unit of [ival]. *)
Definition one_units : Z := 2 ^ (p - EMIN F).

Lemma emin_neg : EMIN F ≤ -62 ∧ EBIAS F = 1 - EMIN F ∧ EMAX F = EBIAS F.
Proof.
  pose proof f_emin. pose proof f_emax. pose proof f_ebias. pose proof f_ebits.
  assert (2 ^ 6 ≤ 2 ^ (EBITS F - 1)) by (apply Z.pow_le_mono_r; lia). lia.
Qed.
Lemma konst_spec sn b m : 0 < b < EMAX F + 1 + EBIAS F → 0 ≤ m < 2 ^ p →
  wf F (konst sn b m) ∧ finite F (konst sn b m) = true ∧ ival F (konst sn b m) = (m + 2 ^ p) * 2 ^ (b - 1) ∧ sign (konst sn b m) = sn.
Proof.
  intros Hb Hm. destruct (exp_range F) as (E1 & E2 & E3 & E4). unfold wf, finite, ival. cbn [konst bexp mant sign]. split_and!; try lia; try done.
  destruct (Z.eqb_spec b 0); [lia|done].
Qed.
Lemma fone_spec sn : wf F (fone F sn) ∧ finite F (fone F sn) = true ∧ ival F (fone F sn) = one_units ∧ sign (fone F sn) = sn.
Proof.
  pose proof emin_neg. pose proof f_mbits. assert (fone F sn = konst sn (EBIAS F) 0) as -> by (by destruct sn).
  destruct (konst_spec sn (EBIAS F) 0) as (? & ? & -> & ?); [lia|lia|]. split_and!; try done. unfold one_units. rewrite Z.add_0_l, <-Z.pow_add_r by lia. f_equal. lia.
Qed.
Lemma ften_spec sn : wf F (ften F sn) ∧ finite F (ften F sn) = true ∧ ival F (ften F sn) = 10 * one_units ∧ sign (ften F sn) = sn.
Proof.
  pose proof emin_neg. pose proof f_mbits. assert (ften F sn = konst sn (3 + EBIAS F) (2 ^ (p - 2))) as -> by (by destruct sn).
  assert (2 ^ p = 2 ^ (p - 2) * 4) as E by (change 4 with (2 ^ 2); rewrite <-Z.pow_add_r by lia; f_equal; lia).
  destruct (konst_spec sn (3 + EBIAS F) (2 ^ (p - 2))) as (? & ? & -> & ?); [lia|lia|]. split_and!; try done. unfold one_units.
  replace (2 ^ (p - EMIN F)) with (2 ^ (p - 2) * 2 ^ (3 + EBIAS F - 1 - 1)) by (rewrite <-Z.pow_add_r by lia; f_equal; lia).
  replace (2 ^ (3 + EBIAS F - 1)) with (2 ^ (3 + EBIAS F - 1 - 1) * 2) by (rewrite Z.mul_comm, <-Z.pow_succ_r by lia; f_equal; lia). rewrite E. ring.
Qed.

Lemma fzero_spec sn : wf F (fzero F sn) ∧ finite F (fzero F sn) = true ∧ ival F (fzero F sn) = 0 ∧ sign (fzero F sn) = sn.
Proof.
  destruct (exp_range F) as (E1 & E2 & E3 & E4). pose proof emin_neg. pose proof f_mbits. assert (fzero F sn = konst sn 0 0) as -> by (unfold fzero, spcval, spcvals; rewrite E1; by destruct sn).
  unfold wf, finite, ival. cbn [konst bexp mant sign]. change (0 =? 0) with true. split_and!; try done; lia.
Qed.
Lemma build_normal sn e m : 2 ^ p ≤ m < 2 ^ (p + 1) → EMIN F ≤ e ≤ EMAX F →
  let v := build F sn (e + EBIAS F) (Z.ldiff m (HIDDEN_BIT F)) in
  wf F v ∧ finite F v = true ∧ ival F v = m * 2 ^ (e - EMIN F) ∧ sign v = sn.
Proof.
  intros Hm He v. destruct (exp_range F) as (E1 & E2 & E3 & E4). pose proof f_mbits. pose proof (pow_p F 1 ltac:(lia)) as P1.
  assert (v = konst sn (e + EBIAS F) (m - 2 ^ p)) as ->.
  { unfold v, build, HIDDEN_BIT, MBIT. rewrite ldiff_top by lia. rewrite !Z.mod_small by lia. done. }
  destruct (konst_spec sn (e + EBIAS F) (m - 2 ^ p)) as (? & ? & -> & ?); [lia|lia|]. split_and!; try done. f_equal; [lia|]. f_equal. lia.
Qed.
Lemma correct_is c v sn a : wf F v → finite F v = true → ival F v = a → sign v = sn → correct F c (Some (v, c)) sn a 1.
Proof. intros Hw Hf <- <-. by apply correct_exact. Qed.
Lemma int_mag_spec N x : - 2 ^ (N - 1) ≤ x < 2 ^ (N - 1) → int_mag N x = Z.abs x.
Proof. intros Hx. unfold int_mag. zbool; lia. Qed.

Lemma shunt_loop (n : nat) : ∀ fuel o e A B, (n < fuel)%nat → 2 ^ (p + 3) ≤ o < 2 ^ (p + 4) * 2 ^ Z.of_nat n → 0 < B → odd_round o A B →
  ∃ o' j, loop fuel (λ '(m, e), if truthy (m .>> (p + 1 + 3)) then inl (srs1 m, e + 1) else inr (m, e)) (o, e) = Some (o', e + j) ∧
    0 ≤ j ∧ 2 ^ (p + 3) ≤ o' < 2 ^ (p + 4) ∧ odd_round o' A (B * 2 ^ j).
Proof.
  pose proof f_mbits. pose proof (pow_p F 4 ltac:(lia)) as E4. pose proof (pow_p F 3 ltac:(lia)) as E3. assert (0 < 2 ^ p) by lia.
  induction n as [|n IH]; intros [|fuel] o e A B Hf Ho HB Hr; try lia; cbn [loop]; replace (p + 1 + 3) with (p + 4) by lia; rewrite Z.shiftr_div_pow2 by lia.
  - rewrite Z.div_small by lia. cbn. exists o, 0. rewrite Z.add_0_r, Z.mul_1_r. split_and!; try done; lia.
  - rewrite Nat2Z.inj_succ, Z.pow_succ_r in Ho by lia. destruct (decide (o < 2 ^ (p + 4))) as [Hlt|Hge].
    { rewrite Z.div_small by lia. cbn. exists o, 0. rewrite Z.add_0_r, Z.mul_1_r. split_and!; try done; lia. }
    assert (truthy (o / 2 ^ (p + 4)) = true) as -> by (apply truthy_spec; assert (1 ≤ o / 2 ^ (p + 4)) by (apply Z.div_le_lower_bound; lia); lia).
    destruct (IH fuel (srs1 o) (e + 1) A (B * 2)) as (o' & j & El & Hj & Hr' & Ho'); [lia| |lia|apply srs1_odd; [lia|done|by apply odd_near4]|].
    { rewrite srs1_value by lia. change (2 ^ 1) with 2. set (T := 2 ^ (p + 4) * 2 ^ Z.of_nat n) in *.
      assert (o < 2 * T) as HT by lia. assert (∃ t, T = 2 * t) as [t Et] by (exists (2 ^ (p + 3) * 2 ^ Z.of_nat n); unfold T; rewrite E4, E3; ring).
      clearbody T. clear -Ho Hge HT Et E3 E4. destruct (_ =? 0); Z.div_mod_to_equations; lia. }
    replace (p + 1 + 3) with (p + 4) in El by lia. exists o', (j + 1). rewrite El. split; [do 2 f_equal; lia|]. split; [lia|]. split; [done|].
    replace (B * 2 ^ (j + 1)) with (B * 2 * 2 ^ j) by (rewrite Z.pow_add_r by lia; ring). done.
Qed.

Theorem from_int_correct G `{!Format G} N c x :
  MBITS F + 8 ≤ W G → 1 ≤ N ≤ 64 → nod c = false → - 2 ^ (N - 1) ≤ x < 2 ^ (N - 1) →
  if x =? 0 then from_int F G N c x = Some (fzero F false, CLEARCX c)
  else correct F (CLEARCX c) (from_int F G N c x) (x <? 0) (Z.abs x * one_units) 1.
Proof.
  intros HG HN Hc Hx. unfold from_int. destruct (Z.eqb_spec x 0) as [->|Hx0]; [done|].
  destruct ((x =? 1) || (x =? -1)) eqn:E1.
  { destruct (fone_spec (x <? 0)) as (Hw & Hf & Hv & Hs). assert (Z.abs x = 1) as -> by (apply orb_true_iff in E1 as [E|E]; apply Z.eqb_eq in E; lia).
    rewrite Z.mul_1_l. by apply correct_is. }
  destruct ((x =? 10) || (x =? -10)) eqn:E2.
  { destruct (ften_spec (x <? 0)) as (Hw & Hf & Hv & Hs). assert (Z.abs x = 10) as -> by (apply orb_true_iff in E2 as [E|E]; apply Z.eqb_eq in E; lia).
    by apply correct_is. }
  rewrite int_mag_spec by done. pose proof (@f_mbits F _). pose proof emin_neg. pose proof (pow_p F 4 ltac:(lia)) as P4. pose proof (pow_p F 3 ltac:(lia)) as P3.
  set (a := Z.abs x) in *. assert (0 < a ≤ 2 ^ 63) as Ha by (assert (2 ^ (N - 1) ≤ 2 ^ 63) by (apply Z.pow_le_mono_r; lia); lia).
  replace (p + 1 + 3) with (p + 4) by lia. rewrite Z.shiftr_div_pow2 by lia. destruct (decide (a < 2 ^ (p + 4))) as [Hlt|Hge].
  - rewrite Z.div_small by lia. cbn [truthy Z.eqb negb]. replace (p + 4) with (p + 3 + 1) in Hlt by lia.
    destruct (normalise_spec G (p + 3) a (p + 3)) as (j & Hj & -> & Hr); [lia|lia|]. cbn [mbind option_bind].
    destruct (NORMRET_spec F (CLEARCX c) (x <? 0) (p + 3 - j) (a * 2 ^ j) (a * one_units) 1) as (v & X & -> & Hv); [done| |by exists v, X].
    apply (formattable_intro F (p + 3) _ _ (a * 2 ^ j) 1); try lia; [by replace (p + 4) with (p + 3 + 1) by lia|left; lia|].
    unfold one_units. change 8 with (2 ^ 3). rewrite !Z.mul_1_r, <-!Z.mul_assoc, <-!Z.pow_add_r by lia. rewrite Z.mul_assoc, (Z.mul_comm (2 ^ 3)), <-Z.mul_assoc, <-Z.pow_add_r by lia. do 2 f_equal. lia.
  - assert (truthy (a / 2 ^ (p + 4)) = true) as -> by (apply truthy_spec; assert (1 ≤ a / 2 ^ (p + 4)) by (apply Z.div_le_lower_bound; lia); lia).
    destruct (shunt_loop 63 64 a (p + 3) a 1) as (o' & j & El & Hj & Hr & Ho); [lia|split; [lia|change (Z.of_nat 63) with 63; nia]|lia|left; lia|].
    unfold shunt. rewrite El. cbn [mbind option_bind].
    destruct (NORMRET_spec F (CLEARCX c) (x <? 0) (p + 3 + j) o' (a * one_units) 1) as (v & X & -> & Hv); [done| |by exists v, X].
    rewrite Z.mul_1_l in Ho. apply (formattable_intro F 0 _ _ a (2 ^ j)); try lia; [by apply odd_near4; [lia|]|].
    unfold one_units. change 8 with (2 ^ 3). replace (p + 3 + j - EMIN F + 0) with (p - EMIN F + 3 + j) by lia. rewrite !Z.pow_add_r by lia. ring.
Qed.

(** dp_fint builds the number itself: always exact. *)
Theorem from_int_exact_correct N c x :
  1 ≤ N ≤ p + 1 → p ≤ EMAX F → - 2 ^ (N - 1) ≤ x < 2 ^ (N - 1) →
  ∃ v, from_int_exact F N c x = Some (v, CLEARCX c) ∧ wf F v ∧ finite F v = true ∧ val F v = x * one_units.
Proof.
  intros HN HM Hx. unfold from_int_exact. destruct (Z.eqb_spec x 0) as [->|Hx0].
  { destruct (fzero_spec false) as (? & ? & Hv & _). eexists. split; [done|]. split_and!; try done. }
  destruct ((x =? 1) || (x =? -1)) eqn:E1.
  { destruct (fone_spec (x <? 0)) as (Hw & Hf & Hv & Hs). eexists. split; [done|]. split_and!; try done. unfold val. rewrite Hv, Hs.
    apply orb_true_iff in E1 as [E| E]; apply Z.eqb_eq in E; subst x; cbn; lia. }
  destruct ((x =? 10) || (x =? -10)) eqn:E2.
  { destruct (ften_spec (x <? 0)) as (Hw & Hf & Hv & Hs). eexists. split; [done|]. split_and!; try done. unfold val. rewrite Hv, Hs.
    apply orb_true_iff in E2 as [E| E]; apply Z.eqb_eq in E; subst x; cbn; lia. }
  rewrite int_mag_spec by done. pose proof f_mbits. pose proof f_width. pose proof emin_neg. pose proof (pow_p F 1 ltac:(lia)) as P1.
  assert (2 ^ (N - 1) ≤ 2 ^ p) by (apply Z.pow_le_mono_r; lia). destruct (normalise_spec F p (Z.abs x) p) as (j & Hj & -> & Hr); [lia|lia|]. cbn [mbind option_bind].
  destruct (build_normal (x <? 0) (p - j) (Z.abs x * 2 ^ j)) as (Hw & Hf & Hv & Hs); [done|lia|]. eexists. split; [done|]. split; [done|]. split; [done|].
  unfold val. rewrite Hv, Hs, <-Z.mul_assoc, <-Z.pow_add_r by lia. replace (j + (p - j - EMIN F)) with (p - EMIN F) by lia. unfold one_units. destruct (Z.ltb_spec x 0); lia.
Qed.
End from.

(** ** Conversions to integers *)
Section to.
Context (F : format) `{!Format F}.
Abbreviation p := (MBITS F).

(** The value of the components, without normalising. *)
Lemma explode_value x : wf F x → finite F x = true → ival F x ≠ 0 →
  let k := EXPLODE F x in
  (vc k = NORM ∧ 2 ^ p ≤ vm k ∨ vc k = DNORM ∧ ve k = EMIN F ∧ ival F x < 2 ^ p) ∧ vs k = sign x ∧ EMIN F ≤ ve k ≤ EMAX F ∧ 0 < vm k < 2 ^ (p + 1) ∧
  vm k * 2 ^ (ve k - EMIN F) = ival F x.
Proof.
  intros Hw Hf H0 k. pose proof (finite_spec F x Hw Hf) as Hb. destruct Hw as [Hbe Hm]. destruct (exp_range F) as (E1 & E2 & E3 & E4). pose proof (pow_p F 1 ltac:(lia)) as P1.
  pose proof f_mbits. pose proof (K_pos F). unfold k, EXPLODE. unfold finite in Hf. apply negb_true_iff in Hf. rewrite Hf, E1. unfold ival in *. destruct (Z.eqb_spec (bexp x) 0) as [E0|E0].
  - assert (truthy (mant x) = true) as -> by (by apply truthy_spec). cbn [vc vs ve vm]. rewrite Z.sub_diag, Z.mul_1_r. split_and!; try lia; [right; split_and!; [done|done|lia]|done].
  - assert (mant x .| HIDDEN_BIT F = mant x + 2 ^ p) as Eh by (unfold HIDDEN_BIT, MBIT; rewrite <-(Z.mul_1_l (2 ^ p)); apply lor_add_field; lia).
    cbn [vc vs ve vm]. rewrite Eh. replace (bexp x - EBIAS F - EMIN F) with (bexp x - 1) by lia. split_and!; try lia; [left; split; [done|lia]|done].
Qed.
Lemma explode_zero x : wf F x → finite F x = true → ival F x = 0 → vc (EXPLODE F x) = ZERO.
Proof.
  intros Hw Hf H0. destruct (finite_operand F x Hw Hf) as [_ [(-> & _)|[(_ & H)|(_ & k & _ & _ & H)]]]; [done|pose proof (opd_pos F _ _ H); lia..].
Qed.

Lemma residue1_spec xm xe : -1 ≤ xe ≤ p → residue1 F xm xe = xm `mod` 2 ^ (p - xe) * 2 ^ (W F - (p - xe)).
Proof.
  intros He. pose proof f_width. unfold residue1, uw. rewrite Z.shiftl_mul_pow2 by lia.
  replace (2 ^ W F) with (2 ^ (p - xe) * 2 ^ (W F - (p - xe))) by (rewrite <-Z.pow_add_r by lia; f_equal; lia).
  replace (W F - p + xe) with (W F - (p - xe)) by lia. apply Z.mul_mod_distr_r; apply Z.pow_nonzero; lia.
Qed.
Lemma residue2_spec xm xe : -1 ≤ xe ≤ p → residue2 F xm xe = residue1 F xm xe.
Proof.
  intros He. pose proof f_width. unfold residue1, residue2, uw. rewrite !Z.shiftl_mul_pow2 by lia.
  rewrite Z.mul_mod_idemp_l, <-Z.mul_assoc, <-Z.pow_add_r by lia. do 3 f_equal. lia.
Qed.

(** The three parts of the mantissa, for a residue that agrees with [residue1]. *)
Lemma int_split_spec res xm xe : 0 ≤ xm < 2 ^ (p + 1) → xe ≤ p → (∀ m e, -1 ≤ e ≤ p → res m e = residue1 F m e) →
  let D := 2 ^ (p - xe) in
  int_split F res xm xe = (D <=? 2 * (xm `mod` D), negb (2 * (xm `mod` D) =? 0) && negb (2 * (xm `mod` D) =? D), xm / D).
Proof.
  intros Hm He Hres D. pose proof f_width. pose proof f_mbits. unfold int_split. destruct (Z.ltb_spec xe (-1)) as [Hlt|Hge].
  - assert (2 ^ (p + 2) ≤ D) as HD by (apply Z.pow_le_mono_r; lia). pose proof (pow_p F 2 ltac:(lia)). pose proof (pow_p F 1 ltac:(lia)).
    rewrite Z.div_small, Z.mod_small by lia. destruct (Z.leb_spec D (2 * xm)); [lia|]. unfold truthy. destruct (Z.eqb_spec xm 0), (Z.eqb_spec (2 * xm) 0), (Z.eqb_spec (2 * xm) D); cbn; try done; lia.
  - cbv zeta. rewrite Hres, residue1_spec, Z.shiftr_div_pow2 by lia. fold D. set (u := W F - (p - xe)). assert (0 < D) as HD by (apply Z.pow_pos_nonneg; lia).
    assert (2 ^ W F = D * 2 ^ u) as EW by (unfold D; rewrite <-Z.pow_add_r by (unfold u; lia); f_equal; unfold u; lia).
    assert (2 ^ W F = 2 * 2 ^ (W F - 1)) as EW1 by (rewrite <-Z.pow_succ_r by lia; f_equal; lia). assert (0 < 2 ^ u) as Hu by (apply Z.pow_pos_nonneg; unfold u; lia).
    pose proof (Z.mod_pos_bound xm D HD) as Hr. set (r := xm `mod` D) in *. f_equal; [f_equal|by rewrite Z.shiftr_div_pow2 by lia].
    + destruct (Z.leb_spec D (2 * r)) as [Hle|Hlt].
      * apply truthy_spec. assert (1 ≤ r * 2 ^ u / 2 ^ (W F - 1)); [|lia]. apply Z.div_le_lower_bound; [lia|]. nia.
      * apply truthy_spec0. apply Z.div_small. nia.
    + unfold uw. rewrite Z.shiftl_mul_pow2, EW by lia. replace (r * 2 ^ u * 2 ^ 1) with ((2 * r) * 2 ^ u) by ring. rewrite Z.mul_mod_distr_r by lia.
      unfold truthy. assert ((2 * r) `mod` D = if D <=? 2 * r then 2 * r - D else 2 * r) as ->.
      { destruct (Z.leb_spec D (2 * r)); [|apply Z.mod_small; lia]. symmetry. apply (Z.mod_unique _ _ 1); lia. }
      destruct (Z.leb_spec D (2 * r)), (Z.eqb_spec (2 * r) 0), (Z.eqb_spec (2 * r) D); cbn [andb negb]; try lia; first [apply negb_true_iff, Z.eqb_neq; nia|apply negb_false_iff, Z.eqb_eq; nia].
Qed.
Lemma int_round_spec c xs xm D : 0 < D → 0 ≤ xm → let r := xm `mod` D in
  int_round c xs (D <=? 2 * r) (negb (2 * r =? 0) && negb (2 * r =? D)) (xm / D) = Rint (dir_of (rm c) xs) xm D ∧
  (D <=? 2 * r) || (negb (2 * r =? 0) && negb (2 * r =? D)) = negb (bool_decide (Rint (dir_of (rm c) xs) xm D * D = xm)).
Proof.
  intros HD Hm r. pose proof (Z.mod_pos_bound xm D HD) as Hr. fold r in Hr. split.
  - unfold int_round, Rint. fold r. assert (truthy ((xm / D) .& 1) = Z.odd (xm / D)) as -> by (change 1 with (1 .<< 0); rewrite land_bit by lia; apply Z.bit0_odd).
    destruct (rm c), xs; cbn [dir_of negb andb]; rewrite ?andb_false_r, ?andb_true_r; try done;
      destruct (Z.leb_spec D (2 * r)), (Z.eqb_spec (2 * r) 0), (Z.eqb_spec (2 * r) D), (Z.ltb_spec D (2 * r)), (Z.eqb_spec r 0), (Z.odd (xm / D)); cbn; try done; lia.
  - pose proof (Rint_exact (dir_of (rm c) xs) xm D HD) as He. fold r in He. destruct (bool_decide_reflect (Rint (dir_of (rm c) xs) xm D * D = xm)) as [E|E].
    + apply He in E. rewrite E. change (2 * 0) with 0. destruct (Z.leb_spec D 0); [lia|done].
    + assert (r ≠ 0) by (by rewrite <-He). destruct (Z.leb_spec D (2 * r)), (Z.eqb_spec (2 * r) 0), (Z.eqb_spec (2 * r) D); cbn; try done; lia.
Qed.
(** What a conversion to an [N]-bit integer promises: the value rounded to an
    integer, or the largest integer and invalid operation if it does not fit. *)
Definition int_spec (N : Z) (c : csr) (x : fl) : Z * csr :=
  let n := Rint (dir_of (rm c) (sign x)) (ival F x) (one_units F) in
  let r := signed (sign x) n in
  if bool_decide (- 2 ^ (N - 1) ≤ r < 2 ^ (N - 1)) then
    (r, if bool_decide (n * one_units F = ival F x) then CLEARCX c else SETCX (CLEARCX c) INEXACT)
  else (si_indef N, SETCX (CLEARCX c) INVALID_OPERATION).

Lemma Rint_int d n D : 0 < D → Rint d (n * D) D = n.
Proof. intros HD. assert (Rint d (n * D) D * D = n * D) as E; [|nia]. apply Rint_exact; [done|]. apply Z.mod_mul. lia. Qed.
Lemma one_units_pos : 0 < one_units F.
Proof. pose proof (emin_neg F). pose proof f_mbits. apply Z.pow_pos_nonneg; lia. Qed.
(** The mantissa as an integer, or as a fraction. *)
Lemma units_int d x xm xe : p ≤ xe → xm * 2 ^ (xe - EMIN F) = ival F x →
  Rint d (ival F x) (one_units F) = xm * 2 ^ (xe - p) ∧ xm * 2 ^ (xe - p) * one_units F = ival F x.
Proof.
  intros He Hv. pose proof (emin_neg F). pose proof f_mbits. assert (xm * 2 ^ (xe - p) * one_units F = ival F x) as E.
  { rewrite <-Hv. unfold one_units. rewrite <-Z.mul_assoc, <-Z.pow_add_r by lia. do 2 f_equal. lia. }
  split; [|done]. rewrite <-E. apply Rint_int, one_units_pos.
Qed.
Lemma units_frac d x xm xe : EMIN F ≤ xe ≤ p → xm * 2 ^ (xe - EMIN F) = ival F x → let n := Rint d xm (2 ^ (p - xe)) in
  Rint d (ival F x) (one_units F) = n ∧ (n * one_units F = ival F x ↔ n * 2 ^ (p - xe) = xm).
Proof.
  intros He Hv n. assert (0 < 2 ^ (xe - EMIN F)) as H0 by (apply Z.pow_pos_nonneg; lia). assert (0 < 2 ^ (p - xe)) as H1 by (apply Z.pow_pos_nonneg; lia).
  assert (one_units F = 2 ^ (xe - EMIN F) * 2 ^ (p - xe)) as Eu by (unfold one_units; rewrite <-Z.pow_add_r by lia; f_equal; lia).
  split; [rewrite <-Hv, Eu, Z.mul_comm; by apply Rint_scale|]. rewrite <-Hv, Eu. split; intros E; nia.
Qed.
Lemma sw_small N r : 1 ≤ N → - 2 ^ (N - 1) ≤ r < 2 ^ (N - 1) → sw N r = r.
Proof.
  intros HN Hr. unfold sw. assert (2 ^ N = 2 * 2 ^ (N - 1)) as E by (rewrite <-Z.pow_succ_r by lia; f_equal; lia). rewrite Z.mod_small; lia.
Qed.
Lemma Rint_zero d : Rint d 0 (one_units F) = 0.
Proof. rewrite <-(Z.mul_0_l (one_units F)) at 1. apply Rint_int, one_units_pos. Qed.
Lemma int_spec_zero N c x : 1 ≤ N → ival F x = 0 → int_spec N c x = (0, CLEARCX c).
Proof.
  intros HN H0. unfold int_spec. rewrite H0, Rint_zero. assert (signed (sign x) 0 = 0) as -> by (by destruct (sign x)).
  assert (0 < 2 ^ (N - 1)) by (apply Z.pow_pos_nonneg; lia). rewrite bool_decide_true by lia. by rewrite bool_decide_true.
Qed.

(** What the branch with a fraction returns, the late check of dp_tint included. *)
Lemma int_fraction N c x res xm xe (late : bool) :
  1 ≤ N → 0 ≤ xm < 2 ^ (p + 1) → EMIN F ≤ xe ≤ p → (∀ m e, -1 ≤ e ≤ p → res m e = residue1 F m e) → xm * 2 ^ (xe - EMIN F) = ival F x →
  (late = false → p + 2 < N) →
  (let '(rnd, sticky, m) := int_split F res xm xe in
   let m := int_round (CLEARCX c) (sign x) rnd sticky m in
   if negb ((m .>> (N - 1)) =? 0) && (if late then negb (sign x) || negb (m =? 2 ^ (N - 1)) else true)
   then (si_indef N, SETCX (CLEARCX c) INVALID_OPERATION)
   else (sw N (if sign x then - m else m), if rnd || sticky then SETCX (CLEARCX c) INEXACT else CLEARCX c)) = int_spec N c x.
Proof.
  intros HN Hm He Hres Hv Hlate. pose proof f_mbits. rewrite (int_split_spec res) by (done || lia). set (D := 2 ^ (p - xe)). assert (0 < D) as HD by (apply Z.pow_pos_nonneg; lia). cbv zeta.
  destruct (int_round_spec (CLEARCX c) (sign x) xm D HD (proj1 Hm)) as [Er Ei]. rewrite Er, Ei. clear Er Ei.
  destruct (units_frac (dir_of (rm c) (sign x)) x xm xe He Hv) as [En Ex]. fold D in En, Ex. unfold int_spec. rewrite En. change (rm (CLEARCX c)) with (rm c).
  set (n := Rint (dir_of (rm c) (sign x)) xm D) in *. rewrite (bool_decide_ext _ _ Ex).
  assert (0 ≤ n ≤ 2 ^ (p + 1)) as Hn.
  { pose proof (Rint_le (dir_of (rm c) (sign x)) xm D HD) as Hle. fold n in Hle. pose proof (Z.div_pos xm D ltac:(lia) HD). assert (xm / D < 2 ^ (p + 1)) by (apply Z.div_lt_upper_bound; nia). lia. }
  assert (0 < 2 ^ (N - 1)) as HP by (apply Z.pow_pos_nonneg; lia). rewrite Z.shiftr_div_pow2 by lia.
  assert (negb (n / 2 ^ (N - 1) =? 0) = (2 ^ (N - 1) <=? n)) as ->.
  { destruct (Z.leb_spec (2 ^ (N - 1)) n); [|by rewrite Z.div_small by lia]. apply negb_true_iff, Z.eqb_neq. assert (1 ≤ n / 2 ^ (N - 1)) by (apply Z.div_le_lower_bound; lia). lia. }
  assert (late = false → n < 2 ^ (N - 1)) as Hl.
  { intros E. specialize (Hlate E). assert (2 ^ (p + 2) ≤ 2 ^ (N - 1)) by (apply Z.pow_le_mono_r; lia). pose proof (pow_p F 2 ltac:(lia)). pose proof (pow_p F 1 ltac:(lia)). lia. }
  set (over := (2 ^ (N - 1) <=? n) && _). destruct (bool_decide_reflect (- 2 ^ (N - 1) ≤ signed (sign x) n < 2 ^ (N - 1))) as [Hr|Hr]; unfold signed in Hr.
  - assert (over = false) as ->.
    { unfold over. destruct (Z.leb_spec (2 ^ (N - 1)) n); [|done]. destruct late; [|specialize (Hl eq_refl); lia].
      destruct (sign x); cbn; [destruct (Z.eqb_spec n (2 ^ (N - 1))); [done|lia]|lia]. }
    rewrite sw_small by (done || by destruct (sign x)). unfold signed. by destruct (bool_decide _).
  - assert (over = true) as ->; [|done]. unfold over. destruct (Z.leb_spec (2 ^ (N - 1)) n); [|destruct (sign x); lia]. destruct late; [|done].
    destruct (sign x); [|done]. cbn. destruct (Z.eqb_spec n (2 ^ (N - 1))); [lia|done].
Qed.

(** Both ways to convert, on the components of a finite number. *)
Lemma to_int_finite_spec N res whole c x xe xm :
  p + 2 < N → (∀ m e, -1 ≤ e ≤ p → res m e = residue1 F m e) → EMIN F ≤ xe → 0 < xm < 2 ^ (p + 1) → 2 ^ p ≤ xm ∨ xe = EMIN F →
  xm * 2 ^ (xe - EMIN F) = ival F x → to_int_finite F N res whole (CLEARCX c) (sign x) xe xm = int_spec N c x.
Proof.
  intros HN Hres He Hm Hn Hv. pose proof f_mbits. pose proof (emin_neg F). unfold to_int_finite.
  assert (2 ^ (N - 1) = 2 ^ p * 2 ^ (N - 1 - p)) as EN by (rewrite <-Z.pow_add_r by lia; f_equal; lia). pose proof (pow_p F 1 ltac:(lia)) as P1.
  assert (0 < 2 ^ p ∧ 0 < 2 ^ (N - 1 - p)) as [] by (split; apply Z.pow_pos_nonneg; lia). destruct (Z.leb_spec (N - 1) xe) as [Hbig|Hsmall].
  - destruct (units_int (dir_of (rm c) (sign x)) x xm xe ltac:(lia) Hv) as [En Ex]. unfold int_spec. rewrite En, Ex, (bool_decide_true (ival F x = ival F x)) by done.
    assert (2 ^ (N - 1 - p) ≤ 2 ^ (xe - p)) by (apply Z.pow_le_mono_r; lia). destruct (Z.eqb_spec xe (N - 1)) as [->|Hne]; cbn [andb].
    + destruct (sign x); cbn [andb]; unfold signed; [|rewrite bool_decide_false by nia; done]. unfold HIDDEN_BIT, MBIT.
      destruct (Z.eqb_spec xm (2 ^ p)) as [->|Hx]; [rewrite bool_decide_true by nia; f_equal; nia|rewrite bool_decide_false by nia; done].
    + assert (2 * 2 ^ (N - 1 - p) ≤ 2 ^ (xe - p)) by (rewrite <-Z.pow_succ_r by lia; apply Z.pow_le_mono_r; lia).
      rewrite bool_decide_false; [done|]. unfold signed. destruct (sign x); nia.
  - destruct (Z.ltb_spec p xe) as [Hgt|Hle].
    + destruct (units_int (dir_of (rm c) (sign x)) x xm xe ltac:(lia) Hv) as [En Ex]. unfold int_spec. rewrite En, Ex, (bool_decide_true (ival F x = ival F x)) by done.
      assert (2 * 2 ^ (xe - p) ≤ 2 ^ (N - 1 - p)) by (rewrite <-Z.pow_succ_r by lia; apply Z.pow_le_mono_r; lia). assert (0 < 2 ^ (xe - p)) by (apply Z.pow_pos_nonneg; lia).
      assert (2 ^ N = 2 * 2 ^ (N - 1)) by (rewrite <-Z.pow_succ_r by lia; f_equal; lia). assert (0 < xm * 2 ^ (xe - p) < 2 ^ (N - 1)) as Hr by (split; nia).
      rewrite bool_decide_true by (unfold signed; destruct (sign x); lia). unfold int_ret. rewrite Z.shiftl_mul_pow2, Z.mod_small by lia.
      rewrite sw_small; [done|lia|destruct (sign x); lia].
    + pose proof (int_fraction N c x res xm xe false ltac:(lia) ltac:(lia) ltac:(lia) Hres Hv ltac:(lia)) as Hf. destruct (whole || (xe <? p)) eqn:Ew.
      * unfold int_ret, int_invalid. rewrite <-Hf. destruct (int_split F res xm xe) as [[rnd sticky] m]. cbv beta iota zeta. by rewrite andb_true_r.
      * apply orb_false_iff in Ew as [_ Ew]. apply Z.ltb_ge in Ew. assert (xe = p) as -> by lia.
        destruct (units_int (dir_of (rm c) (sign x)) x xm p ltac:(lia) Hv) as [En Ex]. rewrite Z.sub_diag, Z.mul_1_r in En, Ex. unfold int_spec. rewrite En, Ex, (bool_decide_true (ival F x = ival F x)) by done.
        assert (2 ^ 1 ≤ 2 ^ (N - 1 - p)) by (apply Z.pow_le_mono_r; lia). rewrite bool_decide_true by (unfold signed; destruct (sign x); nia). unfold int_ret. rewrite sw_small; [done|lia|destruct (sign x); nia].
Qed.
Lemma to_int_late_spec N c x xe xm :
  1 ≤ N ≤ p → EMIN F ≤ xe → 0 < xm < 2 ^ (p + 1) → 2 ^ p ≤ xm ∨ xe = EMIN F →
  xm * 2 ^ (xe - EMIN F) = ival F x → to_int_late F N (CLEARCX c) (sign x) xe xm = int_spec N c x.
Proof.
  intros HN He Hm Hn Hv. pose proof f_mbits. pose proof (emin_neg F). unfold to_int_late. destruct (Z.ltb_spec (N - 1) xe) as [Hbig|Hsmall].
  - assert (2 ^ p ≤ xm) as Hp by lia. set (n := Rint (dir_of (rm c) (sign x)) (ival F x) (one_units F)). assert (2 ^ N ≤ n) as Hle.
    { unfold n. transitivity (ival F x / one_units F); [|apply Rint_le, one_units_pos]. apply Z.div_le_lower_bound; [apply one_units_pos|]. rewrite <-Hv. unfold one_units.
      rewrite <-Z.pow_add_r by lia. transitivity (2 ^ p * 2 ^ (xe - EMIN F)); [|apply Z.mul_le_mono_nonneg_r; lia]. rewrite <-Z.pow_add_r by lia. apply Z.pow_le_mono_r; lia. }
    unfold int_spec. fold n. assert (2 ^ N = 2 * 2 ^ (N - 1)) by (rewrite <-Z.pow_succ_r by lia; f_equal; lia).
    rewrite bool_decide_false; [done|]. unfold signed. destruct (sign x); lia.
  - destruct (Z.ltb_spec p xe); [lia|]. destruct (Z.ltb_spec xe p); [|lia].
    pose proof (int_fraction N c x (residue1 F) xm xe true ltac:(lia) ltac:(lia) ltac:(lia) ltac:(done) Hv ltac:(done)) as Hf.
    unfold int_ret, int_invalid. rewrite <-Hf. by destruct (int_split F (residue1 F) xm xe) as [[rnd sticky] m].
Qed.

Lemma to_int_lift N conv c x :
  1 ≤ N → nod c = false → wf F x → finite F x = true →
  (∀ xe xm, EMIN F ≤ xe → 0 < xm < 2 ^ (p + 1) → 2 ^ p ≤ xm ∨ xe = EMIN F → xm * 2 ^ (xe - EMIN F) = ival F x →
    conv (CLEARCX c) (sign x) xe xm = int_spec N c x) →
  to_int F N conv c x = int_spec N c x.
Proof.
  intros HN Hc Hw Hf Hconv. unfold to_int. rewrite FLUSH_off by done. destruct (decide (ival F x = 0)) as [H0|H0].
  { rewrite int_spec_zero by done. by rewrite (explode_zero x). }
  destruct (explode_value x Hw Hf H0) as (Hcl & Hs & He & Hm & Hv). rewrite Hs. rewrite Hconv; [|lia|lia|tauto|done]. by destruct Hcl as [[-> _]|[-> _]].
Qed.
(** NaN and infinity. *)
Lemma to_int_special N conv c x : finite F x = false → to_int F N conv c x = int_invalid N (CLEARCX c).
Proof.
  intros Hf. unfold to_int, FLUSH, EXPLODE. unfold finite in Hf. apply negb_false_iff in Hf. rewrite Hf. cbn. by destruct (mant x =? 0), (truthy (mant x .& MBIT (p - 1))).
Qed.
End to.

(** ** Between the formats *)
Section exactness.
Context (F : format) `{!Format F}.
Lemma ival_inj x y : wf F x → wf F y → sign x = sign y → ival F x = ival F y → x = y.
Proof.
  intros Hx Hy Hs Hv. pose proof (mag_ival F x y Hx Hy) as Hc. rewrite Hv, Z.compare_refl in Hc. apply Z.compare_eq_iff in Hc. destruct (word_width F) as (_ & _ & ?).
  destruct x as [sx bx mx], y as [sy by_ my], Hx as [_ Hx], Hy as [_ Hy]. unfold mag in Hc. cbn in *. assert (bx = by_) as -> by nia. assert (mx = my) as -> by lia. by rewrite Hs.
Qed.
(** A representable value rounds to itself. *)
Lemma rounded_representable r x D v : 0 < D → wf F x → finite F x = true → rounded F r (sign x) (ival F x * D) D v → v = x.
Proof.
  intros HD Hw Hf (Hwv & Hsv & Hr). apply ival_inj; [done..|]. pose proof (ival_max F x Hw Hf) as Hmax.
  assert (0 < top_ulp F) by (pose proof (K_pos F); unfold top_ulp; lia). pose proof (ival_nonneg F x Hw). destruct (dir_of r (sign x)).
  - destruct (finite F v) eqn:Hfv; [|destruct Hr; nia]. destruct Hr as [_ Hr]. specialize (Hr x Hw Hf). rewrite Z.sub_diag in Hr. cbn in Hr. nia.
  - destruct Hr as (_ & Hle & Hr). specialize (Hr x Hw Hf ltac:(lia)). nia.
  - destruct (finite F v) eqn:Hfv; destruct Hr as [Hle Hr]; [specialize (Hr x Hw Hf ltac:(lia)); nia|specialize (Hr x Hw Hf); lia].
Qed.
End exactness.

(** The unit of the double precision numbers in that of the single precision ones. *)
Definition unit_ratio : Z := 2 ^ 925.
Lemma ldiff_hidden m : 2 ^ 23 ≤ m < 2 ^ 24 → Z.ldiff m (HIDDEN_BIT SP) = m - 2 ^ 23.
Proof. intros Hm. apply (ldiff_top m 23); lia. Qed.

Theorem fsp_exact c x :
  nod c = false → wf SP x → finite SP x = true →
  ∃ y, ieee754dp_fsp c x = Some (y, CLEARCX c) ∧ wf DP y ∧ finite DP y = true ∧ sign y = sign x ∧ ival DP y = ival SP x * unit_ratio.
Proof.
  intros Hc Hw Hf. unfold ieee754dp_fsp. rewrite FLUSH_off by done.
  assert (∀ m e s, 2 ^ 23 ≤ m < 2 ^ 24 → -149 ≤ e ≤ 127 → (∀ h, 23 ≤ h → m * 2 ^ (e - -126 + h) = ival SP x * 2 ^ h) →
    let y := build DP s (e + EBIAS DP) (uw DP (Z.ldiff m (HIDDEN_BIT SP) .<< (MBITS DP - MBITS SP))) in
    wf DP y ∧ finite DP y = true ∧ sign y = s ∧ ival DP y = ival SP x * unit_ratio) as Hb.
  { intros m e s Hm He Hv y. assert (y = konst s (e + 1023) ((m - 2 ^ 23) * 2 ^ 29)) as ->.
    { unfold y, build, uw. rewrite ldiff_hidden by done. cbn [MBITS DP SP EBIAS W EBITS]. change (52 - 23) with 29.
      rewrite Z.shiftl_mul_pow2 by lia. rewrite (Z.mod_small (e + 1023)), (Z.mod_small ((m - 2 ^ 23) * 2 ^ 29) (2 ^ 64)), (Z.mod_small ((m - 2 ^ 23) * 2 ^ 29) (2 ^ 52)) by lia. done. }
    destruct (konst_spec DP s (e + 1023) ((m - 2 ^ 23) * 2 ^ 29)) as (? & ? & -> & ?); [cbn; lia|cbn; lia|]. split_and!; try done.
    specialize (Hv 925 ltac:(lia)). unfold unit_ratio. rewrite <-Hv. cbn [MBITS DP]. replace ((m - 2 ^ 23) * 2 ^ 29 + 2 ^ 52) with (m * 2 ^ 29) by lia.
    rewrite <-Z.mul_assoc, <-Z.pow_add_r by lia. do 2 f_equal. lia. }
  destruct (finite_operand SP x Hw Hf) as [Es [(-> & H0 & _)|[(-> & [Hm He Hv])|(Hcl & k & Hk & Hs & [Hm He Hv])]]].
  - destruct (fzero_spec DP (sign x)) as (? & ? & E0 & ?). rewrite Es, H0. eexists. split; [done|]. split_and!; done.
  - destruct (Hb _ _ (vs (EXPLODE SP x)) Hm He Hv) as (? & ? & ? & ?). rewrite <-Es. eexists. split; [done|]. split_and!; done.
  - rewrite Hcl. unfold DNORM_ in Hk. destruct (normalise SP (MBITS SP) (vm (EXPLODE SP x)) (ve (EXPLODE SP x))) as [[m e]|]; [|done]. cbn in Hk. injection Hk as <-. cbn in Hm, He, Hv.
    destruct (Hb m e (vs (EXPLODE SP x)) Hm He Hv) as (? & ? & ? & ?). rewrite <-Es. eexists. split; [done|]. split_and!; done.
Qed.

Lemma fmind_spec sn : wf SP (fmind SP sn) ∧ finite SP (fmind SP sn) = true ∧ ival SP (fmind SP sn) = 1 ∧ sign (fmind SP sn) = sn.
Proof. by destruct sn. Qed.
(** A positive value below half the least number. *)
Lemma tiny_rounded c sn N D : 0 < N → 2 * N < D →
  let v := if bool_decide (rm c = RU) && negb sn || bool_decide (rm c = RD) && sn then fmind SP sn else fzero SP sn in
  rounded SP (rm c) sn N D v ∧ flags SP c N D v (UNDERFLOW .| INEXACT).
Proof.
  intros HN HD v. destruct (fmind_spec sn) as (W1 & F1 & V1 & S1). destruct (fzero_spec SP sn) as (W0 & F0 & V0 & S0).
  assert (1 < huge SP ∧ 0 < top_ulp SP < huge SP) as [Hh Ht] by done. assert (∀ w, wf SP w → 0 ≤ ival SP w) as Hw by (intros; by apply ival_nonneg).
  assert (v = match dir_of (rm c) sn with AwayFromZero => fmind SP sn | _ => fzero SP sn end) as -> by (unfold v; by destruct (rm c), sn).
  split.
  - split; [by destruct (dir_of _ _)|]. split; [by destruct (dir_of _ _)|]. destruct (dir_of (rm c) sn); rewrite ?F0, ?F1, ?V0, ?V1.
    + split; [nia|]. intros w Ww Fw. specialize (Hw w Ww). destruct (decide (ival SP w = 0)) as [->|]; [right; lia|left; nia].
    + split; [done|]. split; [lia|]. intros w Ww Fw Hle. specialize (Hw w Ww). nia.
    + split; [lia|]. intros w Ww Fw Hle. specialize (Hw w Ww). nia.
  - assert (ival SP (match dir_of (rm c) sn with AwayFromZero => fmind SP sn | _ => fzero SP sn end) * D ≠ N) as Hne by (destruct (dir_of _ _); rewrite ?V0, ?V1; lia).
    assert (finite SP (match dir_of (rm c) sn with AwayFromZero => fmind SP sn | _ => fzero SP sn end) = true) as Hfin by (by destruct (dir_of _ _)).
    unfold flags. rewrite Hfin. change (UNDERFLOW .| INEXACT) with 3. split; [lia|]. split; [split; [by right|done]|]. split; [split; [done|intros [?|?]; [done|nia]]|].
    split; [intros _; split; [|by left]|done]. cbn [MBITS SP]. lia.
Qed.

Theorem fdp_correct c x :
  nod c = false → wf DP x → finite DP x = true →
  if ival DP x =? 0 then ieee754sp_fdp c x = (fzero SP (sign x), CLEARCX c)
  else correct SP (CLEARCX c) (Some (ieee754sp_fdp c x)) (sign x) (ival DP x) unit_ratio.
Proof.
  intros Hc Hw Hf. unfold ieee754sp_fdp. rewrite FLUSH_off by done. destruct (Z.eqb_spec (ival DP x) 0) as [H0|H0].
  { rewrite (explode_zero DP x) by done. by destruct (finite_operand DP x Hw Hf) as [-> _]. }
  destruct (explode_value DP x Hw Hf H0) as (Hcl & Hs & He & Hm & Hv). set (k := EXPLODE DP x) in *. cbn [EMIN EMAX MBITS DP] in Hcl, He, Hm, Hv. rewrite Hs.
  destruct Hcl as [[Hcl Hlo]|(Hcl & _ & Hlt)]; rewrite Hcl; cycle 1.
  - rewrite SETCX_SETCX. destruct (tiny_rounded (CLEARCX c) (sign x) (ival DP x) unit_ratio) as [Hr Hfl];
      [pose proof (ival_nonneg DP x Hw); lia|change (2 ^ 52) with 4503599627370496 in Hlt; assert (2 * 4503599627370496 < unit_ratio) by done; lia|].
    change (rm (SETCX (CLEARCX c) (UNDERFLOW .| INEXACT))) with (rm (CLEARCX c)). unfold xcpt. exists (if bool_decide (rm (CLEARCX c) = RU) && negb (sign x) || bool_decide (rm (CLEARCX c) = RD) && sign x then fmind SP (sign x) else fzero SP (sign x)), (UNDERFLOW .| INEXACT).
    split; [by destruct (_ || _)|done].
  - change (MBITS DP - (MBITS SP + 3)) with 26. change (64 - 26) with (W DP - 26). rewrite (sticky_shift DP (vm k) 26) by (cbn; lia).
    pose proof (sticky_range (vm k) 26 26 ltac:(lia) ltac:(lia) ltac:(lia) ltac:(cbn; lia)) as Hr. set (m := if _ =? 0 then _ else _) in *.
    assert (uw SP m = m) as -> by (apply Z.mod_small; cbn in *; lia).
    destruct (NORMRET_spec SP (CLEARCX c) (sign x) (ve k) m (ival DP x) unit_ratio) as (v & X & -> & Hres); [done| |by exists v, X].
    apply (formattable_intro SP 1000 _ _ (vm k) (2 ^ 26)); [done|done|lia|cbn [EMIN SP]; lia|exact Hr| |].
    + apply odd_near4; [done|]. unfold m. rewrite <-(Z.mul_1_l (2 ^ 26)) at 4. apply shift_odd; [lia|lia|by right|left; lia].
    + cbn [EMIN SP]. rewrite <-Hv. unfold unit_ratio. change 8 with (2 ^ 3). rewrite <-!Z.mul_assoc, <-!Z.pow_add_r by lia. rewrite (Z.mul_comm (2 ^ 3)), <-!Z.mul_assoc, <-!Z.pow_add_r by lia. do 2 f_equal. lia.
Qed.

Lemma quiet_bit F `{!Format F} x : 0 ≤ mant x < 2 ^ MBITS F → issnan F x = (2 ^ (MBITS F - 1) <=? mant x).
Proof.
  intros Hm. pose proof f_mbits. unfold issnan, MBIT. pose proof (land_bit (mant x) (MBITS F - 1) ltac:(lia)) as Hl. rewrite Z.shiftl_1_l in Hl. rewrite Hl.
  apply testbit_top; [lia|by replace (MBITS F - 1 + 1) with (MBITS F) by lia].
Qed.
Lemma explode_special F `{!Format F} x : wf F x → finite F x = false →
  vc (EXPLODE F x) = (if mant x =? 0 then INF else if 2 ^ (MBITS F - 1) <=? mant x then SNAN else QNAN) ∧ vs (EXPLODE F x) = sign x ∧ vm (EXPLODE F x) = mant x ∧ bexp x = EMAX F + 1 + EBIAS F.
Proof.
  intros [_ Hm] Hf. unfold finite in Hf. apply negb_false_iff in Hf. rewrite <-quiet_bit by done. unfold EXPLODE. rewrite Hf. apply Z.eqb_eq in Hf. done.
Qed.
Lemma nanxcpt_quiet F c r : issnan F r = false → nanxcpt F c r = (r, c).
Proof. intros H. unfold nanxcpt. by rewrite H. Qed.

(** A single precision number converted to double precision and back is the same number in every rounding
    mode. *)
Theorem fsp_fdp_roundtrip c x :
  nod c = false → wf SP x → class SP x ≠ SNAN →
  ∃ y c', ieee754dp_fsp c x = Some (y, CLEARCX c) ∧ ieee754sp_fdp (CLEARCX c) y = (x, c').
Proof.
  intros Hc Hw Hs. destruct (finite SP x) eqn:Hf.
  - destruct (fsp_exact c x Hc Hw Hf) as (y & -> & Hwy & Hfy & Hsy & Hvy). exists y. pose proof (fdp_correct (CLEARCX c) y Hc Hwy Hfy) as Hd.
    destruct (Z.eqb_spec (ival DP y) 0) as [E0|_].
    + rewrite Hd, Hsy. destruct (fzero_spec SP (sign x)) as (? & ? & Ez & ?). eexists. split; [done|]. f_equal. apply (ival_inj SP); [done..|]. rewrite Ez. unfold unit_ratio in *. lia.
    + destruct Hd as (v & X & Ev & Hr & _). injection Ev as ->. exists (SETCX (CLEARCX (CLEARCX c)) X). split; [done|]. f_equal. rewrite Hvy, Hsy in Hr. by apply (rounded_representable SP (rm c) x unit_ratio).
  - destruct (explode_special SP x Hw Hf) as (Hcl & Hvs & Hvm & Hb). unfold class in Hs. rewrite Hcl in Hs. unfold ieee754dp_fsp. rewrite FLUSH_off by done. rewrite Hcl, Hvs, Hvm.
    destruct Hw as [_ Hm]. cbn [MBITS SP EMAX EBIAS] in *. destruct x as [sn b m]. cbn [sign mant bexp] in *. subst b. destruct (Z.eqb_spec m 0) as [->|Hm0].
    + exists (finf DP sn), (CLEARCX (CLEARCX c)). split; [done|]. by destruct sn.
    + destruct (Z.leb_spec (2 ^ (23 - 1)) m) as [|Hlt]; [done|].
      set (y := build DP sn (EMAX DP + 1 + EBIAS DP) (uw DP (m .<< (MBITS DP - 23)))).
      assert (y = konst sn 2047 (m * 2 ^ 29)) as Ey.
      { unfold y, build, uw. change (MBITS DP - 23) with 29. rewrite Z.shiftl_mul_pow2 by lia. cbn [W DP MBITS]. rewrite (Z.mod_small (m * 2 ^ 29) (2 ^ 64)), (Z.mod_small (m * 2 ^ 29) (2 ^ 52)) by lia. done. }
      assert (wf DP y) as Hwy by (rewrite Ey; split; cbn; lia). assert (finite DP y = false) as Hfy by (by rewrite Ey). destruct (explode_special DP y Hwy Hfy) as (Hcy & Hvy & Hmy & _).
      rewrite Ey in Hcy, Hvy, Hmy. cbn [mant konst sign] in Hcy, Hvy, Hmy. destruct (Z.eqb_spec (m * 2 ^ 29) 0); [lia|]. cbn [MBITS DP] in Hcy. destruct (Z.leb_spec (2 ^ (52 - 1)) (m * 2 ^ 29)); [lia|].
      exists y, (CLEARCX (CLEARCX c)). rewrite nanxcpt_quiet; [|rewrite (quiet_bit DP y (proj2 Hwy)), Ey; cbn [MBITS DP mant konst]; destruct (Z.leb_spec (2 ^ (52 - 1)) (m * 2 ^ 29)); [lia|done]].
      split; [done|]. unfold ieee754sp_fdp. rewrite FLUSH_off by done. rewrite Ey, Hcy, Hvy, Hmy. change (MBITS DP - MBITS SP) with 29.
      rewrite Z.shiftr_div_pow2, Z.div_mul by lia. assert (build SP sn (EMAX SP + 1 + EBIAS SP) (uw SP m) = {| sign := sn; bexp := 127 + 1 + 127; mant := m |}) as ->.
      { unfold build, uw. cbn [W SP MBITS]. rewrite (Z.mod_small m (2 ^ 32)), (Z.mod_small m (2 ^ 23)) by lia. done. }
      assert (isnan SP {| sign := sn; bexp := 127 + 1 + 127; mant := m |} = true) as -> by (unfold isnan, class; by rewrite Hcl).
      apply nanxcpt_quiet. rewrite (quiet_bit SP {| sign := sn; bexp := 127 + 1 + 127; mant := m |} Hm). cbn [MBITS SP mant]. destruct (Z.leb_spec (2 ^ (23 - 1)) m); [lia|done].
Qed.

(** ** Library functions on finite numbers *)
Section library.
Context (F : format) `{!Format F}.
Abbreviation p := (MBITS F).

(** A finite number that is not zero, through the two branches that normalise it. *)
Lemma normalised_branch {R} x (f : comp → option R) (z nan : option R) : wf F x → finite F x = true → ival F x ≠ 0 →
  ∃ k, opd F (ival F x) k ∧ vs k = sign x ∧
    match vc (EXPLODE F x) with SNAN | QNAN | INF => nan | ZERO => z | DNORM => k ← DNORM_ F (EXPLODE F x); f k | NORM => f (EXPLODE F x) end = f k.
Proof.
  intros Hw Hf H0. destruct (finite_operand F x Hw Hf) as [Es [(_ & E0 & _)|[(-> & Hk)|(-> & k & Hk & Hs & Ho)]]]; [done|by eexists|].
  exists k. by rewrite Hk.
Qed.

Theorem scalb_correct c x n :
  nod c = false → wf F x → finite F x = true → ival F x ≠ 0 →
  correct F (CLEARCX c) (scalb F c x n) (sign x) (ival F x * 2 ^ Z.max 0 n) (2 ^ Z.max 0 (- n)).
Proof.
  intros Hc Hw Hf H0. pose proof f_mbits. pose proof (emin_neg F). pose proof (pow_p F 4 ltac:(lia)) as P4. pose proof (pow_p F 3 ltac:(lia)) as P3. pose proof (pow_p F 1 ltac:(lia)) as P1.
  destruct (normalised_branch x (λ k, Some (NORMRET F (CLEARCX c) (vs k) (ve k + n) (uw F (vm k .<< 3)))) (Some (x, CLEARCX c)) (scalb F c x n) Hw Hf H0) as (k & [Hm He Hv] & Hs & Ek).
  assert (scalb F c x n = Some (NORMRET F (CLEARCX c) (sign x) (ve k + n) (8 * vm k))) as ->.
  { rewrite <-Hs, <-(shiftl3 F (vm k)) by lia. rewrite <-Ek. unfold scalb. destruct (finite_operand F x Hw Hf) as [_ [(E & _)|[(E & _)|(E & _)]]]; rewrite E; done. }
  destruct (NORMRET_spec F (CLEARCX c) (sign x) (ve k + n) (8 * vm k) (ival F x * 2 ^ Z.max 0 n) (2 ^ Z.max 0 (- n))) as (v & X & -> & Hres); [done| |by exists v, X].
  set (h := p + Z.abs n). specialize (Hv h ltac:(unfold h; lia)).
  apply (formattable_intro F h _ _ (8 * vm k) 1); [lia|lia|unfold h; lia|unfold h; lia|lia|left; lia|].
  assert (2 ^ Z.max 0 (- n) * 2 ^ (ve k + n - EMIN F + h) = 2 ^ (ve k - EMIN F + h) * 2 ^ Z.max 0 n) as Ep by (rewrite <-!Z.pow_add_r by (unfold h; lia); f_equal; lia).
  transitivity (8 * vm k * (2 ^ Z.max 0 (- n) * 2 ^ (ve k + n - EMIN F + h))); [ring|]. rewrite Ep.
  transitivity (8 * 2 ^ Z.max 0 n * (vm k * 2 ^ (ve k - EMIN F + h))); [ring|]. rewrite Hv. ring.
Qed.

Theorem frexp_spec c x :
  wf F x → finite F x = true → ival F x ≠ 0 →
  ∃ f e, frexp F c x = Some (f, e, CLEARCX c) ∧ wf F f ∧ finite F f = true ∧ sign f = sign x ∧
    one_units F ≤ 2 * ival F f < 2 * one_units F ∧ ∀ h, p - EMIN F ≤ h → ival F f * 2 ^ (e + h) = ival F x * 2 ^ h.
Proof.
  intros Hw Hf H0. pose proof f_mbits. pose proof (emin_neg F). pose proof (pow_p F 1 ltac:(lia)) as P1.
  destruct (normalised_branch x (λ k, Some (build F (vs k) (-1 + EBIAS F) (Z.ldiff (vm k) (HIDDEN_BIT F)), ve k + 1, CLEARCX c)) (Some (x, 0, CLEARCX c)) (Some (x, 0, CLEARCX c)) Hw Hf H0)
    as (k & [Hm He Hv] & Hs & Ek).
  destruct (build_normal F (vs k) (-1) (vm k) Hm ltac:(lia)) as (Hwf & Hff & Hvf & Hsf). eexists _, _. split; [exact Ek|]. split_and!; try done.
  - rewrite Hvf. unfold one_units. replace (p - EMIN F) with (Z.succ (p + (-1 - EMIN F))) by lia. rewrite Z.pow_succ_r, Z.pow_add_r by lia. nia.
  - rewrite Hvf. unfold one_units. replace (p - EMIN F) with (p + 1 + (-1 - EMIN F)) by lia. rewrite Z.pow_add_r by lia. assert (0 < 2 ^ (-1 - EMIN F)) by lia. nia.
  - intros h Hh. rewrite Hvf, <-(Hv h), <-Z.mul_assoc, <-Z.pow_add_r by lia. do 2 f_equal. lia.
Qed.

(** The two parts are exact, of the sign of the number: a multiple of 1 and less than 1. *)
Theorem modf_spec c x :
  p ≤ - EMIN F → wf F x → finite F x = true →
  ∃ f i, modf F c x = Some (f, i, CLEARCX c) ∧ wf F f ∧ wf F i ∧ finite F f = true ∧ finite F i = true ∧ sign f = sign x ∧ sign i = sign x ∧
    ival F f + ival F i = ival F x ∧ ival F f < one_units F ∧ (one_units F | ival F i).
Proof.
  intros HE Hw Hf. pose proof f_mbits. pose proof f_width. pose proof (emin_neg F). pose proof (one_units_pos F) as Hone. pose proof (pow_p F 1 ltac:(lia)) as P1.
  destruct (fzero_spec F (sign x)) as (Hwz & Hfz & Hvz & Hsz). unfold modf. destruct (decide (ival F x = 0)) as [Hi0|Hi0].
  { rewrite (explode_zero F x) by done. exists x, x. split; [done|]. rewrite Hi0. split_and!; try done. by exists 0. }
  destruct (explode_value F x Hw Hf Hi0) as (Hcl & Hs & He & Hm & Hv). set (k := EXPLODE F x) in *. set (xe := ve k) in *. set (xm := vm k) in *. rewrite Hs.
  assert (one_units F = 2 ^ (p + 1) * 2 ^ (-1 - EMIN F)) as E1 by (unfold one_units; rewrite <-Z.pow_add_r by lia; f_equal; lia).
  assert (∀ f i, sign f = sign x → sign i = sign x → wf F f → wf F i → finite F f = true → finite F i = true → ival F f + ival F i = ival F x → ival F f < one_units F → (one_units F | ival F i) →
    ∃ f' i', Some (f, i, CLEARCX c) = Some (f', i', CLEARCX c) ∧ wf F f' ∧ wf F i' ∧ finite F f' = true ∧ finite F i' = true ∧ sign f' = sign x ∧ sign i' = sign x ∧
      ival F f' + ival F i' = ival F x ∧ ival F f' < one_units F ∧ (one_units F | ival F i')) as Hret by (intros f i; intros; by exists f, i).
  destruct Hcl as [[-> Hlo]|(-> & _ & Hlt)]; cycle 1.
  { apply Hret; try done; rewrite ?Hvz; [lia| |by exists 0]. assert (1 ≤ 2 ^ (-1 - EMIN F)) by lia. nia. }
  destruct (Z.ltb_spec xe 0) as [Hneg|Hpos].
  { apply Hret; try done; rewrite ?Hvz; [lia| |by exists 0]. rewrite <-Hv. assert (2 ^ (xe - EMIN F) ≤ 2 ^ (-1 - EMIN F)) by (apply Z.pow_le_mono_r; lia). assert (0 < 2 ^ (xe - EMIN F)) by lia. nia. }
  destruct (Z.leb_spec p xe) as [Hbig|Hmid].
  { apply Hret; try done; rewrite ?Hvz; [lia|lia|]. destruct (units_int F Nearest x xm xe Hbig Hv) as [_ <-]. apply Z.divide_factor_r. }
  set (s := p - xe). assert (0 < 2 ^ s ∧ 0 < 2 ^ (W F - s) ∧ 0 < 2 ^ (xe - EMIN F)) as (Hs0 & Hws & Hxe0) by (unfold s; split_and!; lia).
  assert (one_units F = 2 ^ s * 2 ^ (xe - EMIN F)) as E2 by (unfold one_units, s; rewrite <-Z.pow_add_r by lia; f_equal; lia).
  assert (2 ^ W F = 2 ^ s * 2 ^ (W F - s)) as EW by (rewrite <-Z.pow_add_r by (unfold s; lia); f_equal; lia).
  assert (2 ^ (p + 8) ≤ 2 ^ W F) by (apply Z.pow_le_mono_r; lia). pose proof (pow_p F 8 ltac:(lia)) as P8.
  pose proof (Z.div_mod xm (2 ^ s) ltac:(lia)) as Edm. pose proof (Z.mod_pos_bound xm (2 ^ s) Hs0) as Hr.
  assert (uw F ((xm .>> s) .<< s) = xm - xm `mod` 2 ^ s) as ->.
  { unfold uw. rewrite Z.shiftr_div_pow2, Z.shiftl_mul_pow2 by (unfold s; lia). replace (xm / 2 ^ s * 2 ^ s) with (xm - xm `mod` 2 ^ s) by lia. pose proof (Z.mod_le xm (2 ^ s) ltac:(lia) Hs0). apply Z.mod_small. lia. }
  assert (uw F (xm .<< (W F - s)) .>> (W F - s) = xm `mod` 2 ^ s) as ->.
  { unfold uw. rewrite Z.shiftl_mul_pow2, Z.shiftr_div_pow2, EW, Z.mul_mod_distr_r, Z.div_mul by (unfold s in *; lia). done. }
  set (r := xm `mod` 2 ^ s) in *. assert (2 ^ p ≤ xm - r) as Hip.
  { assert (2 ^ p = 2 ^ xe * 2 ^ s) as Ep by (rewrite <-Z.pow_add_r by (unfold s; lia); f_equal; unfold s; lia).
    assert (2 ^ xe ≤ xm / 2 ^ s) by (apply Z.div_le_lower_bound; lia). nia. }
  destruct (build_normal F (sign x) xe (xm - r) ltac:(lia) ltac:(lia)) as (Hwi & Hfi & Hvi & Hsi). set (ip := build F _ _ _) in *.
  assert ((one_units F | ival F ip)) as Hdiv by (rewrite Hvi, E2; exists (xm / 2 ^ s); replace (xm - r) with (2 ^ s * (xm / 2 ^ s)) by lia; ring).
  destruct (Z.eqb_spec r 0) as [E0|E0].
  { apply Hret; try done; rewrite ?Hvz, ?Hvi, ?E0; lia. }
  destruct (normalise_spec F p r xe) as (j & Hj & -> & Hrj); [lia|lia|]. cbn [mbind option_bind].
  destruct (build_normal F (sign x) (xe - j) (r * 2 ^ j) Hrj ltac:(lia)) as (Hwf & Hff & Hvf & Hsf). set (fp := build F (sign x) (xe - j + EBIAS F) (Z.ldiff (r * 2 ^ j) (HIDDEN_BIT F))) in *.
  assert (ival F fp = r * 2 ^ (xe - EMIN F)) as Ef by (rewrite Hvf, <-Z.mul_assoc, <-Z.pow_add_r by lia; do 2 f_equal; lia).
  apply Hret; try done; rewrite ?Ef, ?Hvi; [rewrite <-Hv; ring|rewrite E2; nia].
Qed.
End library.

Lemma fsp_fdp_roundtrip_witness : ∃ y c', ieee754dp_fsp (csr0 RU) (fmind SP true) = Some (y, csr0 RU) ∧ ieee754sp_fdp (csr0 RU) y = (fmind SP true, c').
Proof. apply (fsp_fdp_roundtrip (csr0 RU)); done. Defined.

(** ** The conversions between integers and both formats *)
Definition from_int_spec (F : format) (c : csr) (x : Z) (r : option (fl * csr)) : Prop :=
  if x =? 0 then r = Some (fzero F false, CLEARCX c) else correct F (CLEARCX c) r (x <? 0) (Z.abs x * one_units F) 1.
(** C38: The conversions from 32- and 64-bit integers are correctly rounded, the one from 32 bits to double
    precision is exact. *)
Theorem from_integers c n m : nod c = false → - 2 ^ 31 ≤ n < 2 ^ 31 → - 2 ^ 63 ≤ m < 2 ^ 63 →
  from_int_spec SP c n (ieee754sp_fint c n) ∧ from_int_spec SP c m (ieee754sp_flong c m) ∧ from_int_spec DP c m (ieee754dp_flong c m) ∧
  ∃ v, ieee754dp_fint c n = Some (v, CLEARCX c) ∧ wf DP v ∧ finite DP v = true ∧ val DP v = n * one_units DP.
Proof.
  intros Hc Hn Hm. split_and!.
  - by apply (from_int_correct SP SP 32).
  - by apply (from_int_correct SP DP 64).
  - by apply (from_int_correct DP DP 64).
  - by apply (from_int_exact_correct DP 32).
Qed.
Lemma from_integers_witness : from_int_spec SP (csr0 RN) 16777217 (ieee754sp_fint (csr0 RN) 16777217).
Proof. apply (from_integers (csr0 RN) 16777217 0); done. Defined.

Definition to_int_spec (F : format) (N : Z) (c : csr) (x : fl) : Z * csr :=
  if finite F x then int_spec F N c x else (si_indef N, SETCX (CLEARCX c) INVALID_OPERATION).
(** C26: The conversions to 32- and 64-bit integers round in the current mode, and give the largest integer and
    invalid operation exactly when the rounded value does not fit. *)
Theorem to_integers c x y : nod c = false → wf SP x → wf DP y →
  ieee754sp_tint c x = to_int_spec SP 32 c x ∧ ieee754sp_tlong c x = to_int_spec SP 64 c x ∧
  ieee754dp_tint c y = to_int_spec DP 32 c y ∧ ieee754dp_tlong c y = to_int_spec DP 64 c y.
Proof.
  intros Hc Hx Hy. unfold to_int_spec. split; [|split; [|split]].
  - destruct (finite SP x) eqn:Hf; [|by apply (to_int_special SP)]. apply (to_int_lift SP); [lia|done..|]. intros. apply (to_int_finite_spec SP); [cbn; lia|apply (residue2_spec SP)|done..].
  - destruct (finite SP x) eqn:Hf; [|by apply (to_int_special SP)]. apply (to_int_lift SP); [lia|done..|]. intros. apply (to_int_finite_spec SP); [cbn; lia|done..].
  - destruct (finite DP y) eqn:Hf; [|by apply (to_int_special DP)]. apply (to_int_lift DP); [lia|done..|]. intros. apply (to_int_late_spec DP); [cbn; lia|done..].
  - destruct (finite DP y) eqn:Hf; [|by apply (to_int_special DP)]. apply (to_int_lift DP); [lia|done..|]. intros. apply (to_int_finite_spec DP); [cbn; lia|apply (residue2_spec DP)|done..].
Qed.
Lemma to_integers_witness : ieee754sp_tint (csr0 RU) (fone SP true) = (-1, csr0 RU).
Proof. rewrite (proj1 (to_integers (csr0 RU) (fone SP true) (fone DP true) ltac:(done) ltac:(done) ltac:(done))). vm_compute. reflexivity. Defined.

(** An unsigned integer of the upper half is rounded twice, in ieee754sp_fint and in ieee754sp_add: 0xc0000141 is
    nearer to 0xc0000100 and becomes 0xc0000200; and the cause bits are those of the addition, which for 0xc0000001 is
    exact. *)
Example funs_rounds_twice : ∃ v c w,
  ieee754sp_funs (csr0 RN) 0xc0000141 = Some (v, c) ∧ val SP v = 0xc0000200 * one_units SP ∧
  ieee754sp_funs (csr0 RN) 0xc0000001 = Some (w, CLEARCX (SETCX (csr0 RN) INEXACT)) ∧ val SP w = 0xc0000000 * one_units SP.
Proof. eexists _, _, _. split_and!; vm_compute; reflexivity. Qed.

End FpConv.
