(* ===== verification/FpSqrt.v ===== *)
(** * FpSqrt: square roots

    sp_sqrt.c computes the root bit by bit; dp_sqrt.c starts from a table and
    improves the approximation with the operations of [FpArith]. The theorems show
    that the single precision root is correctly rounded in every mode. *)

From S2P Require Import Prelude Ieee754 FpArith FpConv.
Import Ieee754 FpArith FpConv.

Module FpSqrt.

(** ** sp_sqrt.c: bit by bit *)
Definition sqrt_round (st : Z * Z * Z * Z) : Z * Z * Z * Z + Z * Z :=
  let '(ix, s, q, r) := st in
  if r =? 0 then inr (ix, q) else
  let t := s32 (s + r) in
  let '(ix, s, q) := if t <=? ix then (s32 (ix - t), s32 (t + r), s32 (q + r)) else (ix, s, q) in
  inl (s32 (ix + ix), s, q, r .>> 1).
Definition sqrt_subnormal (ix : Z) : option (Z * Z) :=
  loop 32 (λ '(ix, i), if (ix .& 2 ^ 23) =? 0 then inl (s32 (ix .<< 1), i + 1) else inr (ix, i)) (ix, 0).
Definition sqrt_normalise (ix : Z) : option (Z * Z) :=
  let m := ix .>> 23 in
  '(ix, m) ← (if m =? 0 then '(ix, i) ← sqrt_subnormal ix; Some (ix, m - (i - 1)) else Some (ix, m));
  Some ((ix .& (2 ^ 23 - 1)) .| 2 ^ 23, m - 127).
Definition sqrt_mantissa (c : csr) (ix m : Z) : option (fl * csr) :=
  let ix := if truthy (m .& 1) then s32 (ix + ix) else ix in
  let m := m .>> 1 in
  let ix := s32 (ix + ix) in
  '(ix, q) ← loop 32 sqrt_round (ix, 0, 0, 2 ^ 24);
  let '(q, c) :=
    if truthy ix then
      (match rm c with RU => s32 (q + 2) | RN => s32 (q + (q .& 1)) | _ => q end, SETCX c INEXACT)
    else (q, c) in
  let ix := s32 ((q .>> 1) + 0x3f000000) in
  let ix := s32 (ix + s32 (m .<< 23)) in
  Some (of_bits SP (ix `mod` 2 ^ 32), c).
Definition sp_sqrt_finite (c : csr) (x : fl) : option (fl * csr) :=
  '(ix, m) ← sqrt_normalise (bits SP x); sqrt_mantissa c ix m.

(** The cases both square roots settle first; [None] goes on. *)
Definition sqrt_special (F : format) (c : csr) (x : fl) (kx : comp) : option (fl * csr) :=
  match vc kx with
  | QNAN => Some (nanxcpt F c x)
  | SNAN => Some (nanxcpt F (SETCX c INVALID_OPERATION) (findef F))
  | ZERO => Some (x, c)
  | INF => if vs kx then Some (nanxcpt F (SETCX c INVALID_OPERATION) (findef F)) else Some (x, c)
  | DNORM | NORM => if vs kx then Some (nanxcpt F (SETCX c INVALID_OPERATION) (findef F)) else None
  end.
Definition ieee754sp_sqrt (c : csr) (x : fl) : option (fl * csr) :=
  let kx := EXPLODE SP x in
  let c := CLEARCX c in
  let '(c, x, kx) := FLUSH SP c x kx in
  match sqrt_special SP c x kx with Some r => Some r | None => sp_sqrt_finite c x end.

(** ** dp_sqrt.c: an approximation from a table, improved with the arithmetic of
    [FpArith] and corrected in the last bit. *)
Definition sqrt_table : list Z := [
  0; 1204; 3062; 5746; 9193; 13348; 18162; 23592; 29598; 36145; 43202; 50740; 58733; 67158; 75992;
  85215; 83599; 71378; 60428; 50647; 41945; 34246; 27478; 21581; 16499; 12183; 8588; 5674; 3403;
  1742; 661; 130 ].
Definition add_bits (x : fl) (d : Z) : fl := of_bits DP (uw DP (bits DP x + d)).
Definition add_bexp (x : fl) (d : Z) : fl := {| sign := sign x; bexp := (bexp x + d) `mod` 2 ^ 11; mant := mant x |}.
Definition with_mx_sx (c : csr) (r : rmode) (s mk : Z) : csr :=
  {| rm := r; sx := s; mx := mk; cx := cx c; pad1 := pad1 c; cbit := cbit c; nod := nod c; pad0 := pad0 c |}.
Definition sqrt_guess (x : fl) : fl :=
  let yh := bits DP x .>> 32 in
  let yh := (yh .>> 1) + 0x1ff80000 in
  let yh := (yh - nth (Z.to_nat ((yh .>> 15) .& 31)) sqrt_table 0) `mod` 2 ^ 32 in
  of_bits DP ((yh .<< 32) .| (bits DP x .& (2 ^ 32 - 1))).
Definition sqrt_improve (c : csr) (x y : fl) : option (fl * csr) :=
  '(t, c) ← fdiv DP c x y;
  '(y, c) ← fadd DP c y t;
  let y := add_bits y (- 0x0010000600000000) in
  let y := of_bits DP (Z.ldiff (bits DP y) (2 ^ 32 - 1)) in
  '(z, c) ← fmul DP c y y;
  let t := add_bexp z 1 in
  '(t, c) ← fadd DP c t z;
  '(z, c) ← fsub DP c x z;
  '(z, c) ← fmul DP c z y;
  '(t, c) ← fadd DP c t x;
  '(t, c) ← fdiv DP c z t;
  let t := add_bexp t 1 in
  fadd DP c y t.
Definition sqrt_correct (c oldcsr : csr) (x y : fl) (scalx : Z) : option (fl * csr) :=
  let c := with_mx_sx c RZ (Z.ldiff (sx c) INEXACT) (mx c) in
  '(t, c) ← fdiv DP c x y;
  let inexact := truthy (sx c .& INEXACT) in
  if inexact || negb (bits DP t =? bits DP y) then
    let t := if inexact then t else add_bits t (-1) in
    let '(y, t) := match rm oldcsr with
                   | RU => (add_bits y 1, add_bits t 1)
                   | RN => (y, add_bits t 1)
                   | _ => (y, t)
                   end in
    '(y, c) ← fadd DP c y t;
    Some (add_bexp y (scalx - 1), SETCX oldcsr INEXACT)
  else Some (add_bexp y scalx, oldcsr).
Definition dp_sqrt_finite (c : csr) (kx : comp) : option (fl * csr) :=
  let oldcsr := c in
  let c := with_mx_sx c RN (Z.ldiff (sx c) INEXACT) (Z.ldiff (mx c) INEXACT) in
  let '(xe, scalx) :=
    if 512 <? ve kx then (ve kx - 512, 256) else if ve kx <? -512 then (ve kx + 512, -256) else (ve kx, 0) in
  let x := build DP false (xe + EBIAS DP) (Z.ldiff (vm kx) (HIDDEN_BIT DP)) in
  '(y, c) ← sqrt_improve c x (sqrt_guess x);
  sqrt_correct c oldcsr x y scalx.
Definition ieee754dp_sqrt (c : csr) (x : fl) : option (fl * csr) :=
  let kx := EXPLODE DP x in
  let c := CLEARCX c in
  let '(c, x, kx) := FLUSH DP c x kx in
  kx ← (if bool_decide (vc kx = DNORM) then DNORM_ DP kx else Some kx);
  match sqrt_special DP c x kx with Some r => Some r | None => dp_sqrt_finite c kx end.


(** ** The root as an integer *)

(** One bit per round: [q] is a multiple of [2 ^ n] and is the root down to there. *)
Lemma sqrt_loop A : ∀ (n fuel : nat) ix Q, (n < fuel)%nat → 0 ≤ Q → (Q + 1) * 2 ^ Z.of_nat n ≤ 2 ^ 25 →
  2 * (A - (Q * 2 ^ Z.of_nat n) ^ 2) = ix * 2 ^ Z.of_nat n → (Q * 2 ^ Z.of_nat n) ^ 2 ≤ A < ((Q + 1) * 2 ^ Z.of_nat n) ^ 2 →
  ∃ q, loop fuel sqrt_round (ix, 2 * (Q * 2 ^ Z.of_nat n), Q * 2 ^ Z.of_nat n, 2 ^ Z.of_nat n .>> 1) = Some (2 * (A - q ^ 2), q) ∧
    0 ≤ q < 2 ^ 25 ∧ q ^ 2 ≤ A < (q + 1) ^ 2.
Proof.
  induction n as [|n IH]; intros [|fuel] ix Q Hf HQ Hlim Hix HA; try lia; cbn [loop sqrt_round].
  - exists Q. rewrite Z.mul_1_r in *. replace (2 ^ Z.of_nat 0 .>> 1 =? 0) with true by done. replace (ix) with (2 * (A - Q ^ 2)) by lia. split; [done|]. lia.
  - rewrite Nat2Z.inj_succ, Z.pow_succ_r in * by lia. set (r := 2 ^ Z.of_nat n) in *. assert (1 ≤ r) as Hr by (unfold r; lia).
    rewrite Z.shiftr_div_pow2, (Z.mul_comm 2 r), Z.div_mul by lia. destruct (Z.eqb_spec r 0); [lia|].
    set (q := Q * (r * 2)). assert (0 ≤ q ∧ q + 2 * r ≤ 2 ^ 25) as [Hq0 Hq1] by (unfold q; split; nia).
    replace (Q * (2 * r)) with q in * by (unfold q; ring). replace ((Q + 1) * (2 * r)) with (q + 2 * r) in * by (unfold q; ring).
    assert (ix * r = A - q ^ 2) as Eix by lia. assert (0 ≤ ix < 4 * (q + r)) as Hixr by nia.
    rewrite (s32_small (2 * q + r)) by lia. destruct (Z.leb_spec (2 * q + r) ix) as [Hle|Hlt].
    + rewrite (s32_small (ix - _)), (s32_small (_ + r)), (s32_small (q + r)), s32_small by lia.
      destruct (IH fuel (ix - (2 * q + r) + (ix - (2 * q + r))) (2 * Q + 1)) as (q' & El & Hq'); [lia|lia|unfold q in *; lia| | |].
      * replace ((2 * Q + 1) * r) with (q + r) by (unfold q; ring). nia.
      * replace ((2 * Q + 1) * r) with (q + r) by (unfold q; ring). replace ((2 * Q + 1 + 1) * r) with (q + 2 * r) by (unfold q; ring). nia.
      * exists q'. split; [|done]. rewrite <-El. replace ((2 * Q + 1) * r) with (q + r) by (unfold q; ring). repeat f_equal. lia.
    + rewrite s32_small by lia. destruct (IH fuel (ix + ix) (2 * Q)) as (q' & El & Hq'); [lia|lia|unfold q in *; nia| | |].
      * replace (2 * Q * r) with q by (unfold q; ring). nia.
      * replace (2 * Q * r) with q by (unfold q; ring). replace ((2 * Q + 1) * r) with (q + r) by (unfold q; ring). nia.
      * exists q'. split; [|done]. rewrite <-El. by replace (2 * Q * r) with q by (unfold q; ring).
Qed.

(** ** Correct rounding of a root: [N] is the square, in units *)
Definition sqrt_rounded (r : rmode) (N : Z) (v : fl) : Prop :=
  wf SP v ∧ finite SP v = true ∧ sign v = false ∧
  match dir_of r false with
  | TowardZero => ival SP v ^ 2 ≤ N ∧ ∀ w, wf SP w → ival SP w ^ 2 ≤ N → ival SP w ≤ ival SP v
  | AwayFromZero => N ≤ ival SP v ^ 2 ∧ ∀ w, wf SP w → N ≤ ival SP w ^ 2 → ival SP v ≤ ival SP w
  | Nearest => ∀ w, wf SP w →
      (ival SP w < ival SP v → (ival SP v + ival SP w) ^ 2 ≤ 4 * N) ∧ (ival SP v < ival SP w → 4 * N ≤ (ival SP v + ival SP w) ^ 2)
  end.

(** The word the code assembles: a mantissa with its hidden bit, or the next
    power of two, added to the exponent. *)
Lemma assemble Q e : 2 ^ 23 ≤ Q ≤ 2 ^ 24 → 0 ≤ e ≤ 252 →
  let v := of_bits SP ((Q + e * 2 ^ 23) `mod` 2 ^ 32) in wf SP v ∧ finite SP v = true ∧ sign v = false ∧ ival SP v = Q * 2 ^ e.
Proof.
  intros HQ He v. assert (v = konst false (if Q =? 2 ^ 24 then e + 2 else e + 1) (if Q =? 2 ^ 24 then 0 else Q - 2 ^ 23)) as ->.
  { unfold v. rewrite (Z.mod_small (Q + e * 2 ^ 23)) by lia. rewrite <-(of_bits_bits SP (konst _ _ _)) by (unfold wf; cbn; zbool; lia). f_equal. unfold bits. cbn [sign bexp mant konst Z.b2z MBITS SP W].
    destruct (Z.eqb_spec Q (2 ^ 24)); lia. }
  destruct (konst_spec SP false (if Q =? 2 ^ 24 then e + 2 else e + 1) (if Q =? 2 ^ 24 then 0 else Q - 2 ^ 23)) as (? & ? & -> & ?);
    [cbn; destruct (Z.eqb_spec Q (2 ^ 24)); lia|cbn; destruct (Z.eqb_spec Q (2 ^ 24)); lia|].
  split_and!; try done. cbn [MBITS SP]. destruct (Z.eqb_spec Q (2 ^ 24)) as [->|].
  - replace (e + 2 - 1) with (Z.succ e) by lia. rewrite Z.pow_succ_r by lia. lia.
  - replace (e + 1 - 1) with e by lia. f_equal. lia.
Qed.

Lemma sq_le a b : 0 ≤ a ≤ b → a ^ 2 ≤ b ^ 2.
Proof. intros []. rewrite !Z.pow_2_r. by apply Z.mul_le_mono_nonneg. Qed.
Lemma sq_lt a b : 0 ≤ a < b → a ^ 2 < b ^ 2.
Proof. intros []. rewrite !Z.pow_2_r. by apply Z.mul_lt_mono_nonneg. Qed.
(** Two neighbours [lo] and [hi] of the root of [N]; [w] is any other number. *)
Section neighbours.
Variables lo hi N w : Z.
Hypotheses (Hlo : 0 < lo < hi) (Hw : 0 ≤ w) (Hgrid : w ≤ lo ∨ hi ≤ w).
Lemma down_lo : N < hi ^ 2 → w ^ 2 ≤ N → w ≤ lo.
Proof. intros H1 H2. destruct Hgrid as [|H]; [done|]. pose proof (sq_le hi w ltac:(lia)). lia. Qed.
Lemma up_hi : lo ^ 2 < N → N ≤ w ^ 2 → hi ≤ w.
Proof. intros H1 H2. destruct Hgrid as [H|]; [|done]. pose proof (sq_le w lo ltac:(lia)). lia. Qed.
Lemma up_lo : N = lo ^ 2 → N ≤ w ^ 2 → lo ≤ w.
Proof. intros H1 H2. apply Z.nlt_ge. intros H. pose proof (sq_lt w lo ltac:(lia)). lia. Qed.
Lemma near_lo : lo ^ 2 ≤ N → 4 * N ≤ (lo + hi) ^ 2 → (w < lo → (lo + w) ^ 2 ≤ 4 * N) ∧ (lo < w → 4 * N ≤ (lo + w) ^ 2).
Proof.
  intros H1 H2. split; intros H; [pose proof (sq_le (lo + w) (2 * lo) ltac:(lia)) as Hs; rewrite Z.pow_mul_l in Hs; lia|].
  destruct Hgrid; [lia|]. pose proof (sq_le (lo + hi) (lo + w) ltac:(lia)) as Hs. by transitivity ((lo + hi) ^ 2).
Qed.
Lemma near_hi : N ≤ hi ^ 2 → (lo + hi) ^ 2 ≤ 4 * N → (w < hi → (hi + w) ^ 2 ≤ 4 * N) ∧ (hi < w → 4 * N ≤ (hi + w) ^ 2).
Proof.
  intros H1 H2. split; intros H; [|pose proof (sq_le (2 * hi) (hi + w) ltac:(lia)) as Hs; rewrite Z.pow_mul_l in Hs; lia].
  destruct Hgrid; [|lia]. pose proof (sq_le (hi + w) (lo + hi) ltac:(lia)) as Hs. by transitivity ((lo + hi) ^ 2).
Qed.
End neighbours.

Definition round_root (r : rmode) (exact : bool) (q : Z) : Z :=
  if exact then q / 2 else match r with RU => q / 2 + 1 | RN => q / 2 + q `mod` 2 | _ => q / 2 end.
(** The square [A] of a root with [q], its first 25 bits, scaled by [u]. *)
Lemma root_bounds A q u : 0 < u → 2 ≤ q → q ^ 2 ≤ A < (q + 1) ^ 2 → Z.even A = true →
  let lo := q / 2 * (2 * u) in let hi := (q / 2 + 1) * (2 * u) in let N := A * u ^ 2 in
  0 < lo < hi ∧ lo ^ 2 ≤ N < hi ^ 2 ∧ (A = q ^ 2 → N = lo ^ 2) ∧ (A ≠ q ^ 2 → lo ^ 2 < N) ∧
  (q `mod` 2 = 0 → 4 * N ≤ (lo + hi) ^ 2) ∧ (q `mod` 2 = 1 → (lo + hi) ^ 2 ≤ 4 * N).
Proof.
  intros Hu Hq HA Hev lo hi N. assert (q = 2 * (q / 2) + q `mod` 2 ∧ 0 ≤ q `mod` 2 < 2 ∧ 1 ≤ q / 2) as (Eq & Hb & Hf1) by (Z.div_mod_to_equations; lia).
  set (f := q / 2) in *. assert (0 < u ^ 2) as Hu2 by (apply Z.pow_pos_nonneg; lia).
  assert (lo ^ 2 = (2 * f) ^ 2 * u ^ 2) as El by (unfold lo; ring). assert (hi ^ 2 = (2 * f + 2) ^ 2 * u ^ 2) as Eh by (unfold hi; ring).
  assert ((lo + hi) ^ 2 = 4 * ((2 * f + 1) ^ 2 * u ^ 2)) as Em by (unfold lo, hi; ring). rewrite El, Eh, Em. unfold N.
  assert ((2 * f) ^ 2 ≤ q ^ 2) as H1 by (apply sq_le; clear -Eq Hb Hf1; lia). assert ((q + 1) ^ 2 ≤ (2 * f + 2) ^ 2) as H2 by (apply sq_le; clear -Eq Hb Hf1; lia).
  destruct HA as [HA1 HA2]. pose proof (Z.le_trans _ _ _ H1 HA1) as L1. pose proof (Z.lt_le_trans _ _ _ HA2 H2) as L2. pose proof (Z.lt_le_incl _ _ Hu2) as Hu0.
  split; [clear -Hu Hf1; unfold lo, hi; nia|]. split; [split; [by apply Z.mul_le_mono_nonneg_r|by apply Z.mul_lt_mono_pos_r]|]. split_and!.
  - intros E. rewrite E, Z.even_pow in Hev by lia. rewrite Zeven_mod in Hev. apply Z.eqb_eq in Hev. rewrite E. do 2 f_equal. clear -Eq Hev. lia.
  - intros E. apply Z.mul_lt_mono_pos_r; [done|]. apply (Z.le_lt_trans _ _ _ H1). apply Z.le_neq. split; [done|congruence].
  - intros E. apply Z.mul_le_mono_nonneg_l; [done|]. apply Z.mul_le_mono_nonneg_r; [done|]. replace (2 * f + 1) with (q + 1) by (clear -Eq E; lia). apply Z.lt_le_incl, HA2.
  - intros E. apply Z.mul_le_mono_nonneg_l; [done|]. apply Z.mul_le_mono_nonneg_r; [done|]. replace (2 * f + 1) with q by (clear -Eq E; lia). exact HA1.
Qed.

Lemma root_rounded r A q g v :
  2 ^ 24 ≤ q < 2 ^ 25 → q ^ 2 ≤ A < (q + 1) ^ 2 → Z.even A = true → 0 ≤ g →
  wf SP v → finite SP v = true → sign v = false → ival SP v = round_root r (bool_decide (A = q ^ 2)) q * 2 ^ (g + 1) →
  sqrt_rounded r (A * 2 ^ (2 * g)) v ∧ (ival SP v ^ 2 = A * 2 ^ (2 * g) ↔ A = q ^ 2).
Proof.
  intros Hq HA Hev Hg Hw Hf Hs Hv. assert (2 ^ (2 * g) = (2 ^ g) ^ 2) as EN by (rewrite <-Z.pow_mul_r by lia; f_equal; lia).
  assert (2 ^ (g + 1) = 2 * 2 ^ g) as EU by (rewrite <-Z.pow_succ_r by lia; f_equal; lia). rewrite EU in Hv. rewrite EN.
  destruct (root_bounds A q (2 ^ g) ltac:(lia) ltac:(lia) HA Hev) as (Hlh & HN & Hex & Hnx & He & Ho). set (N := A * (2 ^ g) ^ 2) in *.
  assert (∀ w, wf SP w → 0 ≤ ival SP w ∧ (ival SP w ≤ q / 2 * (2 * 2 ^ g) ∨ (q / 2 + 1) * (2 * 2 ^ g) ≤ ival SP w)) as Hgrid.
  { intros w Ww. split; [by apply ival_nonneg|]. rewrite <-EU. apply (grid SP w (g + 1) (q / 2) Ww); [lia|Z.div_mod_to_equations; lia|left; cbn [MBITS SP]; Z.div_mod_to_equations; lia]. }
  assert (q `mod` 2 = 0 ∨ q `mod` 2 = 1) as Hb by (Z.div_mod_to_equations; lia).
  set (lo := q / 2 * (2 * 2 ^ g)) in *. set (hi := (q / 2 + 1) * (2 * 2 ^ g)) in *. clearbody N. unfold sqrt_rounded.
  assert (ival SP v = if bool_decide (A = q ^ 2) then lo else match r with RU => hi | RN => if q `mod` 2 =? 0 then lo else hi | _ => lo end) as ->.
  { rewrite Hv. unfold round_root. destruct (bool_decide _); [done|]. destruct r; try done. destruct Hb as [-> | ->]; cbn [Z.eqb]; [unfold lo; ring|done]. }
  clearbody lo hi. destruct (bool_decide_reflect (A = q ^ 2)) as [Ex|Nx].
  - specialize (Hex Ex). split; [|split; [done|by rewrite Hex]]. split_and!; try done.
    assert (4 * N ≤ (lo + hi) ^ 2) as Hm by (pose proof (sq_le (2 * lo) (lo + hi) ltac:(lia)) as Hs2; rewrite Z.pow_mul_l in Hs2; lia).
    destruct (dir_of r false); [intros w Ww; destruct (Hgrid w Ww); apply (near_lo lo hi); try done; lia|split; [lia|]; intros w Ww; destruct (Hgrid w Ww)..];
      [apply (down_lo lo hi); try done; lia|apply (up_lo lo hi); try done; lia].
  - specialize (Hnx Nx). destruct HN as [HN1 HN2]. split; [|split; [|done]; intros Heq; exfalso; revert Heq; destruct r; [destruct (_ =? 0)|..]; lia]. split_and!; try done.
    destruct r; cbn [dir_of]; [|split; [done|]; intros w Ww; destruct (Hgrid w Ww); by apply (down_lo lo hi)..|split; [lia|]; intros w Ww; destruct (Hgrid w Ww); by apply (up_hi lo hi N)].
    intros w Ww. destruct (Hgrid w Ww). destruct Hb as [Hb|Hb]; rewrite Hb; cbn [Z.eqb]; [apply (near_lo lo hi)|apply (near_hi lo hi)]; auto; lia.
Qed.

(** ** The single precision root *)
Lemma sqrt_subnormal_spec M : 0 < M < 2 ^ 23 → ∃ i, sqrt_subnormal M = Some (M * 2 ^ i, i) ∧ 0 ≤ i ≤ 23 ∧ 2 ^ 23 ≤ M * 2 ^ i < 2 ^ 24.
Proof.
  intros HM. unfold sqrt_subnormal.
  assert (∀ (n fuel : nat) m i, (n < fuel)%nat → 0 < m → 2 ^ 23 ≤ m * 2 ^ Z.of_nat n < 2 ^ 24 →
    loop fuel (λ '(ix, i), if (ix .& 2 ^ 23) =? 0 then inl (s32 (ix .<< 1), i + 1) else inr (ix, i)) (m, i) = Some (m * 2 ^ Z.of_nat n, i + Z.of_nat n)) as Hloop.
  { induction n as [|n IH]; intros [|fuel] m i Hf Hm Hr; try lia; cbn [loop]; rewrite ?Nat2Z.inj_succ, ?Z.pow_succ_r in * by lia.
    - rewrite Z.mul_1_r in *. rewrite (land_top m 23) by lia. destruct (Z.ltb_spec m (2 ^ 23)); [lia|]. do 2 f_equal. lia.
    - assert (1 ≤ 2 ^ Z.of_nat n) by lia. assert (2 * m < 2 ^ 24) by nia. rewrite (land_top m 23) by lia. destruct (Z.ltb_spec m (2 ^ 23)); [|lia].
      rewrite Z.shiftl_mul_pow2, s32_small by lia. change (2 ^ 1) with 2. rewrite IH; [do 2 f_equal; lia|lia|lia|lia]. }
  destruct (normalise_spec SP 23 M 0) as (j & Hj & _ & Hr); [cbn; lia|cbn; lia|]. exists j. split; [|split; [done|exact Hr]].
  rewrite <-(Z2Nat.id j) in Hr |- * by lia. change (Some (M * 2 ^ Z.of_nat (Z.to_nat j), Z.of_nat (Z.to_nat j))) with (Some (M * 2 ^ Z.of_nat (Z.to_nat j), 0 + Z.of_nat (Z.to_nat j))).
  apply Hloop; [lia|lia|exact Hr].
Qed.
Lemma mask_hidden m : (m .& (2 ^ 23 - 1)) .| 2 ^ 23 = m `mod` 2 ^ 23 + 2 ^ 23.
Proof.
  change (2 ^ 23 - 1) with (Z.ones 23). rewrite Z.land_ones by lia. rewrite <-(Z.mul_1_l (2 ^ 23)) at 2. rewrite lor_add_field; [lia|lia|apply Z.mod_pos_bound; lia].
Qed.
Lemma sqrt_normalise_spec x : wf SP x → finite SP x = true → sign x = false → ival SP x ≠ 0 →
  ∃ M m, sqrt_normalise (bits SP x) = Some (M, m) ∧ 2 ^ 23 ≤ M < 2 ^ 24 ∧ -149 ≤ m ≤ 127 ∧ M * 2 ^ (m + 126 + 149) = ival SP x * 2 ^ 149.
Proof.
  intros Hw Hf Hs H0. pose proof (finite_spec SP x Hw Hf) as Hb. destruct Hw as [Hbe Hm]. cbn [EMAX EMIN SP EBITS MBITS] in *.
  assert (bits SP x = bexp x * 2 ^ 23 + mant x) as Eb by (unfold bits; rewrite Hs; cbn [Z.b2z MBITS SP]; lia). unfold sqrt_normalise. rewrite Eb.
  rewrite Z.shiftr_div_pow2, Z.div_add_l, (Z.div_small (mant x)), Z.add_0_r by lia. unfold ival in *. cbn [MBITS SP] in *. destruct (Z.eqb_spec (bexp x) 0) as [E0|E0].
  - rewrite E0, Z.mul_0_l, Z.add_0_l. destruct (sqrt_subnormal_spec (mant x)) as (i & -> & Hi & Hr); [lia|]. cbn [mbind option_bind]. rewrite mask_hidden.
    assert ((mant x * 2 ^ i) `mod` 2 ^ 23 + 2 ^ 23 = mant x * 2 ^ i) as -> by (rewrite <-(Z.mod_unique (mant x * 2 ^ i) (2 ^ 23) 1 (mant x * 2 ^ i - 2 ^ 23)) by lia; lia).
    eexists _, _. split; [done|]. split; [done|]. split; [lia|]. rewrite <-Z.mul_assoc, <-Z.pow_add_r by lia. do 2 f_equal. lia.
  - cbn [mbind option_bind]. rewrite mask_hidden, (Z.add_comm (_ * 2 ^ 23)), Z_mod_plus_full, (Z.mod_small (mant x)) by lia.
    eexists _, _. split; [done|]. split; [lia|]. split; [lia|]. rewrite <-Z.mul_assoc, <-Z.pow_add_r by lia. do 2 f_equal. lia.
Qed.

Lemma round_root_spec c q (inexact : bool) : 0 ≤ q < 2 ^ 25 →
  (if inexact then match rm c with RU => s32 (q + 2) | RN => s32 (q + (q .& 1)) | _ => q end else q) .>> 1 = round_root (rm c) (negb inexact) q.
Proof.
  intros Hq. rewrite Z.shiftr_div_pow2 by lia. change (2 ^ 1) with 2. unfold round_root. destruct inexact; [|done]. cbn [negb].
  assert (q .& 1 = q `mod` 2) as -> by (change 1 with (Z.ones 1); rewrite Z.land_ones by lia; done).
  destruct (rm c); try done; rewrite s32_small by (Z.div_mod_to_equations; lia); Z.div_mod_to_equations; lia.
Qed.
Lemma sqrt_mantissa_spec c M m N :
  2 ^ 23 ≤ M < 2 ^ 24 → -149 ≤ m ≤ 127 → M * 2 ^ (m + 126 + 149) = N →
  ∃ v, sqrt_mantissa c M m = Some (v, if bool_decide (ival SP v ^ 2 = N) then c else SETCX c INEXACT) ∧ sqrt_rounded (rm c) N v.
Proof.
  intros HM Hm HN. unfold sqrt_mantissa. assert (m .& 1 = m `mod` 2) as -> by (change 1 with (Z.ones 1); rewrite Z.land_ones by lia; done). rewrite (Z.shiftr_div_pow2 m) by lia. change (2 ^ 1) with 2.
  assert (m = 2 * (m / 2) + m `mod` 2 ∧ 0 ≤ m `mod` 2 < 2 ∧ -75 ≤ m / 2 ≤ 63) as (Em & Ho & Hm2) by (Z.div_mod_to_equations; lia). set (m2 := m / 2) in *.
  set (X := if truthy (m `mod` 2) then s32 (M + M) else M). assert (X = M * 2 ^ (m `mod` 2) ∧ 2 ^ 23 ≤ X < 2 ^ 25) as [EX HX].
  { unfold X. assert (m `mod` 2 = 0 ∨ m `mod` 2 = 1) as [-> | ->] by lia; cbn [truthy Z.eqb negb]; rewrite ?s32_small by lia; lia. }
  rewrite (s32_small (X + X)) by lia. set (A := (X + X) * 2 ^ 24). assert (N = A * 2 ^ (2 * (m2 + 125))) as EN.
  { rewrite <-HN. unfold A. replace (X + X) with (X * 2 ^ 1) by lia. rewrite EX, <-!Z.mul_assoc, <-!Z.pow_add_r by lia. do 2 f_equal. lia. }
  destruct (sqrt_loop A 25 32 (X + X) 0) as (q & El & Hq & HA); [lia|lia|done|unfold A; change (Z.of_nat 25) with 25; lia|unfold A; change (Z.of_nat 25) with 25; lia|].
  change (2 * (0 * 2 ^ Z.of_nat 25)) with 0 in El. change (0 * 2 ^ Z.of_nat 25) with 0 in El. change (2 ^ Z.of_nat 25 .>> 1) with (2 ^ 24) in El. rewrite El. cbn [mbind option_bind].
  assert (truthy (2 * (A - q ^ 2)) = negb (bool_decide (A = q ^ 2))) as ->.
  { case_bool_decide as E; [apply truthy_spec0; lia|apply truthy_spec; lia]. }
  assert (2 ^ 24 ≤ q) as Hq24 by (apply Z.nlt_ge; intros Hlt; pose proof (sq_le (q + 1) (2 ^ 24) ltac:(lia)); unfold A in HA; lia).
  pose proof (round_root_spec c q (negb (bool_decide (A = q ^ 2))) Hq) as Er. rewrite negb_involutive in Er. set (Q := round_root (rm c) (bool_decide (A = q ^ 2)) q) in *.
  assert (2 ^ 23 ≤ Q ≤ 2 ^ 24) as HQ by (unfold Q, round_root; destruct (bool_decide _), (rm c); Z.div_mod_to_equations; lia).
  destruct (assemble Q (m2 + 126) HQ ltac:(lia)) as (Hw & Hf & Hs & Hv). set (v := of_bits SP _) in *.
  destruct (root_rounded (rm c) A q (m2 + 125) v) as [Hr Hex]; [lia|done| |lia|done|done|done| |].
  { unfold A. rewrite Z.even_mul. apply orb_true_r. }
  { rewrite Hv. do 2 f_equal. lia. }
  rewrite <-EN in Hr, Hex. exists v. split; [|done]. rewrite (bool_decide_ext _ _ Hex).
  assert (∀ q', q' .>> 1 = Q → of_bits SP (s32 (s32 ((q' .>> 1) + 0x3f000000) + s32 (m2 .<< 23)) `mod` 2 ^ 32) = v) as Hfin.
  { intros q' ->. rewrite Z.shiftl_mul_pow2, (s32_small (Q + _)), (s32_small (m2 * _)), s32_small by lia. unfold v. do 2 f_equal. lia. }
  destruct (bool_decide (A = q ^ 2)); cbn [negb] in *; by rewrite Hfin.
Qed.

(** C5: The single precision square root is correctly rounded in every mode and inexact exactly when the root is. *)
Theorem sp_sqrt_correct c x :
  nod c = false → wf SP x → finite SP x = true → sign x = false → ival SP x ≠ 0 →
  ∃ v, ieee754sp_sqrt c x = Some (v, if bool_decide (ival SP v ^ 2 = ival SP x * one_units SP) then CLEARCX c else SETCX (CLEARCX c) INEXACT) ∧
    sqrt_rounded (rm c) (ival SP x * one_units SP) v.
Proof.
  intros Hc Hw Hf Hs H0. unfold ieee754sp_sqrt. rewrite FLUSH_off by done. destruct (explode_value SP x Hw Hf H0) as (Hcl & Hvs & _). unfold sqrt_special. rewrite Hvs, Hs.
  destruct (sqrt_normalise_spec x Hw Hf Hs H0) as (M & m & En & HM & Hm & Hv). destruct (sqrt_mantissa_spec (CLEARCX c) M m (ival SP x * 2 ^ 149) HM Hm Hv) as (v & Ev & Hr).
  exists v. change (one_units SP) with (2 ^ 149). split; [|done]. unfold sp_sqrt_finite. rewrite En. cbn [mbind option_bind]. destruct Hcl as [[-> _]|[-> _]]; exact Ev.
Qed.
Lemma sp_sqrt_correct_witness : ∃ v, ieee754sp_sqrt (csr0 RD) (ften SP false) = Some (v, if bool_decide (ival SP v ^ 2 = ival SP (ften SP false) * one_units SP) then csr0 RD else SETCX (csr0 RD) INEXACT) ∧
  sqrt_rounded RD (ival SP (ften SP false) * one_units SP) v.
Proof. apply (sp_sqrt_correct (csr0 RD) (ften SP false)); done. Defined.

End FpSqrt.
