(* ===== verification/FpTotal.v ===== *)
(** * FpTotal: every operation returns, and what it returns

    For any control register, flushing of denormals included, and any operands:
    each operation of the emulator's library terminates with a well-formed number,
    and changes nothing of the control register but the cause and sticky bits. *)

From S2P Require Import Prelude Ieee754 FpArith FpConv FpSqrt.
Import Ieee754 FpArith FpConv FpSqrt.

Module FpTotal.

Section total.
Context (F : format) `{!Format F}.
Abbreviation p := (MBITS F).

(** [r] is a result, with some exceptions [X] raised in [c]. *)
Definition tot (c : csr) (r : option (fl * csr)) : Prop :=
  ∃ v X, r = Some (v, SETCX c X) ∧ 0 ≤ X < 32 ∧ wf F v.

Lemma lor_flags a b : 0 ≤ a < 32 → 0 ≤ b < 32 → 0 ≤ a .| b < 32.
Proof. intros Ha Hb. rewrite <-(Z.mod_small a (2 ^ 5)), <-(Z.mod_small b (2 ^ 5)), <-!Z.land_ones, <-Z.land_lor_distr_l, Z.land_ones by lia. apply Z.mod_pos_bound. lia. Qed.
Lemma tot_intro c v X : 0 ≤ X < 32 → wf F v → tot c (Some (v, SETCX c X)).
Proof. intros. by exists v, X. Qed.
Lemma tot_same c v : wf F v → tot c (Some (v, c)).
Proof. intros. exists v, 0. by rewrite SETCX_0. Qed.
Lemma tot_SETCX c X r : 0 ≤ X < 32 → tot (SETCX c X) r → tot c r.
Proof. intros HX (v & Y & -> & HY & Hv). exists v, (X .| Y). rewrite SETCX_SETCX. split; [done|]. split; [by apply lor_flags|done]. Qed.

Lemma wf_build s b m : wf F (build F s b m).
Proof. pose proof f_mbits. pose proof f_ebits. split; cbn; apply Z.mod_pos_bound; lia. Qed.
Lemma wf_spcval i sn : wf F (spcval F i sn).
Proof.
  pose proof f_mbits. pose proof (emin_neg F). destruct (exp_range F) as (E1 & E2 & E3 & E4). pose proof f_ebias. pose proof f_ebits.
  assert (2 ^ EBITS F = 2 * 2 ^ (EBITS F - 1)) as Ee by (rewrite <-Z.pow_succ_r by lia; f_equal; lia).
  assert (2 ^ p = 2 * 2 ^ (p - 1) ∧ 2 ^ (p - 1) = 2 * 2 ^ (p - 2) ∧ 0 < 2 ^ (p - 2)) as (P1 & P2 & P3) by (rewrite <-!Z.pow_succ_r by lia; split_and!; try f_equal; lia).
  assert (2 ^ 7 ≤ 2 ^ EBITS F) as H7 by (apply Z.pow_le_mono_r; lia).
  assert (Forall (wf F) (spcvals F)) as Hall by (unfold spcvals; repeat constructor; cbn [konst bexp mant]; lia).
  unfold spcval. destruct (nth_in_or_default (i + (if sn then 1 else 0)) (spcvals F) (konst false 0 0)) as [Hin|E]; [|rewrite E; split; cbn; lia].
  rewrite Forall_forall in Hall. apply Hall. by apply list_elem_of_In.
Qed.

(** ** Rounding *)
Lemma pack_tot c sn xe n : tot c (Some (pack F c sn xe n)).
Proof.
  unfold pack. destruct (_ <? _).
  - rewrite SETCX_SETCX. apply tot_intro; [done|]. cbn. destruct (rm c), sn; apply wf_spcval.
  - destruct (_ =? 0); [|apply tot_same, wf_build]. destruct (truthy _); [apply tot_intro; [done|]|apply tot_same]; apply wf_build.
Qed.
Lemma format_pack_tot c sn xe xm : tot c (Some (format_pack F c sn xe xm)).
Proof.
  unfold format_pack, round_adjust. destruct (truthy _); [|apply pack_tot].
  destruct (_ =? 0); destruct (truthy _); (apply (tot_SETCX _ INEXACT); [done|]); first [apply pack_tot|apply (tot_SETCX _ UNDERFLOW); [done|]; apply pack_tot].
Qed.
Lemma NORMRET_tot c sn xe xm : tot c (Some (NORMRET F c sn xe xm)).
Proof.
  assert (tot c (Some (format_ F c sn xe xm))) as H.
  { unfold format_. destruct (_ <? _); [|apply format_pack_tot]. destruct (nod c).
    - rewrite SETCX_SETCX. apply tot_intro; [done|]. cbn. destruct (rm c), sn; apply wf_spcval.
    - destruct (_ && _); [apply (tot_SETCX _ INEXACT); [done|]|]; apply format_pack_tot. }
  unfold NORMRET. destruct (format_ F c sn xe xm) as [V c']. unfold xcpt. by destruct (TSTX c').
Qed.
Lemma nanxcpt_tot c r : wf F r → tot c (Some (nanxcpt F c r)).
Proof.
  intros Hw. unfold nanxcpt. destruct (negb _); [by apply tot_same|]. destruct (negb _); [|by apply tot_intro].
  destruct (isnan F _); apply tot_intro; try done; [|apply wf_spcval]. destruct Hw as [Hb Hm]. split; cbn; [done|]. pose proof f_mbits.
  assert (0 ≤ Z.ldiff (mant r) (MBIT (p - 1))) by (apply Z.ldiff_nonneg; lia). split; [done|]. apply Z.bounded_iff_bits_nonneg; [lia|done|].
  intros l Hl. rewrite Z.ldiff_spec. rewrite (proj1 (Z.bounded_iff_bits_nonneg p (mant r) ltac:(lia) ltac:(lia)) ltac:(lia)) by done. done.
Qed.

(** ** Operands *)
Definition kwf (k : comp) : Prop :=
  match vc k with NORM => 2 ^ p ≤ vm k < 2 ^ (p + 1) | DNORM => 0 < vm k < 2 ^ p | _ => True end.
Lemma explode_kwf x : wf F x → kwf (EXPLODE F x).
Proof.
  intros [Hb Hm]. pose proof f_mbits. pose proof (pow_p F 1 ltac:(lia)). unfold kwf, EXPLODE.
  destruct (bexp x =? EMAX F + 1 + EBIAS F); [cbn; by repeat case_match|]. destruct (bexp x =? EMIN F - 1 + EBIAS F); [destruct (truthy (mant x)) eqn:Et; cbn; [|done]; apply truthy_spec in Et; lia|].
  cbn. assert (mant x .| HIDDEN_BIT F = mant x + 2 ^ p) as -> by (unfold HIDDEN_BIT, MBIT; rewrite <-(Z.mul_1_l (2 ^ p)); apply lor_add_field; lia). lia.
Qed.
Lemma FLUSH_tot c x : wf F x → ∃ c' x' k' X, FLUSH F c x (EXPLODE F x) = (c', x', k') ∧ c' = SETCX c X ∧ 0 ≤ X < 32 ∧ wf F x' ∧ kwf k'.
Proof.
  intros Hw. unfold FLUSH. destruct (_ && _).
  - eexists _, _, _, INEXACT. split; [done|]. split_and!; try done. apply wf_spcval.
  - exists c, x, (EXPLODE F x), 0. rewrite SETCX_0. split_and!; try done. by apply explode_kwf.
Qed.
Definition normal (k : comp) : Prop := 2 ^ p ≤ vm k < 2 ^ (p + 1).
Lemma DNORM_tot k : vc k = DNORM → kwf k → ∃ k', DNORM_ F k = Some k' ∧ normal k'.
Proof.
  unfold kwf, DNORM_, normal. intros -> Hm. pose proof f_mbits. pose proof f_width. pose proof (pow_p F 1 ltac:(lia)).
  destruct (normalise_spec F p (vm k) (ve k)) as (j & _ & -> & Hr); [lia|lia|]. by eexists.
Qed.

(** ** The four operations on finite operands *)
Lemma tot_bind c m e k sn : 0 ≤ k < W F → 0 < m < 2 ^ (k + 1) → tot c ('(m, e) ← normalise F k m e; Some (NORMRET F c sn e m)).
Proof. intros Hk Hm. destruct (normalise_spec F k m e Hk Hm) as (j & _ & -> & _). apply NORMRET_tot. Qed.
Lemma add_aligned_tot c xs xe xm ys ym : 0 ≤ xm < 2 ^ (p + 4) → 0 ≤ ym < 2 ^ (p + 4) → tot c (add_aligned F c xs xe xm ys ym).
Proof.
  intros Hx Hy. pose proof f_mbits. pose proof f_width. assert (2 ^ (p + 4) ≤ 2 ^ W F) by (apply Z.pow_le_mono_r; lia). unfold add_aligned. case_bool_decide.
  - destruct (truthy _); apply NORMRET_tot.
  - replace (p + 4) with (p + 3 + 1) in * by lia. destruct (Z.leb_spec ym xm); rewrite uw_small by lia;
      (destruct (_ =? 0) eqn:E0; [apply tot_same, wf_spcval|apply Z.eqb_neq in E0; apply tot_bind; lia]).
Qed.
Lemma add_finite_tot c kx ky : normal kx → normal ky → tot c (add_finite F c kx ky).
Proof.
  intros Hx Hy. unfold add_finite, normal in *. pose proof f_mbits. pose proof (pow_p F 4 ltac:(lia)). pose proof (pow_p F 1 ltac:(lia)). rewrite !(shiftl3 F) by lia. assert (0 < 2 ^ p) by lia.
  destruct (Z.ltb_spec (ve ky) (ve kx)); [|destruct (Z.ltb_spec (ve kx) (ve ky))]; apply add_aligned_tot; try lia; apply (srs_range F); lia.
Qed.
Lemma div_finite_tot c kx ky : normal kx → normal ky → tot c (div_finite F c kx ky).
Proof.
  intros Hx Hy. unfold div_finite. destruct (div_quotient F (vm kx) (vm ky) Hx Hy) as (x' & r' & -> & Hm & _). cbn [mbind option_bind]. cbv zeta in *.
  pose proof f_mbits. pose proof f_width. apply tot_bind; [lia|]. replace (p + 3 + 1) with (p + 4) by lia. assert (0 < 2 ^ (p + 2)) by lia. lia.
Qed.
Lemma mul_finite_tot c kx ky : tot c (Some (mul_finite F c kx ky)).
Proof. unfold mul_finite. destruct (Z.testbit _ _); apply NORMRET_tot. Qed.
Lemma negated_wf x : wf F x → wf F {| sign := negb (sign x); bexp := bexp x; mant := mant x |}.
Proof. done. Qed.

(** Flushing an operand, and the cases of its class. *)
Ltac flush := cbv zeta; match goal with |- context [FLUSH F ?c ?x (EXPLODE F ?x)] => let X := fresh "X" in
  destruct (FLUSH_tot c x ltac:(eassumption)) as (? & ? & ? & X & -> & -> & ? & ? & ?); apply (tot_SETCX _ X); [done|] end.
Ltac tot_ret := first [done|apply tot_same; first [done|apply wf_spcval]
  |apply (tot_SETCX _ INVALID_OPERATION); [done|]; apply nanxcpt_tot, wf_spcval
  |apply tot_intro; [done|apply wf_spcval]].
Ltac tot_dnorm := repeat match goal with
  | |- context [DNORM_ F ?k] => let E := fresh in let N := fresh in destruct (DNORM_tot k) as (? & E & N); [done|done|]; rewrite E; clear E; cbn [mbind option_bind]
  end.
Lemma kwf_norm k : vc k = NORM → kwf k → normal k.
Proof. unfold kwf. by intros ->. Qed.
#[local] Hint Resolve kwf_norm : core.

Theorem arith_total c x y : wf F x → wf F y → Forall (λ op, tot (CLEARCX c) (op c x y)) [fadd F; fsub F; fmul F; fdiv F].
Proof.
  intros Hx Hy. rewrite !Forall_cons, Forall_nil. split_and!; [..|done]; unfold fadd, fsub, fmul, fdiv; flush; flush;
    match goal with |- context [match vc ?kx with _ => _ end] => destruct (vc kx) eqn:? end;
    match goal with |- context [match vc ?ky with _ => _ end] => destruct (vc ky) eqn:? | _ => idtac end;
    repeat case_bool_decide; try tot_ret; tot_dnorm; first [apply add_finite_tot; eauto|apply mul_finite_tot|apply div_finite_tot; eauto].
Qed.
End total.

(** ** The other operations *)
Section unary.
Context (F : format) `{!Format F}.

Lemma neg_abs_total c x : wf F x → tot F (CLEARCX c) (Some (fneg F c x)) ∧ tot F (CLEARCX c) (Some (fabs F c x)).
Proof.
  intros Hw. unfold fneg, fabs. split; cbv zeta; destruct (FLUSH_tot F (CLEARCX c) x Hw) as (c' & x' & k' & X & -> & -> & HX & Hx' & _);
    apply (tot_SETCX _ _ X HX) || apply (tot_SETCX F _ X); try done; case_bool_decide; try (by apply tot_same);
    (apply (tot_SETCX F _ INVALID_OPERATION); [done|]); apply nanxcpt_tot; try apply wf_spcval; destruct (wf_spcval F 8 false); done.
Qed.
Lemma from_int_total G `{!Format G} N c x :
  MBITS F + 8 ≤ W G → 1 ≤ N ≤ 64 → - 2 ^ (N - 1) ≤ x < 2 ^ (N - 1) → tot F (CLEARCX c) (from_int F G N c x).
Proof.
  intros HG HN Hx. assert (∀ i sn, tot F (CLEARCX c) (Some (spcval F i sn, CLEARCX c))) as Hsp by (intros; apply (tot_same F); apply wf_spcval; done).
  unfold from_int. destruct (Z.eqb_spec x 0) as [->|Hx0]; [apply Hsp|]. destruct ((x =? 1) || (x =? -1)); [apply Hsp|]. destruct ((x =? 10) || (x =? -10)); [apply Hsp|].
  rewrite int_mag_spec by done. pose proof (@f_mbits F _). pose proof (pow_p F 4 ltac:(lia)) as P4. pose proof (pow_p F 3 ltac:(lia)) as P3.
  assert (0 < Z.abs x ≤ 2 ^ 63) as Ha by (assert (2 ^ (N - 1) ≤ 2 ^ 63) by (apply Z.pow_le_mono_r; lia); lia).
  replace (MBITS F + 1 + 3) with (MBITS F + 4) by lia. rewrite Z.shiftr_div_pow2 by lia. destruct (decide (Z.abs x < 2 ^ (MBITS F + 4))) as [Hlt|Hge].
  - rewrite Z.div_small by lia. cbn [truthy Z.eqb negb]. replace (MBITS F + 4) with (MBITS F + 3 + 1) in Hlt by lia.
    destruct (normalise_spec G (MBITS F + 3) (Z.abs x) (MBITS F + 3)) as (j & _ & -> & _); [lia|lia|]. apply NORMRET_tot. done.
  - assert (truthy (Z.abs x / 2 ^ (MBITS F + 4)) = true) as -> by (apply truthy_spec; assert (1 ≤ Z.abs x / 2 ^ (MBITS F + 4)) by (apply Z.div_le_lower_bound; lia); lia).
    destruct (shunt_loop F 63 64 (Z.abs x) (MBITS F + 3) (Z.abs x) 1) as (o' & j & El & _); [lia|split; [lia|change (Z.of_nat 63) with 63; nia]|lia|left; lia|].
    unfold shunt. rewrite El. apply NORMRET_tot. done.
Qed.
Lemma from_int_exact_total N c x : 1 ≤ N ≤ MBITS F + 1 → - 2 ^ (N - 1) ≤ x < 2 ^ (N - 1) → MBITS F ≤ EMAX F → tot F (CLEARCX c) (from_int_exact F N c x).
Proof. intros HN Hx HE. destruct (from_int_exact_correct F N c x HN HE Hx) as (v & -> & Hw & _). by apply tot_same. Qed.
(** A conversion to an integer returns one of [N] bits. *)
Lemma sw_range N x : 1 ≤ N → - 2 ^ (N - 1) ≤ sw N x < 2 ^ (N - 1).
Proof.
  intros HN. unfold sw. assert (2 ^ N = 2 * 2 ^ (N - 1)) as E by (rewrite <-Z.pow_succ_r by lia; f_equal; lia). assert (0 < 2 ^ N) by lia.
  pose proof (Z.mod_pos_bound (x + 2 ^ (N - 1)) (2 ^ N)). lia.
Qed.
Definition tot_int (N : Z) (c : csr) (r : Z * csr) : Prop := - 2 ^ (N - 1) ≤ fst r < 2 ^ (N - 1) ∧ ∃ X, snd r = SETCX c X ∧ 0 ≤ X < 32.
Lemma tot_int_intro N c r X : - 2 ^ (N - 1) ≤ r < 2 ^ (N - 1) → 0 ≤ X < 32 → tot_int N c (r, SETCX c X).
Proof. intros. split; [done|]. by exists X. Qed.
Lemma tot_int_same N c r : - 2 ^ (N - 1) ≤ r < 2 ^ (N - 1) → tot_int N c (r, c).
Proof. intros. split; [done|]. exists 0. by rewrite SETCX_0. Qed.
Lemma to_int_total N conv c x : 1 ≤ N → (∀ c xs xe xm, tot_int N c (conv c xs xe xm)) → wf F x → tot_int N (CLEARCX c) (to_int F N conv c x).
Proof.
  intros HN Hconv Hw. unfold to_int. cbv zeta. destruct (FLUSH_tot F (CLEARCX c) x Hw) as (c' & x' & k' & X & -> & -> & HX & _ & _). assert (0 < 2 ^ (N - 1)) by lia.
  assert (∀ r, tot_int N (SETCX (CLEARCX c) X) r → tot_int N (CLEARCX c) r) as Hs.
  { intros [r cr] [Hr (Y & E & HY)]. cbn in *. subst cr. rewrite SETCX_SETCX. apply tot_int_intro; [done|by apply lor_flags]. }
  apply Hs. destruct (vc k'); try apply Hconv; first [apply tot_int_same; lia|apply tot_int_intro; [unfold si_indef; lia|done]].
Qed.
Lemma int_ret_total N c X xs xm : 1 ≤ N → 0 ≤ X < 32 → tot_int N c (int_ret N (SETCX c X) xs xm).
Proof. intros. apply tot_int_intro; [by apply sw_range|done]. Qed.
Lemma conv_total N res whole : 1 ≤ N → (∀ c xs xe xm, tot_int N c (to_int_finite F N res whole c xs xe xm)) ∧ (∀ c xs xe xm, tot_int N c (to_int_late F N c xs xe xm)).
Proof.
  intros HN. assert (0 < 2 ^ (N - 1)) by lia. assert (∀ c, tot_int N c (int_invalid N c)) as Hinv by (intros; apply tot_int_intro; [unfold si_indef; lia|done]).
  assert (∀ c xs xm, tot_int N c (int_ret N c xs xm)) as Hret by (intros; apply tot_int_same, sw_range; done).
  split; intros; unfold to_int_finite, to_int_late; repeat (case_match; try done); try (by apply int_ret_total); apply tot_int_same; lia.
Qed.
End unary.

(** Between the formats. *)
Lemma tot_const F `{!Format F} c i sn : tot F c (Some (spcval F i sn, c)).
Proof. apply tot_same. by apply wf_spcval. Qed.
Lemma tot_nan F `{!Format F} c i sn : tot F c (Some (nanxcpt F (SETCX c INVALID_OPERATION) (spcval F i sn))).
Proof. apply (tot_SETCX F _ INVALID_OPERATION); [done|]. apply nanxcpt_tot; [done|]. by apply wf_spcval. Qed.
Lemma fdp_total c x : wf DP x → tot SP (CLEARCX c) (Some (ieee754sp_fdp c x)).
Proof.
  intros Hw. unfold ieee754sp_fdp. cbv zeta. destruct (FLUSH_tot DP (CLEARCX c) x Hw) as (c' & x' & k' & X & -> & -> & HX & _ & _). apply (tot_SETCX SP _ X); [done|]. set (c1 := SETCX _ X).
  destruct (vc k'); [apply NORMRET_tot|apply tot_const| |apply tot_const|apply tot_nan|]; try apply _.
  - rewrite SETCX_SETCX. unfold xcpt. destruct (_ || _); apply (tot_intro SP); try done; by apply (wf_spcval SP).
  - apply nanxcpt_tot; [apply _|]. destruct (isnan SP _); [by apply (wf_build SP)|by apply (wf_spcval SP)].
Qed.
Lemma fsp_total c x : wf SP x → tot DP (CLEARCX c) (ieee754dp_fsp c x).
Proof.
  intros Hw. unfold ieee754dp_fsp. cbv zeta. destruct (FLUSH_tot SP (CLEARCX c) x Hw) as (c' & x' & k' & X & -> & -> & HX & _ & Hk). apply (tot_SETCX DP _ X); [done|]. set (c1 := SETCX _ X). unfold kwf in Hk.
  destruct (vc k'); [by apply tot_same, (wf_build DP)|apply tot_const| |apply tot_const|apply tot_nan|]; try apply _.
  - cbn [MBITS SP] in *. destruct (normalise_spec SP 23 (vm k') (ve k')) as (j & _ & -> & _); [cbn; lia|lia|]. apply tot_same. by apply (wf_build DP).
  - apply nanxcpt_tot; [apply _|]. by apply (wf_build DP).
Qed.

(** Square roots. *)
Lemma sqrt_special_total F `{!Format F} c x k r : wf F x → sqrt_special F c x k = Some r → tot F c (Some r).
Proof.
  intros Hw. unfold sqrt_special. destruct (vc k); try (destruct (vs k)); intros [= <-]; first [by apply tot_same|by apply tot_nan|by apply nanxcpt_tot].
Qed.
Lemma sp_sqrt_total c x : wf SP x → tot SP (CLEARCX c) (ieee754sp_sqrt c x).
Proof.
  intros Hw. unfold ieee754sp_sqrt, FLUSH. destruct (bool_decide _ && _); cbv zeta.
  { apply (tot_SETCX SP _ INEXACT); [done|]. cbn. apply tot_const. apply _. }
  destruct (sqrt_special SP (CLEARCX c) x (EXPLODE SP x)) as [r|] eqn:Es; [by apply (sqrt_special_total SP _ x (EXPLODE SP x))|].
  assert (finite SP x = true ∧ sign x = false ∧ ival SP x ≠ 0) as (Hf & Hs & H0).
  { unfold sqrt_special, EXPLODE in Es. unfold finite, ival. destruct Hw as [Hb Hm]. cbn [EMAX EMIN EBIAS SP MBITS] in *. change (127 + 1 + 127) with 255 in *. change (-126 - 1 + 127) with 0 in *.
    destruct (Z.eqb_spec (bexp x) 255); [cbn in Es; by repeat case_match|].
    destruct (Z.eqb_spec (bexp x) 0); [destruct (truthy (mant x)) eqn:Et; cbn in Es; [|done]; apply truthy_spec in Et; destruct (sign x); done|].
    cbn in Es. destruct (sign x); [done|]. split_and!; try done. assert (0 < 2 ^ (bexp x - 1)) by lia. nia. }
  destruct (sqrt_normalise_spec x Hw Hf Hs H0) as (M & m & En & HM & Hm & Hv). unfold sp_sqrt_finite. rewrite En. cbn [mbind option_bind].
  destruct (sqrt_mantissa_spec (CLEARCX c) M m _ HM Hm Hv) as (v & -> & Hv' & _). case_bool_decide; [by apply tot_same|by apply tot_intro].
Qed.

Lemma op_some (op : csr → fl → fl → option (fl * csr)) : op ∈ [fadd DP; fsub DP; fmul DP; fdiv DP] → ∀ c x y, wf DP x → wf DP y → ∃ v c', op c x y = Some (v, c') ∧ wf DP v.
Proof.
  intros Hop c x y Hx Hy. pose proof (arith_total DP c x y Hx Hy) as H. rewrite Forall_forall in H. destruct (H op) as (v & X & -> & _ & Hv); [done|]. by exists v, (SETCX (CLEARCX c) X).
Qed.
Lemma add_bexp_wf x d : wf DP x → wf DP (add_bexp x d).
Proof. intros [_ Hm]. split; [|done]. cbn [add_bexp bexp]. by apply (Z.mod_pos_bound _ (2 ^ 11)). Qed.
(** Run one operation of a chain on well-formed numbers. *)
Ltac chain := match goal with
  | |- context [?op DP ?c ?x ?y] => let v := fresh "v" in let c' := fresh "c" in let E := fresh "E" in let H := fresh "Hwf" in
      destruct (op_some (op DP) ltac:(set_solver) c x y) as (v & c' & E & H); [first [done|by apply (of_bits_wf DP)|by apply add_bexp_wf]..|]; rewrite E; clear E; cbn [mbind option_bind]
  end.
Lemma sqrt_improve_total c x y : wf DP x → wf DP y → ∃ v c', sqrt_improve c x y = Some (v, c') ∧ wf DP v.
Proof. intros Hx Hy. unfold sqrt_improve. cbv zeta. repeat chain. eexists _, _. split; [done|done]. Qed.
Lemma sqrt_correct_total c old x y scalx : wf DP x → wf DP y → tot DP old (sqrt_correct c old x y scalx).
Proof.
  intros Hx Hy. unfold sqrt_correct. cbv zeta. chain. destruct (_ || _); [|apply tot_same; by apply add_bexp_wf].
  assert (∀ z d, wf DP (add_bits z d)) as Hb by (intros; by apply (of_bits_wf DP)).
  destruct (rm old), (truthy _); chain; try apply tot_intro; try done; try (by apply add_bexp_wf); apply Hb.
Qed.

Lemma dp_sqrt_total c x : wf DP x → tot DP (CLEARCX c) (ieee754dp_sqrt c x).
Proof.
  intros Hw. unfold ieee754dp_sqrt. cbv zeta. destruct (FLUSH_tot DP (CLEARCX c) x Hw) as (c' & x' & k' & X & -> & -> & HX & Hx' & Hk). apply (tot_SETCX DP _ X); [done|]. set (c1 := SETCX _ X).
  assert (∀ k, tot DP c1 (match sqrt_special DP c1 x' k with Some r => Some r | None => dp_sqrt_finite c1 k end)) as Hrest.
  { intros k. destruct (sqrt_special DP c1 x' k) as [r|] eqn:Es; [by apply (sqrt_special_total DP c1 x' k)|]. unfold dp_sqrt_finite. cbv zeta.
    assert (∀ xe scalx, tot DP c1 (let x := build DP false (xe + EBIAS DP) (Z.ldiff (vm k) (HIDDEN_BIT DP)) in
      '(y, c) ← sqrt_improve (with_mx_sx c1 RN (Z.ldiff (sx c1) INEXACT) (Z.ldiff (mx c1) INEXACT)) x (sqrt_guess x); sqrt_correct c c1 x y scalx)) as Hfin.
    { intros xe scalx. cbv zeta. set (z := build DP _ _ _). assert (wf DP z) as Hz by (by apply (wf_build DP)).
      edestruct (sqrt_improve_total (with_mx_sx c1 RN (Z.ldiff (sx c1) INEXACT) (Z.ldiff (mx c1) INEXACT)) z (sqrt_guess z)) as (y & c2 & -> & Hy); [done|by apply (of_bits_wf DP)|]. by apply sqrt_correct_total. }
    destruct (512 <? ve k); [apply Hfin|]. destruct (ve k <? -512); apply Hfin. }
  case_bool_decide as Hd; [|apply Hrest]. destruct (DNORM_tot DP k' Hd Hk) as (k2 & -> & _). apply Hrest.
Qed.


End FpTotal.
