(* ===== verification/Cp1emu.v ===== *)
(** * Cp1emu: emulation of floating-point instructions

    cp1emu.c, dsemul.c and kernel_linkage.c of arch/mips/math-emu, and the branch
    emulation of kernel/branch.c that they use: the decoder and the execution of
    every COP1 and COP1X instruction, loads and stores, moves between the register
    files, FP branches with the instruction in their delay slot, and the frame on
    the user stack for an integer instruction in that slot.

    Both files set __mips to 4, so the MIPS IV instructions are compiled; the
    kernel is a 32-bit one without an FPU, so __mips64 is not defined and
    cop1_64bit is 0: a double is in an even register, the odd register number is
    its upper half. *)

From S2P Require Import Prelude Ieee754 FpArith FpConv FpSqrt FpTotal.
Import Ieee754 FpArith FpConv FpSqrt.

Module Cp1emu.

(** ** User memory, as get_user and put_user see it: sizes and addresses in bytes *)
Class UserMem (M : Type) := {
  get_user : Z → Z → M → option Z;
  put_user : Z → Z → Z → M → option M }.
Class UserMemLaws (M : Type) `{!UserMem M} := {
  get_range n a (m : M) v : 0 ≤ n → get_user n a m = Some v → 0 ≤ v < 2 ^ (8 * n);
  get_put_same n a v (m m' : M) : 0 ≤ n → put_user n a v m = Some m' → 0 ≤ v < 2 ^ (8 * n) → get_user n a m' = Some v;
  get_put_other n a v k b (m m' : M) : 0 ≤ n → 0 ≤ k → put_user n a v m = Some m' → b + k ≤ a ∨ a + n ≤ b → get_user k b m' = get_user k b m }.
Definition access_ok (a size : Z) : bool := (0x80000000 .& (a .| u32 (a + size))) =? 0.

(** ** The control register: ieee754_csr is an alias of fcr31 *)
Definition rm_of (w : Z) : rmode := match w `mod` 4 with 0 => RN | 1 => RZ | 2 => RD | _ => RU end.
Definition of_rm (r : rmode) : Z := match r with RN => 0 | RZ => 1 | RD => 2 | RU => 3 end.
Definition csr_of (w : Z) : csr :=
  {| rm := rm_of w; sx := (w .>> 2) `mod` 2 ^ 5; mx := (w .>> 7) `mod` 2 ^ 5; cx := (w .>> 12) `mod` 2 ^ 6;
     pad1 := (w .>> 18) `mod` 2 ^ 5; cbit := Z.testbit w 23; nod := Z.testbit w 24; pad0 := (w .>> 25) `mod` 2 ^ 7 |}.
Definition of_csr (c : csr) : Z :=
  of_rm (rm c) + sx c * 2 ^ 2 + mx c * 2 ^ 7 + cx c * 2 ^ 12 + pad1 c * 2 ^ 18 + Z.b2z (cbit c) * 2 ^ 23 + Z.b2z (nod c) * 2 ^ 24 + pad0 c * 2 ^ 25.

Definition FPU_CSR_COND : Z := 0x00800000.
Definition FPU_CSR_RSVD : Z := 0x001c0000.
Definition FPU_CSR_ALL_X : Z := 0x0003f000.
Definition FPU_CSR_ALL_E : Z := 0x00000f80.
Definition FPU_CSR_RM : Z := 3.
(** cause and sticky bit of an exception *)
Definition INV_XS : Z := 0x00010000 .| 0x00000040.
Definition DIV_XS : Z := 0x00008000 .| 0x00000020.
Definition OVF_XS : Z := 0x00004000 .| 0x00000010.
Definition UDF_XS : Z := 0x00002000 .| 0x00000008.
Definition INE_XS : Z := 0x00001000 .| 0x00000004.
Definition modeindex (v : Z) : Z := v .& FPU_CSR_RM.
Definition ieee_rm (v : Z) : Z := nth (Z.to_nat v) [0; 1; 3; 2] 0.
Definition mips_rm (v : Z) : Z := nth (Z.to_nat v) [0; 1; 3; 2] 0.
Definition fpucondbit (i : Z) : Z :=
  nth (Z.to_nat i) [0x00800000; 0x02000000; 0x04000000; 0x08000000; 0x10000000; 0x20000000; 0x40000000; 0x80000000] 0.

(** ** Instruction fields *)
Definition MIPSInst_OPCODE (x : Z) : Z := x .>> 26.
Definition MIPSInst_RS (x : Z) : Z := (x .& 0x03e00000) .>> 21.
Definition MIPSInst_RT (x : Z) : Z := (x .& 0x001f0000) .>> 16.
Definition MIPSInst_RD (x : Z) : Z := (x .& 0x0000f800) .>> 11.
Definition MIPSInst_FUNC (x : Z) : Z := x .& 0x3f.
Definition MIPSInst_SIMM (x : Z) : Z := let i := x .& 0xffff in if 0x8000 <=? i then i - 0x10000 else i.
Definition MIPSInst_JTARGET (x : Z) : Z := x .& 0x03ffffff.
Definition MIPSInst_FFMT (x : Z) : Z := (x .& 0x01e00000) .>> 21.
Definition MIPSInst_FT : Z → Z := MIPSInst_RT.
Definition MIPSInst_FS : Z → Z := MIPSInst_RD.
Definition MIPSInst_FD (x : Z) : Z := (x .& 0x000007c0) .>> 6.
Definition MIPSInst_FR : Z → Z := MIPSInst_RS.
Definition MIPSInst_FMA_FFMT (x : Z) : Z := x .& 3.

(** enum major_op *)
Abbreviation spec_op := 0.
Abbreviation bcond_op := 1.
Abbreviation j_op := 2.
Abbreviation jal_op := 3.
Abbreviation beq_op := 4.
Abbreviation bne_op := 5.
Abbreviation blez_op := 6.
Abbreviation bgtz_op := 7.
Abbreviation cop0_op := 16.
Abbreviation cop1_op := 17.
Abbreviation cop2_op := 18.
Abbreviation cop1x_op := 19.
Abbreviation beql_op := 20.
Abbreviation bnel_op := 21.
Abbreviation blezl_op := 22.
Abbreviation bgtzl_op := 23.
Abbreviation jalx_op := 29.
Abbreviation lwc1_op := 49.
Abbreviation ldc1_op := 53.
Abbreviation swc1_op := 57.
Abbreviation sdc1_op := 61.
(** enum spec_op *)
Abbreviation movc_op := 1.
Abbreviation jr_op := 8.
Abbreviation jalr_op := 9.
(** enum rt_op *)
Abbreviation bltz_op := 0.
Abbreviation bgez_op := 1.
Abbreviation bltzl_op := 2.
Abbreviation bgezl_op := 3.
Abbreviation bltzal_op := 16.
Abbreviation bgezal_op := 17.
Abbreviation bltzall_op := 18.
Abbreviation bgezall_op := 19.
Abbreviation bposge32_op := 28.
(** enum cop_op *)
Abbreviation mfc_op := 0.
Abbreviation cfc_op := 2.
Abbreviation mtc_op := 4.
Abbreviation ctc_op := 6.
Abbreviation bc_op := 8.
(** enum bcop_op *)
Abbreviation bcf_op := 0.
Abbreviation bct_op := 1.
Abbreviation bcfl_op := 2.
Abbreviation bctl_op := 3.
(** enum cop1_fmt *)
Abbreviation s_fmt := 0.
Abbreviation d_fmt := 1.
Abbreviation w_fmt := 4.
(** enum cop1_sdw_func *)
Abbreviation fadd_op := 0.
Abbreviation fsub_op := 1.
Abbreviation fmul_op := 2.
Abbreviation fdiv_op := 3.
Abbreviation fsqrt_op := 4.
Abbreviation fabs_op := 5.
Abbreviation fmov_op := 6.
Abbreviation fneg_op := 7.
Abbreviation fround_op := 12.
Abbreviation ftrunc_op := 13.
Abbreviation fceil_op := 14.
Abbreviation ffloor_op := 15.
Abbreviation fmovc_op := 17.
Abbreviation fmovz_op := 18.
Abbreviation fmovn_op := 19.
Abbreviation frecip_op := 21.
Abbreviation frsqrt_op := 22.
Abbreviation fcvts_op := 32.
Abbreviation fcvtd_op := 33.
Abbreviation fcvtw_op := 36.
Abbreviation fcmp_op := 48.
(** enum cop1x_func *)
Abbreviation lwxc1_op := 0.
Abbreviation ldxc1_op := 1.
Abbreviation pfetch_op := 7.
Abbreviation swxc1_op := 8.
Abbreviation sdxc1_op := 9.
Abbreviation madd_s_op := 32.
Abbreviation madd_d_op := 33.
Abbreviation msub_s_op := 40.
Abbreviation msub_d_op := 41.
Abbreviation nmadd_s_op := 48.
Abbreviation nmadd_d_op := 49.
Abbreviation nmsub_s_op := 56.
Abbreviation nmsub_d_op := 57.
(** Signals *)
Abbreviation SIGILL := 4.
Abbreviation SIGFPE := 8.
Abbreviation SIGBUS := 10.
Abbreviation SIGSEGV := 11.

(** ** State *)
Record pt_regs := { regs : list Z; cp0_epc : Z; cp0_cause : Z }.
Record fpu := { fprs : list Z; fcr31 : Z }.
Definition CAUSEF_BD : Z := 2 ^ 31.
Definition in_bd (x : pt_regs) : bool := truthy (cp0_cause x .& CAUSEF_BD).
Definition gpr (x : pt_regs) (n : Z) : Z := nth (Z.to_nat n) (regs x) 0.
Definition set_gpr (n v : Z) (x : pt_regs) : pt_regs := {| regs := <[Z.to_nat n := v]> (regs x); cp0_epc := cp0_epc x; cp0_cause := cp0_cause x |}.
Definition set_epc (v : Z) (x : pt_regs) : pt_regs := {| regs := regs x; cp0_epc := v; cp0_cause := cp0_cause x |}.
Definition set_cause (v : Z) (x : pt_regs) : pt_regs := {| regs := regs x; cp0_epc := cp0_epc x; cp0_cause := v |}.
Definition clear_bd (x : pt_regs) : pt_regs := set_cause (Z.ldiff (cp0_cause x) CAUSEF_BD) x.
Definition fpr (c : fpu) (n : Z) : Z := nth (Z.to_nat n) (fprs c) 0.
Definition set_fpr (n v : Z) (c : fpu) : fpu := {| fprs := <[Z.to_nat n := v]> (fprs c); fcr31 := fcr31 c |}.
Definition set_fcr31 (v : Z) (c : fpu) : fpu := {| fprs := fprs c; fcr31 := v |}.

(** cop1_64bit is 0 *)
Definition SIFROMREG (c : fpu) (x : Z) : Z := if Z.even x then u32 (fpr c x) else u32 (fpr c (Z.ldiff x 1) .>> 32).
Definition SITOREG (si x : Z) (c : fpu) : fpu :=
  let x' := Z.ldiff x 1 in
  set_fpr x' (if Z.even x then ((fpr c x' .>> 32) .<< 32) .| u32 si
              else (u64 (fpr c x' .<< 32) .>> 32) .| u64 (si .<< 32)) c.
Definition DIFROMREG (c : fpu) (x : Z) : Z := fpr c (Z.ldiff x 1).
Definition DITOREG (di x : Z) (c : fpu) : fpu := set_fpr (Z.ldiff x 1) di c.
Definition SPFROMREG (c : fpu) (x : Z) : fl := of_bits SP (SIFROMREG c x).
Definition SPTOREG (v : fl) (x : Z) (c : fpu) : fpu := SITOREG (bits SP v) x c.
Definition DPFROMREG (c : fpu) (x : Z) : fl := of_bits DP (DIFROMREG c x).
Definition DPTOREG (v : fl) (x : Z) (c : fpu) : fpu := DITOREG (bits DP v) x c.

(** A library call: it reads and writes ieee754_csr. *)
Definition run {A} (f : csr → option (A * csr)) (c : fpu) : option (A * fpu) :=
  '(a, k) ← f (csr_of (fcr31 c)); Some (a, set_fcr31 (of_csr k) c).
Definition ieee754_cxtest (c : fpu) (n : Z) : bool := truthy (cx (csr_of (fcr31 c)) .& n).
Definition pending (w : Z) : bool := truthy (((w .>> 5) .& w) .& FPU_CSR_ALL_E).

(** ** fpu_emu *)
Inductive rv := RVs (v : fl) | RVd (v : fl) | RVw (w : Z) | RVcond (b : bool).
Definition copcsr (c : fpu) : Z :=
  (if ieee754_cxtest c INEXACT then INE_XS else 0) .| (if ieee754_cxtest c UNDERFLOW then UDF_XS else 0)
  .| (if ieee754_cxtest c OVERFLOW then OVF_XS else 0) .| (if ieee754_cxtest c ZERO_DIVIDE then DIV_XS else 0)
  .| (if ieee754_cxtest c INVALID_OPERATION then INV_XS else 0).
Definition cmptab (i : Z) : Z :=
  nth (Z.to_nat i) [0; CUN; CEQ; CEQ .| CUN; CLT; CLT .| CUN; CLT .| CEQ; (CLT .| CEQ) .| CUN] 0.

Definition frecip (F : format) (c : csr) (d : fl) : option (fl * csr) := fdiv F c (fone F false) d.
Definition fpemu_sp_rsqrt (c : csr) (d : fl) : option (fl * csr) := '(q, c) ← ieee754sp_sqrt c d; fdiv SP c (fone SP false) q.
Definition fpemu_dp_rsqrt (c : csr) (d : fl) : option (fl * csr) := '(q, c) ← ieee754dp_sqrt c d; fdiv DP c (fone DP false) q.

(** The cases of s_fmt and d_fmt are the same code with the functions of the format. *)
Record fmt := {
  f_format : format; f_read : fpu → Z → fl; f_rv : fl → rv;
  f_sqrt : csr → fl → option (fl * csr); f_rsqrt : csr → fl → option (fl * csr);
  f_cvts : option (csr → fl → option (rv * csr)); f_cvtd : option (csr → fl → option (rv * csr));
  f_tint : csr → fl → Z * csr }.
Definition fmt_s : fmt := {|
  f_format := SP; f_read := SPFROMREG; f_rv := RVs; f_sqrt := ieee754sp_sqrt; f_rsqrt := fpemu_sp_rsqrt;
  f_cvts := None; f_cvtd := Some (λ c x, '(v, c) ← ieee754dp_fsp c x; Some (RVd v, c)); f_tint := ieee754sp_tint |}.
Definition fmt_d : fmt := {|
  f_format := DP; f_read := DPFROMREG; f_rv := RVd; f_sqrt := ieee754dp_sqrt; f_rsqrt := fpemu_dp_rsqrt;
  f_cvts := Some (λ c x, let '(v, c) := ieee754sp_fdp c x in Some (RVs v, c)); f_cvtd := None; f_tint := ieee754dp_tint |}.

(** What the decoder yields: return at once, or the value, the new csr bits and the context. *)
Inductive dec := DRet (sig : Z) | DVal (v : rv) (rcsr : Z) (c : fpu).
Definition csr_op (f : csr → option (rv * csr)) (c : fpu) : option dec :=
  '(v, c) ← run f c; Some (DVal v (copcsr c) c).
Definition as_rv (mk : fl → rv) (r : option (fl * csr)) : option (rv * csr) := '(v, c) ← r; Some (mk v, c).
Definition fpu_compare (fm : fmt) (ir : Z) (c : fpu) : option dec :=
  let cmpop := MIPSInst_FUNC ir - fcmp_op in
  let sig := truthy (cmpop .& 8) in
  '(b, c) ← run (λ k, Some (fcmp (f_format fm) k (f_read fm c (MIPSInst_FS ir)) (f_read fm c (MIPSInst_FT ir)) (cmptab (cmpop .& 7)) sig)) c;
  Some (DVal (RVcond b) (if sig && ieee754_cxtest c INVALID_OPERATION then INV_XS else copcsr c) c).
Definition fpu_decode (fm : fmt) (xcp : pt_regs) (ir : Z) (c : fpu) : option dec :=
  let F := f_format fm in
  let fs := f_read fm c (MIPSInst_FS ir) in
  let ft := f_read fm c (MIPSInst_FT ir) in
  let func := MIPSInst_FUNC ir in
  let binop f := csr_op (λ k, as_rv (f_rv fm) (f k fs ft)) c in
  let unop f := csr_op (λ k, as_rv (f_rv fm) (f k fs)) c in
  let move := Some (DVal (f_rv fm fs) 0 c) in
  if func =? fadd_op then binop (fadd F) else
  if func =? fsub_op then binop (fsub F) else
  if func =? fmul_op then binop (fmul F) else
  if func =? fdiv_op then binop (fdiv F) else
  if func =? fsqrt_op then unop (f_sqrt fm) else
  if func =? frsqrt_op then unop (f_rsqrt fm) else
  if func =? frecip_op then unop (frecip F) else
  if func =? fmovc_op then
    let cond := fpucondbit (MIPSInst_FT ir .>> 2) in
    if negb (Bool.eqb (truthy (fcr31 c .& cond)) (truthy (MIPSInst_FT ir .& 1))) then Some (DRet 0) else move
  else if func =? fmovz_op then if negb (gpr xcp (MIPSInst_FT ir) =? 0) then Some (DRet 0) else move
  else if func =? fmovn_op then if gpr xcp (MIPSInst_FT ir) =? 0 then Some (DRet 0) else move
  else if func =? fabs_op then unop (λ k x, Some (fabs F k x)) else
  if func =? fneg_op then unop (λ k x, Some (fneg F k x)) else
  if func =? fmov_op then Some (DVal (f_rv fm fs) (copcsr c) c) else
  if func =? fcvts_op then match f_cvts fm with None => Some (DRet SIGILL) | Some f => csr_op (λ k, f k fs) c end else
  if func =? fcvtd_op then match f_cvtd fm with None => Some (DRet SIGILL) | Some f => csr_op (λ k, f k fs) c end else
  if func =? fcvtw_op then csr_op (λ k, let '(w, k) := f_tint fm k fs in Some (RVw w, k)) c else
  if (fround_op <=? func) && (func <=? ffloor_op) then
    csr_op (λ k, let '(w, k') := f_tint fm (with_rm k (rm_of (ieee_rm (modeindex func)))) fs in Some (RVw w, with_rm k' (rm k))) c
  else if fcmp_op <=? func then fpu_compare fm ir c
  else Some (DRet SIGILL).
Definition fpu_decode_w (ir : Z) (c : fpu) : option dec :=
  let x := s32 (SIFROMREG c (MIPSInst_FS ir)) in
  let func := MIPSInst_FUNC ir in
  if func =? fcvts_op then csr_op (λ k, as_rv RVs (ieee754sp_fint k x)) c else
  if func =? fcvtd_op then csr_op (λ k, as_rv RVd (ieee754dp_fint k x)) c
  else Some (DRet SIGILL).

Definition write_result (v : rv) (ir : Z) (c : fpu) : fpu :=
  match v with
  | RVcond b =>
      let cond := fpucondbit (MIPSInst_FD ir .>> 2) in
      set_fcr31 (if b then fcr31 c .| cond else Z.ldiff (fcr31 c) cond) c
  | RVd v => DPTOREG v (MIPSInst_FD ir) c
  | RVs v => SPTOREG v (MIPSInst_FD ir) c
  | RVw w => SITOREG w (MIPSInst_FD ir) c
  end.
Definition fpu_emu (xcp : pt_regs) (c : fpu) (ir : Z) : option (Z * fpu) :=
  let rfmt := MIPSInst_FFMT ir .& 0xf in
  d ← (if rfmt =? s_fmt then fpu_decode fmt_s xcp ir c else
       if rfmt =? d_fmt then fpu_decode fmt_d xcp ir c else
       if rfmt =? w_fmt then fpu_decode_w ir c else Some (DRet SIGILL));
  match d with
  | DRet sig => Some (sig, c)
  | DVal v rcsr c =>
      let c := set_fcr31 (Z.ldiff (fcr31 c) FPU_CSR_ALL_X .| rcsr) c in
      if pending (fcr31 c) then Some (SIGFPE, c) else Some (0, write_result v ir c)
  end.

(** ** fpux_emu: MIPS IV *)
Definition DEF3OP (f1 f2 : csr → fl → fl → option (fl * csr)) (f3 : csr → fl → fl * csr) (c : csr) (r s t : fl) : option (fl * csr) :=
  '(s, c1) ← f1 c s t;
  '(s, c2) ← f2 c1 s r;
  let save_cx := cx c1 .| cx c2 in
  let save_sx := sx c1 .| sx c2 in
  let '(s, c3) := f3 c2 s in
  Some (s, with_cx c3 (sx c3 .| save_sx) (cx c3 .| save_cx)).
Definition nothing (c : csr) (s : fl) : fl * csr := (s, c).
Definition fpemu_madd (F : format) := DEF3OP (fmul F) (fadd F) nothing.
Definition fpemu_msub (F : format) := DEF3OP (fmul F) (fsub F) nothing.
Definition fpemu_nmadd (F : format) := DEF3OP (fmul F) (fadd F) (fneg F).
Definition fpemu_nmsub (F : format) := DEF3OP (fmul F) (fsub F) (fneg F).
Definition copcsr_x (c : fpu) : Z :=
  (if ieee754_cxtest c INEXACT then INE_XS else 0) .| (if ieee754_cxtest c UNDERFLOW then UDF_XS else 0)
  .| (if ieee754_cxtest c OVERFLOW then OVF_XS else 0) .| (if ieee754_cxtest c INVALID_OPERATION then INV_XS else 0).

Section emulator.
Context {M : Type} `{!UserMem M}.
(** [forced] has the signals force_sig sent, [fault] what *fault_addr was set to. *)
Record st := { xcp : pt_regs; ctx : fpu; mem : M; fault : option Z; forced : list Z }.
Definition upd_xcp (f : pt_regs → pt_regs) (s : st) : st := {| xcp := f (xcp s); ctx := ctx s; mem := mem s; fault := fault s; forced := forced s |}.
Definition upd_ctx (f : fpu → fpu) (s : st) : st := {| xcp := xcp s; ctx := f (ctx s); mem := mem s; fault := fault s; forced := forced s |}.
Definition set_mem (m : M) (s : st) : st := {| xcp := xcp s; ctx := ctx s; mem := m; fault := fault s; forced := forced s |}.
Definition set_fault (a : Z) (s : st) : st := {| xcp := xcp s; ctx := ctx s; mem := mem s; fault := Some a; forced := forced s |}.
Definition force_sig (n : Z) (s : st) : st := {| xcp := xcp s; ctx := ctx s; mem := mem s; fault := fault s; forced := forced s ++ [n] |}.
Definition epc (s : st) : Z := cp0_epc (xcp s).

(** access_ok and __get_user, __put_user, with the returns on their failures. *)
Definition uread (n a : Z) (s : st) : Z * st + Z :=
  if negb (access_ok a n) then inl (SIGBUS, set_fault a s) else
  match get_user n a (mem s) with None => inl (SIGSEGV, set_fault a s) | Some v => inr v end.
Definition uwrite (n a v : Z) (s : st) : Z * st + st :=
  if negb (access_ok a n) then inl (SIGBUS, set_fault a s) else
  match put_user n a v (mem s) with None => inl (SIGSEGV, set_fault a s) | Some m => inr (set_mem m s) end.

(** Result of an instruction that changes the state only: signal and state. *)
Definition load (n a : Z) (k : Z → fpu → fpu) (s : st) : Z * st :=
  match uread n a s with inl r => r | inr v => (0, upd_ctx (k v) s) end.
Definition store (n a v : Z) (s : st) : Z * st :=
  match uwrite n a v s with inl r => r | inr s => (0, s) end.

Definition fma (F : format) (h : csr → fl → fl → fl → option (fl * csr)) (rd : fpu → Z → fl) (wr : fl → Z → fpu → fpu) (ir : Z) (s : st) : option (Z * st) :=
  let c := ctx s in
  '(v, c) ← run (λ k, h k (rd c (MIPSInst_FR ir)) (rd c (MIPSInst_FS ir)) (rd c (MIPSInst_FT ir))) c;
  let c := wr v (MIPSInst_FD ir) c in
  let c := set_fcr31 (Z.ldiff (fcr31 c) FPU_CSR_ALL_X .| copcsr_x c) c in
  Some (if pending (fcr31 c) then SIGFPE else 0, upd_ctx (λ _, c) s).
Definition fpux_emu (ir : Z) (s : st) : option (Z * st) :=
  let func := MIPSInst_FUNC ir in
  let va := u32 (gpr (xcp s) (MIPSInst_FR ir) + gpr (xcp s) (MIPSInst_FT ir)) in
  let fd := MIPSInst_FD ir in
  if MIPSInst_FMA_FFMT ir =? s_fmt then
    if func =? lwxc1_op then Some (load 4 va (λ v, SITOREG v fd) s) else
    if func =? swxc1_op then Some (store 4 va (SIFROMREG (ctx s) (MIPSInst_FS ir)) s) else
    if func =? madd_s_op then fma SP (fpemu_madd SP) SPFROMREG SPTOREG ir s else
    if func =? msub_s_op then fma SP (fpemu_msub SP) SPFROMREG SPTOREG ir s else
    if func =? nmadd_s_op then fma SP (fpemu_nmadd SP) SPFROMREG SPTOREG ir s else
    if func =? nmsub_s_op then fma SP (fpemu_nmsub SP) SPFROMREG SPTOREG ir s
    else Some (SIGILL, s)
  else if MIPSInst_FMA_FFMT ir =? d_fmt then
    if func =? ldxc1_op then Some (load 8 va (λ v, DITOREG v fd) s) else
    if func =? sdxc1_op then Some (store 8 va (DIFROMREG (ctx s) (MIPSInst_FS ir)) s) else
    if func =? madd_d_op then fma DP (fpemu_madd DP) DPFROMREG DPTOREG ir s else
    if func =? msub_d_op then fma DP (fpemu_msub DP) DPFROMREG DPTOREG ir s else
    if func =? nmadd_d_op then fma DP (fpemu_nmadd DP) DPFROMREG DPTOREG ir s else
    if func =? nmsub_d_op then fma DP (fpemu_nmsub DP) DPFROMREG DPTOREG ir s
    else Some (SIGILL, s)
  else if MIPSInst_FMA_FFMT ir =? 7 then
    if negb (func =? pfetch_op) then Some (SIGILL, s) else Some (0, s)
  else Some (SIGILL, s).

(** ** Branches *)
Definition isBranchInstr (i : Z) : bool :=
  let op := MIPSInst_OPCODE i in
  if op =? spec_op then (MIPSInst_FUNC i =? jalr_op) || (MIPSInst_FUNC i =? jr_op)
  else if op =? bcond_op then
    bool_decide (MIPSInst_RT i ∈ [bltz_op; bgez_op; bltzl_op; bgezl_op; bltzal_op; bgezal_op; bltzall_op; bgezall_op])
  else if bool_decide (op ∈ [j_op; jal_op; jalx_op; beq_op; bne_op; blez_op; bgtz_op; beql_op; bnel_op; blezl_op; bgtzl_op]) then true
  else if bool_decide (op ∈ [cop0_op; cop1_op; cop2_op; cop1x_op]) then MIPSInst_RS i =? bc_op
  else false.

(** branch.c: EPC after the branch at EPC; the result is -EFAULT or 0. *)
Definition EFAULT : Z := 14.
Definition branch_to (e insn : Z) (taken : bool) : Z := u32 (if taken then e + 4 + (MIPSInst_SIMM insn .<< 2) else e + 8).
Definition compute_return_epc (s : st) : Z * st :=
  let e := epc s in
  if truthy (e .& 3) then (- EFAULT, force_sig SIGBUS s) else
  match get_user 4 e (mem s) with
  | None => (- EFAULT, force_sig SIGSEGV s)
  | Some insn =>
      let r n := gpr (xcp s) n in
      let rs := MIPSInst_RS insn in let rt := MIPSInst_RT insn in
      let op := MIPSInst_OPCODE insn in
      let goto a := (0, upd_xcp (set_epc a) s) in
      let branch taken := goto (branch_to e insn taken) in
      let link n s := upd_xcp (set_gpr n (u32 (e + 8))) s in
      if op =? spec_op then
        if MIPSInst_FUNC insn =? jalr_op then
          let s := link (MIPSInst_RD insn) s in (0, upd_xcp (set_epc (gpr (xcp s) rs)) s)
        else if MIPSInst_FUNC insn =? jr_op then goto (r rs) else (0, s)
      else if op =? bcond_op then
        if (rt =? bltz_op) || (rt =? bltzl_op) then branch (s32 (r rs) <? 0)
        else if (rt =? bgez_op) || (rt =? bgezl_op) then branch (0 <=? s32 (r rs))
        else if (rt =? bltzal_op) || (rt =? bltzall_op) then
          let s := link 31 s in (0, upd_xcp (set_epc (branch_to e insn (s32 (gpr (xcp s) rs) <? 0))) s)
        else if (rt =? bgezal_op) || (rt =? bgezall_op) then
          let s := link 31 s in (0, upd_xcp (set_epc (branch_to e insn (0 <=? s32 (gpr (xcp s) rs)))) s)
        else if rt =? bposge32_op then (- EFAULT, force_sig SIGBUS s)
        else (0, s)
      else if (op =? jal_op) || (op =? j_op) then
        let s := if op =? jal_op then link 31 s else s in
        (0, upd_xcp (set_epc ((u32 (e + 4) .>> 28 .<< 28) .| (MIPSInst_JTARGET insn .<< 2))) s)
      else if (op =? beq_op) || (op =? beql_op) then branch (r rs =? r rt)
      else if (op =? bne_op) || (op =? bnel_op) then branch (negb (r rs =? r rt))
      else if (op =? blez_op) || (op =? blezl_op) then branch (s32 (r rs) <=? 0)
      else if (op =? bgtz_op) || (op =? bgtzl_op) then branch (0 <? s32 (r rs))
      else if op =? cop1_op then
        let bit := rt .>> 2 in
        let bit := bit + Z.b2z (truthy bit) + 23 in
        let flag := Z.testbit (fcr31 (ctx s)) bit in
        if (rt .& 3 =? 0) || (rt .& 3 =? 2) then branch (negb flag) else branch flag
      else (0, s)
  end.

(** ** dsemul.c: the instruction in the delay slot runs from the user stack *)
Definition BREAK_MATH : Z := 0x0000000d .| (514 .<< 16).
Definition BD_COOKIE : Z := 0x0000bd36.
Definition emuframe_size : Z := 16.
(** err |= __put_user(v, a) *)
Definition put_err (n a v : Z) (r : bool * M) : bool * M :=
  match put_user n a v (snd r) with Some m => (fst r, m) | None => (true, snd r) end.
Definition mips_dsemul (ir cpc : Z) (s : st) : Z * st :=
  if ir =? 0 then (0, upd_xcp (λ x, clear_bd (set_epc cpc x)) s) else
  let fr := Z.ldiff (u32 (gpr (xcp s) 29 - emuframe_size)) 7 in
  if negb (access_ok fr emuframe_size) then (SIGBUS, s) else
  let '(err, m) := put_err 4 (fr + 12) cpc (put_err 4 (fr + 8) BD_COOKIE (put_err 4 (fr + 4) BREAK_MATH (put_err 4 fr ir (false, mem s)))) in
  let s := set_mem m s in
  if (err : bool) then (SIGBUS, s) else (SIGILL, upd_xcp (set_epc fr) s).
Definition do_dsemulret (s : st) : Z * st :=
  let fr := u32 (epc s - 4) in
  if negb (access_ok fr emuframe_size) then (0, s) else
  match get_user 4 (fr + 4) (mem s), get_user 4 (fr + 8) (mem s) with
  | Some insn, Some cookie =>
      if negb (insn =? BREAK_MATH) || negb (cookie =? BD_COOKIE) then (0, s) else
      match get_user 4 (fr + 12) (mem s) with
      | None => (0, force_sig SIGBUS s)
      | Some e => (1, upd_xcp (set_epc e) s)
      end
  | _, _ => (0, s)
  end.

(** ** cop1Emulate *)
Inductive out := Next (s : st) (contpc : Z) | Ret (sig : Z) (s : st) | Again (s : st) (ir contpc : Z).
(** What follows an instruction: "we did it" or the signal. *)
Definition after (contpc : Z) (r : Z * st) : out := if fst r =? 0 then Next (snd r) contpc else Ret (fst r) (snd r).

Definition is_ours (ir : Z) : bool :=
  bool_decide (MIPSInst_OPCODE ir ∈ [lwc1_op; swc1_op; ldc1_op; sdc1_op; cop1_op; cop1x_op]) ||
  (MIPSInst_OPCODE ir =? spec_op) && (MIPSInst_FUNC ir =? movc_op).
Definition emul_bc (ir contpc : Z) (s : st) : out :=
  if in_bd (xcp s) then Ret SIGILL s else
  let cond := truthy (fcr31 (ctx s) .& fpucondbit (MIPSInst_RT ir .>> 2)) in
  let kind := MIPSInst_RT ir .& 3 in
  let likely := (kind =? bcfl_op) || (kind =? bctl_op) in
  let cond := if (kind =? bcfl_op) || (kind =? bcf_op) then negb cond else cond in
  let s := upd_xcp (λ x, set_cause (cp0_cause x .| CAUSEF_BD) x) s in
  if cond then
    let s := upd_xcp (λ x, set_epc (u32 (cp0_epc x + 4)) x) s in
    let contpc := u32 (epc s + (MIPSInst_SIMM ir .<< 2)) in
    match uread 4 (epc s) s with
    | inl (sig, s) => Ret sig s
    | inr ir =>
        if is_ours ir then Again s ir contpc
        else let '(sig, s) := mips_dsemul ir contpc s in Ret sig s
    end
  else if likely then Next (upd_xcp (λ x, set_epc (u32 (cp0_epc x + 4)) x) s) (u32 (contpc + 4))
  else Next s contpc.
Definition emul_cfc (ir : Z) (s : st) : st :=
  let value :=
    if MIPSInst_RD ir =? 31 then
      let v := fcr31 (ctx s) in Z.ldiff v FPU_CSR_RM .| mips_rm (modeindex v)
    else 0 in
  if MIPSInst_RT ir =? 0 then s else upd_xcp (set_gpr (MIPSInst_RT ir) value) s.
Definition emul_ctc (ir : Z) (s : st) : Z * st :=
  let value := if MIPSInst_RT ir =? 0 then 0 else gpr (xcp s) (MIPSInst_RT ir) in
  let s := if MIPSInst_RD ir =? 31 then
             upd_ctx (set_fcr31 (Z.ldiff value (FPU_CSR_RSVD .| FPU_CSR_RM) .| ieee_rm (modeindex value))) s
           else s in
  (if pending (fcr31 (ctx s)) then SIGFPE else 0, s).
Definition emul_cop1 (ir contpc : Z) (s : st) : option out :=
  let rs := MIPSInst_RS ir in let rt := MIPSInst_RT ir in let rd := MIPSInst_RD ir in
  if rs =? mfc_op then Some (Next (if rt =? 0 then s else upd_xcp (set_gpr rt (SIFROMREG (ctx s) rd)) s) contpc)
  else if rs =? mtc_op then Some (Next (upd_ctx (SITOREG (gpr (xcp s) rt) rd) s) contpc)
  else if rs =? cfc_op then Some (Next (emul_cfc ir s) contpc)
  else if rs =? ctc_op then Some (after contpc (emul_ctc ir s))
  else if rs =? bc_op then Some (emul_bc ir contpc s)
  else if (rs .& 0x10) =? 0 then Some (Ret SIGILL s)
  else '(sig, c) ← fpu_emu (xcp s) (ctx s) ir; Some (after contpc (sig, upd_ctx (λ _, c) s)).
Definition emul_movc (ir : Z) (s : st) : st :=
  let cond := fpucondbit (MIPSInst_RT ir .>> 2) in
  if Bool.eqb (truthy (fcr31 (ctx s) .& cond)) (truthy (MIPSInst_RT ir .& 1))
  then upd_xcp (set_gpr (MIPSInst_RD ir) (gpr (xcp s) (MIPSInst_RS ir))) s else s.
Definition emul_one (ir contpc : Z) (s : st) : option out :=
  let op := MIPSInst_OPCODE ir in
  let va := u32 (gpr (xcp s) (MIPSInst_RS ir) + MIPSInst_SIMM ir) in
  let rt := MIPSInst_RT ir in
  if op =? ldc1_op then Some (after contpc (load 8 va (λ v, DITOREG v rt) s))
  else if op =? sdc1_op then Some (after contpc (store 8 va (DIFROMREG (ctx s) rt) s))
  else if op =? lwc1_op then Some (after contpc (load 4 va (λ v, SITOREG v rt) s))
  else if op =? swc1_op then Some (after contpc (store 4 va (SIFROMREG (ctx s) rt) s))
  else if op =? cop1_op then emul_cop1 ir contpc s
  else if op =? cop1x_op then r ← fpux_emu ir s; Some (after contpc r)
  else if op =? spec_op then
    if negb (MIPSInst_FUNC ir =? movc_op) then Some (Ret SIGILL s) else Some (Next (emul_movc ir s) contpc)
  else Some (Ret SIGILL s).
(** emul: the instruction, and then the one in the delay slot of a taken branch *)
Fixpoint emul (fuel : nat) (ir contpc : Z) (s : st) : option (Z * st) :=
  match fuel with
  | O => None
  | S fuel =>
      o ← emul_one ir contpc s;
      match o with
      | Next s contpc => Some (0, upd_xcp (λ x, clear_bd (set_epc contpc x)) s)
      | Ret sig s => Some (sig, s)
      | Again s ir contpc => emul fuel ir contpc s
      end
  end.
Definition cop1Emulate (s : st) : option (Z * st) :=
  match uread 4 (epc s) s with
  | inl r => Some r
  | inr ir =>
      let s := if in_bd (xcp s) && negb (isBranchInstr ir) then upd_xcp clear_bd s else s in
      if in_bd (xcp s) then
        let emulpc := u32 (epc s + 4) in
        let '(err, s) := compute_return_epc s in
        if negb (err =? 0) then Some (SIGILL, s) else
        match uread 4 emulpc s with
        | inl r => Some r
        | inr ir => emul 2 ir (epc s) (upd_xcp (set_epc (u32 (emulpc - 4))) s)
        end
      else emul 2 ir (u32 (epc s + 4)) s
  end.

(** ** fpu_emulator_cop1Handler, without an FPU: as many instructions as follow *)
Definition set_rm (f : Z → Z) (c : fpu) : fpu := set_fcr31 (Z.ldiff (fcr31 c) 3 .| f (fcr31 c .& 3)) c.
Definition handler_round (has_fpu : bool) (s : st) : option (st + Z * st) :=
  let prevepc := epc s in
  match uread 4 (epc s) s with
  | inl r => Some (inr r)
  | inr insn =>
      '(sig, s) ← (if insn =? 0 then Some (0, upd_xcp (λ x, set_epc (u32 (cp0_epc x + 4)) x) s)
                   else '(sig, s) ← cop1Emulate (upd_ctx (set_rm ieee_rm) s); Some (sig, upd_ctx (set_rm mips_rm) s));
      Some (if has_fpu || negb (sig =? 0) then inr (sig, s) else if prevepc <? epc s then inl s else inr (0, s))
  end.
Fixpoint handler_loop (has_fpu : bool) (fuel : nat) (s : st) : option (Z * st) :=
  match fuel with
  | O => None
  | S fuel => r ← handler_round has_fpu s; match r with inl s => handler_loop has_fpu fuel s | inr r => Some r end
  end.
Definition fpu_emulator_cop1Handler (fuel : nat) (has_fpu : bool) (s : st) : option (Z * st) :=
  let oldepc := epc s in
  '(sig, s) ← handler_loop has_fpu fuel s;
  Some (if (sig =? SIGILL) && negb (epc s =? oldepc) then 0 else sig, s).

(** ** kernel_linkage.c *)
Definition SIGNALLING_NAN : Z := 0x7ff800007ff80000.
Definition fpu_emulator_init_fpu : fpu := {| fprs := replicate 32 SIGNALLING_NAN; fcr31 := 0 |}.
(** Offsets in struct sigcontext *)
Definition sc_fpregs (i : nat) : Z := 272 + 8 * Z.of_nat i.
Definition sc_fpc_csr : Z := 532.
Definition fpu_emulator_save_context (sc : Z) (c : fpu) (m : M) : bool * M :=
  put_err 4 (sc + sc_fpc_csr) (fcr31 c)
    (foldl (λ r i, put_err 8 (sc + sc_fpregs i) (fpr c (Z.of_nat i)) r) (false, m) (seq 0 32)).
Definition fpu_emulator_restore_context (sc : Z) (c : fpu) (m : M) : bool * fpu :=
  let get n a := match get_user n a m with Some v => (false, v) | None => (true, 0) end in
  let '(err, c) := foldl (λ '(err, c) i, let '(e, v) := get 8 (sc + sc_fpregs i) in ((err : bool) || e, set_fpr (Z.of_nat i) v c)) (false, c) (seq 0 32) in
  let '(e, v) := get 4 (sc + sc_fpc_csr) in
  (err || e, set_fcr31 v c).
End emulator.
#[global] Arguments st : clear implicits.
#[global] Arguments out : clear implicits.

(** A flat memory of mapped bytes, little endian. *)
Definition bytes := gmap Z Z.
Fixpoint get_bytes (n : nat) (a : Z) (m : bytes) : option Z :=
  match n with O => Some 0 | S n => b ← m !! a; r ← get_bytes n (a + 1) m; Some (b `mod` 256 + 256 * r) end.
Fixpoint put_bytes (n : nat) (a v : Z) (m : bytes) : option bytes :=
  match n with
  | O => Some m
  | S n => _ ← m !! a; put_bytes n (a + 1) (v / 256) (<[a := v `mod` 256]> m)
  end.
#[export] Instance bytes_mem : UserMem bytes := {
  get_user n a m := get_bytes (Z.to_nat n) a m; put_user n a v m := put_bytes (Z.to_nat n) a v m }.

(** ** The control register and its bit fields *)
Record csr_wf (c : csr) : Prop := {
  w_sx : 0 ≤ sx c < 2 ^ 5; w_mx : 0 ≤ mx c < 2 ^ 5; w_cx : 0 ≤ cx c < 2 ^ 6; w_pad1 : 0 ≤ pad1 c < 2 ^ 5; w_pad0 : 0 ≤ pad0 c < 2 ^ 7 }.
Lemma csr_of_wf w : csr_wf (csr_of w).
Proof. split; cbn; apply Z.mod_pos_bound; lia. Qed.
Lemma of_csr_range c : csr_wf c → 0 ≤ of_csr c < 2 ^ 32.
Proof. intros []. unfold of_csr. assert (0 ≤ of_rm (rm c) < 4) by (destruct (rm c); cbn; lia). destruct (cbit c), (nod c); cbn [Z.b2z]; lia. Qed.
Lemma field_get w low f rest k n : w = low + (f + rest * 2 ^ n) * 2 ^ k → 0 ≤ k → 0 ≤ n → 0 ≤ low < 2 ^ k → 0 ≤ f < 2 ^ n → (w .>> k) `mod` 2 ^ n = f.
Proof. intros -> Hk Hn Hl Hf. rewrite Z.shiftr_div_pow2, Z.div_add, Z.div_small, Z.add_0_l, Z.mod_add, Z.mod_small by lia. done. Qed.
Lemma field_split w k n : 0 ≤ k → 0 ≤ n → w .>> k = (w .>> k) `mod` 2 ^ n + 2 ^ n * (w .>> (k + n)).
Proof.
  intros Hk Hn. rewrite <-Z.shiftr_shiftr by lia. generalize (w .>> k). intros v. rewrite Z.shiftr_div_pow2 by lia. pose proof (Z.div_mod v (2 ^ n) ltac:(lia)). lia.
Qed.
Lemma testbit_field w k : 0 ≤ k → Z.b2z (Z.testbit w k) = (w .>> k) `mod` 2 ^ 1.
Proof. intros Hk. by rewrite Z.testbit_spec', Z.shiftr_div_pow2 by done. Qed.
Lemma of_rm_of w : of_rm (rm_of w) = w `mod` 4.
Proof. unfold rm_of. pose proof (Z.mod_pos_bound w 4 ltac:(lia)). assert (w `mod` 4 = 0 ∨ w `mod` 4 = 1 ∨ w `mod` 4 = 2 ∨ w `mod` 4 = 3) as [-> |[-> |[-> | ->]]] by lia; done. Qed.
Lemma rm_of_of r k : rm_of (of_rm r + 4 * k) = r.
Proof. unfold rm_of. rewrite (Z.mul_comm 4), Z.mod_add by lia. by destruct r. Qed.

Theorem csr_roundtrip w : 0 ≤ w < 2 ^ 32 → of_csr (csr_of w) = w.
Proof.
  intros Hw. unfold of_csr, csr_of. cbn [rm sx mx cx pad1 cbit nod pad0]. rewrite of_rm_of, !testbit_field by lia.
  pose proof (field_split w 0 2 ltac:(lia) ltac:(lia)) as E0. pose proof (field_split w 2 5 ltac:(lia) ltac:(lia)) as E1. pose proof (field_split w 7 5 ltac:(lia) ltac:(lia)) as E2. pose proof (field_split w 12 6 ltac:(lia) ltac:(lia)) as E3. pose proof (field_split w 18 5 ltac:(lia) ltac:(lia)) as E4.
  pose proof (field_split w 23 1 ltac:(lia) ltac:(lia)) as E5. pose proof (field_split w 24 1 ltac:(lia) ltac:(lia)) as E6. rewrite Z.shiftr_0_r in E0. change (2 ^ 2) with 4 in *.
  assert ((w .>> 25) `mod` 2 ^ 7 = w .>> 25) as -> by (rewrite Z.shiftr_div_pow2 by lia; apply Z.mod_small; split; [apply Z.div_pos; lia|apply Z.div_lt_upper_bound; lia]).
  change (0 + 2) with 2 in E0. change (2 + 5) with 7 in E1. change (7 + 5) with 12 in E2. change (12 + 6) with 18 in E3. change (18 + 5) with 23 in E4. change (23 + 1) with 24 in E5. change (24 + 1) with 25 in E6. lia.
Qed.
Lemma csr_of_of c : csr_wf c → csr_of (of_csr c) = c.
Proof.
  intros []. destruct c as [r s m x p1 cb nd p0]. cbn in *. set (w := of_csr _).
  assert (w = of_rm r + s * 2 ^ 2 + m * 2 ^ 7 + x * 2 ^ 12 + p1 * 2 ^ 18 + Z.b2z cb * 2 ^ 23 + Z.b2z nd * 2 ^ 24 + p0 * 2 ^ 25) as Ew by done. clearbody w.
  assert (0 ≤ of_rm r < 4) by (destruct r; cbn; lia). assert (0 ≤ Z.b2z cb < 2 ∧ 0 ≤ Z.b2z nd < 2) as [] by (destruct cb, nd; cbn; lia).
  unfold csr_of. f_equal.
  - rewrite <-(rm_of_of r (s + m * 2 ^ 5 + x * 2 ^ 10 + p1 * 2 ^ 16 + Z.b2z cb * 2 ^ 21 + Z.b2z nd * 2 ^ 22 + p0 * 2 ^ 23)). f_equal. lia.
  - apply (field_get w (of_rm r) s (m + x * 2 ^ 5 + p1 * 2 ^ 11 + Z.b2z cb * 2 ^ 16 + Z.b2z nd * 2 ^ 17 + p0 * 2 ^ 18)); lia.
  - apply (field_get w (of_rm r + s * 2 ^ 2) m (x + p1 * 2 ^ 6 + Z.b2z cb * 2 ^ 11 + Z.b2z nd * 2 ^ 12 + p0 * 2 ^ 13)); lia.
  - apply (field_get w (of_rm r + s * 2 ^ 2 + m * 2 ^ 7) x (p1 + Z.b2z cb * 2 ^ 5 + Z.b2z nd * 2 ^ 6 + p0 * 2 ^ 7)); lia.
  - apply (field_get w (of_rm r + s * 2 ^ 2 + m * 2 ^ 7 + x * 2 ^ 12) p1 (Z.b2z cb + Z.b2z nd * 2 + p0 * 2 ^ 2)); lia.
  - apply Z.b2z_inj. rewrite testbit_field by lia. apply (field_get w (of_rm r + s * 2 ^ 2 + m * 2 ^ 7 + x * 2 ^ 12 + p1 * 2 ^ 18) (Z.b2z cb) (Z.b2z nd + p0 * 2)); lia.
  - apply Z.b2z_inj. rewrite testbit_field by lia. apply (field_get w (of_rm r + s * 2 ^ 2 + m * 2 ^ 7 + x * 2 ^ 12 + p1 * 2 ^ 18 + Z.b2z cb * 2 ^ 23) (Z.b2z nd) p0); lia.
  - apply (field_get w (of_rm r + s * 2 ^ 2 + m * 2 ^ 7 + x * 2 ^ 12 + p1 * 2 ^ 18 + Z.b2z cb * 2 ^ 23 + Z.b2z nd * 2 ^ 24) p0 0); lia.
Qed.

(** The exceptions of an operation in the word. *)
Definition raise (w X : Z) : Z := of_csr (SETCX (CLEARCX (csr_of w)) X).
Lemma raise_wf w X : 0 ≤ X < 32 → csr_wf (SETCX (CLEARCX (csr_of w)) X).
Proof.
  intros HX. destruct (csr_of_wf w) as [Hs Hm Hc Hp1 Hp0]. split; try done; cbn [SETCX CLEARCX with_cx sx cx].
  - apply FpTotal.lor_flags; done.
  - rewrite Z.lor_0_l. lia.
Qed.

Lemma csr_of_raise w X : 0 ≤ X < 32 → csr_of (raise w X) = SETCX (CLEARCX (csr_of w)) X.
Proof. intros HX. by apply csr_of_of, raise_wf. Qed.
Lemma raise_range w X : 0 ≤ X < 32 → 0 ≤ raise w X < 2 ^ 32.
Proof. intros HX. by apply of_csr_range, raise_wf. Qed.
Lemma field_bit w k n v i : 0 ≤ k → (w .>> k) `mod` 2 ^ n = v → 0 ≤ i < n → Z.testbit w (k + i) = Z.testbit v i.
Proof. intros Hk <- Hi. rewrite Z.mod_pow2_bits_low by lia. rewrite Z.shiftr_spec by lia. f_equal. lia. Qed.
Lemma field_bits w : (∀ i, 0 ≤ i < 5 → Z.testbit w (2 + i) = Z.testbit (sx (csr_of w)) i) ∧ (∀ i, 0 ≤ i < 5 → Z.testbit w (7 + i) = Z.testbit (mx (csr_of w)) i) ∧
  (∀ i, 0 ≤ i < 6 → Z.testbit w (12 + i) = Z.testbit (cx (csr_of w)) i).
Proof. split_and!; intros i Hi; eapply field_bit; done || lia. Qed.
Lemma flag_bits X i : 0 ≤ X < 32 → 5 ≤ i → Z.testbit X i = false.
Proof. intros HX Hi. apply (proj1 (Z.bounded_iff_bits_nonneg 5 X ltac:(lia) ltac:(lia)) ltac:(lia)). done. Qed.

(** copcsr turns the cause bits of the library into cause and sticky bits. *)
Lemma copcsr_cx c X : cx (csr_of (fcr31 c)) = X → 0 ≤ X < 32 → copcsr c = (X .<< 12) .| (X .<< 2).
Proof.
  intros HX Hr. unfold copcsr, ieee754_cxtest. rewrite HX. clear HX.
  assert (∃ n : nat, X = Z.of_nat n ∧ (n < 32)%nat) as (n & -> & Hn) by (exists (Z.to_nat X); lia). clear Hr.
  do 32 (destruct n as [|n]; [reflexivity|]). lia.
Qed.
Lemma writeback w X r : 0 ≤ X < 32 → csr_of r = SETCX (CLEARCX (csr_of w)) X → Z.ldiff r FPU_CSR_ALL_X .| ((X .<< 12) .| (X .<< 2)) = r.
Proof.
  intros HX Hr. destruct (field_bits r) as (Hs & _ & Hc). rewrite Hr in Hs, Hc. cbn [SETCX CLEARCX with_cx sx cx] in Hs, Hc. rewrite Z.lor_0_l in Hc.
  change FPU_CSR_ALL_X with (Z.ones 6 .<< 12). apply Z.bits_inj'. intros n Hn. rewrite !Z.lor_spec, Z.ldiff_spec, !Z.shiftl_spec by lia.
  destruct (decide (12 ≤ n < 18)) as [H1|H1].
  { rewrite Z.ones_spec_low, andb_false_r by lia. replace n with (12 + (n - 12)) at 3 by lia. rewrite Hc by lia. rewrite (flag_bits X (n - 2)) by lia. by rewrite orb_false_r. }
  assert (Z.testbit (Z.ones 6) (n - 12) = false) as -> by (destruct (decide (n < 12)); [apply Z.testbit_neg_r; lia|apply Z.ones_spec_high; lia]). rewrite andb_true_r.
  assert (Z.testbit X (n - 12) = false) as -> by (destruct (decide (n < 12)); [apply Z.testbit_neg_r; lia|apply flag_bits; lia]).
  destruct (decide (2 ≤ n < 7)) as [H2|H2].
  - replace n with (2 + (n - 2)) at 1 3 by lia. rewrite Hs, Z.lor_spec by lia. by destruct (Z.testbit (sx (csr_of w)) (n - 2)), (Z.testbit X (n - 2)).
  - assert (Z.testbit X (n - 2) = false) as -> by (destruct (decide (n < 2)); [apply Z.testbit_neg_r; lia|apply flag_bits; lia]). by rewrite !orb_false_r.
Qed.
(** An enabled exception is one with its bit in the cause and in the enables. *)
Lemma pending_raise w X r : 0 ≤ X < 32 → csr_of r = SETCX (CLEARCX (csr_of w)) X → pending r = truthy (X .& mx (csr_of w)).
Proof.
  intros HX Hr. destruct (field_bits r) as (_ & Hm & Hc). rewrite Hr in Hm, Hc. cbn [SETCX CLEARCX with_cx mx cx] in Hm, Hc. rewrite Z.lor_0_l in Hc. unfold pending.
  assert (((r .>> 5) .& r) .& FPU_CSR_ALL_E = (X .& mx (csr_of w)) .<< 7) as ->.
  { change FPU_CSR_ALL_E with (Z.ones 5 .<< 7). apply Z.bits_inj'. intros n Hn. rewrite !Z.land_spec, Z.shiftr_spec, !Z.shiftl_spec, Z.land_spec by lia.
    destruct (decide (7 ≤ n < 12)) as [H1|H1].
    - rewrite Z.ones_spec_low, andb_true_r by lia. replace (n + 5) with (12 + (n - 7)) by lia. replace n with (7 + (n - 7)) at 2 by lia. by rewrite Hc, Hm by lia.
    - destruct (decide (n < 7)); [rewrite !(Z.testbit_neg_r _ (n - 7)), !andb_false_r by lia; done|]. rewrite Z.ones_spec_high, (flag_bits X), !andb_false_r by lia. done. }
  unfold truthy. rewrite Z.shiftl_mul_pow2 by lia. generalize (X .& mx (csr_of w)). intros y. destruct (Z.eqb_spec (y * 2 ^ 7) 0), (Z.eqb_spec y 0); done || lia.
Qed.

(** ** The register file: a double is a pair of singles *)
Record fpu_wf (c : fpu) : Prop := {
  fw_len : length (fprs c) = 32%nat; fw_fprs : Forall (λ v, 0 ≤ v < 2 ^ 64) (fprs c); fw_csr : 0 ≤ fcr31 c < 2 ^ 32 }.
Lemma nth_insert_eq (l : list Z) i v : (i < length l)%nat → nth i (<[i := v]> l) 0 = v.
Proof. intros Hi. rewrite nth_lookup, list_lookup_insert_eq by done. done. Qed.
Lemma nth_insert_ne (l : list Z) i j v : i ≠ j → nth j (<[i := v]> l) 0 = nth j l 0.
Proof. intros Hi. by rewrite !nth_lookup, list_lookup_insert_ne. Qed.
Lemma nth_forall (P : Z → Prop) l d i : Forall P l → P d → P (nth i l d).
Proof. intros Hl Hd. destruct (nth_in_or_default i l d) as [Hin| ->]; [|done]. rewrite Forall_forall in Hl. apply Hl. by apply list_elem_of_In. Qed.
Lemma fpr_range c n : fpu_wf c → 0 ≤ fpr c n < 2 ^ 64.
Proof. intros [_ Hf _]. apply (nth_forall (λ v, 0 ≤ v < 2 ^ 64)); [done|lia]. Qed.
Lemma fpr_set c n m v : fpu_wf c → 0 ≤ n < 32 → 0 ≤ m → fpr (set_fpr n v c) m = if m =? n then v else fpr c m.
Proof.
  intros [Hl _ _] Hn Hm. unfold fpr, set_fpr. cbn. destruct (Z.eqb_spec m n) as [->|]; [apply nth_insert_eq; lia|apply nth_insert_ne; lia].
Qed.
Lemma set_fpr_wf c n v : fpu_wf c → 0 ≤ v < 2 ^ 64 → fpu_wf (set_fpr n v c).
Proof. intros [Hl Hf Hc] Hv. split; cbn; [by rewrite length_insert|by apply Forall_insert|done]. Qed.
Lemma set_fcr31_wf c w : fpu_wf c → 0 ≤ w < 2 ^ 32 → fpu_wf (set_fcr31 w c).
Proof. intros [Hl Hf Hc] Hw. by split. Qed.
Lemma even_part x : 0 ≤ x < 32 → Z.ldiff x 1 = 2 * (x / 2) ∧ 0 ≤ Z.ldiff x 1 < 32 ∧ x = Z.ldiff x 1 + Z.b2z (negb (Z.even x)).
Proof.
  intros Hx. assert (∃ n : nat, x = Z.of_nat n ∧ (n < 32)%nat) as (n & -> & Hn) by (exists (Z.to_nat x); lia). clear Hx.
  do 32 (destruct n as [|n]; [vm_compute; split_and!; congruence|]). lia.
Qed.
Lemma pair_lo v si : 0 ≤ v < 2 ^ 64 → (v .>> 32 .<< 32) .| u32 si = (v / 2 ^ 32) * 2 ^ 32 + u32 si.
Proof.
  intros Hv. rewrite Z.shiftr_div_pow2, Z.shiftl_mul_pow2, Z.lor_comm by lia. rewrite lor_add_field; [lia|lia|]. unfold u32. apply Z.mod_pos_bound. lia.
Qed.
Lemma pair_hi v si : 0 ≤ v < 2 ^ 64 → (u64 (v .<< 32) .>> 32) .| u64 (si .<< 32) = v `mod` 2 ^ 32 + u32 si * 2 ^ 32.
Proof.
  intros Hv. unfold u64, u32. rewrite !Z.shiftl_mul_pow2, Z.shiftr_div_pow2 by lia. change (2 ^ 64) with (2 ^ 32 * 2 ^ 32). rewrite !Z.mul_mod_distr_r, Z.div_mul by lia.
  apply lor_add_field; [lia|]. apply Z.mod_pos_bound. lia.
Qed.
Lemma SITOREG_value c si x : fpu_wf c → 0 ≤ x < 32 →
  SITOREG si x c = set_fpr (Z.ldiff x 1) (if Z.even x then (fpr c (Z.ldiff x 1) / 2 ^ 32) * 2 ^ 32 + u32 si else fpr c (Z.ldiff x 1) `mod` 2 ^ 32 + u32 si * 2 ^ 32) c.
Proof. intros Hc Hx. unfold SITOREG. cbv zeta. pose proof (fpr_range c (Z.ldiff x 1) Hc). by rewrite pair_lo, pair_hi. Qed.
Lemma SITOREG_wf c si x : fpu_wf c → 0 ≤ x < 32 → fpu_wf (SITOREG si x c).
Proof.
  intros Hc Hx. rewrite SITOREG_value by done. apply set_fpr_wf; [done|]. pose proof (fpr_range c (Z.ldiff x 1) Hc) as Hr. pose proof (u32_range si). set (v := fpr c _) in *. clearbody v.
  destruct (Z.even x); Z.div_mod_to_equations; lia.
Qed.
Lemma SIFROMREG_range c x : 0 ≤ SIFROMREG c x < 2 ^ 32.
Proof. unfold SIFROMREG. destruct (Z.even x); apply u32_range. Qed.

Theorem reg_single c si x y : fpu_wf c → 0 ≤ x < 32 → 0 ≤ y < 32 →
  SIFROMREG (SITOREG si x c) y = if y =? x then u32 si else SIFROMREG c y.
Proof.
  intros Hc Hx Hy. rewrite SITOREG_value by done. pose proof (fpr_range c (Z.ldiff x 1) Hc) as Hr. pose proof (u32_range si).
  destruct (even_part x Hx) as (Ex & Rx & Px), (even_part y Hy) as (Ey & Ry & Py). unfold SIFROMREG. rewrite !fpr_set by (done || lia).
  assert (Z.even y = true → Z.ldiff y 1 = y) as Hev by (intros E; rewrite E in Py; cbn in Py; lia).
  set (v := fpr c (Z.ldiff x 1)) in *. destruct (Z.eqb_spec y x) as [->|Hne].
  - rewrite Z.eqb_refl. destruct (Z.even x) eqn:Ee.
    + rewrite (Hev eq_refl), Z.eqb_refl. unfold u32 at 1. rewrite Z.add_comm, Z.mod_add by lia. apply Z.mod_small. lia.
    + rewrite Z.shiftr_div_pow2, Z.div_add, Z.div_small by (try apply Z.mod_pos_bound; lia). apply Z.mod_small. lia.
  - destruct (Z.even y) eqn:Eey.
    + specialize (Hev eq_refl). destruct (Z.eqb_spec y (Z.ldiff x 1)) as [E|]; [|done]. destruct (Z.even x) eqn:Ee; [cbn in Px; lia|].
      rewrite E. fold v. unfold u32. rewrite Z.mod_add by lia. apply Z.mod_mod. lia.
    + destruct (Z.eqb_spec (Z.ldiff y 1) (Z.ldiff x 1)) as [E|]; [|done]. destruct (Z.even x) eqn:Ee; [|cbn in Px, Py; lia].
      rewrite E. fold v. rewrite !Z.shiftr_div_pow2, Z.div_add_l, (Z.div_small (u32 si)), Z.add_0_r by lia. done.
Qed.
Theorem reg_double c x : fpu_wf c → 0 ≤ x < 32 → DIFROMREG c x = SIFROMREG c (Z.ldiff x 1) + 2 ^ 32 * SIFROMREG c (Z.ldiff x 1 + 1).
Proof.
  intros Hc Hx. destruct (even_part x Hx) as (Ex & Rx & _). pose proof (fpr_range c (Z.ldiff x 1) Hc). unfold DIFROMREG, SIFROMREG. set (e := Z.ldiff x 1) in *.
  assert (Z.even e = true) as He by (rewrite Ex, Z.even_mul; done). assert (Z.even (e + 1) = false) as Ho by (by rewrite Z.even_add, He). rewrite He, Ho.
  assert (Z.ldiff (e + 1) 1 = e) as ->.
  { destruct (even_part (e + 1)) as (_ & _ & P); [rewrite Ex in *; lia|]. rewrite Ho in P. cbn in P. lia. }
  unfold u32. rewrite Z.shiftr_div_pow2 by lia. pose proof (Z.div_mod (fpr c e) (2 ^ 32) ltac:(lia)). rewrite (Z.mod_small (fpr c e / 2 ^ 32)); [lia|]. split; [apply Z.div_pos; lia|apply Z.div_lt_upper_bound; lia].
Qed.
Lemma init_fpu_wf : fpu_wf fpu_emulator_init_fpu.
Proof. split; [done|by apply Forall_replicate|done]. Qed.
Lemma reg_single_witness : SIFROMREG (SITOREG 0xc0ffee 5 fpu_emulator_init_fpu) 5 = 0xc0ffee ∧ SIFROMREG (SITOREG 0xc0ffee 5 fpu_emulator_init_fpu) 4 = 0x7ff80000.
Proof. split; [rewrite (reg_single fpu_emulator_init_fpu 0xc0ffee 5 5)|rewrite (reg_single fpu_emulator_init_fpu 0xc0ffee 5 4)]; try lia; try apply init_fpu_wf; vm_compute; reflexivity. Defined.

End Cp1emu.
