(* ===== verification/Cp1Insn.v ===== *)
(** * Cp1Insn: what one floating-point instruction does

    On the model of Cp1emu.v: an arithmetic instruction stores the correctly
    rounded result or ends with SIGFPE, a compare instruction sets the condition
    its code names, and every COP1 instruction is executed to an end in a
    well-formed register file. *)

From S2P Require Import Prelude Ieee754 FpArith FpConv FpSqrt FpTotal Cp1emu.
Import Ieee754 FpArith FpConv FpSqrt Cp1emu.

Module Cp1Insn.

(** ** Arithmetic instructions *)
Inductive aop := Add | Sub | Mul | Div.
Definition aop_func (o : aop) : Z := match o with Add => fadd_op | Sub => fsub_op | Mul => fmul_op | Div => fdiv_op end.
Definition aop_fn (F : format) (o : aop) : csr → fl → fl → option (fl * csr) :=
  match o with Add => fadd F | Sub => fsub F | Mul => fmul F | Div => fdiv F end.
(** The exact result of finite operands, if it is not zero and not a division by zero:
    its sign and its magnitude as a fraction of units. *)
Definition aop_exact (F : format) (o : aop) (x y : fl) : option (bool * Z * Z) :=
  let sum S := if S =? 0 then None else Some (S <? 0, Z.abs S, 1) in
  match o with
  | Add => sum (val F x + val F y)
  | Sub => sum (val F x - val F y)
  | Mul => if ival F x * ival F y =? 0 then None else Some (xorb (sign x) (sign y), ival F x * ival F y, prod_den F)
  | Div => if (ival F x =? 0) || (ival F y =? 0) then None else Some (xorb (sign x) (sign y), ival F x * prod_den F, ival F y)
  end.
Lemma aop_correct F `{!Format F} o c x y sn N D :
  nod c = false → wf F x → wf F y → finite F x = true → finite F y = true → aop_exact F o x y = Some (sn, N, D) →
  correct F (CLEARCX c) (aop_fn F o c x y) sn N D.
Proof.
  intros Hc Hx Hy Fx Fy. destruct o; cbn [aop_exact aop_fn].
  - pose proof (fadd_correct F c x y Hc Hx Hy Fx Fy) as H. unfold sum_spec in H. destruct (_ =? 0); [done|]. by intros [= <- <- <-].
  - pose proof (fsub_correct F c x y Hc Hx Hy Fx Fy) as H. unfold sum_spec in H. destruct (_ =? 0); [done|]. by intros [= <- <- <-].
  - pose proof (fmul_correct F c x y Hc Hx Hy Fx Fy) as H. destruct (_ =? 0); [done|]. by intros [= <- <- <-].
  - pose proof (fdiv_correct F c x y Hc Hx Hy Fx Fy) as H. destruct (ival F x =? 0); [done|]. cbn [orb]. destruct (_ =? 0); [done|]. by intros [= <- <- <-].
Qed.

Lemma csr_op_spec f c v X : f (csr_of (fcr31 c)) = Some (v, SETCX (CLEARCX (csr_of (fcr31 c))) X) → 0 ≤ X < 32 →
  csr_op f c = Some (DVal v ((X .<< 12) .| (X .<< 2)) (set_fcr31 (raise (fcr31 c) X) c)).
Proof.
  intros Hf HX. unfold csr_op, run. rewrite Hf. cbn [mbind option_bind]. rewrite (copcsr_cx _ X); [done| |done]. cbn [fcr31 set_fcr31].
  change (of_csr (SETCX (CLEARCX (csr_of (fcr31 c))) X)) with (raise (fcr31 c) X). rewrite csr_of_raise by done. cbn. apply Z.lor_0_l.
Qed.
(** How an instruction ends whose operation raised [X]: with SIGFPE if one of these
    is enabled, and only the control register changed, or with the result written. *)
Definition arith_end (ir : Z) (c : fpu) (v : rv) (X : Z) : Z * fpu :=
  let c' := set_fcr31 (raise (fcr31 c) X) c in
  if truthy (X .& mx (csr_of (fcr31 c))) then (SIGFPE, c') else (0, write_result v ir c').
Definition fmt_code (fm : Z) : option fmt := if fm =? s_fmt then Some fmt_s else if fm =? d_fmt then Some fmt_d else None.
Lemma fpu_emu_end fm xcp c ir v X :
  fmt_code (MIPSInst_FFMT ir .& 0xf) = Some fm → 0 ≤ X < 32 →
  fpu_decode fm xcp ir c = Some (DVal v ((X .<< 12) .| (X .<< 2)) (set_fcr31 (raise (fcr31 c) X) c)) →
  fpu_emu xcp c ir = Some (arith_end ir c v X).
Proof.
  intros Hfm HX Hd. unfold fpu_emu, fmt_code in *.
  assert ((if MIPSInst_FFMT ir .& 0xf =? s_fmt then fpu_decode fmt_s xcp ir c else if MIPSInst_FFMT ir .& 0xf =? d_fmt then fpu_decode fmt_d xcp ir c
    else if MIPSInst_FFMT ir .& 0xf =? w_fmt then fpu_decode_w ir c else Some (DRet SIGILL)) = fpu_decode fm xcp ir c) as -> by (destruct (_ =? s_fmt); [by injection Hfm as <-|]; destruct (_ =? d_fmt); [by injection Hfm as <-|done]).
  rewrite Hd. cbn [mbind option_bind fcr31 set_fcr31]. rewrite (writeback (fcr31 c) X) by (done || by apply csr_of_raise). rewrite (pending_raise (fcr31 c) X) by (done || by apply csr_of_raise).
  unfold arith_end. cbn [set_fcr31 fprs]. by destruct (truthy _).
Qed.
Lemma fpu_decode_arith fm xcp c ir o : MIPSInst_FUNC ir = aop_func o →
  fpu_decode fm xcp ir c = csr_op (λ k, as_rv (f_rv fm) (aop_fn (f_format fm) o k (f_read fm c (MIPSInst_FS ir)) (f_read fm c (MIPSInst_FT ir)))) c.
Proof. intros Hf. unfold fpu_decode. rewrite Hf. by destruct o. Qed.
Lemma f_read_wf fm c n : fmt_code 0 = Some fm ∨ fmt_code 1 = Some fm → wf (f_format fm) (f_read fm c n).
Proof. intros [[= <-]|[= <-]]; cbn; apply of_bits_wf; apply _. Qed.


(** ** Compare instructions: the condition in bits 0 to 2 of the function code, the signalling ones with bit 3 *)
Definition relation (F : format) (x y : fl) : option comparison := if isnan F x || isnan F y then None else Some (val F x ?= val F y).
Definition holds (func : Z) (r : option comparison) : bool :=
  match r with None => Z.testbit func 0 | Some Eq => Z.testbit func 1 | Some Lt => Z.testbit func 2 | Some Gt => false end.
Definition compare_flags (F : format) (func : Z) (x y : fl) : Z :=
  if (isnan F x || isnan F y) && (Z.testbit func 3 || bool_decide (class F x = SNAN) || bool_decide (class F y = SNAN)) then INVALID_OPERATION else 0.
Lemma cmptab_spec func : fcmp_op ≤ func < 64 →
  truthy ((func - fcmp_op) .& 8) = Z.testbit func 3 ∧ truthy (cmptab ((func - fcmp_op) .& 7) .& CUN) = Z.testbit func 0 ∧
  ∀ r, truthy (cmptab ((func - fcmp_op) .& 7) .& match r with Lt => CLT | Eq => CEQ | Gt => CGT end) = holds func (Some r).
Proof.
  intros Hf. assert (∃ n : nat, func = fcmp_op + Z.of_nat n ∧ (n < 16)%nat) as (n & -> & Hn) by (exists (Z.to_nat (func - fcmp_op)); lia). clear Hf.
  do 16 (destruct n as [|n]; [split_and!; [done..|]; by intros []|]). lia.
Qed.
Lemma FUNC_range ir : 0 ≤ MIPSInst_FUNC ir < 64.
Proof. unfold MIPSInst_FUNC. change 0x3f with (Z.ones 6). rewrite Z.land_ones by lia. by apply Z.mod_pos_bound. Qed.
Lemma fcmp_relation F `{!Format F} k func x y :
  nod k = false → wf F x → wf F y → fcmp_op ≤ func < 64 →
  fcmp F k x y (cmptab ((func - fcmp_op) .& 7)) (truthy ((func - fcmp_op) .& 8)) = (holds func (relation F x y), SETCX (CLEARCX k) (compare_flags F func x y)).
Proof.
  intros Hk Hx Hy Hf. destruct (cmptab_spec func Hf) as (E3 & E0 & Er). unfold relation, compare_flags.
  assert (SETCX (CLEARCX k) 0 = CLEARCX k) as E by (destruct k; unfold SETCX, CLEARCX, with_cx; cbn; by rewrite Z.lor_0_r).
  destruct (isnan F x) eqn:Nx; [|destruct (isnan F y) eqn:Ny]; cbn [orb andb].
  - rewrite fcmp_unordered by auto. rewrite E3, E0. cbn [holds]. f_equal. by destruct (_ || _).
  - rewrite fcmp_unordered by auto. rewrite E3, E0. cbn [holds]. f_equal. by destruct (_ || _).
  - rewrite fcmp_ordered by done. by rewrite Er, E.
Qed.
Lemma copcsr_compare c X (sig : bool) : X = 0 ∨ X = INVALID_OPERATION → cx (csr_of (fcr31 c)) = X →
  (if sig && ieee754_cxtest c INVALID_OPERATION then INV_XS else copcsr c) = (X .<< 12) .| (X .<< 2).
Proof.
  intros HX Hc. rewrite (copcsr_cx c X Hc) by (destruct HX as [-> | ->]; done). unfold ieee754_cxtest. rewrite Hc. by destruct HX as [-> | ->], sig.
Qed.

(** ** Every instruction is executed to an end, in a well-formed state *)
Lemma field5 x m k : 0 ≤ k → m .>> k = 31 → 0 ≤ (x .& m) .>> k < 32.
Proof. intros Hk Hm. rewrite Z.shiftr_land, Hm. change 31 with (Z.ones 5). rewrite Z.land_ones by lia. apply Z.mod_pos_bound. lia. Qed.
Lemma RS_range x : 0 ≤ MIPSInst_RS x < 32. Proof. by apply field5. Qed.
Lemma RT_range x : 0 ≤ MIPSInst_RT x < 32. Proof. by apply field5. Qed.
Lemma RD_range x : 0 ≤ MIPSInst_RD x < 32. Proof. by apply field5. Qed.
Lemma FD_range x : 0 ≤ MIPSInst_FD x < 32. Proof. by apply field5. Qed.
Lemma ldiff_range n a b : 0 ≤ n → 0 ≤ a < 2 ^ n → 0 ≤ Z.ldiff a b < 2 ^ n.
Proof.
  intros Hn Ha. assert (0 ≤ Z.ldiff a b) by (apply Z.ldiff_nonneg; lia). split; [done|]. apply Z.bounded_iff_bits_nonneg; [done..|]. intros l Hl. rewrite Z.ldiff_spec.
  by rewrite (proj1 (Z.bounded_iff_bits_nonneg n a Hn ltac:(lia)) ltac:(lia)) by done.
Qed.

Lemma SETCX_wf c X : csr_wf c → 0 ≤ X < 32 → csr_wf (SETCX c X).
Proof. intros [Hs Hm Hc Hp1 Hp0] HX. split; try done; cbn [SETCX with_cx sx cx]; apply lor_range; lia. Qed.
Lemma CLEARCX_wf c : csr_wf c → csr_wf (CLEARCX c).
Proof. intros []. by split. Qed.
Lemma with_rm_wf c r : csr_wf c → csr_wf (with_rm c r).
Proof. intros []. by split. Qed.
Lemma FLUSH_wf F c x k : csr_wf c → csr_wf (fst (fst (FLUSH F c x k))).
Proof. intros Hc. unfold FLUSH. destruct (_ && _); cbn; [by apply SETCX_wf|done]. Qed.
Lemma fcmp_wf F c x y cmp sig : csr_wf c → csr_wf (snd (fcmp F c x y cmp sig)).
Proof.
  intros Hc. unfold fcmp. cbv zeta. pose proof (FLUSH_wf F c x (EXPLODE F x) Hc) as H1. destruct (FLUSH F c x _) as [[c1 x1] k1]. cbn in H1.
  pose proof (FLUSH_wf F c1 y (EXPLODE F y) H1) as H2. destruct (FLUSH F c1 y _) as [[c2 y2] k2]. cbn in H2. apply CLEARCX_wf in H2.
  assert (∀ b : bool, csr_wf (if b then SETCX (CLEARCX c2) INVALID_OPERATION else CLEARCX c2)) as H3 by (intros []; [by apply SETCX_wf|done]).
  destruct (_ || isnan F y2); [|done]. destruct (truthy _); [apply H3|]. destruct (_ && _); cbn [snd]; [apply SETCX_wf; [apply H3|done]|apply H3].
Qed.

(** A value of the right format, a word of 32 bits. *)
Definition rv_wf (v : rv) : Prop := match v with RVs v => wf SP v | RVd v => wf DP v | RVw w => - 2 ^ 31 ≤ w < 2 ^ 31 | RVcond _ => True end.
Definition ok (c : csr) (r : option (rv * csr)) : Prop := ∃ v k, r = Some (v, k) ∧ rv_wf v ∧ csr_wf k.
Definition dec_ok (c : fpu) (r : option dec) : Prop :=
  match r with
  | None => False
  | Some (DRet _) => True
  | Some (DVal v rcsr c') => rv_wf v ∧ 0 ≤ rcsr < 2 ^ 32 ∧ ∃ w, c' = set_fcr31 w c ∧ 0 ≤ w < 2 ^ 32
  end.
Lemma copcsr_range c : 0 ≤ copcsr c < 2 ^ 32.
Proof. unfold copcsr. repeat apply lor_range; try lia; destruct (ieee754_cxtest _ _); done. Qed.
Lemma csr_op_ok f c : ok (csr_of (fcr31 c)) (f (csr_of (fcr31 c))) → dec_ok c (csr_op f c).
Proof.
  intros (v & k & E & Hv & Hk). unfold csr_op, run. rewrite E. cbn. split; [done|]. split; [apply copcsr_range|]. eexists. split; [done|]. by apply of_csr_range.
Qed.
Lemma tot_ok F mk c r : csr_wf c → (∀ v, wf F v → rv_wf (mk v)) → FpTotal.tot F (CLEARCX c) r → ok c (as_rv mk r).
Proof. intros Hc Hmk (v & X & -> & HX & Hv). exists (mk v), (SETCX (CLEARCX c) X). split; [done|]. split; [by apply Hmk|]. apply SETCX_wf; [by apply CLEARCX_wf|done]. Qed.

(** What the decoder needs of the operations of a format. *)
Class GoodFmt (fm : fmt) := {
  g_format :: Format (f_format fm);
  g_read c n : wf (f_format fm) (f_read fm c n);
  g_rv v : wf (f_format fm) v → rv_wf (f_rv fm v);
  g_sqrt c x : wf (f_format fm) x → FpTotal.tot (f_format fm) (CLEARCX c) (f_sqrt fm c x);
  g_rsqrt c x : csr_wf c → wf (f_format fm) x → ok c (as_rv (f_rv fm) (f_rsqrt fm c x));
  g_cvts f c x : f_cvts fm = Some f → csr_wf c → wf (f_format fm) x → ok c (f c x);
  g_cvtd f c x : f_cvtd fm = Some f → csr_wf c → wf (f_format fm) x → ok c (f c x);
  g_tint c x : wf (f_format fm) x → FpTotal.tot_int 32 (CLEARCX c) (f_tint fm c x) }.
Lemma arith_tot F `{!Format F} o c x y : wf F x → wf F y → FpTotal.tot F (CLEARCX c) (aop_fn F o c x y).
Proof.
  intros Hx Hy. pose proof (FpTotal.arith_total F c x y Hx Hy) as H. rewrite !Forall_cons in H. destruct H as (H1 & H2 & H3 & H4 & _). by destruct o.
Qed.
Lemma recip_ok F `{!Format F} mk c x : csr_wf c → (∀ v, wf F v → rv_wf (mk v)) → wf F x → ok c (as_rv mk (frecip F c x)).
Proof. intros Hc Hmk Hx. apply (tot_ok F); [done..|]. apply (arith_tot F Div); [|done]. apply (FpTotal.wf_spcval F). Qed.
Lemma rsqrt_ok F `{!Format F} mk c r : csr_wf c → (∀ v, wf F v → rv_wf (mk v)) → FpTotal.tot F (CLEARCX c) r → ok c (as_rv mk ('(q, c) ← r; fdiv F c (fone F false) q)).
Proof.
  intros Hc Hmk (q & X & -> & HX & Hq). cbn [mbind option_bind].
  destruct (recip_ok F mk (SETCX (CLEARCX c) X) q) as (v & k & E & Hv); [apply SETCX_wf; [by apply CLEARCX_wf|done]|done|done|]. by exists v, k.
Qed.
#[export] Instance fmt_s_good : GoodFmt fmt_s.
Proof.
  split; cbn; try done; try apply _.
  - intros c n. by apply (of_bits_wf SP).
  - apply FpTotal.sp_sqrt_total.
  - intros c x Hc Hx. apply (rsqrt_ok SP); [done|done|by apply FpTotal.sp_sqrt_total].
  - intros f c x [= <-] Hc Hx. destruct (tot_ok DP RVd c (ieee754dp_fsp c x) Hc) as (v & k & E & Hv); [done|by apply FpTotal.fsp_total|]. exists v, k. split; [|done]. unfold as_rv in E. by destruct (ieee754dp_fsp c x) as [[]|].
  - intros c x Hx. apply (FpTotal.to_int_total SP); [lia|by apply (FpTotal.conv_total SP)|done].
Qed.
#[export] Instance fmt_d_good : GoodFmt fmt_d.
Proof.
  split; cbn; try done; try apply _.
  - intros c n. by apply (of_bits_wf DP).
  - apply FpTotal.dp_sqrt_total.
  - intros c x Hc Hx. apply (rsqrt_ok DP); [done|done|by apply FpTotal.dp_sqrt_total].
  - intros f c x [= <-] Hc Hx. destruct (tot_ok SP RVs c (Some (ieee754sp_fdp c x)) Hc) as (v & k & E & Hv); [done|by apply FpTotal.fdp_total|]. exists v, k. split; [|done]. unfold as_rv in E. by destruct (ieee754sp_fdp c x).
  - intros c x Hx. apply (FpTotal.to_int_total DP); [lia|by apply (FpTotal.conv_total DP 32 (residue1 DP) false)|done].
Qed.

Lemma fpu_decode_ok fm `{!GoodFmt fm} xcp ir c : fpu_wf c → dec_ok c (fpu_decode fm xcp ir c).
Proof.
  intros Hc. pose proof (csr_of_wf (fcr31 c)) as Hk. pose proof (g_read c (MIPSInst_FS ir)) as Hfs. pose proof (g_read c (MIPSInst_FT ir)) as Hft.
  assert (∀ r, (∃ v, r = DVal (f_rv fm (f_read fm c (MIPSInst_FS ir))) v c ∧ 0 ≤ v < 2 ^ 32) → dec_ok c (Some r)) as Hmove.
  { intros r (v & -> & Hv). cbn. split; [by apply g_rv|]. split; [done|]. exists (fcr31 c). split; [by destruct c|apply Hc]. }
  assert (∀ r, FpTotal.tot_int 32 (CLEARCX (csr_of (fcr31 c))) r → ok (csr_of (fcr31 c)) (let '(w, k) := r in Some (RVw w, k))) as Hint.
  { intros [w k] [Hw (X & E & HX)]. cbn in *. eexists _, _. split; [done|]. split; [done|]. subst k. apply SETCX_wf; [by apply CLEARCX_wf|done]. }
  unfold fpu_decode. cbv zeta. repeat match goal with |- context [if MIPSInst_FUNC ir =? ?n then _ else _] => destruct (MIPSInst_FUNC ir =? n) end;
    try (by apply csr_op_ok, (tot_ok (f_format fm)); [done|apply g_rv|first [apply (arith_tot _ Add)|apply (arith_tot _ Sub)|apply (arith_tot _ Mul)|apply (arith_tot _ Div)|apply g_sqrt|apply FpTotal.neg_abs_total]]);
    try (by apply csr_op_ok, g_rsqrt); try (by apply csr_op_ok, recip_ok; [done|apply g_rv|done]);
    try (repeat case_match; first [done|apply Hmove; by exists 0]).
  - apply csr_op_ok, (recip_ok (f_format fm)); [done|apply g_rv|done].
  - apply csr_op_ok, (tot_ok (f_format fm)); [done|apply g_rv|by apply FpTotal.neg_abs_total; [apply g_format|]].
  - apply csr_op_ok, (tot_ok (f_format fm)); [done|apply g_rv|by apply FpTotal.neg_abs_total; [apply g_format|]].
  - apply Hmove. eexists. split; [done|]. apply copcsr_range.
  - destruct (f_cvts fm) as [f|] eqn:Ef; [|done]. apply csr_op_ok. by apply (g_cvts f).
  - destruct (f_cvtd fm) as [f|] eqn:Ef; [|done]. apply csr_op_ok. by apply (g_cvtd f).
  - apply csr_op_ok, Hint. by apply g_tint.
  - destruct (_ && _).
    + apply csr_op_ok. set (r := rm_of _). destruct (g_tint (with_rm (csr_of (fcr31 c)) r) (f_read fm c (MIPSInst_FS ir)) Hfs) as [Hw (X & E & HX)].
      destruct (f_tint fm _ _) as [w k]. cbn in Hw, E. subst k. eexists _, _. split; [done|]. split; [done|]. apply with_rm_wf, SETCX_wf; [apply CLEARCX_wf; by apply with_rm_wf|done].
    + destruct (_ <=? _); [|done]. unfold fpu_compare, run. cbv zeta. set (sig := truthy _). set (cond := cmptab _).
      pose proof (fcmp_wf (f_format fm) (csr_of (fcr31 c)) (f_read fm c (MIPSInst_FS ir)) (f_read fm c (MIPSInst_FT ir)) cond sig Hk) as Hcmp.
      destruct (fcmp _ _ _ _ _ _) as [b k]. cbn [mbind option_bind]. cbn in Hcmp |- *. split; [done|]. split; [|eexists; split; [done|by apply of_csr_range]].
      destruct (_ && _); [done|apply copcsr_range].
Qed.
Lemma fpu_decode_w_ok ir c : fpu_wf c → dec_ok c (fpu_decode_w ir c).
Proof.
  intros Hc. unfold fpu_decode_w. cbv zeta. set (x := s32 _). assert (- 2 ^ 31 ≤ x < 2 ^ 31) as Hx by (unfold x, s32; pose proof (Z.mod_pos_bound (SIFROMREG c (MIPSInst_FS ir) + 2 ^ 31) (2 ^ 32) ltac:(lia)); lia).
  pose proof (csr_of_wf (fcr31 c)) as Hk. destruct (_ =? _); [|destruct (_ =? _); [|done]].
  - apply csr_op_ok, (tot_ok SP); [done|done|]. apply (FpTotal.from_int_total SP SP 32); cbn; lia.
  - apply csr_op_ok, (tot_ok DP); [done|done|]. apply (FpTotal.from_int_exact_total DP 32); cbn; lia.
Qed.
Lemma fpucondbit_range i : 0 ≤ fpucondbit i < 2 ^ 32.
Proof. unfold fpucondbit. apply nth_forall; [repeat constructor; done|done]. Qed.
Lemma write_result_wf v ir c : fpu_wf c → rv_wf v → fpu_wf (write_result v ir c).
Proof.
  intros Hc Hv. pose proof (FD_range ir). destruct v as [v|v|w|b]; cbn in *; try (by apply SITOREG_wf).
  - apply set_fpr_wf; [done|]. by apply (bits_range DP).
  - apply set_fcr31_wf; [done|]. pose proof (fw_csr c Hc). destruct b; [apply lor_range; [lia|done|apply fpucondbit_range]|by apply ldiff_range].
Qed.
Lemma fpu_emu_total xcp c ir : fpu_wf c → ∃ sig c', fpu_emu xcp c ir = Some (sig, c') ∧ fpu_wf c'.
Proof.
  intros Hc. unfold fpu_emu. cbv zeta. set (d := if _ =? s_fmt then _ else _). assert (dec_ok c d) as Hd.
  { unfold d. destruct (_ =? s_fmt); [by apply fpu_decode_ok; [apply _|]|]. destruct (_ =? d_fmt); [by apply fpu_decode_ok; [apply _|]|]. destruct (_ =? w_fmt); [by apply fpu_decode_w_ok|done]. }
  destruct d as [[sig|v rcsr c']|]; [by eexists _, _|cbn [mbind option_bind]|done]. destruct Hd as (Hv & Hr & w & -> & Hw). cbn [fcr31 set_fcr31].
  assert (fpu_wf (set_fcr31 (Z.ldiff w FPU_CSR_ALL_X .| rcsr) c)) as Hc2 by (apply set_fcr31_wf; [done|]; apply lor_range; [lia|by apply ldiff_range|done]).
  destruct (pending _); eexists _, _; (split; [done|]); [done|by apply write_result_wf].
Qed.

(** ** 1.0 and 2.0 in $f2 and $f4 *)
Definition demo_regs : pt_regs := {| regs := replicate 32 0; cp0_epc := 0x1000; cp0_cause := 0 |}.
Definition demo_fpu : fpu := SITOREG 0x3f800000 2 (SITOREG 0x40000000 4 {| fprs := replicate 32 0; fcr31 := 0 |}).

End Cp1Insn.
