(* ===== verification/Cp1Run.v ===== *)
(** * Cp1Run: programs under the emulator

    On the model of Cp1emu.v: the registers stay well formed and the handler comes
    to an end; the frame for an instruction in a delay slot leads back to the
    branch's target; a signal frame gives the registers back; the emulator and
    branch.c agree on coprocessor branches. *)

From S2P Require Import Prelude Ieee754 FpArith FpConv FpSqrt FpTotal Cp1emu Cp1Insn.
Import Ieee754 FpArith FpConv FpSqrt Cp1emu Cp1Insn.

Module Cp1Run.

(** ** The flat memory keeps what was stored *)
Lemma get_bytes_range n a m v : get_bytes n a m = Some v → 0 ≤ v < 2 ^ (8 * Z.of_nat n).
Proof.
  revert a v. induction n as [|n IH]; intros a v; cbn [get_bytes]; [intros [= <-]; lia|]. destruct (m !! a) as [b|]; [|done]. cbn [mbind option_bind].
  destruct (get_bytes n (a + 1) m) as [r|] eqn:E; [|done]. intros [= <-]. apply IH in E. rewrite Nat2Z.inj_succ, Z.mul_succ_r, Z.pow_add_r by lia.
  change (2 ^ 8) with 256. pose proof (Z.mod_pos_bound b 256 ltac:(lia)). nia.
Qed.
Lemma put_bytes_other n a v m m' b : put_bytes n a v m = Some m' → b < a ∨ a + Z.of_nat n ≤ b → m' !! b = m !! b.
Proof.
  revert a v m. induction n as [|n IH]; intros a v m; cbn [put_bytes]; [by intros [= <-]|]. destruct (m !! a); [|done]. cbn [mbind option_bind].
  intros E Hb. rewrite (IH _ _ _ E) by lia. apply lookup_insert_ne. lia.
Qed.
Lemma get_bytes_eq n a m m' : (∀ b, a ≤ b < a + Z.of_nat n → m' !! b = m !! b) → get_bytes n a m' = get_bytes n a m.
Proof.
  revert a. induction n as [|n IH]; intros a Hm; [done|]. cbn [get_bytes]. rewrite Hm by lia. destruct (m !! a); [|done]. cbn [mbind option_bind].
  rewrite IH; [done|]. intros. apply Hm. lia.
Qed.
Lemma get_put_bytes n a v m m' : put_bytes n a v m = Some m' → get_bytes n a m' = Some (v `mod` 2 ^ (8 * Z.of_nat n)).
Proof.
  revert a v m. induction n as [|n IH]; intros a v m; cbn [put_bytes get_bytes]; [by rewrite Z.mod_1_r|]. destruct (m !! a); [|done]. cbn [mbind option_bind].
  intros E. assert (m' !! a = Some (v `mod` 256)) as -> by (rewrite (put_bytes_other _ _ _ _ _ a E) by lia; apply lookup_insert_eq). cbn [mbind option_bind]. rewrite (IH _ _ _ E). cbn [mbind option_bind]. f_equal.
  rewrite Nat2Z.inj_succ, Z.mul_succ_r, (Z.add_comm _ 8), Z.pow_add_r by lia. change (2 ^ 8) with 256. rewrite Z.rem_mul_r by lia. by rewrite Z.mod_mod by lia.
Qed.
#[export] Instance bytes_laws : UserMemLaws bytes.
Proof.
  split; unfold get_user, put_user, bytes_mem.
  - intros n a m v Hn H. apply get_bytes_range in H. by rewrite Z2Nat.id in H.
  - intros n a v m m' Hn H Hv. rewrite (get_put_bytes _ _ _ _ _ H), Z2Nat.id, Z.mod_small; done.
  - intros n a v k b m m' Hn Hk H Hd. apply get_bytes_eq. intros x Hx. apply (put_bytes_other _ _ _ _ _ _ H). lia.
Qed.

Section invariant.
Context {M : Type} `{!UserMem M} `{!UserMemLaws M}.
Implicit Types s : st M.

Record regs_wf (x : pt_regs) : Prop := {
  rw_len : length (regs x) = 32%nat; rw_regs : Forall (λ v, 0 ≤ v < 2 ^ 32) (regs x); rw_epc : 0 ≤ cp0_epc x < 2 ^ 32; rw_cause : 0 ≤ cp0_cause x < 2 ^ 32 }.
Definition st_wf s : Prop := regs_wf (xcp s) ∧ fpu_wf (ctx s).
Lemma gpr_range x n : regs_wf x → 0 ≤ gpr x n < 2 ^ 32.
Proof. intros [_ Hr _ _]. apply (nth_forall (λ v, 0 ≤ v < 2 ^ 32)); [done|lia]. Qed.
Lemma set_gpr_wf n v x : regs_wf x → 0 ≤ v < 2 ^ 32 → regs_wf (set_gpr n v x).
Proof. intros [Hl Hr He Hc] Hv. split; cbn; [by rewrite length_insert|by apply Forall_insert|done|done]. Qed.
Lemma set_epc_wf v x : regs_wf x → 0 ≤ v < 2 ^ 32 → regs_wf (set_epc v x).
Proof. intros [] Hv. by split. Qed.
Lemma set_cause_wf v x : regs_wf x → 0 ≤ v < 2 ^ 32 → regs_wf (set_cause v x).
Proof. intros [] Hv. by split. Qed.
Lemma clear_bd_wf x : regs_wf x → regs_wf (clear_bd x).
Proof. intros Hx. apply set_cause_wf; [done|]. apply ldiff_range; [lia|apply Hx]. Qed.
Lemma upd_xcp_wf f s : st_wf s → (regs_wf (xcp s) → regs_wf (f (xcp s))) → st_wf (upd_xcp f s).
Proof. intros [Hx Hc] Hf. split; [by apply Hf|done]. Qed.
Lemma upd_ctx_wf f s : st_wf s → (fpu_wf (ctx s) → fpu_wf (f (ctx s))) → st_wf (upd_ctx f s).
Proof. intros [Hx Hc] Hf. split; [done|by apply Hf]. Qed.

Lemma uread_range n a s v : 0 ≤ n → uread n a s = inr v → 0 ≤ v < 2 ^ (8 * n).
Proof. intros Hn. unfold uread. destruct (negb _); [done|]. destruct (get_user n a (mem s)) eqn:E; intros [= <-]. by eapply get_range. Qed.
Lemma uread_wf n a s sig s' : st_wf s → uread n a s = inl (sig, s') → st_wf s'.
Proof. intros Hs. unfold uread. destruct (negb _); [by intros [= <- <-]|]. by destruct (get_user n a (mem s)); intros [= <- <-]. Qed.
Lemma load_wf n a k s : 0 ≤ n → st_wf s → (∀ v, 0 ≤ v < 2 ^ (8 * n) → fpu_wf (ctx s) → fpu_wf (k v (ctx s))) → st_wf (snd (load n a k s)).
Proof.
  intros Hn Hs Hk. unfold load. destruct (uread n a s) as [[sig s']|v] eqn:E; cbn; [by eapply uread_wf|]. apply upd_ctx_wf; [done|]. apply Hk. by eapply uread_range.
Qed.
Lemma store_wf n a v s : st_wf s → st_wf (snd (store n a v s)).
Proof. intros Hs. unfold store, uwrite. destruct (negb _); [done|]. by destruct (put_user n a v (mem s)). Qed.
Lemma DITOREG_wf v x c : fpu_wf c → 0 ≤ v < 2 ^ 64 → fpu_wf (DITOREG v x c).
Proof. apply set_fpr_wf. Qed.

(** A result that is there and well formed. *)
Definition good (r : option (Z * st M)) : Prop := ∃ sig s, r = Some (sig, s) ∧ st_wf s.
Lemma good_intro r : st_wf (snd r) → good (Some r).
Proof. intros H. destruct r as [sig s]. by exists sig, s. Qed.
Lemma fma3_wf F `{!Format F} o f3 c x y z : csr_wf c → wf F x → wf F y → wf F z → (∀ c x, wf F x → FpTotal.tot F (CLEARCX c) (Some (f3 c x)) ∨ f3 c x = (x, c)) →
  ∃ v k, DEF3OP (fmul F) (aop_fn F o) f3 c x y z = Some (v, k) ∧ wf F v ∧ csr_wf k.
Proof.
  intros Hc Hx Hy Hz H3. unfold DEF3OP. destruct (arith_tot F Mul c y z Hy Hz) as (v1 & X1 & E1 & HX1 & Hv1). cbn [aop_fn] in E1. rewrite E1. cbn [mbind option_bind].
  set (c1 := SETCX (CLEARCX c) X1). assert (csr_wf c1) as Hc1 by (apply SETCX_wf; [by apply CLEARCX_wf|done]).
  destruct (arith_tot F o c1 v1 x Hv1 Hx) as (v2 & X2 & -> & HX2 & Hv2). cbn [mbind option_bind]. set (c2 := SETCX (CLEARCX c1) X2). assert (csr_wf c2) as Hc2 by (apply SETCX_wf; [by apply CLEARCX_wf|done]).
  assert (wf F (fst (f3 c2 v2)) ∧ csr_wf (snd (f3 c2 v2))) as [Hv3 Hc3].
  { destruct (H3 c2 v2 Hv2) as [(v3 & X3 & [= ->] & HX3 & Hv3)| ->]; [|done]. split; [done|]. apply SETCX_wf; [by apply CLEARCX_wf|done]. }
  destruct (f3 c2 v2) as [v3 c3]. eexists _, _. split; [done|]. split; [done|]. clearbody c1 c2. destruct Hc1 as [a1 _ b1 _ _], Hc2 as [a2 _ b2 _ _], Hc3 as [a3 m3 b3 d3 e3].
  cbn [snd] in a3, m3, b3, d3, e3. split; cbn [with_cx sx mx cx pad1 pad0] in *; repeat apply lor_range; done || lia.
Qed.
Lemma fma_good F `{!Format F} h rd wr ir s :
  st_wf s → (∀ c n, wf F (rd c n)) → (∀ v c, wf F v → fpu_wf c → fpu_wf (wr v (MIPSInst_FD ir) c)) →
  (∀ c x y z, csr_wf c → wf F x → wf F y → wf F z → ∃ v k, h c x y z = Some (v, k) ∧ wf F v ∧ csr_wf k) → good (fma F h rd wr ir s).
Proof.
  intros [Hx Hc] Hrd Hwr Hh. unfold fma, run. destruct (Hh (csr_of (fcr31 (ctx s))) (rd (ctx s) (MIPSInst_FR ir)) (rd (ctx s) (MIPSInst_FS ir)) (rd (ctx s) (MIPSInst_FT ir)))
    as (v & k & -> & Hv & Hk); [apply csr_of_wf|done..|]. cbn [mbind option_bind]. set (c2 := wr v _ _).
  assert (fpu_wf c2) as Hc2 by (apply Hwr; [done|]; apply set_fcr31_wf; [done|]; by apply of_csr_range). apply good_intro. split; [done|]. cbn [snd ctx upd_ctx].
  apply set_fcr31_wf; [done|]. apply lor_range; [lia|apply ldiff_range; [lia|apply Hc2]|]. unfold copcsr_x. repeat apply lor_range; try lia; destruct (ieee754_cxtest _ _); done.
Qed.
Lemma fpux_emu_good ir s : st_wf s → good (fpux_emu ir s).
Proof.
  intros Hs. pose proof (FD_range ir). unfold fpux_emu. cbv zeta.
  assert (∀ F (H : Format F) o f3 rd wr, (∀ c n, wf F (rd c n)) → (∀ v c, wf F v → fpu_wf c → fpu_wf (wr v (MIPSInst_FD ir) c)) →
    (∀ c x, wf F x → FpTotal.tot F (CLEARCX c) (Some (f3 c x)) ∨ f3 c x = (x, c)) → good (fma F (DEF3OP (fmul F) (aop_fn F o) f3) rd wr ir s)) as Hf.
  { intros. apply fma_good; [done..|]. intros. by apply fma3_wf. }
  assert (∀ F (H : Format F) c x, wf F x → FpTotal.tot F (CLEARCX c) (Some (fneg F c x)) ∨ fneg F c x = (x, c)) as Hneg by (intros; left; by apply FpTotal.neg_abs_total).
  assert (∀ v c, wf SP v → fpu_wf c → fpu_wf (SPTOREG v (MIPSInst_FD ir) c)) as Hws by (intros; by apply SITOREG_wf).
  assert (∀ v c, wf DP v → fpu_wf c → fpu_wf (DPTOREG v (MIPSInst_FD ir) c)) as Hwd by (intros; apply DITOREG_wf; [done|by apply (bits_range DP)]).
  assert (∀ c n, wf SP (SPFROMREG c n)) as Hrs by (intros; by apply (of_bits_wf SP)). assert (∀ c n, wf DP (DPFROMREG c n)) as Hrd by (intros; by apply (of_bits_wf DP)).
  assert (∀ F (H : Format F) c x, wf F x → FpTotal.tot F (CLEARCX c) (Some (nothing c x)) ∨ nothing c x = (x, c)) as Hn by (intros; by right).
  repeat match goal with |- context [if ?b then _ else _] => destruct b end; try (by apply good_intro);
    try (by apply good_intro, store_wf); try (apply good_intro, load_wf; [done..|]; intros; by first [apply SITOREG_wf|apply DITOREG_wf]).
  - apply (Hf SP _ Add); [exact Hrs|exact Hws|apply (Hn SP _)].
  - apply (Hf SP _ Sub); [exact Hrs|exact Hws|apply (Hn SP _)].
  - apply (Hf SP _ Add); [exact Hrs|exact Hws|apply (Hneg SP _)].
  - apply (Hf SP _ Sub); [exact Hrs|exact Hws|apply (Hneg SP _)].
  - apply (Hf DP _ Add); [exact Hrd|exact Hwd|apply (Hn DP _)].
  - apply (Hf DP _ Sub); [exact Hrd|exact Hwd|apply (Hn DP _)].
  - apply (Hf DP _ Add); [exact Hrd|exact Hwd|apply (Hneg DP _)].
  - apply (Hf DP _ Sub); [exact Hrd|exact Hwd|apply (Hneg DP _)].
Qed.
Lemma branch_to_range e insn t : 0 ≤ branch_to e insn t < 2 ^ 32.
Proof. apply u32_range. Qed.
Lemma jump_range e insn : 0 ≤ (u32 e .>> 28 .<< 28) .| (MIPSInst_JTARGET insn .<< 2) < 2 ^ 32.
Proof.
  pose proof (u32_range e). apply lor_range; [lia|..].
  - rewrite Z.shiftr_div_pow2, Z.shiftl_mul_pow2 by lia. pose proof (Z.div_mod (u32 e) (2 ^ 28) ltac:(lia)). pose proof (Z.mod_pos_bound (u32 e) (2 ^ 28) ltac:(lia)). pose proof (Z.div_pos (u32 e) (2 ^ 28)). lia.
  - unfold MIPSInst_JTARGET. change 0x03ffffff with (Z.ones 26). rewrite Z.land_ones, Z.shiftl_mul_pow2 by lia. pose proof (Z.mod_pos_bound insn (2 ^ 26) ltac:(lia)). lia.
Qed.
Lemma goto_wf a s : st_wf s → 0 ≤ a < 2 ^ 32 → st_wf (upd_xcp (set_epc a) s).
Proof. intros Hs Ha. apply upd_xcp_wf; [done|]. intros. by apply set_epc_wf. Qed.
Lemma link_wf n v s : st_wf s → st_wf (upd_xcp (set_gpr n (u32 v)) s).
Proof. intros Hs. apply upd_xcp_wf; [done|]. intros. apply set_gpr_wf; [done|apply u32_range]. Qed.
Lemma gpr_wf s n : st_wf s → 0 ≤ gpr (xcp s) n < 2 ^ 32.
Proof. intros [Hx _]. by apply gpr_range. Qed.
Lemma compute_return_epc_wf s : st_wf s → st_wf (snd (compute_return_epc s)).
Proof.
  intros Hs. unfold compute_return_epc. destruct (truthy _); [done|]. destruct (get_user 4 (epc s) (mem s)) as [insn|]; [|done]. cbv zeta.
  repeat match goal with |- context [if ?b then (_, _) else _] => destruct b end; cbn [snd]; try done;
    repeat apply goto_wf; repeat apply link_wf; try done; try apply branch_to_range; try apply jump_range; try apply gpr_wf; try done; try (by repeat apply link_wf).
  all: destruct (_ =? jal_op); [by apply link_wf|done].
Qed.
Lemma frame_range x : 0 ≤ Z.ldiff (u32 x) 7 < 2 ^ 32.
Proof. apply ldiff_range; [lia|apply u32_range]. Qed.
Lemma mips_dsemul_wf ir cpc s : st_wf s → 0 ≤ cpc < 2 ^ 32 → st_wf (snd (mips_dsemul ir cpc s)).
Proof.
  intros Hs Hc. unfold mips_dsemul. destruct (ir =? 0); [apply upd_xcp_wf; [done|]; intros; by apply clear_bd_wf, set_epc_wf|]. cbv zeta. destruct (negb _); [done|].
  destruct (put_err _ _ _ _) as [err m]. destruct err; [done|]. apply goto_wf; [done|apply frame_range].
Qed.
Definition out_wf (bd : bool) (o : out M) : Prop :=
  match o with
  | Next s c => st_wf s ∧ 0 ≤ c < 2 ^ 32
  | Ret _ s => st_wf s
  | Again s ir c => st_wf s ∧ 0 ≤ c < 2 ^ 32 ∧ in_bd (xcp s) = true ∧ bd = false
  end.
Lemma after_wf bd c r : 0 ≤ c < 2 ^ 32 → st_wf (snd r) → out_wf bd (after c r).
Proof. intros Hc Hr. unfold after. by destruct (_ =? 0). Qed.
Lemma in_bd_set x : in_bd (set_cause (cp0_cause x .| CAUSEF_BD) x) = true.
Proof. unfold in_bd, truthy. cbn [cp0_cause set_cause]. rewrite Z.land_lor_distr_l, Z.land_diag. apply negb_true_iff, Z.eqb_neq. intros [_ [=]]%Z.lor_eq_0_iff. Qed.
Lemma emul_bc_wf ir contpc s : st_wf s → 0 ≤ contpc < 2 ^ 32 → out_wf (in_bd (xcp s)) (emul_bc ir contpc s).
Proof.
  intros Hs Hc. unfold emul_bc. destruct (in_bd (xcp s)) eqn:Eb; [done|]. cbv zeta. set (s1 := upd_xcp (λ x, set_cause (cp0_cause x .| CAUSEF_BD) x) s).
  assert (st_wf s1) as Hs1 by (apply upd_xcp_wf; [done|]; intros; apply set_cause_wf; [done|]; apply lor_range; [lia|apply Hs|done]).
  set (s2 := upd_xcp (λ x, set_epc (u32 (cp0_epc x + 4)) x) s1). assert (st_wf s2) as Hs2 by (apply goto_wf; [done|apply u32_range]).
  match goal with |- context [if ?b then match _ with inl _ => _ | inr _ => _ end else _] => destruct b end.
  - destruct (uread 4 (epc s2) s2) as [[sig s']|i] eqn:E; [by eapply uread_wf|]. destruct (is_ours i).
    + split_and!; [done|apply u32_range..|apply in_bd_set|done].
    + pose proof (mips_dsemul_wf i (u32 (epc s2 + (MIPSInst_SIMM ir .<< 2))) s2 Hs2 (u32_range _)). by destruct (mips_dsemul _ _ _).
  - match goal with |- context [if ?b then _ else _] => destruct b end; cbn; (split; [done|]); [apply u32_range|done].
Qed.
Lemma rm_range v : 0 ≤ mips_rm v < 2 ^ 32 ∧ 0 ≤ ieee_rm v < 2 ^ 32.
Proof. split; apply (nth_forall (λ v, 0 ≤ v < 2 ^ 32)); try lia; repeat constructor; lia. Qed.
Lemma emul_cfc_wf ir s : st_wf s → st_wf (emul_cfc ir s).
Proof.
  intros Hs. unfold emul_cfc. destruct (_ =? 0); [done|]. apply upd_xcp_wf; [done|]. intros. apply set_gpr_wf; [done|]. destruct (_ =? 31); [|lia].
  apply lor_range; [lia|apply ldiff_range; [lia|apply Hs]|apply rm_range].
Qed.
Lemma emul_ctc_wf ir s : st_wf s → st_wf (snd (emul_ctc ir s)).
Proof.
  intros Hs. unfold emul_ctc. cbn [snd]. destruct (_ =? 31); [|done]. apply upd_ctx_wf; [done|]. intros. apply set_fcr31_wf; [done|].
  apply lor_range; [lia|apply ldiff_range; [lia|]|apply rm_range]. destruct (_ =? 0); [lia|by apply gpr_wf].
Qed.
Lemma emul_cop1_wf ir contpc s : st_wf s → 0 ≤ contpc < 2 ^ 32 → ∃ o : out M, emul_cop1 ir contpc s = Some o ∧ out_wf (in_bd (xcp s)) o.
Proof.
  intros Hs Hc. pose proof (RD_range ir). unfold emul_cop1. destruct (_ =? mfc_op).
  { eexists. split; [done|]. split; [|done]. destruct (_ =? 0); [done|]. apply upd_xcp_wf; [done|]. intros. apply set_gpr_wf; [done|apply SIFROMREG_range]. }
  destruct (_ =? mtc_op). { eexists. split; [done|]. split; [|done]. apply upd_ctx_wf; [done|]. intros. by apply SITOREG_wf. }
  destruct (_ =? cfc_op). { eexists. split; [done|]. split; [by apply emul_cfc_wf|done]. }
  destruct (_ =? ctc_op). { eexists. split; [done|]. apply after_wf; [done|by apply emul_ctc_wf]. }
  destruct (_ =? bc_op). { eexists. split; [done|]. by apply emul_bc_wf. }
  destruct (_ =? 0). { by eexists. }
  destruct (fpu_emu_total (xcp s) (ctx s) ir) as (sig & c' & -> & Hc'); [apply Hs|]. eexists. split; [done|]. apply after_wf; [done|]. split; [apply Hs|done].
Qed.
Lemma emul_one_wf ir contpc s : st_wf s → 0 ≤ contpc < 2 ^ 32 → ∃ o, emul_one ir contpc s = Some o ∧ out_wf (in_bd (xcp s)) o.
Proof.
  intros Hs Hc. pose proof (RT_range ir). unfold emul_one. cbv zeta.
  destruct (_ =? ldc1_op). { eexists. split; [done|]. apply after_wf; [done|]. apply load_wf; [done..|]. intros. by apply DITOREG_wf. }
  destruct (_ =? sdc1_op). { eexists. split; [done|]. apply after_wf; [done|]. by apply store_wf. }
  destruct (_ =? lwc1_op). { eexists. split; [done|]. apply after_wf; [done|]. apply load_wf; [done..|]. intros. by apply SITOREG_wf. }
  destruct (_ =? swc1_op). { eexists. split; [done|]. apply after_wf; [done|]. by apply store_wf. }
  destruct (_ =? cop1_op). { by apply emul_cop1_wf. }
  destruct (_ =? cop1x_op). { destruct (fpux_emu_good ir s Hs) as (sig & s' & -> & Hs'). eexists. split; [done|]. by apply after_wf. }
  destruct (_ =? spec_op); [destruct (negb _)|]; try by eexists.
  eexists. split; [done|]. split; [|done]. unfold emul_movc. destruct (Bool.eqb _ _); [|done]. apply upd_xcp_wf; [done|]. intros. apply set_gpr_wf; [done|by apply gpr_range].
Qed.
Lemma done_wf c s : st_wf s → 0 ≤ c < 2 ^ 32 → st_wf (upd_xcp (λ x, clear_bd (set_epc c x)) s).
Proof. intros Hs Hc. apply upd_xcp_wf; [done|]. intros. by apply clear_bd_wf, set_epc_wf. Qed.
(** Two instructions at most: the one in a delay slot is no branch. *)
Lemma emul_good ir contpc s : st_wf s → 0 ≤ contpc < 2 ^ 32 → good (emul 2 ir contpc s).
Proof.
  intros Hs Hc. destruct (emul_one_wf ir contpc s Hs Hc) as (o & Eo & Ho). cbn [emul]. rewrite Eo. cbn [mbind option_bind].
  destruct o as [s1 c1|sig s1|s1 ir1 c1]; [destruct Ho; by apply good_intro, done_wf|by apply good_intro|]. destruct Ho as (Hs1 & Hc1 & Hb & _).
  destruct (emul_one_wf ir1 c1 s1 Hs1 Hc1) as (o & -> & Ho). cbn [mbind option_bind]. rewrite Hb in Ho. destruct o as [s2 c2|sig s2|s2 ir2 c2]; [destruct Ho; by apply good_intro, done_wf|by apply good_intro|].
  by destruct Ho as (_ & _ & _ & [=]).
Qed.
Lemma cop1Emulate_good s : st_wf s → good (cop1Emulate s).
Proof.
  intros Hs. unfold cop1Emulate. destruct (uread 4 (epc s) s) as [[sig s']|ir] eqn:E; [apply good_intro; by eapply uread_wf|].
  set (s1 := if in_bd (xcp s) && negb (isBranchInstr ir) then upd_xcp clear_bd s else s). assert (st_wf s1) as Hs1 by (unfold s1; destruct (_ && _); [apply upd_xcp_wf; [done|]; apply clear_bd_wf|done]). clearbody s1. cbv zeta.
  destruct (in_bd (xcp s1)).
  - pose proof (compute_return_epc_wf s1 Hs1) as Hs2. destruct (compute_return_epc s1) as [err s2]. cbn [snd] in Hs2. destruct (negb _); [by apply good_intro|].
    destruct (uread 4 _ s2) as [[sig s']|ir2] eqn:E2; [apply good_intro; by eapply uread_wf|]. apply emul_good; [apply goto_wf; [done|apply u32_range]|apply Hs2].
  - apply emul_good; [done|apply u32_range].
Qed.
Lemma set_rm_wf (f : Z → Z) s : (∀ v, 0 ≤ f v < 2 ^ 32) → st_wf s → st_wf (upd_ctx (set_rm f) s).
Proof. intros Hf Hs. apply upd_ctx_wf; [done|]. intros. apply set_fcr31_wf; [done|]. apply lor_range; [lia|apply ldiff_range; [lia|apply Hs]|apply Hf]. Qed.
Lemma handler_round_wf has s : st_wf s → ∃ r, handler_round has s = Some r ∧ match r with inl s' => st_wf s' ∧ epc s < epc s' | inr (_, s') => st_wf s' end.
Proof.
  intros Hs. unfold handler_round. cbv zeta. destruct (uread 4 (epc s) s) as [[sig s']|insn] eqn:E; [eexists; split; [done|]; by eapply uread_wf|].
  match goal with |- context [mbind _ ?r] => assert (good r) as (sig & s' & -> & Hs') end.
  { destruct (insn =? 0); [apply good_intro, goto_wf; [done|apply u32_range]|]. destruct (cop1Emulate_good (upd_ctx (set_rm ieee_rm) s)) as (sig & s' & -> & Hs'); [apply set_rm_wf; [apply rm_range|done]|].
    apply good_intro, set_rm_wf; [apply rm_range|done]. }
  cbn [mbind option_bind]. eexists. split; [done|]. destruct (has || _); [done|]. destruct (Z.ltb_spec (epc s) (epc s')); [done|done].
Qed.
Lemma handler_loop_good has s : st_wf s → ∀ fuel, 2 ^ 32 - epc s ≤ Z.of_nat fuel → good (handler_loop has fuel s).
Proof.
  intros Hs fuel. revert s Hs. induction fuel as [|fuel IH]; intros s Hs Hf; [destruct Hs as [[] _]; unfold epc in Hf; lia|]. cbn [handler_loop].
  destruct (handler_round_wf has s Hs) as (r & -> & Hr). cbn [mbind option_bind]. destruct r as [s'|[sig s']]; [|by apply good_intro]. destruct Hr. apply IH; [done|lia].
Qed.
Lemma handler_loop_mono has s fuel r : handler_loop has fuel s = Some r → ∀ k, (fuel ≤ k)%nat → handler_loop has k s = Some r.
Proof.
  revert s. induction fuel as [|fuel IH]; intros s Hr k Hk; [done|]. destruct k as [|k]; [lia|]. cbn [handler_loop] in *.
  destruct (handler_round has s) as [[s'|r']|]; cbn [mbind option_bind] in *; [|done..]. apply IH; [done|lia].
Qed.

Lemma access_ok_range a n : 0 ≤ a < 2 ^ 32 → 0 ≤ n < 2 ^ 31 → access_ok a n = true → a + n < 2 ^ 31.
Proof.
  intros Ha Hn H. unfold access_ok in H. apply Z.eqb_eq in H. assert (∀ x, 0 ≤ x < 2 ^ 32 → 0x80000000 .& x = 0 → x < 2 ^ 31) as Hb.
  { intros x Hx H0. destruct (Z.lt_ge_cases x (2 ^ 31)) as [|Hge]; [done|]. exfalso. assert (Z.testbit (0x80000000 .& x) 31 = true) as Ht; [|by rewrite H0, Z.bits_0 in Ht].
    rewrite Z.land_spec. apply andb_true_iff. split; [done|]. apply Z.testbit_true; [lia|]. assert (x / 2 ^ 31 = 1) as -> by (symmetry; apply Z.div_unique with (x - 2 ^ 31); lia). done. }
  rewrite Z.land_lor_distr_r in H. apply Z.lor_eq_0_iff in H as [H1 H2]. apply Hb in H1; [|done]. apply Hb in H2; [|apply u32_range]. unfold u32 in H2. rewrite Z.mod_small in H2; lia.
Qed.
Lemma put_err_ok n a v r m' : put_err n a v r = (false, m') → fst r = false ∧ put_user n a v (snd r) = Some m'.
Proof. unfold put_err. destruct (put_user n a v (snd r)); intros [=]; by subst. Qed.
Lemma frame_below g : 0 ≤ g < 2 ^ 32 → Z.ldiff (u32 (g - 16)) 7 + 16 < 2 ^ 31 → Z.ldiff (u32 (g - 16)) 7 + 16 ≤ g.
Proof.
  intros Hg. change 7 with (Z.ones 3). rewrite Z.ldiff_ones_r, Z.shiftr_div_pow2, Z.shiftl_mul_pow2 by lia. change (2 ^ 3) with 8. pose proof (Z.div_mod (u32 (g - 16)) 8 ltac:(lia)) as E. pose proof (Z.mod_pos_bound (u32 (g - 16)) 8 ltac:(lia)).
  destruct (Z.lt_ge_cases g 16); unfold u32 in *.
  - rewrite <-(Z.mod_add _ 1 (2 ^ 32)), (Z.mod_small (g - 16 + 1 * 2 ^ 32)) in * by lia. lia.
  - rewrite (Z.mod_small (g - 16)) in * by lia. lia.
Qed.

(** C40: The frame for an instruction in a delay slot lies below the stack pointer, has the instruction at the new
    program counter, and the break after it leads to the target of the branch. *)
Theorem dsemul_roundtrip ir cpc s s' : st_wf s → 0 < ir < 2 ^ 32 → 0 ≤ cpc < 2 ^ 32 → mips_dsemul ir cpc s = (SIGILL, s') →
  get_user 4 (epc s') (mem s') = Some ir ∧ xcp s' = set_epc (epc s') (xcp s) ∧ epc s' + emuframe_size ≤ gpr (xcp s) 29 ∧
  do_dsemulret (upd_xcp (set_epc (epc s' + 4)) s') = (1, upd_xcp (set_epc cpc) s').
Proof.
  intros Hs Hi Hc. unfold mips_dsemul. destruct (Z.eqb_spec ir 0); [lia|]. cbv zeta. set (fr := Z.ldiff _ 7). assert (0 ≤ fr < 2 ^ 32) as Hfr by apply frame_range.
  destruct (access_ok fr emuframe_size) eqn:Ea; [|done]. pose proof (access_ok_range fr emuframe_size Hfr ltac:(done) Ea) as Hlt. assert (fr + 16 ≤ gpr (xcp s) 29) as Hb by (apply frame_below; [by apply gpr_wf|done]). clearbody fr. cbn [negb].
  destruct (put_err _ (fr + 12) _ _) as [err m4] eqn:E. destruct err; intros [= <-].
  apply put_err_ok in E as [E P4]. destruct (put_err _ (fr + 8) _ _) as [err m3] eqn:E3. cbn in E; subst err. apply put_err_ok in E3 as [E P3].
  destruct (put_err _ (fr + 4) _ _) as [err m2] eqn:E2. cbn in E; subst err. apply put_err_ok in E2 as [E P2]. destruct (put_err _ fr _ _) as [err m1] eqn:E1. cbn in E; subst err. apply put_err_ok in E1 as [_ P1].
  cbn [snd] in P1, P2, P3, P4. pose proof (get_put_same 4 _ cpc _ _ ltac:(lia) P4 ltac:(done)) as G4. pose proof (get_put_same 4 _ BD_COOKIE _ _ ltac:(lia) P3 ltac:(done)) as G3.
  pose proof (get_put_same 4 _ BREAK_MATH _ _ ltac:(lia) P2 ltac:(done)) as G2. pose proof (get_put_same 4 _ ir _ _ ltac:(lia) P1 ltac:(lia)) as G1.
  assert (∀ k b, 0 ≤ k → b + k ≤ fr + 4 → get_user k b m4 = get_user k b m1) as O1 by (intros; rewrite (get_put_other 4 _ _ k b _ _ ltac:(lia) ltac:(done) P4), (get_put_other 4 _ _ k b _ _ ltac:(lia) ltac:(done) P3), (get_put_other 4 _ _ k b _ _ ltac:(lia) ltac:(done) P2) by lia; done).
  split_and!; [cbn; by rewrite O1 by lia|done|done|].
  unfold do_dsemulret, epc. cbn [xcp upd_xcp set_epc cp0_epc mem set_mem]. assert (u32 (fr + 4 - 4) = fr) as -> by (unfold u32; rewrite Z.mod_small; lia). rewrite Ea. cbn [negb].
  assert (get_user 4 (fr + 4) m4 = Some BREAK_MATH) as -> by (by rewrite (get_put_other 4 _ _ 4 (fr + 4) _ _ ltac:(lia) ltac:(lia) P4), (get_put_other 4 _ _ 4 (fr + 4) _ _ ltac:(lia) ltac:(lia) P3) by lia).
  assert (get_user 4 (fr + 8) m4 = Some BD_COOKIE) as -> by (by rewrite (get_put_other 4 _ _ 4 (fr + 8) _ _ ltac:(lia) ltac:(lia) P4) by lia).
  rewrite !Z.eqb_refl, G4. done.
Qed.

(** ** Saving the registers in a signal frame *)
Definition save_regs (sc : Z) (c : fpu) (k : nat) (r : bool * M) : bool * M :=
  foldl (λ r i, put_err 8 (sc + sc_fpregs i) (fpr c (Z.of_nat i)) r) r (seq 0 k).
Lemma save_regs_ok sc c k m m' : fpu_wf c → save_regs sc c k (false, m) = (false, m') → ∀ i, (i < k)%nat → get_user 8 (sc + sc_fpregs i) m' = Some (fpr c (Z.of_nat i)).
Proof.
  intros Hc. unfold save_regs. revert m'. induction k as [|k IH]; intros m' E i Hi; [lia|]. rewrite seq_S, foldl_app in E. cbn [foldl] in E.
  apply put_err_ok in E as [E0 P]. destruct (foldl _ _ _) as [err m1]. cbn in E0; subst err. cbn [snd] in P.
  destruct (decide (i = k)) as [->|Hne]; [apply (get_put_same 8 _ _ _ _ ltac:(lia) P); by apply fpr_range|].
  rewrite (get_put_other 8 _ _ 8 _ _ _ ltac:(lia) ltac:(lia) P) by (unfold sc_fpregs; lia). apply IH; [done|lia].
Qed.
Lemma restore_regs_ok sc c c0 k m : fpu_wf c → fpu_wf c0 → (k ≤ 32)%nat → (∀ i, (i < k)%nat → get_user 8 (sc + sc_fpregs i) m = Some (fpr c (Z.of_nat i))) →
  ∃ c', foldl (λ '(err, c) i, let '(e, v) := match get_user 8 (sc + sc_fpregs i) m with Some v => (false, v) | None => (true, 0) end in ((err : bool) || e, set_fpr (Z.of_nat i) v c)) (false, c0) (seq 0 k) = (false, c') ∧
    fpu_wf c' ∧ ∀ i, (i < k)%nat → fpr c' (Z.of_nat i) = fpr c (Z.of_nat i).
Proof.
  intros Hc Hc0. induction k as [|k IH]; intros Hk Hm; [by exists c0; split_and!; [..|lia]|]. destruct IH as (c1 & E & Hc1 & Hr); [lia|intros; apply Hm; lia|].
  rewrite seq_S, foldl_app, E. cbn [foldl Nat.add]. rewrite Hm by lia. eexists. split; [done|]. split; [apply set_fpr_wf; [done|by apply fpr_range]|].
  intros i Hi. rewrite fpr_set by (done || lia). destruct (Z.eqb_spec (Z.of_nat i) (Z.of_nat k)) as [->|]; [done|]. apply Hr. lia.
Qed.
(** Registers saved in a signal frame without a fault come back unchanged. *)
Theorem context_roundtrip sc c c0 m m' : fpu_wf c → fpu_wf c0 → fpu_emulator_save_context sc c m = (false, m') → fpu_emulator_restore_context sc c0 m' = (false, c).
Proof.
  intros Hc Hc0 E. unfold fpu_emulator_save_context in E. apply put_err_ok in E as [E P]. change (foldl _ _ _) with (save_regs sc c 32 (false, m)) in *.
  destruct (save_regs sc c 32 (false, m)) as [err m1] eqn:E1. cbn in E; subst err. cbn [snd] in P. unfold fpu_emulator_restore_context.
  destruct (restore_regs_ok sc c c0 32 m' Hc Hc0 ltac:(lia)) as (c1 & -> & Hc1 & Hr).
  { intros i Hi. rewrite (get_put_other 4 _ _ 8 _ _ _ ltac:(lia) ltac:(lia) P) by (unfold sc_fpregs, sc_fpc_csr; lia). by apply (save_regs_ok _ _ 32 m m1). }
  rewrite (get_put_same 4 _ (fcr31 c) _ _ ltac:(lia) P) by apply Hc. cbn. f_equal. destruct c as [l w], c1 as [l1 w1]. unfold set_fcr31. cbn in *. f_equal.
  destruct Hc as [Hl _ _], Hc1 as [Hl1 _ _]. cbn in *. apply (nth_ext _ _ 0 0); [congruence|]. intros i Hi. specialize (Hr i ltac:(lia)). unfold fpr in Hr. cbn in Hr. by rewrite Nat2Z.id in Hr.
Qed.

(** ** branch.c and the emulator agree on the coprocessor branches *)
Lemma cond_bit w i : 0 ≤ i < 8 → truthy (w .& fpucondbit i) = Z.testbit w (i + Z.b2z (truthy i) + 23).
Proof.
  intros Hi. assert (∀ n, 0 ≤ n → truthy (w .& 2 ^ n) = Z.testbit w n) as Hb.
  { intros n Hn. rewrite <-Z.shiftl_1_l. by apply land_bit. }
  assert (fpucondbit i = 2 ^ (i + Z.b2z (truthy i) + 23)) as ->; [|apply Hb; destruct (truthy i); cbn; lia].
  assert (i = 0 ∨ i = 1 ∨ i = 2 ∨ i = 3 ∨ i = 4 ∨ i = 5 ∨ i = 6 ∨ i = 7) as H by lia. by repeat destruct H as [-> |H]; [..|subst].
Qed.
Lemma compute_return_epc_bc ir s :
  MIPSInst_OPCODE ir = cop1_op → truthy (epc s .& 3) = false → get_user 4 (epc s) (mem s) = Some ir →
  let kind := MIPSInst_RT ir .& 3 in let flag := truthy (fcr31 (ctx s) .& fpucondbit (MIPSInst_RT ir .>> 2)) in
  compute_return_epc s = (0, upd_xcp (set_epc (branch_to (epc s) ir (if (kind =? bcfl_op) || (kind =? bcf_op) then negb flag else flag))) s).
Proof.
  intros Hop Ha Hg. cbv zeta. unfold compute_return_epc. rewrite Ha, Hg. cbv zeta. rewrite Hop. cbn [Z.eqb Pos.eqb orb]. rewrite cond_bit; [|].
  - rewrite orb_comm. by destruct (_ || _).
  - pose proof (RT_range ir). rewrite Z.shiftr_div_pow2 by lia. change (2 ^ 2) with 4. pose proof (Z.div_pos (MIPSInst_RT ir) 4). pose proof (Z.div_lt_upper_bound (MIPSInst_RT ir) 4 8). lia.
Qed.
(** The state in which the instruction in the delay slot is emulated. *)
Definition in_slot s : st M := upd_xcp (λ x, set_epc (u32 (cp0_epc x + 4)) (set_cause (cp0_cause x .| CAUSEF_BD) x)) s.
(** C24: The emulator and branch.c agree on every coprocessor branch: which way it goes and where, with the delay
    slot run, put on the stack, or skipped accordingly. *)
Theorem bc_equivalence ir s :
  MIPSInst_OPCODE ir = cop1_op → truthy (epc s .& 3) = false → get_user 4 (epc s) (mem s) = Some ir → in_bd (xcp s) = false →
  ∃ e, compute_return_epc s = (0, upd_xcp (set_epc e) s) ∧
  match emul_bc ir (u32 (epc s + 4)) s with
  | Again s1 slot contpc => contpc = e ∧ s1 = in_slot s ∧ uread 4 (u32 (epc s + 4)) (in_slot s) = inr slot
  | Next s1 contpc => e = u32 (epc s + 8) ∧ contpc = if Z.testbit (MIPSInst_RT ir) 1 then e else u32 (epc s + 4)
  | Ret sig s1 => match uread 4 (u32 (epc s + 4)) (in_slot s) with inl r => r = (sig, s1) | inr slot => mips_dsemul slot e (in_slot s) = (sig, s1) end
  end.
Proof.
  intros Hop Ha Hg Hb. rewrite (compute_return_epc_bc ir s) by done. eexists. split; [done|]. unfold emul_bc. rewrite Hb. cbv zeta.
  set (kind := MIPSInst_RT ir .& 3). set (flag := truthy _). change (upd_xcp _ (upd_xcp _ s)) with (in_slot s). change (epc (in_slot s)) with (u32 (epc s + 4)).
  assert (u32 (u32 (epc s + 4) + (MIPSInst_SIMM ir .<< 2)) = branch_to (epc s) ir true) as -> by (unfold branch_to, u32; by rewrite Zplus_mod_idemp_l).
  destruct (if (kind =? bcfl_op) || (kind =? bcf_op) then negb flag else flag).
  - destruct (uread 4 (u32 (epc s + 4)) (in_slot s)) as [[sig s1]|slot]; [done|]. destruct (is_ours slot); [done|]. by destruct (mips_dsemul _ _ _).
  - assert (((kind =? bcfl_op) || (kind =? bctl_op)) = Z.testbit (MIPSInst_RT ir) 1) as ->.
    { unfold kind. change 3 with (Z.ones 2). rewrite Z.land_ones by lia. assert (Z.testbit (MIPSInst_RT ir `mod` 2 ^ 2) 1 = Z.testbit (MIPSInst_RT ir) 1) as <- by (rewrite Z.mod_pow2_bits_low by lia; done).
      pose proof (Z.mod_pos_bound (MIPSInst_RT ir) (2 ^ 2) ltac:(lia)) as H. revert H. generalize (MIPSInst_RT ir `mod` 2 ^ 2). intros v Hv. assert (v = 0 ∨ v = 1 ∨ v = 2 ∨ v = 3) as [-> |[-> |[-> | ->]]] by lia; done. }
    destruct (Z.testbit (MIPSInst_RT ir) 1); (split; [done|]); [|done]. unfold branch_to, u32. rewrite Zplus_mod_idemp_l. f_equal. lia.
Qed.
End invariant.

(** ** Programs on the flat memory *)
Definition word_at (a v : Z) (m : bytes) : bytes := list_to_map [(a, v `mod` 256); (a + 1, (v / 256) `mod` 256); (a + 2, (v / 2 ^ 16) `mod` 256); (a + 3, v / 2 ^ 24)] ∪ m.
Definition text (a : Z) (l : list Z) : bytes := foldr (λ '(i, v) m, word_at (a + 4 * i) v m) ∅ (zip (seqZ 0 (Z.of_nat (length l))) l).
Definition start (m : bytes) (a w : Z) (l : list (Z * Z)) : st bytes := {|
  xcp := {| regs := replicate 32 0; cp0_epc := a; cp0_cause := 0 |};
  ctx := foldr (λ '(n, v), SITOREG v n) {| fprs := replicate 32 0; fcr31 := w |} l;
  mem := m; fault := None; forced := [] |}.
Definition outcome (r : option (Z * st bytes)) : option (Z * Z * bool * Z * Z) :=
  '(sig, s) ← r; Some (sig, epc s, in_bd (xcp s), fcr31 (ctx s), SIFROMREG (ctx s) 0).

(** madd.s $f0, $f2, $f4, $f4 with overflow enabled: SIGFPE, and the result is in $f0 all the same; mul.s leaves it. *)
Example madd_writes_on_sigfpe :
  outcome (cop1Emulate (start (text 0x1000 [0x4c442020]) 0x1000 0x200 [(4, 0x7f7fffff)])) = Some (SIGFPE, 0x1000, false, 0x5214, 0x7f800000) ∧
  outcome (cop1Emulate (start (text 0x1000 [0x46042002]) 0x1000 0x200 [(4, 0x7f7fffff)])) = Some (SIGFPE, 0x1000, false, 0x5214, 0).
Proof. split; vm_compute; reflexivity. Qed.
(** rsqrt.s of -1 with invalid operation enabled: no SIGFPE and no cause bit, as sqrt.s has. *)
Example rsqrt_loses_invalid :
  outcome (cop1Emulate (start (text 0x1000 [0x46001016]) 0x1000 0x800 [(2, 0xbf800000)])) = Some (0, 0x1004, false, 0x840, 0x7fbfffff) ∧
  outcome (cop1Emulate (start (text 0x1000 [0x46001004]) 0x1000 0x800 [(2, 0xbf800000)])) = Some (SIGFPE, 0x1000, false, 0x10840, 0).
Proof. split; vm_compute; reflexivity. Qed.
(** bc1t to 0x1040 with the mul.s in its slot: the program counter of the signal is the slot's, and the branch is lost.
    With bgez in its place, and the trap taken in its slot, it is the branch's. *)
Example bc_slot_signal :
  outcome (cop1Emulate (start (text 0x1000 [0x4501000f; 0x46042002]) 0x1000 0x800200 [(4, 0x7f7fffff)])) = Some (SIGFPE, 0x1004, true, 0x805214, 0) ∧
  outcome (cop1Emulate (upd_xcp (set_cause CAUSEF_BD) (start (text 0x1000 [0x0401000f; 0x46042002]) 0x1000 0x800200 [(4, 0x7f7fffff)]))) = Some (SIGFPE, 0x1000, true, 0x805214, 0).
Proof. split; vm_compute; reflexivity. Qed.
(** movf $0, $2 and then lwc1 $f0, 0($0) in the same trap: the load goes to the address in $2, not to 0. *)
Example movc_writes_zero :
  let s := upd_xcp (set_gpr 2 0x2000) (start (text 0x2000 [0x12345678] ∪ text 0x1000 [0x00400001; 0xc4000000]) 0x1000 0 []) in
  outcome (fpu_emulator_cop1Handler 2 false s) = None ∧ outcome (fpu_emulator_cop1Handler 3 false s) = Some (SIGSEGV, 0x1008, false, 0, 0x12345678).
Proof. split; vm_compute; reflexivity. Qed.
(** Neither the function code of the header nor the one of the architecture reaches the case that ignores a prefetch:
    the format is two bits wide. *)
Lemma prefx_illegal {M} `{!UserMem M} ir (s : st M) : MIPSInst_FUNC ir = pfetch_op ∨ MIPSInst_FUNC ir = 0x0f → fpux_emu ir s = Some (SIGILL, s).
Proof.
  intros Hf. unfold fpux_emu. cbv zeta. assert (0 ≤ MIPSInst_FMA_FFMT ir < 4) as H.
  { unfold MIPSInst_FMA_FFMT. change 3 with (Z.ones 2). rewrite Z.land_ones by lia. by apply Z.mod_pos_bound. }
  rewrite (proj2 (Z.eqb_neq _ 7)) by lia. by destruct Hf as [-> | ->]; destruct (MIPSInst_FMA_FFMT ir =? s_fmt), (MIPSInst_FMA_FFMT ir =? d_fmt).
Qed.

(** ** Witnesses *)
Lemma start_wf m a w l : 0 ≤ a < 2 ^ 32 → 0 ≤ w < 2 ^ 32 → Forall (λ '(n, _), 0 ≤ n < 32) l → st_wf (start m a w l).
Proof.
  intros Ha Hw Hl. split; [split; cbn; [done|repeat constructor; lia|done|done]|]. cbn. induction Hl as [|[n v] l Hn _ IH]; [split; [done|cbn; repeat constructor; lia|done]|by apply SITOREG_wf].
Qed.
Definition demo : st bytes := start (text 0x1000 [0x46041000; 0x4604103c; 0x45010003; 0x46041001; 0x00000000; 0x00000000; 0xe4000000]) 0x1000 0 [(2, 0x3f800000); (4, 0x40000000)].
Lemma demo_wf : st_wf demo.
Proof. apply start_wf; [done..|]. repeat constructor; lia. Qed.

Definition stack : st bytes := upd_xcp (set_gpr 29 0x2010) (start (text 0x2000 [0; 0; 0; 0]) 0x1004 0 []).
Definition framed : st bytes := snd (mips_dsemul 0x24420001 0x3000 stack).
Lemma stack_wf : st_wf stack.
Proof. apply upd_xcp_wf; [apply start_wf; [done..|constructor]|]. intros. by apply set_gpr_wf. Qed.
Lemma dsemul_witness : do_dsemulret (upd_xcp (set_epc (epc framed + 4)) framed) = (1, upd_xcp (set_epc 0x3000) framed).
Proof.
  refine (proj2 (proj2 (proj2 (dsemul_roundtrip 0x24420001 0x3000 stack framed stack_wf _ _ _)))); [lia|lia|vm_compute; reflexivity].
Defined.
Definition sigframe : bytes := text 0x3000 (replicate 140 0).
Lemma context_witness : fpu_emulator_restore_context 0x3000 fpu_emulator_init_fpu (snd (fpu_emulator_save_context 0x3000 (ctx demo) sigframe)) = (false, ctx demo).
Proof.
  refine (context_roundtrip 0x3000 (ctx demo) fpu_emulator_init_fpu sigframe _ _ _ _); [apply demo_wf| |vm_compute; reflexivity].
  apply init_fpu_wf.
Defined.
Lemma bc_witness : ∃ e, compute_return_epc (upd_xcp (set_epc 0x1008) demo) = (0, upd_xcp (set_epc e) (upd_xcp (set_epc 0x1008) demo)) ∧ 0 ≤ e.
Proof. destruct (bc_equivalence 0x45010003 (upd_xcp (set_epc 0x1008) demo)) as (e & He & _); [vm_compute; reflexivity..|]. exists e. split; [exact He|]. vm_compute in He. injection He as <-. done. Defined.

End Cp1Run.
